(* ===== verification/_CoqProject ===== *)
-Q . S2P
Prelude.v
Bytes.v
Types.v
Proto.v
Codec.v
Routing.v
Crypto.v
Net.v
Text.v
IdentityFile.v
Peerstore.v
Store.v
Pool.v
Lookup.v
Wg.v
Tunnels.v
Relay.v
EventLoop.v
Udp.v
Metrics.v
Sybil.v
Erasure.v
Webrtc.v
WebServe.v
IceRtc.v
ShardState.v
Shard.v
ShardInv.v
ShardThms.v
Reactor.v
ShardReplies.v
ShardStore.v
ShardFiles.v
Channel.v
Secure.v
Replica.v
Fetch.v
Follow.v
Network.v
Node.v
NodeThms.v
NodeQuiet.v
NodeStop.v
Restart.v
Durable.v
Cli.v
SourceTests.v
Examples.v
Demos.v
