(* ===== verification/Prelude.v ===== *)
(** * Molia: a model of the DHT node and its correctness theorems

    Molia is a Kademlia-style distributed hash table over UDP.  A node runs several shards,
    each a thread with a socket, a routing table, a store and the other components below,
    and no state shared with the others except counters and a stop flag.  This library
    translates the Rust code under [src/src/] into executable definitions and proves what
    it guarantees.  Definitions keep the names of the code, prefixed by the type
    ([RoutingTable_insert], [Store_get]) where two types have a method of the same name.

    ** Files and what they model

    - [Prelude.v]: tactics, hints and lemmas on lists, sorting and integers used by all
      files; the result type, bounded vectors ([try_push] of [ArrayVec]).
    - [Bytes.v]: bytes, byte strings, fixed arrays, big- and little-endian integers, XOR.
    - [Types.v] ([types.rs]): identifiers, XOR distance, bucket index, shard choice, peers.
    - [Proto.v] ([proto/molia.proto]): message structs and the interface [Protobuf] to the
      generated codec, with a concrete codec that satisfies it.
    - [Codec.v] ([codec.rs]): the 12-byte header and message framing.
    - [Routing.v] ([routing.rs]): the k-bucket table.
    - [Crypto.v] ([crypto.rs]): identities, record signatures, proof of work.
    - [Net.v]: UTF-8 validation and the printing and parsing of socket addresses, the part
      of Rust's standard library that stored and exchanged addresses go through.
    - [Text.v]: the string operations of the standard library that requests and arguments go
      through (splitting, trimming, lossy decoding, numbers).
    - [IdentityFile.v] ([save], [load_or_generate] of [crypto.rs]): the identity across
      restarts, with failing writes and the legacy file.
    - [Peerstore.v] ([peerstore.rs]): the peer index and its write-ahead log, on a model of
      a directory whose device can fill up at any byte.
    - [Store.v] ([store.rs]): records, cache and provider lists, and their recovery.
    - [Pool.v] ([pool.rs]), [EventLoop.v] ([event_loop.rs]), [Metrics.v] ([metrics.rs]):
      buffer pool and arena, timer heap and command queue, counters.
    - [Udp.v] ([recv_batch] of [udp.rs]): the receive buffers of a shard.  [Reactor.v] (the rest
      of [udp.rs], [wait] and [setup_poller] of [event_loop.rs], the loop of [run_shard]): the
      socket, the poller and the turns they feed.
    - [Lookup.v] ([lookup.rs]): the iterative lookup, as operations and as a step relation
      [lk_step] over all replies, timeouts and send failures.
    - [Wg.v] ([wg.rs]): WireGuard framing, demultiplexing and the session engine.
      [Tunnels.v] ([wg_handshake.rs] and the example of the documentation): inner IP packets with
      their checksum, the pump between two tunnels, and handshakes between engines.
    - [Relay.v] ([nat.rs], [relay.rs]): punch candidates, endpoint hints, relay budget.
    - [Sybil.v] ([sybil.rs]): token buckets, scores and admission tokens, in IEEE doubles.
    - [Erasure.v] ([erasure.rs]): the layout of erasure-coded values.
    - [Webrtc.v] ([webrtc.rs]): the HTTP gateway for browsers: requests, rooms, the RPC
      bridge.  [WebServe.v]: the gateway as it serves: a listener and a thread per connection
      that interleave over one table of rooms.
    - [IceRtc.v] ([ice_rtc.rs]): the WebRTC session behind an accepted offer, over an interface
      to str0m's engine.
    - [ShardState.v], [Shard.v] ([shard.rs]): the state of a shard, the monad its handlers
      run in, and every handler, timer and command, up to the loop [run_shard].
    - [ShardInv.v]: an abstract specification of the loop ([low_step], [shard_step],
      [settled]) and the proof that every handler refines it.
    - [ShardThms.v]: what follows for whole histories, and single handlers;
      [ShardReplies.v]: the kind of every reply; [ShardStore.v]: what sending, timers and
      lookups leave alone (the class [Unsent]); [ShardFiles.v]: what every handler leaves of a
      property of the store and the logs (the class [FilesUse]).
    - [Channel.v]: what an exchange relies on to send and to receive a request ([Channel],
      [arrives]), and that datagrams in the clear provide it; [Secure.v]: that WireGuard
      sessions do, and the requests that wait for one; over either, [Replica.v]: a put at
      one shard and its receiver, [Fetch.v]: a get at one shard and the holder of the record.
      [Follow.v]: the answer of a shard without the record and the peers it makes a lookup ask.
    - [Network.v]: shards at their addresses and what they write to each other
      ([net_event]: one datagram, command or round of timers at one shard; a turn of the loop
      is a sequence of those, [shard_turn_acts]), over a network that may lose, delay, repeat
      and forge datagrams.
    - [Node.v] ([node.rs], [spawn_shard] and the thread of [shard.rs]): several shards, their
      queues and the API; an execution is a sequence of [Event]s, one step of one thread
      each.  [NodeThms.v]: the invariant of a node's histories ([node_reach]) and the results
      of calls; [NodeQuiet.v]: reading back what was put; [NodeStop.v]: stopping;
      [Restart.v]: reading back after a restart, through the log; [Durable.v]: the records of
      a shard and its log, after any history.
    - [Cli.v] ([bin/molia.rs]): the command line, from arguments to output and exit status.
    - [SourceTests.v]: the unit tests of the code, evaluated on the model.
    - [Examples.v]: the programs of [src/examples/] on the node's API, from nodes and events
      to output.  [Demos.v]: those that put tunnels, engines, sockets or data channels together
      themselves.

    ** How the parts interact

    [Shard.v] calls every component through the definitions of its file, with the code's
    arguments and in the code's order.  A handler is a function in the monad [M]: it reads
    an environment (clock readings, outcomes of socket writes, iteration orders of hash
    maps, each reading given by its number) and changes the components, the list of
    datagrams written, and the list of replies sent to callers.  A component's theorem is
    stated over histories of its own operations ([rt_use], [store_step], [wg_apply],
    [lk_step]); [shard_components_safe] shows that a shard only makes such histories, so
    those theorems hold of the components inside a running shard.  A node is one state,
    queue and point of the loop per thread; the threads interleave, and a call is given the
    events that happen until it returns.  [node_reach] shows that every such execution is a
    history of each shard, so the theorems of [ShardThms.v] hold of every thread.  The
    program of [Cli.v] starts such a node, makes one call and drops it.

    ** What the theorems show

    - Content is what it claims: only records that hash to their key or are signed by
      their owner are stored and returned, sequence numbers grow, a put has exactly the
      documented effect, collection changes no answer ([Store.v]); signatures cover every
      field they are made from, identities survive serialisation ([Crypto.v]).
    - Lookups: the next batch is the closest unqueried peers, a peer is asked at most twice
      (for each time the routing table lists it, if it does so more than once), a lookup ends
      for one of three reasons, its result is the closest peers heard of ([Lookup.v]); every
      lookup of a shard is answered once its budget is used up, and no caller is answered
      twice ([ShardThms.v]).
    - The API: the result of every call in every history is what the owning shard answered on
      the call's channel, and that answer is the one its command asks for
      ([NodeThms.api_results]); a value put is read back ([NodeQuiet.v]), also after a restart
      within its time to live, with no traffic in between ([Restart.v]); what a shard holds
      when it stops, whoever it served before, a new one reads back from a log that was whole
      and not full ([Durable.history_survives_restart]; a record with time to live 0 is the
      exception); a value put is held by the peers it is sent to in the clear ([Replica.put_replicates]) or encrypted
      ([Replica.put_replicates_sealed]), who hand it to a node that asks for it
      ([Fetch.get_fetches], [Fetch.get_fetches_sealed]); put together, a value put at one shard
      of a network is read at another through a third, in the clear ([Network.network_put_get]),
      also when the reader has to be led to it from node to node ([Network.network_lookup]),
      whatever else happens, as long as the holder hears no WireGuard packet and gets no other
      record for the key that it accepts ([undisturbed]: copies, forgeries that do not verify
      and older versions do no harm); replies are of the kind their command expects
      ([ShardReplies.v]), [shutdown] ends every thread ([NodeStop.v]).
    - The loop: every datagram the socket gets is handled, once and in order, and all of it
      after one turn in which the poller reports the socket per thirty-two datagrams
      ([Reactor.reactor_delivers]); a request that finds no session waits for it and is sent
      encrypted, if the peer's key is on file ([Secure.queued_requests_sent]; if it is not,
      [flush_without_key]).
    - The program: options are read as written, commands print what the shards answered and
      exit as documented ([Cli.v]); the identity survives restarts ([IdentityFile.v]).
    - The gateway: requests cut into chunks anyhow are read back, two peers exchange their
      session descriptions through a room, an RPC returns the answer to its request
      ([Webrtc.v]); however the connections interleave, the gateway answers as if it took the
      requests one at a time, each answer being what the rooms held at the request's looks
      ([WebServe.gateway_linearizable]); a session tries to write to its data channels exactly
      the node's answers to the messages it received, once each and in order
      ([IceRtc.session_answers]), and comes back to its socket ([session_comes_back]).
    - Routing: table invariants, insertion on every branch, eviction after three failures,
      [closest] against sorting the whole table ([Routing.v]); the metric ([Types.v]).
    - Wire: encoding and decoding are inverse, sizes are bounded, WireGuard and plain
      datagrams are told apart, relayed frames terminate, exchanged peers survive; inner packets
      say what they carry and their checksum is right ([Tunnels.build_ipv4_udp_correct]).
    - Persistence: for every crash point of the log, recovery gives a prefix that keeps what
      was flushed; reopening rebuilds the maps ([Peerstore.v], [Store.v]).
    - Limits: token buckets admit exactly their burst, relayed bytes stay under their share
      of egress, pools and tables under their caps.

    Theorems without a claim number record behaviour that departs from what the code or its
    documents intend, each on a concrete or general input; they are at the end of their
    files.

    ** Parameters

    Code outside the repository is a class whose laws are the crates' documented behaviour:
    [Crypto] and [CryptoLaws] (BLAKE3, Ed25519, X25519, hex, JSON), [Protobuf] (prost),
    [Crc32], [TunnOps] with [TunnPair] and [TunnSettles] (BoringTun, two of its tunnels after a
    handshake, and that a handshake runs down), [KeyedHash], [Json] (serde_json), the
    Reed-Solomon codec, [Str0m] with [Str0mLaws] (the ICE engine; only [session_comes_back] uses
    its laws: each poll yields a message or leaves fewer of them to come, or less backlog), and
    [PollerOps] with [PollerLaws] (the crate polling: interest is oneshot, and only interested
    sources are reported; a wait may report none).  [TunnPair] lets the receiver index on the
    wire be any number, as BoringTun chooses its own: a packet may find its session by that
    index or by trying every session, of which the others refuse it ([reaches]).  [RecordRanges] says that prost's integers are in range.  Each has
    a concrete instance on which the theorems are evaluated.

    ** Integers, bounds and fuel

    Machine integers are [Z] with the code's wrapping ([wrap]) or saturation ([sat_add],
    [sat_sub]) written out; sizes and indices are [nat].  Times are nanoseconds ([Instant])
    or seconds ([SystemTime]).  Fuel: the file readers take the length of the file (each
    frame has at least nine bytes), [pop_due] the size of the heap (each turn removes a
    timer), [handle_app] the length of the datagram (a relayed payload is shorter than its
    frame, [handle_app_terminates]), a checksum three turns ([fold_carries_ends]), the pump what
    its tunnels and datagrams hold ([pump_ends]), polling the ICE engine any bound on its backlog.  The
    drain loop of a WireGuard session turns as often as the environment says; how long a
    tunnel has queued packets is BoringTun's matter, and everything proved of the loop holds
    after any number of turns.

    ** Not modelled

    The operating system behind sockets, files and clocks, log output, the text of panic
    messages, the tests that need a Reed-Solomon codec or real sockets and threads.
    The queues and reply channels of a node are exact; its two-second timeout is the absence
    of a reply among the events a call is given, and the relaxed counters are plain numbers.
    Two readings of a clock that the code takes in a row are one where nothing depends on the
    second: opening the store stamps all records with one reading, and a token bucket is made
    and first used at one.  Errors of [set_read_timeout] and [set_write_timeout] in
    [handle_http] are not modelled, nor errors of reading the log other than its end.
    IPv6 addresses print and parse executably, but only the IPv4 round trip is proved in
    general.

    ** Next

    [Network.network_lookup] has as its hypothesis that each hop is next in line when its turn
    comes; which routing tables of a whole network make it so.  The network theorems leave out
    WireGuard between the shards, which [Secure.v] to [Fetch.v] treat for one exchange. *)

From stdpp Require Export prelude strings gmap vector list.
From Stdlib Require Export Sorted.
From coqutil Require Export Byte.

#[global] Open Scope Z_scope.
#[global] Open Scope nat_scope.

Declare Scope molia_scope.
Delimit Scope molia_scope with molia.
#[global] Open Scope molia_scope.

Create HintDb molia discriminated.

(** ** Tactics *)

(** Split every [match]/[if] of the goal, remembering the equations. *)
Ltac split_match :=
  match goal with
  | |- context [match ?x with _ => _ end] => destruct x eqn:?
  end.

Ltac split_match_in H :=
  match type of H with
  | context [match ?x with _ => _ end] => destruct x eqn:?
  end.

Ltac split_matches := repeat (split_match; simplify_eq/=).

(** Turn the boolean tests of the code into propositions. *)
Ltac bool_to_prop :=
  repeat match goal with
  | H : bool_decide _ = true |- _ => apply bool_decide_eq_true_1 in H
  | H : bool_decide _ = false |- _ => apply bool_decide_eq_false_1 in H
  | H : Z.eqb _ _ = true |- _ => apply Z.eqb_eq in H
  | H : Z.eqb _ _ = false |- _ => apply Z.eqb_neq in H
  | H : Z.leb _ _ = true |- _ => apply Z.leb_le in H
  | H : Z.leb _ _ = false |- _ => apply Z.leb_gt in H
  | H : Z.ltb _ _ = true |- _ => apply Z.ltb_lt in H
  | H : Z.ltb _ _ = false |- _ => apply Z.ltb_ge in H
  | H : Nat.eqb _ _ = true |- _ => apply Nat.eqb_eq in H
  | H : Nat.eqb _ _ = false |- _ => apply Nat.eqb_neq in H
  | H : Nat.leb _ _ = true |- _ => apply Nat.leb_le in H
  | H : Nat.leb _ _ = false |- _ => apply Nat.leb_gt in H
  | H : Nat.ltb _ _ = true |- _ => apply Nat.ltb_lt in H
  | H : Nat.ltb _ _ = false |- _ => apply Nat.ltb_ge in H
  | H : andb _ _ = true |- _ => apply andb_true_iff in H as [? ?]
  | H : orb _ _ = false |- _ => apply orb_false_iff in H as [? ?]
  | H : negb _ = true |- _ => apply negb_true_iff in H
  | H : negb _ = false |- _ => apply negb_false_iff in H
  end.

(** ** Results: [Result<T, &'static str>] *)

Inductive result (A : Type) :=
  | Ok (a : A)
  | Err (e : string).

Arguments Ok {A} a.
Arguments Err {A} e.

#[export] Instance Ok_inj {A} : Inj (=) (=) (@Ok A).
Proof. by intros x y [= ->]. Qed.

Definition is_ok {A} (r : result A) : bool := match r with Ok _ => true | Err _ => false end.

(** ** Machine integers

    A [w]-bit unsigned integer is a [Z] in [[0, 2^w)]; [wrap w] is the wrapping
    result of an operation, [sat_add] and [sat_sub] the saturating ones. *)

Definition wrap (w z : Z) : Z := (z mod 2 ^ w)%Z.

Definition in_u (w z : Z) : Prop := (0 ≤ z < 2 ^ w)%Z.

Definition sat_add (w a b : Z) : Z := Z.min (a + b) (2 ^ w - 1).

Definition sat_mul (w a b : Z) : Z := Z.min (a * b) (2 ^ w - 1).

Definition sat_sub (a b : Z) : Z := Z.max 0 (a - b).

Definition clamp (z lo hi : Z) : Z := Z.max lo (Z.min z hi).

(** [leading_zeros] of a [w]-bit integer. *)
Definition leading_zeros (w z : Z) : Z :=
  if (z =? 0)%Z then w else (w - 1 - Z.log2 z)%Z.

Lemma wrap_small (w z : Z) : in_u w z → wrap w z = z.
Proof. unfold in_u, wrap. intros. apply Z.mod_small. lia. Qed.

Lemma wrap_in_u (w z : Z) : (0 ≤ w)%Z → in_u w (wrap w z).
Proof. intros. apply Z.mod_pos_bound. lia. Qed.

Lemma sat_add_in_u w a b : (0 ≤ w)%Z → in_u w a → in_u w b → in_u w (sat_add w a b).
Proof. unfold in_u, sat_add. lia. Qed.

#[export] Hint Resolve wrap_in_u sat_add_in_u : molia.

(** ** Lists *)

(** [Iterator::position] *)
Fixpoint position {A} (p : A → bool) (l : list A) : option nat :=
  match l with
  | [] => None
  | x :: l => if p x then Some 0 else S <$> position p l
  end.

(** [ArrayVec::try_push] on a vector of capacity [cap], its result dropped. *)
Definition try_push {A} (cap : nat) (l : list A) (x : A) : list A :=
  if length l <? cap then l ++ [x] else l.

(** [Vec::remove] at an index in range. *)
Definition remove_at {A} (i : nat) (l : list A) : list A := take i l ++ drop (S i) l.

(** [Vec::pop]: the last element and the rest. *)
Definition pop {A} (l : list A) : option (A * list A) :=
  match last l with
  | Some x => Some (x, take (length l - 1) l)
  | None => None
  end.

(** [if let Some(e) = l.iter_mut().find(p) { e = f(e) }] *)
Fixpoint update_first {A} (p : A → bool) (f : A → A) (l : list A) : list A :=
  match l with
  | [] => []
  | x :: l => if p x then f x :: l else x :: update_first p f l
  end.

Section lists.
Context {A : Type}.
Implicit Types (l : list A) (x : A).

Lemma position_Some (p : A → bool) l i :
  position p l = Some i →
  ∃ x, l !! i = Some x ∧ p x = true ∧ ∀ j y, j < i → l !! j = Some y → p y = false.
Proof.
  revert i. induction l as [|x l IH]; intros i; simpl; [done|].
  destruct (p x) eqn:Hp.
  - intros [= <-]. exists x. split_and!; [done..|]. intros; lia.
  - destruct (position p l) as [i'|] eqn:Hi; [|done]. intros [= <-].
    destruct (IH i' eq_refl) as (y & Hy & Hpy & Hmin).
    exists y. split_and!; [done..|].
    intros [|j] z; simpl; [naive_solver|]. intros. eapply Hmin; [|done]. lia.
Qed.

Lemma position_None (p : A → bool) l :
  position p l = None ↔ ∀ x, x ∈ l → p x = false.
Proof.
  induction l as [|x l IH]; simpl.
  { split; [intros _ x Hx; inversion Hx | done]. }
  destruct (p x) eqn:Hp.
  - split; [done|]. intros H. specialize (H x (list_elem_of_here _ _)). congruence.
  - rewrite fmap_None, IH. setoid_rewrite elem_of_cons. naive_solver.
Qed.

Lemma try_push_length cap l x : length l ≤ cap → length (try_push cap l x) ≤ cap.
Proof.
  unfold try_push. intros. destruct (Nat.ltb_spec (length l) cap); rewrite ?length_app; simpl; lia.
Qed.

Lemma elem_of_try_push cap l x y : y ∈ try_push cap l x → y ∈ l ∨ y = x.
Proof. unfold try_push. case_match; set_solver. Qed.

Lemma try_push_fits cap l x : length l < cap → try_push cap l x = l ++ [x].
Proof. intros H. unfold try_push. by apply Nat.ltb_lt in H as ->. Qed.

Lemma pop_Some l x l' : pop l = Some (x, l') → l = l' ++ [x].
Proof.
  unfold pop. destruct (last l) as [y|] eqn:Hl; [|done]. intros [= <- <-].
  apply last_Some in Hl as [l0 ->]. rewrite length_app. simpl.
  replace (length l0 + 1 - 1) with (length l0) by lia. by rewrite take_app_length.
Qed.

Lemma pop_None l : pop l = None ↔ l = [].
Proof.
  unfold pop. destruct (last l) eqn:Hl.
  - split; [done|]. intros ->. done.
  - apply last_None in Hl. done.
Qed.

Lemma remove_at_perm i l x : l !! i = Some x → x :: remove_at i l ≡ₚ l.
Proof.
  intros H. unfold remove_at. rewrite <-(take_drop_middle l i x H) at 3.
  by rewrite Permutation_middle.
Qed.

Lemma remove_at_length i l : i < length l → S (length (remove_at i l)) = length l.
Proof. intros. unfold remove_at. rewrite length_app, length_take, length_drop. lia. Qed.

Lemma elem_of_remove_at i l x : x ∈ remove_at i l → x ∈ l.
Proof.
  unfold remove_at. rewrite elem_of_app. intros [H|H].
  - eapply elem_of_take in H as (j & ? & ?). by eapply list_elem_of_lookup_2.
  - eapply list_elem_of_lookup in H as (j & H). rewrite lookup_drop in H.
    by eapply list_elem_of_lookup_2.
Qed.

Lemma update_first_length (p : A → bool) f l : length (update_first p f l) = length l.
Proof. induction l as [|x l IH]; simpl; [done|]. case_match; simpl; auto. Qed.

Lemma elem_of_update_first (p : A → bool) f l y :
  y ∈ update_first p f l → y ∈ l ∨ ∃ x, x ∈ l ∧ p x = true ∧ y = f x.
Proof.
  induction l as [|x l IH]; simpl; [set_solver|].
  destruct (p x) eqn:?; rewrite !elem_of_cons; [|set_solver].
  intros [->|?]; [right; exists x; set_solver | set_solver].
Qed.

Lemma update_first_fmap {B} (g : A → B) (p : A → bool) f l :
  (∀ x, g (f x) = g x) → g <$> update_first p f l = g <$> l.
Proof.
  intros Hg. induction l as [|x l IH]; simpl; [done|].
  case_match; csimpl; by rewrite ?Hg, ?IH.
Qed.

Lemma find_Some_elem (p : A → bool) l x : find p l = Some x → x ∈ l ∧ p x = true.
Proof. rewrite list_elem_of_In. apply find_some. Qed.

Lemma find_None_elem (p : A → bool) l : find p l = None ↔ ∀ x, x ∈ l → p x = false.
Proof.
  split.
  - intros H x Hx. apply list_elem_of_In in Hx. by eapply find_none in H.
  - intros H. destruct (find p l) eqn:Hf; [|done]. apply find_Some_elem in Hf as [Hx Hp].
    rewrite H in Hp; done.
Qed.

Lemma find_ext_elem (p q : A → bool) l :
  (∀ x, x ∈ l → p x = q x) → find p l = find q l.
Proof.
  induction l as [|x l IH]; simpl; [done|]. intros H.
  rewrite (H x) by set_solver. destruct (q x); [done|]. apply IH. set_solver.
Qed.

Lemma find_app (p : A → bool) l k :
  find p (l ++ k) = match find p l with Some x => Some x | None => find p k end.
Proof. induction l as [|x l IH]; simpl; [done|]. by destruct (p x). Qed.

Lemma find_update_first (p : A → bool) f l :
  (∀ x, p x = true → p (f x) = true) → find p (update_first p f l) = f <$> find p l.
Proof.
  intros Hf. induction l as [|x l IH]; simpl; [done|]. destruct (p x) eqn:Hp; simpl.
  - by rewrite Hf.
  - by rewrite Hp.
Qed.

Lemma find_remove_at (p : A → bool) i l x :
  l !! i = Some x → p x = false → find p (remove_at i l) = find p l.
Proof.
  intros Hx Hp. unfold remove_at. rewrite <-(take_drop_middle l i x Hx) at 3.
  rewrite !find_app. simpl. by rewrite Hp.
Qed.

Lemma find_filter (P : A → Prop) `{!∀ x, Decision (P x)} (p : A → bool) l :
  (∀ x, p x = true → P x) → find p (filter P l) = find p l.
Proof.
  intros HP. induction l as [|x l IH]; [done|]. rewrite filter_cons.
  case_decide; simpl; destruct (p x) eqn:?; naive_solver.
Qed.

Lemma foldl_try_push cap l k :
  length l + length k ≤ cap → foldl (try_push cap) l k = l ++ k.
Proof.
  revert l. induction k as [|x k IH]; intros l Hl; simpl; [by rewrite app_nil_r|].
  simpl in Hl. rewrite try_push_fits, IH by (rewrite ?length_app; simpl; lia).
  by rewrite <-app_assoc.
Qed.

Lemma filter_length_le (P : A → Prop) `{!∀ x, Decision (P x)} l :
  length (filter P l) ≤ length l.
Proof. induction l as [|x l IH]; [done|]. rewrite filter_cons. case_decide; simpl; lia. Qed.

Lemma existsb_elem (p : A → bool) l :
  existsb p l = true ↔ ∃ x, x ∈ l ∧ p x = true.
Proof. rewrite existsb_exists. by setoid_rewrite list_elem_of_In. Qed.

Lemma forallb_elem (p : A → bool) l :
  forallb p l = true ↔ ∀ x, x ∈ l → p x = true.
Proof. rewrite forallb_forall. by setoid_rewrite list_elem_of_In. Qed.

Lemma existsb_false_elem (p : A → bool) l :
  existsb p l = false ↔ ∀ x, x ∈ l → p x = false.
Proof.
  rewrite <-not_true_iff_false, existsb_elem. split.
  - intros H x Hx. destruct (p x) eqn:?; [|done]. exfalso. eauto.
  - intros H (x & Hx & Hp). rewrite H in Hp; done.
Qed.
End lists.

(** ** Stable sorting

    [slice::sort_by] is a stable sort. [sort_by leb] is the insertion sort that
    inserts an element before its equals; for a total preorder the stable sorted
    permutation of a list is unique, so it stands for the standard library's merge
    sort. *)

Section sorting.
Context {A : Type} (leb : A → A → bool).

Fixpoint sort_insert (x : A) (l : list A) : list A :=
  match l with
  | [] => [x]
  | y :: l' => if leb x y then x :: l else y :: sort_insert x l'
  end.

Definition sort_by (l : list A) : list A := foldr sort_insert [] l.

Definition leb_rel (x y : A) : Prop := leb x y = true.

Lemma sort_insert_perm x l : sort_insert x l ≡ₚ x :: l.
Proof.
  induction l as [|y l IH]; simpl; [done|]. case_match; [done|].
  by rewrite IH, Permutation_swap.
Qed.

Lemma sort_by_perm l : sort_by l ≡ₚ l.
Proof. induction l as [|x l IH]; simpl; [done|]. by rewrite sort_insert_perm, IH. Qed.

Lemma sort_by_length l : length (sort_by l) = length l.
Proof. by rewrite sort_by_perm. Qed.

Lemma elem_of_sort_by x l : x ∈ sort_by l ↔ x ∈ l.
Proof. by rewrite sort_by_perm. Qed.

Context (leb_total : ∀ x y, leb x y = true ∨ leb y x = true).
Context (leb_trans : ∀ x y z, leb x y = true → leb y z = true → leb x z = true).

Lemma sort_insert_sorted x l :
  StronglySorted leb_rel l → StronglySorted leb_rel (sort_insert x l).
Proof using leb_total leb_trans.
  induction 1 as [|y l Hl IH Hy]; simpl; [by repeat constructor|].
  destruct (leb x y) eqn:Hxy.
  - constructor; [by constructor|]. constructor; [done|].
    eapply Forall_impl; [exact Hy|]. unfold leb_rel. eauto.
  - constructor; [done|]. rewrite sort_insert_perm. constructor; [|done].
    unfold leb_rel. destruct (leb_total x y); congruence.
Qed.

Lemma sort_by_sorted l : StronglySorted leb_rel (sort_by l).
Proof using leb_total leb_trans.
  induction l; simpl; [constructor|]. by apply sort_insert_sorted.
Qed.

(** Stability: the elements equivalent to [k] keep their relative order. *)
Lemma sort_insert_filter (k x : A) l :
  StronglySorted leb_rel l →
  filter (λ y, leb k y = true ∧ leb y k = true) (sort_insert x l) =
  filter (λ y, leb k y = true ∧ leb y k = true) (x :: l).
Proof using leb_trans.
  intros Hs. induction l as [|y l IH]; [done|]. cbn [sort_insert].
  destruct (leb x y) eqn:Hxy; [done|].
  apply StronglySorted_inv in Hs as [Hs Hy].
  rewrite filter_cons, IH by done. rewrite !filter_cons.
  repeat case_decide; try done. destruct_and!.
  exfalso. assert (leb x y = true) by eauto. congruence.
Qed.

Lemma sort_by_stable k l :
  filter (λ y, leb k y = true ∧ leb y k = true) (sort_by l) =
  filter (λ y, leb k y = true ∧ leb y k = true) l.
Proof using leb_total leb_trans.
  induction l as [|x l IH]; [done|]. cbn [sort_by foldr]. fold (sort_by l).
  rewrite sort_insert_filter by apply sort_by_sorted.
  rewrite !filter_cons. by case_decide; rewrite IH.
Qed.

Lemma sort_by_id l : StronglySorted leb_rel l → sort_by l = l.
Proof.
  induction 1 as [|x l Hl IH Hx]; [done|]. cbn [sort_by foldr]. fold (sort_by l).
  rewrite IH. destruct l as [|y l]; [done|]. simpl.
  apply Forall_cons in Hx as [Hx _]. by rewrite Hx.
Qed.

Lemma sorted_take_drop n l x y :
  StronglySorted leb_rel l → x ∈ take n l → y ∈ drop n l → leb x y = true.
Proof.
  intros Hs Hx Hy. revert n Hx Hy. induction Hs as [|z l Hl IH Hz]; intros n Hx Hy.
  { rewrite take_nil in Hx. by apply not_elem_of_nil in Hx. }
  destruct n as [|n]; simpl in *; [by apply not_elem_of_nil in Hx|].
  apply elem_of_cons in Hx as [->|Hx]; [|eauto].
  rewrite Forall_forall in Hz. apply Hz.
  apply list_elem_of_lookup in Hy as (i & Hi). rewrite lookup_drop in Hi.
  by eapply list_elem_of_lookup_2.
Qed.
End sorting.

Lemma StronglySorted_take {A} (R : relation A) n l :
  StronglySorted R l → StronglySorted R (take n l).
Proof.
  intros Hs. revert n. induction Hs as [|x l Hl IH Hx]; intros [|n]; simpl; try constructor; eauto.
  by apply Forall_take.
Qed.

Lemma StronglySorted_fmap_2 {A B} (f : A → B) (R : relation A) (S : relation B) l :
  (∀ x y, R x y → S (f x) (f y)) → StronglySorted R l → StronglySorted S (f <$> l).
Proof.
  intros Hf. induction 1 as [|x l Hl IH Hx]; csimpl; constructor; [done|].
  rewrite Forall_fmap. eapply Forall_impl; [exact Hx|]. auto.
Qed.
