(* ===== verification/Bytes.v ===== *)
(** * Bytes, endianness and fixed-size byte arrays

    [u8] is [Init.Byte.byte]; a [Vec<u8>] or [&[u8]] is [bytes]; a [[u8; n]] is
    [arr n].  The little- and big-endian conversions of the standard library
    ([to_le_bytes], [from_be_bytes], ...) and the lexicographic order on byte arrays
    are defined here once, with the lemmas that relate them to [Z]. *)

From S2P Require Import Prelude.

Abbreviation bytes := (list byte).
Abbreviation arr n := (vec byte n).

Definition b2z (b : byte) : Z := byte.unsigned b.

Definition z2b (z : Z) : byte := byte.of_Z z.

#[export] Instance byte_eq_dec : EqDecision byte := Byte.byte_eq_dec.

#[export] Program Instance byte_countable : Countable byte :=
  inj_countable Byte.to_N Byte.of_N _.
Next Obligation. intros x. apply Byte.of_to_N. Qed.

#[global] Arguments b2z : simpl never.
#[global] Arguments z2b : simpl never.

Lemma b2z_bound b : (0 ≤ b2z b < 256)%Z.
Proof. exact (byte.unsigned_range b). Qed.

Lemma b2z_z2b z : b2z (z2b z) = (z mod 256)%Z.
Proof. exact (byte.unsigned_of_Z z). Qed.

Lemma z2b_b2z b : z2b (b2z b) = b.
Proof. exact (byte.of_Z_unsigned b). Qed.

Lemma b2z_inj a b : b2z a = b2z b → a = b.
Proof. intros H. rewrite <-(z2b_b2z a), H. apply z2b_b2z. Qed.

Lemma b2z_z2b_small z : (0 ≤ z < 256)%Z → b2z (z2b z) = z.
Proof. intros. rewrite b2z_z2b. apply Z.mod_small. lia. Qed.

(** ** Endianness *)

Fixpoint le_val (l : bytes) : Z :=
  match l with
  | [] => 0
  | b :: l => b2z b + 256 * le_val l
  end.

Fixpoint le_bytes (n : nat) (z : Z) : bytes :=
  match n with
  | O => []
  | S n => z2b z :: le_bytes n (z / 256)
  end.

Definition be_val (l : bytes) : Z := le_val (reverse l).

Definition be_bytes (n : nat) (z : Z) : bytes := reverse (le_bytes n z).

Lemma pow256_S n : (256 ^ Z.of_nat (S n) = 256 * 256 ^ Z.of_nat n)%Z.
Proof. rewrite Nat2Z.inj_succ, Z.pow_succ_r by lia. done. Qed.

Lemma pow256_pos n : (0 < 256 ^ Z.of_nat n)%Z.
Proof. apply Z.pow_pos_nonneg; lia. Qed.

Lemma pow256_pow2 n : (256 ^ Z.of_nat n = 2 ^ (8 * Z.of_nat n))%Z.
Proof. rewrite Z.pow_mul_r by lia. done. Qed.

Lemma le_bytes_length n z : length (le_bytes n z) = n.
Proof. revert z. induction n; intros; simpl; auto. Qed.

Lemma be_bytes_length n z : length (be_bytes n z) = n.
Proof. unfold be_bytes. by rewrite length_reverse, le_bytes_length. Qed.

Lemma le_val_bound l : (0 ≤ le_val l < 256 ^ Z.of_nat (length l))%Z.
Proof.
  induction l as [|b l IH]; [simpl; lia|]. cbn [le_val length].
  rewrite pow256_S. pose proof (b2z_bound b). nia.
Qed.

Lemma be_val_bound l : (0 ≤ be_val l < 256 ^ Z.of_nat (length l))%Z.
Proof. unfold be_val. rewrite <-(length_reverse l). apply le_val_bound. Qed.

Lemma le_val_le_bytes n z : le_val (le_bytes n z) = (z mod 256 ^ Z.of_nat n)%Z.
Proof.
  revert z. induction n as [|n IH]; intros z; [by rewrite Z.mod_1_r|].
  cbn [le_bytes le_val]. rewrite IH, b2z_z2b, pow256_S.
  pose proof (pow256_pos n). rewrite Z.rem_mul_r by lia. done.
Qed.

Lemma le_bytes_le_val l : le_bytes (length l) (le_val l) = l.
Proof.
  induction l as [|b l IH]; [done|]. cbn [length le_bytes le_val].
  pose proof (b2z_bound b). f_equal.
  - apply b2z_inj. rewrite b2z_z2b, Z.mul_comm, Z.mod_add, Z.mod_small by lia. done.
  - rewrite Z.mul_comm, Z.div_add, Z.div_small, Z.add_0_l by lia. done.
Qed.

Lemma be_val_be_bytes n z : be_val (be_bytes n z) = (z mod 256 ^ Z.of_nat n)%Z.
Proof. unfold be_val, be_bytes. by rewrite reverse_involutive, le_val_le_bytes. Qed.

Lemma be_bytes_be_val l : be_bytes (length l) (be_val l) = l.
Proof.
  unfold be_val, be_bytes. rewrite <-(length_reverse l), le_bytes_le_val.
  apply reverse_involutive.
Qed.

Lemma le_val_inj l k : length l = length k → le_val l = le_val k → l = k.
Proof. intros Hl Hv. by rewrite <-(le_bytes_le_val l), <-(le_bytes_le_val k), Hl, Hv. Qed.

Lemma be_val_inj l k : length l = length k → be_val l = be_val k → l = k.
Proof. intros Hl Hv. by rewrite <-(be_bytes_be_val l), <-(be_bytes_be_val k), Hl, Hv. Qed.

Lemma le_val_app l k : le_val (l ++ k) = (le_val l + 256 ^ Z.of_nat (length l) * le_val k)%Z.
Proof.
  induction l as [|b l IH]; cbn [app le_val length]; [simpl; lia|].
  rewrite IH, pow256_S. lia.
Qed.

Lemma be_val_app l k : be_val (l ++ k) = (be_val l * 256 ^ Z.of_nat (length k) + be_val k)%Z.
Proof. unfold be_val. rewrite reverse_app, le_val_app, length_reverse. lia. Qed.

Lemma be_val_cons b l : be_val (b :: l) = (b2z b * 256 ^ Z.of_nat (length l) + be_val l)%Z.
Proof. change (b :: l) with ([b] ++ l). rewrite be_val_app. unfold be_val at 1. simpl. lia. Qed.

Lemma le_bytes_inj n z z' :
  (0 ≤ z < 256 ^ Z.of_nat n)%Z → (0 ≤ z' < 256 ^ Z.of_nat n)%Z →
  le_bytes n z = le_bytes n z' → z = z'.
Proof.
  intros ?? H%(f_equal le_val). rewrite !le_val_le_bytes, !Z.mod_small in H by lia. done.
Qed.

(** ** Arrays *)

Fixpoint to_arr (n : nat) (l : bytes) : option (arr n) :=
  match n, l with
  | O, [] => Some [#]
  | S n, b :: l => vcons b <$> to_arr n l
  | _, _ => None
  end.

Lemma to_arr_Some n l (v : arr n) : to_arr n l = Some v ↔ vec_to_list v = l.
Proof.
  revert l v. induction n as [|n IH]; intros l v; destruct l as [|b l]; inv_vec v; simpl.
  - done.
  - done.
  - done.
  - intros x v. rewrite fmap_Some. setoid_rewrite IH. split.
    + intros (w & <- & Heq). apply vcons_inj in Heq as [-> Heq]. by subst.
    + intros [= -> <-]. by exists v.
Qed.

Lemma to_arr_list n (v : arr n) : to_arr n (vec_to_list v) = Some v.
Proof. by apply to_arr_Some. Qed.

Lemma to_arr_None n l : to_arr n l = None ↔ length l ≠ n.
Proof.
  destruct (to_arr n l) as [v|] eqn:H.
  - split; [done|]. intros Hl. apply to_arr_Some in H as <-.
    by rewrite length_vec_to_list in Hl.
  - split; [|done]. intros _ Hl. subst n.
    pose proof (proj2 (to_arr_Some _ l (list_to_vec l))) as H'.
    rewrite vec_to_list_to_vec in H'. rewrite H' in H; done.
Qed.

Lemma to_arr_length n l (v : arr n) : to_arr n l = Some v → length l = n.
Proof. intros H%to_arr_Some. subst. apply length_vec_to_list. Qed.

Lemma to_arr_is_Some n l : length l = n → ∃ v, to_arr n l = Some v ∧ vec_to_list v = l.
Proof.
  intros Hl. destruct (to_arr n l) as [v|] eqn:H; [|by apply to_arr_None in H].
  exists v. split; [done|]. by apply to_arr_Some.
Qed.

(** An array literal [[x; n]]. *)
Definition arr_repeat (b : byte) (n : nat) : arr n := vreplicate n b.

(** ** Lexicographic order: [Ord] on byte arrays *)

Fixpoint bytes_cmp (a b : bytes) : comparison :=
  match a, b with
  | [], [] => Eq
  | [], _ :: _ => Lt
  | _ :: _, [] => Gt
  | x :: a, y :: b =>
      match (b2z x ?= b2z y)%Z with
      | Eq => bytes_cmp a b
      | c => c
      end
  end.

(** On arrays of one length the lexicographic order is the order of the big-endian
    values. *)
Lemma bytes_cmp_val a b :
  length a = length b → bytes_cmp a b = (be_val a ?= be_val b)%Z.
Proof.
  revert b. induction a as [|x a IH]; intros [|y b]; simpl; try done.
  intros [= Hl]. rewrite IH by done. rewrite !be_val_cons, Hl.
  pose proof (be_val_bound a) as Ha. pose proof (be_val_bound b) as Hb.
  rewrite Hl in Ha. set (p := (256 ^ Z.of_nat (length b))%Z) in *.
  destruct (Z.compare_spec (b2z x) (b2z y)) as [Heq|Hlt|Hgt]; symmetry.
  - rewrite Heq. by rewrite Z.add_compare_mono_l.
  - apply Z.compare_lt_iff. nia.
  - apply Z.compare_gt_iff. nia.
Qed.

(** ** Exclusive or *)

Definition byte_xor (a b : byte) : byte := z2b (Z.lxor (b2z a) (b2z b)).

Lemma lxor_bound k x y :
  (0 ≤ k)%Z → (0 ≤ x < 2 ^ k)%Z → (0 ≤ y < 2 ^ k)%Z → (0 ≤ Z.lxor x y < 2 ^ k)%Z.
Proof.
  intros Hk Hx Hy. enough (Z.lxor x y mod 2 ^ k = Z.lxor x y)%Z as <-.
  { apply Z.mod_pos_bound. lia. }
  apply Z.bits_inj'. intros n Hn.
  destruct (Z.lt_ge_cases n k).
  - by rewrite Z.mod_pow2_bits_low by lia.
  - rewrite Z.mod_pow2_bits_high, Z.lxor_spec by lia.
    rewrite <-(Z.mod_small x (2 ^ k)), <-(Z.mod_small y (2 ^ k)) by lia.
    by rewrite !Z.mod_pow2_bits_high by lia.
Qed.

Lemma testbit_concat x y k n :
  (0 ≤ k)%Z → (0 ≤ y < 2 ^ k)%Z → (0 ≤ n)%Z →
  Z.testbit (x * 2 ^ k + y) n = if (n <? k)%Z then Z.testbit y n else Z.testbit x (n - k).
Proof.
  intros Hk Hy Hn. destruct (Z.ltb_spec n k) as [Hlt|Hge].
  - rewrite <-(Z.mod_pow2_bits_low (x * 2 ^ k + y) k n) by lia.
    rewrite Z.add_comm, Z.mod_add, Z.mod_small by lia. done.
  - replace n with ((n - k) + k)%Z at 1 by lia.
    rewrite <-Z.div_pow2_bits by lia.
    rewrite Z.add_comm, Z.div_add, Z.div_small, Z.add_0_l by lia. done.
Qed.

Lemma lxor_concat x y x' y' k :
  (0 ≤ k)%Z → (0 ≤ y < 2 ^ k)%Z → (0 ≤ y' < 2 ^ k)%Z →
  Z.lxor (x * 2 ^ k + y) (x' * 2 ^ k + y') = (Z.lxor x x' * 2 ^ k + Z.lxor y y')%Z.
Proof.
  intros Hk Hy Hy'. apply Z.bits_inj'. intros n Hn.
  rewrite Z.lxor_spec, !testbit_concat by (try lia; by apply lxor_bound).
  case_match; by rewrite Z.lxor_spec.
Qed.

Lemma b2z_xor a b : b2z (byte_xor a b) = Z.lxor (b2z a) (b2z b).
Proof.
  unfold byte_xor. apply b2z_z2b_small.
  apply (lxor_bound 8); [lia|..]; apply b2z_bound.
Qed.

Lemma byte_xor_comm a b : byte_xor a b = byte_xor b a.
Proof. apply b2z_inj. rewrite !b2z_xor. apply Z.lxor_comm. Qed.

Lemma be_val_xor a b :
  length a = length b → be_val (zip_with byte_xor a b) = Z.lxor (be_val a) (be_val b).
Proof.
  revert b. induction a as [|x a IH]; intros [|y b]; try done.
  intros [= Hl]. cbn [zip_with]. rewrite !be_val_cons, IH, b2z_xor by done.
  rewrite length_zip_with, Hl, Nat.min_id.
  pose proof (be_val_bound a) as Ha. pose proof (be_val_bound b) as Hb.
  rewrite Hl in Ha. rewrite pow256_pow2 in *.
  symmetry. apply lxor_concat; lia.
Qed.

(** ** Byte-string literals: [bstr] of a string is Rust's [b].. literal. *)

Definition bstr (s : string) : bytes :=
  (λ a, z2b (Z.of_N (Ascii.N_of_ascii a))) <$> String.list_ascii_of_string s.

(** The array with the contents of [l], which has the right length. *)
Definition list_to_arr (n : nat) (l : bytes) : arr n := default (arr_repeat (z2b 0) n) (to_arr n l).

Lemma list_to_arr_list n l : length l = n → vec_to_list (list_to_arr n l) = l.
Proof. intros H. unfold list_to_arr. by destruct (to_arr_is_Some n l H) as (v & -> & ?). Qed.

(** ** Leading zero bits

    The loop [for b in d { if *b == 0 { n += 8 } else { n += lz(b); break } }]. *)

Fixpoint lz_loop (d : bytes) : Z :=
  match d with
  | [] => 0
  | b :: d => if (b2z b =? 0)%Z then (8 + lz_loop d)%Z else leading_zeros 8 (b2z b)
  end.

Lemma lz_loop_spec d :
  lz_loop d = if (be_val d =? 0)%Z then (8 * Z.of_nat (length d))%Z
              else (8 * Z.of_nat (length d) - 1 - Z.log2 (be_val d))%Z.
Proof.
  induction d as [|b d IH]; [done|]. cbn [lz_loop length]. rewrite be_val_cons.
  pose proof (be_val_bound d) as Hd. pose proof (b2z_bound b) as Hb.
  destruct (Z.eqb_spec (b2z b) 0) as [->|Hne].
  - rewrite IH, Z.mul_0_l, Z.add_0_l. case_match; lia.
  - destruct (Z.eqb_spec (b2z b * 256 ^ Z.of_nat (length d) + be_val d) 0) as [H0|_]; [nia|].
    unfold leading_zeros. destruct (Z.eqb_spec (b2z b) 0); [done|].
    enough (Z.log2 (b2z b * 256 ^ Z.of_nat (length d) + be_val d) =
            Z.log2 (b2z b) + 8 * Z.of_nat (length d))%Z by lia.
    rewrite pow256_pow2 in *. apply Z.log2_unique; [pose proof (Z.log2_nonneg (b2z b)); lia|].
    destruct (Z.log2_spec (b2z b)) as [H1 H2]; [lia|].
    pose proof (Z.log2_nonneg (b2z b)).
    rewrite !Z.pow_add_r by lia. rewrite Z.pow_succ_r, Z.pow_add_r by lia.
    rewrite Z.pow_succ_r in H2 by lia. nia.
Qed.

Lemma lz_loop_bound d : (0 ≤ lz_loop d ≤ 8 * Z.of_nat (length d))%Z.
Proof.
  rewrite lz_loop_spec. case_match; [lia|]. bool_to_prop.
  pose proof (be_val_bound d) as Hd. rewrite pow256_pow2 in Hd.
  pose proof (Z.log2_nonneg (be_val d)).
  assert (Z.log2 (be_val d) < 8 * Z.of_nat (length d))%Z; [|lia].
  apply Z.log2_lt_pow2; lia.
Qed.

(** At least [k] leading zero bits: the number is below [2^(w - k)]. *)
Lemma lz_loop_ge d k :
  (0 ≤ k ≤ 8 * Z.of_nat (length d))%Z →
  (k ≤ lz_loop d)%Z ↔ (be_val d < 2 ^ (8 * Z.of_nat (length d) - k))%Z.
Proof.
  intros Hk. rewrite lz_loop_spec. pose proof (be_val_bound d).
  destruct (Z.eqb_spec (be_val d) 0) as [->|Hne].
  - pose proof (Z.pow_pos_nonneg 2 (8 * Z.of_nat (length d) - k)). lia.
  - rewrite Z.log2_lt_pow2 by lia. lia.
Qed.

#[global] Arguments to_arr : simpl never.

(** Arrays as map keys: the code of an array is its value as a number. *)
#[export] Program Instance arr_countable n : Countable (arr n) :=
  inj_countable (λ v, le_val (vec_to_list v)) (λ z, to_arr n (le_bytes n z)) _.
Next Obligation.
  intros n v. cbn beta. pose proof (le_bytes_le_val (vec_to_list v)) as Hv.
  rewrite length_vec_to_list in Hv. by rewrite Hv, to_arr_list.
Qed.
