(* ===== verification/Types.v ===== *)
(** * Identifiers, distance and shard selection ([src/types.rs])

    [NodeId] and [Key] wrap a [[u8; 32]]; [xor_distance], [bucket_index] and
    [shard_id] are translated as written.  The theorems relate them to the 256-bit
    integers the comments of the source speak of: the distance is the exclusive or of
    the big-endian values, the bucket index is its base-2 logarithm, and the shard is
    made of its high bits. *)

From S2P Require Import Prelude Bytes.

Definition ID_LEN : nat := 32.
Definition K_DEFAULT : nat := 20.
Definition K_MAX : nat := 32.
Definition ALPHA_DEFAULT : nat := 4.
Definition ALPHA_MIN : nat := 3.
Definition ALPHA_MAX : nat := 8.
Definition PROTOCOL_VERSION : byte := z2b 1.
Definition PMTU_FLOOR : nat := 1200.
Definition HEADER_LEN : nat := 12.
Definition MAX_FIND_NODE_PEERS : nat := 16.
Definition MAX_PROVIDERS_PER_CHUNK : nat := 32.
Definition MAX_CLOSER_PEERS : nat := 8.
Definition FEATURE_PRIVACY_BLINDING : Z := Z.shiftl 1 0.
Definition FEATURE_TWO_HOP_RELAY : Z := Z.shiftl 1 1.
Definition FEATURE_STREAMING_CHUNKS : Z := Z.shiftl 1 2.
Definition FEATURE_ERASURE_HINTS : Z := Z.shiftl 1 3.

(** ** Identifiers *)

Record NodeId := mkNodeId { nid : arr 32 }.

Record Key := mkKey { kid : arr 32 }.

#[export] Instance NodeId_eq_dec : EqDecision NodeId.
Proof. solve_decision. Defined.

#[export] Program Instance NodeId_countable : Countable NodeId :=
  inj_countable' nid mkNodeId _.
Next Obligation. by intros []. Qed.

#[export] Instance Key_eq_dec : EqDecision Key.
Proof. solve_decision. Defined.

#[export] Program Instance Key_countable : Countable Key :=
  inj_countable' kid mkKey _.
Next Obligation. by intros []. Qed.

Definition NodeId_from_bytes (b : bytes) : option NodeId := mkNodeId <$> to_arr 32 b.

Definition NodeId_as_bytes (i : NodeId) : arr 32 := nid i.

Definition Key_from_bytes (b : bytes) : option Key := mkKey <$> to_arr 32 b.

Definition Key_as_bytes (k : Key) : arr 32 := kid k.

Definition Key_from_node (i : NodeId) : Key := mkKey (nid i).

(** ** Distance, bucket and shard *)

Definition xor_distance (a b : arr 32) : arr 32 := vzip_with byte_xor a b.

Definition leading_zeros_256 (d : arr 32) : nat :=
  Nat.min (Z.to_nat (lz_loop (vec_to_list d))) 256.

Definition bucket_index (self_id other : NodeId) : nat :=
  let d := xor_distance (nid self_id) (nid other) in
  let lz := leading_zeros_256 d in
  if 256 <=? lz then 0 else 255 - lz.

Definition is_power_of_two (n : Z) : bool := (0 <? n)%Z && (2 ^ Z.log2 n =? n)%Z.

Definition shard_id (self_id : NodeId) (key : Key) (shard_count : Z) : Z :=
  if (shard_count <=? 1)%Z then 0%Z
  else
    let k := (32 - leading_zeros 32 (shard_count - 1))%Z in
    let d := xor_distance (nid self_id) (kid key) in
    let prefix := be_val (take 4 (vec_to_list d)) in
    let raw := if (k =? 0)%Z then 0%Z else Z.shiftr prefix (32 - k) in
    if is_power_of_two shard_count then raw else (raw mod shard_count)%Z.

(** ** Socket addresses ([std::net]) *)

Inductive IpAddr :=
  | IpV4 (octets : arr 4)
  | IpV6 (octets : arr 16).

Inductive SocketAddr :=
  | AddrV4 (ip : arr 4) (port : Z)
  | AddrV6 (ip : arr 16) (port flowinfo scope_id : Z).

#[export] Instance IpAddr_eq_dec : EqDecision IpAddr.
Proof. solve_decision. Defined.

#[export] Instance SocketAddr_eq_dec : EqDecision SocketAddr.
Proof. solve_decision. Defined.

#[export] Program Instance IpAddr_countable : Countable IpAddr :=
  inj_countable'
    (λ a, match a with IpV4 o => inl o | IpV6 o => inr o end)
    (λ s, match s with inl o => IpV4 o | inr o => IpV6 o end) _.
Next Obligation. by intros []. Qed.

#[export] Program Instance SocketAddr_countable : Countable SocketAddr :=
  inj_countable'
    (λ a, match a with AddrV4 i p => inl (i, p) | AddrV6 i p f s => inr (i, p, f, s) end)
    (λ s, match s with inl (i, p) => AddrV4 i p | inr (i, p, f, s) => AddrV6 i p f s end) _.
Next Obligation. by intros []. Qed.

Definition addr_ip (a : SocketAddr) : IpAddr :=
  match a with AddrV4 i _ => IpV4 i | AddrV6 i _ _ _ => IpV6 i end.

Definition addr_port (a : SocketAddr) : Z :=
  match a with AddrV4 _ p => p | AddrV6 _ p _ _ => p end.

(** ** Peers *)

Record PeerInfo := mkPeerInfo {
  pi_id : NodeId;
  pi_addrs : list SocketAddr;
  pi_rtt_ms : Z;
  pi_x25519 : option (arr 32);
}.

#[export] Instance PeerInfo_eq_dec : EqDecision PeerInfo.
Proof. solve_decision. Defined.

(** Capacity of [PeerInfo::addrs]. *)
Definition ADDRS_CAP : nat := 4.

Definition PeerInfo_new (id : NodeId) (addr : SocketAddr) : PeerInfo :=
  {| pi_id := id; pi_addrs := try_push ADDRS_CAP [] addr; pi_rtt_ms := 0; pi_x25519 := None |}.

Definition primary_addr (p : PeerInfo) : option SocketAddr := head (pi_addrs p).

Definition push_addr (p : PeerInfo) (addr : SocketAddr) : PeerInfo :=
  if existsb (λ a, bool_decide (a = addr)) (pi_addrs p) then p
  else {| pi_id := pi_id p;
          pi_addrs := try_push ADDRS_CAP (pi_addrs p) addr;
          pi_rtt_ms := pi_rtt_ms p;
          pi_x25519 := pi_x25519 p |}.

(** The order by which candidates are sorted towards a target: distance, then round-trip
    time ([Ordering::then]). *)
Definition peer_cmp (target : Key) (a b : PeerInfo) : comparison :=
  match bytes_cmp (vec_to_list (xor_distance (nid (pi_id a)) (kid target)))
                  (vec_to_list (xor_distance (nid (pi_id b)) (kid target))) with
  | Eq => (pi_rtt_ms a ?= pi_rtt_ms b)%Z
  | c => c
  end.

Definition peer_leb (target : Key) (a b : PeerInfo) : bool :=
  match peer_cmp target a b with Gt => false | _ => true end.

(** ** Lemmas *)

(** The value of an identifier as a 256-bit big-endian integer. *)
Definition val256 (a : arr 32) : Z := be_val (vec_to_list a).

Definition dist (a b : arr 32) : Z := val256 (xor_distance a b).

Lemma val256_bound a : (0 ≤ val256 a < 2 ^ 256)%Z.
Proof.
  pose proof (be_val_bound (vec_to_list a)) as H.
  rewrite length_vec_to_list in H. exact H.
Qed.

Lemma val256_inj a b : val256 a = val256 b → a = b.
Proof.
  intros H. apply vec_to_list_inj2, be_val_inj; [|done].
  by rewrite !length_vec_to_list.
Qed.

Lemma dist_lxor a b : dist a b = Z.lxor (val256 a) (val256 b).
Proof.
  unfold dist, val256, xor_distance. rewrite vec_to_list_zip_with.
  apply be_val_xor. by rewrite !length_vec_to_list.
Qed.

Lemma dist_bound a b : (0 ≤ dist a b < 2 ^ 256)%Z.
Proof. apply val256_bound. Qed.

Lemma dist_comm a b : dist a b = dist b a.
Proof. rewrite !dist_lxor. apply Z.lxor_comm. Qed.

Lemma dist_zero a b : dist a b = 0%Z ↔ a = b.
Proof.
  rewrite dist_lxor, Z.lxor_eq_0_iff. split; [apply val256_inj|by intros ->].
Qed.

Lemma xor_distance_cmp a b c d :
  bytes_cmp (vec_to_list (xor_distance a b)) (vec_to_list (xor_distance c d)) =
  (dist a b ?= dist c d)%Z.
Proof. apply bytes_cmp_val. by rewrite !length_vec_to_list. Qed.

Lemma peer_leb_spec t a b :
  peer_leb t a b = true ↔
  (dist (nid (pi_id a)) (kid t) < dist (nid (pi_id b)) (kid t))%Z ∨
  dist (nid (pi_id a)) (kid t) = dist (nid (pi_id b)) (kid t) ∧
  (pi_rtt_ms a ≤ pi_rtt_ms b)%Z.
Proof.
  unfold peer_leb, peer_cmp. rewrite xor_distance_cmp.
  destruct (Z.compare_spec (dist (nid (pi_id a)) (kid t)) (dist (nid (pi_id b)) (kid t)));
    [|split; [by left|done]|split; [done|lia]].
  destruct (Z.compare_spec (pi_rtt_ms a) (pi_rtt_ms b)); split; intros; try done; lia.
Qed.

Lemma peer_leb_total t a b : peer_leb t a b = true ∨ peer_leb t b a = true.
Proof. rewrite !peer_leb_spec. lia. Qed.

Lemma peer_leb_trans t a b c :
  peer_leb t a b = true → peer_leb t b c = true → peer_leb t a c = true.
Proof. rewrite !peer_leb_spec. lia. Qed.

Lemma peer_leb_dist t a b :
  peer_leb t a b = true →
  (dist (nid (pi_id a)) (kid t) ≤ dist (nid (pi_id b)) (kid t))%Z.
Proof. rewrite peer_leb_spec. lia. Qed.

#[export] Hint Resolve peer_leb_total peer_leb_trans : molia.

Lemma bucket_index_log2 self_id other :
  self_id ≠ other →
  Z.of_nat (bucket_index self_id other) = Z.log2 (dist (nid self_id) (nid other)).
Proof.
  intros Hne. unfold bucket_index, leading_zeros_256.
  pose proof (lz_loop_spec (vec_to_list (xor_distance (nid self_id) (nid other)))) as Hs.
  pose proof (dist_bound (nid self_id) (nid other)) as Hb.
  rewrite length_vec_to_list in Hs. fold (val256 (xor_distance (nid self_id) (nid other))) in Hs.
  fold (dist (nid self_id) (nid other)) in Hs.
  destruct (Z.eqb_spec (dist (nid self_id) (nid other)) 0) as [H0|H0].
  { apply dist_zero in H0. destruct self_id, other. simpl in H0. congruence. }
  assert (Z.log2 (dist (nid self_id) (nid other)) < 256)%Z by (apply Z.log2_lt_pow2; lia).
  pose proof (Z.log2_nonneg (dist (nid self_id) (nid other))).
  rewrite Hs. destruct (Nat.leb_spec 256 (Nat.min (Z.to_nat (8 * Z.of_nat 32 - 1 -
    Z.log2 (dist (nid self_id) (nid other)))) 256)); lia.
Qed.

Lemma bucket_index_range self_id other : bucket_index self_id other < 256.
Proof. unfold bucket_index. case_match; lia. Qed.

#[export] Hint Resolve bucket_index_range : molia.

Lemma bucket_index_self self_id : bucket_index self_id self_id = 0.
Proof.
  unfold bucket_index, leading_zeros_256. rewrite lz_loop_spec.
  fold (val256 (xor_distance (nid self_id) (nid self_id))).
  fold (dist (nid self_id) (nid self_id)).
  rewrite (proj2 (dist_zero _ _) eq_refl). simpl Z.eqb. cbv iota.
  rewrite length_vec_to_list. done.
Qed.

Lemma push_addr_id p a : pi_id (push_addr p a) = pi_id p.
Proof. unfold push_addr. by case_match. Qed.

Lemma push_addr_primary p a x : primary_addr p = Some x → primary_addr (push_addr p a) = Some x.
Proof.
  unfold push_addr, primary_addr. case_match; [done|]. simpl. unfold try_push.
  destruct (pi_addrs p); simpl; [done|]. by case_match.
Qed.

Lemma lxor_le_add x y : (0 ≤ x)%Z → (0 ≤ y)%Z → (Z.lxor x y ≤ x + y)%Z.
Proof. intros. rewrite <-(Z.add_lxor_2land x y). pose proof (proj2 (Z.land_nonneg x y)). lia. Qed.

Lemma dist_triangle a b c : (dist a c ≤ dist a b + dist b c)%Z.
Proof.
  rewrite !dist_lxor.
  replace (Z.lxor (val256 a) (val256 c)) with
    (Z.lxor (Z.lxor (val256 a) (val256 b)) (Z.lxor (val256 b) (val256 c))).
  - apply lxor_le_add; rewrite <-dist_lxor; apply dist_bound.
  - rewrite Z.lxor_assoc, <-(Z.lxor_assoc (val256 b)), Z.lxor_nilpotent, Z.lxor_0_l. done.
Qed.

(** Two numbers with the same leading bit [i] differ by an exclusive or below [2^i]. *)
Lemma lxor_same_log2 x y :
  (0 < x)%Z → (0 < y)%Z → Z.log2 x = Z.log2 y → (0 ≤ Z.lxor x y < 2 ^ Z.log2 x)%Z.
Proof.
  intros Hx Hy Hl. pose proof (Z.log2_nonneg x) as Hn.
  destruct (Z.log2_spec x Hx) as [Hx1 Hx2]. destruct (Z.log2_spec y Hy) as [Hy1 Hy2].
  rewrite <-Hl in *. rewrite Z.pow_succ_r in Hx2, Hy2 by lia. set (k := Z.log2 x) in *.
  assert (Z.lxor x y = Z.lxor (x - 2 ^ k) (y - 2 ^ k)) as ->; [|apply lxor_bound; lia].
  transitivity (Z.lxor (1 * 2 ^ k + (x - 2 ^ k)) (1 * 2 ^ k + (y - 2 ^ k))); [f_equal; lia|].
  by rewrite lxor_concat, Z.lxor_nilpotent, Z.mul_0_l, Z.add_0_l by lia.
Qed.

Lemma lxor_cancel_l x y z : Z.lxor (Z.lxor x y) (Z.lxor x z) = Z.lxor y z.
Proof.
  rewrite (Z.lxor_comm x y), Z.lxor_assoc, <-(Z.lxor_assoc x x z), Z.lxor_nilpotent, Z.lxor_0_l.
  done.
Qed.

Lemma same_bucket_dist self_id a b :
  self_id ≠ a → self_id ≠ b → bucket_index self_id a = bucket_index self_id b →
  (dist (nid a) (nid b) < 2 ^ Z.of_nat (bucket_index self_id a))%Z ∧
  (2 ^ Z.of_nat (bucket_index self_id a) ≤ dist (nid self_id) (nid b))%Z.
Proof.
  intros Ha Hb Heq. assert (Hpos : ∀ c, self_id ≠ c → (0 < dist (nid self_id) (nid c))%Z).
  { intros c Hc. pose proof (dist_bound (nid self_id) (nid c)).
    destruct (Z.eq_dec (dist (nid self_id) (nid c)) 0%Z) as [H0|]; [|lia].
    apply dist_zero in H0. destruct self_id, c. simpl in H0. congruence. }
  pose proof (Hpos a Ha). pose proof (Hpos b Hb).
  pose proof (bucket_index_log2 _ _ Ha) as La. pose proof (bucket_index_log2 _ _ Hb) as Lb.
  rewrite La. split.
  - rewrite dist_lxor, <-(lxor_cancel_l (val256 (nid self_id))), <-!dist_lxor.
    apply lxor_same_log2; [done..|congruence].
  - replace (Z.log2 (dist (nid self_id) (nid a))) with (Z.log2 (dist (nid self_id) (nid b)))
      by congruence. apply Z.log2_spec; lia.
Qed.

Lemma leading_zeros_ceil_log2 n :
  (1 < n < 2 ^ 32)%Z → (32 - leading_zeros 32 (n - 1) = Z.log2_up n)%Z.
Proof.
  intros Hn. unfold leading_zeros. destruct (Z.eqb_spec (n - 1) 0); [lia|].
  rewrite Z.log2_up_eqn by lia. unfold Z.pred. replace (n + -1)%Z with (n - 1)%Z by lia. lia.
Qed.

Lemma prefix_val (d : arr 32) : be_val (take 4 (vec_to_list d)) = (val256 d / 2 ^ 224)%Z.
Proof.
  unfold val256. rewrite <-(take_drop 4 (vec_to_list d)) at 2.
  rewrite be_val_app, length_drop, length_vec_to_list.
  pose proof (be_val_bound (drop 4 (vec_to_list d))) as H.
  rewrite length_drop, length_vec_to_list in H. change (Z.of_nat (32 - 4)) with 28%Z in *.
  change (256 ^ 28)%Z with (2 ^ 224)%Z in *.
  rewrite Z.div_add_l, Z.div_small by lia. lia.
Qed.

(** The unreduced shard number: the [ceil (log2 S)] high bits of the distance. *)
Lemma shard_raw (self_id : NodeId) (key : Key) (n : Z) :
  (1 < n < 2 ^ 32)%Z →
  shard_id self_id key n =
  let raw := (dist (nid self_id) (kid key) / 2 ^ (256 - Z.log2_up n))%Z in
  if is_power_of_two n then raw else (raw mod n)%Z.
Proof.
  intros Hn. unfold shard_id. destruct (Z.leb_spec n 1); [lia|].
  rewrite leading_zeros_ceil_log2 by lia. cbv zeta.
  assert (0 < Z.log2_up n)%Z by (apply Z.log2_up_pos; lia).
  assert (Z.log2_up n ≤ 32)%Z.
  { change 32%Z with (Z.log2_up (2 ^ 32)). apply Z.log2_up_le_mono. lia. }
  destruct (Z.eqb_spec (Z.log2_up n) 0); [lia|].
  rewrite Z.shiftr_div_pow2, prefix_val by lia.
  rewrite Z.div_div, <-Z.pow_add_r by lia.
  replace (224 + (32 - Z.log2_up n))%Z with (256 - Z.log2_up n)%Z by lia. done.
Qed.

(** ** Properties *)

(** [xor_distance] is the exclusive or of the two identifiers read as 256-bit
    big-endian integers; the lexicographic order the code uses to compare two distances
    ([da.cmp(&db)] on [[u8; 32]]) is the order of those integers; and the distance is a
    metric: zero exactly on equal identifiers, symmetric, with the triangle
    inequality. *)
Theorem xor_distance_metric (a b c : arr 32) :
  val256 (xor_distance a b) = Z.lxor (val256 a) (val256 b) ∧
  bytes_cmp (vec_to_list (xor_distance a b)) (vec_to_list (xor_distance a c)) =
    (val256 (xor_distance a b) ?= val256 (xor_distance a c))%Z ∧
  (val256 (xor_distance a b) = 0%Z ↔ a = b) ∧
  xor_distance a b = xor_distance b a ∧
  (val256 (xor_distance a c) ≤ val256 (xor_distance a b) + val256 (xor_distance b c))%Z.
Proof.
  split_and!.
  - apply dist_lxor.
  - apply xor_distance_cmp.
  - apply dist_zero.
  - apply val256_inj, dist_comm.
  - apply dist_triangle.
Qed.

(** [bucket_index] is the base-2 logarithm of the distance, within [0..=255]; and
    Kademlia's routing step makes progress: a contact taken from the bucket that the
    target falls in is strictly closer to the target than the node itself, by at least
    one more common prefix bit (its distance is below [2^i], the node's is not). *)
Theorem bucket_index_progress (self_id peer target : NodeId) :
  self_id ≠ peer → self_id ≠ target →
  bucket_index self_id peer = bucket_index self_id target →
  let i := Z.of_nat (bucket_index self_id target) in
  (0 ≤ i ≤ 255)%Z ∧
  (2 ^ i ≤ val256 (xor_distance (nid self_id) (nid target)) < 2 ^ (i + 1))%Z ∧
  (val256 (xor_distance (nid peer) (nid target)) < 2 ^ i)%Z.
Proof.
  intros Hp Ht Heq i. pose proof (bucket_index_range self_id target).
  destruct (same_bucket_dist self_id peer target Hp Ht Heq) as [H1 H2].
  rewrite Heq in H1, H2. split; [lia|]. split; [|done].
  pose proof (bucket_index_log2 _ _ Ht) as Hl. subst i. rewrite Hl.
  apply Z.log2_spec. unfold dist in H2. lia.
Qed.

Lemma bucket_index_progress_witness :
  (let i := Z.of_nat (bucket_index (mkNodeId (arr_repeat (z2b 0) 32))
                                   (mkNodeId (arr_repeat (z2b 3) 32))) in
   (0 ≤ i ≤ 255)%Z ∧
   (2 ^ i ≤ val256 (xor_distance (arr_repeat (z2b 0) 32) (arr_repeat (z2b 3) 32))
      < 2 ^ (i + 1))%Z ∧
   (val256 (xor_distance (arr_repeat (z2b 2) 32) (arr_repeat (z2b 3) 32)) < 2 ^ i)%Z).
Proof.
  apply (bucket_index_progress (mkNodeId (arr_repeat (z2b 0) 32))
           (mkNodeId (arr_repeat (z2b 2) 32)) (mkNodeId (arr_repeat (z2b 3) 32)));
    [by vm_compute..].
Defined.

(** [shard_id] always names an existing shard (so [Node::owner] never indexes out of
    bounds), and for a power-of-two shard count it is exactly the [log2 S] high bits of
    the distance between the node and the key. *)
Theorem shard_id_correct (self_id : NodeId) (key : Key) (shard_count : Z) :
  (1 ≤ shard_count < 2 ^ 32)%Z →
  (0 ≤ shard_id self_id key shard_count < shard_count)%Z ∧
  (is_power_of_two shard_count = true →
   shard_id self_id key shard_count =
     (val256 (xor_distance (nid self_id) (kid key)) / 2 ^ (256 - Z.log2 shard_count))%Z).
Proof.
  intros Hn. destruct (decide (shard_count = 1%Z)) as [->|Hne].
  { split; [done|]. intros _. symmetry. apply Z.div_small. apply dist_bound. }
  rewrite shard_raw by lia. cbv zeta. fold (dist (nid self_id) (kid key)).
  pose proof (dist_bound (nid self_id) (kid key)) as Hd.
  destruct (is_power_of_two shard_count) eqn:Hp.
  - unfold is_power_of_two in Hp. bool_to_prop.
    assert (Hl : Z.log2_up shard_count = Z.log2 shard_count).
    { rewrite <-H0 at 1. apply Z.log2_up_pow2, Z.log2_nonneg. }
    rewrite Hl. split; [|done].
    assert (0 ≤ Z.log2 shard_count < 32)%Z.
    { split; [apply Z.log2_nonneg|apply Z.log2_lt_pow2; lia]. }
    split; [apply Z.div_pos; lia|].
    apply Z.div_lt_upper_bound; [lia|].
    rewrite <-H0 at 2. rewrite <-Z.pow_add_r by lia.
    replace (256 - Z.log2 shard_count + Z.log2 shard_count)%Z with 256%Z by lia. lia.
  - split; [|done]. apply Z.mod_pos_bound. lia.
Qed.

Lemma shard_id_correct_witness :
  (0 ≤ shard_id (mkNodeId (arr_repeat (z2b 0) 32)) (mkKey (arr_repeat (z2b 192) 32)) 4 < 4)%Z ∧
  (is_power_of_two 4 = true →
   shard_id (mkNodeId (arr_repeat (z2b 0) 32)) (mkKey (arr_repeat (z2b 192) 32)) 4 =
   (val256 (xor_distance (arr_repeat (z2b 0) 32) (arr_repeat (z2b 192) 32))
      / 2 ^ (256 - Z.log2 4))%Z).
Proof.
  apply (shard_id_correct (mkNodeId (arr_repeat (z2b 0) 32)) (mkKey (arr_repeat (z2b 192) 32)) 4).
  lia.
Defined.
