(* ===== verification/Proto.v ===== *)
(** * Protobuf messages ([proto/molia.proto])

    The message structs that [prost] generates from the schema, one record each, and
    the interface to the generated encoder and decoder.  The generated code is not part
    of the repository: [encode_to_vec] and [decode_msg] are members of the class
    [Message], whose law [decode_encode_msg] is prost's documented contract (decoding what was encoded
    gives the message back) for messages whose integers fit their Protobuf types
    ([msg_wf]).  [Message::encoded_len] is the length of [encode_to_vec], and
    [Message::encode] into a slice of that length writes exactly those bytes. *)

From S2P Require Import Prelude Bytes.

Module proto.
Record Addr := mkAddr { multiaddr : bytes }.

Record Capabilities := mkCapabilities {
  cap_version : Z; cap_bitmap : Z; cap_max_msg_bytes : Z }.

Record Ping := mkPing {
  ping_now_unix_ms : Z; ping_x25519_pubkey : bytes; ping_ed25519_pubkey : bytes;
  ping_binding_sig : bytes }.

Record Pong := mkPong {
  pong_now_unix_ms : Z; pong_x25519_pubkey : bytes; pong_ed25519_pubkey : bytes;
  pong_binding_sig : bytes; pong_observed : option Addr }.

Record FindNodeReq := mkFindNodeReq { fnq_target_id : bytes; fnq_limit : Z }.

Record Peer := mkPeer {
  peer_id : bytes; peer_addrs : list Addr; peer_rtt_ms : Z; peer_x25519_pubkey : bytes }.

Record FindNodeResp := mkFindNodeResp { fnr_peers : list Peer }.

Record FindValueReq := mkFindValueReq { fvq_key : bytes; fvq_provider_limit : Z }.

Record Provider := mkProvider { prov_peer_id : bytes; prov_meta : bytes }.

Inductive find_value_result :=
  | ResultRecord (record : bytes)
  | ResultProviders (providers : list Provider).

Record FindValueResp := mkFindValueResp {
  fvr_result : option find_value_result; fvr_closer_peers : list Peer }.

Record StoreReq := mkStoreReq {
  sq_record : bytes; sq_admission_token : bytes; sq_cost_stamp : bytes }.

Record StoreResp := mkStoreResp { sr_code : Z; sr_reason : bytes }.

Record NegotiateResp := mkNegotiateResp { agreed : option Capabilities }.

Record AnnounceProviderReq := mkAnnounceProviderReq {
  aq_key : bytes; aq_self_descriptor : option Provider; aq_record : bytes;
  aq_admission_token : bytes; aq_cost_stamp : bytes }.

Record AnnounceProviderResp := mkAnnounceProviderResp { ar_code : Z; ar_reason : bytes }.

Record Record_ := mkRecord {
  r_key : bytes; r_value : bytes; r_sequence : Z; r_ttl_secs : Z; r_not_before_unix : Z;
  r_owner_pubkey : bytes; r_signature : bytes; r_validators : bytes; r_kind : Z;
  r_namespace : bytes; r_salt : bytes }.

Record Error := mkError { err_code : Z; err_reason : bytes; err_retry_after_ms : Z }.

Record Punch := mkPunch {
  punch_target_id : bytes; punch_from_id : bytes; punch_candidates : list Addr }.

Record Relay := mkRelay { relay_dest_id : bytes; relay_from_id : bytes; relay_payload : bytes }.
End proto.

(** The integers of a message fit the types of the schema. *)
Class MsgWf (T : Type) := msg_wf : T → Prop.

#[export] Instance Record_wf : MsgWf proto.Record_ := λ r,
  in_u 64 (proto.r_sequence r) ∧ in_u 64 (proto.r_ttl_secs r) ∧
  in_u 64 (proto.r_not_before_unix r) ∧ in_u 32 (proto.r_kind r).

#[export] Instance Ping_wf : MsgWf proto.Ping := λ p, in_u 64 (proto.ping_now_unix_ms p).

#[export] Instance Pong_wf : MsgWf proto.Pong := λ p, in_u 64 (proto.pong_now_unix_ms p).

#[export] Instance Capabilities_wf : MsgWf proto.Capabilities := λ c,
  in_u 32 (proto.cap_version c) ∧ in_u 64 (proto.cap_bitmap c) ∧ in_u 32 (proto.cap_max_msg_bytes c).

#[export] Instance NegotiateResp_wf : MsgWf proto.NegotiateResp := λ n,
  match proto.agreed n with Some c => msg_wf c | None => True end.

#[export] Instance Peer_wf : MsgWf proto.Peer := λ p, in_u 32 (proto.peer_rtt_ms p).

#[export] Instance FindNodeReq_wf : MsgWf proto.FindNodeReq := λ q, in_u 32 (proto.fnq_limit q).

#[export] Instance FindNodeResp_wf : MsgWf proto.FindNodeResp := λ r, Forall msg_wf (proto.fnr_peers r).

#[export] Instance FindValueReq_wf : MsgWf proto.FindValueReq := λ q, in_u 32 (proto.fvq_provider_limit q).

#[export] Instance FindValueResp_wf : MsgWf proto.FindValueResp := λ r,
  Forall msg_wf (proto.fvr_closer_peers r).

#[export] Instance StoreReq_wf : MsgWf proto.StoreReq := λ _, True.

#[export] Instance StoreResp_wf : MsgWf proto.StoreResp := λ r, in_u 31 (proto.sr_code r).

#[export] Instance AnnounceProviderReq_wf : MsgWf proto.AnnounceProviderReq := λ _, True.

#[export] Instance AnnounceProviderResp_wf : MsgWf proto.AnnounceProviderResp := λ r, in_u 31 (proto.ar_code r).

#[export] Instance Error_wf : MsgWf proto.Error := λ e,
  in_u 31 (proto.err_code e) ∧ in_u 32 (proto.err_retry_after_ms e).

#[export] Instance Punch_wf : MsgWf proto.Punch := λ _, True.

#[export] Instance Relay_wf : MsgWf proto.Relay := λ _, True.

(** The generated encoder and decoder. *)
Class Message (T : Type) `{!MsgWf T} := {
  encode_to_vec : T → bytes;
  decode_msg : bytes → option T;
  decode_encode_msg : ∀ m, msg_wf m → decode_msg (encode_to_vec m) = Some m;
}.

(** The codec of every message the shard exchanges.  A relay frame contains its payload
    beside a field tag and a length, so the payload is shorter than the frame. *)
Class Protobuf := {
  #[global] msg_Record :: Message proto.Record_;
  #[global] msg_Ping :: Message proto.Ping;
  #[global] msg_Pong :: Message proto.Pong;
  #[global] msg_NegotiateResp :: Message proto.NegotiateResp;
  #[global] msg_FindNodeReq :: Message proto.FindNodeReq;
  #[global] msg_FindNodeResp :: Message proto.FindNodeResp;
  #[global] msg_FindValueReq :: Message proto.FindValueReq;
  #[global] msg_FindValueResp :: Message proto.FindValueResp;
  #[global] msg_StoreReq :: Message proto.StoreReq;
  #[global] msg_StoreResp :: Message proto.StoreResp;
  #[global] msg_AnnounceProviderReq :: Message proto.AnnounceProviderReq;
  #[global] msg_AnnounceProviderResp :: Message proto.AnnounceProviderResp;
  #[global] msg_Error :: Message proto.Error;
  #[global] msg_Punch :: Message proto.Punch;
  #[global] msg_Relay :: Message proto.Relay;
  relay_payload_shorter : ∀ b r, decode_msg b = Some r → length (proto.relay_payload r) < length b;
}.

(** ** A concrete codec

    A self-delimiting binary format for the same messages, used to evaluate statements
    about an arbitrary [Protobuf]: a message is the concatenation of its fields, a byte
    string is preceded by its length, a number is the byte string of its digits. *)

Class Wire (A : Type) := {
  enc : A → bytes;
  dec : bytes → option (A * bytes);
  dec_enc : ∀ a rest, dec (enc a ++ rest) = Some (a, rest);
}.

Definition enc_nat (n : nat) : bytes := replicate (n / 255) (z2b 255) ++ [z2b (Z.of_nat (n mod 255))].

Fixpoint dec_nat (b : bytes) (acc : nat) : option (nat * bytes) :=
  match b with
  | [] => None
  | x :: b => if (b2z x =? 255)%Z then dec_nat b (255 + acc) else Some (acc + Z.to_nat (b2z x), b)
  end.

Lemma dec_nat_enc n acc rest : dec_nat (enc_nat n ++ rest) acc = Some (acc + n, rest).
Proof.
  unfold enc_nat. rewrite <-(assoc_L (++)).
  assert (Hm : n mod 255 < 255) by (apply Nat.mod_upper_bound; lia).
  rewrite (Nat.div_mod n 255) at 3 by lia. revert Hm. generalize (n / 255) (n mod 255).
  intros q r Hr. revert acc. induction q as [|q IH]; intros acc.
  - cbn -[z2b Z.eqb]. rewrite b2z_z2b_small by lia.
    destruct (Z.eqb_spec (Z.of_nat r) 255); [lia|]. rewrite Nat2Z.id. do 2 f_equal; lia.
  - cbn [replicate app dec_nat]. rewrite b2z_z2b_small by lia. cbn [Z.eqb Pos.eqb].
    rewrite IH. do 2 f_equal; lia.
Qed.

#[export] Instance bytes_wire : Wire bytes.
Proof.
  refine {|
  enc b := enc_nat (length b) ++ b;
  dec b := '(n, b) ← dec_nat b 0;
           if length b <? n then None else Some (take n b, drop n b);
|}.
  intros a rest. rewrite <-(assoc_L (++)), dec_nat_enc. cbn [mbind option_bind Nat.add].
  rewrite length_app. destruct (Nat.ltb_spec (length a + length rest) (length a)); [lia|].
  by rewrite take_app_length, drop_app_length.
Defined.

(** The naturals and the negative numbers interleaved. *)
Definition zigzag (z : Z) : Z := if (z <? 0)%Z then (-2 * z - 1)%Z else (2 * z)%Z.
Definition unzigzag (z : Z) : Z := if Z.odd z then (- (z / 2) - 1)%Z else (z / 2)%Z.

Lemma unzigzag_zigzag z : unzigzag (zigzag z) = z.
Proof.
  unfold zigzag, unzigzag. destruct (Z.ltb_spec z 0).
  - replace (-2 * z - 1)%Z with (1 + 2 * (- z - 1))%Z by lia.
    rewrite Z.odd_add_mul_2. cbn [Z.odd].
    rewrite (Z.mul_comm 2), Z.div_add by lia. change (1 / 2)%Z with 0%Z. lia.
  - rewrite Z.odd_mul. cbn [Z.odd andb]. rewrite Z.mul_comm, Z.div_mul; lia.
Qed.

#[export] Instance Z_wire : Wire Z.
Proof.
  refine {|
  enc z := let z := zigzag z in enc (le_bytes (S (Z.to_nat (Z.log2 z / 8))) z);
  dec b := '(d, b) ← dec b; Some (unzigzag (le_val d), b);
|}.
  intros z rest. rewrite dec_enc. cbn [mbind option_bind].
  rewrite <-(unzigzag_zigzag z) at 3. assert (Hz : (0 ≤ zigzag z)%Z).
  { unfold zigzag. destruct (Z.ltb_spec z 0); lia. }
  revert Hz. generalize (zigzag z). clear z. intros z Hz.
  rewrite le_val_le_bytes, Z.mod_small; [done|]. split; [done|].
  pose proof (Z.log2_nonneg z). assert (0 ≤ Z.log2 z / 8)%Z by (apply Z.div_pos; lia).
  rewrite pow256_pow2, Nat2Z.inj_succ, Z2Nat.id by done.
  destruct (decide (z = 0)%Z) as [->|]; [apply Z.pow_pos_nonneg; lia|].
  apply Z.log2_lt_pow2; [lia|]. pose proof (Z.div_mod (Z.log2 z) 8).
  pose proof (Z.mod_pos_bound (Z.log2 z) 8). lia.
Defined.

#[export] Instance prod_wire {A B} `{Wire A} `{Wire B} : Wire (A * B).
Proof.
  refine {|
  enc ab := enc ab.1 ++ enc ab.2;
  dec l := '(a, l) ← dec l; '(b, l) ← dec l; Some ((a, b), l);
|}.
  intros [a b] rest. cbn [fst snd]. rewrite <-(assoc_L (++)), dec_enc.
  cbn [mbind option_bind]. by rewrite dec_enc.
Defined.

Fixpoint dec_list {A} `{Wire A} (n : nat) (l : bytes) : option (list A * bytes) :=
  match n with
  | O => Some ([], l)
  | S n => '(a, l) ← dec l; '(r, l) ← dec_list n l; Some (a :: r, l)
  end.

#[export] Instance list_wire {A} `{Wire A} : Wire (list A).
Proof.
  refine {|
  enc l := enc_nat (length l) ++ mjoin (enc <$> l);
  dec l := '(n, l) ← dec_nat l 0; dec_list n l;
|}.
  intros l rest. rewrite <-(assoc_L (++)), dec_nat_enc. cbn [mbind option_bind Nat.add].
  induction l as [|a l IH]; [done|]. rewrite fmap_cons. change (mjoin (?x :: ?y)) with (x ++ mjoin y).
  cbn [length dec_list].
  rewrite <-(assoc_L (++)), dec_enc. cbn [mbind option_bind]. by rewrite IH.
Defined.

#[export] Instance sum_wire {A B} `{Wire A} `{Wire B} : Wire (A + B).
Proof.
  refine {|
  enc ab := match ab with inl a => z2b 0 :: enc a | inr b => z2b 1 :: enc b end;
  dec l := match l with
           | x :: l => if (b2z x =? 0)%Z then '(a, l) ← dec l; Some (inl a, l)
                       else '(b, l) ← dec l; Some (inr b, l)
           | [] => None
           end;
|}.
  intros [a|b] rest; cbn [app]; rewrite b2z_z2b_small by lia; cbn [Z.eqb];
    by rewrite dec_enc.
Defined.

#[export] Instance unit_wire : Wire unit.
Proof.
  refine {|
  enc _ := []; dec l := Some (tt, l) |}.
  by intros [].
Defined.

(** A type that is a renaming of [B]. *)
Definition iso_wire {A B} `{Wire B} (f : A → B) (g : B → A) (gf : ∀ a, g (f a) = a) : Wire A.
Proof.
  refine {|
  enc a := enc (f a);
  dec l := '(b, l) ← dec l; Some (g b, l);
|}.
  intros a rest. rewrite dec_enc. cbn [mbind option_bind]. by rewrite gf.
Defined.

#[export] Instance option_wire {A} `{Wire A} : Wire (option A).
Proof.
  refine (iso_wire (λ o, match o with Some a => inr a | None => inl tt end)
    (λ s, match s with inr a => Some a | inl _ => None end) _). by intros [].
Defined.

(** A format for the whole input. *)
Definition dec_all {T} `{!Wire T} (b : bytes) : option T :=
  match dec b with Some (m, []) => Some m | _ => None end.

Lemma dec_all_enc {T} `{!Wire T} (m : T) : dec_all (enc m) = Some m.
Proof. unfold dec_all. by rewrite <-(app_nil_r (enc m)), dec_enc. Qed.

Definition wire_message {T} `{!MsgWf T} `{!Wire T} : Message T :=
  {| encode_to_vec := enc; decode_msg := dec_all; decode_encode_msg m _ := dec_all_enc m |}.

(** The messages as products of their fields. *)

#[export] Instance Addr_wire : Wire proto.Addr.
Proof. refine (iso_wire proto.multiaddr proto.mkAddr _). by intros []. Defined.

#[export] Instance Capabilities_wire : Wire proto.Capabilities.
Proof.
  refine (iso_wire (λ c, (proto.cap_version c, proto.cap_bitmap c, proto.cap_max_msg_bytes c))
    (λ '(a, b, c), proto.mkCapabilities a b c) _). by intros [].
Defined.

#[export] Instance Ping_wire : Wire proto.Ping.
Proof.
  refine (iso_wire (λ p, (proto.ping_now_unix_ms p, proto.ping_x25519_pubkey p,
                          proto.ping_ed25519_pubkey p, proto.ping_binding_sig p))
    (λ '(a, b, c, d), proto.mkPing a b c d) _). by intros [].
Defined.

#[export] Instance Pong_wire : Wire proto.Pong.
Proof.
  refine (iso_wire (λ p, (proto.pong_now_unix_ms p, proto.pong_x25519_pubkey p,
                          proto.pong_ed25519_pubkey p, proto.pong_binding_sig p, proto.pong_observed p))
    (λ '(a, b, c, d, e), proto.mkPong a b c d e) _). by intros [].
Defined.

#[export] Instance Record_wire : Wire proto.Record_.
Proof.
  refine (iso_wire (λ r, (proto.r_key r, proto.r_value r, proto.r_sequence r, proto.r_ttl_secs r,
      proto.r_not_before_unix r, proto.r_owner_pubkey r, proto.r_signature r, proto.r_validators r,
      proto.r_kind r, proto.r_namespace r, proto.r_salt r))
    (λ '(a, b, c, d, e, f, g, h, i, j, k), proto.mkRecord a b c d e f g h i j k) _). by intros [].
Defined.

#[export] Instance Peer_wire : Wire proto.Peer.
Proof.
  refine (iso_wire (λ p, (proto.peer_id p, proto.peer_addrs p, proto.peer_rtt_ms p,
                          proto.peer_x25519_pubkey p))
    (λ '(a, b, c, d), proto.mkPeer a b c d) _). by intros [].
Defined.

#[export] Instance FindNodeReq_wire : Wire proto.FindNodeReq.
Proof.
  refine (iso_wire (λ q, (proto.fnq_target_id q, proto.fnq_limit q))
    (λ '(a, b), proto.mkFindNodeReq a b) _). by intros [].
Defined.

#[export] Instance FindNodeResp_wire : Wire proto.FindNodeResp.
Proof. refine (iso_wire proto.fnr_peers proto.mkFindNodeResp _). by intros []. Defined.

#[export] Instance FindValueReq_wire : Wire proto.FindValueReq.
Proof.
  refine (iso_wire (λ q, (proto.fvq_key q, proto.fvq_provider_limit q))
    (λ '(a, b), proto.mkFindValueReq a b) _). by intros [].
Defined.

#[export] Instance Provider_wire : Wire proto.Provider.
Proof.
  refine (iso_wire (λ q, (proto.prov_peer_id q, proto.prov_meta q))
    (λ '(a, b), proto.mkProvider a b) _). by intros [].
Defined.

#[export] Instance find_value_result_wire : Wire proto.find_value_result.
Proof.
  refine (iso_wire (λ r, match r with proto.ResultRecord b => inl b | proto.ResultProviders l => inr l end)
    (λ s, match s with inl b => proto.ResultRecord b | inr l => proto.ResultProviders l end) _).
  by intros [].
Defined.

#[export] Instance FindValueResp_wire : Wire proto.FindValueResp.
Proof.
  refine (iso_wire (λ r, (proto.fvr_result r, proto.fvr_closer_peers r))
    (λ '(a, b), proto.mkFindValueResp a b) _). by intros [].
Defined.

#[export] Instance StoreReq_wire : Wire proto.StoreReq.
Proof.
  refine (iso_wire (λ q, (proto.sq_record q, proto.sq_admission_token q, proto.sq_cost_stamp q))
    (λ '(a, b, c), proto.mkStoreReq a b c) _). by intros [].
Defined.

#[export] Instance StoreResp_wire : Wire proto.StoreResp.
Proof.
  refine (iso_wire (λ r, (proto.sr_code r, proto.sr_reason r)) (λ '(a, b), proto.mkStoreResp a b) _).
  by intros [].
Defined.

#[export] Instance NegotiateResp_wire : Wire proto.NegotiateResp.
Proof. refine (iso_wire proto.agreed proto.mkNegotiateResp _). by intros []. Defined.

#[export] Instance AnnounceProviderReq_wire : Wire proto.AnnounceProviderReq.
Proof.
  refine (iso_wire (λ q, (proto.aq_key q, proto.aq_self_descriptor q, proto.aq_record q,
                          proto.aq_admission_token q, proto.aq_cost_stamp q))
    (λ '(a, b, c, d, e), proto.mkAnnounceProviderReq a b c d e) _). by intros [].
Defined.

#[export] Instance AnnounceProviderResp_wire : Wire proto.AnnounceProviderResp.
Proof.
  refine (iso_wire (λ r, (proto.ar_code r, proto.ar_reason r))
    (λ '(a, b), proto.mkAnnounceProviderResp a b) _). by intros [].
Defined.

#[export] Instance Error_wire : Wire proto.Error.
Proof.
  refine (iso_wire (λ e, (proto.err_code e, proto.err_reason e, proto.err_retry_after_ms e))
    (λ '(a, b, c), proto.mkError a b c) _). by intros [].
Defined.

#[export] Instance Punch_wire : Wire proto.Punch.
Proof.
  refine (iso_wire (λ p, (proto.punch_target_id p, proto.punch_from_id p, proto.punch_candidates p))
    (λ '(a, b, c), proto.mkPunch a b c) _). by intros [].
Defined.

#[export] Instance Relay_wire : Wire proto.Relay.
Proof.
  refine (iso_wire (λ r, (proto.relay_dest_id r, proto.relay_from_id r, proto.relay_payload r))
    (λ '(a, b, c), proto.mkRelay a b c) _). by intros [].
Defined.

Lemma dec_nat_length b acc n rest : dec_nat b acc = Some (n, rest) → length rest < length b.
Proof.
  revert acc. induction b as [|x b IH]; intros acc; [done|]. cbn [dec_nat length].
  destruct (_ =? _)%Z; [intros ?%IH; lia|intros [= _ <-]; lia].
Qed.

Lemma dec_bytes_length b x rest : dec (A := bytes) b = Some (x, rest) → length x + length rest < length b.
Proof.
  cbn [dec bytes_wire]. destruct (dec_nat b 0) as [[n b']|] eqn:Hn; [|done]. cbn [mbind option_bind].
  apply dec_nat_length in Hn. destruct (Nat.ltb_spec (length b') n); [done|].
  intros [= <- <-]. rewrite length_take, length_drop. lia.
Qed.

Lemma relay_dec_length b r : dec_all (T := proto.Relay) b = Some r →
  length (proto.relay_payload r) < length b.
Proof.
  unfold dec_all. cbn [dec Relay_wire iso_wire prod_wire]. intros Hd.
  destruct (dec (A := bytes) b) as [[d b1]|] eqn:H1; [|done]. cbn [mbind option_bind] in Hd.
  destruct (dec (A := bytes) b1) as [[f b2]|] eqn:H2; [|done]. cbn [mbind option_bind] in Hd.
  destruct (dec (A := bytes) b2) as [[p b3]|] eqn:H3; [|done]. cbn [mbind option_bind] in Hd.
  apply dec_bytes_length in H1, H2, H3. destruct b3; [|done]. injection Hd as <-. cbn in *. lia.
Qed.

Definition wire_protobuf : Protobuf := {|
  msg_Record := wire_message; msg_Ping := wire_message; msg_Pong := wire_message;
  msg_NegotiateResp := wire_message; msg_FindNodeReq := wire_message;
  msg_FindNodeResp := wire_message; msg_FindValueReq := wire_message;
  msg_FindValueResp := wire_message; msg_StoreReq := wire_message;
  msg_StoreResp := wire_message; msg_AnnounceProviderReq := wire_message;
  msg_AnnounceProviderResp := wire_message; msg_Error := wire_message;
  msg_Punch := wire_message; msg_Relay := wire_message;
  relay_payload_shorter := relay_dec_length |}.
