(* ===== verification/Codec.v ===== *)
(** * Wire header and message framing ([src/codec.rs])

    A datagram is a fixed 12-byte header followed by a Protobuf body.  A function that
    writes into a caller's buffer returns the buffer after the writes beside its result;
    an early return leaves whatever was written before it. *)

From S2P Require Import Prelude Bytes Types Proto.

Definition FLAG_RESPONSE : Z := Z.shiftl 1 0.
Definition FLAG_MORE_CHUNKS : Z := Z.shiftl 1 1.
Definition FLAG_PROBE : Z := Z.shiftl 1 2.

Inductive MessageType :=
  | Ping | Pong | NegotiateReq | NegotiateResp | FindNodeReq | FindNodeResp
  | FindValueReq | FindValueResp | StoreReq | StoreResp | AnnounceProviderReq
  | AnnounceProviderResp | Punch | Relay | TraceHint | CacheHint | ErrorMsg.

#[export] Instance MessageType_eq_dec : EqDecision MessageType.
Proof. solve_decision. Defined.

(** The discriminants ([self.ty as u8]). *)
Definition MessageType_as_u8 (t : MessageType) : Z :=
  match t with
  | Ping => 1 | Pong => 2 | NegotiateReq => 3 | NegotiateResp => 4
  | FindNodeReq => 5 | FindNodeResp => 6 | FindValueReq => 7 | FindValueResp => 8
  | StoreReq => 9 | StoreResp => 10 | AnnounceProviderReq => 11
  | AnnounceProviderResp => 12 | Punch => 13 | Relay => 14
  | TraceHint => 250 | CacheHint => 251 | ErrorMsg => 255
  end.

Definition MessageType_from_u8 (v : Z) : option MessageType :=
  match v with
  | 1 => Some Ping | 2 => Some Pong | 3 => Some NegotiateReq | 4 => Some NegotiateResp
  | 5 => Some FindNodeReq | 6 => Some FindNodeResp | 7 => Some FindValueReq
  | 8 => Some FindValueResp | 9 => Some StoreReq | 10 => Some StoreResp
  | 11 => Some AnnounceProviderReq | 12 => Some AnnounceProviderResp
  | 13 => Some Punch | 14 => Some Relay | 250 => Some TraceHint | 251 => Some CacheHint
  | 255 => Some ErrorMsg
  | _ => None
  end%Z.

Definition is_request (t : MessageType) : bool :=
  match t with
  | Ping | NegotiateReq | FindNodeReq | FindValueReq | StoreReq | AnnounceProviderReq
  | Punch | Relay => true
  | _ => false
  end.

Inductive Qos := Control | Coordination | Hints.

#[export] Instance Qos_eq_dec : EqDecision Qos.
Proof. solve_decision. Defined.

Definition Qos_as_u8 (q : Qos) : Z :=
  match q with Control => 0 | Coordination => 1 | Hints => 2 end.

Definition Qos_from_u8 (v : Z) : Qos :=
  match v with 0%Z => Control | 1%Z => Coordination | _ => Hints end.

Record Header := mkHeader {
  h_version : byte;
  h_ty : MessageType;
  h_flags : byte;
  h_qos : Qos;
  h_correlation : Z;
  h_stream_id : Z;
}.

Definition Header_request (ty : MessageType) (qos : Qos) (correlation : Z) : Header :=
  {| h_version := PROTOCOL_VERSION; h_ty := ty; h_flags := z2b 0; h_qos := qos;
     h_correlation := correlation; h_stream_id := 0 |}.

Definition Header_response (ty : MessageType) (qos : Qos) (correlation : Z) : Header :=
  {| h_version := PROTOCOL_VERSION; h_ty := ty; h_flags := z2b FLAG_RESPONSE; h_qos := qos;
     h_correlation := correlation; h_stream_id := 0 |}.

Definition is_response (h : Header) : bool :=
  negb (Z.land (b2z (h_flags h)) FLAG_RESPONSE =? 0)%Z.

Definition is_probe (h : Header) : bool :=
  negb (Z.land (b2z (h_flags h)) FLAG_PROBE =? 0)%Z.

(** [buf[i..i + l.len()].copy_from_slice(l)], in range. *)
Definition write_at (buf : bytes) (i : nat) (l : bytes) : bytes :=
  take i buf ++ l ++ drop (i + length l) buf.

Definition Header_encode (h : Header) (out : bytes) : bytes * option nat :=
  if length out <? HEADER_LEN then (out, None)
  else
    let out := write_at out 0 [h_version h] in
    let out := write_at out 1 [z2b (MessageType_as_u8 (h_ty h))] in
    let out := write_at out 2 [h_flags h] in
    let out := write_at out 3 [z2b (Qos_as_u8 (h_qos h))] in
    let out := write_at out 4 (be_bytes 4 (h_correlation h)) in
    let out := write_at out 8 (be_bytes 4 (h_stream_id h)) in
    (out, Some HEADER_LEN).

(** [buf[i]], in range. *)
Definition index (buf : bytes) (i : nat) : byte := nth i buf (z2b 0).

(** [&buf[i..j]], in range. *)
Definition slice (buf : bytes) (i j : nat) : bytes := take (j - i) (drop i buf).

Definition Header_decode (buf : bytes) : option Header :=
  if length buf <? HEADER_LEN then None
  else if negb (bool_decide (index buf 0 = PROTOCOL_VERSION)) then None
  else
    ty ← MessageType_from_u8 (b2z (index buf 1));
    Some {| h_version := index buf 0;
            h_ty := ty;
            h_flags := index buf 2;
            h_qos := Qos_from_u8 (b2z (index buf 3));
            h_correlation := be_val (slice buf 4 8);
            h_stream_id := be_val (slice buf 8 12) |}.

Definition encode_message {T} `{Message T} (header : Header) (body : T) (out : bytes)
    : bytes * option nat :=
  let '(out, r) := Header_encode header out in
  match r with
  | None => (out, None)
  | Some n =>
      let body_len := length (encode_to_vec body) in
      if (length out <? n + body_len) || (PMTU_FLOOR <? n + body_len) then (out, None)
      else (write_at out n (encode_to_vec body), Some (n + body_len))
  end.

Definition decode_body (T : Type) `{Message T} (buf : bytes) : option T :=
  if length buf <? HEADER_LEN then None else decode_msg (drop HEADER_LEN buf).

Definition encode_ping `{!Message proto.Ping} (correlation now_unix_ms : Z) (out : bytes)
    : bytes * option nat :=
  encode_message (Header_request Ping Control correlation)
    (proto.mkPing now_unix_ms [] [] []) out.

Definition encode_pong `{!Message proto.Pong} (correlation now_unix_ms : Z) (out : bytes)
    : bytes * option nat :=
  encode_message (Header_response Pong Control correlation)
    (proto.mkPong now_unix_ms [] [] [] None) out.

Definition FEATURE_DEFAULT : Z := Z.lor FEATURE_PRIVACY_BLINDING FEATURE_ERASURE_HINTS.

Definition default_capabilities : proto.Capabilities :=
  proto.mkCapabilities 1 FEATURE_DEFAULT (Z.of_nat PMTU_FLOOR).

(** ** Lemmas *)

Lemma MessageType_from_as t : MessageType_from_u8 (MessageType_as_u8 t) = Some t.
Proof. by destruct t. Qed.

Lemma MessageType_as_u8_bound t : (1 ≤ MessageType_as_u8 t < 256)%Z.
Proof. destruct t; simpl; lia. Qed.

Lemma MessageType_as_from v t : MessageType_from_u8 v = Some t → MessageType_as_u8 t = v.
Proof.
  unfold MessageType_from_u8. intros H.
  repeat (case_match; simplify_eq; try done).
Qed.

Lemma Qos_from_as q : Qos_from_u8 (Qos_as_u8 q) = q.
Proof. by destruct q. Qed.

Lemma write_at_length buf i l :
  i + length l ≤ length buf → length (write_at buf i l) = length buf.
Proof. intros. unfold write_at. rewrite !length_app, length_take, length_drop. lia. Qed.

(** The bytes of a header. *)
Definition header_bytes (h : Header) : bytes :=
  [h_version h; z2b (MessageType_as_u8 (h_ty h)); h_flags h; z2b (Qos_as_u8 (h_qos h))] ++
  be_bytes 4 (h_correlation h) ++ be_bytes 4 (h_stream_id h).

Lemma header_bytes_length h : length (header_bytes h) = HEADER_LEN.
Proof. done. Qed.

Lemma Header_encode_eq h out :
  HEADER_LEN ≤ length out →
  Header_encode h out = (header_bytes h ++ drop HEADER_LEN out, Some HEADER_LEN).
Proof.
  intros Hl. unfold Header_encode.
  destruct (Nat.ltb_spec (length out) HEADER_LEN); [lia|]. f_equal.
  unfold HEADER_LEN in *. do 12 (destruct out as [|? out]; [simpl in Hl; lia|]).
  unfold write_at, header_bytes, be_bytes. simpl. by rewrite drop_0.
Qed.

(** A header whose fields are what the wire can carry. *)
Definition header_wf (h : Header) : Prop :=
  h_version h = PROTOCOL_VERSION ∧ in_u 32 (h_correlation h) ∧ in_u 32 (h_stream_id h).

Lemma Header_decode_bytes h rest :
  header_wf h → Header_decode (header_bytes h ++ rest) = Some h.
Proof.
  intros (Hv & Hc & Hs). unfold Header_decode.
  assert ((length (header_bytes h ++ rest) <? HEADER_LEN) = false) as ->.
  { apply Nat.ltb_ge. rewrite length_app, header_bytes_length. lia. }
  unfold index. cbn [header_bytes app nth].
  rewrite (bool_decide_eq_true_2 _ Hv). cbn [negb].
  pose proof (MessageType_as_u8_bound (h_ty h)).
  rewrite (b2z_z2b_small (MessageType_as_u8 (h_ty h))), MessageType_from_as by lia.
  cbn [mbind option_bind].
  rewrite (b2z_z2b_small (Qos_as_u8 (h_qos h))), Qos_from_as
    by (destruct (h_qos h); simpl; lia).
  assert (slice (header_bytes h ++ rest) 4 8 = be_bytes 4 (h_correlation h)) as Hcs by done.
  assert (slice (header_bytes h ++ rest) 8 12 = be_bytes 4 (h_stream_id h)) as Hss by done.
  unfold header_bytes in Hcs, Hss. cbn [app] in Hcs, Hss.
  rewrite Hcs, Hss, !be_val_be_bytes.
  change (256 ^ Z.of_nat 4)%Z with (2 ^ 32)%Z.
  unfold in_u in *. rewrite !Z.mod_small by lia. by destruct h.
Qed.

Lemma Header_encode_short h out :
  length out < HEADER_LEN → Header_encode h out = (out, None).
Proof. intros H. unfold Header_encode. by apply Nat.ltb_lt in H as ->. Qed.

Lemma encode_message_eq {T} `{Message T} h (m : T) out :
  let n := HEADER_LEN + length (encode_to_vec m) in
  n ≤ length out → n ≤ PMTU_FLOOR →
  encode_message h m out =
    (header_bytes h ++ encode_to_vec m ++ drop n out, Some n).
Proof.
  intros n Hl Hp. unfold encode_message. rewrite Header_encode_eq by lia.
  assert (Hlen : length (header_bytes h ++ drop HEADER_LEN out) = length out).
  { rewrite length_app, header_bytes_length, length_drop. lia. }
  rewrite Hlen. fold n.
  destruct (Nat.ltb_spec (length out) n); [lia|].
  destruct (Nat.ltb_spec PMTU_FLOOR n); [lia|]. simpl orb. cbv iota. f_equal.
  unfold write_at. rewrite take_app_length' by done.
  rewrite drop_app_ge by (rewrite header_bytes_length; lia).
  rewrite header_bytes_length, drop_drop. do 2 f_equal. subst n. f_equal. lia.
Qed.

Lemma encode_message_Some {T} `{Message T} h (m : T) out out' n :
  encode_message h m out = (out', Some n) →
  HEADER_LEN + length (encode_to_vec m) ≤ PMTU_FLOOR ∧
  take n out' = header_bytes h ++ encode_to_vec m.
Proof.
  intros He. set (k := HEADER_LEN + length (encode_to_vec m)).
  assert (k ≤ length out ∧ k ≤ PMTU_FLOOR) as [Hl Hp].
  { unfold encode_message in He. destruct (Nat.lt_ge_cases (length out) HEADER_LEN) as [Hs|Hs].
    - by rewrite Header_encode_short in He.
    - rewrite Header_encode_eq in He by done.
      destruct (_ || _) eqn:E in He; [done|]. apply orb_false_iff in E as [E1 E2].
      apply Nat.ltb_ge in E1, E2. rewrite length_app, header_bytes_length, length_drop in E1. lia. }
  rewrite encode_message_eq in He by done. apply pair_equal_spec in He as [<- Hn]. apply (inj Some) in Hn as <-.
  split; [done|]. rewrite (assoc_L (++)). apply take_app_length'. by rewrite length_app, header_bytes_length.
Qed.

(** Type and flags of a header with the right version survive whatever its numbers are. *)
Lemma Header_decode_type h rest :
  h_version h = PROTOCOL_VERSION →
  ∃ h', Header_decode (header_bytes h ++ rest) = Some h' ∧ h_ty h' = h_ty h ∧ h_flags h' = h_flags h.
Proof.
  intros Hv. pose (norm z := be_val (be_bytes 4 z)).
  assert (Hn : ∀ z, be_bytes 4 (norm z) = be_bytes 4 z ∧ in_u 32 (norm z)).
  { intros z. unfold norm. pose proof (be_bytes_be_val (be_bytes 4 z)) as Hb.
    rewrite be_bytes_length in Hb. split; [done|].
    pose proof (be_val_bound (be_bytes 4 z)) as Hz. by rewrite be_bytes_length in Hz. }
  set (h' := mkHeader (h_version h) (h_ty h) (h_flags h) (h_qos h) (norm (h_correlation h)) (norm (h_stream_id h))).
  exists h'. split; [|done]. assert (header_bytes h = header_bytes h') as ->.
  { unfold header_bytes. cbn [h' h_version h_ty h_flags h_qos h_correlation h_stream_id].
    by rewrite !(proj1 (Hn _)). }
  apply Header_decode_bytes. split_and!; [done|apply Hn..].
Qed.

Lemma Header_decode_prefix h bs rest :
  HEADER_LEN ≤ length bs → Header_decode bs = Some h → Header_decode (bs ++ rest) = Some h.
Proof.
  unfold HEADER_LEN. intros Hl. unfold Header_decode, HEADER_LEN.
  do 12 (destruct bs as [|? bs]; [simpl in Hl; lia|]). done.
Qed.

(** ** Properties *)

(** Encoding a header into any buffer of at least [HEADER_LEN] bytes succeeds, touches
    only its first 12 bytes, and decoding the datagram gives the same header back, for
    every message type, flag byte, QoS class, correlation and stream id; a shorter buffer
    is refused and left unchanged. *)
Theorem header_roundtrip (h : Header) (out : bytes) :
  header_wf h →
  (length out < HEADER_LEN → Header_encode h out = (out, None)) ∧
  (HEADER_LEN ≤ length out →
   let '(out', r) := Header_encode h out in
   r = Some HEADER_LEN ∧ length out' = length out ∧
   drop HEADER_LEN out' = drop HEADER_LEN out ∧ Header_decode out' = Some h).
Proof.
  intros Hwf. split; [apply Header_encode_short|]. intros Hl.
  rewrite Header_encode_eq by done. split_and!; [done|..].
  - rewrite length_app, header_bytes_length, length_drop. lia.
  - by rewrite drop_app_length' by done.
  - by apply Header_decode_bytes.
Qed.

Lemma header_roundtrip_witness :
  header_wf (Header_request FindNodeReq Coordination 2864434397) ∧
  Header_decode (fst (Header_encode (Header_request FindNodeReq Coordination 2864434397)
                        (replicate 14 (z2b 7)))) =
    Some (Header_request FindNodeReq Coordination 2864434397).
Proof.
  assert (Hwf : header_wf (Header_request FindNodeReq Coordination 2864434397)).
  { split_and!; [done|..]; unfold in_u; simpl; lia. }
  split; [exact Hwf|].
  pose proof (proj2 (header_roundtrip _ (replicate 14 (z2b 7)) Hwf)) as H.
  destruct (Header_encode (Header_request FindNodeReq Coordination 2864434397)
              (replicate 14 (z2b 7))) as [out' r].
  apply H. vm_compute. lia.
Defined.

(** Every datagram [Header::decode] accepts is one [Header::encode] produces, up to
    the QoS byte: it has at least 12 bytes, version 1, a known type and re-encoding the
    decoded header over the datagram gives the datagram back with its QoS byte replaced
    by the class it was read as (the byte itself when it is at most 2). *)
Theorem header_decode_encode (buf : bytes) (h : Header) :
  Header_decode buf = Some h →
  header_wf h ∧
  Header_encode h buf =
    (write_at buf 3 [z2b (Qos_as_u8 (Qos_from_u8 (b2z (index buf 3))))], Some HEADER_LEN) ∧
  ((b2z (index buf 3) ≤ 2)%Z → Header_encode h buf = (buf, Some HEADER_LEN)).
Proof.
  intros Hd. assert (Hl : HEADER_LEN ≤ length buf).
  { unfold Header_decode in Hd. destruct (Nat.ltb_spec (length buf) HEADER_LEN); [done|lia]. }
  assert (Henc : Header_encode h buf =
    (write_at buf 3 [z2b (Qos_as_u8 (Qos_from_u8 (b2z (index buf 3))))], Some HEADER_LEN) ∧
    header_wf h).
  { rewrite Header_encode_eq by done. unfold Header_decode in Hd. unfold HEADER_LEN in *.
    destruct (Nat.ltb_spec (length buf) 12); [done|].
    do 12 (destruct buf as [|? buf]; [simpl in Hl; lia|]). unfold index, slice in Hd.
    cbn [nth drop take Nat.sub] in Hd.
    destruct (bool_decide_reflect (b = PROTOCOL_VERSION)) as [->|]; [|done]. cbn [negb] in Hd.
    apply bind_Some in Hd as (ty & Hty & [= <-]). split.
    - f_equal. apply MessageType_as_from in Hty. unfold header_bytes, write_at, index.
      cbn [h_version h_ty h_flags h_qos h_correlation h_stream_id
           app take drop length Nat.add nth].
      rewrite Hty, z2b_b2z, take_0, drop_0.
      pose proof (be_bytes_be_val [b3; b4; b5; b6]) as H1.
      pose proof (be_bytes_be_val [b7; b8; b9; b10]) as H2. simpl length in H1, H2.
      by rewrite H1, H2.
    - split; [done|]. split; unfold in_u; change (2 ^ 32)%Z with (256 ^ Z.of_nat 4)%Z;
        [apply (be_val_bound [b3; b4; b5; b6]) |
         simpl; rewrite take_0; apply (be_val_bound [b7; b8; b9; b10])]. }
  destruct Henc as [Henc Hwf]. split; [done|]. split; [done|]. intros Hq. rewrite Henc. f_equal.
  unfold HEADER_LEN in *. do 12 (destruct buf as [|? buf]; [simpl in Hl; lia|]).
  unfold index, write_at in *. cbn [nth take drop Nat.add app length] in *.
  pose proof (b2z_bound b2).
  assert (b2z b2 = 0 ∨ b2z b2 = 1 ∨ b2z b2 = 2)%Z as [E|[E|E]] by lia;
    rewrite E; simpl Qos_as_u8; by rewrite <-E, z2b_b2z.
Qed.

Lemma header_decode_encode_witness :
  let buf := [z2b 1; z2b 7; z2b 4; z2b 1; z2b 0; z2b 0; z2b 0; z2b 9;
              z2b 0; z2b 0; z2b 0; z2b 0; z2b 255] in
  let h := mkHeader (z2b 1) FindValueReq (z2b 4) Coordination 9 0 in
  header_wf h ∧
  Header_encode h buf =
    (write_at buf 3 [z2b (Qos_as_u8 (Qos_from_u8 (b2z (index buf 3))))], Some HEADER_LEN) ∧
  ((b2z (index buf 3) ≤ 2)%Z → Header_encode h buf = (buf, Some HEADER_LEN)).
Proof. intros buf h. apply (header_decode_encode buf h). vm_compute. reflexivity. Defined.

(** C32: [encode_message] succeeds exactly when header and body fit both the caller's
    buffer and the 1200-byte PMTU floor; then it writes exactly that many bytes, leaves
    the rest of the buffer alone, and the receiver's [Header::decode] and [decode_body]
    on the datagram give the header and the message back. *)
Theorem encode_message_correct {T} `{Message T} (h : Header) (m : T) (out : bytes) :
  header_wf h → msg_wf m →
  let n := HEADER_LEN + length (encode_to_vec m) in
  let '(out', r) := encode_message h m out in
  length out' = length out ∧
  (r = None ↔ length out < n ∨ PMTU_FLOOR < n) ∧
  (∀ k, r = Some k →
     k = n ∧ k ≤ PMTU_FLOOR ∧ drop k out' = drop k out ∧
     Header_decode (take k out') = Some h ∧ decode_body T (take k out') = Some m).
Proof.
  intros Hh Hm n. destruct (decide (n ≤ length out ∧ n ≤ PMTU_FLOOR)) as [[Hl Hp]|Hno].
  - rewrite encode_message_eq by done. fold n. split_and!.
    + rewrite !length_app, header_bytes_length, length_drop. lia.
    + split; [done|lia].
    + intros k [= <-]. split_and!; [done|done|..].
      * rewrite app_assoc, drop_app_length'; [done|]. by rewrite length_app, header_bytes_length.
      * rewrite app_assoc, take_app_length' by (by rewrite length_app, header_bytes_length).
        by apply Header_decode_bytes.
      * rewrite app_assoc, take_app_length' by (by rewrite length_app, header_bytes_length).
        unfold decode_body. rewrite length_app, header_bytes_length.
        destruct (Nat.ltb_spec (HEADER_LEN + length (encode_to_vec m)) HEADER_LEN); [lia|].
        rewrite drop_app_length' by done. by apply decode_encode_msg.
  - unfold encode_message. destruct (decide (length out < HEADER_LEN)) as [Hs|Hs].
    { rewrite Header_encode_short by done. split_and!; [done|split; [lia|done]|done]. }
    rewrite Header_encode_eq by lia.
    assert (Hlen : length (header_bytes h ++ drop HEADER_LEN out) = length out).
    { rewrite length_app, header_bytes_length, length_drop. lia. }
    rewrite Hlen. fold n.
    assert (((length out <? n) || (PMTU_FLOOR <? n)) = true) as ->.
    { apply orb_true_iff. rewrite !Nat.ltb_lt. lia. }
    split_and!; [done|split; [lia|done]|done].
Qed.

Lemma encode_message_correct_witness :
  let _ : Message proto.Ping := wire_message in
  let h := Header_request Ping Control 7 in
  let m := proto.mkPing 1234 [] [] [] in
  let out := replicate 64 (z2b 0) in
  let n := HEADER_LEN + length (encode_to_vec m) in
  let '(out', r) := encode_message h m out in
  r = Some n ∧ Header_decode (take n out') = Some h ∧ decode_body proto.Ping (take n out') = Some m.
Proof.
  intros I h m out n.
  assert (Hh : header_wf h) by (split_and!; [done|..]; unfold in_u; simpl; lia).
  assert (Hm : msg_wf m) by (unfold msg_wf, Ping_wf, in_u; simpl; lia).
  pose proof (encode_message_correct h m out Hh Hm) as H.
  destruct (encode_message h m out) as [out' r] eqn:E.
  assert (r = Some n) as -> by (apply (f_equal snd) in E; vm_compute in E |- *; congruence).
  destruct H as (_ & _ & H). destruct (H n eq_refl) as (_ & _ & _ & H1 & H2). done.
Defined.
