(* ===== verification/Routing.v ===== *)
(** * The k-bucket routing table ([src/routing.rs])

    256 buckets of at most [K_MAX] entries and a replacement cache of at most 8 entries
    beside each.  [Instant::now()] is an argument [now] of the operations that read the
    clock; a [Vec] indexed by [bucket_index] is read with [bucket] and written with
    [set_bucket] ([bucket_index] is below 256, so an index is never out of range in a
    well-formed table). *)

From S2P Require Import Prelude Bytes Types.

Record PeerEntry := mkPeerEntry {
  pe_info : PeerInfo;
  pe_last_seen : Z;
  pe_fail_count : Z;
  pe_srtt_us : Z;
}.

Definition PeerEntry_id (e : PeerEntry) : NodeId := pi_id (pe_info e).

Record RoutingTable := mkRoutingTable {
  rt_self_id : NodeId;
  rt_k : nat;
  rt_buckets : list (list PeerEntry);
  rt_replacement : list (list PeerEntry);
}.

(** Capacity of a replacement cache. *)
Definition REPL_CAP : nat := 8.

Definition RoutingTable_new (self_id : NodeId) : RoutingTable :=
  {| rt_self_id := self_id;
     rt_k := K_DEFAULT;
     rt_buckets := replicate 256 [];
     rt_replacement := replicate 256 [] |}.

Definition bucket (rt : RoutingTable) (i : nat) : list PeerEntry :=
  nth i (rt_buckets rt) [].

Definition repl (rt : RoutingTable) (i : nat) : list PeerEntry :=
  nth i (rt_replacement rt) [].

Definition set_bucket (rt : RoutingTable) (i : nat) (b : list PeerEntry) : RoutingTable :=
  {| rt_self_id := rt_self_id rt; rt_k := rt_k rt;
     rt_buckets := <[i := b]> (rt_buckets rt); rt_replacement := rt_replacement rt |}.

Definition set_repl (rt : RoutingTable) (i : nat) (b : list PeerEntry) : RoutingTable :=
  {| rt_self_id := rt_self_id rt; rt_k := rt_k rt;
     rt_buckets := rt_buckets rt; rt_replacement := <[i := b]> (rt_replacement rt) |}.

Definition all_peers (rt : RoutingTable) : list PeerEntry := concat (rt_buckets rt).

Definition RoutingTable_len (rt : RoutingTable) : nat := sum_list (length <$> rt_buckets rt).

Definition RoutingTable_is_empty (rt : RoutingTable) : bool := RoutingTable_len rt =? 0.

Definition has_id (id : NodeId) (e : PeerEntry) : bool := bool_decide (PeerEntry_id e = id).

(** The IPv4 [/24] prefix of an address. *)
Definition prefix24 (a : SocketAddr) : option bytes :=
  match addr_ip a with
  | IpV4 o => Some (take 3 (vec_to_list o))
  | IpV6 _ => None
  end.

Definition entry_prefix (e : PeerEntry) : option bytes := primary_addr (pe_info e) ≫= prefix24.

Definition prefix_ok (rt : RoutingTable) (info : PeerInfo) : bool :=
  match primary_addr info with
  | None => true
  | Some addr =>
      match prefix24 addr with
      | None => true
      | Some prefix =>
          let i := bucket_index (rt_self_id rt) (pi_id info) in
          length (filter (λ e, entry_prefix e = Some prefix) (bucket rt i)) <? 8
      end
  end.

Definition new_entry (now : Z) (info : PeerInfo) : PeerEntry :=
  {| pe_info := info; pe_last_seen := now; pe_fail_count := 0; pe_srtt_us := 200000 |}.

Definition RoutingTable_insert (now : Z) (rt : RoutingTable) (info : PeerInfo)
    : RoutingTable * option PeerEntry :=
  if bool_decide (pi_id info = rt_self_id rt) then (rt, None)
  else if negb (prefix_ok rt info) then (rt, None)
  else
    let i := bucket_index (rt_self_id rt) (pi_id info) in
    let b := bucket rt i in
    match position (has_id (pi_id info)) b with
    | Some pos =>
        let e := {| pe_info := info; pe_last_seen := now; pe_fail_count := 0;
                    pe_srtt_us := from_option pe_srtt_us 0%Z (b !! pos) |} in
        (set_bucket rt i (remove_at pos b ++ [e]), None)
    | None =>
        if length b <? Nat.min (rt_k rt) K_MAX then
          (set_bucket rt i (b ++ [new_entry now info]), None)
        else
          let lru := head b in
          if length (repl rt i) <? REPL_CAP then
            (set_repl rt i (repl rt i ++ [new_entry now info]), lru)
          else (rt, lru)
    end.

Definition evict_and_replace (rt : RoutingTable) (dead : NodeId) : RoutingTable :=
  let i := bucket_index (rt_self_id rt) dead in
  let rt := set_bucket rt i (filter (λ e, PeerEntry_id e ≠ dead) (bucket rt i)) in
  match pop (repl rt i) with
  | Some (e, rest) =>
      let rt := set_repl rt i rest in
      set_bucket rt i (try_push K_MAX (bucket rt i) e)
  | None => rt
  end.

(** [(old * 7 + sample) / 8] on [u32]: wraps on overflow (panics in a debug build). *)
Definition ewma (old sample : Z) : Z := (wrap 32 (wrap 32 (old * 7) + sample) / 8)%Z.

Definition set_rtt (p : PeerInfo) (rtt : Z) : PeerInfo :=
  {| pi_id := pi_id p; pi_addrs := pi_addrs p; pi_rtt_ms := rtt; pi_x25519 := pi_x25519 p |}.

Definition touch_ok (now : Z) (rt : RoutingTable) (id : NodeId) (rtt_us : Z) : RoutingTable :=
  let i := bucket_index (rt_self_id rt) id in
  set_bucket rt i
    (update_first (has_id id)
       (λ e, let srtt := ewma (pe_srtt_us e) rtt_us in
             {| pe_info := set_rtt (pe_info e) (srtt / 1000)%Z; pe_last_seen := now;
                pe_fail_count := 0; pe_srtt_us := srtt |})
       (bucket rt i)).

Definition bump_fail (e : PeerEntry) : PeerEntry :=
  {| pe_info := pe_info e; pe_last_seen := pe_last_seen e;
     pe_fail_count := sat_add 32 (pe_fail_count e) 1; pe_srtt_us := pe_srtt_us e |}.

Definition mark_fail (rt : RoutingTable) (id : NodeId) : RoutingTable :=
  let i := bucket_index (rt_self_id rt) id in
  match find (has_id id) (bucket rt i) with
  | None => rt
  | Some e =>
      let rt := set_bucket rt i (update_first (has_id id) bump_fail (bucket rt i)) in
      if (3 <=? pe_fail_count (bump_fail e))%Z then evict_and_replace rt id else rt
  end.

Definition closest (rt : RoutingTable) (target : Key) (n : nat) : list PeerInfo :=
  let all := sort_by (λ a b, peer_leb target (pe_info a) (pe_info b)) (all_peers rt) in
  foldl (try_push K_MAX) [] (pe_info <$> take (Nat.min n K_MAX) all).

Definition RoutingTable_get (rt : RoutingTable) (id : NodeId) : option PeerEntry :=
  find (has_id id) (bucket rt (bucket_index (rt_self_id rt) id)).

Definition timeout_us (rt : RoutingTable) (id : NodeId) : Z :=
  let srtt := from_option pe_srtt_us 200000%Z (RoutingTable_get rt id) in
  clamp (sat_mul 32 srtt 2) 50000 600000.

(** ** Buckets as an array *)

Lemma bucket_set_eq rt i b : i < length (rt_buckets rt) → bucket (set_bucket rt i b) i = b.
Proof.
  intros Hi. unfold bucket, set_bucket. simpl.
  rewrite nth_lookup, list_lookup_insert_eq by done. done.
Qed.

Lemma bucket_set_ne rt i j b : i ≠ j → bucket (set_bucket rt i b) j = bucket rt j.
Proof.
  intros Hi. unfold bucket, set_bucket. simpl.
  by rewrite !nth_lookup, list_lookup_insert_ne by done.
Qed.

Lemma bucket_set_repl rt i j b : bucket (set_repl rt i b) j = bucket rt j.
Proof. done. Qed.

Lemma repl_set_bucket rt i j b : repl (set_bucket rt i b) j = repl rt j.
Proof. done. Qed.

Lemma repl_set_eq rt i b : i < length (rt_replacement rt) → repl (set_repl rt i b) i = b.
Proof.
  intros Hi. unfold repl, set_repl. simpl.
  rewrite nth_lookup, list_lookup_insert_eq by done. done.
Qed.

Lemma repl_set_ne rt i j b : i ≠ j → repl (set_repl rt i b) j = repl rt j.
Proof.
  intros Hi. unfold repl, set_repl. simpl.
  by rewrite !nth_lookup, list_lookup_insert_ne by done.
Qed.

Lemma elem_of_all_peers rt e : e ∈ all_peers rt ↔ ∃ i, i < length (rt_buckets rt) ∧ e ∈ bucket rt i.
Proof.
  unfold all_peers, bucket. rewrite list_elem_of_In, in_concat. split.
  - intros (b & Hb & He). apply list_elem_of_In, list_elem_of_lookup in Hb as (i & Hi).
    exists i. split; [by eapply lookup_lt_Some|]. rewrite nth_lookup, Hi. by apply list_elem_of_In.
  - intros (i & Hi & He). rewrite nth_lookup in He.
    destruct (rt_buckets rt !! i) as [b|] eqn:Hb; [|by apply not_elem_of_nil in He].
    exists b. rewrite <-!list_elem_of_In. split; [by eapply list_elem_of_lookup_2|done].
Qed.

(** ** The table invariant *)

(** An entry belongs in bucket [i] of the node [self]. *)
Definition placed (self : NodeId) (i : nat) (e : PeerEntry) : Prop :=
  PeerEntry_id e ≠ self ∧ bucket_index self (PeerEntry_id e) = i.

Record rt_wf (rt : RoutingTable) : Prop := {
  wf_k : rt_k rt = K_DEFAULT;
  wf_buckets : length (rt_buckets rt) = 256;
  wf_repl : length (rt_replacement rt) = 256;
  wf_bucket_len : ∀ i, length (bucket rt i) ≤ K_MAX;
  wf_repl_len : ∀ i, length (repl rt i) ≤ REPL_CAP;
  wf_placed : ∀ i e, e ∈ bucket rt i → placed (rt_self_id rt) i e;
  wf_repl_placed : ∀ i e, e ∈ repl rt i → placed (rt_self_id rt) i e;
}.

#[export] Hint Resolve wf_k wf_buckets wf_repl wf_bucket_len wf_repl_len : molia.

(** Replacing one bucket by well-placed entries within capacity keeps the invariant. *)
Lemma set_bucket_wf rt i b :
  rt_wf rt → i < 256 → length b ≤ K_MAX → (∀ e, e ∈ b → placed (rt_self_id rt) i e) →
  rt_wf (set_bucket rt i b).
Proof.
  intros Hwf Hi Hlen Hpl. pose proof (wf_buckets _ Hwf) as Hb.
  split; try apply Hwf; simpl.
  - by rewrite length_insert.
  - intros j. destruct (decide (i = j)) as [->|].
    + by rewrite bucket_set_eq by lia.
    + rewrite bucket_set_ne by done. apply Hwf.
  - intros j e. destruct (decide (i = j)) as [->|].
    + rewrite bucket_set_eq by lia. apply Hpl.
    + rewrite bucket_set_ne by done. apply Hwf.
Qed.

Lemma set_repl_wf rt i b :
  rt_wf rt → i < 256 → length b ≤ REPL_CAP → (∀ e, e ∈ b → placed (rt_self_id rt) i e) →
  rt_wf (set_repl rt i b).
Proof.
  intros Hwf Hi Hlen Hpl. pose proof (wf_repl _ Hwf) as Hb.
  split; try apply Hwf; simpl.
  - by rewrite length_insert.
  - intros j. destruct (decide (i = j)) as [->|].
    + by rewrite repl_set_eq by lia.
    + rewrite repl_set_ne by done. apply Hwf.
  - intros j e. destruct (decide (i = j)) as [->|].
    + rewrite repl_set_eq by lia. apply Hpl.
    + rewrite repl_set_ne by done. apply Hwf.
Qed.

Lemma nth_replicate_nil i : nth i (replicate 256 ([] : list PeerEntry)) [] = [].
Proof.
  rewrite nth_lookup. destruct (replicate 256 [] !! i) eqn:E; [|done].
  by apply lookup_replicate in E as [-> _].
Qed.

Lemma RoutingTable_new_bucket self_id i : bucket (RoutingTable_new self_id) i = [].
Proof. apply nth_replicate_nil. Qed.

Lemma RoutingTable_new_repl self_id i : repl (RoutingTable_new self_id) i = [].
Proof. apply nth_replicate_nil. Qed.

Lemma RoutingTable_new_wf self_id : rt_wf (RoutingTable_new self_id).
Proof.
  split; intros; rewrite ?RoutingTable_new_bucket, ?RoutingTable_new_repl in *; try (simpl; lia);
    try done; exfalso; by eapply not_elem_of_nil.
Qed.

Lemma RoutingTable_insert_wf now rt info : rt_wf rt → rt_wf (fst (RoutingTable_insert now rt info)).
Proof.
  intros Hwf. unfold RoutingTable_insert.
  destruct (bool_decide_reflect (pi_id info = rt_self_id rt)) as [|Hne]; [done|].
  destruct (prefix_ok rt info); [|done]. cbn [negb].
  pose proof (bucket_index_range (rt_self_id rt) (pi_id info)) as Hi.
  set (i := bucket_index (rt_self_id rt) (pi_id info)) in *.
  pose proof (wf_bucket_len _ Hwf i) as Hlen.
  assert (Hnew : ∀ e, PeerEntry_id e = pi_id info → placed (rt_self_id rt) i e).
  { intros e He. unfold placed. by rewrite He. }
  destruct (position _ _) as [pos|] eqn:Hpos.
  - apply position_Some in Hpos as (x & Hx & _). apply set_bucket_wf; [done|done|..].
    + apply lookup_lt_Some in Hx. pose proof (remove_at_length pos (bucket rt i) Hx).
      rewrite length_app. simpl. lia.
    + intros e [He|He%list_elem_of_singleton]%elem_of_app; [|subst; by apply Hnew].
      apply elem_of_remove_at in He. by eapply wf_placed.
  - case_match.
    + bool_to_prop. apply set_bucket_wf; [done|done|..].
      * rewrite length_app. simpl. unfold K_MAX in *. lia.
      * intros e [He|He%list_elem_of_singleton]%elem_of_app; [by eapply wf_placed|].
        subst. by apply Hnew.
    + case_match; [|done]. bool_to_prop. apply set_repl_wf; [done|done|..].
      * rewrite length_app. simpl. lia.
      * intros e [He|He%list_elem_of_singleton]%elem_of_app; [by eapply wf_repl_placed|].
        subst. by apply Hnew.
Qed.

Lemma evict_and_replace_wf rt dead : rt_wf rt → rt_wf (evict_and_replace rt dead).
Proof.
  intros Hwf. unfold evict_and_replace.
  pose proof (bucket_index_range (rt_self_id rt) dead) as Hi.
  set (i := bucket_index (rt_self_id rt) dead) in *.
  assert (Hwf1 : rt_wf (set_bucket rt i (filter (λ e, PeerEntry_id e ≠ dead) (bucket rt i)))).
  { apply set_bucket_wf; [done|done|..].
    - etrans; [apply filter_length_le|]. by apply wf_bucket_len.
    - intros e [_ He]%list_elem_of_filter. by eapply wf_placed. }
  set (rt1 := set_bucket rt i _) in *.
  destruct (pop (repl rt1 i)) as [[e rest]|] eqn:Hpop; [|done].
  apply pop_Some in Hpop.
  assert (Hwf2 : rt_wf (set_repl rt1 i rest)).
  { apply set_repl_wf; [done|done|..].
    - pose proof (wf_repl_len _ Hwf1 i) as Hl. rewrite Hpop, length_app in Hl. lia.
    - intros e' He'. eapply wf_repl_placed; [done|]. rewrite Hpop. set_solver. }
  apply set_bucket_wf; [done|done|..].
  - apply try_push_length. by apply wf_bucket_len.
  - intros e' [He'| ->]%elem_of_try_push; [by eapply wf_placed|].
    apply (wf_repl_placed _ Hwf1). rewrite Hpop. set_solver.
Qed.

Lemma update_first_wf rt i id f :
  rt_wf rt → i < 256 → (∀ e, PeerEntry_id (f e) = PeerEntry_id e) →
  rt_wf (set_bucket rt i (update_first (has_id id) f (bucket rt i))).
Proof.
  intros Hwf Hi Hf. apply set_bucket_wf; [done|done|..].
  - rewrite update_first_length. by apply wf_bucket_len.
  - intros e [He|(x & Hx & _ & ->)]%elem_of_update_first; [by eapply wf_placed|].
    unfold placed. rewrite Hf. by eapply wf_placed.
Qed.

Lemma touch_ok_wf now rt id rtt : rt_wf rt → rt_wf (touch_ok now rt id rtt).
Proof. intros. apply update_first_wf; [done|apply bucket_index_range|done]. Qed.

Lemma mark_fail_wf rt id : rt_wf rt → rt_wf (mark_fail rt id).
Proof.
  intros Hwf. unfold mark_fail. case_match; [|done].
  assert (rt_wf (set_bucket rt (bucket_index (rt_self_id rt) id)
    (update_first (has_id id) bump_fail (bucket rt (bucket_index (rt_self_id rt) id)))))
    by (apply update_first_wf; [done|apply bucket_index_range|done]).
  case_match; [|done]. by apply evict_and_replace_wf.
Qed.

#[export] Hint Resolve RoutingTable_new_wf RoutingTable_insert_wf evict_and_replace_wf
  touch_ok_wf mark_fail_wf : molia.

(** ** Histories *)

(** Any use of the table's operations. *)
Inductive rt_step : RoutingTable → RoutingTable → Prop :=
  | step_insert now rt info : rt_step rt (fst (RoutingTable_insert now rt info))
  | step_evict rt dead : rt_step rt (evict_and_replace rt dead)
  | step_touch now rt id rtt : rt_step rt (touch_ok now rt id rtt)
  | step_fail rt id : rt_step rt (mark_fail rt id).

(** The uses the shard makes of it ([evict_and_replace] only through [mark_fail]). *)
Inductive rt_use : RoutingTable → RoutingTable → Prop :=
  | use_insert now rt info : rt_use rt (fst (RoutingTable_insert now rt info))
  | use_touch now rt id rtt : rt_use rt (touch_ok now rt id rtt)
  | use_fail rt id : rt_use rt (mark_fail rt id).

#[export] Hint Constructors rt_step rt_use : molia.

Lemma rt_use_step rt rt' : rt_use rt rt' → rt_step rt rt'.
Proof. destruct 1; eauto with molia. Qed.

Lemma rt_step_wf rt rt' : rt_step rt rt' → rt_wf rt → rt_wf rt'.
Proof. destruct 1; eauto with molia. Qed.

Lemma rt_steps_wf rt rt' : rtc rt_step rt rt' → rt_wf rt → rt_wf rt'.
Proof. induction 1; eauto using rt_step_wf. Qed.

Definition within_k (rt : RoutingTable) : Prop := ∀ i, length (bucket rt i) ≤ K_DEFAULT.

Lemma RoutingTable_new_within_k self_id : within_k (RoutingTable_new self_id).
Proof. intros i. rewrite RoutingTable_new_bucket. simpl. lia. Qed.

Lemma within_k_set rt i b :
  rt_wf rt → i < 256 → within_k rt → length b ≤ K_DEFAULT → within_k (set_bucket rt i b).
Proof.
  intros Hwf Hi Hk Hb j. destruct (decide (i = j)) as [->|].
  - rewrite bucket_set_eq by (rewrite wf_buckets by done; done). done.
  - by rewrite bucket_set_ne.
Qed.

Lemma insert_within_k now rt info :
  rt_wf rt → within_k rt → within_k (fst (RoutingTable_insert now rt info)).
Proof.
  intros Hwf Hk. unfold RoutingTable_insert.
  case_match; [done|]. case_match; [done|].
  pose proof (bucket_index_range (rt_self_id rt) (pi_id info)) as Hi.
  set (i := bucket_index (rt_self_id rt) (pi_id info)) in *.
  destruct (position _ _) as [pos|] eqn:Hpos.
  - apply within_k_set; [done..|].
    apply position_Some in Hpos as (x & Hx & _). apply lookup_lt_Some in Hx.
    pose proof (remove_at_length pos (bucket rt i) Hx). specialize (Hk i).
    rewrite length_app. simpl. lia.
  - destruct (Nat.ltb_spec (length (bucket rt i)) (Nat.min (rt_k rt) K_MAX)); [|by case_match].
    apply within_k_set; [done..|]. rewrite length_app, (wf_k _ Hwf) in *. simpl. lia.
Qed.

Lemma filter_drops_one (P : PeerEntry → Prop) `{!∀ x, Decision (P x)} l e :
  e ∈ l → ¬ P e → length (filter P l) < length l.
Proof.
  induction l as [|x l IH]; [intros He; by apply not_elem_of_nil in He|].
  rewrite filter_cons, elem_of_cons. pose proof (filter_length_le P l).
  intros [->|He] Hp; case_decide; simpl; try done; try lia. specialize (IH He Hp). lia.
Qed.

Lemma evict_within_k rt id e :
  rt_wf rt → within_k rt → RoutingTable_get rt id = Some e → within_k (evict_and_replace rt id).
Proof.
  intros Hwf Hk Hget. unfold RoutingTable_get in Hget.
  apply find_Some_elem in Hget as [He Hid]. unfold has_id in Hid. bool_to_prop.
  unfold evict_and_replace. pose proof (bucket_index_range (rt_self_id rt) id) as Hi.
  set (i := bucket_index (rt_self_id rt) id) in *.
  pose proof (filter_drops_one (λ e, PeerEntry_id e ≠ id) (bucket rt i) e He) as Hlt.
  specialize (Hlt ltac:(naive_solver)). pose proof (Hk i) as Hki.
  assert (Hbs : length (rt_buckets rt) = 256) by by apply wf_buckets.
  intros j. destruct (decide (i = j)) as [<-|Hne].
  - destruct (pop _) as [[e' rest]|].
    + rewrite bucket_set_eq by (simpl; rewrite length_insert; lia).
      rewrite bucket_set_repl, bucket_set_eq by lia. unfold try_push.
      case_match; rewrite ?length_app; simpl; lia.
    + rewrite bucket_set_eq by lia. lia.
  - destruct (pop _) as [[e' rest]|].
    + rewrite bucket_set_ne, bucket_set_repl, bucket_set_ne by done. apply Hk.
    + rewrite bucket_set_ne by done. apply Hk.
Qed.

Lemma update_first_within_k rt i p f :
  rt_wf rt → i < 256 → within_k rt →
  within_k (set_bucket rt i (update_first p f (bucket rt i))).
Proof. intros. apply within_k_set; [done..|]. rewrite update_first_length. auto. Qed.

Lemma mark_fail_within_k rt id : rt_wf rt → within_k rt → within_k (mark_fail rt id).
Proof.
  intros Hwf Hk. unfold mark_fail.
  pose proof (bucket_index_range (rt_self_id rt) id) as Hi.
  destruct (find _ _) as [e|] eqn:Hf; [|done].
  assert (Hk' := update_first_within_k rt (bucket_index (rt_self_id rt) id) (has_id id)
                   bump_fail Hwf Hi Hk).
  case_match; [|done]. eapply (evict_within_k _ _ (bump_fail e)); [|done|].
  - by apply update_first_wf.
  - unfold RoutingTable_get. cbn [rt_self_id set_bucket].
    rewrite bucket_set_eq by (rewrite wf_buckets; done).
    rewrite find_update_first by done. by rewrite Hf.
Qed.

Lemma rt_use_within_k rt rt' : rt_use rt rt' → rt_wf rt → within_k rt → within_k rt'.
Proof.
  destruct 1; intros; [by apply insert_within_k| |by apply mark_fail_within_k].
  apply update_first_within_k; [done|apply bucket_index_range|done].
Qed.

Lemma rt_uses_within_k rt rt' :
  rtc rt_use rt rt' → rt_wf rt → within_k rt → rt_wf rt' ∧ within_k rt'.
Proof.
  induction 1 as [|rt1 rt2 rt3 H]; [done|]. intros.
  apply IHrtc; eauto using rt_step_wf, rt_use_step, rt_use_within_k.
Qed.

Lemma get_complete rt e :
  rt_wf rt → e ∈ all_peers rt → ∃ e', RoutingTable_get rt (PeerEntry_id e) = Some e'.
Proof.
  intros Hwf (i & Hi & He)%elem_of_all_peers.
  destruct (wf_placed _ Hwf i e He) as [_ Hb]. unfold RoutingTable_get. rewrite Hb.
  destruct (find _ _) eqn:Hf; [eauto|].
  rewrite find_None_elem in Hf. specialize (Hf e He). unfold has_id in Hf. bool_to_prop. done.
Qed.

(** ** Properties *)

(** C22: Whatever sequence of inserts, touches, failures and evictions a table goes
    through, it keeps 256 buckets of at most [K_MAX] entries with at most 8 replacements
    each; the node itself is never in it; every entry sits in the bucket of its own
    distance, so [get] finds every peer that [all_peers] lists; and when entries are only
    evicted through [mark_fail], as the shard does, no bucket exceeds [k = 20]. *)
Theorem routing_invariant (self_id : NodeId) :
  (∀ rt, rtc rt_step (RoutingTable_new self_id) rt →
     length (rt_buckets rt) = 256 ∧
     (∀ i, length (bucket rt i) ≤ K_MAX ∧ length (repl rt i) ≤ REPL_CAP) ∧
     (∀ i e, e ∈ bucket rt i ∨ e ∈ repl rt i → placed (rt_self_id rt) i e) ∧
     (∀ e, e ∈ all_peers rt → ∃ e', RoutingTable_get rt (PeerEntry_id e) = Some e')) ∧
  (∀ rt, rtc rt_use (RoutingTable_new self_id) rt →
     ∀ i, length (bucket rt i) ≤ K_DEFAULT).
Proof.
  split.
  - intros rt Hs. assert (Hwf : rt_wf rt) by eauto using rt_steps_wf with molia.
    split_and!; [by apply wf_buckets|..].
    + intros i. split; [by apply wf_bucket_len|by apply wf_repl_len].
    + intros i e [He|He]; [by eapply wf_placed|by eapply wf_repl_placed].
    + intros e. by apply get_complete.
  - intros rt Hs. refine (proj2 (rt_uses_within_k _ _ Hs _ _)); [auto with molia|].
    apply RoutingTable_new_within_k.
Qed.

Lemma closest_eq rt t n :
  closest rt t n =
  pe_info <$> take (Nat.min n K_MAX) (sort_by (λ a b, peer_leb t (pe_info a) (pe_info b)) (all_peers rt)).
Proof. unfold closest. rewrite foldl_try_push; [done|]. rewrite length_fmap, length_take. simpl. lia. Qed.

Lemma closest_length rt t n : length (closest rt t n) ≤ n.
Proof. rewrite closest_eq, length_fmap, length_take. lia. Qed.

(** C23: [closest] returns the [min n 32] peers of the table nearest to the target (all of
    them when there are fewer), nearest first: the result is sorted by distance, together
    with what is left out it is a permutation of the whole table, and nothing left out is
    nearer than anything returned. *)
Theorem closest_correct (rt : RoutingTable) (target : Key) (n : nat) :
  let out := closest rt target n in
  let d p := val256 (xor_distance (nid (pi_id p)) (kid target)) in
  length out = Nat.min (Nat.min n K_MAX) (length (all_peers rt)) ∧
  StronglySorted (λ p q, (d p ≤ d q)%Z) out ∧
  ∃ rest, out ++ rest ≡ₚ pe_info <$> all_peers rt ∧
          ∀ p q, p ∈ out → q ∈ rest → (d p ≤ d q)%Z.
Proof.
  intros out d. set (leb := λ a b, peer_leb target (pe_info a) (pe_info b)).
  assert (Hsort : StronglySorted (leb_rel leb) (sort_by leb (all_peers rt))).
  { apply sort_by_sorted; unfold leb; eauto with molia. }
  assert (Hout : out = pe_info <$> take (Nat.min n K_MAX) (sort_by leb (all_peers rt))).
  { apply closest_eq. }
  split_and!.
  - rewrite Hout, length_fmap, length_take, sort_by_length. lia.
  - rewrite Hout. apply StronglySorted_fmap_2 with (R := leb_rel leb).
    + intros a b. apply peer_leb_dist.
    + by apply StronglySorted_take.
  - exists (pe_info <$> drop (Nat.min n K_MAX) (sort_by leb (all_peers rt))). split.
    + rewrite Hout, <-fmap_app, take_drop. by rewrite sort_by_perm.
    + rewrite Hout. intros p q (a & -> & Ha)%list_elem_of_fmap (b & -> & Hb)%list_elem_of_fmap.
      apply peer_leb_dist. exact (sorted_take_drop leb _ _ a b Hsort Ha Hb).
Qed.

(** ** Behaviour of the operations *)

(** No peer is twice in a bucket. *)
Definition rt_unique (rt : RoutingTable) : Prop :=
  ∀ i, NoDup (PeerEntry_id <$> bucket rt i).

Lemma rt_unique_set rt i b :
  rt_wf rt → i < 256 → rt_unique rt → NoDup (PeerEntry_id <$> b) → rt_unique (set_bucket rt i b).
Proof.
  intros Hwf Hi Hu Hb j. destruct (decide (i = j)) as [->|].
  - by rewrite bucket_set_eq by (rewrite wf_buckets by done; done).
  - by rewrite bucket_set_ne.
Qed.

Lemma get_set_bucket rt i b id :
  rt_wf rt → i < 256 →
  RoutingTable_get (set_bucket rt i b) id =
  if decide (bucket_index (rt_self_id rt) id = i) then find (has_id id) b
  else RoutingTable_get rt id.
Proof.
  intros Hwf Hi. unfold RoutingTable_get. cbn [rt_self_id set_bucket]. case_decide as Hd.
  - rewrite Hd, bucket_set_eq by (rewrite wf_buckets by done; done). done.
  - by rewrite bucket_set_ne by done.
Qed.

Lemma has_id_find id l : find (has_id id) l = None ↔ id ∉ (PeerEntry_id <$> l).
Proof.
  rewrite find_None_elem, list_elem_of_fmap. unfold has_id. setoid_rewrite bool_decide_eq_false.
  naive_solver.
Qed.

(** Appending a new entry. *)
Lemma push_to_tail (b : list PeerEntry) e :
  PeerEntry_id e ∉ (PeerEntry_id <$> b) → NoDup (PeerEntry_id <$> b) →
  NoDup (PeerEntry_id <$> (b ++ [e])) ∧
  find (has_id (PeerEntry_id e)) (b ++ [e]) = Some e ∧
  ∀ id, id ≠ PeerEntry_id e → find (has_id id) (b ++ [e]) = find (has_id id) b.
Proof.
  intros Hni Hnd. split_and!.
  - rewrite fmap_app. apply NoDup_app. split_and!; [done| |apply NoDup_singleton].
    intros i Hi Hi2%list_elem_of_singleton. cbn in Hi2. congruence.
  - rewrite find_app, (proj2 (has_id_find _ _) Hni). simpl. unfold has_id.
    by rewrite bool_decide_eq_true_2.
  - intros id Hid. rewrite find_app. destruct (find (has_id id) b); [done|]. simpl. unfold has_id.
    rewrite bool_decide_eq_false_2 by congruence. done.
Qed.

(** Moving an entry to the tail. *)
Lemma move_to_tail (b : list PeerEntry) pos x e :
  b !! pos = Some x → PeerEntry_id e = PeerEntry_id x → NoDup (PeerEntry_id <$> b) →
  NoDup (PeerEntry_id <$> (remove_at pos b ++ [e])) ∧
  find (has_id (PeerEntry_id x)) (remove_at pos b ++ [e]) = Some e ∧
  ∀ id, id ≠ PeerEntry_id x → find (has_id id) (remove_at pos b ++ [e]) = find (has_id id) b.
Proof.
  intros Hx He Hnd. pose proof (remove_at_perm pos b x Hx) as Hp.
  assert (Hnd' : NoDup (PeerEntry_id x :: (PeerEntry_id <$> remove_at pos b))).
  { change (NoDup (PeerEntry_id <$> (x :: remove_at pos b))). by rewrite Hp. }
  apply NoDup_cons in Hnd' as [Hni Hnd']. rewrite <-He in Hni |- *.
  destruct (push_to_tail _ e Hni Hnd') as (H1 & H2 & H3). split_and!; [done..|].
  intros id Hid. rewrite H3 by done. apply (find_remove_at _ _ _ x); [done|].
  unfold has_id. apply bool_decide_eq_false_2. congruence.
Qed.

(** C30: [insert] on every branch, in a table without duplicates.  The node's own id and a
    peer beyond the [/24] cap are refused without a change.  Otherwise no other peer's
    entry changes and no duplicate appears; a peer already present, or one whose bucket
    has room, ends up as the most recently seen entry of its bucket with the new contact
    data and a cleared failure count; and when the bucket is full the buckets stay as
    they are, the least recently used entry is handed back for a liveness check, and the
    newcomer goes to the replacement cache if that has room. *)
Theorem insert_correct (now : Z) (rt : RoutingTable) (info : PeerInfo) :
  rt_wf rt → rt_unique rt →
  let i := bucket_index (rt_self_id rt) (pi_id info) in
  let '(rt', r) := RoutingTable_insert now rt info in
  (pi_id info = rt_self_id rt ∨ prefix_ok rt info = false → rt' = rt ∧ r = None) ∧
  rt_unique rt' ∧
  (∀ id, id ≠ pi_id info → RoutingTable_get rt' id = RoutingTable_get rt id) ∧
  (pi_id info ≠ rt_self_id rt → prefix_ok rt info = true →
     (is_Some (RoutingTable_get rt (pi_id info)) ∨ length (bucket rt i) < K_DEFAULT →
        r = None ∧
        ∃ e, RoutingTable_get rt' (pi_id info) = Some e ∧ last (bucket rt' i) = Some e ∧
             pe_info e = info ∧ pe_last_seen e = now ∧ pe_fail_count e = 0%Z) ∧
     (RoutingTable_get rt (pi_id info) = None → K_DEFAULT ≤ length (bucket rt i) →
        rt_buckets rt' = rt_buckets rt ∧ is_Some r ∧ r = head (bucket rt i) ∧
        (length (repl rt i) < REPL_CAP → last (repl rt' i) = Some (new_entry now info)))).
Proof.
  intros Hwf Hu i. pose proof (bucket_index_range (rt_self_id rt) (pi_id info)) as Hi.
  fold i in Hi. pose proof (wf_k _ Hwf) as Hk. pose proof (wf_buckets _ Hwf) as Hbs.
  unfold RoutingTable_insert.
  destruct (bool_decide_reflect (pi_id info = rt_self_id rt)) as [|Hne]; [by split_and!|].
  destruct (prefix_ok rt info); [cbn [negb]|by split_and!]. fold i. rewrite Hk.
  assert (Hget : RoutingTable_get rt (pi_id info) = find (has_id (pi_id info)) (bucket rt i)) by done.
  destruct (position _ _) as [pos|] eqn:Hpos.
  - apply position_Some in Hpos as (x & Hx & Hid & _). unfold has_id in Hid. bool_to_prop.
    rewrite Hx. cbn [from_option]. set (e := mkPeerEntry info now 0 (pe_srtt_us x)).
    destruct (move_to_tail (bucket rt i) pos x e Hx (eq_sym Hid) (Hu i)) as (Hn & Hf & Ho).
    rewrite Hid in Hf, Ho. split_and!; [naive_solver|by apply rt_unique_set|..].
    + intros id Hid'. rewrite get_set_bucket by done. case_decide as Hd; [|done].
      rewrite Ho by done. unfold RoutingTable_get. by rewrite Hd.
    + intros _ _. split.
      * intros _. split; [done|]. exists e. rewrite get_set_bucket, decide_True by done.
        rewrite bucket_set_eq by lia. rewrite last_snoc. done.
      * rewrite Hget. intros Hnone. exfalso. rewrite has_id_find in Hnone. apply Hnone.
        rewrite <-Hid. apply list_elem_of_fmap_2. by eapply list_elem_of_lookup_2.
  - assert (Hni : pi_id info ∉ (PeerEntry_id <$> bucket rt i)).
    { apply has_id_find. apply find_None_elem. by apply position_None. }
    assert (Hnone : RoutingTable_get rt (pi_id info) = None) by (rewrite Hget; by apply has_id_find).
    destruct (Nat.ltb_spec (length (bucket rt i)) (Nat.min K_DEFAULT K_MAX)) as [Hlt|Hge].
    + destruct (push_to_tail (bucket rt i) (new_entry now info) Hni (Hu i)) as (Hn & Hf & Ho).
      split_and!; [naive_solver|by apply rt_unique_set|..].
      * intros id Hid'. rewrite get_set_bucket by done. case_decide as Hd; [|done].
        rewrite Ho by done. unfold RoutingTable_get. by rewrite Hd.
      * intros _ _. split; [|intros; exfalso; revert Hlt; unfold K_DEFAULT, K_MAX in *; lia].
        intros _. split; [done|]. exists (new_entry now info).
        rewrite get_set_bucket, decide_True by done. by rewrite bucket_set_eq, last_snoc by lia.
    + assert (Hfull : ¬ length (bucket rt i) < K_DEFAULT) by (unfold K_DEFAULT, K_MAX in *; lia).
      assert (Hhd : is_Some (head (bucket rt i))).
      { destruct (bucket rt i); [simpl in Hfull; unfold K_DEFAULT in Hfull; lia|eauto]. }
      assert (Hnr : ¬ (is_Some (RoutingTable_get rt (pi_id info)) ∨
                       length (bucket rt i) < K_DEFAULT)).
      { rewrite Hnone. intros [[? [=]]|?]. done. }
      destruct (Nat.ltb_spec (length (repl rt i)) REPL_CAP);
        (split_and!; [naive_solver|exact Hu|done|]); intros _ _;
        (split; [done|]); intros _ _; split_and!; try done; [|lia].
      intros _. rewrite repl_set_eq, last_snoc by (rewrite wf_repl by done; done). done.
Qed.

(** Sample peers: an identifier in the farthest bucket, and a peer at an IPv4 address. *)
Definition sample_id (n : Z) : NodeId :=
  mkNodeId (default (arr_repeat (z2b 0) 32)
              (to_arr 32 (z2b 128 :: replicate 30 (z2b 0) ++ [z2b n]))).

Definition sample_peer (n net : Z) : PeerInfo :=
  PeerInfo_new (sample_id n) (AddrV4 [# z2b 10; z2b net; z2b 0; z2b n] 4000).

Definition zero_id : NodeId := mkNodeId (arr_repeat (z2b 0) 32).

Lemma RoutingTable_new_unique self_id : rt_unique (RoutingTable_new self_id).
Proof.
  intros i. unfold bucket. rewrite nth_lookup. cbn [rt_buckets RoutingTable_new].
  destruct (replicate 256 [] !! i) eqn:E; [apply lookup_replicate in E as [-> _]|]; constructor.
Qed.

Lemma insert_correct_witness :
  let '(rt', r) := RoutingTable_insert 5 (RoutingTable_new zero_id) (sample_peer 1 7) in
  r = None ∧
  ∃ e, RoutingTable_get rt' (sample_id 1) = Some e ∧ last (bucket rt' 255) = Some e ∧
       pe_info e = sample_peer 1 7 ∧ pe_last_seen e = 5%Z ∧ pe_fail_count e = 0%Z.
Proof.
  pose proof (insert_correct 5 (RoutingTable_new zero_id) (sample_peer 1 7)
                (RoutingTable_new_wf _) (RoutingTable_new_unique _)) as H.
  assert (Hi : bucket_index (rt_self_id (RoutingTable_new zero_id)) (pi_id (sample_peer 1 7)) = 255)
    by (vm_compute; reflexivity).
  rewrite Hi in H.
  destruct (RoutingTable_insert 5 (RoutingTable_new zero_id) (sample_peer 1 7)) as [rt' r].
  destruct H as (_ & _ & _ & H). apply H; [by vm_compute|by vm_compute|].
  right. vm_compute. lia.
Defined.

(** *** Failures *)

Lemma filter_update_first (P : PeerEntry → Prop) `{!∀ x, Decision (P x)} p f l :
  (∀ x, p x = true → ¬ P x ∧ ¬ P (f x)) → filter P (update_first p f l) = filter P l.
Proof.
  intros Hp0. induction l as [|x l IH]; [done|]. cbn [update_first].
  destruct (p x) eqn:Hp; rewrite !filter_cons.
  - destruct (Hp0 x Hp). by rewrite !decide_False.
  - by rewrite IH.
Qed.

Lemma mark_fail_low rt id e :
  rt_wf rt → RoutingTable_get rt id = Some e → (pe_fail_count e < 2)%Z →
  mark_fail rt id =
    set_bucket rt (bucket_index (rt_self_id rt) id)
      (update_first (has_id id) bump_fail (bucket rt (bucket_index (rt_self_id rt) id))) ∧
  RoutingTable_get (mark_fail rt id) id = Some (bump_fail e).
Proof.
  intros Hwf Hget Hlt. assert (Hmf : mark_fail rt id =
    set_bucket rt (bucket_index (rt_self_id rt) id)
      (update_first (has_id id) bump_fail (bucket rt (bucket_index (rt_self_id rt) id)))).
  { unfold mark_fail. unfold RoutingTable_get in Hget. rewrite Hget.
    destruct (Z.leb_spec 3 (pe_fail_count (bump_fail e))) as [Hle|]; [|done].
    simpl in Hle. unfold sat_add in Hle. lia. }
  split; [done|]. rewrite Hmf, get_set_bucket, decide_True by (done || apply bucket_index_range).
  rewrite find_update_first by done. unfold RoutingTable_get in Hget. by rewrite Hget.
Qed.

Lemma mark_fail_high rt id e :
  rt_wf rt → RoutingTable_get rt id = Some e → (2 ≤ pe_fail_count e)%Z →
  let i := bucket_index (rt_self_id rt) id in
  (∀ c, last (repl rt i) = Some c → PeerEntry_id c ≠ id) →
  RoutingTable_get (mark_fail rt id) id = None ∧
  bucket (mark_fail rt id) i =
    filter (λ e, PeerEntry_id e ≠ id) (bucket rt i) ++ option_list (last (repl rt i)).
Proof.
  intros Hwf Hget Hge i Hc. pose proof (bucket_index_range (rt_self_id rt) id) as Hi.
  fold i in Hi. pose proof (wf_buckets _ Hwf) as Hbs. pose proof (wf_bucket_len _ Hwf i) as Hlen.
  assert (Hb : bucket (mark_fail rt id) i =
    filter (λ e, PeerEntry_id e ≠ id) (bucket rt i) ++ option_list (last (repl rt i))).
  { unfold mark_fail. fold i. unfold RoutingTable_get in Hget. fold i in Hget. rewrite Hget.
    assert ((3 <=? pe_fail_count (bump_fail e))%Z = true) as ->.
    { apply Z.leb_le. simpl. unfold sat_add. lia. }
    unfold evict_and_replace. cbn [rt_self_id set_bucket]. fold i.
    rewrite !repl_set_bucket.
    rewrite bucket_set_eq by lia. rewrite filter_update_first.
    2:{ intros x Hx. unfold has_id in Hx. bool_to_prop. subst. split; by intros []. }
    unfold pop. destruct (last (repl rt i)) as [c|] eqn:Hlast; simpl option_list.
    - rewrite bucket_set_eq by (simpl; rewrite !length_insert; lia).
      rewrite bucket_set_repl, bucket_set_eq by (simpl; rewrite length_insert; lia).
      apply try_push_fits. apply find_Some_elem in Hget as [He Hid]. unfold has_id in Hid.
      bool_to_prop. pose proof (filter_drops_one (λ e, PeerEntry_id e ≠ id) _ e He) as Hd.
      specialize (Hd ltac:(naive_solver)). lia.
    - rewrite bucket_set_eq by (simpl; rewrite length_insert; lia). by rewrite app_nil_r. }
  split; [|done]. unfold RoutingTable_get.
  assert (rt_self_id (mark_fail rt id) = rt_self_id rt) as ->.
  { unfold mark_fail, evict_and_replace. repeat case_match; done. }
  fold i. rewrite Hb. apply has_id_find. rewrite fmap_app, elem_of_app.
  intros [(x & Hx & [Hne _]%list_elem_of_filter)%list_elem_of_fmap|Hl]; [congruence|].
  destruct (last (repl rt i)) as [c|]; [|by apply not_elem_of_nil in Hl].
  apply list_elem_of_singleton in Hl. by eapply Hc.
Qed.

(** A peer is evicted by its third failure in a row and not before: from a cleared
    count, two [mark_fail]s keep it in the table, the third removes it and moves the newest
    entry of the replacement cache into its bucket; a [touch_ok] in between clears the
    count again. *)
Theorem three_strikes (rt : RoutingTable) (id : NodeId) (e : PeerEntry) :
  rt_wf rt → RoutingTable_get rt id = Some e → pe_fail_count e = 0%Z →
  let i := bucket_index (rt_self_id rt) id in
  (∀ c, last (repl rt i) = Some c → PeerEntry_id c ≠ id) →
  let rt2 := mark_fail (mark_fail rt id) id in
  (∃ e2, RoutingTable_get rt2 id = Some e2 ∧ pe_info e2 = pe_info e ∧ pe_fail_count e2 = 2%Z) ∧
  RoutingTable_get (mark_fail rt2 id) id = None ∧
  (∀ c, last (repl rt i) = Some c → last (bucket (mark_fail rt2 id) i) = Some c) ∧
  (∀ now rtt, ∃ e', RoutingTable_get (touch_ok now rt2 id rtt) id = Some e' ∧
                    pe_fail_count e' = 0%Z).
Proof.
  intros Hwf Hget H0 i Hc rt2.
  destruct (mark_fail_low rt id e Hwf Hget) as [E1 G1]; [lia|].
  assert (Hwf1 : rt_wf (mark_fail rt id)) by auto with molia.
  destruct (mark_fail_low (mark_fail rt id) id _ Hwf1 G1) as [E2 G2].
  { simpl. unfold sat_add. lia. }
  fold rt2 in E2, G2. assert (Hwf2 : rt_wf rt2) by (subst rt2; auto with molia).
  assert (Hself : rt_self_id rt2 = rt_self_id rt) by (rewrite E2, E1; done).
  assert (Hrepl : repl rt2 i = repl rt i) by (rewrite E2, E1; done).
  destruct (mark_fail_high rt2 id _ Hwf2 G2) as [G3 B3].
  { simpl. unfold sat_add. lia. }
  { rewrite Hself. fold i. by rewrite Hrepl. }
  rewrite Hself in B3. fold i in B3. rewrite Hrepl in B3. split_and!.
  - eexists. split; [exact G2|]. split; [done|]. simpl. unfold sat_add. lia.
  - done.
  - intros c Hl. rewrite B3, Hl. apply last_snoc.
  - intros now rtt. unfold touch_ok.
    rewrite get_set_bucket, decide_True by (done || apply bucket_index_range).
    rewrite find_update_first by done. unfold RoutingTable_get in G2. rewrite G2. eexists. done.
Qed.

Lemma three_strikes_witness :
  let rt := fst (RoutingTable_insert 5 (RoutingTable_new zero_id) (sample_peer 1 7)) in
  let rt2 := mark_fail (mark_fail rt (sample_id 1)) (sample_id 1) in
  (∃ e2, RoutingTable_get rt2 (sample_id 1) = Some e2 ∧ pe_info e2 = sample_peer 1 7 ∧
         pe_fail_count e2 = 2%Z) ∧
  RoutingTable_get (mark_fail rt2 (sample_id 1)) (sample_id 1) = None.
Proof.
  pose proof (three_strikes
    (fst (RoutingTable_insert 5 (RoutingTable_new zero_id) (sample_peer 1 7))) (sample_id 1)
    (new_entry 5 (sample_peer 1 7))) as H.
  destruct H as (H1 & H2 & _).
  - apply RoutingTable_insert_wf, RoutingTable_new_wf.
  - vm_compute. reflexivity.
  - reflexivity.
  - intros c. vm_compute. discriminate.
  - split; [exact H1|exact H2].
Defined.

(** *** Diversity *)

Definition prefix_count (rt : RoutingTable) (i : nat) (p : bytes) : nat :=
  length (filter (λ e, entry_prefix e = Some p) (bucket rt i)).

Definition diverse (rt : RoutingTable) : Prop := ∀ i p, prefix_count rt i p ≤ 8.

Lemma prefix_ok_count rt info p :
  prefix_ok rt info = true → primary_addr info ≫= prefix24 = Some p →
  prefix_count rt (bucket_index (rt_self_id rt) (pi_id info)) p < 8.
Proof.
  unfold prefix_ok, prefix_count. destruct (primary_addr info) as [a|]; [|done]. cbn.
  intros H Hp. rewrite Hp in H. by apply Nat.ltb_lt.
Qed.

Lemma filter_remove_at_le (P : PeerEntry → Prop) `{!∀ x, Decision (P x)} pos l :
  length (filter P (remove_at pos l)) ≤ length (filter P l).
Proof.
  unfold remove_at. rewrite <-(take_drop pos l) at 3. rewrite !filter_app, !length_app.
  destruct (drop pos l) as [|x k] eqn:Hd.
  - replace (drop (S pos) l) with ([] : list PeerEntry); [simpl; lia|].
    replace (S pos) with (pos + 1) by lia. by rewrite <-drop_drop, Hd.
  - replace (drop (S pos) l) with k; [rewrite filter_cons; case_decide; simpl; lia|].
    replace (S pos) with (pos + 1) by lia. by rewrite <-drop_drop, Hd.
Qed.

(** [insert] keeps the diversity cap: if no bucket holds more than 8 peers of one IPv4
    [/24], none does after an insert, whichever branch it takes. *)
Theorem insert_diverse (now : Z) (rt : RoutingTable) (info : PeerInfo) :
  rt_wf rt → (∀ i p, prefix_count rt i p ≤ 8) →
  ∀ i p, prefix_count (fst (RoutingTable_insert now rt info)) i p ≤ 8.
Proof.
  intros Hwf Hd. pose proof (bucket_index_range (rt_self_id rt) (pi_id info)) as Hi.
  pose proof (wf_buckets _ Hwf) as Hbs.
  assert (Hset : ∀ b,
    prefix_ok rt info = true →
    (∀ p, length (filter (λ e, entry_prefix e = Some p) b) ≤
          prefix_count rt (bucket_index (rt_self_id rt) (pi_id info)) p) →
    ∀ e, pe_info e = info → ∀ i p,
    prefix_count (set_bucket rt (bucket_index (rt_self_id rt) (pi_id info)) (b ++ [e])) i p ≤ 8).
  { intros b Hok Hb e He i p. unfold prefix_count.
    destruct (decide (bucket_index (rt_self_id rt) (pi_id info) = i)) as [<-|];
      [|rewrite bucket_set_ne by done; apply Hd].
    rewrite bucket_set_eq, filter_app, length_app, filter_cons by lia. specialize (Hb p).
    case_decide as Hp; simpl.
    - unfold entry_prefix in Hp. rewrite He in Hp. pose proof (prefix_ok_count _ _ _ Hok Hp). lia.
    - specialize (Hd (bucket_index (rt_self_id rt) (pi_id info)) p). lia. }
  unfold RoutingTable_insert. case_match; [done|].
  destruct (prefix_ok rt info) eqn:Hok; [cbn [negb]|done].
  destruct (position _ _) as [pos|].
  - apply Hset; [done| |done]. intros p. apply filter_remove_at_le.
  - case_match; [apply Hset; [done| |done]; by unfold prefix_count|].
    case_match; done.
Qed.

Lemma insert_diverse_witness :
  prefix_count (fst (RoutingTable_insert 5 (RoutingTable_new zero_id) (sample_peer 1 7)))
    255 [z2b 10; z2b 7; z2b 0] ≤ 8.
Proof.
  apply (insert_diverse 5 (RoutingTable_new zero_id) (sample_peer 1 7)).
  - apply RoutingTable_new_wf.
  - intros i p. unfold prefix_count, bucket. rewrite nth_lookup.
    cbn [rt_buckets RoutingTable_new].
    destruct (replicate 256 [] !! i) eqn:E; [apply lookup_replicate in E as [-> _]|]; simpl; lia.
Defined.

(** *** What the replacement cache does not check *)

Definition insert_all (rt : RoutingTable) (l : list PeerInfo) : RoutingTable :=
  foldl (λ rt p, fst (RoutingTable_insert 0 rt p)) rt l.

Definition fail_all (rt : RoutingTable) (l : list NodeId) : RoutingTable :=
  foldl mark_fail rt l.

Lemma insert_all_use rt l : rtc rt_use rt (insert_all rt l).
Proof.
  revert rt. induction l as [|p l IH]; intros rt; [constructor|].
  eapply rtc_l; [constructor|apply IH].
Qed.

Lemma fail_all_use rt l : rtc rt_use rt (fail_all rt l).
Proof.
  revert rt. induction l as [|p l IH]; intros rt; [constructor|].
  eapply rtc_l; [constructor|apply IH].
Qed.

Definition sample_range (f : Z → PeerInfo) (lo n : nat) : list PeerInfo :=
  (λ k, f (Z.of_nat k)) <$> seq lo n.

(** Twenty peers of distinct networks fill a bucket, one more is announced twice, and two
    of the twenty fail. *)
Definition dup_table : RoutingTable :=
  let rt := insert_all (RoutingTable_new zero_id) (sample_range (λ n, sample_peer n n) 1 20) in
  let rt := insert_all rt [sample_peer 99 99; sample_peer 99 99] in
  fail_all rt [sample_id 1; sample_id 1; sample_id 1; sample_id 2; sample_id 2; sample_id 2].

(** Seven peers of one network and thirteen others fill a bucket, two more of the network
    wait in the cache, and two of the others fail. *)
Definition crowded_table : RoutingTable :=
  let rt := insert_all (RoutingTable_new zero_id) (sample_range (λ n, sample_peer n 200) 1 7) in
  let rt := insert_all rt (sample_range (λ n, sample_peer n n) 8 13) in
  let rt := insert_all rt [sample_peer 50 200; sample_peer 51 200] in
  fail_all rt [sample_id 8; sample_id 8; sample_id 8; sample_id 9; sample_id 9; sample_id 9].

(** Promotion from the replacement cache bypasses the checks of [insert]: there are
    histories of inserts and failures after which a bucket holds the same peer twice, and
    others after which it holds nine peers of one [/24]. *)
Theorem replacement_promotion_unchecked :
  (∃ rt, rtc rt_use (RoutingTable_new zero_id) rt ∧
         ¬ NoDup (PeerEntry_id <$> bucket rt 255)) ∧
  (∃ rt p, rtc rt_use (RoutingTable_new zero_id) rt ∧ prefix_count rt 255 p = 9).
Proof.
  split.
  - exists dup_table. split.
    + etrans; [apply insert_all_use|]. etrans; [apply insert_all_use|]. apply fail_all_use.
    + apply (bool_decide_eq_false_1 (NoDup (PeerEntry_id <$> bucket dup_table 255))).
      vm_compute. reflexivity.
  - exists crowded_table, [z2b 10; z2b 200; z2b 0]. split.
    + etrans; [apply insert_all_use|]. etrans; [apply insert_all_use|].
      etrans; [apply insert_all_use|]. apply fail_all_use.
    + vm_compute. reflexivity.
Qed.

(** At the [/24] cap a peer that is already in the table cannot be refreshed: its own
    entry counts against it, so [insert] returns without touching it and it keeps its old
    [last_seen] and its place at the head of the bucket. *)
Theorem refresh_refused_at_cap (now : Z) :
  ∃ rt e, rtc rt_use (RoutingTable_new zero_id) rt ∧
    RoutingTable_get rt (sample_id 1) = Some e ∧ pe_last_seen e = 0%Z ∧
    head (bucket rt 255) = Some e ∧
    RoutingTable_insert now rt (sample_peer 1 200) = (rt, None).
Proof.
  exists (insert_all (RoutingTable_new zero_id) (sample_range (λ n, sample_peer n 200) 1 8)).
  exists (new_entry 0 (sample_peer 1 200)).
  split_and!; [apply insert_all_use|by vm_compute..].
Qed.

(** *** Round-trip times *)

(** Round-trip estimates and samples below [2^29] microseconds (about nine minutes). *)
Definition rtt_range (z : Z) : Prop := (0 ≤ z < 2 ^ 29)%Z.

Lemma ewma_exact old s : rtt_range old → rtt_range s → ewma old s = ((old * 7 + s) / 8)%Z.
Proof.
  unfold rtt_range, ewma. intros. rewrite !wrap_small; [done|unfold in_u; lia..|].
  rewrite wrap_small; unfold in_u; lia.
Qed.

Lemma ewma_between old s :
  rtt_range old → rtt_range s → (Z.min old s ≤ ewma old s ≤ Z.max old s)%Z.
Proof.
  intros Ho Hs. rewrite ewma_exact by done. unfold rtt_range in *. split.
  - apply Z.div_le_lower_bound; lia.
  - apply Z.div_le_upper_bound; lia.
Qed.

(** Histories in which every measured sample is in range. *)
Inductive rt_timed : RoutingTable → RoutingTable → Prop :=
  | timed_insert now rt info : rt_timed rt (fst (RoutingTable_insert now rt info))
  | timed_evict rt dead : rt_timed rt (evict_and_replace rt dead)
  | timed_touch now rt id rtt : rtt_range rtt → rt_timed rt (touch_ok now rt id rtt)
  | timed_fail rt id : rt_timed rt (mark_fail rt id).

Definition srtt_ok (rt : RoutingTable) : Prop :=
  ∀ i e, e ∈ bucket rt i ∨ e ∈ repl rt i → rtt_range (pe_srtt_us e).

Lemma RoutingTable_new_srtt self_id : srtt_ok (RoutingTable_new self_id).
Proof.
  intros i e. rewrite RoutingTable_new_bucket, RoutingTable_new_repl.
  by intros [?%not_elem_of_nil|?%not_elem_of_nil].
Qed.

Lemma srtt_ok_set rt i b :
  srtt_ok rt → (∀ e, e ∈ b → rtt_range (pe_srtt_us e)) → srtt_ok (set_bucket rt i b).
Proof.
  intros Hs Hb j e [He|He]; [|apply (Hs j e); by right].
  unfold bucket, set_bucket in He. simpl in He. rewrite nth_lookup in He.
  rewrite list_lookup_insert in He. case_decide; simpl in He; [by apply Hb|].
  apply (Hs j e). left. unfold bucket. by rewrite nth_lookup.
Qed.

Lemma srtt_ok_set_repl rt i b :
  srtt_ok rt → (∀ e, e ∈ b → rtt_range (pe_srtt_us e)) → srtt_ok (set_repl rt i b).
Proof.
  intros Hs Hb j e [He|He]; [apply (Hs j e); by left|].
  unfold repl, set_repl in He. simpl in He. rewrite nth_lookup in He.
  rewrite list_lookup_insert in He. case_decide; simpl in He; [by apply Hb|].
  apply (Hs j e). right. unfold repl. by rewrite nth_lookup.
Qed.

Lemma new_entry_rtt now info : rtt_range (pe_srtt_us (new_entry now info)).
Proof. unfold rtt_range. simpl. lia. Qed.

Lemma insert_srtt now rt info : srtt_ok rt → srtt_ok (fst (RoutingTable_insert now rt info)).
Proof.
  intros Hs. unfold RoutingTable_insert. case_match; [done|]. case_match; [done|].
  set (i := bucket_index (rt_self_id rt) (pi_id info)).
  assert (Hb : ∀ e, e ∈ bucket rt i → rtt_range (pe_srtt_us e)) by (intros; eapply Hs; eauto).
  assert (Hr : ∀ e, e ∈ repl rt i → rtt_range (pe_srtt_us e)) by (intros; eapply Hs; eauto).
  destruct (position _ _) as [pos|] eqn:Hpos.
  - apply position_Some in Hpos as (x & Hx & _). apply srtt_ok_set; [done|].
    intros e [He|He%list_elem_of_singleton]%elem_of_app.
    + apply Hb. by eapply elem_of_remove_at.
    + subst e. rewrite Hx. simpl. apply Hb. by eapply list_elem_of_lookup_2.
  - case_match; [|case_match; [|done]].
    + apply srtt_ok_set; [done|]. intros e [?|He%list_elem_of_singleton]%elem_of_app; [auto|].
      subst. apply new_entry_rtt.
    + apply srtt_ok_set_repl; [done|].
      intros e [?|He%list_elem_of_singleton]%elem_of_app; [auto|]. subst. apply new_entry_rtt.
Qed.

Lemma evict_srtt rt dead : srtt_ok rt → srtt_ok (evict_and_replace rt dead).
Proof.
  intros Hs. unfold evict_and_replace. set (i := bucket_index (rt_self_id rt) dead).
  assert (Hs1 : srtt_ok (set_bucket rt i (filter (λ e, PeerEntry_id e ≠ dead) (bucket rt i)))).
  { apply srtt_ok_set; [done|]. intros e [_ He]%list_elem_of_filter. eapply Hs. eauto. }
  set (rt1 := set_bucket rt i _) in *.
  destruct (pop (repl rt1 i)) as [[c rest]|] eqn:Hpop; [|done]. apply pop_Some in Hpop.
  assert (Hr : ∀ e, e ∈ repl rt1 i → rtt_range (pe_srtt_us e)) by (intros; eapply Hs1; eauto).
  rewrite Hpop in Hr. apply srtt_ok_set.
  - apply srtt_ok_set_repl; [done|]. intros; apply Hr; set_solver.
  - intros e [He| ->]%elem_of_try_push; [eapply Hs1; eauto|apply Hr; set_solver].
Qed.

Lemma update_srtt rt i p f :
  srtt_ok rt → (∀ e, rtt_range (pe_srtt_us e) → rtt_range (pe_srtt_us (f e))) →
  srtt_ok (set_bucket rt i (update_first p f (bucket rt i))).
Proof.
  intros Hs Hf. apply srtt_ok_set; [done|].
  intros e [He|(x & Hx & _ & ->)]%elem_of_update_first; [|apply Hf]; eapply Hs; eauto.
Qed.

Lemma rt_timed_srtt rt rt' : rt_timed rt rt' → srtt_ok rt → srtt_ok rt'.
Proof.
  destruct 1; intros Hs; [by apply insert_srtt|by apply evict_srtt|..].
  - apply update_srtt; [done|]. intros e He. simpl.
    pose proof (ewma_between _ _ He H). unfold rtt_range in *. lia.
  - unfold mark_fail. case_match; [|done].
    case_match; [apply evict_srtt|]; by apply update_srtt.
Qed.

(** As long as the measured round-trip times stay below nine minutes, the smoothing
    step never overflows its 32-bit arithmetic: on every entry of a reachable table it is
    the exact weighted mean [(7 old + sample) / 8], between the old estimate and the
    sample; and the request timeout is always between 50 ms and 600 ms. *)
Theorem rtt_bounds (self_id : NodeId) (rt : RoutingTable) :
  rtc rt_timed (RoutingTable_new self_id) rt →
  (∀ e sample, e ∈ all_peers rt → rtt_range sample →
     ewma (pe_srtt_us e) sample = ((pe_srtt_us e * 7 + sample) / 8)%Z ∧
     (Z.min (pe_srtt_us e) sample ≤ ewma (pe_srtt_us e) sample
        ≤ Z.max (pe_srtt_us e) sample)%Z) ∧
  (∀ id, 50000 ≤ timeout_us rt id ≤ 600000)%Z.
Proof.
  intros Hr. assert (Hs : srtt_ok rt).
  { pose proof (RoutingTable_new_srtt self_id). induction Hr; eauto using rt_timed_srtt. }
  split.
  - intros e s (i & _ & He)%elem_of_all_peers Hsr.
    assert (rtt_range (pe_srtt_us e)) by (eapply Hs; eauto).
    split; [by apply ewma_exact|by apply ewma_between].
  - intros id. unfold timeout_us, clamp. lia.
Qed.

Lemma rtt_bounds_witness :
  (50000 ≤ timeout_us
     (touch_ok 6 (fst (RoutingTable_insert 5 (RoutingTable_new zero_id) (sample_peer 1 7)))
        (sample_id 1) 80000) (sample_id 1) ≤ 600000)%Z.
Proof.
  apply (rtt_bounds zero_id (touch_ok 6
    (fst (RoutingTable_insert 5 (RoutingTable_new zero_id) (sample_peer 1 7)))
    (sample_id 1) 80000)).
  eapply rtc_l; [apply (timed_insert 5 (RoutingTable_new zero_id) (sample_peer 1 7))|].
  eapply rtc_l; [apply (timed_touch 6 _ (sample_id 1) 80000)|].
  - unfold rtt_range. lia.
  - apply rtc_refl.
Defined.
