(* ===== verification/Crypto.v ===== *)
(** * Identities, hashing and signatures ([src/crypto.rs])

    BLAKE3, Ed25519 and X25519 come from crates ([blake3], [ed25519-dalek],
    [boringtun]), and [hex] and [serde_json] print the identity file: they are the
    members of the class [Crypto], and [CryptoLaws] states what their documentation
    promises.  Unforgeability and collision resistance are computational and are not
    assumed anywhere: theorems say which message was verified, not who could have
    produced it.  A [blake3::Hasher] fed by several [update] calls hashes the
    concatenation of the updates. *)

From S2P Require Import Prelude Bytes Types Proto.

Record IdentityFile := mkIdentityFile {
  if_version : Z; if_ed25519_seed : bytes; if_x25519_secret : bytes;
  if_ed25519_pubkey : bytes; if_x25519_pubkey : bytes; if_node_id : bytes }.

Class Crypto := {
  blake3_hash : bytes → arr 32;
  SecretKey : Type;
  SecretKey_from_bytes : bytes → option SecretKey;
  SecretKey_as_bytes : SecretKey → arr 32;
  PublicKey_from : SecretKey → arr 32;
  PublicKey_ok : arr 32 → bool;
  Signature_from_bytes : bytes → option (arr 64);
  ed_sign : SecretKey → arr 32 → bytes → arr 64;
  ed_verify : arr 32 → bytes → arr 64 → bool;
  StaticSecret : Type;
  StaticSecret_from : arr 32 → StaticSecret;
  StaticSecret_as_bytes : StaticSecret → arr 32;
  X25519Public_from : StaticSecret → arr 32;
  hex_encode : bytes → bytes;
  hex_decode : bytes → option bytes;
  json_print : IdentityFile → bytes;
  json_parse : bytes → option IdentityFile;
}.

(** The documented behaviour of the crates. *)
Class CryptoLaws `{Crypto} := {
  SecretKey_from_as s : SecretKey_from_bytes (vec_to_list (SecretKey_as_bytes s)) = Some s;
  PublicKey_from_ok s : PublicKey_ok (PublicKey_from s) = true;
  Signature_from_sign s p m :
    Signature_from_bytes (vec_to_list (ed_sign s p m)) = Some (ed_sign s p m);
  ed_verify_sign s m : ed_verify (PublicKey_from s) m (ed_sign s (PublicKey_from s) m) = true;
  StaticSecret_from_as s : StaticSecret_from (StaticSecret_as_bytes s) = s;
  hex_decode_encode b : hex_decode (hex_encode b) = Some b;
  json_parse_print f : json_parse (json_print f) = Some f;
}.

Section crypto.
Context `{Crypto}.

(** ** Identities *)

(** [ed25519_dalek::Keypair] *)
Record Keypair := mkKeypair { kp_secret : SecretKey; kp_public : arr 32 }.

Record Identity := mkIdentity { signing : Keypair; wg_secret : StaticSecret }.

(** [Identity::generate]: the two draws from [OsRng] are arguments. *)
Definition Identity_generate (seed : arr 32) (wg_random : StaticSecret) : option Identity :=
  secret ← SecretKey_from_bytes (vec_to_list seed);
  let public := PublicKey_from secret in
  Some (mkIdentity (mkKeypair secret public) wg_random).

Definition verifying_key (i : Identity) : arr 32 := kp_public (signing i).

Definition node_id_from_pubkey (ed25519_pk : bytes) : NodeId := mkNodeId (blake3_hash ed25519_pk).

Definition node_id (i : Identity) : NodeId := node_id_from_pubkey (vec_to_list (verifying_key i)).

Definition wg_public (i : Identity) : arr 32 := X25519Public_from (wg_secret i).

Definition binding_message (ed25519_pk x25519_pk : bytes) : bytes :=
  bstr "molia-wg-bind-v1" ++ ed25519_pk ++ x25519_pk.

Definition kp_sign (k : Keypair) (m : bytes) : arr 64 := ed_sign (kp_secret k) (kp_public k) m.

Definition binding_signature (i : Identity) : arr 64 :=
  let msg := binding_message (vec_to_list (verifying_key i)) (vec_to_list (wg_public i)) in
  kp_sign (signing i) msg.

Definition Identity_to_bytes (i : Identity) : bytes :=
  vec_to_list (SecretKey_as_bytes (kp_secret (signing i))) ++
  vec_to_list (StaticSecret_as_bytes (wg_secret i)).

(** The argument is a [&[u8; 64]]. *)
Definition Identity_from_bytes (b : arr 64) : option Identity :=
  secret ← SecretKey_from_bytes (take 32 (vec_to_list b));
  let public := PublicKey_from secret in
  let wg := list_to_arr 32 (drop 32 (vec_to_list b)) in
  Some (mkIdentity (mkKeypair secret public) (StaticSecret_from wg)).

Definition Identity_to_json (i : Identity) : bytes :=
  json_print {|
    if_version := 1;
    if_ed25519_seed := hex_encode (vec_to_list (SecretKey_as_bytes (kp_secret (signing i))));
    if_x25519_secret := hex_encode (vec_to_list (StaticSecret_as_bytes (wg_secret i)));
    if_ed25519_pubkey := hex_encode (vec_to_list (verifying_key i));
    if_x25519_pubkey := hex_encode (vec_to_list (wg_public i));
    if_node_id := hex_encode (vec_to_list (nid (node_id i))) |}.

Definition Identity_from_json (text : bytes) : option Identity :=
  file ← json_parse text;
  seed ← hex_decode (if_ed25519_seed file);
  wg ← hex_decode (if_x25519_secret file);
  if negb (length seed =? 32) || negb (length wg =? 32) then None
  else Identity_from_bytes (list_to_arr 64 (seed ++ wg)).

(** ** Keys and records *)

Definition hash_value (value : bytes) : Key := mkKey (blake3_hash value).

Definition mutable_key (owner_pubkey namespace salt : bytes) : Key :=
  mkKey (blake3_hash (owner_pubkey ++ namespace ++ salt)).

(** The body shared by [verify_binding] and [verify_record]: parse the key and the
    signature, then verify [m]. *)
Definition verify_with (pk : bytes) (m : bytes) (sig : bytes) : bool :=
  match to_arr 32 pk with
  | None => false
  | Some vk =>
      if negb (PublicKey_ok vk) then false
      else match Signature_from_bytes sig with
           | None => false
           | Some s => ed_verify vk m s
           end
  end.

Definition verify_binding (ed25519_pk x25519_pk sig : bytes) : bool :=
  verify_with ed25519_pk (binding_message ed25519_pk x25519_pk) sig.

Definition record_bytes (key : Key) (value : bytes) (sequence ttl nb : Z) : bytes :=
  vec_to_list (kid key) ++ value ++ be_bytes 8 sequence ++ be_bytes 8 ttl ++ be_bytes 8 nb.

Definition sign_record (k : Keypair) (key : Key) (value : bytes) (sequence ttl nb : Z) : arr 64 :=
  kp_sign k (record_bytes key value sequence ttl nb).

Definition verify_record (owner_pk : bytes) (key : Key) (value : bytes) (sequence ttl nb : Z)
    (sig : bytes) : bool :=
  verify_with owner_pk (record_bytes key value sequence ttl nb) sig.

(** ** Proof of work *)

Definition leading_zero_bits (hash : arr 32) : Z := lz_loop (vec_to_list hash).

Definition verify_ephemeral_pow (ephemeral_pub : arr 32) (nonce : arr 16) (difficulty_bits : Z) : bool :=
  (difficulty_bits <=?
     leading_zero_bits (blake3_hash (vec_to_list ephemeral_pub ++ vec_to_list nonce)))%Z.

(** [solve_ephemeral_pow]: the loop over the secrets drawn from [OsRng], in order;
    [None] only when the finite prefix [draws] of the stream is used up. *)
Fixpoint solve_ephemeral_pow (draws : list StaticSecret) (nonce : arr 16) (difficulty_bits : Z)
    : option (StaticSecret * arr 32) :=
  match draws with
  | [] => None
  | sk :: draws =>
      let pk := X25519Public_from sk in
      if verify_ephemeral_pow pk nonce difficulty_bits then Some (sk, pk)
      else if (difficulty_bits =? 0)%Z then Some (sk, pk)
      else solve_ephemeral_pow draws nonce difficulty_bits
  end.

Definition cost_stamp (key : Key) (salt nonce : bytes) : arr 32 :=
  blake3_hash (vec_to_list (kid key) ++ salt ++ nonce).

Definition verify_cost_stamp (key : Key) (salt nonce : bytes) (difficulty_bits : Z) : bool :=
  (difficulty_bits <=? leading_zero_bits (cost_stamp key salt nonce))%Z.

(** ** Lemmas *)

Lemma kp_sign_verify `{!CryptoLaws} (s : SecretKey) (m : bytes) :
  verify_with (vec_to_list (PublicKey_from s)) m
    (vec_to_list (kp_sign (mkKeypair s (PublicKey_from s)) m)) = true.
Proof.
  unfold verify_with, kp_sign. simpl.
  by rewrite to_arr_list, PublicKey_from_ok, Signature_from_sign, ed_verify_sign.
Qed.

Lemma record_bytes_inj k v q t n k' v' q' t' n' :
  in_u 64 q → in_u 64 t → in_u 64 n → in_u 64 q' → in_u 64 t' → in_u 64 n' →
  record_bytes k v q t n = record_bytes k' v' q' t' n' →
  k = k' ∧ v = v' ∧ q = q' ∧ t = t' ∧ n = n'.
Proof.
  unfold record_bytes, in_u. intros ?????? Heq.
  apply app_inj_1 in Heq as [Hk Heq]; [|by rewrite !length_vec_to_list].
  apply app_inj_2 in Heq as [Hv Heq]; [|rewrite !length_app, !be_bytes_length; done].
  apply app_inj_1 in Heq as [Hq Heq]; [|by rewrite !be_bytes_length].
  apply app_inj_1 in Heq as [Ht Hn]; [|by rewrite !be_bytes_length].
  apply (f_equal be_val) in Hq, Ht, Hn. rewrite !be_val_be_bytes in Hq, Ht, Hn.
  change (256 ^ Z.of_nat 8)%Z with (2 ^ 64)%Z in *. rewrite !Z.mod_small in Hq, Ht, Hn by lia.
  apply vec_to_list_inj2 in Hk. destruct k, k'; simpl in *; naive_solver.
Qed.

Lemma Identity_to_bytes_length i : length (Identity_to_bytes i) = 64.
Proof. unfold Identity_to_bytes. by rewrite length_app, !length_vec_to_list. Qed.

Lemma Identity_from_to_bytes `{!CryptoLaws} (s : SecretKey) (w : StaticSecret) :
  let i := mkIdentity (mkKeypair s (PublicKey_from s)) w in
  Identity_from_bytes (list_to_arr 64 (Identity_to_bytes i)) = Some i.
Proof.
  intros i. unfold Identity_from_bytes.
  rewrite list_to_arr_list by apply Identity_to_bytes_length. unfold Identity_to_bytes.
  rewrite take_app_length', drop_app_length' by (by rewrite length_vec_to_list). simpl.
  rewrite SecretKey_from_as. simpl. unfold list_to_arr.
  by rewrite to_arr_list; simpl; rewrite StaticSecret_from_as.
Qed.

Lemma Identity_from_to_json `{!CryptoLaws} (s : SecretKey) (w : StaticSecret) :
  let i := mkIdentity (mkKeypair s (PublicKey_from s)) w in
  Identity_from_json (Identity_to_json i) = Some i.
Proof.
  intros i. unfold Identity_from_json, Identity_to_json. rewrite json_parse_print. simpl.
  rewrite !hex_decode_encode. simpl. rewrite !length_vec_to_list. simpl.
  apply Identity_from_to_bytes.
Qed.

Lemma leading_zero_bits_ge (h : arr 32) (d : Z) :
  (0 ≤ d ≤ 255)%Z → (d <=? leading_zero_bits h)%Z = true ↔ (val256 h < 2 ^ (256 - d))%Z.
Proof.
  intros Hd. rewrite Z.leb_le. unfold leading_zero_bits.
  rewrite lz_loop_ge by (rewrite length_vec_to_list; lia). by rewrite length_vec_to_list.
Qed.

Lemma solve_pow_zero draws nonce sk :
  solve_ephemeral_pow (sk :: draws) nonce 0 = Some (sk, X25519Public_from sk).
Proof. simpl. by case_match. Qed.
End crypto.

(** ** A concrete instance

    A toy hash and a toy signature scheme that satisfy the laws; they evaluate the
    statements on concrete inputs. *)

Definition toy_hash (n : nat) (b : bytes) : arr n :=
  list_to_arr n (be_bytes n
    (foldl (λ acc x, (acc * 257 + b2z x + 1) mod 2 ^ (8 * Z.of_nat n)) (Z.of_nat (length b)) b)%Z).

#[export] Instance IdentityFile_eq_dec : EqDecision IdentityFile.
Proof. solve_decision. Defined.

#[export] Instance IdentityFile_wire : Wire IdentityFile.
Proof.
  refine (iso_wire
    (λ f, (if_version f, if_ed25519_seed f, if_x25519_secret f, if_ed25519_pubkey f,
           if_x25519_pubkey f, if_node_id f))
    (λ '(a, b, c, d, e, f), mkIdentityFile a b c d e f) _).
  by intros [].
Defined.

#[local] Instance toy_crypto : Crypto := {|
  blake3_hash := toy_hash 32;
  SecretKey := arr 32;
  SecretKey_from_bytes := to_arr 32;
  SecretKey_as_bytes s := s;
  PublicKey_from s := toy_hash 32 (vec_to_list s);
  PublicKey_ok _ := true;
  Signature_from_bytes := to_arr 64;
  ed_sign _ p m := toy_hash 64 (vec_to_list p ++ m);
  ed_verify p m s := bool_decide (s = toy_hash 64 (vec_to_list p ++ m));
  StaticSecret := arr 32;
  StaticSecret_from s := s;
  StaticSecret_as_bytes s := s;
  X25519Public_from s := s;
  hex_encode b := b;
  hex_decode := Some;
  json_print := enc;
  json_parse := dec_all;
|}.

#[local] Instance toy_crypto_laws : CryptoLaws.
Proof.
  split; intros; try exact (dec_all_enc _); cbn; rewrite ?to_arr_list; try done.
  by apply bool_decide_eq_true_2.
Qed.

(** ** Theorems *)

(** C36: a record signature made with an identity's key pair verifies under its public
    key, and the signed bytes determine every field they are made from: two records with
    64-bit sequence, time-to-live and not-before fields have the same signed bytes only
    if key, value and all three numbers agree.  So no field of a signed record can be
    altered without changing the message the signature is checked against. *)
Theorem record_signature_correct `{Crypto} `{!CryptoLaws} (s : SecretKey)
    (k k' : Key) (v v' : bytes) (q t n q' t' n' : Z) :
  in_u 64 q → in_u 64 t → in_u 64 n → in_u 64 q' → in_u 64 t' → in_u 64 n' →
  let kp := mkKeypair s (PublicKey_from s) in
  verify_record (vec_to_list (kp_public kp)) k v q t n
    (vec_to_list (sign_record kp k v q t n)) = true ∧
  (record_bytes k v q t n = record_bytes k' v' q' t' n' ↔
   (k, v, q, t, n) = (k', v', q', t', n')).
Proof.
  intros. split; [apply kp_sign_verify|]. split; [|congruence].
  intros Heq. apply record_bytes_inj in Heq as (-> & -> & -> & -> & ->); done.
Qed.

Lemma record_signature_correct_witness :
  let s : @SecretKey toy_crypto := list_to_arr 32 (replicate 32 (z2b 7)) in
  let kp := mkKeypair s (PublicKey_from s) in
  let k := mkKey (arr_repeat (z2b 3) 32) in
  verify_record (vec_to_list (kp_public kp)) k (bstr "v") 1 86400 0
    (vec_to_list (sign_record kp k (bstr "v") 1 86400 0)) = true ∧
  (record_bytes k (bstr "v") 1 86400 0 = record_bytes k (bstr "v") 2 86400 0 ↔
   (k, bstr "v", 1, 86400, 0)%Z = (k, bstr "v", 2, 86400, 0)%Z).
Proof. apply (record_signature_correct (H := toy_crypto)); unfold in_u; lia. Defined.

(** an identity survives both of its serialisations: the 64 raw bytes and the
    JSON identity file parse back to the same identity (hence to the same node id and
    WireGuard key), and the binding signature it hands out in PING and PONG verifies
    for exactly its own Ed25519 and X25519 public keys. *)
Theorem identity_roundtrip `{Crypto} `{!CryptoLaws} (seed : arr 32) (w : StaticSecret) (i : Identity) :
  Identity_generate seed w = Some i →
  Identity_from_bytes (list_to_arr 64 (Identity_to_bytes i)) = Some i ∧
  Identity_from_json (Identity_to_json i) = Some i ∧
  verify_binding (vec_to_list (verifying_key i)) (vec_to_list (wg_public i))
    (vec_to_list (binding_signature i)) = true ∧
  node_id i = node_id_from_pubkey (vec_to_list (PublicKey_from (kp_secret (signing i)))).
Proof.
  unfold Identity_generate. destruct (SecretKey_from_bytes _) as [s|]; [|done].
  intros [= <-]. split_and!;
    [apply Identity_from_to_bytes | apply Identity_from_to_json | apply kp_sign_verify | done].
Qed.

Lemma identity_roundtrip_witness :
  let i := @mkIdentity toy_crypto
             (mkKeypair (arr_repeat (z2b 7) 32) (PublicKey_from (arr_repeat (z2b 7) 32)))
             (arr_repeat (z2b 9) 32) in
  Identity_from_bytes (list_to_arr 64 (Identity_to_bytes i)) = Some i ∧
  Identity_from_json (Identity_to_json i) = Some i ∧
  verify_binding (vec_to_list (verifying_key i)) (vec_to_list (wg_public i))
    (vec_to_list (binding_signature i)) = true ∧
  node_id i = node_id_from_pubkey (vec_to_list (PublicKey_from (kp_secret (signing i)))).
Proof.
  apply (identity_roundtrip (H := toy_crypto) (arr_repeat (z2b 7) 32) (arr_repeat (z2b 9) 32)).
  reflexivity.
Defined.

(** the proof-of-work check accepts exactly the hashes below [2^(256 - d)] for every
    difficulty byte [d]; the solver returns a key pair that passes the check, the first
    one the generator produced that does (for difficulty 0 the very first draw); and it
    keeps drawing only while no draw passes. *)
Theorem pow_correct `{Crypto} (draws : list StaticSecret) (nonce : arr 16) (d : Z) (pk : arr 32) :
  (0 ≤ d ≤ 255)%Z →
  (verify_ephemeral_pow pk nonce d = true ↔
   (val256 (blake3_hash (vec_to_list pk ++ vec_to_list nonce)) < 2 ^ (256 - d))%Z) ∧
  (∀ sk p, solve_ephemeral_pow draws nonce d = Some (sk, p) →
     p = X25519Public_from sk ∧ verify_ephemeral_pow p nonce d = true ∧
     ∃ pre post, draws = pre ++ sk :: post ∧
       Forall (λ x, verify_ephemeral_pow (X25519Public_from x) nonce d = false) pre) ∧
  (solve_ephemeral_pow draws nonce d = None ↔
   Forall (λ x, verify_ephemeral_pow (X25519Public_from x) nonce d = false) draws).
Proof.
  intros Hd. assert (Hzero : ∀ p, d = 0%Z → verify_ephemeral_pow p nonce d = true).
  { intros p ->. apply Z.leb_le, lz_loop_bound. }
  split; [apply leading_zero_bits_ge; lia|].
  induction draws as [|x draws [IH1 IH2]]; simpl; [split; [done|by constructor]|].
  destruct (verify_ephemeral_pow (X25519Public_from x) nonce d) eqn:Hx.
  { split; [|split; [done|by inversion 1; congruence]].
    intros sk p [= <- <-]. split_and!; [done..|]. exists [], draws. by constructor. }
  destruct (Z.eqb_spec d 0) as [->|Hne]; [by rewrite Hzero in Hx|]. split.
  - intros sk p (-> & ? & pre & post & -> & ?)%IH1. split_and!; [done..|].
    exists (x :: pre), post. split; [done|by constructor].
  - rewrite IH2. split; [by constructor|by inversion 1].
Qed.

Lemma pow_correct_witness :
  let nonce := arr_repeat (z2b 1) 16 in
  let draws : list (@StaticSecret toy_crypto) :=
    [list_to_arr 32 (be_bytes 32 5); list_to_arr 32 (be_bytes 32 (-1))] in
  let pk := arr_repeat (z2b 0) 32 in
  (verify_ephemeral_pow pk nonce 3 = true ↔
   (val256 (blake3_hash (vec_to_list pk ++ vec_to_list nonce)) < 2 ^ (256 - 3))%Z) ∧
  (∀ sk p, solve_ephemeral_pow draws nonce 3 = Some (sk, p) →
     p = X25519Public_from sk ∧ verify_ephemeral_pow p nonce 3 = true ∧
     ∃ pre post, draws = pre ++ sk :: post ∧
       Forall (λ x, verify_ephemeral_pow (X25519Public_from x) nonce 3 = false) pre) ∧
  (solve_ephemeral_pow draws nonce 3 = None ↔
   Forall (λ x, verify_ephemeral_pow (X25519Public_from x) nonce 3 = false) draws).
Proof. intros nonce draws pk. apply (pow_correct (H := toy_crypto) draws nonce 3 pk). lia. Defined.

(** the key of a mutable record does not separate its namespace from its salt: any
    two splits of the same bytes give one key, and the signature covers neither field.
    So a signed record stored under ([ns], [salt]) is accepted unchanged under any other
    split, for example under namespace ["ab"] and salt ["c"] as well as ["a"] and
    ["bc"]. *)
Theorem mutable_key_split_ambiguous `{Crypto} (pk ns salt ns' salt' : bytes) :
  ns ++ salt = ns' ++ salt' → mutable_key pk ns salt = mutable_key pk ns' salt'.
Proof. intros Heq. unfold mutable_key. by rewrite Heq. Qed.

Lemma mutable_key_split_ambiguous_witness :
  @mutable_key toy_crypto (bstr "pk") (bstr "ab") (bstr "c") =
    mutable_key (bstr "pk") (bstr "a") (bstr "bc") ∧ bstr "ab" ≠ bstr "a".
Proof. split; [apply mutable_key_split_ambiguous; reflexivity|discriminate]. Defined.
