(* ===== verification/Net.v ===== *)
(** * Socket addresses as text ([std::net])

    The peer store and the wire format hold addresses as text: [addr.to_string()] and
    [str::parse::<SocketAddr>()].  This file models the standard library's [Display]
    and [FromStr] implementations for [SocketAddr] and [str::from_utf8]; a [String] or
    [&str] is the list of its UTF-8 bytes. *)

From S2P Require Import Prelude Bytes Types.

(** ** UTF-8 validation ([str::from_utf8]) *)

Definition utf8_cont (b : byte) : bool := (Z.land (b2z b) 192 =? 128)%Z.

Definition between (lo hi z : Z) : bool := ((lo <=? z) && (z <=? hi))%Z.

Fixpoint utf8_valid (l : bytes) : bool :=
  match l with
  | [] => true
  | a :: l1 =>
      let a := b2z a in
      if (a <? 128)%Z then utf8_valid l1
      else match l1 with
      | [] => false
      | b :: l2 =>
          if between 194 223 a then utf8_cont b && utf8_valid l2
          else match l2 with
          | [] => false
          | c :: l3 =>
              if between 224 239 a then
                (if (a =? 224)%Z then between 160 191 (b2z b)
                 else if (a =? 237)%Z then between 128 159 (b2z b)
                 else utf8_cont b) && utf8_cont c && utf8_valid l3
              else match l3 with
              | [] => false
              | d :: l4 =>
                  between 240 244 a &&
                  (if (a =? 240)%Z then between 144 191 (b2z b)
                   else if (a =? 244)%Z then between 128 143 (b2z b)
                   else utf8_cont b) && utf8_cont c && utf8_cont d && utf8_valid l4
              end
          end
      end
  end.

Definition from_utf8 (l : bytes) : option bytes := if utf8_valid l then Some l else None.

(** ** Printing *)

Definition char (z : Z) : byte := z2b z.

(** A digit below 36, lower case. *)
Definition from_digit (d : Z) : byte := if (d <? 10)%Z then z2b (48 + d) else z2b (87 + d).

(** Digits of [n] in base [radix], most significant first; [fuel] bounds their number. *)
Fixpoint digits (radix : Z) (fuel : nat) (n : Z) : list Z :=
  match fuel with
  | O => []
  | S fuel => if (n <? radix)%Z then [n] else digits radix fuel (n / radix) ++ [(n mod radix)%Z]
  end.

(** [{}] of a [u8], [u16] or [u32]: at most 10 digits. *)
Definition show_dec (n : Z) : bytes := from_digit <$> digits 10 10 n.

(** [{:x}] of a [u16]. *)
Definition show_hex (n : Z) : bytes := from_digit <$> digits 16 4 n.

Fixpoint join (sep : bytes) (ls : list bytes) : bytes :=
  match ls with
  | [] => []
  | [l] => l
  | l :: ls => l ++ sep ++ join sep ls
  end.

Definition show_ipv4 (ip : arr 4) : bytes := join (bstr ".") (show_dec ∘ b2z <$> vec_to_list ip).

(** The eight 16-bit segments of an IPv6 address. *)
Fixpoint segments_of (l : bytes) : list Z :=
  match l with
  | a :: b :: l => be_val [a; b] :: segments_of l
  | _ => []
  end.

Definition segments (ip : arr 16) : list Z := segments_of (vec_to_list ip).

(** The first longest run of zero segments: start and length. *)
Fixpoint zero_span (segs : list Z) (i : nat) (cur longest : nat * nat) : nat * nat :=
  match segs with
  | [] => longest
  | s :: segs =>
      if (s =? 0)%Z then
        let cur := if snd cur =? 0 then (i, 1) else (fst cur, S (snd cur)) in
        zero_span segs (S i) cur (if snd longest <? snd cur then cur else longest)
      else zero_span segs (S i) (0, 0) longest
  end.

Definition fmt_subslice (segs : list Z) : bytes := join (bstr ":") (show_hex <$> segs).

Definition show_ipv6 (ip : arr 16) : bytes :=
  let l := vec_to_list ip in
  if bool_decide (take 12 l = replicate 10 (z2b 0) ++ replicate 2 (z2b 255))
  then bstr "::ffff:" ++ show_ipv4 (list_to_arr 4 (drop 12 l))
  else
    let segs := segments ip in
    let '(start, len) := zero_span segs 0 (0, 0) (0, 0) in
    if 1 <? len
    then fmt_subslice (take start segs) ++ bstr "::" ++ fmt_subslice (drop (start + len) segs)
    else fmt_subslice segs.

(** [SocketAddr::to_string] *)
Definition addr_to_string (a : SocketAddr) : bytes :=
  match a with
  | AddrV4 ip port => show_ipv4 ip ++ bstr ":" ++ show_dec port
  | AddrV6 ip port _ scope_id =>
      if (scope_id =? 0)%Z
      then bstr "[" ++ show_ipv6 ip ++ bstr "]:" ++ show_dec port
      else bstr "[" ++ show_ipv6 ip ++ bstr "%" ++ show_dec scope_id ++ bstr "]:" ++ show_dec port
  end.

(** ** Parsing

    A parser consumes a prefix of the input or fails; a failed attempt leaves the input
    as it was ([read_atomically]). *)

Definition P (A : Type) : Type := bytes → option (A * bytes).

Definition read_given_char (c : byte) : P unit := λ l,
  match l with
  | b :: l => if bool_decide (b = c) then Some (tt, l) else None
  | [] => None
  end.

(** [char::to_digit] on an ASCII character. *)
Definition to_digit (radix : Z) (c : byte) : option Z :=
  let z := b2z c in
  let d := if between 48 57 z then (z - 48)%Z
           else if between 97 122 z then (z - 87)%Z
           else if between 65 90 z then (z - 55)%Z
           else radix in
  if (d <? radix)%Z then Some d else None.

(** The loop of [read_number]: [None] on overflow of [max] or on too many digits. *)
Fixpoint read_digits (radix max : Z) (max_digits : option nat) (l : bytes) (acc : Z) (count : nat)
    : option (Z * nat * bytes) :=
  match l with
  | [] => Some (acc, count, [])
  | c :: l' =>
      match to_digit radix c with
      | None => Some (acc, count, l)
      | Some d =>
          if (max <? acc * radix)%Z then None
          else if (max <? acc * radix + d)%Z then None
          else if match max_digits with Some m => m <? S count | None => false end then None
          else read_digits radix max max_digits l' (acc * radix + d) (S count)
      end
  end.

Definition read_number (radix max : Z) (max_digits : option nat) (allow_zero_prefix : bool) : P Z := λ l,
  let has_leading_zero := bool_decide (head l = Some (z2b 48)) in
  match read_digits radix max max_digits l 0 0 with
  | None => None
  | Some (n, count, rest) =>
      if count =? 0 then None
      else if negb allow_zero_prefix && has_leading_zero && (1 <? count) then None
      else Some (n, rest)
  end.

Definition read_separator {A} (sep : byte) (index : nat) (inner : P A) : P A := λ l,
  if 0 <? index then
    match read_given_char sep l with
    | Some (_, l) => inner l
    | None => None
    end
  else inner l.

Fixpoint read_octets (i n : nat) : P (list Z) := λ l,
  match n with
  | O => Some ([], l)
  | S n =>
      '(o, l) ← read_separator (z2b 46) i (read_number 10 255 (Some 3) false) l;
      '(os, l) ← read_octets (S i) n l;
      Some (o :: os, l)
  end.

Definition read_ipv4_addr : P (arr 4) := λ l,
  '(os, l) ← read_octets 0 4 l;
  Some (list_to_arr 4 (z2b <$> os), l).

(** [read_groups]: the groups read, whether the last two came from an embedded IPv4
    address, and the rest of the input.  [limit] groups are left of index [i] on. *)
Fixpoint read_groups (i left : nat) (l : bytes) : list Z * bool * bytes :=
  match left with
  | O => ([], false, l)
  | S left' =>
      match (if 0 <? left' then read_separator (z2b 58) i read_ipv4_addr l else None) with
      | Some (ip, l) => (segments_of (vec_to_list ip), true, l)
      | None =>
          match read_separator (z2b 58) i (read_number 16 65535 (Some 4) true) l with
          | Some (g, l) => let '(gs, v4, l) := read_groups (S i) left' l in (g :: gs, v4, l)
          | None => ([], false, l)
          end
      end
  end.

Definition from_segments (segs : list Z) : arr 16 :=
  list_to_arr 16 (mjoin ((λ s, be_bytes 2 s) <$> segs)).

Definition read_ipv6_addr : P (arr 16) := λ l,
  let '(head, head_ipv4, l) := read_groups 0 8 l in
  if length head =? 8 then Some (from_segments head, l)
  else if head_ipv4 then None
  else
    '(_, l) ← read_given_char (z2b 58) l;
    '(_, l) ← read_given_char (z2b 58) l;
    let '(tail, _, l) := read_groups 0 (8 - (length head + 1)) l in
    Some (from_segments (head ++ replicate (8 - length head - length tail) 0%Z ++ tail), l).

Definition read_port : P Z := λ l,
  '(_, l) ← read_given_char (z2b 58) l; read_number 10 65535 None true l.

Definition read_scope_id : P Z := λ l,
  '(_, l) ← read_given_char (z2b 37) l; read_number 10 (2 ^ 32 - 1) None true l.

Definition read_socket_addr_v4 : P SocketAddr := λ l,
  '(ip, l) ← read_ipv4_addr l;
  '(port, l) ← read_port l;
  Some (AddrV4 ip port, l).

Definition read_socket_addr_v6 : P SocketAddr := λ l,
  '(_, l) ← read_given_char (z2b 91) l;
  '(ip, l) ← read_ipv6_addr l;
  let '(scope_id, l) := default (0%Z, l) (read_scope_id l) in
  '(_, l) ← read_given_char (z2b 93) l;
  '(port, l) ← read_port l;
  Some (AddrV6 ip port 0 scope_id, l).

(** [str::parse::<SocketAddr>]: one of the two forms, the whole input consumed. *)
Definition addr_parse (l : bytes) : option SocketAddr :=
  match match read_socket_addr_v4 l with
        | Some r => Some r
        | None => read_socket_addr_v6 l
        end with
  | Some (a, []) => Some a
  | _ => None
  end.

(** ** Round trip *)

Definition horner (radix acc : Z) (ds : list Z) : Z := foldl (λ a d, (a * radix + d)%Z) acc ds.

Lemma digits_range radix fuel n :
  (1 < radix)%Z → (0 ≤ n)%Z → Forall (λ d, 0 ≤ d < radix)%Z (digits radix fuel n).
Proof.
  intros Hr. revert n. induction fuel as [|fuel IH]; intros n Hn; simpl; [constructor|].
  destruct (Z.ltb_spec n radix); [repeat constructor; lia|].
  apply Forall_app. split; [apply IH, Z.div_pos; lia|].
  repeat constructor; apply Z.mod_pos_bound; lia.
Qed.

Lemma digits_horner radix fuel n :
  (1 < radix)%Z → (0 ≤ n < radix ^ Z.of_nat fuel)%Z → horner radix 0 (digits radix fuel n) = n.
Proof.
  intros Hr. revert n. induction fuel as [|fuel IH]; intros n Hn; simpl; [simpl in Hn; lia|].
  destruct (Z.ltb_spec n radix); [done|].
  rewrite Nat2Z.inj_succ, Z.pow_succ_r in Hn by lia.
  unfold horner. rewrite foldl_app. simpl. fold (horner radix 0 (digits radix fuel (n / radix))).
  rewrite IH; [pose proof (Z.div_mod n radix); lia|].
  split; [apply Z.div_pos; lia|apply Z.div_lt_upper_bound; lia].
Qed.

Lemma digits_length radix fuel k n :
  (1 < radix)%Z → (0 ≤ n < radix ^ Z.of_nat k)%Z → 0 < k → 0 < fuel →
  0 < length (digits radix fuel n) ≤ k.
Proof.
  intros Hr. revert k n. induction fuel as [|fuel IH]; intros k n Hn Hk Hf; [lia|]. simpl.
  destruct (Z.ltb_spec n radix); [simpl; lia|]. rewrite length_app. simpl.
  destruct k as [|[|k]]; [lia|change (Z.of_nat 1) with 1%Z in Hn; lia|].
  rewrite Nat2Z.inj_succ, Z.pow_succ_r in Hn by lia.
  destruct fuel as [|fuel]; [simpl; lia|].
  pose proof (IH (S k) (n / radix)%Z). cut (0 ≤ n / radix < radix ^ Z.of_nat (S k))%Z; [lia|].
  split; [apply Z.div_pos; lia|apply Z.div_lt_upper_bound; lia].
Qed.

Lemma to_digit_from_digit d : (0 ≤ d < 10)%Z → to_digit 10 (from_digit d) = Some d.
Proof.
  intros Hd. unfold to_digit, from_digit. replace (d <? 10)%Z with true by lia.
  rewrite b2z_z2b_small by lia. unfold between.
  replace ((48 <=? 48 + d) && (48 + d <=? 57))%Z with true by lia.
  replace (48 + d - 48)%Z with d by lia. by replace (d <? 10)%Z with true by lia.
Qed.

Lemma horner_mono radix ds acc :
  (1 < radix)%Z → (0 ≤ acc)%Z → Forall (λ d, 0 ≤ d < radix)%Z ds → (acc ≤ horner radix acc ds)%Z.
Proof.
  intros Hr. revert acc. induction ds as [|d ds IH]; intros acc Hacc Hds; simpl; [done|].
  inversion_clear Hds. unfold horner in *. simpl.
  specialize (IH (acc * radix + d)%Z ltac:(nia) ltac:(done)). nia.
Qed.

(** The digits of a number followed by something that is not a digit are read back. *)
Lemma read_digits_spec max md ds rest acc count :
  Forall (λ d, 0 ≤ d < 10)%Z ds → (0 ≤ acc)%Z → (horner 10 acc ds ≤ max)%Z →
  (∀ m, md = Some m → count + length ds ≤ m) →
  (∀ c, head rest = Some c → to_digit 10 c = None) →
  read_digits 10 max md ((from_digit <$> ds) ++ rest) acc count =
    Some (horner 10 acc ds, count + length ds, rest).
Proof.
  intros Hds. revert acc count. induction Hds as [|d ds Hd Hds IH]; intros acc count Hacc Hmax Hmd Hrest.
  - simpl. rewrite Nat.add_0_r. destruct rest as [|c rest]; [done|].
    simpl. by rewrite (Hrest c).
  - cbn [fmap list_fmap app read_digits]. rewrite to_digit_from_digit by done.
    cbn [horner foldl] in Hmax. fold (horner 10 (acc * 10 + d) ds) in Hmax.
    pose proof (horner_mono 10 ds (acc * 10 + d) ltac:(lia) ltac:(lia) Hds).
    replace (max <? acc * 10)%Z with false by lia. replace (max <? acc * 10 + d)%Z with false by lia.
    assert ((match md with Some m => m <? S count | None => false end) = false) as ->.
    { destruct md as [m|]; [|done]. specialize (Hmd m eq_refl). simpl in Hmd.
      destruct (Nat.ltb_spec m (S count)); [lia|done]. }
    rewrite IH; [|lia|done| |done].
    + do 2 f_equal. f_equal. simpl. lia.
    + intros m ->. specialize (Hmd m eq_refl). simpl in Hmd. lia.
Qed.

Lemma read_number_show max md k zp n rest :
  (0 ≤ n ≤ max)%Z → (n < 10 ^ Z.of_nat k)%Z → 0 < k ≤ 10 → (∀ m, md = Some m → k ≤ m) →
  (zp = true ∨ (n < 256)%Z) →
  (∀ c, head rest = Some c → to_digit 10 c = None) →
  read_number 10 max md zp (show_dec n ++ rest) = Some (n, rest).
Proof.
  intros Hn Hk Hk' Hmd Hzp Hrest. unfold read_number, show_dec.
  assert (10 ^ Z.of_nat k ≤ 10 ^ Z.of_nat 10)%Z by (apply Z.pow_le_mono_r; lia).
  pose proof (digits_length 10 10 k n ltac:(lia) ltac:(lia) ltac:(lia) ltac:(lia)) as Hlen.
  pose proof (digits_horner 10 10 n ltac:(lia) ltac:(lia)) as Hval.
  rewrite read_digits_spec; rewrite ?Hval; [|apply digits_range; lia|lia|lia| |done].
  2:{ intros m ->. specialize (Hmd m eq_refl). lia. }
  destruct (digits 10 10 n) as [|d ds] eqn:Hds; [simpl in Hlen; lia|].
  cbn [length Nat.add Nat.eqb].
  assert (Hone : zp = true ∨ d ≠ 0%Z ∨ ds = []).
  { destruct Hzp as [|Hsmall]; [by left|right].
    assert (Hall : forallb (λ n, match digits 10 10 n with
        | d :: ds => negb (d =? 0)%Z || bool_decide (ds = []) | [] => false end) (seqZ 0 256) = true)
      by (vm_compute; reflexivity).
    rewrite forallb_elem in Hall. specialize (Hall n ltac:(apply elem_of_seqZ; lia)).
    rewrite Hds in Hall. apply orb_true_iff in Hall as [?|?]; bool_to_prop; [left; lia|by right]. }
  destruct zp; [done|]. cbn [negb andb]. destruct Hone as [|[Hd | ->]]; [done| |].
  - rewrite bool_decide_eq_false_2; [done|]. cbn [fmap list_fmap app head]. intros [= Heq].
    pose proof (digits_range 10 10 n ltac:(lia) ltac:(lia)) as Hr. rewrite Hds in Hr.
    inversion_clear Hr. unfold from_digit in Heq. replace (d <? 10)%Z with true in Heq by lia.
    apply (f_equal b2z) in Heq. rewrite !b2z_z2b_small in Heq; lia.
  - by rewrite andb_false_r.
Qed.

Lemma read_octet_show (b : byte) rest :
  (∀ c, head rest = Some c → to_digit 10 c = None) →
  read_number 10 255 (Some 3) false (show_dec (b2z b) ++ rest) = Some (b2z b, rest).
Proof.
  intros. pose proof (b2z_bound b). apply (read_number_show _ _ 3); [lia|lia|lia|naive_solver|by right; lia|done].
Qed.

Lemma read_ipv4_show (ip : arr 4) rest :
  (∀ c, head rest = Some c → to_digit 10 c = None) →
  read_ipv4_addr (show_ipv4 ip ++ rest) = Some (ip, rest).
Proof.
  intros Hrest. inv_vec ip. intros a b c d. unfold show_ipv4, read_ipv4_addr.
  cbn [vec_to_list fmap list_fmap join compose read_octets read_separator Nat.ltb Nat.leb].
  rewrite <-!(assoc_L (++)).
  rewrite read_octet_show by (intros ? [= <-]; reflexivity). cbn [mbind option_bind].
  unfold read_separator, read_given_char, bstr at 1.
  repeat (cbn -[show_dec read_number b2z z2b show_dec]; 
    rewrite ?bool_decide_eq_true_2 by reflexivity;
    rewrite read_octet_show by first [done | intros ? [= <-]; reflexivity]).
  cbn -[z2b b2z list_to_arr]. rewrite !z2b_b2z. reflexivity.
Qed.

(** Any printed IPv4 socket address parses back to itself. *)
Lemma addr_parse_to_string_v4 (ip : arr 4) (port : Z) :
  in_u 16 port → addr_parse (addr_to_string (AddrV4 ip port)) = Some (AddrV4 ip port).
Proof.
  unfold in_u. intros Hp. unfold addr_parse, addr_to_string, read_socket_addr_v4.
  rewrite read_ipv4_show by (intros ? [= <-]; reflexivity). cbn [mbind option_bind].
  unfold read_port, read_given_char. cbn -[show_dec read_number b2z z2b].
  rewrite bool_decide_eq_true_2 by reflexivity. cbn [mbind option_bind].
  rewrite <-(app_nil_r (show_dec port)).
  rewrite (read_number_show _ _ 5); [done|lia|lia|lia|done|by left|done].
Qed.

(** ** ASCII text is valid UTF-8 *)

Definition ascii_text (l : bytes) : Prop := Forall (λ b, b2z b < 128)%Z l.

Lemma ascii_utf8 l : ascii_text l → from_utf8 l = Some l.
Proof.
  intros Hl. unfold from_utf8. enough (utf8_valid l = true) as -> by done.
  induction Hl as [|b l Hb Hl IH]; [done|]. cbn -[b2z Z.ltb].
  by replace (b2z b <? 128)%Z with true by lia.
Qed.

Lemma show_dec_ascii n : (0 ≤ n)%Z → ascii_text (show_dec n).
Proof.
  intros Hn. unfold ascii_text, show_dec. apply Forall_fmap.
  eapply Forall_impl; [apply (digits_range 10); lia|]. intros d Hd. cbn in Hd |- *.
  unfold from_digit. replace (d <? 10)%Z with true by lia. rewrite b2z_z2b_small; lia.
Qed.

Lemma show_ipv4_ascii ip : ascii_text (show_ipv4 ip).
Proof.
  inv_vec ip. intros a b c d. unfold show_ipv4. cbn [vec_to_list fmap list_fmap join compose].
  unfold ascii_text. rewrite !Forall_app.
  split_and!; try apply show_dec_ascii; try (repeat constructor; reflexivity); apply b2z_bound.
Qed.

Lemma addr_to_string_v4_ascii ip port :
  in_u 16 port → ascii_text (addr_to_string (AddrV4 ip port)).
Proof.
  unfold in_u. intros. unfold ascii_text. cbn [addr_to_string]. rewrite !Forall_app.
  split_and!; [apply show_ipv4_ascii|repeat constructor; reflexivity|apply show_dec_ascii; lia].
Qed.

(** The text of the address is valid UTF-8 and parses back to it.  It holds of every
    IPv4 address with a 16-bit port. *)
Definition addr_text_ok (a : SocketAddr) : bool :=
  utf8_valid (addr_to_string a) && bool_decide (addr_parse (addr_to_string a) = Some a).

Lemma addr_text_ok_v4 ip port : in_u 16 port → addr_text_ok (AddrV4 ip port) = true.
Proof.
  intros Hp. unfold addr_text_ok. apply andb_true_iff. split.
  - pose proof (ascii_utf8 _ (addr_to_string_v4_ascii ip port Hp)) as H.
    unfold from_utf8 in H. by destruct (utf8_valid _).
  - by apply bool_decide_eq_true_2, addr_parse_to_string_v4.
Qed.

Lemma addr_text_ok_spec a :
  addr_text_ok a = true →
  from_utf8 (addr_to_string a) = Some (addr_to_string a) ∧ addr_parse (addr_to_string a) = Some a.
Proof.
  unfold addr_text_ok, from_utf8. intros [-> ?]%andb_true_iff. by bool_to_prop.
Qed.
