(* ===== verification/Text.v ===== *)
(** * Strings of the standard library

    What the gateway and the command line use of [str] and [String]: lossy decoding,
    splitting, trimming, comparison and the parsing of unsigned integers.  A string is the
    list of its UTF-8 bytes, as in [Net.v]. *)

From S2P Require Import Prelude Bytes Types Net.

(** ** Lossy decoding ([String::from_utf8_lossy]) *)

(** U+FFFD. *)
Definition REPLACEMENT : bytes := z2b <$> [239; 191; 189]%Z.

(** The second byte a lead byte of a three- or four-byte character allows. *)
Definition second_ok (a b : byte) : bool :=
  let a := b2z a in
  let b := b2z b in
  if (a =? 224)%Z then between 160 191 b
  else if (a =? 237)%Z then between 128 159 b
  else if (a =? 240)%Z then between 144 191 b
  else if (a =? 244)%Z then between 128 143 b
  else between 128 191 b.

(** Each maximal invalid sequence becomes one replacement character. *)
Fixpoint from_utf8_lossy (l : bytes) : bytes :=
  match l with
  | [] => []
  | a :: l1 =>
      if (b2z a <? 128)%Z then a :: from_utf8_lossy l1
      else if between 194 223 (b2z a) then
        match l1 with
        | b :: l2 => if utf8_cont b then a :: b :: from_utf8_lossy l2
                     else REPLACEMENT ++ from_utf8_lossy l1
        | [] => REPLACEMENT
        end
      else if between 224 239 (b2z a) then
        match l1 with
        | b :: l2 =>
            if second_ok a b then
              match l2 with
              | c :: l3 => if utf8_cont c then a :: b :: c :: from_utf8_lossy l3
                           else REPLACEMENT ++ from_utf8_lossy l2
              | [] => REPLACEMENT
              end
            else REPLACEMENT ++ from_utf8_lossy l1
        | [] => REPLACEMENT
        end
      else if between 240 244 (b2z a) then
        match l1 with
        | b :: l2 =>
            if second_ok a b then
              match l2 with
              | c :: l3 =>
                  if utf8_cont c then
                    match l3 with
                    | d :: l4 => if utf8_cont d then a :: b :: c :: d :: from_utf8_lossy l4
                                 else REPLACEMENT ++ from_utf8_lossy l3
                    | [] => REPLACEMENT
                    end
                  else REPLACEMENT ++ from_utf8_lossy l2
              | [] => REPLACEMENT
              end
            else REPLACEMENT ++ from_utf8_lossy l1
        | [] => REPLACEMENT
        end
      else REPLACEMENT ++ from_utf8_lossy l1
  end.

(** ** White space

    [ws_len l] is the number of bytes of the white-space character [l] starts with, 0 if it
    starts with another one: the characters with the Unicode property [White_Space]. *)
Definition ws_len (l : bytes) : nat :=
  match b2z <$> take 3 l with
  | a :: r =>
      if between 9 13 a || (a =? 32)%Z then 1
      else match r with
      | b :: r =>
          if (a =? 194)%Z && ((b =? 133) || (b =? 160))%Z then 2
          else match r with
          | [c] =>
              if ((a =? 225) && (b =? 154) && (c =? 128))%Z
                 || (a =? 226)%Z && (b =? 128)%Z &&
                    (between 128 138 c || (c =? 168)%Z || (c =? 169)%Z || (c =? 175)%Z)
                 || ((a =? 226) && (b =? 129) && (c =? 159))%Z
                 || ((a =? 227) && (b =? 128) && (c =? 128))%Z
              then 3 else 0
          | _ => 0
          end
      | [] => 0
      end
  | [] => 0
  end.

(** The words of [l], each one reversed while it is read; [skip] bytes belong to a
    white-space character that has begun. *)
Fixpoint words (l : bytes) (skip : nat) (word : bytes) : list bytes :=
  match l with
  | [] => if bool_decide (word = []) then [] else [reverse word]
  | c :: l' =>
      match skip with
      | S skip => words l' skip word
      | O =>
          match ws_len l with
          | O => words l' 0 (c :: word)
          | S n => (if bool_decide (word = []) then [] else [reverse word]) ++ words l' n []
          end
      end
  end.

Definition split_whitespace (l : bytes) : list bytes := words l 0 [].

Fixpoint trim_start_from (skip : nat) (l : bytes) : bytes :=
  match l with
  | [] => []
  | c :: l' =>
      match skip with
      | S skip => trim_start_from skip l'
      | O => match ws_len l with O => l | S n => trim_start_from n l' end
      end
  end.

Definition trim_start (l : bytes) : bytes := trim_start_from 0 l.

Fixpoint trim_end (l : bytes) : bytes :=
  match l with
  | [] => []
  | c :: l' => if bool_decide (trim_start l = []) then [] else c :: trim_end l'
  end.

Definition trim (l : bytes) : bytes := trim_end (trim_start l).

(** ** Splitting *)

(** [split] at an ASCII character. *)
Fixpoint split_char (sep : byte) (l : bytes) : list bytes :=
  match l with
  | [] => [[]]
  | c :: l =>
      if bool_decide (c = sep) then [] :: split_char sep l
      else match split_char sep l with
           | p :: ps => (c :: p) :: ps
           | [] => [[c]]
           end
  end.

(** [split_once] at an ASCII character. *)
Fixpoint split_once (sep : byte) (l : bytes) : option (bytes * bytes) :=
  match l with
  | [] => None
  | c :: l =>
      if bool_decide (c = sep) then Some ([], l)
      else (λ '(a, b), (c :: a, b)) <$> split_once sep l
  end.

Definition CR : byte := z2b 13.
Definition LF : byte := z2b 10.
Definition crlf : bytes := [CR; LF].

(** [split("\r\n")] *)
Fixpoint split_crlf (l : bytes) : list bytes :=
  match l with
  | [] => [[]]
  | c :: l' =>
      match l' with
      | d :: l'' =>
          if bool_decide (c = CR) && bool_decide (d = LF) then [] :: split_crlf l''
          else match split_crlf l' with
               | p :: ps => (c :: p) :: ps
               | [] => [[c]]
               end
      | [] => [[c]]
      end
  end.

Definition dcrlf : bytes := crlf ++ crlf.

(** [trim_start_matches] of an ASCII character. *)
Fixpoint trim_start_matches (c : byte) (l : bytes) : bytes :=
  match l with
  | b :: l' => if bool_decide (b = c) then trim_start_matches c l' else l
  | [] => []
  end.

Definition starts_with (p l : bytes) : bool := bool_decide (take (length p) l = p).

(** ** ASCII case *)

Definition to_ascii_lowercase (c : byte) : byte :=
  if between 65 90 (b2z c) then z2b (b2z c + 32) else c.

Definition eq_ignore_ascii_case (a b : bytes) : bool :=
  bool_decide (to_ascii_lowercase <$> a = to_ascii_lowercase <$> b).

(** ** Parsing unsigned integers ([str::parse])

    An optional plus sign, then at least one digit; [None] when the value does not fit
    [w] bits. *)
Definition parse_uint (w : Z) (l : bytes) : option Z :=
  let l := match l with c :: l' => if bool_decide (c = z2b 43) then l' else l | [] => [] end in
  match read_digits 10 (2 ^ w - 1) None l 0 0 with
  | Some (n, count, []) => if count =? 0 then None else Some n
  | _ => None
  end.

(** ** Lemmas *)

(** Case analysis on a byte by its value. *)
Lemma byte_forall (P : byte → bool) : forallb P (z2b <$> seqZ 0 256) = true → ∀ b, P b = true.
Proof.
  rewrite forallb_elem. intros H b. apply H, list_elem_of_fmap. exists (b2z b).
  split; [by rewrite z2b_b2z|]. pose proof (b2z_bound b). apply elem_of_seqZ. lia.
Qed.

Lemma utf8_cont_between b : utf8_cont b = between 128 191 (b2z b).
Proof.
  apply eqb_prop, (byte_forall (λ b, Bool.eqb (utf8_cont b) (between 128 191 (b2z b)))).
  by vm_compute.
Qed.

Lemma between_spec lo hi z : between lo hi z = true ↔ (lo ≤ z ≤ hi)%Z.
Proof. unfold between. rewrite andb_true_iff, !Z.leb_le. lia. Qed.

Lemma between_false lo hi z : between lo hi z = false ↔ (z < lo ∨ hi < z)%Z.
Proof. rewrite <-not_true_iff_false, between_spec. lia. Qed.

(** Decide the tests of the decoder that the goal's hypotheses determine. *)
Ltac byte_tests :=
  repeat match goal with
  | H : between _ _ _ = true |- _ => apply between_spec in H
  | H : between _ _ _ = false |- _ => apply between_false in H
  end; bool_to_prop.

Lemma utf8_lossy_id l : utf8_valid l = true → from_utf8_lossy l = l.
Proof.
  remember (length l) as n eqn:Hn. revert l Hn.
  induction n as [n IH] using lt_wf_ind. intros l -> Hv.
  assert (Hrec : ∀ k, length k < length l → utf8_valid k = true → from_utf8_lossy k = k)
    by (intros; eapply IH; eauto).
  clear IH. destruct l as [|a l1]; [done|]. cbn [utf8_valid from_utf8_lossy] in *.
  destruct (b2z a <? 128)%Z; [rewrite Hrec; [done|cbn; lia|done]|].
  destruct l1 as [|b l2]; [done|]. destruct (between 194 223 (b2z a)).
  { apply andb_true_iff in Hv as [-> Hv]. rewrite Hrec; [done|cbn; lia|done]. }
  destruct l2 as [|c l3]; [done|]. destruct (between 224 239 (b2z a)) eqn:E3.
  { apply andb_true_iff in Hv as [[Hb Hc]%andb_true_iff Hv]. rewrite Hc.
    assert (second_ok a b = true) as ->.
    { unfold second_ok. rewrite utf8_cont_between in Hb. repeat case_match; try done; byte_tests; lia. }
    rewrite Hrec; [done|cbn; lia|done]. }
  destruct l3 as [|d l4]; [done|].
  apply andb_true_iff in Hv as [[[[H4 Hb]%andb_true_iff Hc]%andb_true_iff Hd]%andb_true_iff Hv].
  rewrite H4, Hc, Hd. assert (second_ok a b = true) as ->.
  { unfold second_ok. rewrite utf8_cont_between in Hb. repeat case_match; try done; byte_tests; lia. }
  rewrite Hrec; [done|cbn; lia|done].
Qed.

(** What the decoder returns is valid, so a [String] always holds valid UTF-8. *)
Lemma utf8_lossy_valid l : utf8_valid (from_utf8_lossy l) = true.
Proof.
  assert (Hr : ∀ k, utf8_valid k = true → utf8_valid (REPLACEMENT ++ k) = true) by done.
  remember (length l) as n eqn:Hn. revert l Hn.
  induction n as [n IH] using lt_wf_ind. intros l ->.
  assert (Hrec : ∀ k, length k < length l → utf8_valid (from_utf8_lossy k) = true)
    by (intros; eapply IH; eauto).
  clear IH. destruct l as [|a l1]; [done|]. cbn [from_utf8_lossy].
  destruct (b2z a <? 128)%Z eqn:E1.
  { cbn [utf8_valid]. rewrite E1. apply Hrec. cbn. lia. }
  assert (H1 : utf8_valid (REPLACEMENT ++ from_utf8_lossy l1) = true) by (apply Hr, Hrec; cbn; lia).
  destruct (between 194 223 (b2z a)) eqn:E2.
  { destruct l1 as [|b l2]; [done|]. destruct (utf8_cont b) eqn:Eb; [|done].
    cbn [utf8_valid]. rewrite E1, E2, Eb. apply Hrec. cbn. lia. }
  destruct (between 224 239 (b2z a)) eqn:E3.
  { destruct l1 as [|b l2]; [done|]. destruct (second_ok a b) eqn:Eb; [|done].
    destruct l2 as [|c l3]; [done|].
    destruct (utf8_cont c) eqn:Ec; [|apply Hr, Hrec; cbn; lia].
    cbn [utf8_valid]. rewrite E1, E2, E3, Ec, Hrec by (cbn; lia). rewrite !andb_true_r.
    unfold second_ok in Eb. rewrite utf8_cont_between.
    repeat case_match; try done; byte_tests; lia. }
  destruct (between 240 244 (b2z a)) eqn:E4; [|done].
  destruct l1 as [|b l2]; [done|]. destruct (second_ok a b) eqn:Eb; [|done].
  destruct l2 as [|c l3]; [done|].
  destruct (utf8_cont c) eqn:Ec; [|apply Hr, Hrec; cbn; lia].
  destruct l3 as [|d l4]; [done|].
  destruct (utf8_cont d) eqn:Ed; [|apply Hr, Hrec; cbn; lia].
  cbn [utf8_valid]. rewrite E1, E2, E3, E4, Ec, Ed, Hrec by (cbn; lia). rewrite !andb_true_r.
  unfold second_ok in Eb. rewrite utf8_cont_between.
  repeat case_match; try done; byte_tests; lia.
Qed.

Lemma utf8_ascii l : Forall (λ c, b2z c < 128)%Z l → utf8_valid l = true.
Proof.
  induction 1 as [|c l Hc _ IH]; [done|]. cbn [utf8_valid].
  apply Z.ltb_lt in Hc. by rewrite Hc.
Qed.

(** ** Tokens: words of visible ASCII characters *)

Definition token (c : byte) : Prop := (33 ≤ b2z c ≤ 126)%Z.

#[export] Instance token_dec c : Decision (token c).
Proof. unfold token. apply _. Defined.

Lemma token_ws c l : token c → ws_len (c :: l) = 0.
Proof.
  unfold token. intros Hc. unfold ws_len. cbn -[between].
  assert (between 9 13 (b2z c) = false) as -> by (apply between_false; lia).
  replace (b2z c =? 32)%Z with false by lia. cbn [orb].
  destruct l as [|b l]; [done|]. cbn -[between]. replace (b2z c =? 194)%Z with false by lia. cbn [andb].
  destruct l as [|d l]; [done|]. cbn -[between].
  replace (b2z c =? 225)%Z with false by lia. replace (b2z c =? 226)%Z with false by lia.
  replace (b2z c =? 227)%Z with false by lia. done.
Qed.

Lemma space_ws l : ws_len (z2b 32 :: l) = 1.
Proof. done. Qed.

Lemma words_token w l acc : Forall token w → words (w ++ l) 0 acc = words l 0 (reverse w ++ acc).
Proof.
  intros Hw. revert acc. induction Hw as [|c w Hc _ IH]; intros acc; [done|].
  cbn [app words]. rewrite token_ws, IH by done. by rewrite reverse_cons, <-(assoc_L (++)).
Qed.

(** A token followed by a space is the first word. *)
Lemma split_whitespace_token w l :
  Forall token w → w ≠ [] → split_whitespace (w ++ z2b 32 :: l) = w :: split_whitespace l.
Proof.
  intros Hw Hne. unfold split_whitespace. rewrite words_token, app_nil_r by done.
  cbn [words]. rewrite space_ws, reverse_involutive. rewrite bool_decide_eq_false_2; [done|].
  intros E. apply Hne. by rewrite <-(reverse_involutive w), E.
Qed.

Lemma trim_start_token w : Forall token w → trim_start w = w.
Proof.
  destruct 1 as [|c w Hc Hw]; [done|]. unfold trim_start. cbn [trim_start_from].
  by rewrite token_ws.
Qed.

Lemma trim_end_token w : Forall token w → trim_end w = w.
Proof.
  induction 1 as [|c w Hc Hw IH]; [done|]. cbn [trim_end].
  rewrite trim_start_token by (by constructor). by rewrite IH.
Qed.

Lemma trim_space_token w : Forall token w → trim (z2b 32 :: w) = w.
Proof.
  intros Hw. unfold trim, trim_start. cbn [trim_start_from]. rewrite space_ws.
  fold (trim_start w). by rewrite trim_start_token, trim_end_token.
Qed.

(** ** Lines *)

Lemma split_once_app sep k v :
  sep ∉ k → split_once sep (k ++ sep :: v) = Some (k, v).
Proof.
  induction k as [|c k IH]; intros Hs; cbn [app split_once]; [by rewrite bool_decide_eq_true_2|].
  apply not_elem_of_cons in Hs as [Hc Hs].
  by rewrite bool_decide_eq_false_2, IH by congruence.
Qed.

Lemma split_crlf_line l : CR ∉ l → split_crlf l = [l].
Proof.
  induction l as [|c l IH]; intros Hl; [done|]. apply not_elem_of_cons in Hl as [Hc Hl].
  cbn [split_crlf]. destruct l as [|d l]; [done|].
  rewrite bool_decide_eq_false_2 by congruence. cbn [andb]. by rewrite IH.
Qed.

Lemma split_crlf_app l k : CR ∉ l → split_crlf (l ++ crlf ++ k) = l :: split_crlf k.
Proof.
  induction l as [|c l IH]; intros Hl; [done|]. apply not_elem_of_cons in Hl as [Hc Hl].
  cbn [app split_crlf]. specialize (IH Hl).
  destruct (l ++ crlf ++ k) as [|d m] eqn:E; [by destruct l|].
  rewrite bool_decide_eq_false_2 by congruence. cbn [andb]. by rewrite IH.
Qed.

Lemma join_cons sep l ls : ls ≠ [] → join sep (l :: ls) = l ++ sep ++ join sep ls.
Proof. by destruct ls. Qed.

Lemma split_crlf_join ls :
  ls ≠ [] → Forall (λ l, CR ∉ l) ls → split_crlf (join crlf ls) = ls.
Proof.
  intros Hne Hls. induction Hls as [|l ls Hl Hls IH]; [done|].
  destruct ls as [|k ls]; [by apply split_crlf_line|].
  rewrite join_cons, split_crlf_app, IH by done. done.
Qed.

(** ** Numbers *)

Lemma from_digit_token d : (0 ≤ d < 10)%Z → token (from_digit d).
Proof.
  intros Hd. unfold token, from_digit. replace (d <? 10)%Z with true by lia.
  rewrite b2z_z2b_small; lia.
Qed.

Lemma digits_tokens fuel n : (0 ≤ n)%Z → Forall token (from_digit <$> digits 10 fuel n).
Proof.
  intros Hn. apply Forall_fmap. eapply Forall_impl; [apply (digits_range 10); lia|].
  intros d Hd. by apply from_digit_token.
Qed.

(** The decimal digits of a number parse back to it. *)
Lemma parse_uint_digits w fuel n :
  (0 ≤ w)%Z → in_u w n → (n < 10 ^ Z.of_nat fuel)%Z → 0 < fuel →
  parse_uint w (from_digit <$> digits 10 fuel n) = Some n.
Proof.
  unfold in_u. intros Hw Hn Hf Hfuel.
  pose proof (digits_range 10 fuel n ltac:(lia) ltac:(lia)) as Hr.
  pose proof (digits_horner 10 fuel n ltac:(lia) ltac:(lia)) as Hh.
  pose proof (digits_length 10 fuel fuel n ltac:(lia) ltac:(lia) Hfuel Hfuel) as Hl.
  revert Hr Hh Hl. generalize (digits 10 fuel n). intros ds Hr Hh Hl.
  unfold parse_uint. replace (match from_digit <$> ds with [] => [] | c :: l' =>
    if bool_decide (c = z2b 43) then l' else from_digit <$> ds end) with (from_digit <$> ds).
  2: { destruct ds as [|d ds]; [done|]. cbn. rewrite bool_decide_eq_false_2; [done|].
       intros E. apply Forall_cons in Hr as [Hd _]. apply (f_equal b2z) in E.
       unfold from_digit in E. replace (d <? 10)%Z with true in E by lia.
       rewrite !b2z_z2b_small in E by lia. lia. }
  pose proof (read_digits_spec (2 ^ w - 1) None ds [] 0 0 Hr) as Hs.
  rewrite app_nil_r in Hs. rewrite Hs; [|lia|lia|done|done]. rewrite Hh. cbn [Nat.add].
  destruct (Nat.eqb_spec (length ds) 0); [lia|done].
Qed.

(** ** Splitting a joined list *)

Lemma split_char_app sep l k : sep ∉ l → split_char sep (l ++ sep :: k) = l :: split_char sep k.
Proof.
  induction l as [|c l IH]; intros Hs; cbn [app split_char]; [by rewrite bool_decide_eq_true_2|].
  apply not_elem_of_cons in Hs as [Hc Hs]. by rewrite bool_decide_eq_false_2, IH by congruence.
Qed.

Lemma split_char_none sep l : sep ∉ l → split_char sep l = [l].
Proof.
  induction l as [|c l IH]; intros Hs; [done|]. cbn [split_char].
  apply not_elem_of_cons in Hs as [Hc Hs]. by rewrite bool_decide_eq_false_2, IH by congruence.
Qed.

Lemma split_char_join sep ls :
  ls ≠ [] → Forall (λ l, sep ∉ l) ls → split_char sep (join [sep] ls) = ls.
Proof.
  intros Hne. induction 1 as [|l ls Hl Hls IH]; [done|]. destruct ls as [|m ls].
  - by apply split_char_none.
  - rewrite join_cons by done. cbn [app]. by rewrite split_char_app, IH.
Qed.
