(* ===== verification/IdentityFile.v ===== *)
(** * The identity of a node across restarts ([save], [load_or_generate] of [src/crypto.rs])

    The two files involved are their contents: the JSON file at the path, and the file of 64
    raw bytes beside it (extension [bin]) that earlier versions wrote.  A write replaces the
    file, or fails before or after truncating it. *)

From S2P Require Import Prelude Bytes Types Proto Crypto Net.

(** [f_same]: the path itself ends in [bin], so there is no other file. *)
Record Files := mkFiles {
  f_json : option bytes;
  f_legacy : option bytes;
  f_same : bool;
}.

Inductive Write :=
  | Written
  | NotOpened
  | WrittenUpTo (n : nat).

(** [std::fs::write] *)
Definition fs_write (old : option bytes) (data : bytes) (w : Write) : option bytes * bool :=
  match w with
  | Written => (Some data, true)
  | NotOpened => (old, false)
  | WrittenUpTo n => (Some (take n data), false)
  end.

Section files.
Context `{Crypto}.

Definition save (i : Identity) (fs : Files) (w : Write) : Files * bool :=
  let '(json, ok) := fs_write (f_json fs) (Identity_to_json i) w in
  (mkFiles json (f_legacy fs) (f_same fs), ok).

(** [Self::from_json] of what [read_to_string] reads. *)
Definition from_file (fs : Files) : option Identity :=
  raw ← f_json fs; text ← from_utf8 raw; Identity_from_json text.

(** [Self::from_bytes] of the legacy file. *)
Definition from_legacy (fs : Files) : option Identity :=
  if f_same fs then None else raw ← f_legacy fs; arr ← to_arr 64 raw; Identity_from_bytes arr.

(** The draws of [generate] are arguments; no identity is its panic. *)
Definition load_or_generate (fs : Files) (seed : arr 32) (wg : StaticSecret) (w : Write)
    : option Identity * Files :=
  match from_file fs with
  | Some id => (Some id, fs)
  | None =>
      match from_legacy fs with
      | Some id => (Some id, (save id fs w).1)
      | None =>
          match Identity_generate seed wg with
          | Some id => (Some id, (save id fs w).1)
          | None => (None, fs)
          end
      end
  end.
End files.

Section restart.
Context `{CryptoLaws}.

(** [serde_json] prints UTF-8. *)
Hypothesis json_utf8 : ∀ f, utf8_valid (json_print f) = true.

(** The public half of the signing key belongs to the secret half. *)
Definition paired (i : Identity) : Prop := kp_public (signing i) = PublicKey_from (kp_secret (signing i)).

Lemma from_bytes_paired b i : Identity_from_bytes b = Some i → paired i.
Proof. unfold Identity_from_bytes. destruct (SecretKey_from_bytes _); [|done]. by intros [= <-]. Qed.

Lemma from_json_paired t i : Identity_from_json t = Some i → paired i.
Proof.
  unfold Identity_from_json. destruct (json_parse t); [|done]. cbn [mbind option_bind].
  destruct (hex_decode (if_ed25519_seed _)); [|done]. cbn [mbind option_bind]. destruct (hex_decode _); [|done]. cbn [mbind option_bind].
  destruct (_ || _); [done|]. apply from_bytes_paired.
Qed.

Lemma generate_paired seed wg i : Identity_generate seed wg = Some i → paired i.
Proof. unfold Identity_generate. destruct (SecretKey_from_bytes _); [|done]. by intros [= <-]. Qed.

Lemma paired_eq i : paired i → i = mkIdentity (mkKeypair (kp_secret (signing i)) (PublicKey_from (kp_secret (signing i)))) (wg_secret i).
Proof. unfold paired. destruct i as [[s p] w]. cbn. by intros ->. Qed.

Lemma from_file_saved fs i : paired i → from_file (save i fs Written).1 = Some i.
Proof.
  intros Hp. unfold from_file, save. cbn. unfold from_utf8, Identity_to_json at 1. rewrite json_utf8.
  cbn. rewrite (paired_eq i Hp). apply Identity_from_to_json.
Qed.

Lemma load_cases fs seed wg w i fs' :
  load_or_generate fs seed wg w = (Some i, fs') →
  paired i ∧ ((from_file fs = Some i ∧ fs' = fs) ∨ (from_file fs = None ∧ fs' = (save i fs w).1)).
Proof.
  unfold load_or_generate. destruct (from_file fs) as [j|] eqn:Ef.
  { intros [= <- <-]. split; [|by left]. unfold from_file in Ef. destruct (f_json fs); [|done].
    cbn in Ef. destruct (from_utf8 _); [|done]. by eapply from_json_paired. }
  destruct (from_legacy fs) as [j|] eqn:El.
  { intros [= <- <-]. split; [|by right]. unfold from_legacy in El. destruct (f_same fs); [done|].
    destruct (f_legacy fs); [|done]. cbn in El. destruct (to_arr 64 _); [|done]. by eapply from_bytes_paired. }
  destruct (Identity_generate seed wg) as [j|] eqn:Eg; [|done].
  intros [= <- <-]. split; [by eapply generate_paired|by right].
Qed.
End restart.

(** C29: a node keeps its identity.  When [load_or_generate] returns an identity and its
    write, if it makes one, succeeds, then every later start returns the same identity and
    leaves the files alone, whatever the random draws; also after the legacy file is gone.
    A legacy identity is kept when no write succeeds, as long as the path stays
    unreadable. *)
Theorem identity_restart `{CryptoLaws} (fs fs' : Files) (seed seed' : arr 32)
    (wg wg' : StaticSecret) (w w' : Write) (i : Identity) :
  (∀ f, utf8_valid (json_print f) = true) →
  load_or_generate fs seed wg w = (Some i, fs') →
  (w = Written →
     load_or_generate fs' seed' wg' w' = (Some i, fs') ∧
     ∀ legacy, (load_or_generate (mkFiles (f_json fs') legacy (f_same fs')) seed' wg' w').1 = Some i) ∧
  (from_legacy fs = Some i → from_file fs' = None →
     (load_or_generate fs' seed' wg' w').1 = Some i).
Proof.
  intros Hutf Hload. pose proof (load_cases fs seed wg w i fs' Hload) as [Hp Hcase]. split.
  - intros ->.
    assert (Hf : from_file fs' = Some i).
    { destruct Hcase as [[Hf ->]|[_ ->]]; [done|]. by apply from_file_saved. }
    unfold load_or_generate. rewrite Hf. split; [done|]. intros legacy.
    change (from_file (mkFiles (f_json fs') legacy (f_same fs'))) with (from_file fs'). by rewrite Hf.
  - intros Hl Hf. unfold load_or_generate. rewrite Hf.
    assert (from_legacy fs' = Some i) as ->; [|done].
    destruct Hcase as [[_ ->]|[_ ->]]; [done|]. unfold save. by destruct (fs_write _ _ _).
Qed.

(** What [load_or_generate] makes of an identity file that is there but does not parse: it
    is overwritten with a new identity. *)
Lemma corrupt_identity_replaced `{CryptoLaws} (raw : bytes) (seed : arr 32) (wg : StaticSecret) (i : Identity) :
  from_file (mkFiles (Some raw) None false) = None → Identity_generate seed wg = Some i →
  load_or_generate (mkFiles (Some raw) None false) seed wg Written =
    (Some i, mkFiles (Some (Identity_to_json i)) None false).
Proof. intros Hf Hg. unfold load_or_generate. by rewrite Hf, Hg. Qed.

(** ** A concrete file *)

(** Two letters for a byte. *)
Definition spell (b : byte) : bytes := [z2b (97 + b2z b / 16); z2b (97 + b2z b mod 16)].

Fixpoint unspell (l : bytes) : option bytes :=
  match l with
  | [] => Some []
  | [_] => None
  | a :: b :: l => cons (z2b ((b2z a - 97) * 16 + (b2z b - 97))) <$> unspell l
  end.

Lemma byte_halves b :
  b2z b = (16 * (b2z b / 16) + b2z b mod 16)%Z ∧ (0 ≤ b2z b mod 16 < 16)%Z ∧ (0 ≤ b2z b / 16 < 16)%Z.
Proof.
  pose proof (b2z_bound b). pose proof (Z.div_mod (b2z b) 16). pose proof (Z.mod_pos_bound (b2z b) 16). lia.
Qed.

Lemma unspell_spell l : unspell (l ≫= spell) = Some l.
Proof.
  induction l as [|b l IH]; [done|]. cbn [mbind list_bind app spell unspell]. fold (l ≫= spell).
  cbn -[b2z z2b Z.div Z.modulo]. rewrite IH. pose proof (byte_halves b).
  rewrite !b2z_z2b_small by lia. cbn -[b2z z2b Z.div Z.modulo]. f_equal. f_equal.
  rewrite <-(z2b_b2z b) at 3. f_equal. lia.
Qed.

Lemma spell_utf8 l : utf8_valid (l ≫= spell) = true.
Proof.
  assert (ascii_text (l ≫= spell)) as Ha.
  { induction l as [|b l IH]; [constructor|]. pose proof (byte_halves b).
    repeat constructor; [rewrite b2z_z2b_small; lia..|exact IH]. }
  apply ascii_utf8 in Ha. unfold from_utf8 in Ha. by destruct (utf8_valid _).
Qed.

#[local] Existing Instance toy_crypto.

(** The concrete instance of [Crypto], with files that are text. *)
#[local] Instance text_crypto : Crypto := {|
  blake3_hash := blake3_hash;
  SecretKey := SecretKey;
  SecretKey_from_bytes := SecretKey_from_bytes;
  SecretKey_as_bytes := SecretKey_as_bytes;
  PublicKey_from := PublicKey_from;
  PublicKey_ok := PublicKey_ok;
  Signature_from_bytes := Signature_from_bytes;
  ed_sign := ed_sign;
  ed_verify := ed_verify;
  StaticSecret := StaticSecret;
  StaticSecret_from := StaticSecret_from;
  StaticSecret_as_bytes := StaticSecret_as_bytes;
  X25519Public_from := X25519Public_from;
  hex_encode := hex_encode;
  hex_decode := hex_decode;
  json_print f := enc f ≫= spell;
  json_parse b := unspell b ≫= dec_all;
|}.

#[local] Instance text_crypto_laws : @CryptoLaws text_crypto.
Proof.
  split; intros; try apply toy_crypto_laws. cbn. rewrite unspell_spell. exact (dec_all_enc _).
Qed.

(** A legacy file, then no files needed but the new one. *)
Lemma identity_restart_witness :
  let i := @mkIdentity text_crypto
             (mkKeypair (arr_repeat (z2b 7) 32) (PublicKey_from (arr_repeat (z2b 7) 32)))
             (arr_repeat (z2b 9) 32) in
  let fs := mkFiles None (Some (Identity_to_bytes i)) false in
  let zero := arr_repeat (z2b 0) 32 in
  let fs' := (load_or_generate fs zero zero Written).2 in
  f_json fs' ≠ None ∧ (load_or_generate (mkFiles (f_json fs') None false) zero zero NotOpened).1 = Some i.
Proof.
  intros i fs zero fs'. split; [vm_compute; discriminate|].
  destruct (identity_restart (H := text_crypto) fs fs' zero zero zero zero Written NotOpened i) as [Hr _].
  - intros f. apply spell_utf8.
  - reflexivity.
  - destruct (Hr eq_refl) as [_ Hl]. exact (Hl None).
Defined.
