(* ===== verification/Peerstore.v ===== *)
(** * Peer index and write-ahead log ([src/peerstore.rs])

    A shard directory holds [snapshot.bin] and [wal.log], both sequences of frames
    (length, type, payload, CRC).  The directory is part of the state: [Dir] holds the
    contents of its files and the number of bytes the device still accepts, so that a
    failed or torn write is an ordinary outcome.  The CRC is the [crc32fast] crate's
    and a parameter; no theorem depends on its error detection. *)

From S2P Require Import Prelude Bytes Types Codec Net.

Class Crc32 := {
  crc32 : bytes → Z;
  crc32_range b : in_u 32 (crc32 b);
}.

Definition TYPE_UPSERT : byte := z2b 1.
Definition TYPE_TOMBSTONE : byte := z2b 2.
Definition TYPE_RECORD : byte := z2b 3.

Record WalRecord := mkWalRecord { wr_ty : byte; wr_payload : bytes }.

(** The files of [shard-<id>/], and the room left on the device. *)
Record Dir := mkDir {
  snapshot_bin : option bytes;
  wal_log : option bytes;
  compaction_tmp : option bytes;
  room : nat;
}.

Definition empty_dir (room : nat) : Dir := mkDir None None None room.

(** [dir] is [None] for [PathBuf::new()]; [wal] says whether [wal.log] is open. *)
Record Peerstore := mkPeerstore {
  ps_dir : bool;
  ps_peers : gmap NodeId PeerInfo;
  ps_pending : list WalRecord;
  ps_wal : bool;
}.

Section peerstore.
Context `{Crc32}.

(** ** Frames *)

(** [write_all] on a file: everything, or what fits and an error. *)
Definition write_all (w : bytes * nat) (data : bytes) : (bytes * nat) * bool :=
  let '(file, room) := w in
  if length data <=? room then ((file ++ data, room - length data), true)
  else ((file ++ take room data, 0), false).

(** [write_frame]: four writes, the first error returned. *)
Definition write_frame (w : bytes * nat) (ty : byte) (payload : bytes) : (bytes * nat) * bool :=
  let crc := crc32 payload in
  let '(w, ok) := write_all w (le_bytes 4 (wrap 32 (Z.of_nat (length payload)))) in
  if negb ok then (w, false) else
  let '(w, ok) := write_all w [ty] in
  if negb ok then (w, false) else
  let '(w, ok) := write_all w payload in
  if negb ok then (w, false) else
  write_all w (le_bytes 4 crc).

(** One turn of the read loop of [replay] and of [Store::replay_wal]: type, payload and
    the rest of the file, or [None] where the loop breaks. *)
Definition next_frame (f : bytes) : option (byte * bytes * bytes) :=
  if length f <? 5 then None else
  let len := le_val (slice f 0 4) in
  let ty := index f 4 in
  let f := drop 5 f in
  if (Z.of_nat (length f) <? len)%Z then None else
  let payload := take (Z.to_nat len) f in
  let f := drop (Z.to_nat len) f in
  if length f <? 4 then None else
  let crc := le_val (take 4 f) in
  if negb (crc32 payload =? crc)%Z then None else
  Some (ty, payload, drop 4 f).

(** The frames the loop reads.  Each turn consumes at least nine bytes, so the length of
    the file is enough fuel ([frames_fuel]). *)
Fixpoint read_frames (fuel : nat) (f : bytes) : list (byte * bytes) :=
  match fuel with
  | O => []
  | S fuel =>
      match next_frame f with
      | None => []
      | Some (ty, payload, rest) => (ty, payload) :: read_frames fuel rest
      end
  end.

Definition frames (f : bytes) : list (byte * bytes) := read_frames (length f) f.

(** ** Peer rows *)

(** The [match ty] of [replay]. *)
Definition replay_frame (peers : gmap NodeId PeerInfo) (fr : byte * bytes) : gmap NodeId PeerInfo :=
  let '(ty, payload) := fr in
  if bool_decide (ty = TYPE_UPSERT) && (32 <=? length payload) then
    let id := mkNodeId (list_to_arr 32 (take 32 payload)) in
    let addr_s := default [] (from_utf8 (drop 32 payload)) in
    match addr_parse addr_s with
    | Some addr => <[id := PeerInfo_new id addr]> peers
    | None => peers
    end
  else if bool_decide (ty = TYPE_TOMBSTONE) && (length payload =? 32) then
    delete (mkNodeId (list_to_arr 32 payload)) peers
  else peers.

Definition replay (peers : gmap NodeId PeerInfo) (file : bytes) : gmap NodeId PeerInfo :=
  foldl replay_frame peers (frames file).

Definition recover (d : Dir) (peers : gmap NodeId PeerInfo) : gmap NodeId PeerInfo :=
  let peers := match snapshot_bin d with Some f => replay peers f | None => peers end in
  match wal_log d with Some f => replay peers f | None => peers end.

(** ** Operations *)

(** [open] creates [wal.log] when it is missing and leaves its contents otherwise. *)
Definition Peerstore_open (d : Dir) : Peerstore * Dir :=
  ({| ps_dir := true; ps_peers := recover d ∅; ps_pending := []; ps_wal := true |},
   {| snapshot_bin := snapshot_bin d;
      wal_log := Some (default [] (wal_log d));
      compaction_tmp := compaction_tmp d; room := room d |}).

Definition Peerstore_memory : Peerstore :=
  {| ps_dir := false; ps_peers := ∅; ps_pending := []; ps_wal := false |}.

Definition upsert_payload (info : PeerInfo) : bytes :=
  let payload := vec_to_list (nid (pi_id info)) in
  match primary_addr info with
  | Some addr => payload ++ addr_to_string addr
  | None => payload
  end.

Definition Peerstore_append (s : Peerstore) (ty : byte) (payload : bytes) : Peerstore :=
  {| ps_dir := ps_dir s; ps_peers := ps_peers s;
     ps_pending := ps_pending s ++ [mkWalRecord ty payload]; ps_wal := ps_wal s |}.

Definition Peerstore_upsert (s : Peerstore) (info : PeerInfo) : Peerstore :=
  Peerstore_append
    {| ps_dir := ps_dir s; ps_peers := <[pi_id info := info]> (ps_peers s);
       ps_pending := ps_pending s; ps_wal := ps_wal s |}
    TYPE_UPSERT (upsert_payload info).

Definition Peerstore_remove (s : Peerstore) (id : NodeId) : Peerstore :=
  Peerstore_append
    {| ps_dir := ps_dir s; ps_peers := delete id (ps_peers s);
       ps_pending := ps_pending s; ps_wal := ps_wal s |}
    TYPE_TOMBSTONE (vec_to_list (nid id)).

Definition Peerstore_get (s : Peerstore) (id : NodeId) : option PeerInfo := ps_peers s !! id.

(** [for rec in self.pending.drain(..) { write_frame(..)? }] *)
Fixpoint write_frames (w : bytes * nat) (recs : list WalRecord) : (bytes * nat) * bool :=
  match recs with
  | [] => (w, true)
  | r :: recs =>
      let '(w, ok) := write_frame w (wr_ty r) (wr_payload r) in
      if negb ok then (w, false) else write_frames w recs
  end.

(** An error drops the rest of the drained batch. *)
Definition Peerstore_flush (s : Peerstore) (d : Dir) : Peerstore * Dir * bool :=
  let s' := {| ps_dir := ps_dir s; ps_peers := ps_peers s; ps_pending := []; ps_wal := ps_wal s |} in
  if negb (ps_wal s) then (s', d, true)
  else
    let '((wal, room), ok) := write_frames (default [] (wal_log d), room d) (ps_pending s) in
    (s', {| snapshot_bin := snapshot_bin d; wal_log := Some wal;
            compaction_tmp := compaction_tmp d; room := room |}, ok).

(** [values] is the order in which [self.peers.values()] yields the map's values. *)
Definition compact_with_records (s : Peerstore) (d : Dir) (values : list PeerInfo)
    (records : list bytes) : Peerstore * Dir * bool :=
  if negb (ps_dir s) then (s, d, true)
  else
    let rows := ((λ p, mkWalRecord TYPE_UPSERT (upsert_payload p)) <$> values) ++
                (mkWalRecord TYPE_RECORD <$> records) in
    let '((tmp, room), ok) := write_frames ([], room d) rows in
    if negb ok then
      (s, {| snapshot_bin := snapshot_bin d; wal_log := wal_log d;
             compaction_tmp := Some tmp; room := room |}, false)
    else
      ({| ps_dir := ps_dir s; ps_peers := ps_peers s; ps_pending := ps_pending s; ps_wal := true |},
       {| snapshot_bin := Some tmp; wal_log := Some []; compaction_tmp := None; room := room |},
       true).

Definition compact (s : Peerstore) (d : Dir) (values : list PeerInfo) : Peerstore * Dir * bool :=
  compact_with_records s d values [].

(** ** What the files contain *)

Definition frame_bytes (r : WalRecord) : bytes :=
  le_bytes 4 (wrap 32 (Z.of_nat (length (wr_payload r)))) ++ [wr_ty r] ++ wr_payload r ++
  le_bytes 4 (crc32 (wr_payload r)).

Definition wal_bytes (rs : list WalRecord) : bytes := mjoin (frame_bytes <$> rs).

Definition frame_of (r : WalRecord) : byte * bytes := (wr_ty r, wr_payload r).

(** The payload's length fits the 32-bit length field. *)
Definition fits (r : WalRecord) : Prop := (Z.of_nat (length (wr_payload r)) < 2 ^ 32)%Z.

Lemma wal_bytes_app rs rs' : wal_bytes (rs ++ rs') = wal_bytes rs ++ wal_bytes rs'.
Proof. unfold wal_bytes. by rewrite fmap_app, join_app. Qed.

Lemma write_all_seq w a b :
  (let '(w', ok) := write_all w a in if negb ok then (w', false) else write_all w' b) =
  write_all w (a ++ b).
Proof.
  destruct w as [file n]. simpl. rewrite length_app.
  destruct (Nat.leb_spec (length a) n); simpl.
  - destruct (Nat.leb_spec (length b) (n - length a)), (Nat.leb_spec (length a + length b) n);
      try lia; rewrite <-(assoc_L (++)); [do 2 f_equal; lia|].
    by rewrite take_app_ge by done.
  - destruct (Nat.leb_spec (length a + length b) n); [lia|]. by rewrite take_app_le by lia.
Qed.

Lemma write_frame_all w r : write_frame w (wr_ty r) (wr_payload r) = write_all w (frame_bytes r).
Proof.
  unfold frame_bytes. rewrite <-write_all_seq. unfold write_frame.
  destruct (write_all w _) as [w1 [|]]; cbn [negb]; [|done]. rewrite <-write_all_seq.
  destruct (write_all w1 _) as [w2 [|]]; cbn [negb]; [|done]. by rewrite <-write_all_seq.
Qed.

(** The drain loop writes what one [write_all] of the whole batch would. *)
Lemma write_frames_all w rs : write_frames w rs = write_all w (wal_bytes rs).
Proof.
  revert w. induction rs as [|r rs IH]; intros w; cbn [write_frames].
  - destruct w as [file n]. unfold wal_bytes. simpl. by rewrite app_nil_r, Nat.sub_0_r.
  - change (wal_bytes (r :: rs)) with (frame_bytes r ++ wal_bytes rs).
    rewrite <-write_all_seq, write_frame_all. destruct (write_all w _) as [w1 [|]]; cbn [negb]; [|done].
    apply IH.
Qed.

Lemma frame_bytes_length r : length (frame_bytes r) = 9 + length (wr_payload r).
Proof. unfold frame_bytes. rewrite !length_app, !le_bytes_length. simpl. lia. Qed.

Lemma next_frame_frame r rest :
  fits r → next_frame (frame_bytes r ++ rest) = Some (wr_ty r, wr_payload r, rest).
Proof.
  intros Hfit. unfold fits in Hfit. unfold next_frame.
  rewrite length_app, frame_bytes_length.
  destruct (Nat.ltb_spec (9 + length (wr_payload r) + length rest) 5); [lia|].
  set (p := wr_payload r) in *. set (len := le_bytes 4 (wrap 32 (Z.of_nat (length p)))).
  replace (frame_bytes r ++ rest) with (len ++ wr_ty r :: p ++ le_bytes 4 (crc32 p) ++ rest)
    by (unfold frame_bytes; rewrite <-!(assoc_L (++)); done).
  assert (Hlen : length len = 4) by apply le_bytes_length.
  replace (le_val (slice _ 0 4)) with (Z.of_nat (length p)).
  2:{ unfold slice. rewrite drop_0, take_app_length' by done.
      unfold len. rewrite le_val_le_bytes. change (256 ^ Z.of_nat 4)%Z with (2 ^ 32)%Z.
      unfold wrap. by rewrite Zmod_mod, Z.mod_small by lia. }
  replace (index _ 4) with (wr_ty r)
    by (unfold index; rewrite app_nth2 by lia; by rewrite Hlen).
  replace (drop 5 _) with (p ++ le_bytes 4 (crc32 p) ++ rest)
    by (by rewrite (cons_middle (wr_ty r)), (assoc_L (++) len), drop_app_length'
          by (rewrite length_app, Hlen; done)).
  destruct (Z.ltb_spec (Z.of_nat (length (p ++ le_bytes 4 (crc32 p) ++ rest))) (Z.of_nat (length p)))
    as [Hlt|_]; [rewrite length_app in Hlt; lia|]. rewrite Nat2Z.id.
  rewrite take_app_length, drop_app_length, length_app, le_bytes_length. simpl (4 + _ <? 4).
  rewrite take_app_length', drop_app_length' by (by rewrite le_bytes_length).
  rewrite le_val_le_bytes, Z.mod_small by apply crc32_range. by rewrite Z.eqb_refl.
Qed.

Lemma next_frame_short f ty p rest :
  next_frame f = Some (ty, p, rest) → length f = 9 + length p + length rest ∧
    (Z.of_nat (length p) = le_val (slice f 0 4)).
Proof.
  unfold next_frame. intros Hf.
  destruct (Nat.ltb_spec (length f) 5); [done|].
  destruct (Z.ltb_spec (Z.of_nat (length (drop 5 f))) (le_val (slice f 0 4))); [done|].
  pose proof (le_val_bound (slice f 0 4)).
  destruct (Nat.ltb_spec (length (drop (Z.to_nat (le_val (slice f 0 4))) (drop 5 f))) 4); [done|].
  destruct (negb _); [done|]. injection Hf as <- <- <-.
  rewrite length_take, !length_drop in *. lia.
Qed.

(** A frame of which the end is missing stops the loop. *)
Lemma next_frame_torn r k :
  fits r → k < length (frame_bytes r) → next_frame (take k (frame_bytes r)) = None.
Proof.
  intros Hfit Hk. destruct (next_frame _) as [[[ty p] rest]|] eqn:Hn; [|done].
  pose proof (next_frame_short _ _ _ _ Hn) as [Hl Hp].
  rewrite length_take, frame_bytes_length in Hl. rewrite frame_bytes_length in Hk.
  assert (Hs : slice (take k (frame_bytes r)) 0 4 = slice (frame_bytes r) 0 4).
  { unfold slice. rewrite !drop_0, take_take. f_equal. lia. }
  pose proof (next_frame_frame r [] Hfit) as Hr. rewrite app_nil_r in Hr.
  apply next_frame_short in Hr as [_ Hr]. rewrite Hs, <-Hr in Hp. lia.
Qed.

Lemma read_frames_fuel fuel fuel' f :
  length f ≤ fuel → length f ≤ fuel' → read_frames fuel f = read_frames fuel' f.
Proof.
  assert (Hnil : next_frame [] = None) by done.
  revert fuel' f. induction fuel as [|fuel IH]; intros fuel' f Hf Hf'.
  { destruct f; [|simpl in Hf; lia]. destruct fuel'; [done|]. cbn [read_frames]. by rewrite Hnil. }
  destruct fuel' as [|fuel'].
  { destruct f; [|simpl in Hf'; lia]. cbn [read_frames]. by rewrite Hnil. }
  cbn [read_frames]. destruct (next_frame f) as [[[ty p] rest]|] eqn:Hn; [|done].
  apply next_frame_short in Hn as [Hl _]. f_equal. apply IH; lia.
Qed.

(** The fuel of [frames] is enough: any larger amount reads the same frames. *)
Lemma frames_fuel fuel f : length f ≤ fuel → read_frames fuel f = frames f.
Proof. intros. by apply read_frames_fuel. Qed.

Lemma frames_unfold f :
  frames f = match next_frame f with
             | Some (ty, p, rest) => (ty, p) :: frames rest
             | None => []
             end.
Proof.
  unfold frames at 1. destruct (length f) as [|n] eqn:Hlen.
  { destruct f; [done|discriminate]. }
  cbn [read_frames]. destruct (next_frame f) as [[[ty p] rest]|] eqn:Hn; [|done].
  apply next_frame_short in Hn as [Hl _]. f_equal. apply frames_fuel. lia.
Qed.

Lemma frames_wal rs tail :
  Forall fits rs → frames (wal_bytes rs ++ tail) = (frame_of <$> rs) ++ frames tail.
Proof.
  induction 1 as [|r rs Hr Hrs IH]; [done|].
  change (wal_bytes (r :: rs)) with (frame_bytes r ++ wal_bytes rs).
  rewrite <-(assoc_L (++)), frames_unfold, next_frame_frame by done. by rewrite IH.
Qed.

Lemma frames_wal' rs : Forall fits rs → frames (wal_bytes rs) = frame_of <$> rs.
Proof.
  intros Hrs. pose proof (frames_wal rs [] Hrs) as Hw. by rewrite !app_nil_r in Hw.
Qed.

(** The number of frames of [rs] that lie wholly in the first [k] bytes. *)
Fixpoint complete (k : nat) (rs : list WalRecord) : nat :=
  match rs with
  | [] => 0
  | r :: rs => if length (frame_bytes r) <=? k then S (complete (k - length (frame_bytes r)) rs) else 0
  end.

(** Any cut of the log reads as the records wholly before the cut. *)
Lemma frames_cut rs k :
  Forall fits rs → frames (take k (wal_bytes rs)) = frame_of <$> take (complete k rs) rs.
Proof.
  intros Hrs. revert k. induction Hrs as [|r rs Hr Hrs IH]; intros k.
  { unfold wal_bytes. simpl. by rewrite take_nil. }
  change (wal_bytes (r :: rs)) with (frame_bytes r ++ wal_bytes rs). cbn [complete].
  destruct (Nat.leb_spec (length (frame_bytes r)) k).
  - rewrite take_app_ge, frames_unfold, next_frame_frame by done. cbn [take fmap list_fmap].
    by rewrite IH.
  - rewrite take_app_le, frames_unfold, next_frame_torn by (done || lia). done.
Qed.

Lemma complete_all rs k : length (wal_bytes rs) ≤ k → complete k rs = length rs.
Proof.
  revert k. induction rs as [|r rs IH]; intros k; [done|].
  change (wal_bytes (r :: rs)) with (frame_bytes r ++ wal_bytes rs).
  rewrite length_app. intros. cbn [complete length].
  destruct (Nat.leb_spec (length (frame_bytes r)) k); [|lia]. rewrite IH; lia.
Qed.

(** ** Rows *)

(** What the log keeps of a peer: its id and its first address. *)
Definition row_image (p : PeerInfo) : PeerInfo :=
  match primary_addr p with
  | Some a => PeerInfo_new (pi_id p) a
  | None => p
  end.

Definition row_ok (p : PeerInfo) : Prop :=
  ∃ a, primary_addr p = Some a ∧ addr_text_ok a = true.

Lemma replay_upsert m p :
  row_ok p → replay_frame m (TYPE_UPSERT, upsert_payload p) = <[pi_id p := row_image p]> m.
Proof.
  intros (a & Ha & [Hu Hp]%addr_text_ok_spec). unfold replay_frame, upsert_payload, row_image.
  rewrite Ha, bool_decide_eq_true_2 by done. rewrite length_app, length_vec_to_list.
  cbn [andb Nat.add Nat.leb].
  rewrite take_app_length', drop_app_length' by (by rewrite length_vec_to_list).
  rewrite Hu. cbn [from_option id]. rewrite Hp. unfold list_to_arr. rewrite to_arr_list. cbn [from_option id].
  by destruct (pi_id p).
Qed.

Lemma replay_tombstone m id :
  replay_frame m (TYPE_TOMBSTONE, vec_to_list (nid id)) = delete id m.
Proof.
  unfold replay_frame. rewrite bool_decide_eq_false_2 by done. cbn [andb].
  rewrite bool_decide_eq_true_2, length_vec_to_list by done. cbn [andb Nat.eqb].
  unfold list_to_arr. rewrite to_arr_list. by destruct id.
Qed.

Lemma replay_other m ty p :
  ty ≠ TYPE_UPSERT → ty ≠ TYPE_TOMBSTONE → replay_frame m (ty, p) = m.
Proof. intros. unfold replay_frame. by rewrite !bool_decide_eq_false_2. Qed.

(** A frame either leaves every map alone or overwrites one fixed entry of it. *)
Lemma replay_frame_alter fr :
  (∀ m, replay_frame m fr = m) ∨
  (∃ id ov, ∀ m, replay_frame m fr = partial_alter (λ _, ov) id m).
Proof.
  destruct fr as [ty p]. unfold replay_frame.
  destruct (_ && _); [destruct (addr_parse _) as [a|]|destruct (_ && _)]; [right|left|right|left];
    try done; eexists _, _; done.
Qed.

Lemma replay_frames_lookup frs id :
  (∃ ov, ∀ m, foldl replay_frame m frs !! id = ov) ∨
  (∀ m, foldl replay_frame m frs !! id = m !! id).
Proof.
  induction frs as [|fr frs IH] using rev_ind; [by right|].
  setoid_rewrite foldl_app. cbn [foldl].
  destruct (replay_frame_alter fr) as [Hid|(i & ov & Ho)]; [by setoid_rewrite Hid|].
  setoid_rewrite Ho. destruct (decide (i = id)) as [->|Hne].
  - left. exists ov. intros m. by rewrite lookup_partial_alter_eq.
  - destruct IH as [[o IH]|IH]; [left; exists o|right]; intros m;
      by rewrite lookup_partial_alter_ne by done.
Qed.

(** Replaying a suffix of the history again changes nothing. *)
Lemma replay_idempotent m frs x :
  foldl replay_frame m frs = x → foldl replay_frame x frs = x.
Proof.
  intros <-. apply map_eq. intros id.
  destruct (replay_frames_lookup frs id) as [[ov Ho]|Hm]; by rewrite ?Ho, ?Hm.
Qed.

(** ** The log and the map agree *)

Definition keyed (peers : gmap NodeId PeerInfo) : Prop :=
  map_Forall (λ id p, pi_id p = id ∧ row_ok p) peers.

(** The directory, with the pending batch on top of it, holds the rows of the map. *)
Record ps_inv (s : Peerstore) (d : Dir) : Prop := {
  inv_dir : ps_dir s = true;
  inv_wal : ps_wal s = true;
  inv_log : ∃ ws, wal_log d = Some (wal_bytes ws) ∧ Forall fits ws;
  inv_fits : Forall fits (ps_pending s);
  inv_keyed : keyed (ps_peers s);
  inv_rows : foldl replay_frame (recover d ∅) (frame_of <$> ps_pending s) = row_image <$> ps_peers s;
}.

(** What the shard does with its peer store, each write successful. *)
Inductive ps_step : Peerstore * Dir → Peerstore * Dir → Prop :=
  | step_upsert s d p :
      row_ok p → fits (mkWalRecord TYPE_UPSERT (upsert_payload p)) →
      ps_step (s, d) (Peerstore_upsert s p, d)
  | step_remove s d id : ps_step (s, d) (Peerstore_remove s id, d)
  | step_append s d payload :
      fits (mkWalRecord TYPE_RECORD payload) →
      ps_step (s, d) (Peerstore_append s TYPE_RECORD payload, d)
  | step_flush s d s' d' :
      Peerstore_flush s d = (s', d', true) → ps_step (s, d) (s', d')
  | step_compact s d values records s' d' :
      values ≡ₚ (map_to_list (ps_peers s)).*2 → Forall (fits ∘ mkWalRecord TYPE_RECORD) records →
      Forall (λ p, fits (mkWalRecord TYPE_UPSERT (upsert_payload p))) values →
      compact_with_records s d values records = (s', d', true) → ps_step (s, d) (s', d')
  | step_reopen s d : ps_pending s = [] → ps_step (s, d) (Peerstore_open d).

Lemma recover_wal d peers ws ws' :
  wal_log d = Some (wal_bytes ws) → Forall fits ws → Forall fits ws' →
  recover {| snapshot_bin := snapshot_bin d; wal_log := Some (wal_bytes (ws ++ ws'));
             compaction_tmp := compaction_tmp d; room := peers |} ∅ =
  foldl replay_frame (recover d ∅) (frame_of <$> ws').
Proof.
  intros Hw Hf Hf'. unfold recover. cbn [snapshot_bin wal_log]. rewrite Hw. unfold replay at 1 3.
  rewrite !frames_wal', fmap_app by (try apply Forall_app; done). by rewrite foldl_app.
Qed.

Lemma flush_ok s d ws s' d' :
  ps_wal s = true → wal_log d = Some (wal_bytes ws) → Peerstore_flush s d = (s', d', true) →
  s' = {| ps_dir := ps_dir s; ps_peers := ps_peers s; ps_pending := []; ps_wal := ps_wal s |} ∧
  ∃ n, d' = {| snapshot_bin := snapshot_bin d; wal_log := Some (wal_bytes (ws ++ ps_pending s));
               compaction_tmp := compaction_tmp d; room := n |}.
Proof.
  intros Hwal Hd. unfold Peerstore_flush. rewrite Hwal, Hd, write_frames_all. cbn [negb from_option id].
  unfold write_all. rewrite <-wal_bytes_app.
  destruct (_ <=? _); intros [= <- <-]. eauto.
Qed.

Lemma flush_pair s d :
  (Peerstore_flush s d).2 = true →
  Peerstore_flush s d = ((Peerstore_flush s d).1.1, (Peerstore_flush s d).1.2, true).
Proof. by destruct (Peerstore_flush s d) as [[??]?]; intros [= ->]. Qed.

Lemma replay_rows m values :
  Forall row_ok values → NoDup (pi_id <$> values) →
  ∀ id, foldl replay_frame m
          (frame_of <$> ((λ p, mkWalRecord TYPE_UPSERT (upsert_payload p)) <$> values)) !! id =
        match list_find (λ p, pi_id p = id) values with
        | Some (_, p) => Some (row_image p)
        | None => m !! id
        end.
Proof.
  intros Hok. revert m. induction Hok as [|p values Hp Hok IH]; intros m Hnd id; [done|].
  apply NoDup_cons in Hnd as [Hnotin Hnd]. cbn [fmap list_fmap foldl].
  change (frame_of (mkWalRecord ?t ?q)) with (t, q). rewrite replay_upsert by done.
  change (list_fmap ?f ?l) with (f <$> l). rewrite IH by done. cbn [list_find].
  destruct (decide (pi_id p = id)) as [<-|Hne].
  - destruct (list_find _ values) as [[i q]|] eqn:Hf; [|by rewrite lookup_insert_eq].
    apply list_find_Some in Hf as (Hi & Hq & _). destruct Hnotin.
    rewrite <-Hq. apply list_elem_of_fmap_2, list_elem_of_lookup. eauto.
  - rewrite lookup_insert_ne by done. by destruct (list_find _ values) as [[i q]|].
Qed.

Lemma replay_records m (records : list bytes) :
  foldl replay_frame m (frame_of <$> (mkWalRecord TYPE_RECORD <$> records)) = m.
Proof.
  induction records as [|r records IH]; [done|]. cbn [fmap list_fmap foldl].
  change (frame_of (mkWalRecord ?t ?q)) with (t, q). by rewrite replay_other.
Qed.

Lemma snapshot_rows peers values records :
  keyed peers → values ≡ₚ (map_to_list peers).*2 →
  foldl replay_frame ∅ (frame_of <$>
    (((λ p, mkWalRecord TYPE_UPSERT (upsert_payload p)) <$> values) ++
     (mkWalRecord TYPE_RECORD <$> records))) = row_image <$> peers.
Proof.
  intros Hk Hv. rewrite fmap_app, foldl_app, replay_records.
  assert (Hin : ∀ p, p ∈ values ↔ peers !! pi_id p = Some p).
  { intros p. rewrite Hv, list_elem_of_fmap. split.
    - intros ([id q] & -> & Hq%elem_of_map_to_list). simpl.
      by destruct (Hk _ _ Hq) as [-> _].
    - intros Hp. exists (pi_id p, p). split; [done|by apply elem_of_map_to_list]. }
  apply map_eq. intros id. rewrite replay_rows, lookup_fmap.
  - destruct (list_find _ values) as [[i p]|] eqn:Hf.
    + apply list_find_Some in Hf as (Hi & <- & _).
      apply list_elem_of_lookup_2, Hin in Hi. by rewrite Hi.
    + apply list_find_None in Hf. destruct (peers !! id) as [p|] eqn:Hp; [|done].
      destruct (Hk _ _ Hp) as [<- _]. apply Hin in Hp.
      rewrite Forall_forall in Hf. by destruct (Hf p Hp).
  - apply Forall_forall. intros p Hp%Hin. by destruct (Hk _ _ Hp).
  - assert (pi_id <$> values ≡ₚ (map_to_list peers).*1) as ->; [|apply NoDup_fst_map_to_list].
    rewrite Hv, <-list_fmap_compose. apply Permutation_refl', list_fmap_ext. intros i [j p] Hi.
    apply list_elem_of_lookup_2, elem_of_map_to_list in Hi. by destruct (Hk _ _ Hi).
Qed.

Lemma row_image_id p : pi_id (row_image p) = pi_id p.
Proof. unfold row_image. by destruct (primary_addr p). Qed.

Lemma row_image_ok p : row_ok p → row_ok (row_image p).
Proof. intros (a & Ha & Ht). exists a. split; [|done]. unfold row_image. by rewrite Ha. Qed.

Lemma row_image_idemp p : row_ok p → row_image (row_image p) = row_image p.
Proof. intros (a & Ha & _). unfold row_image. by rewrite Ha. Qed.

Lemma keyed_image peers : keyed peers → keyed (row_image <$> peers).
Proof.
  intros Hk id p. rewrite lookup_fmap_Some. intros (q & <- & Hq).
  destruct (Hk _ _ Hq). split; [by rewrite row_image_id|by apply row_image_ok].
Qed.

Lemma image_idemp peers : keyed peers → row_image <$> (row_image <$> peers) = row_image <$> peers.
Proof.
  intros Hk. apply map_eq. intros id. rewrite !lookup_fmap.
  destruct (peers !! id) as [p|] eqn:Hp; [|done]. simpl. f_equal.
  apply row_image_idemp. by destruct (Hk _ _ Hp).
Qed.

Lemma ps_inv_append s d ty payload peers f :
  ps_inv s d → fits (mkWalRecord ty payload) → keyed peers →
  (∀ m, replay_frame m (ty, payload) = f m) → f (row_image <$> ps_peers s) = row_image <$> peers →
  ps_inv (Peerstore_append {| ps_dir := ps_dir s; ps_peers := peers;
                              ps_pending := ps_pending s; ps_wal := ps_wal s |} ty payload) d.
Proof.
  intros [] Hfit Hk Hf Hpeers. split; cbn; try done.
  - apply Forall_app. split; [done|by constructor].
  - rewrite fmap_app, foldl_app, inv_rows0. cbn -[replay_frame]. unfold frame_of. cbn [wr_ty wr_payload]. by rewrite Hf.
Qed.

Lemma ps_inv_step x y : ps_step x y → ps_inv x.1 x.2 → ps_inv y.1 y.2.
Proof.
  intros [s d p Hp Hfit | s d i | s d payload Hfit | s d s' d' Hflush
         | s d values records s' d' Hv Hr Hpay Hc | s d Hpend] Hinv; cbn [fst snd] in *.
  - eapply ps_inv_append; [done..| |intros m; by apply replay_upsert|by rewrite fmap_insert].
    apply map_Forall_insert_2; [done|apply Hinv].
  - eapply ps_inv_append; [done| | |intros m; apply replay_tombstone|by rewrite fmap_delete].
    + unfold fits. cbn [wr_payload]. by rewrite length_vec_to_list.
    + apply map_Forall_delete, Hinv.
  - destruct s. apply (ps_inv_append _ _ _ _ _ id Hinv); [done|apply Hinv| |done].
    intros m. by apply replay_other.
  - destruct Hinv as [? Hwal (ws & Hws & Hf) ? ? ?].
    destruct (flush_ok _ _ _ _ _ Hwal Hws Hflush) as [-> [n ->]].
    split; cbn -[recover]; try done; [|by rewrite recover_wal].
    eexists. split; [done|by apply Forall_app].
  - destruct Hinv as [Hdir Hwal _ Hf Hk Hrows]. revert Hc.
    unfold compact_with_records. rewrite Hdir, write_frames_all. cbn [negb]. unfold write_all.
    destruct (_ <=? _); cbn [negb]; intros [= <- <-]. split; cbn -[fmap recover]; try done.
    { by exists []. }
    assert (recover _ ∅ = row_image <$> ps_peers s) as ->; [|by eapply replay_idempotent].
    unfold recover. cbn [snapshot_bin wal_log]. unfold replay. rewrite frames_wal'.
    + by apply snapshot_rows.
    + apply Forall_app. split; apply Forall_fmap; [done|]. by eapply Forall_impl.
  - destruct Hinv as [_ _ (ws & Hws & Hf) _ Hk Hrows]. rewrite Hpend in Hrows. cbn in Hrows.
    unfold Peerstore_open. rewrite Hws, Hrows. split; cbn -[recover]; try done; [eauto|by apply keyed_image|].
    rewrite image_idemp, <-Hrows by done. unfold recover. cbn. by rewrite Hws.
Qed.

Lemma ps_inv_open n : ps_inv (Peerstore_open (empty_dir n)).1 (Peerstore_open (empty_dir n)).2.
Proof. split; cbn; try done. by exists []. Qed.
End peerstore.

(** ** A concrete checksum (CRC-32, reflected polynomial [0xEDB88320]) *)

Definition crc_bit (c : Z) : Z :=
  if Z.odd c then Z.lxor (Z.shiftr c 1) 3988292384 else Z.shiftr c 1.

Definition crc_ieee (b : bytes) : Z :=
  wrap 32 (Z.lxor (2 ^ 32 - 1)
    (foldl (λ c x, Nat.iter 8 crc_bit (Z.lxor c (b2z x))) (2 ^ 32 - 1)%Z b)).

#[local] Instance crc_ieee_inst : Crc32 := {|
  crc32 := crc_ieee;
  crc32_range b := wrap_in_u 32 _ (Zle_0_pos 32);
|}.

(** The check value of CRC-32. *)
Example crc_ieee_check : crc_ieee (bstr "123456789") = 3421780262%Z.
Proof. vm_compute. reflexivity. Qed.

Definition wal_peer (n : Z) : PeerInfo :=
  PeerInfo_new (mkNodeId (list_to_arr 32 (be_bytes 32 n)))
    (AddrV4 (list_to_arr 4 (be_bytes 4 (2130706433 + n))) (4000 + n)).

(** ** Theorems *)

(** C31: the write-ahead log is crash safe.  Whatever a flush of the pending batch
    manages to write before the device is full, and wherever a crash cuts the log
    afterwards, reading the log back gives a prefix of the records in the order they
    were appended: everything flushed before is kept (unless the cut is inside it), a
    torn last frame is ignored, and a flush that reports success has made the whole
    batch readable. *)
Theorem wal_crash_safe `{Crc32} (s : Peerstore) (d : Dir) (ws : list WalRecord) (cut : nat) :
  ps_wal s = true → wal_log d = Some (wal_bytes ws) →
  Forall fits ws → Forall fits (ps_pending s) →
  let '(s', d', ok) := Peerstore_flush s d in
  let log' := default [] (wal_log d') in
  (ok = true ↔ length (wal_bytes (ps_pending s)) ≤ room d) ∧
  ps_pending s' = [] ∧
  (∃ n, frames (take cut log') = frame_of <$> take n (ws ++ ps_pending s) ∧
        (length (wal_bytes ws) ≤ cut → length ws ≤ n) ∧
        (ok = true → length log' ≤ cut → n = length (ws ++ ps_pending s))).
Proof.
  intros Hwal Hd Hws Hp. unfold Peerstore_flush. rewrite Hwal, Hd, write_frames_all.
  cbn [negb from_option id]. unfold write_all.
  set (all := ws ++ ps_pending s). set (pb := wal_bytes (ps_pending s)).
  assert (Hall : Forall fits all) by (by apply Forall_app).
  assert (Hpre : ∀ k, length (wal_bytes ws) ≤ k → length ws ≤ complete k all).
  { unfold all. clear -Hws. induction ws as [|w ws IH]; intros k Hk; [simpl; lia|].
    change (wal_bytes (w :: ws)) with (frame_bytes w ++ wal_bytes ws) in Hk.
    rewrite length_app in Hk. inversion_clear Hws. cbn [complete length app].
    destruct (Nat.leb_spec (length (frame_bytes w)) k); [|lia].
    specialize (IH ltac:(done) (k - length (frame_bytes w))). lia. }
  assert (Hcut : ∀ k, take cut (wal_bytes ws ++ take k pb) =
                      take (cut `min` (length (wal_bytes ws) + k)) (wal_bytes all)).
  { intros k. rewrite <-take_take. unfold all, pb. rewrite wal_bytes_app.
    by rewrite take_app_add. }
  destruct (Nat.leb_spec (length pb) (room d)) as [Hfit|Hfull]; cbn [wal_log from_option id ps_pending].
  - split_and!; [done..|]. exists (complete cut all).
    unfold pb. rewrite <-wal_bytes_app. rewrite frames_cut by done. split_and!; [done|by auto|].
    intros _ Hlen. by apply complete_all.
  - split_and!; [split; [done|lia]|done|]. rewrite Hcut.
    exists (complete (cut `min` (length (wal_bytes ws) + room d)) all).
    rewrite frames_cut by done. split_and!; [done|intros; apply Hpre; lia|done].
Qed.

Lemma wal_crash_safe_witness :
  let s := Peerstore_upsert (Peerstore_open (empty_dir 100)).1 (wal_peer 1) in
  let d := (Peerstore_open (empty_dir 100)).2 in
  let '(s', d', ok) := Peerstore_flush s d in
  let log' := default [] (wal_log d') in
  (ok = true ↔ length (wal_bytes (ps_pending s)) ≤ room d) ∧
  ps_pending s' = [] ∧
  (∃ n, frames (take 20 log') = frame_of <$> take n ([] ++ ps_pending s) ∧
        (length (wal_bytes []) ≤ 20 → length (@nil WalRecord) ≤ n) ∧
        (ok = true → length log' ≤ 20 → n = length ([] ++ ps_pending s))).
Proof.
  apply (wal_crash_safe (Peerstore_upsert (Peerstore_open (empty_dir 100)).1 (wal_peer 1))
           (Peerstore_open (empty_dir 100)).2 [] 20);
    [reflexivity|reflexivity|constructor|].
  repeat constructor.
Defined.

(** a peer store that is closed after a flush and opened again has the peers it had.
    For every history of inserts, removals, interleaved DHT records, successful flushes
    and compactions and earlier reopenings, opening the directory rebuilds exactly the
    map of peers, each with its id and its first address (the other addresses, the
    round-trip time and the WireGuard key are not part of a row). *)
Theorem reopen_roundtrip `{Crc32} (n : nat) (s : Peerstore) (d : Dir) :
  rtc ps_step (Peerstore_open (empty_dir n)) (s, d) → ps_pending s = [] →
  ps_peers (Peerstore_open d).1 = row_image <$> ps_peers s.
Proof.
  intros Hrtc Hpend.
  assert (ps_inv s d) as [_ _ _ _ _ Hrows].
  { change (ps_inv (s, d).1 (s, d).2).
    revert Hrtc. generalize (ps_inv_open n). generalize (Peerstore_open (empty_dir n)).
    intros x Hx Hrtc. induction Hrtc as [|x y z Hxy _ IH]; [done|].
    by apply IH, (ps_inv_step x y Hxy). }
  by rewrite Hpend in Hrows.
Qed.

Lemma reopen_roundtrip_witness :
  let s := (Peerstore_flush (Peerstore_upsert (Peerstore_open (empty_dir 999)).1 (wal_peer 1))
              (Peerstore_open (empty_dir 999)).2).1 in
  ps_peers (Peerstore_open s.2).1 = row_image <$> ps_peers s.1.
Proof.
  apply (reopen_roundtrip 999); [|vm_compute; reflexivity].
  eapply rtc_l; [|eapply rtc_l; [|apply rtc_refl]].
  - apply (step_upsert _ _ (wal_peer 1)); [|vm_compute; reflexivity].
    eexists. split; [reflexivity|vm_compute; reflexivity].
  - apply step_flush, flush_pair. vm_compute. reflexivity.
Defined.

(** a torn tail makes every later record unreadable.  A flush that runs out of room
    leaves half a frame at the end of the log; opening the directory ignores it, as it
    should, but does not cut it off, and the log is opened for appending.  So a peer that
    is inserted and successfully flushed afterwards is appended behind the torn bytes and
    is gone at the next opening, while the record before the tear is still read. *)
Theorem torn_tail_swallows_appends :
  let '(s0, d0) := Peerstore_open (empty_dir 80) in
  let '(_, d1, ok1) := Peerstore_flush (Peerstore_upsert (Peerstore_upsert s0 (wal_peer 1)) (wal_peer 2)) d0 in
  (* the device has room again *)
  let '(s2, d2) := Peerstore_open {| snapshot_bin := snapshot_bin d1; wal_log := wal_log d1;
                                     compaction_tmp := compaction_tmp d1; room := 1000 |} in
  let '(s3, d3, ok3) := Peerstore_flush (Peerstore_upsert s2 (wal_peer 3)) d2 in
  let '(s4, _) := Peerstore_open d3 in
  ok1 = false ∧ ok3 = true ∧
  Peerstore_get s3 (pi_id (wal_peer 3)) = Some (wal_peer 3) ∧
  Peerstore_get s4 (pi_id (wal_peer 1)) = Some (wal_peer 1) ∧
  Peerstore_get s4 (pi_id (wal_peer 3)) = None.
Proof. vm_compute. split_and!; reflexivity. Qed.
