(* ===== verification/Store.v ===== *)
(** * The record store of a shard ([src/store.rs])

    Immutable, mutable, tombstone and provider records, provider lists, the cache of
    looked-up values, and the queue of records for the write-ahead log.  [now_unix()] is
    an argument of every operation that reads the clock.  A [HashMap] is a [gmap]; the
    operations never depend on its iteration order. *)

From S2P Require Import Prelude Bytes Types Proto Codec Crypto Net Peerstore.

Definition KIND_IMMUTABLE : Z := 0.
Definition KIND_MUTABLE : Z := 1.
Definition KIND_PROVIDER : Z := 2.
Definition KIND_TOMBSTONE : Z := 3.

Definition CACHE_TTL_SECS : Z := 10 * 60.
Definition MUTABLE_TTL_SECS : Z := 24 * 3600.

Record StoredRecord := mkStoredRecord {
  key : Key;
  value : bytes;
  sequence : Z;
  ttl_secs : Z;
  not_before_unix : Z;
  owner_pubkey : bytes;
  signature : bytes;
  kind : Z;
  namespace : bytes;
  salt : bytes;
  stored_unix : Z;
  cache : bool;
}.

#[export] Instance StoredRecord_eq_dec : EqDecision StoredRecord.
Proof. solve_decision. Defined.

Record ProviderEntry := mkProviderEntry {
  pe_peer_id : NodeId;
  pe_meta : bytes;
  pe_stored_unix : Z;
  pe_ttl_secs : Z;
}.

Record Store := mkStore {
  records : gmap Key StoredRecord;
  st_providers : gmap Key (list ProviderEntry);
  st_cache : gmap Key StoredRecord;
  st_dir : bool;
  pending_wal : list bytes;
}.

Definition Store_new : Store := mkStore ∅ ∅ ∅ false [].

(** ** Records *)

Definition to_proto (r : StoredRecord) : proto.Record_ :=
  {| proto.r_key := vec_to_list (kid (key r));
     proto.r_value := value r;
     proto.r_sequence := sequence r;
     proto.r_ttl_secs := ttl_secs r;
     proto.r_not_before_unix := not_before_unix r;
     proto.r_owner_pubkey := owner_pubkey r;
     proto.r_signature := signature r;
     proto.r_validators := [];
     proto.r_kind := kind r;
     proto.r_namespace := namespace r;
     proto.r_salt := salt r |}.

Definition record_from_proto (now : Z) (r : proto.Record_) : option StoredRecord :=
  k ← Key_from_bytes (proto.r_key r);
  Some {| key := k;
          value := proto.r_value r;
          sequence := proto.r_sequence r;
          ttl_secs := if (proto.r_ttl_secs r =? 0)%Z then MUTABLE_TTL_SECS else proto.r_ttl_secs r;
          not_before_unix := proto.r_not_before_unix r;
          owner_pubkey := proto.r_owner_pubkey r;
          signature := proto.r_signature r;
          kind := proto.r_kind r;
          namespace := proto.r_namespace r;
          salt := proto.r_salt r;
          stored_unix := now;
          cache := false |}.

Definition expired (r : StoredRecord) (now : Z) : bool :=
  (ttl_secs r <? sat_sub now (stored_unix r))%Z.

Section store.
Context `{Crypto} `{!Message proto.Record_}.

Definition StoredRecord_encode (r : StoredRecord) : bytes := encode_to_vec (to_proto r).

Definition authentic (r : StoredRecord) : bool :=
  if (kind r =? KIND_IMMUTABLE)%Z then bool_decide (hash_value (value r) = key r)
  else if (kind r =? KIND_MUTABLE)%Z || (kind r =? KIND_TOMBSTONE)%Z then
    negb (bool_decide (owner_pubkey r = []))
    && bool_decide (mutable_key (owner_pubkey r) (namespace r) (salt r) = key r)
    && verify_record (owner_pubkey r) (key r) (value r) (sequence r) (ttl_secs r)
         (not_before_unix r) (signature r)
  else if (kind r =? KIND_PROVIDER)%Z then true
  else false.

Definition signed_by (r : StoredRecord) (owner_pk : bytes) : bool :=
  (kind r =? KIND_MUTABLE)%Z && bool_decide (owner_pubkey r = owner_pk) && authentic r.

(** ** Operations *)

Definition with_records (s : Store) (rs : gmap Key StoredRecord) : Store :=
  mkStore rs (st_providers s) (st_cache s) (st_dir s) (pending_wal s).

Definition queue_record (s : Store) (rec : StoredRecord) : Store :=
  if st_dir s
  then mkStore (records s) (st_providers s) (st_cache s) (st_dir s)
         (pending_wal s ++ [StoredRecord_encode rec])
  else s.

Definition insert_record (s : Store) (rec : StoredRecord) : Store :=
  with_records s (<[key rec := rec]> (records s)).

(** [flush_wal]: the queued records become pending rows of the shared log. *)
Definition flush_wal (s : Store) (peers : Peerstore) : Store * Peerstore :=
  (mkStore (records s) (st_providers s) (st_cache s) (st_dir s) [],
   foldl (λ ps payload, Peerstore_append ps TYPE_RECORD payload) peers (pending_wal s)).

(** The record literal of [put_immutable_ttl]. *)
Definition immutable_record (now : Z) (v : bytes) (ttl : Z) : StoredRecord :=
  {| key := hash_value v; value := v; sequence := 0; ttl_secs := ttl; not_before_unix := 0;
     owner_pubkey := []; signature := []; kind := KIND_IMMUTABLE; namespace := [];
     salt := []; stored_unix := now; cache := false |}.

Definition put_immutable_ttl (s : Store) (now : Z) (v : bytes) (ttl : Z) : Store * result Key :=
  if (Z.of_nat PMTU_FLOOR * 64 <? Z.of_nat (length v))%Z then (s, Err "too large")
  else
    let k := hash_value v in
    let rec := immutable_record now v ttl in
    let s := queue_record s rec in
    (insert_record s rec, Ok k).

Definition put_immutable (s : Store) (now : Z) (v : bytes) : Store * result Key :=
  put_immutable_ttl s now v MUTABLE_TTL_SECS.

(** The checks of [put_record], before anything is written. *)
Definition put_record_check (s : Store) (rec : StoredRecord) : result unit :=
  if (64 * 1024 <? Z.of_nat (length (value rec)) + Z.of_nat (length (signature rec)))%Z
  then Err "too large"
  else if (kind rec =? KIND_IMMUTABLE)%Z then
    if bool_decide (hash_value (value rec) = key rec) then Ok tt else Err "hash mismatch"
  else if (kind rec =? KIND_MUTABLE)%Z then
    if negb (authentic rec) then Err "bad signature"
    else match records s !! key rec with
         | Some old =>
             if (sequence rec <=? sequence old)%Z && negb (kind old =? KIND_TOMBSTONE)%Z
             then Err "stale sequence" else Ok tt
         | None => Ok tt
         end
  else if (kind rec =? KIND_TOMBSTONE)%Z then
    if negb (authentic rec) then Err "bad tombstone" else Ok tt
  else if (kind rec =? KIND_PROVIDER)%Z then Ok tt
  else Err "unknown kind".

Definition put_record (s : Store) (rec : StoredRecord) (probe : bool) : Store * result unit :=
  match put_record_check s rec with
  | Err e => (s, Err e)
  | Ok _ =>
      if (kind rec =? KIND_TOMBSTONE)%Z then (insert_record (queue_record s rec) rec, Ok tt)
      else if probe then (s, Ok tt)
      else (insert_record (queue_record s rec) rec, Ok tt)
  end.

Definition cache_hit (s : Store) (now : Z) (rec : StoredRecord) : Store :=
  if negb (kind rec =? KIND_IMMUTABLE)%Z then s
  else
    let rec := {| key := key rec; value := value rec; sequence := sequence rec;
                  ttl_secs := Z.max (Z.min CACHE_TTL_SECS (30 * 60)) (5 * 60);
                  not_before_unix := not_before_unix rec; owner_pubkey := owner_pubkey rec;
                  signature := signature rec; kind := kind rec; namespace := namespace rec;
                  salt := salt rec; stored_unix := now; cache := true |} in
    mkStore (records s) (st_providers s) (<[key rec := rec]> (st_cache s)) (st_dir s) (pending_wal s).

Definition Store_get (s : Store) (now : Z) (k : Key) : option StoredRecord :=
  let cached := match st_cache s !! k with
                | Some r => if negb (expired r now) then Some r else None
                | None => None
                end in
  match records s !! k with
  | Some r => if negb (expired r now) && negb (kind r =? KIND_TOMBSTONE)%Z then Some r else cached
  | None => cached
  end.

Definition announce_provider (s : Store) (now : Z) (k : Key) (peer : NodeId) (meta : bytes) : Store :=
  let list := default [] (st_providers s !! k) in
  let list' :=
    if existsb (λ e, bool_decide (pe_peer_id e = peer)) list
    then update_first (λ e, bool_decide (pe_peer_id e = peer))
           (λ e, mkProviderEntry (pe_peer_id e) meta now (pe_ttl_secs e)) list
    else if length list <? 64 then list ++ [mkProviderEntry peer meta now MUTABLE_TTL_SECS]
    else list in
  mkStore (records s) (<[k := list']> (st_providers s)) (st_cache s) (st_dir s) (pending_wal s).

Definition provider_live (now : Z) (e : ProviderEntry) : bool :=
  (sat_sub now (pe_stored_unix e) <=? pe_ttl_secs e)%Z.

Definition Store_providers (s : Store) (now : Z) (k : Key) (limit : nat) : list ProviderEntry :=
  match st_providers s !! k with
  | Some v => take limit (filter (λ e, provider_live now e = true) v)
  | None => []
  end.

Definition gc (s : Store) (now : Z) : Store :=
  mkStore (filter (λ kr, expired kr.2 now = false) (records s))
          (filter (λ e, provider_live now e = true) <$> st_providers s)
          (filter (λ kr, expired kr.2 now = false) (st_cache s))
          (st_dir s) (pending_wal s).

(** ** Recovery *)

(** What [replay_wal] does with one frame. *)
Definition replay_record (now : Z) (rs : gmap Key StoredRecord) (fr : byte * bytes)
    : gmap Key StoredRecord :=
  let '(ty, payload) := fr in
  if negb (bool_decide (ty = TYPE_RECORD)) then rs
  else match decode_msg payload with
       | None => rs
       | Some pr =>
           match record_from_proto now pr with
           | None => rs
           | Some rec => if authentic rec then <[key rec := rec]> rs else rs
           end
       end.

Definition replay_wal `{Crc32} (s : Store) (now : Z) (file : bytes) : Store :=
  with_records s (foldl (replay_record now) (records s) (frames file)).

(** [Store::open]: only [wal.log] of the directory is read. *)
Definition Store_open `{Crc32} (d : Dir) (now : Z) : Store :=
  let s := mkStore ∅ ∅ ∅ true [] in
  match wal_log d with
  | Some f => replay_wal s now f
  | None => s
  end.

(** ** Invariant *)

Definition rec_ok (k : Key) (r : StoredRecord) : Prop := key r = k ∧ authentic r = true.

Definition cached_ok (k : Key) (r : StoredRecord) : Prop :=
  key r = k ∧ kind r = KIND_IMMUTABLE ∧ authentic r = true.

Definition providers_ok (l : list ProviderEntry) : Prop :=
  length l ≤ 64 ∧ NoDup (pe_peer_id <$> l).

Record store_inv (s : Store) : Prop := {
  inv_records : map_Forall rec_ok (records s);
  inv_cache : map_Forall cached_ok (st_cache s);
  inv_providers : map_Forall (λ _, providers_ok) (st_providers s);
}.

(** The operations of the store, as the shard runs them: [cache_hit] only on a record
    that is [authentic], everything else on arbitrary arguments. *)
Inductive store_step `{Crc32} (s : Store) : Store → Prop :=
  | st_put_immutable now v ttl : store_step s (put_immutable_ttl s now v ttl).1
  | st_put_record rec probe : store_step s (put_record s rec probe).1
  | st_cache_hit now rec : authentic rec = true → store_step s (cache_hit s now rec)
  | st_announce now k peer meta : store_step s (announce_provider s now k peer meta)
  | st_gc now : store_step s (gc s now)
  | st_flush peers : store_step s (flush_wal s peers).1
  | st_replay now file : store_step s (replay_wal s now file).

Lemma put_record_check_ok s rec :
  put_record_check s rec = Ok tt →
  authentic rec = true ∧
  (kind rec = KIND_IMMUTABLE ∨ kind rec = KIND_MUTABLE ∨ kind rec = KIND_TOMBSTONE ∨
   kind rec = KIND_PROVIDER) ∧
  (Z.of_nat (length (value rec)) + Z.of_nat (length (signature rec)) ≤ 65536)%Z ∧
  (kind rec = KIND_MUTABLE → ∀ old, records s !! key rec = Some old →
     kind old ≠ KIND_TOMBSTONE → (sequence old < sequence rec)%Z).
Proof.
  unfold put_record_check.
  destruct (Z.ltb_spec (64 * 1024) (Z.of_nat (length (value rec)) + Z.of_nat (length (signature rec))));
    [done|].
  unfold authentic, KIND_IMMUTABLE, KIND_MUTABLE, KIND_TOMBSTONE, KIND_PROVIDER in *.
  destruct (Z.eqb_spec (kind rec) 0) as [->|]; simpl.
  { destruct (bool_decide _); naive_solver. }
  destruct (Z.eqb_spec (kind rec) 1) as [->|]; simpl.
  { destruct (_ && _) eqn:Ha; simpl; [|done].
    destruct (records s !! key rec) as [old|]; [|naive_solver].
    destruct (Z.leb_spec (sequence rec) (sequence old)), (Z.eqb_spec (kind old) 3); simpl; naive_solver. }
  destruct (Z.eqb_spec (kind rec) 3) as [->|]; simpl.
  { destruct (_ && _) eqn:Ha; simpl; naive_solver. }
  destruct (Z.eqb_spec (kind rec) 2) as [->|]; simpl; naive_solver.
Qed.

(** A put writes the record under its key or writes nothing. *)
Lemma put_record_records s rec probe :
  records (put_record s rec probe).1 =
    (if is_ok (put_record s rec probe).2 && ((kind rec =? KIND_TOMBSTONE)%Z || negb probe)
     then <[key rec := rec]> (records s) else records s).
Proof.
  unfold put_record, insert_record, queue_record.
  destruct (put_record_check s rec); [|done].
  destruct (kind rec =? KIND_TOMBSTONE)%Z, probe; simpl; destruct (st_dir s); done.
Qed.

Lemma put_record_cache s rec probe :
  st_cache (put_record s rec probe).1 = st_cache s ∧
  st_providers (put_record s rec probe).1 = st_providers s.
Proof.
  unfold put_record, insert_record, queue_record.
  destruct (put_record_check s rec); [|done].
  destruct (kind rec =? KIND_TOMBSTONE)%Z, probe; simpl; destruct (st_dir s); done.
Qed.

Lemma put_record_result s rec probe : (put_record s rec probe).2 = put_record_check s rec.
Proof.
  unfold put_record. destruct (put_record_check s rec) as [[]|]; [|done].
  by destruct (kind rec =? KIND_TOMBSTONE)%Z, probe.
Qed.

Lemma rec_ok_insert s rec :
  map_Forall rec_ok (records s) → authentic rec = true →
  map_Forall rec_ok (<[key rec := rec]> (records s)).
Proof. intros. by apply map_Forall_insert_2. Qed.

Lemma replay_record_ok now rs fr : map_Forall rec_ok rs → map_Forall rec_ok (replay_record now rs fr).
Proof.
  intros Hrs. unfold replay_record. destruct fr as [ty payload].
  destruct (negb _); [done|]. destruct (decode_msg payload) as [pr|]; [|done].
  destruct (record_from_proto now pr) as [rec|]; [|done].
  destruct (authentic rec) eqn:Ha; [|done]. by apply map_Forall_insert_2.
Qed.

Lemma announce_providers_ok now peer meta l :
  providers_ok l →
  providers_ok (if existsb (λ e, bool_decide (pe_peer_id e = peer)) l
    then update_first (λ e, bool_decide (pe_peer_id e = peer))
           (λ e, mkProviderEntry (pe_peer_id e) meta now (pe_ttl_secs e)) l
    else if length l <? 64 then l ++ [mkProviderEntry peer meta now MUTABLE_TTL_SECS] else l).
Proof.
  intros [Hl Hnd]. destruct (existsb _ l) eqn:He.
  - split; [by rewrite update_first_length|]. by rewrite update_first_fmap.
  - destruct (Nat.ltb_spec (length l) 64); [|done]. split; [rewrite length_app; simpl; lia|].
    rewrite fmap_app. apply NoDup_app. split_and!; [done| |apply NoDup_singleton].
    intros i Hi Hin%list_elem_of_singleton. cbn in Hin. subst i.
    rewrite existsb_false_elem in He. apply list_elem_of_fmap in Hi as (e & -> & Hin).
    specialize (He e Hin). by bool_to_prop.
Qed.

Lemma store_inv_new : store_inv Store_new.
Proof. by split; apply map_Forall_empty. Qed.

Lemma filter_sublist_ok (f : ProviderEntry → bool) l :
  providers_ok l → providers_ok (filter (λ e, f e = true) l).
Proof.
  intros [Hl Hnd]. split; [pose proof (filter_length_le (λ e, f e = true) l); lia|].
  eapply sublist_NoDup; [done|]. apply fmap_sublist, sublist_filter.
Qed.

Lemma store_inv_step `{Crc32} s s' : store_inv s → store_step s s' → store_inv s'.
Proof.
  intros [Hr Hc Hp] [now v ttl | rec probe | now rec Ha | now k peer meta | now | peers | now file].
  - unfold put_immutable_ttl. destruct (_ <? _)%Z; [done|].
    unfold insert_record, queue_record. destruct (st_dir s); split; try done; simpl;
      apply map_Forall_insert_2; try done; split; try done; unfold authentic; simpl;
      by apply bool_decide_eq_true_2.
  - destruct (put_record_cache s rec probe) as [Hc' Hp'].
    split; [|by rewrite Hc'|by rewrite Hp']. rewrite put_record_records, put_record_result.
    destruct (put_record_check s rec) as [[]|] eqn:Hchk; [|done]. simpl.
    destruct (_ || _); [|done]. apply rec_ok_insert; [done|]. by apply (put_record_check_ok s rec).
  - unfold cache_hit. destruct (Z.eqb_spec (kind rec) KIND_IMMUTABLE) as [Hk|]; [|done].
    split; try done. simpl. apply map_Forall_insert_2; [|done]. split_and!; [done..|].
    unfold authentic in *. simpl. by rewrite Hk in *.
  - split; try done. simpl. apply map_Forall_insert_2; [|done]. apply announce_providers_ok.
    destruct (st_providers s !! k) as [l|] eqn:Hl; [by apply (Hp k)|].
    split; [simpl; lia|apply NoDup_nil_2].
  - split; simpl; [| |].
    + intros k r [Hk _]%map_lookup_filter_Some. by apply Hr.
    + intros k r [Hk _]%map_lookup_filter_Some. by apply Hc.
    + intros k l. rewrite lookup_fmap_Some. intros (l' & <- & Hl). by apply filter_sublist_ok, (Hp k).
  - done.
  - split; try done. simpl. generalize (frames file) as frs. intros frs. revert Hr.
    generalize (records s). induction frs as [|fr frs IH]; intros rs Hr; [done|].
    apply IH, replay_record_ok, Hr.
Qed.

Lemma store_inv_reach `{Crc32} s s' : store_inv s → rtc store_step s s' → store_inv s'.
Proof. intros Hi Hr. induction Hr; eauto using store_inv_step. Qed.

Lemma store_inv_open `{Crc32} d now : store_inv (Store_open d now).
Proof.
  unfold Store_open.
  assert (store_inv (mkStore ∅ ∅ ∅ true [])) by (split; apply map_Forall_empty).
  destruct (wal_log d); [|done]. by eapply store_inv_step; [|apply st_replay].
Qed.

(** ** Reading *)

Lemma Store_get_Some s now k r :
  Store_get s now k = Some r →
  expired r now = false ∧
  ((records s !! k = Some r ∧ kind r ≠ KIND_TOMBSTONE) ∨ st_cache s !! k = Some r).
Proof.
  unfold Store_get. intros Hg.
  assert (Hcase : ∀ o, match o with Some r => if negb (expired r now) then Some r else None | None => None end
                       = Some r → expired r now = false ∧ o = Some r).
  { intros [r'|]; [|done]. destruct (expired r' now) eqn:?; simpl; naive_solver. }
  destruct (records s !! k) as [r'|] eqn:Hr; [|apply Hcase in Hg; naive_solver].
  destruct (expired r' now) eqn:He, (Z.eqb_spec (kind r') KIND_TOMBSTONE) as [|Hk]; simpl in Hg;
    try (apply Hcase in Hg; naive_solver). injection Hg as <-. naive_solver.
Qed.

Lemma store_get_ok s now k r :
  store_inv s → Store_get s now k = Some r → key r = k ∧ authentic r = true.
Proof.
  intros [Hrecs Hcache _] Hg. apply Store_get_Some in Hg as [_ [[Hin _]|Hin]].
  - by destruct (Hrecs _ _ Hin).
  - by destruct (Hcache _ _ Hin) as (? & _ & ?).
Qed.

Lemma expired_mono r now now' : (now ≤ now')%Z → expired r now = true → expired r now' = true.
Proof. unfold expired, sat_sub. rewrite !Z.ltb_lt. lia. Qed.

(** A map from which expired records are dropped answers like the whole map. *)
Lemma filter_expired_lookup (m : gmap Key StoredRecord) now k :
  filter (λ kr, expired kr.2 now = false) m !! k =
    match m !! k with Some r => if expired r now then None else Some r | None => None end.
Proof.
  rewrite map_lookup_filter. destruct (m !! k) as [r|]; [|done]. simpl.
  destruct (expired r now) eqn:He; [by rewrite option_guard_False by congruence|].
  by rewrite option_guard_True.
Qed.

Lemma provider_live_mono e now now' :
  (now ≤ now')%Z → provider_live now' e = true → provider_live now e = true.
Proof. unfold provider_live, sat_sub. rewrite !Z.leb_le. lia. Qed.

Lemma filter_live_filter now now' (l : list ProviderEntry) :
  (now ≤ now')%Z →
  filter (λ e, provider_live now' e = true) (filter (λ e, provider_live now e = true) l) =
  filter (λ e, provider_live now' e = true) l.
Proof.
  intros Hle. induction l as [|e l IH]; [done|].
  rewrite !(filter_cons _ e). destruct (decide (provider_live now e = true)) as [H1|H1].
  - rewrite filter_cons. case_decide; by rewrite IH.
  - rewrite IH. case_decide as H2; [|done]. by apply (provider_live_mono _ now) in H2.
Qed.

(** ** Persistence *)

(** The record as it comes back from the log at time [now]. *)
Definition restamp (now : Z) (r : StoredRecord) : StoredRecord :=
  {| key := key r; value := value r; sequence := sequence r; ttl_secs := ttl_secs r;
     not_before_unix := not_before_unix r; owner_pubkey := owner_pubkey r;
     signature := signature r; kind := kind r; namespace := namespace r; salt := salt r;
     stored_unix := now; cache := false |}.

(** The record's numbers fit the wire types, and its time-to-live is not the wire's
    "absent" value. *)
Definition wire_ok (r : StoredRecord) : Prop := msg_wf (to_proto r) ∧ ttl_secs r ≠ 0%Z.

Lemma record_from_to_proto now r :
  ttl_secs r ≠ 0%Z → record_from_proto now (to_proto r) = Some (restamp now r).
Proof.
  intros Ht. unfold record_from_proto, to_proto, Key_from_bytes. cbn [proto.r_key].
  rewrite to_arr_list. cbn. destruct (Z.eqb_spec (ttl_secs r) 0); [done|].
  by destruct r as [[]].
Qed.

Lemma authentic_restamp now r : authentic (restamp now r) = authentic r.
Proof. done. Qed.

Lemma replay_own_record now rs r :
  wire_ok r → authentic r = true →
  replay_record now rs (TYPE_RECORD, StoredRecord_encode r) = <[key r := restamp now r]> rs.
Proof.
  intros [Hwf Ht] Ha. unfold replay_record. rewrite bool_decide_eq_true_2 by done. cbn [negb].
  unfold StoredRecord_encode. rewrite decode_encode_msg by done.
  rewrite record_from_to_proto by done. by rewrite authentic_restamp, Ha.
Qed.

Lemma replay_peer_row now rs ty payload : ty ≠ TYPE_RECORD → replay_record now rs (ty, payload) = rs.
Proof. intros. unfold replay_record. by rewrite bool_decide_eq_false_2. Qed.

(** All frames that are or will be in the log: on disk, pending in the peer store, and
    queued in the store. *)
Definition log_frames `{Crc32} (s : Store) (ps : Peerstore) (d : Dir) : list (byte * bytes) :=
  frames (default [] (wal_log d)) ++ (frame_of <$> ps_pending ps) ++ ((TYPE_RECORD,.) <$> pending_wal s).

Record persist_inv `{Crc32} (s : Store) (ps : Peerstore) (d : Dir) : Prop := {
  pi_dir : st_dir s = true;
  pi_open : ps_wal ps = true;
  pi_log : ∃ ws, wal_log d = Some (wal_bytes ws) ∧ Forall fits ws;
  pi_fits : Forall fits (ps_pending ps);
  pi_queue : Forall (λ p, fits (mkWalRecord TYPE_RECORD p)) (pending_wal s);
  pi_recs : ∀ now, foldl (replay_record now) ∅ (log_frames s ps d) = restamp now <$> records s;
}.

(** The shard's use of its store and peer store between two openings: puts, peer rows,
    [flush_wal] and successful flushes, in any order. *)
Inductive persist_step `{Crc32} : Store * Peerstore * Dir → Store * Peerstore * Dir → Prop :=
  | p_put_immutable s ps d now v ttl :
      in_u 64 ttl → ttl ≠ 0%Z →
      fits (mkWalRecord TYPE_RECORD (StoredRecord_encode (immutable_record now v ttl))) →
      persist_step (s, ps, d) ((put_immutable_ttl s now v ttl).1, ps, d)
  | p_put_record s ps d rec probe :
      wire_ok rec → fits (mkWalRecord TYPE_RECORD (StoredRecord_encode rec)) →
      persist_step (s, ps, d) ((put_record s rec probe).1, ps, d)
  | p_flush_wal s ps d :
      persist_step (s, ps, d) ((flush_wal s ps).1, (flush_wal s ps).2, d)
  | p_peer_row s ps d ty payload peers :
      ty ≠ TYPE_RECORD → fits (mkWalRecord ty payload) →
      persist_step (s, ps, d)
        (s, Peerstore_append (mkPeerstore (ps_dir ps) peers (ps_pending ps) (ps_wal ps)) ty payload, d)
  | p_flush s ps d ps' d' :
      Peerstore_flush ps d = (ps', d', true) → persist_step (s, ps, d) (s, ps', d').

Lemma authentic_immutable now v ttl : authentic (immutable_record now v ttl) = true.
Proof. unfold authentic. simpl. by apply bool_decide_eq_true_2. Qed.

Lemma persist_insert `{Crc32} s ps d rec :
  persist_inv s ps d → wire_ok rec → authentic rec = true →
  fits (mkWalRecord TYPE_RECORD (StoredRecord_encode rec)) →
  persist_inv (insert_record (queue_record s rec) rec) ps d.
Proof.
  intros [Hd ? ? ? Hq Hrecs] Hw Ha Hfit. unfold queue_record, insert_record. rewrite Hd.
  split; try done; cbn [pending_wal with_records records].
  - apply Forall_app. split; [done|by constructor].
  - intros now. unfold log_frames in *. cbn [pending_wal with_records].
    rewrite fmap_app, !(assoc_L (++)), foldl_app, <-(assoc_L (++) (frames _)), Hrecs. cbn [fmap list_fmap foldl].
    by rewrite replay_own_record, fmap_insert by done.
Qed.

Lemma flush_wal_pending s ps :
  ps_pending (flush_wal s ps).2 = ps_pending ps ++ (mkWalRecord TYPE_RECORD <$> pending_wal s) ∧
  ps_wal (flush_wal s ps).2 = ps_wal ps.
Proof.
  cbn [flush_wal snd]. generalize (pending_wal s). intros q. revert ps.
  induction q as [|p q IH]; intros ps; [by rewrite app_nil_r|].
  cbn [foldl]. destruct (IH (Peerstore_append ps TYPE_RECORD p)) as [-> ->].
  split; [|done]. cbn. by rewrite <-(assoc_L (++)).
Qed.

Lemma persist_inv_step `{Crc32} x y :
  persist_step x y → persist_inv x.1.1 x.1.2 x.2 → persist_inv y.1.1 y.1.2 y.2.
Proof.
  intros [s ps d now v ttl Ht Ht0 Hfit | s ps d rec probe Hw Hfit | s ps d
         | s ps d ty payload peers Hty Hfit | s ps d ps' d' Hflush] Hinv; cbn [fst snd] in *.
  - unfold put_immutable_ttl. destruct (_ <? _)%Z; [done|].
    apply persist_insert; [done| |apply authentic_immutable|done].
    split; [|done]. repeat split; cbn; try done; apply Ht.
  - unfold put_record. destruct (put_record_check s rec) as [[]|] eqn:Hchk; [|done].
    apply put_record_check_ok in Hchk as (Ha & _).
    destruct (kind rec =? KIND_TOMBSTONE)%Z, probe; try done; by apply persist_insert.
  - destruct (flush_wal_pending s ps) as [Hp Hwal]. destruct Hinv as [? ? ? ? Hq Hrecs].
    split; [done|by rewrite Hwal|done| |by constructor|].
    + rewrite Hp. apply Forall_app. split; [done|by apply Forall_fmap].
    + intros now. rewrite <-Hrecs. unfold log_frames. rewrite Hp. cbn [flush_wal fst pending_wal].
      rewrite fmap_app, app_nil_r. by rewrite <-list_fmap_compose.
  - destruct Hinv as [? ? ? ? ? Hrecs]. split; try done; cbn [Peerstore_append ps_pending].
    + apply Forall_app. split; [done|by constructor].
    + intros now. rewrite <-Hrecs. unfold log_frames. cbn [Peerstore_append ps_pending].
      rewrite fmap_app, !foldl_app. cbn [fmap list_fmap foldl].
      unfold frame_of at 2. cbn [wr_ty wr_payload]. by rewrite replay_peer_row.
  - destruct Hinv as [? Hwal (ws & Hws & Hf) Hpend ? Hrecs].
    destruct (flush_ok _ _ _ _ _ Hwal Hws Hflush) as [-> [n ->]].
    assert (Forall fits (ws ++ ps_pending ps)) by (by apply Forall_app).
    split; try done; [by eexists|]. intros now. rewrite <-Hrecs. unfold log_frames.
    cbn [wal_log ps_pending from_option id]. rewrite Hws. cbn [from_option id].
    rewrite !frames_wal' by done. by rewrite fmap_app, <-(assoc_L (++)).
Qed.

Lemma persist_inv_reach `{Crc32} x y :
  rtc persist_step x y → persist_inv x.1.1 x.1.2 x.2 → persist_inv y.1.1 y.1.2 y.2.
Proof. induction 1; eauto using persist_inv_step. Qed.
End store.

(** ** Concrete records *)

#[local] Existing Instance toy_crypto.
#[local] Existing Instance crc_ieee_inst.
#[local] Instance toy_record_message : Message proto.Record_ := wire_message.

Definition sample_kp : Keypair :=
  let s : SecretKey := arr_repeat (z2b 7) 32 in mkKeypair s (PublicKey_from s).

(** A record signed with [sample_kp] at sequence [q], of kind [kd]. *)
Definition sample_record (kd q : Z) : StoredRecord :=
  let pk := vec_to_list (kp_public sample_kp) in
  let k := mutable_key pk (bstr "ns") (bstr "s") in
  {| key := k; value := bstr "v"; sequence := q; ttl_secs := MUTABLE_TTL_SECS; not_before_unix := 0;
     owner_pubkey := pk;
     signature := vec_to_list (sign_record sample_kp k (bstr "v") q MUTABLE_TTL_SECS 0);
     kind := kd; namespace := bstr "ns"; salt := bstr "s"; stored_unix := 100; cache := false |}.

(** ** Theorems *)

(** C1: whatever sequence of puts (of arbitrary records from the network), provider
    announcements, cache fills, garbage collections, flushes and log replays a store
    goes through, a value it returns under a key is fresh and belongs to that key: an
    immutable value hashes to the key, a mutable one carries a signature, by the owner
    whose public key, namespace and salt hash to the key, over exactly this key, value,
    sequence, time-to-live and not-before; a tombstone is never returned, and no other
    kind is, except provider records. *)
Theorem store_get_authentic `{Crypto} `{!Message proto.Record_} `{Crc32}
    (s0 s : Store) (now : Z) (k : Key) (r : StoredRecord) :
  (s0 = Store_new ∨ ∃ d t, s0 = Store_open d t) → rtc store_step s0 s →
  Store_get s now k = Some r →
  key r = k ∧ expired r now = false ∧
  ((kind r = KIND_IMMUTABLE ∧ hash_value (value r) = k) ∨
   (kind r = KIND_MUTABLE ∧ mutable_key (owner_pubkey r) (namespace r) (salt r) = k ∧
    verify_record (owner_pubkey r) k (value r) (sequence r) (ttl_secs r) (not_before_unix r)
      (signature r) = true) ∨
   kind r = KIND_PROVIDER).
Proof.
  intros Hs0 Hr Hg.
  assert (store_inv s) as Hinv.
  { eapply store_inv_reach; [|done].
    destruct Hs0 as [->|(d & t & ->)]; [apply store_inv_new|apply store_inv_open]. }
  destruct (store_get_ok s now k r Hinv Hg) as [<- Ha].
  apply Store_get_Some in Hg as [He Hin].
  assert (kind r ≠ KIND_TOMBSTONE) as Hk.
  { destruct Hin as [[_ Hk]|Hin]; [done|]. by destruct (inv_cache s Hinv _ _ Hin) as (_ & -> & _). }
  split_and!; [done..|]. revert Ha Hk. unfold authentic.
  unfold KIND_IMMUTABLE, KIND_MUTABLE, KIND_TOMBSTONE, KIND_PROVIDER.
  destruct (Z.eqb_spec (kind r) 0) as [->|]; [intros; bool_to_prop; by left|].
  destruct (Z.eqb_spec (kind r) 1) as [->|]; simpl; [intros; bool_to_prop; naive_solver|].
  destruct (Z.eqb_spec (kind r) 3) as [->|]; simpl; [done|].
  destruct (Z.eqb_spec (kind r) 2) as [->|]; [naive_solver|done].
Qed.

Lemma store_get_authentic_witness :
  let r := sample_record KIND_MUTABLE 1 in
  let k := key r in
  key r = k ∧ expired r 200 = false ∧
  ((kind r = KIND_IMMUTABLE ∧ hash_value (value r) = k) ∨
   (kind r = KIND_MUTABLE ∧ mutable_key (owner_pubkey r) (namespace r) (salt r) = k ∧
    verify_record (owner_pubkey r) k (value r) (sequence r) (ttl_secs r) (not_before_unix r)
      (signature r) = true) ∨
   kind r = KIND_PROVIDER).
Proof.
  apply (store_get_authentic Store_new (put_record Store_new (sample_record KIND_MUTABLE 1) false).1).
  - by left.
  - eapply rtc_l; [apply (st_put_record _ (sample_record KIND_MUTABLE 1) false)|apply rtc_refl].
  - vm_compute. reflexivity.
Defined.

(** C11: [put_record] on every branch.  A rejected record changes nothing; an accepted
    one passed the size limit and is authentic, and, if it is mutable, it has a strictly
    larger sequence number than a live record of the same key.  An accepted record is
    written unless it is a probe (a tombstone is written even then), and can be read back
    at once under its key until its time-to-live has passed, unless it is a tombstone;
    records of other keys, the cache and the provider lists stay as they were. *)
Theorem put_record_correct `{Crypto} `{!Message proto.Record_}
    (s : Store) (rec : StoredRecord) (probe : bool) (now : Z) :
  let '(s', res) := put_record s rec probe in
  match res with
  | Err _ => s' = s
  | Ok _ =>
      authentic rec = true ∧
      (Z.of_nat (length (value rec)) + Z.of_nat (length (signature rec)) ≤ 65536)%Z ∧
      (kind rec = KIND_MUTABLE → ∀ old, records s !! key rec = Some old →
         kind old ≠ KIND_TOMBSTONE → (sequence old < sequence rec)%Z) ∧
      (probe = true → kind rec ≠ KIND_TOMBSTONE → s' = s) ∧
      (probe = false ∨ kind rec = KIND_TOMBSTONE → records s' !! key rec = Some rec) ∧
      (probe = false → kind rec ≠ KIND_TOMBSTONE → expired rec now = false →
         Store_get s' now (key rec) = Some rec)
  end ∧
  (∀ k, k ≠ key rec → records s' !! k = records s !! k) ∧
  st_cache s' = st_cache s ∧ st_providers s' = st_providers s.
Proof.
  pose proof (put_record_records s rec probe) as Hrec.
  pose proof (put_record_cache s rec probe) as Hcache.
  pose proof (put_record_result s rec probe) as Hres.
  pose proof (put_record_check_ok s rec) as Hok.
  assert (Herr : is_ok (put_record s rec probe).2 = false → (put_record s rec probe).1 = s).
  { unfold put_record. destruct (put_record_check s rec); [|done].
    by destruct (kind rec =? _)%Z, probe. }
  assert (Hprobe : probe = true → kind rec ≠ KIND_TOMBSTONE → (put_record s rec probe).1 = s).
  { intros -> Hk. unfold put_record. destruct (put_record_check s rec); [|done].
    by destruct (Z.eqb_spec (kind rec) KIND_TOMBSTONE). }
  destruct (put_record s rec probe) as [s' res]. cbn [fst snd is_ok] in *. subst res.
  split; [|split; [|done]].
  - destruct (put_record_check s rec) as [[]|]; cbn [is_ok] in *; [|by apply Herr].
    destruct Hok as (? & _ & ? & ?); [done|]. rewrite andb_true_l in Hrec.
    assert (Hput : probe = false ∨ kind rec = KIND_TOMBSTONE → records s' !! key rec = Some rec).
    { intros [-> | Hc]; rewrite Hrec; cbn [negb]; [rewrite orb_true_r|rewrite Hc, Z.eqb_refl];
        apply lookup_insert_eq. }
    split_and!; [done..|]. intros Hp Hk He. unfold Store_get. rewrite Hput by auto.
    rewrite He. by destruct (Z.eqb_spec (kind rec) KIND_TOMBSTONE).
  - intros k Hk. rewrite Hrec. destruct (_ && _); [|done]. by rewrite lookup_insert_ne.
Qed.

(** C12: sequence numbers of a mutable key only go up.  Along any run of puts of mutable
    records (valid or not, probes or not, any keys), the record stored under a key is
    either still the same or one with a strictly larger sequence number. *)
Theorem mutable_sequence_monotone `{Crypto} `{!Message proto.Record_}
    (puts : list (StoredRecord * bool)) (s : Store) (k : Key) (old : StoredRecord) :
  Forall (λ p, kind p.1 = KIND_MUTABLE) puts → records s !! k = Some old → kind old = KIND_MUTABLE →
  ∃ new, records (foldl (λ s p, (put_record s p.1 p.2).1) s puts) !! k = Some new ∧
         kind new = KIND_MUTABLE ∧ (new = old ∨ sequence old < sequence new)%Z.
Proof.
  intros Hall. revert s old. induction Hall as [|[rec probe] puts Hk Hall IH]; intros s old Hold Hkind.
  { exists old. auto. }
  cbn [foldl fst snd] in *.
  assert (∃ mid, records (put_record s rec probe).1 !! k = Some mid ∧ kind mid = KIND_MUTABLE ∧
                 (mid = old ∨ sequence old < sequence mid)%Z) as (mid & Hmid & Hmk & Hle).
  { rewrite put_record_records, put_record_result.
    destruct (put_record_check s rec) as [[]|] eqn:Hchk; cbn [is_ok andb]; [|eauto].
    destruct (_ || _); [|eauto]. destruct (decide (k = key rec)) as [->|Hne].
    - exists rec. rewrite lookup_insert_eq. split_and!; [done..|]. right.
      apply put_record_check_ok in Hchk as (_ & _ & _ & Hseq).
      apply (Hseq Hk _ Hold). by rewrite Hkind.
    - exists old. rewrite lookup_insert_ne by done. auto. }
  destruct (IH _ _ Hmid Hmk) as (new & ? & ? & Hn). exists new. split_and!; [done..|].
  destruct Hle as [<-|?], Hn as [->|?]; auto; right; lia.
Qed.

Lemma mutable_sequence_monotone_witness :
  ∃ new, records (foldl (λ s p, (put_record s p.1 p.2).1)
             (put_record Store_new (sample_record KIND_MUTABLE 4) false).1
             [(sample_record KIND_MUTABLE 3, false); (sample_record KIND_MUTABLE 9, false)])
           !! key (sample_record KIND_MUTABLE 4) = Some new ∧
    kind new = KIND_MUTABLE ∧
    (new = sample_record KIND_MUTABLE 4 ∨ sequence (sample_record KIND_MUTABLE 4) < sequence new)%Z.
Proof.
  apply (mutable_sequence_monotone
    [(sample_record KIND_MUTABLE 3, false); (sample_record KIND_MUTABLE 9, false)]
    (put_record Store_new (sample_record KIND_MUTABLE 4) false).1).
  - repeat constructor.
  - vm_compute. reflexivity.
  - reflexivity.
Defined.

(** C38: garbage collection is invisible.  Collecting at some time changes no answer
    given at that time or later: neither the record found under a key (in the store or in
    the cache) nor the providers listed for it; and right after it no expired record or
    provider is left. *)
Theorem gc_transparent `{Crypto} `{!Message proto.Record_} (s : Store) (now later : Z) (k : Key) (limit : nat) :
  (now ≤ later)%Z →
  Store_get (gc s now) later k = Store_get s later k ∧
  Store_providers (gc s now) later k limit = Store_providers s later k limit ∧
  (∀ r, records (gc s now) !! k = Some r ∨ st_cache (gc s now) !! k = Some r → expired r now = false) ∧
  (∀ l, st_providers (gc s now) !! k = Some l → Forall (λ e, provider_live now e = true) l).
Proof.
  intros Hle. split_and!.
  - unfold Store_get, gc. cbn [records st_cache]. rewrite !filter_expired_lookup.
    destruct (records s !! k) as [r|]; [destruct (expired r now) eqn:He|];
      try rewrite (expired_mono r now later Hle He); cbn [negb andb];
      (destruct (st_cache s !! k) as [c|]; [destruct (expired c now) eqn:Hc|]);
      try rewrite (expired_mono c now later Hle Hc); done.
  - unfold Store_providers, gc. cbn [st_providers]. rewrite lookup_fmap.
    destruct (st_providers s !! k) as [l|]; [|done]. simpl. by rewrite filter_live_filter.
  - intros r. unfold gc. cbn [records st_cache]. rewrite !map_lookup_filter_Some. naive_solver.
  - intros l. unfold gc. cbn [st_providers]. rewrite lookup_fmap_Some. intros (l' & <- & _).
    apply Forall_forall. intros e [? _]%list_elem_of_filter. done.
Qed.

Lemma gc_transparent_witness :
  Store_get (gc (put_record Store_new (sample_record KIND_MUTABLE 4) false).1 90000) 90001
    (key (sample_record KIND_MUTABLE 4)) =
  Store_get (put_record Store_new (sample_record KIND_MUTABLE 4) false).1 90001
    (key (sample_record KIND_MUTABLE 4)).
Proof.
  refine (proj1 (gc_transparent (put_record Store_new (sample_record KIND_MUTABLE 4) false).1
    90000 90001 (key (sample_record KIND_MUTABLE 4)) 1 _)). lia.
Defined.

(** provider lists.  Along any run of announcements and collections a key has at
    most 64 providers, each node once; an announcement is visible at once to a query with
    a large enough limit while it is fresh, unless 64 other nodes fill the list; a query
    returns at most [limit] entries, all of them fresh. *)
Theorem providers_correct `{Crypto} `{!Message proto.Record_} `{Crc32}
    (s : Store) (now : Z) (k : Key) (peer : NodeId) (meta : bytes) (limit : nat) :
  rtc store_step Store_new s →
  let s' := announce_provider s now k peer meta in
  (∀ l, st_providers s' !! k = Some l → length l ≤ 64 ∧ NoDup (pe_peer_id <$> l)) ∧
  (let out := Store_providers s now k limit in
   length out ≤ limit ∧ Forall (λ e, provider_live now e = true) out) ∧
  (peer ∈ pe_peer_id <$> default [] (st_providers s !! k) ∨
   length (default [] (st_providers s !! k)) < 64 →
   ∃ e, e ∈ default [] (st_providers s' !! k) ∧ pe_peer_id e = peer ∧ pe_meta e = meta ∧
        pe_stored_unix e = now).
Proof.
  intros Hreach s'. split_and!.
  - assert (store_inv s') as [_ _ Hp].
    { eapply store_inv_step; [eapply store_inv_reach; [apply store_inv_new|done]|].
      apply st_announce. }
    intros l Hl. apply (Hp k l Hl).
  - cbv zeta. unfold Store_providers. destruct (st_providers s !! k) as [l|].
    + split; [rewrite length_take; lia|]. apply Forall_take, Forall_forall.
      by intros e [? _]%list_elem_of_filter.
    + split; [simpl; lia|constructor].
  - intros Hroom. unfold s', announce_provider. cbn [st_providers]. rewrite lookup_insert_eq.
    cbn [from_option id]. set (l := default [] (st_providers s !! k)) in *.
    destruct (existsb _ l) eqn:He.
    + apply existsb_elem in He as (e & Hin & He). bool_to_prop. clear Hroom.
      induction l as [|x l IH]; [by apply not_elem_of_nil in Hin|]. cbn [update_first].
      case_bool_decide as Hx; [eexists; split; [left|]; naive_solver|].
      apply elem_of_cons in Hin as [->|Hin]; [done|].
      destruct (IH Hin) as (y & ? & ?). exists y. split; [by right|done].
    + destruct Hroom as [Hin|Hlt].
      * apply list_elem_of_fmap in Hin as (e & -> & Hin). rewrite existsb_false_elem in He.
        specialize (He e Hin). by bool_to_prop.
      * destruct (Nat.ltb_spec (length l) 64); [|lia].
        eexists. split; [apply elem_of_app; right; apply list_elem_of_singleton; reflexivity|done].
Qed.

Lemma providers_correct_witness :
  let k := mkKey (arr_repeat (z2b 1) 32) in
  let out := Store_providers Store_new 10 k 5 in
  length out ≤ 5 ∧ Forall (λ e, provider_live 10 e = true) out.
Proof.
  intros k. refine (proj1 (proj2 (providers_correct Store_new 10 k
    (mkNodeId (arr_repeat (z2b 2) 32)) (bstr "m") 5 _))). apply rtc_refl.
Defined.

(** records survive a restart.  After any interleaving of immutable puts, record
    puts, peer rows, [flush_wal] and successful log flushes on a freshly opened
    directory, once the queue and the batch are flushed, opening the directory again
    rebuilds exactly the record map (for records whose numbers fit the wire format and
    whose time-to-live is not zero), every record stamped with the time of the
    opening. *)
Theorem store_reopen_roundtrip `{Crypto} `{!Message proto.Record_} `{Crc32}
    (room : nat) (t0 now : Z) (s : Store) (ps : Peerstore) (d : Dir) :
  let '(ps0, d0) := Peerstore_open (empty_dir room) in
  rtc persist_step (Store_open d0 t0, ps0, d0) (s, ps, d) →
  pending_wal s = [] → ps_pending ps = [] →
  records (Store_open d now) = restamp now <$> records s.
Proof.
  cbn [Peerstore_open]. intros Hr Hq Hp.
  apply persist_inv_reach in Hr; cbn [fst snd] in *.
  - destruct Hr as [_ _ (ws & Hws & Hf) _ _ Hrecs]. rewrite <-Hrecs. unfold log_frames, Store_open.
    rewrite Hq, Hp, Hws. cbn [from_option id fmap list_fmap]. by rewrite !app_nil_r.
  - split; try done. by exists [].
Qed.

Lemma store_reopen_roundtrip_witness :
  let '(ps0, d0) := Peerstore_open (empty_dir 9999) in
  let s1 := (put_record (Store_open d0 5) (sample_record KIND_MUTABLE 4) false).1 in
  let s2 := (flush_wal s1 ps0).1 in
  let f := Peerstore_flush (flush_wal s1 ps0).2 d0 in
  records (Store_open f.1.2 700) = restamp 700 <$> records s2.
Proof.
  cbv beta iota delta [Peerstore_open]. intros s1 s2 f.
  apply (store_reopen_roundtrip 9999 5 700 s2 f.1.1 f.1.2); [|reflexivity|vm_compute; reflexivity].
  cbn [Peerstore_open].
  eapply rtc_l; [apply (p_put_record _ _ _ (sample_record KIND_MUTABLE 4) false)|
    eapply rtc_l; [apply p_flush_wal|eapply rtc_l; [apply p_flush, flush_pair|apply rtc_refl]]].
  - split; [|done]. vm_compute. repeat split; first [reflexivity|discriminate].
  - vm_compute. reflexivity.
  - vm_compute. reflexivity.
Defined.

(** ** Behaviour worth knowing *)

(** Any node can overwrite any key with an unsigned record of kind 2: the provider kind
    passes every check, replaces whatever was stored, and is then served for the key. *)
Theorem provider_kind_overwrites `{Crypto} `{!Message proto.Record_}
    (s : Store) (k : Key) (v : bytes) (ttl now : Z) :
  length v ≤ 1000 → (0 ≤ ttl)%Z →
  let rec := mkStoredRecord k v 0 ttl 0 [] [] KIND_PROVIDER [] [] now false in
  let '(s', res) := put_record s rec false in
  res = Ok tt ∧ Store_get s' now k = Some rec ∧ authentic rec = true.
Proof.
  intros Hv Ht rec. pose proof (put_record_records s rec false) as Hr.
  pose proof (put_record_result s rec false) as Hres.
  assert (Hc : put_record_check s rec = Ok tt).
  { unfold put_record_check. cbn [value signature rec length].
    destruct (Z.ltb_spec (64 * 1024) (Z.of_nat (length v) + Z.of_nat 0)); [lia|done]. }
  destruct (put_record s rec false) as [s' res]. cbn [fst snd] in *. subst res.
  rewrite Hc in *. split_and!; [done| |done]. unfold Store_get. rewrite Hr. cbn.
  rewrite lookup_insert_eq. unfold expired, sat_sub. cbn.
  by destruct (Z.ltb_spec ttl (Z.max 0 (now - now))); [lia|].
Qed.

(** A tombstone is accepted with any sequence number, and after it any older record of
    the same owner is: replaying two messages the owner signed long ago rolls the key
    back, below the sequence it had. *)
Theorem tombstone_rolls_back `{Crypto} `{!Message proto.Record_}
    (s : Store) (tomb old : StoredRecord) :
  put_record_check Store_new tomb = Ok tt → kind tomb = KIND_TOMBSTONE →
  put_record_check Store_new old = Ok tt → kind old = KIND_MUTABLE → key old = key tomb →
  records (put_record (put_record s tomb false).1 old false).1 !! key old = Some old.
Proof.
  intros Ht Htk Ho Hok Hkey.
  assert (Hany : ∀ s' r, kind r = KIND_TOMBSTONE → put_record_check s' r = put_record_check Store_new r).
  { intros s' r Hr. unfold put_record_check. by rewrite Hr. }
  rewrite put_record_records, put_record_result, orb_true_r, andb_true_r.
  assert (put_record_check (put_record s tomb false).1 old = Ok tt) as ->; [|apply lookup_insert_eq].
  revert Ho. unfold put_record_check. rewrite Hok. cbn [Z.eqb KIND_MUTABLE KIND_IMMUTABLE].
  destruct (_ <? _)%Z; [done|]. destruct (negb _); [done|]. intros _.
  rewrite put_record_records, put_record_result, Hany, Ht, orb_true_r by done. cbn [is_ok andb].
  rewrite Hkey, lookup_insert_eq, Htk. by rewrite andb_false_r.
Qed.

(** A restart renews every record: whatever its age, a record read back from the log is
    stamped with the current time, so a record that had expired (and may have been
    collected) is served again for another full time-to-live. *)
Theorem reopen_renews_ttl `{Crypto} `{!Message proto.Record_} `{Crc32}
    (d : Dir) (r : StoredRecord) (now : Z) :
  wal_log d = Some (wal_bytes [mkWalRecord TYPE_RECORD (StoredRecord_encode r)]) →
  fits (mkWalRecord TYPE_RECORD (StoredRecord_encode r)) →
  wire_ok r → authentic r = true → kind r ≠ KIND_TOMBSTONE →
  Store_get (Store_open d now) now (key r) = Some (restamp now r).
Proof.
  intros Hd Hf Hw Ha Hk. unfold Store_open. rewrite Hd. unfold replay_wal.
  rewrite frames_wal' by (by repeat constructor). cbn -[replay_record TYPE_RECORD].
  unfold frame_of. cbn [wr_ty wr_payload]. rewrite replay_own_record by done.
  unfold Store_get. cbn [records with_records]. rewrite lookup_insert_eq.
  unfold expired, restamp, sat_sub. cbn [ttl_secs stored_unix kind].
  assert (0 ≤ ttl_secs r)%Z by apply Hw.
  destruct (Z.ltb_spec (ttl_secs r) (Z.max 0 (now - now))); [lia|].
  by destruct (Z.eqb_spec (kind r) KIND_TOMBSTONE).
Qed.

(** Compaction discards the stored records: it empties [wal.log], and the records passed
    to it go to [snapshot.bin], which [Store::open] does not read. *)
Theorem compaction_drops_records `{Crypto} `{!Message proto.Record_} `{Crc32}
    (ps ps' : Peerstore) (d d' : Dir) (values : list PeerInfo) (recs : list bytes) (now : Z) :
  ps_dir ps = true → compact_with_records ps d values recs = (ps', d', true) →
  records (Store_open d' now) = ∅.
Proof.
  intros Hd. unfold compact_with_records. rewrite Hd. cbn [negb].
  destruct (write_frames _ _) as [[tmp rm] [|]]; cbn [negb]; intros [= <- <-]. done.
Qed.

(** A record signed with time-to-live 0 is no longer authentic once it has been on the
    wire or in the log: decoding replaces 0 by a day, under the unchanged signature. *)
Theorem zero_ttl_loses_signature :
  let sign ttl := vec_to_list (sign_record sample_kp
    (mutable_key (vec_to_list (kp_public sample_kp)) [] []) (bstr "v") 1 ttl 0) in
  let r := mkStoredRecord (mutable_key (vec_to_list (kp_public sample_kp)) [] []) (bstr "v") 1 0 0
             (vec_to_list (kp_public sample_kp)) (sign 0%Z) KIND_MUTABLE [] [] 5 false in
  authentic r = true ∧
  authentic <$> record_from_proto 5 (to_proto r) = Some false.
Proof. vm_compute. split; reflexivity. Qed.
