(* ===== verification/Pool.v ===== *)
(** * Buffer pool and lookup arena ([src/pool.rs])

    A [Vec<u8>] is its contents and its capacity.  The pool's cells are single-threaded
    [RefCell]s, so an operation is a function on the pool's state. *)

From S2P Require Import Prelude Bytes Types.

Definition BUFFER_SIZE : nat := 2048.
Definition POOL_CAP : nat := 256.

Record Buffer := mkBuffer { buf_data : bytes; buf_capacity : nat }.

(** [vec![0u8; n]] *)
Definition zeroed (n : nat) : Buffer := mkBuffer (replicate n (z2b 0)) n.

(** [clear] followed by [resize(BUFFER_SIZE, 0)]; a vector that is too small grows to at
    least twice its capacity. *)
Definition clear_resize (b : Buffer) : Buffer :=
  mkBuffer (replicate BUFFER_SIZE (z2b 0))
    (if buf_capacity b <? BUFFER_SIZE then Nat.max (2 * buf_capacity b) BUFFER_SIZE
     else buf_capacity b).

Record BufferPool := mkBufferPool { free : list Buffer; hits : Z; misses : Z }.

Definition BufferPool_new : BufferPool :=
  mkBufferPool (replicate 64 (zeroed BUFFER_SIZE)) 0 0.

Definition BufferPool_take (p : BufferPool) : BufferPool * Buffer :=
  match pop (free p) with
  | Some (b, rest) => (mkBufferPool rest (wrap 64 (hits p + 1)) (misses p), clear_resize b)
  | None => (mkBufferPool (free p) (hits p) (wrap 64 (misses p + 1)), zeroed BUFFER_SIZE)
  end.

Definition recycle (p : BufferPool) (b : Buffer) : BufferPool :=
  if (PMTU_FLOOR <=? buf_capacity b) && (length (free p) <? POOL_CAP)
  then mkBufferPool (free p ++ [mkBuffer [] (buf_capacity b)]) (hits p) (misses p)
  else p.

Definition BufferPool_stats (p : BufferPool) : Z * Z := (hits p, misses p).

(** ** The bump arena: [alloc] returns the range of the slice it hands out. *)

Record LookupArena := mkLookupArena { arena_buf : bytes; cursor : nat }.

Definition arena_with_capacity (n : nat) : LookupArena :=
  mkLookupArena (replicate n (z2b 0)) 0.

Definition alloc (a : LookupArena) (n : nat) : LookupArena * option (nat * nat) :=
  if length (arena_buf a) <? cursor a + n then (a, None)
  else let start := cursor a in
       (mkLookupArena (arena_buf a) (cursor a + n), Some (start, cursor a + n)).

Definition arena_reset (a : LookupArena) : LookupArena := mkLookupArena (arena_buf a) 0.

(** ** Runs *)

Inductive pool_op := OpTake | OpRecycle (b : Buffer).

(** A run of the pool, with the buffers it handed out. *)
Fixpoint pool_run (p : BufferPool) (ops : list pool_op) : BufferPool * list Buffer :=
  match ops with
  | [] => (p, [])
  | OpTake :: ops =>
      let '(p, b) := BufferPool_take p in
      let '(p, bs) := pool_run p ops in (p, b :: bs)
  | OpRecycle b :: ops => pool_run (recycle p b) ops
  end.

(** The ranges a run of allocations hands out. *)
Fixpoint alloc_all (a : LookupArena) (ns : list nat) : LookupArena * list (nat * nat) :=
  match ns with
  | [] => (a, [])
  | n :: ns =>
      let '(a, r) := alloc a n in
      let '(a, rs) := alloc_all a ns in
      (a, match r with Some r => r :: rs | None => rs end)
  end.

Lemma alloc_all_spec ns a a' rs :
  alloc_all a ns = (a', rs) → cursor a ≤ length (arena_buf a) →
  arena_buf a' = arena_buf a ∧ cursor a' ≤ length (arena_buf a) ∧
  Forall (λ r, cursor a ≤ r.1 ≤ r.2 ∧ r.2 ≤ cursor a') rs ∧
  StronglySorted (λ r r', r.2 ≤ r'.1) rs ∧ cursor a ≤ cursor a'.
Proof.
  revert a a' rs. induction ns as [|n ns IH]; intros a a' rs; cbn [alloc_all].
  { intros [= <- <-] ?. split_and!; [done|done|constructor|constructor|lia]. }
  unfold alloc. destruct (Nat.ltb_spec (length (arena_buf a)) (cursor a + n)) as [Hlt|Hge].
  - destruct (alloc_all a ns) as [a1 rs1] eqn:H1. intros [= <- <-] ?. by apply (IH a).
  - destruct (alloc_all _ ns) as [a1 rs1] eqn:H1. intros [= <- <-] Hc.
    apply IH in H1 as (Hb & Hcur & Hall & Hs & Hle); cbn [cursor arena_buf] in *; [|done].
    split_and!; [done|done| |constructor; [done|]|lia].
    + constructor; [simpl; lia|]. eapply Forall_impl; [done|]. simpl. intros; lia.
    + eapply Forall_impl; [done|]. simpl. intros; lia.
Qed.

(** ** Theorems *)

(** the pool never leaks data and never grows without bound.  In any run of takes
    and recycles from a fresh pool, with arbitrary buffers handed back, every buffer
    handed out is exactly 2048 zero bytes, at most 256 buffers are ever kept, and (for
    fewer than [2^64] takes) hits and misses add up to the takes. *)
Theorem pool_run_correct (ops : list pool_op) :
  let '(p, bs) := pool_run BufferPool_new ops in
  Forall (λ b, buf_data b = replicate 2048 (z2b 0)) bs ∧
  length (free p) ≤ POOL_CAP ∧
  ((Z.of_nat (length bs) < 2 ^ 64)%Z → (hits p + misses p = Z.of_nat (length bs))%Z).
Proof.
  assert (Hgen : ∀ ops p, length (free p) ≤ POOL_CAP → (0 ≤ hits p)%Z → (0 ≤ misses p)%Z →
    let '(p', bs) := pool_run p ops in
    Forall (λ b, buf_data b = replicate 2048 (z2b 0)) bs ∧ length (free p') ≤ POOL_CAP ∧
    ((hits p + misses p + Z.of_nat (length bs) < 2 ^ 64)%Z →
     (hits p' + misses p' = hits p + misses p + Z.of_nat (length bs))%Z)).
  { clear ops. induction ops as [|[|b] ops IH]; intros p Hp Hh Hm; cbn [pool_run].
    - split_and!; [constructor|done|simpl; lia].
    - unfold BufferPool_take. destruct (pop (free p)) as [[b rest]|] eqn:Hpop.
      + apply pop_Some in Hpop. rewrite Hpop, length_app in Hp. simpl in Hp.
        specialize (IH (mkBufferPool rest (wrap 64 (hits p + 1)) (misses p))
          ltac:(simpl; lia) ltac:(apply (wrap_in_u 64); lia) ltac:(done)).
        destruct (pool_run _ ops) as [p' bs]. cbn [hits misses] in IH.
        destruct IH as (? & ? & IH). split_and!; [by constructor|done|].
        cbn [length]. intros Hlt. rewrite wrap_small in IH by (unfold in_u; lia). lia.
      + specialize (IH (mkBufferPool (free p) (hits p) (wrap 64 (misses p + 1)))
          ltac:(done) ltac:(done) ltac:(apply (wrap_in_u 64); lia)).
        destruct (pool_run _ ops) as [p' bs]. cbn [hits misses] in IH.
        destruct IH as (? & ? & IH). split_and!; [by constructor|done|].
        cbn [length]. intros Hlt. rewrite wrap_small in IH by (unfold in_u; lia). lia.
    - assert (length (free (recycle p b)) ≤ POOL_CAP).
      { unfold recycle. destruct (_ && _) eqn:Hc; [|done]. bool_to_prop.
        cbn [free]. rewrite length_app. simpl. lia. }
      specialize (IH (recycle p b)). unfold recycle in *. by destruct (_ && _); apply IH. }
  specialize (Hgen ops BufferPool_new). cbn [hits misses] in Hgen.
  destruct (pool_run BufferPool_new ops) as [p bs]. apply Hgen; [simpl; unfold POOL_CAP; lia|done|done].
Qed.

(** the arena hands out disjoint slices.  Any run of allocations on an arena of
    capacity [n] returns ranges inside the buffer, in increasing order and pairwise
    disjoint; an allocation fails exactly when the rest of the buffer is too short, and
    after a reset the whole capacity is available again. *)
Theorem arena_correct (n : nat) (ns : list nat) (m : nat) :
  let '(a, rs) := alloc_all (arena_with_capacity n) ns in
  Forall (λ r, r.1 ≤ r.2 ≤ n) rs ∧ StronglySorted (λ r r', r.2 ≤ r'.1) rs ∧
  ((alloc a m).2 = None ↔ n < cursor a + m) ∧
  (alloc (arena_reset a) n).2 = Some (0, n).
Proof.
  destruct (alloc_all (arena_with_capacity n) ns) as [a rs] eqn:Ha.
  apply alloc_all_spec in Ha as (Hb & Hc & Hall & Hs & _); [|simpl; lia].
  assert (Hlen : length (arena_buf a) = n) by (rewrite Hb; simpl; apply length_replicate).
  rewrite <-Hb, Hlen in Hc. split_and!; [|done| |].
  - eapply Forall_impl; [done|]. simpl. intros; lia.
  - unfold alloc. rewrite Hlen. destruct (Nat.ltb_spec n (cursor a + m)); simpl; split; (done || lia).
  - unfold alloc, arena_reset. cbn [arena_buf cursor]. rewrite Hlen.
    destruct (Nat.ltb_spec n (0 + n)); [lia|done].
Qed.
