(* ===== verification/Lookup.v ===== *)
(** * Iterative lookups ([src/lookup.rs])

    One lookup is the record [Lookup]; the shard drives it by [next_batch], [note_sent],
    [on_timeouts] and the three reply handlers.  [Instant]s and [Duration]s are integers
    of nanoseconds, and [Instant::now()] is an argument; a [HashSet] is a [gset], an
    [ArrayVec<_, n>] a list that [try_push] keeps within [n]. *)

From S2P Require Import Prelude Bytes Types Crypto Store Pool.

Inductive LookupKind := FindNode | FindValue.

Inductive PrivacyMode := PrivacyNone | PrivacyBlind | PrivacyRelay.

Record InFlight := mkInFlight { if_id : NodeId; if_corr : Z; if_sent : Z }.

Record Lookup := mkLookup {
  lk_kind : LookupKind;
  target : Key;
  privacy : PrivacyMode;
  lk_k : nat;
  alpha : nat;
  started : Z;
  budget : Z;
  queried : gset NodeId;
  in_flight : list InFlight;
  shortlist : list PeerInfo;
  best : list NodeId;
  found_record : option StoredRecord;
  lk_providers : list (NodeId * bytes);
  retries : gset NodeId;
  lk_done : bool;
  probe_targets : list Key;
}.

Definition millis (n : Z) : Z := n * 1000000.

Definition sort_shortlist (l : list PeerInfo) (t : Key) : list PeerInfo := sort_by (peer_leb t) l.

(** Flip bit 0 of byte [i]. *)
Definition flip_low_bit (i : nat) (b : bytes) : bytes := alter (byte_xor (z2b 1)) i b.

Definition neighbor_probes (t : Key) : list Key :=
  let a := mkKey (list_to_arr 32 (flip_low_bit 31 (vec_to_list (kid t)))) in
  let b := mkKey (list_to_arr 32 (flip_low_bit 30 (vec_to_list (kid t)))) in
  try_push 4 (try_push 4 [] a) b.

Definition Lookup_new (kd : LookupKind) (t : Key) (seeds : list PeerInfo) (pm : PrivacyMode) (now : Z)
    : Lookup :=
  {| lk_kind := kd; target := t; privacy := pm; lk_k := K_DEFAULT; alpha := ALPHA_DEFAULT;
     started := now; budget := millis 1500; queried := ∅; in_flight := [];
     shortlist := sort_shortlist seeds t; best := []; found_record := None; lk_providers := [];
     retries := ∅; lk_done := false;
     probe_targets := match pm with PrivacyBlind => neighbor_probes t | _ => [] end |}.

(** ** Updates of single fields *)

Definition set_done (l : Lookup) : Lookup :=
  {| lk_kind := lk_kind l; target := target l; privacy := privacy l; lk_k := lk_k l; alpha := alpha l;
     started := started l; budget := budget l; queried := queried l; in_flight := in_flight l;
     shortlist := shortlist l; best := best l; found_record := found_record l;
     lk_providers := lk_providers l; retries := retries l; lk_done := true;
     probe_targets := probe_targets l |}.

Definition set_flight (l : Lookup) (q : gset NodeId) (fl : list InFlight) : Lookup :=
  {| lk_kind := lk_kind l; target := target l; privacy := privacy l; lk_k := lk_k l; alpha := alpha l;
     started := started l; budget := budget l; queried := q; in_flight := fl;
     shortlist := shortlist l; best := best l; found_record := found_record l;
     lk_providers := lk_providers l; retries := retries l; lk_done := lk_done l;
     probe_targets := probe_targets l |}.

Definition set_providers (l : Lookup) (ps : list (NodeId * bytes)) : Lookup :=
  {| lk_kind := lk_kind l; target := target l; privacy := privacy l; lk_k := lk_k l; alpha := alpha l;
     started := started l; budget := budget l; queried := queried l; in_flight := in_flight l;
     shortlist := shortlist l; best := best l; found_record := found_record l;
     lk_providers := ps; retries := retries l; lk_done := lk_done l;
     probe_targets := probe_targets l |}.

(** ** Operations *)

(** The loop of [next_batch] over the shortlist. *)
Fixpoint batch_loop (q : gset NodeId) (fl : list InFlight) (al : nat) (sl batch : list PeerInfo)
    : list PeerInfo :=
  match sl with
  | [] => batch
  | p :: sl =>
      if bool_decide (pi_id p ∈ q) then batch_loop q fl al sl batch
      else if existsb (λ f, bool_decide (if_id f = pi_id p)) fl then batch_loop q fl al sl batch
      else if al <=? length batch + length fl then batch
      else batch_loop q fl al sl (try_push 8 batch p)
  end.

Definition next_batch (l : Lookup) (now : Z) : Lookup * list PeerInfo :=
  if lk_done l || (budget l <=? sat_sub now (started l))%Z then (set_done l, [])
  else
    let batch := batch_loop (queried l) (in_flight l) (alpha l) (shortlist l) [] in
    if (length batch =? 0) && (length (in_flight l) =? 0) then (set_done l, batch)
    else (l, batch).

Definition note_sent (l : Lookup) (id : NodeId) (correlation now : Z) : Lookup :=
  set_flight l ({[id]} ∪ queried l) (try_push 8 (in_flight l) (mkInFlight id correlation now)).

Definition timed_out (now : Z) (f : InFlight) : bool := (millis 400 <? sat_sub now (if_sent f))%Z.

(** [for id in &dead { if !retries.contains(id) { retries.insert; queried.remove } }] *)
Definition retry_dead (st : gset NodeId * gset NodeId) (id : NodeId) : gset NodeId * gset NodeId :=
  let '(q, rt) := st in
  if bool_decide (id ∈ rt) then (q, rt) else (q ∖ {[id]}, {[id]} ∪ rt).

Definition on_timeouts (l : Lookup) (now : Z) : Lookup * list NodeId :=
  let dead := if_id <$> filter (λ f, timed_out now f = true) (in_flight l) in
  let flight := filter (λ f, timed_out now f = false) (in_flight l) in
  let '(q, rt) := foldl retry_dead (queried l, retries l) dead in
  let al := if length dead =? 0 then alpha l else Nat.min (alpha l + 1) ALPHA_MAX in
  ({| lk_kind := lk_kind l; target := target l; privacy := privacy l; lk_k := lk_k l; alpha := al;
      started := started l; budget := budget l; queried := q; in_flight := flight;
      shortlist := shortlist l; best := best l; found_record := found_record l;
      lk_providers := lk_providers l; retries := rt; lk_done := lk_done l;
      probe_targets := probe_targets l |}, dead).

Definition drop_flight (l : Lookup) (from : NodeId) : Lookup :=
  set_flight l (queried l) (filter (λ f, if_id f ≠ from) (in_flight l)).

(** [for p in peers { if !shortlist.iter().any(|s| s.id == p.id) { shortlist.push(p) } }] *)
Definition merge_peer (sl : list PeerInfo) (p : PeerInfo) : list PeerInfo :=
  if existsb (λ s, bool_decide (pi_id s = pi_id p)) sl then sl else sl ++ [p].

Definition on_closer (l : Lookup) (from : NodeId) (peers : list PeerInfo) (rtt_us : Z) : Lookup :=
  let l := drop_flight l from in
  let al := if (rtt_us <? 80000)%Z then Nat.max (alpha l - 1) ALPHA_MIN else alpha l in
  let sl := sort_shortlist (foldl merge_peer (shortlist l) peers) (target l) in
  let now_best := pi_id <$> take (lk_k l) sl in
  let fin := bool_decide (now_best = best l) && (length (in_flight l) =? 0) &&
             forallb (λ id, bool_decide (id ∈ queried l)) now_best in
  {| lk_kind := lk_kind l; target := target l; privacy := privacy l; lk_k := lk_k l; alpha := al;
     started := started l; budget := budget l; queried := queried l; in_flight := in_flight l;
     shortlist := sl; best := now_best; found_record := found_record l;
     lk_providers := lk_providers l; retries := retries l; lk_done := fin || lk_done l;
     probe_targets := probe_targets l |}.

Definition on_record (l : Lookup) (from : NodeId) (rec : StoredRecord) : Lookup :=
  let l := drop_flight l from in
  {| lk_kind := lk_kind l; target := target l; privacy := privacy l; lk_k := lk_k l; alpha := alpha l;
     started := started l; budget := budget l; queried := queried l; in_flight := in_flight l;
     shortlist := shortlist l; best := best l; found_record := Some rec;
     lk_providers := lk_providers l; retries := retries l; lk_done := true;
     probe_targets := probe_targets l |}.

Definition merge_provider (ps : list (NodeId * bytes)) (p : NodeId * bytes) : list (NodeId * bytes) :=
  if existsb (λ q, bool_decide (q.1 = p.1)) ps then ps else ps ++ [p].

Definition on_providers (l : Lookup) (from : NodeId) (providers : list (NodeId * bytes))
    (closer : list PeerInfo) : Lookup :=
  let l := drop_flight l from in
  let l := set_providers l (foldl merge_provider (lk_providers l) providers) in
  on_closer l from closer 0.

Definition finish_peers (l : Lookup) : list PeerInfo := take (lk_k l) (shortlist l).

(** [merge_step]: the arena after the scratch allocation, and the count. *)
Definition merge_step (a : LookupArena) (incoming : list PeerInfo) (t : Key) : LookupArena * nat :=
  let a := arena_reset a in
  let '(a, _) := alloc a (Z.to_nat (Z.min (sat_mul 64 (Z.of_nat (length incoming)) 32) 1024)) in
  let tmp := foldl (try_push 64) [] (take 64 incoming) in
  let tmp := sort_shortlist tmp t in
  (a, length tmp).

(** ** Runs of a lookup *)

(** The shard's dispatch: for each peer of the batch, a request goes out with some
    correlation at some time, or does not (no address, or the message does not fit). *)
Definition send_one (l : Lookup) (po : PeerInfo * option (Z * Z)) : Lookup :=
  match po.2 with
  | Some (c, t) => note_sent l (pi_id po.1) c t
  | None => l
  end.

Definition send_batch (l : Lookup) (b : list (PeerInfo * option (Z * Z))) : Lookup :=
  foldl send_one l b.

Definition sent_ids (b : list (PeerInfo * option (Z * Z))) : list NodeId :=
  omap (λ po, match po.2 with Some _ => Some (pi_id po.1) | None => None end) b.

(** A lookup with its history: the ids a request was sent to, and the peers it heard of. *)
Inductive lk_step : Lookup * list NodeId * list NodeId → Lookup * list NodeId * list NodeId → Prop :=
  | s_dispatch l tr hd now outs :
      lk_step (l, tr, hd)
        (send_batch (next_batch l now).1 (zip (next_batch l now).2 outs),
         tr ++ sent_ids (zip (next_batch l now).2 outs), hd)
  | s_timeouts l tr hd now : lk_step (l, tr, hd) ((on_timeouts l now).1, tr, hd)
  | s_closer l tr hd from peers rtt :
      lk_step (l, tr, hd) (on_closer l from peers rtt, tr, hd ++ (pi_id <$> peers))
  | s_record l tr hd from rec : lk_step (l, tr, hd) (on_record l from rec, tr, hd)
  | s_providers l tr hd from provs closer :
      lk_step (l, tr, hd) (on_providers l from provs closer, tr, hd ++ (pi_id <$> closer)).

(** How often [id] occurs in the history. *)
Definition times (id : NodeId) (tr : list NodeId) : nat := length (filter (λ x, x = id) tr).

Definition memb (id : NodeId) (s : gset NodeId) : nat := if bool_decide (id ∈ s) then 1 else 0.

Record flight_inv (l : Lookup) (tr : list NodeId) : Prop := {
  fl_nodup : NoDup (if_id <$> in_flight l);
  fl_queried : ∀ id, id ∈ if_id <$> in_flight l → id ∈ queried l;
  fl_count : ∀ id, times id tr = memb id (queried l) + memb id (retries l);
}.

Record list_inv (l : Lookup) (hd : list NodeId) : Prop := {
  ls_alpha : ALPHA_MIN ≤ alpha l ≤ ALPHA_MAX;
  ls_len : length (in_flight l) ≤ 8;
  ls_sorted : StronglySorted (leb_rel (peer_leb (target l))) (shortlist l);
  ls_nodup : NoDup (pi_id <$> shortlist l);
  ls_heard : ∀ id, id ∈ pi_id <$> shortlist l ↔ id ∈ hd;
}.

(** ** The batch *)

Definition candidate (l : Lookup) (p : PeerInfo) : Prop :=
  pi_id p ∉ queried l ∧ pi_id p ∉ if_id <$> in_flight l.

#[export] Instance candidate_dec l p : Decision (candidate l p).
Proof. unfold candidate. apply _. Defined.

Lemma existsb_flight (fl : list InFlight) id :
  existsb (λ f, bool_decide (if_id f = id)) fl = bool_decide (id ∈ if_id <$> fl).
Proof.
  apply eq_true_iff_eq. rewrite existsb_elem, bool_decide_eq_true, list_elem_of_fmap.
  setoid_rewrite bool_decide_eq_true. naive_solver.
Qed.

Lemma batch_loop_spec l al sl b :
  al ≤ 8 →
  batch_loop (queried l) (in_flight l) al sl b =
    b ++ take (al - length (in_flight l) - length b) (filter (candidate l) sl).
Proof.
  intros Hal. revert b. induction sl as [|p sl IH]; intros b; cbn [batch_loop].
  { by rewrite filter_nil, take_nil, app_nil_r. }
  rewrite filter_cons, existsb_flight.
  destruct (decide (candidate l p)) as [[Hq Hf]|Hc].
  - rewrite !bool_decide_eq_false_2 by done.
    destruct (Nat.leb_spec al (length b + length (in_flight l))).
    + replace (al - length (in_flight l) - length b) with 0 by lia. by rewrite app_nil_r.
    + rewrite try_push_fits by lia. rewrite IH, length_app, <-(assoc_L (++)). simpl.
      by replace (al - length (in_flight l) - length b)
        with (S (al - length (in_flight l) - (length b + 1))) by lia.
  - case_bool_decide; [apply IH|]. case_bool_decide; [apply IH|]. by destruct Hc.
Qed.

Lemma next_batch_eq l now :
  alpha l ≤ 8 →
  next_batch l now =
    if lk_done l || (budget l <=? sat_sub now (started l))%Z then (set_done l, [])
    else let batch := take (alpha l - length (in_flight l)) (filter (candidate l) (shortlist l)) in
         if (length batch =? 0) && (length (in_flight l) =? 0) then (set_done l, batch) else (l, batch).
Proof. intros. unfold next_batch. by rewrite batch_loop_spec, Nat.sub_0_r. Qed.

Lemma next_batch_state l now : (next_batch l now).1 = l ∨ (next_batch l now).1 = set_done l.
Proof. unfold next_batch. destruct (_ || _); [auto|]. destruct (_ && _); auto. Qed.

Lemma batch_candidates l now p :
  alpha l ≤ 8 → p ∈ (next_batch l now).2 → candidate l p ∧ p ∈ shortlist l.
Proof.
  intros Ha. rewrite next_batch_eq by done. destruct (_ || _); [by intros ?%not_elem_of_nil|].
  cbv zeta. set (b := take _ _).
  assert (p ∈ b → candidate l p ∧ p ∈ shortlist l); [|by destruct (_ && _)].
  intros Hp. assert (p ∈ filter (candidate l) (shortlist l)) as Hf%list_elem_of_filter; [|done].
  eapply elem_of_sublist; [done|]. apply sublist_take.
Qed.

Lemma batch_sublist l now :
  alpha l ≤ 8 → sublist (next_batch l now).2 (shortlist l).
Proof.
  intros Ha. rewrite next_batch_eq by done. destruct (_ || _); [apply sublist_nil_l|].
  assert (sublist (take (alpha l - length (in_flight l)) (filter (candidate l) (shortlist l))) (shortlist l)).
  { etrans; [apply sublist_take|apply sublist_filter]. }
  cbv zeta. by destruct (_ && _).
Qed.

Lemma set_done_flight l tr : flight_inv l tr → flight_inv (set_done l) tr.
Proof. by intros []. Qed.

Lemma set_done_list l hd : list_inv l hd → list_inv (set_done l) hd.
Proof. by intros []. Qed.

(** ** Requests *)

Lemma times_app id tr tr' : times id (tr ++ tr') = times id tr + times id tr'.
Proof. unfold times. by rewrite filter_app, length_app. Qed.

Lemma times_single id x : times id [x] = if decide (x = id) then 1 else 0.
Proof. unfold times. rewrite filter_cons, filter_nil. by case_decide. Qed.

Lemma note_sent_inv l tr id c t :
  flight_inv l tr → id ∉ queried l → flight_inv (note_sent l id c t) (tr ++ [id]).
Proof.
  intros [Hnd Hq Hc] Hid. split.
  - cbn. unfold try_push. destruct (_ <? _); [|done]. rewrite fmap_app. apply NoDup_app.
    split_and!; [done| |apply NoDup_singleton].
    intros x Hx ->%list_elem_of_singleton. by apply Hid, Hq.
  - cbn. intros x (f & -> & Hf)%list_elem_of_fmap. apply elem_of_union.
    apply elem_of_try_push in Hf as [Hf| ->]; [right|left; cbn; set_solver].
    apply Hq. by apply list_elem_of_fmap_2.
  - intros x. rewrite times_app, times_single, Hc. unfold memb. cbn.
    destruct (decide (id = x)) as [<-|Hne].
    + rewrite (bool_decide_eq_false_2 (id ∈ queried l)) by done.
      rewrite (bool_decide_eq_true_2 (id ∈ {[id]} ∪ queried l)) by set_solver. lia.
    + rewrite (bool_decide_ext (x ∈ {[id]} ∪ queried l) (x ∈ queried l)) by set_solver. lia.
Qed.

Lemma send_batch_inv b l tr :
  flight_inv l tr → NoDup (pi_id <$> b.*1) → (∀ p, p ∈ b.*1 → pi_id p ∉ queried l) →
  flight_inv (send_batch l b) (tr ++ sent_ids b).
Proof.
  revert l tr. induction b as [|[p o] b IH]; intros l tr Hi Hnd Hq; [by rewrite app_nil_r|].
  cbn [fmap list_fmap fst] in *. apply NoDup_cons in Hnd as [Hp Hnd].
  cbn [send_batch foldl]. change (foldl send_one ?x b) with (send_batch x b).
  destruct o as [[c t]|]; cbn [send_one sent_ids omap list_omap snd fst].
  - rewrite (cons_middle (pi_id p)), (assoc_L (++)). apply IH; [|done|].
    + apply note_sent_inv; [done|]. apply Hq. by left.
    + intros p' Hp'. cbn. apply not_elem_of_union. split; [|apply Hq; by right].
      intros Heq%elem_of_singleton. apply Hp. rewrite <-Heq. by apply list_elem_of_fmap_2.
  - apply IH; [done..|]. intros p' Hp'. apply Hq. by right.
Qed.

Lemma send_batch_list b l hd : list_inv l hd → list_inv (send_batch l b) hd.
Proof.
  revert l. induction b as [|[p o] b IH]; intros l Hl; [done|].
  apply (IH (send_one l (p, o))). destruct o as [[c t]|]; [|done]. destruct Hl.
  split; try done. cbn. by apply try_push_length.
Qed.

(** ** Timeouts *)

Lemma retry_dead_spec dead q rt :
  let '(q', rt') := foldl retry_dead (q, rt) dead in
  ∀ id, (id ∈ rt' ↔ id ∈ rt ∨ id ∈ dead) ∧ (id ∈ q' ↔ id ∈ q ∧ (id ∉ dead ∨ id ∈ rt)).
Proof.
  revert q rt. induction dead as [|d dead IH]; intros q rt; [cbn; set_solver|].
  cbn [foldl retry_dead]. case_bool_decide as Hd.
  - specialize (IH q rt). destruct (foldl _ _ dead) as [q' rt']. intros id.
    specialize (IH id). rewrite elem_of_cons. destruct (decide (id = d)); naive_solver.
  - specialize (IH (q ∖ {[d]}) ({[d]} ∪ rt)). destruct (foldl _ _ dead) as [q' rt']. intros id.
    specialize (IH id). rewrite elem_of_cons. set_solver.
Qed.

Lemma filter_ids_nodup (P : InFlight → Prop) `{!∀ f, Decision (P f)} fl :
  NoDup (if_id <$> fl) → NoDup (if_id <$> filter P fl).
Proof. intros. eapply sublist_NoDup; [done|]. apply fmap_sublist, sublist_filter. Qed.

Lemma same_id_flight fl f g :
  NoDup (if_id <$> fl) → f ∈ fl → g ∈ fl → if_id f = if_id g → f = g.
Proof.
  intros Hnd [i Hi]%list_elem_of_lookup [j Hj]%list_elem_of_lookup Heq.
  assert (i = j) as ->; [|congruence].
  eapply NoDup_lookup; [done| |]; rewrite list_lookup_fmap, ?Hi, ?Hj; [done|]. simpl. congruence.
Qed.

Lemma on_timeouts_inv l tr now : flight_inv l tr → flight_inv (on_timeouts l now).1 tr.
Proof.
  intros [Hnd Hq Hc]. unfold on_timeouts. set (dead := if_id <$> _).
  pose proof (retry_dead_spec dead (queried l) (retries l)) as Hs.
  destruct (foldl _ _ dead) as [q rt].
  split; cbn [fst in_flight queried retries]; [by apply filter_ids_nodup| |].
  - intros id (f & -> & [Hf Hin]%list_elem_of_filter)%list_elem_of_fmap. apply Hs.
    split; [apply Hq; by apply list_elem_of_fmap_2|]. left.
    intros (g & Heq & [Hg Hin']%list_elem_of_filter)%list_elem_of_fmap.
    assert (f = g) as -> by (by apply (same_id_flight (in_flight l))). congruence.
  - intros id. rewrite Hc. unfold memb. destruct (Hs id) as [Hrt Hqq].
    assert (id ∈ dead → id ∈ queried l).
    { intros (f & -> & [_ Hin]%list_elem_of_filter)%list_elem_of_fmap.
      apply Hq. by apply list_elem_of_fmap_2. }
    destruct (decide (id ∈ dead)) as [Hd|Hd], (decide (id ∈ retries l)) as [Hr|Hr];
      repeat case_bool_decide; naive_solver.
Qed.

Lemma drop_flight_inv l tr from : flight_inv l tr → flight_inv (drop_flight l from) tr.
Proof.
  intros [Hnd Hq Hc]. split; [by apply filter_ids_nodup| |done].
  intros id (f & -> & [_ Hf]%list_elem_of_filter)%list_elem_of_fmap.
  apply Hq. by apply list_elem_of_fmap_2.
Qed.

(** ** The shortlist *)

Lemma sort_shortlist_sorted l t : StronglySorted (leb_rel (peer_leb t)) (sort_shortlist l t).
Proof. apply sort_by_sorted; eauto with molia. Qed.

Lemma sort_shortlist_ids l t : pi_id <$> sort_shortlist l t ≡ₚ pi_id <$> l.
Proof. unfold sort_shortlist. by rewrite sort_by_perm. Qed.

Lemma merge_peers_spec peers sl :
  NoDup (pi_id <$> sl) →
  NoDup (pi_id <$> foldl merge_peer sl peers) ∧
  ∀ id, id ∈ pi_id <$> foldl merge_peer sl peers ↔ id ∈ (pi_id <$> sl) ∨ id ∈ (pi_id <$> peers).
Proof.
  revert sl. induction peers as [|p peers IH]; intros sl Hnd; cbn [foldl].
  { split; [done|]. intros id. cbn. set_solver. }
  assert (Hex : existsb (λ s, bool_decide (pi_id s = pi_id p)) sl = bool_decide (pi_id p ∈ pi_id <$> sl)).
  { apply eq_true_iff_eq. rewrite existsb_elem, bool_decide_eq_true, list_elem_of_fmap.
    setoid_rewrite bool_decide_eq_true. naive_solver. }
  unfold merge_peer at 2 4. rewrite Hex. cbn [fmap list_fmap]. setoid_rewrite elem_of_cons.
  case_bool_decide as Hp.
  - destruct (IH sl Hnd) as [? Hids]. split; [done|]. intros id. rewrite Hids. naive_solver.
  - destruct (IH (sl ++ [p])) as [? Hids].
    { rewrite fmap_app. apply NoDup_app. split_and!; [done| |apply NoDup_singleton].
      intros x Hx ->%list_elem_of_singleton. done. }
    split; [done|]. intros id. rewrite Hids, fmap_app, elem_of_app. cbn.
    rewrite list_elem_of_singleton. naive_solver.
Qed.

Lemma on_closer_list l hd from peers rtt :
  list_inv l hd → list_inv (on_closer l from peers rtt) (hd ++ (pi_id <$> peers)).
Proof.
  intros [Ha Hlen Hs Hnd Hh]. destruct (merge_peers_spec peers (shortlist l) Hnd) as [Hnd' Hids].
  split; cbn [on_closer alpha in_flight target shortlist drop_flight set_flight].
  - unfold ALPHA_MIN, ALPHA_MAX in *. destruct (_ <? _)%Z; lia.
  - etrans; [apply filter_length_le|done].
  - apply sort_shortlist_sorted.
  - by rewrite sort_shortlist_ids.
  - intros id. rewrite sort_shortlist_ids, Hids, elem_of_app, Hh. done.
Qed.

Lemma on_closer_flight l tr from peers rtt :
  flight_inv l tr → flight_inv (on_closer l from peers rtt) tr.
Proof. intros Hi. by destruct (drop_flight_inv l tr from Hi). Qed.

Lemma on_timeouts_list l hd now : list_inv l hd → list_inv (on_timeouts l now).1 hd.
Proof.
  intros [Ha Hlen Hs Hnd Hh]. unfold on_timeouts. destruct (foldl _ _ _) as [q rt].
  split; cbn; try done.
  - unfold ALPHA_MIN, ALPHA_MAX in *. destruct (_ =? 0); lia.
  - etrans; [apply filter_length_le|done].
Qed.

Lemma on_record_inv l tr hd from rec :
  flight_inv l tr → list_inv l hd →
  flight_inv (on_record l from rec) tr ∧ list_inv (on_record l from rec) hd.
Proof.
  intros Hf Hl. destruct (drop_flight_inv l tr from Hf). destruct Hl. split; [done|].
  split; cbn; try done. etrans; [apply filter_length_le|done].
Qed.

(** ** Reachable states *)

Lemma lk_inv_step x y :
  lk_step x y → flight_inv x.1.1 x.1.2 ∧ list_inv x.1.1 x.2 → flight_inv y.1.1 y.1.2 ∧ list_inv y.1.1 y.2.
Proof.
  intros [l tr hd now outs | l tr hd now | l tr hd from peers rtt | l tr hd from rec
         | l tr hd from provs closer] [Hf Hl]; cbn [fst snd] in *.
  - assert (Ha : alpha l ≤ 8) by apply Hl.
    assert (Hsub : sublist ((zip (next_batch l now).2 outs).*1) (next_batch l now).2).
    { generalize (next_batch l now).2. intros b. revert outs. induction b as [|p b IH]; intros [|o outs];
        cbn; try apply sublist_nil_l. by constructor. }
    split.
    + apply send_batch_inv.
      * destruct (next_batch_state l now) as [-> | ->]; [done|by apply set_done_flight].
      * eapply sublist_NoDup; [apply Hl|]. apply fmap_sublist. etrans; [done|by apply batch_sublist].
      * intros p Hp. eapply elem_of_sublist in Hp; [|done]. apply batch_candidates in Hp; [|done].
        destruct Hp as [[Hq _] _]. by destruct (next_batch_state l now) as [-> | ->].
    + apply send_batch_list. destruct (next_batch_state l now) as [-> | ->]; [done|by apply set_done_list].
  - split; [by apply on_timeouts_inv|by apply on_timeouts_list].
  - split; [by apply on_closer_flight|by apply on_closer_list].
  - by apply on_record_inv.
  - unfold on_providers. destruct (drop_flight_inv l tr from Hf). split.
    + by apply on_closer_flight.
    + apply on_closer_list. destruct Hl. split; cbn; try done.
      etrans; [apply filter_length_le|done].
Qed.

(** [Lookup::new] on the distinct peers of the routing table. *)
Definition lk_init (kd : LookupKind) (t : Key) (seeds : list PeerInfo) (pm : PrivacyMode) (now : Z)
    : Lookup * list NodeId * list NodeId :=
  (Lookup_new kd t seeds pm now, [], pi_id <$> seeds).

Lemma lk_inv_reach kd t seeds pm now y :
  NoDup (pi_id <$> seeds) → rtc lk_step (lk_init kd t seeds pm now) y →
  flight_inv y.1.1 y.1.2 ∧ list_inv y.1.1 y.2.
Proof.
  intros Hnd Hr.
  assert (Hi : flight_inv (lk_init kd t seeds pm now).1.1 [] ∧
               list_inv (lk_init kd t seeds pm now).1.1 (pi_id <$> seeds)).
  { split; split; cbn.
    - apply NoDup_nil_2.
    - by intros id ?%not_elem_of_nil.
    - intros id. unfold memb. by rewrite !bool_decide_eq_false_2 by set_solver.
    - unfold ALPHA_MIN, ALPHA_MAX, ALPHA_DEFAULT. lia.
    - lia.
    - apply sort_shortlist_sorted.
    - by rewrite sort_shortlist_ids.
    - intros id. by rewrite sort_shortlist_ids. }
  change [] with ((lk_init kd t seeds pm now).1.2) in Hi.
  change (pi_id <$> seeds) with ((lk_init kd t seeds pm now).2) in Hi.
  induction Hr as [x|x y z Hxy _ IH]; [done|]. by apply IH, (lk_inv_step x y).
Qed.

(** ** Seeds that name a peer more than once *)

Lemma times_sublist id l l' : sublist l l' → times id l ≤ times id l'.
Proof. induction 1; unfold times in *; rewrite ?filter_cons; repeat case_decide; cbn; lia. Qed.

Lemma times_perm id l l' : l ≡ₚ l' → times id l = times id l'.
Proof. unfold times. by intros ->. Qed.

Lemma times_not_in id l : id ∉ l → times id l = 0.
Proof.
  intros Hid. unfold times. destruct (filter _ l) as [|x xs] eqn:E; [done|].
  assert (x ∈ filter (λ x, x = id) l) as [-> ?]%list_elem_of_filter by (rewrite E; left). done.
Qed.

Lemma times_merge id peers sl n :
  1 ≤ n → times id (pi_id <$> sl) ≤ n → times id (pi_id <$> foldl merge_peer sl peers) ≤ n.
Proof.
  intros Hn. revert sl. induction peers as [|p peers IH]; intros sl Hsl; [done|]. cbn [foldl]. apply IH.
  unfold merge_peer. destruct (existsb _ sl) eqn:E; [done|].
  rewrite fmap_app, times_app.
  change (pi_id <$> [p]) with [pi_id p]. rewrite times_single. case_decide as Hp; [|lia].
  rewrite times_not_in; [lia|]. rewrite <-Hp. intros (s & Hs & Hin)%list_elem_of_fmap.
  assert (existsb (λ s, bool_decide (pi_id s = pi_id p)) sl = true) as Hex; [|congruence].
  apply existsb_elem. exists s. split; [done|]. by apply bool_decide_eq_true.
Qed.

Lemma send_batch_fields b l :
  queried (send_batch l b) = list_to_set (sent_ids b) ∪ queried l ∧
  retries (send_batch l b) = retries l ∧ alpha (send_batch l b) = alpha l ∧
  shortlist (send_batch l b) = shortlist l ∧
  (length (in_flight l) ≤ 8 → length (in_flight (send_batch l b)) ≤ 8).
Proof.
  revert l. induction b as [|[p o] b IH]; intros l.
  { split_and!; try done. cbn. set_solver. }
  change (send_batch l ((p, o) :: b)) with (send_batch (send_one l (p, o)) b).
  destruct (IH (send_one l (p, o))) as (-> & -> & -> & -> & Hlen).
  destruct o as [[c t]|]; cbn [send_one snd fst] in *; [|by split_and!].
  split_and!; try done.
  - cbn. set_solver.
  - intros Hl. apply Hlen. cbn. by apply try_push_length.
Qed.

Lemma sent_ids_sublist b outs : sublist (sent_ids (zip b outs)) (pi_id <$> b).
Proof.
  revert outs. induction b as [|p b IH]; intros [|[[c t]|] outs]; cbn; try apply sublist_nil_l.
  - apply sublist_skip, IH.
  - apply sublist_cons, IH.
Qed.

(** [cap id] bounds how often the shortlist names [id]. *)
Record dup_inv (cap : NodeId → nat) (l : Lookup) (tr : list NodeId) : Prop := {
  du_alpha : ALPHA_MIN ≤ alpha l ≤ ALPHA_MAX;
  du_len : length (in_flight l) ≤ 8;
  du_short : ∀ id, times id (pi_id <$> shortlist l) ≤ cap id;
  du_count : ∀ id, times id tr ≤ cap id * (memb id (queried l) + memb id (retries l));
}.

Lemma dup_inv_dispatch cap l tr now outs :
  dup_inv cap l tr →
  dup_inv cap (send_batch (next_batch l now).1 (zip (next_batch l now).2 outs))
    (tr ++ sent_ids (zip (next_batch l now).2 outs)).
Proof.
  intros [Ha Hlen Hs Hc]. assert (alpha l ≤ 8) as Ha8 by apply Ha.
  destruct (send_batch_fields (zip (next_batch l now).2 outs) (next_batch l now).1) as (Eq & Er & Ea & Es & El).
  assert (queried (next_batch l now).1 = queried l ∧ retries (next_batch l now).1 = retries l ∧
    alpha (next_batch l now).1 = alpha l ∧ shortlist (next_batch l now).1 = shortlist l ∧
    in_flight (next_batch l now).1 = in_flight l) as (E1 & E2 & E3 & E4 & E5)
    by (by destruct (next_batch_state l now) as [-> | ->]).
  rewrite E1 in Eq. rewrite E2 in Er. rewrite E3 in Ea. rewrite E4 in Es. rewrite E5 in El.
  set (sent := sent_ids (zip (next_batch l now).2 outs)) in *.
  assert (sublist sent (pi_id <$> (next_batch l now).2)) as Hsub by apply sent_ids_sublist.
  split; [by rewrite Ea|by apply El|by rewrite Es|].
  intros id. rewrite times_app, Eq, Er. specialize (Hc id).
  destruct (decide (id ∈ sent)) as [Hid|Hid].
  - assert (times id sent ≤ cap id).
    { etrans; [apply times_sublist; exact Hsub|]. etrans; [|apply Hs].
      apply times_sublist, fmap_sublist. by apply batch_sublist. }
    assert (id ∉ queried l) as Hq.
    { eapply elem_of_sublist in Hid; [|exact Hsub]. apply list_elem_of_fmap in Hid as (p & -> & Hp).
      by apply (batch_candidates l now) in Hp as [[? _] _]. }
    unfold memb in *. rewrite (bool_decide_eq_false_2 (id ∈ queried l)) in Hc by done.
    rewrite (bool_decide_eq_true_2 (id ∈ _ ∪ _)) by set_solver. case_bool_decide; lia.
  - rewrite (times_not_in id sent), Nat.add_0_r by done. etrans; [exact Hc|].
    apply Nat.mul_le_mono_l, Nat.add_le_mono_r. unfold memb.
    rewrite (bool_decide_ext (id ∈ _ ∪ queried l) (id ∈ queried l)) by set_solver. done.
Qed.

Lemma dup_inv_timeouts cap l tr now : dup_inv cap l tr → dup_inv cap (on_timeouts l now).1 tr.
Proof.
  intros [Ha Hlen Hs Hc]. unfold on_timeouts. set (dead := if_id <$> _).
  pose proof (retry_dead_spec dead (queried l) (retries l)) as Hd.
  destruct (foldl _ _ dead) as [q rt]. split; cbn [fst alpha in_flight shortlist queried retries].
  - unfold ALPHA_MIN, ALPHA_MAX in *. destruct (_ =? 0); lia.
  - etrans; [apply filter_length_le|done].
  - done.
  - intros id. etrans; [apply Hc|]. apply Nat.mul_le_mono_l. destruct (Hd id) as [Hrt Hq].
    unfold memb. destruct (decide (id ∈ dead)), (decide (id ∈ retries l)), (decide (id ∈ queried l));
      repeat case_bool_decide; first [lia|naive_solver].
Qed.

Lemma dup_inv_closer cap l tr from peers rtt :
  (∀ id, 1 ≤ cap id) → dup_inv cap l tr → dup_inv cap (on_closer l from peers rtt) tr.
Proof.
  intros Hcap [Ha Hlen Hs Hc]. split; cbn [on_closer alpha in_flight shortlist queried retries drop_flight set_flight].
  - unfold ALPHA_MIN, ALPHA_MAX in *. destruct (_ <? _)%Z; lia.
  - etrans; [apply filter_length_le|done].
  - intros id. rewrite (times_perm _ _ _ (sort_shortlist_ids _ _)). by apply times_merge.
  - done.
Qed.

Lemma dup_inv_step cap x y :
  (∀ id, 1 ≤ cap id) → lk_step x y → dup_inv cap x.1.1 x.1.2 → dup_inv cap y.1.1 y.1.2.
Proof.
  intros Hcap [l tr hd now outs | l tr hd now | l tr hd from peers rtt | l tr hd from rec
         | l tr hd from provs closer] Hi; cbn [fst snd] in *.
  - by apply dup_inv_dispatch.
  - by apply dup_inv_timeouts.
  - by apply dup_inv_closer.
  - destruct Hi. split; try done. cbn. etrans; [apply filter_length_le|done].
  - apply dup_inv_closer; [done|]. destruct Hi. split; try done. cbn. etrans; [apply filter_length_le|done].
Qed.

Lemma dup_inv_reach kd t seeds pm now y :
  rtc lk_step (lk_init kd t seeds pm now) y →
  dup_inv (λ id, Nat.max 1 (times id (pi_id <$> seeds))) y.1.1 y.1.2.
Proof.
  intros Hr.
  assert (dup_inv (λ id, Nat.max 1 (times id (pi_id <$> seeds)))
            (lk_init kd t seeds pm now).1.1 (lk_init kd t seeds pm now).1.2) as Hi.
  { split; cbn [lk_init fst snd alpha in_flight shortlist queried retries Lookup_new].
    - unfold ALPHA_MIN, ALPHA_MAX, ALPHA_DEFAULT. lia.
    - cbn. lia.
    - intros id. rewrite (times_perm _ _ _ (sort_shortlist_ids _ _)). lia.
    - intros id. unfold times. cbn. lia. }
  induction Hr as [x|x y z Hxy _ IH]; [done|]. apply IH, (dup_inv_step _ x y); [|done..]. intros id. cbn. lia.
Qed.

Lemma lk_const x y :
  rtc lk_step x y → lk_k y.1.1 = lk_k x.1.1 ∧ target y.1.1 = target x.1.1 ∧
    started y.1.1 = started x.1.1 ∧ budget y.1.1 = budget x.1.1 ∧
    (lk_done x.1.1 = true → lk_done y.1.1 = true).
Proof.
  assert (Hsend : ∀ b l, lk_k (send_batch l b) = lk_k l ∧ target (send_batch l b) = target l ∧
    started (send_batch l b) = started l ∧ budget (send_batch l b) = budget l ∧
    lk_done (send_batch l b) = lk_done l).
  { induction b as [|[p [[c t]|]] b IH]; intros l; [done| |].
    - apply (IH (note_sent l (pi_id p) c t)).
    - apply (IH l). }
  induction 1 as [x|x y z Hxy _ IH]; [done|].
  destruct IH as (-> & -> & -> & -> & Hd). destruct Hxy; cbn [fst snd] in *.
  - destruct (Hsend (zip (next_batch l now).2 outs) (next_batch l now).1) as (-> & -> & -> & -> & Hds).
    rewrite Hds in Hd.
    destruct (next_batch_state l now) as [Hs|Hs]; rewrite Hs in *; auto 10.
  - unfold on_timeouts in *. by destruct (foldl _ _ _).
  - split_and!; try done. intros Hl. apply Hd. cbn. rewrite Hl. apply orb_true_r.
  - split_and!; try done. intros _. by apply Hd.
  - split_and!; try done. intros Hl. apply Hd. cbn. rewrite Hl. apply orb_true_r.
Qed.

Lemma send_batch_done b l : lk_done (send_batch l b) = lk_done l.
Proof.
  revert l. induction b as [|[p [[c t]|]] b IH]; intros l; [done| |].
  - apply (IH (note_sent l (pi_id p) c t)).
  - apply (IH l).
Qed.

Lemma on_closer_ends l from peers rtt :
  lk_done l = false → lk_done (on_closer l from peers rtt) = true →
  in_flight (on_closer l from peers rtt) = [] ∧
  ∀ p, p ∈ finish_peers (on_closer l from peers rtt) → pi_id p ∈ queried (on_closer l from peers rtt).
Proof.
  intros Hd. unfold on_closer, finish_peers. cbn [lk_done in_flight queried lk_k shortlist drop_flight set_flight].
  rewrite Hd, orb_false_r. intros [[_ Hf]%andb_true_iff Hall]%andb_true_iff.
  apply Nat.eqb_eq, length_zero_iff_nil in Hf. split; [done|]. intros p Hp.
  rewrite forallb_elem in Hall. specialize (Hall (pi_id p) (list_elem_of_fmap_2 _ _ _ Hp)).
  by bool_to_prop.
Qed.

Lemma dispatch_ends l now outs :
  alpha l ≤ 8 ∧ 3 ≤ alpha l → lk_done l = false → lk_done (next_batch l now).1 = true →
  let l' := send_batch (next_batch l now).1 (zip (next_batch l now).2 outs) in
  (∃ now outs, l' = send_batch (next_batch l now).1 (zip (next_batch l now).2 outs) ∧
     (budget l ≤ sat_sub now (started l))%Z) ∨
  (in_flight l' = [] ∧ ∀ p, p ∈ finish_peers l' → pi_id p ∈ queried l').
Proof.
  intros [Ha Ha3] Hd Hd' l'. subst l'. rewrite (next_batch_eq l now) in * by done.
  rewrite Hd, orb_false_l in *. destruct (Z.leb_spec (budget l) (sat_sub now (started l))) as [Hle|Hgt].
  { left. exists now, outs. split; [|done]. rewrite next_batch_eq, Hd, orb_false_l by done.
    by destruct (Z.leb_spec (budget l) (sat_sub now (started l))); [|lia]. }
  right. cbv zeta in *. set (b := take _ _) in *.
  destruct (_ && _) eqn:Hz; cbn [fst snd] in *; [|congruence].
  apply andb_true_iff in Hz as [Hb Hf]. apply Nat.eqb_eq, length_zero_iff_nil in Hb, Hf.
  rewrite Hb. cbn. split; [done|]. intros p Hp.
  destruct (decide (pi_id p ∈ queried l)) as [|Hq]; [done|exfalso].
  assert (Hc : p ∈ filter (candidate l) (shortlist l)).
  { apply list_elem_of_filter. split; [split; [done|rewrite Hf; apply not_elem_of_nil]|].
    eapply elem_of_sublist; [done|apply sublist_take]. }
  unfold b in Hb. rewrite Hf in Hb. apply take_nil_inv in Hb.
  destruct Hb as [Hb|Hb]; [simpl in Hb; lia|]. rewrite Hb in Hc. by apply not_elem_of_nil in Hc.
Qed.

Definition lk_peer (n : Z) : PeerInfo :=
  PeerInfo_new (mkNodeId (list_to_arr 32 (be_bytes 32 n))) (AddrV4 (arr_repeat (z2b 127) 4) (1000 + n)).

(** ** Theorems *)

(** what [next_batch] hands out.  For a lookup that is neither done nor out of
    budget, the batch is the closest peers of the shortlist that were not queried and
    have no request in flight, cut so that with the batch at most [alpha] (at most 8)
    requests are in flight, so that no request record is ever dropped from the
    8-element in-flight vector; and the lookup is done exactly when there is no such peer
    and nothing is in flight.  Otherwise the batch is empty and the lookup is done. *)
Theorem next_batch_correct (kd : LookupKind) (t : Key) (seeds : list PeerInfo) (pm : PrivacyMode)
    (t0 now : Z) (l : Lookup) (tr hd : list NodeId) :
  NoDup (pi_id <$> seeds) → rtc lk_step (lk_init kd t seeds pm t0) (l, tr, hd) →
  let '(l', batch) := next_batch l now in
  if lk_done l || (budget l <=? sat_sub now (started l))%Z then batch = [] ∧ lk_done l' = true
  else
    batch = take (alpha l - length (in_flight l)) (filter (candidate l) (shortlist l)) ∧
    NoDup (pi_id <$> batch) ∧
    (batch ≠ [] → length batch + length (in_flight l) ≤ alpha l ≤ 8) ∧
    (∀ p q, p ∈ batch → q ∈ shortlist l → candidate l q → q ∉ batch →
       (dist (nid (pi_id p)) (kid (target l)) ≤ dist (nid (pi_id q)) (kid (target l)))%Z) ∧
    (lk_done l' = true ↔ in_flight l = [] ∧ ∀ p, p ∈ shortlist l → ¬ candidate l p).
Proof.
  intros Hnd Hr. destruct (lk_inv_reach _ _ _ _ _ _ Hnd Hr) as [_ Hl]. cbn [fst snd] in Hl.
  destruct Hl as [Ha Hlen Hs Hnds _]. unfold ALPHA_MAX, ALPHA_MIN in Ha.
  pose proof (next_batch_eq l now ltac:(lia)) as Heq.
  pose proof (batch_sublist l now ltac:(lia)) as Hsub.
  destruct (next_batch l now) as [l' batch]. cbn [fst snd] in *.
  destruct (_ || _) eqn:Hb; [by injection Heq as -> ->|].
  apply orb_false_iff in Hb as [Hd _]. cbv zeta in Heq.
  set (n := alpha l - length (in_flight l)) in *. set (c := filter (candidate l) (shortlist l)) in *.
  assert (Hbatch : batch = take n c) by (destruct (_ && _); by injection Heq).
  assert (Hsc : StronglySorted (leb_rel (peer_leb (target l))) c).
  { unfold c. clear -Hs. induction Hs as [|x sl Hsl IH Hx]; [constructor|]. rewrite filter_cons.
    case_decide; [|done]. constructor; [done|]. apply Forall_forall.
    intros y [_ Hy]%list_elem_of_filter. rewrite Forall_forall in Hx. by apply Hx. }
  split_and!; [done| | | |].
  - eapply sublist_NoDup; [done|]. by apply fmap_sublist.
  - intros Hne. rewrite Hbatch, length_take in *. destruct (decide (n = 0)) as [Hn|]; [|lia].
    by rewrite Hn in Hne.
  - intros p q Hp Hq Hcq Hnq. apply peer_leb_dist.
    assert (Hqc : q ∈ c) by (by apply list_elem_of_filter).
    rewrite Hbatch in Hp, Hnq. rewrite <-(take_drop n c), elem_of_app in Hqc.
    destruct Hqc as [|Hqc]; [done|]. by apply (sorted_take_drop _ n c).
  - destruct (_ && _) eqn:Hz; injection Heq as -> _.
    + bool_to_prop. split; [intros _|done]. apply length_zero_iff_nil in H0.
      split; [done|]. intros p Hp Hcp.
      assert (Hpc : p ∈ c) by (by apply list_elem_of_filter).
      rewrite length_take in H. unfold n in H. rewrite H0 in H. cbn in H.
      destruct c; [by apply not_elem_of_nil in Hpc|]. simpl in H. lia.
    + rewrite Hd. split; [done|]. intros [Hf Hnone].
      assert (Hc : c = []).
      { destruct c as [|p c'] eqn:Hc; [done|]. exfalso.
        assert (p ∈ filter (candidate l) (shortlist l)) as [? ?]%list_elem_of_filter
          by (fold c; rewrite Hc; by left). by eapply Hnone. }
      rewrite Hc, take_nil, Hf in Hz. done.
Qed.

Lemma next_batch_correct_witness :
  let l := Lookup_new FindNode (mkKey (arr_repeat (z2b 0) 32)) [lk_peer 9; lk_peer 2] PrivacyNone 0 in
  let '(l', batch) := next_batch l 5 in
  if lk_done l || (budget l <=? sat_sub 5 (started l))%Z then batch = [] ∧ lk_done l' = true
  else
    batch = take (alpha l - length (in_flight l)) (filter (candidate l) (shortlist l)) ∧
    NoDup (pi_id <$> batch) ∧
    (batch ≠ [] → length batch + length (in_flight l) ≤ alpha l ≤ 8) ∧
    (∀ p q, p ∈ batch → q ∈ shortlist l → candidate l q → q ∉ batch →
       (dist (nid (pi_id p)) (kid (target l)) ≤ dist (nid (pi_id q)) (kid (target l)))%Z) ∧
    (lk_done l' = true ↔ in_flight l = [] ∧ ∀ p, p ∈ shortlist l → ¬ candidate l p).
Proof.
  apply (next_batch_correct FindNode (mkKey (arr_repeat (z2b 0) 32)) [lk_peer 9; lk_peer 2]
           PrivacyNone 0 5 _ [] (pi_id <$> [lk_peer 9; lk_peer 2])).
  - apply (bool_decide_unpack _). vm_compute. exact I.
  - apply rtc_refl.
Defined.

(** C19: the requests of a lookup are bounded.  Along every run of a lookup, whatever
    replies, timeouts and send failures occur, a peer is sent at most two requests for every
    time it is among the seeds, and at most two when it is not: one, and one more after a
    timeout.  (The seeds are what [closest] finds in the routing table, which can hold a peer
    twice.)  The adaptive parallelism stays within [3, 8] and at most eight requests are in
    flight.  When the seeds are distinct, the number of requests sent to a peer is one if it
    was queried, plus one if it was retried, and those in flight are to distinct, queried
    peers. *)
Theorem requests_bounded (kd : LookupKind) (t : Key) (seeds : list PeerInfo) (pm : PrivacyMode)
    (t0 : Z) (l : Lookup) (tr hd : list NodeId) :
  rtc lk_step (lk_init kd t seeds pm t0) (l, tr, hd) →
  (∀ id, times id tr ≤ 2 * Nat.max 1 (times id (pi_id <$> seeds))) ∧
  ALPHA_MIN ≤ alpha l ≤ ALPHA_MAX ∧ length (in_flight l) ≤ 8 ∧
  (NoDup (pi_id <$> seeds) →
     (∀ id, times id tr = memb id (queried l) + memb id (retries l) ∧ times id tr ≤ 2) ∧
     NoDup (if_id <$> in_flight l) ∧ (∀ id, id ∈ if_id <$> in_flight l → id ∈ queried l)).
Proof.
  intros Hr. destruct (dup_inv_reach _ _ _ _ _ _ Hr) as [Ha Hlen _ Hc]. cbn [fst snd] in *.
  split_and!; [|apply Ha..|done|].
  - intros id. specialize (Hc id). unfold memb in Hc. repeat case_bool_decide; lia.
  - intros Hnd. destruct (lk_inv_reach _ _ _ _ _ _ Hnd Hr) as [[Hn Hq He] _]. cbn [fst snd] in *.
    split_and!; [|done..]. intros id. split; [done|]. rewrite He. unfold memb.
    repeat case_bool_decide; lia.
Qed.

(** A peer listed twice and another one; both copies are asked. *)
Lemma requests_bounded_witness :
  let seeds := [lk_peer 2; lk_peer 9; lk_peer 2] in
  let l0 := Lookup_new FindNode (mkKey (arr_repeat (z2b 0) 32)) seeds PrivacyNone 0 in
  let nb := next_batch l0 5 in
  let sent := zip nb.2 [Some (1, 5); Some (2, 6); Some (3, 7)]%Z in
  let l := send_batch nb.1 sent in
  let tr := [] ++ sent_ids sent in
  times (pi_id (lk_peer 2)) tr = 2 ∧
  (∀ id, times id tr ≤ 2 * Nat.max 1 (times id (pi_id <$> seeds))) ∧
  ALPHA_MIN ≤ alpha l ≤ ALPHA_MAX ∧ length (in_flight l) ≤ 8 ∧
  (NoDup (pi_id <$> seeds) →
     (∀ id, times id tr = memb id (queried l) + memb id (retries l) ∧ times id tr ≤ 2) ∧
     NoDup (if_id <$> in_flight l) ∧ (∀ id, id ∈ if_id <$> in_flight l → id ∈ queried l)).
Proof.
  split; [vm_compute; reflexivity|].
  apply (requests_bounded FindNode (mkKey (arr_repeat (z2b 0) 32)) [lk_peer 2; lk_peer 9; lk_peer 2]
           PrivacyNone 0 _ _ (pi_id <$> [lk_peer 2; lk_peer 9; lk_peer 2])).
  eapply rtc_l; [apply s_dispatch|apply rtc_refl].
Defined.

(** C21: a lookup ends for a reason.  When an operation turns a running lookup into a done
    one, then a record was found, or the 1.5 s budget was used up, or nothing is in
    flight and every one of the [k] closest peers known has been queried.  A done lookup
    stays done, and a dispatch after the budget always finds or makes it done, so a
    lookup that the timer keeps dispatching terminates. *)
Theorem lookup_ends (kd : LookupKind) (t : Key) (seeds : list PeerInfo) (pm : PrivacyMode)
    (t0 : Z) (l : Lookup) (tr hd : list NodeId) (y : Lookup * list NodeId * list NodeId) :
  NoDup (pi_id <$> seeds) → rtc lk_step (lk_init kd t seeds pm t0) (l, tr, hd) → lk_step (l, tr, hd) y →
  (lk_done l = true → lk_done y.1.1 = true) ∧
  (lk_done l = false → lk_done y.1.1 = true →
     is_Some (found_record y.1.1) ∨
     (∃ now outs, y.1.1 = send_batch (next_batch l now).1 (zip (next_batch l now).2 outs) ∧
        (budget l ≤ sat_sub now (started l))%Z) ∨
     (in_flight y.1.1 = [] ∧ ∀ p, p ∈ finish_peers y.1.1 → pi_id p ∈ queried y.1.1)) ∧
  (∀ now, (t0 + millis 1500 ≤ now)%Z → lk_done (next_batch l now).1 = true).
Proof.
  intros Hnd Hr Hstep. pose proof (lk_const _ _ (rtc_once _ _ Hstep)) as (_ & _ & _ & _ & Hmono).
  destruct (lk_const _ _ Hr) as (_ & _ & Hst & Hbu & _). cbn [fst snd lk_init Lookup_new] in *.
  split_and!; [done| |].
  2:{ intros now Hnow. unfold next_batch. rewrite Hst, Hbu. cbn [started budget Lookup_new].
      unfold sat_sub. assert (0 < millis 1500)%Z by done.
      destruct (Z.leb_spec (millis 1500) (Z.max 0 (now - t0))); [|lia]. by rewrite orb_true_r. }
  intros Hd. destruct (lk_inv_reach _ _ _ _ _ _ Hnd Hr) as [_ [Ha _ _ _ _]]. cbn [fst snd] in Ha.
  inversion Hstep; subst; cbn [fst snd] in *; intros Hd'.
  - rewrite send_batch_done in Hd'. right. apply (dispatch_ends l now outs); [|done..]. unfold ALPHA_MIN, ALPHA_MAX in Ha. lia.
  - unfold on_timeouts in Hd'. destruct (foldl _ _ _). cbn in Hd'. congruence.
  - right; right. by apply on_closer_ends.
  - left. by eexists.
  - right; right. by apply on_closer_ends.
Qed.

Lemma lookup_ends_witness :
  let l := Lookup_new FindNode (mkKey (arr_repeat (z2b 0) 32)) [] PrivacyNone 0 in
  let y := (send_batch (next_batch l 5).1 (zip (next_batch l 5).2 []),
            [] ++ sent_ids (zip (next_batch l 5).2 []), @nil NodeId) in
  (lk_done l = true → lk_done y.1.1 = true) ∧
  (lk_done l = false → lk_done y.1.1 = true →
     is_Some (found_record y.1.1) ∨
     (∃ now outs, y.1.1 = send_batch (next_batch l now).1 (zip (next_batch l now).2 outs) ∧
        (budget l ≤ sat_sub now (started l))%Z) ∨
     (in_flight y.1.1 = [] ∧ ∀ p, p ∈ finish_peers y.1.1 → pi_id p ∈ queried y.1.1)) ∧
  (∀ now, (0 + millis 1500 ≤ now)%Z → lk_done (next_batch l now).1 = true).
Proof.
  intros l y.
  apply (lookup_ends FindNode (mkKey (arr_repeat (z2b 0) 32)) [] PrivacyNone 0 l [] [] y).
  - apply NoDup_nil_2.
  - apply rtc_refl.
  - apply (s_dispatch l [] [] 5 []).
Defined.


