(* ===== verification/Wg.v ===== *)
(** * Userspace WireGuard sessions ([src/wg.rs])

    The Noise tunnel itself is BoringTun's [Tunn]: the class [TunnOps] has its state type
    and the four calls the engine makes.  Every call may change the tunnel and the output
    buffer; a result that carries a packet carries its length.  The iteration order of
    the session map is an argument of the operations that walk over it. *)

From S2P Require Import Prelude Bytes Types Codec Crypto.

Definition WG_TYPE_INITIATION : Z := 1.
Definition WG_TYPE_RESPONSE : Z := 2.
Definition WG_TYPE_COOKIE : Z := 3.
Definition WG_TYPE_DATA : Z := 4.
Definition KEEPALIVE_SECS : Z := 20.

Record WgHeader := mkWgHeader { wg_ty : Z; receiver_index : Z }.

Definition parse_wg_header (buf : bytes) : option WgHeader :=
  if length buf <? 8 then None
  else
    let ty := le_val (slice buf 0 4) in
    if negb ((1 <=? ty) && (ty <=? 4))%Z then None
    else Some (mkWgHeader ty (le_val (slice buf 4 8))).

Definition looks_like_wg (buf : bytes) : bool := bool_decide (is_Some (parse_wg_header buf)).

(** ** RPC datagrams as inner IP packets *)

Definition wrap_rpc (rpc : bytes) : bytes :=
  let total := (20 + 8 + Z.of_nat (length rpc))%Z in
  let ip := replicate 20 (z2b 0) in
  let ip := write_at ip 0 [z2b 69] in
  let ip := write_at ip 2 (be_bytes 2 (wrap 16 total)) in
  let ip := write_at ip 8 [z2b 64] in
  let ip := write_at ip 9 [z2b 17] in
  let ip := write_at ip 12 (z2b <$> [10; 0; 0; 1]%Z) in
  let ip := write_at ip 16 (z2b <$> [10; 0; 0; 2]%Z) in
  let udp := replicate 8 (z2b 0) in
  let udp := write_at udp 0 (be_bytes 2 1) in
  let udp := write_at udp 2 (be_bytes 2 1) in
  let udp := write_at udp 4 (be_bytes 2 (wrap 16 (8 + Z.of_nat (length rpc)))) in
  ip ++ udp ++ rpc.

Definition unwrap_rpc (inner : bytes) : bytes :=
  if (28 <=? length inner) && bool_decide (index inner 0 = z2b 69) then drop 28 inner else inner.

(** ** Receiver indices and demultiplexing *)

Definition encode_receiver_index (shard local : Z) : Z :=
  Z.lor (Z.shiftl shard 24) (Z.land local 16777215).

Definition shard_from_receiver_index (idx : Z) : Z := wrap 8 (Z.shiftr idx 24).

Definition demux_shard (buf : bytes) (src : SocketAddr) (shard_count : Z) : Z :=
  if (shard_count <=? 1)%Z then 0
  else
    let by_addr :=
      let ip := match addr_ip src with
                | IpV4 v => be_val (vec_to_list v)
                | IpV6 _ => addr_port src
                end in
      (Z.lxor ip (addr_port src) mod shard_count)%Z in
    match parse_wg_header buf with
    | Some h =>
        if (wg_ty h =? WG_TYPE_DATA)%Z
        then (shard_from_receiver_index (receiver_index h) mod shard_count)%Z
        else by_addr
    | None => by_addr
    end.

Lemma looks_like_wg_spec buf :
  looks_like_wg buf = true ↔ 8 ≤ length buf ∧ (1 ≤ le_val (slice buf 0 4) ≤ 4)%Z.
Proof.
  unfold looks_like_wg, parse_wg_header. rewrite bool_decide_eq_true.
  destruct (Nat.ltb_spec (length buf) 8).
  { split; [intros [? ?]; done|lia]. }
  destruct (Z.leb_spec 1 (le_val (slice buf 0 4))), (Z.leb_spec (le_val (slice buf 0 4)) 4); cbn [andb negb];
    split; try (by intros [? ?]); try lia; eauto.
Qed.

(** The first four bytes of a datagram that has a header byte [b1] other than zero at
    offset 1 are too large a number for a WireGuard type. *)
Lemma le_val_slice4 buf :
  4 ≤ length buf → (le_val (slice buf 0 4) ≤ 4)%Z → b2z (index buf 1) = 0%Z.
Proof.
  intros Hl. destruct buf as [|a [|b [|c [|d buf]]]]; simpl in Hl; try lia.
  change (slice _ 0 4) with [a; b; c; d]. change (index _ 1) with b. cbn [le_val].
  pose proof (b2z_bound a). pose proof (b2z_bound b). pose proof (b2z_bound c). pose proof (b2z_bound d). lia.
Qed.

Lemma header_not_wg buf h : Header_decode buf = Some h → looks_like_wg buf = false.
Proof.
  intros Hd. apply not_true_iff_false. rewrite looks_like_wg_spec. intros [Hlen Hty].
  unfold Header_decode in Hd. destruct (length buf <? HEADER_LEN); [done|].
  destruct (negb _); [done|]. rewrite le_val_slice4 in Hd by lia. done.
Qed.

Lemma wrap_rpc_app rpc : ∃ h, wrap_rpc rpc = h ++ rpc ∧ length h = 28 ∧ index (h ++ rpc) 0 = z2b 69.
Proof.
  unfold wrap_rpc. cbv zeta. rewrite (assoc_L (++)). eexists. split; [done|].
  set (a := be_bytes 2 (wrap 16 (20 + 8 + _))). set (b := be_bytes 2 (wrap 16 (8 + _))).
  assert (Ha : length a = 2) by apply be_bytes_length. assert (Hb : length b = 2) by apply be_bytes_length.
  destruct a as [|a1 [|a2 [|]]], b as [|b1 [|b2 [|]]]; try discriminate. done.
Qed.

Lemma wrap_rpc_length rpc : length (wrap_rpc rpc) = 28 + length rpc.
Proof. destruct (wrap_rpc_app rpc) as (p & -> & Hl & _). by rewrite length_app, Hl. Qed.

Lemma unwrap_wrap_rpc rpc : unwrap_rpc (wrap_rpc rpc) = rpc.
Proof.
  destruct (wrap_rpc_app rpc) as (p & Hp & Hlen & Hidx). unfold unwrap_rpc.
  rewrite Hp, Hidx, length_app, Hlen, drop_app_length' by done.
  rewrite bool_decide_eq_true_2 by done. rewrite andb_true_r.
  by destruct (Nat.leb_spec 28 (28 + length rpc)); [|lia].
Qed.

(** Both length fields of the inner packet are right as long as they fit 16 bits. *)
Lemma wrap_rpc_lengths rpc :
  (Z.of_nat (length rpc) < 2 ^ 16 - 28)%Z →
  be_val (slice (wrap_rpc rpc) 2 4) = Z.of_nat (length (wrap_rpc rpc)) ∧
  be_val (slice (wrap_rpc rpc) 24 26) = Z.of_nat (8 + length rpc).
Proof.
  intros Hlen. rewrite wrap_rpc_length.
  unfold wrap_rpc. cbv zeta. set (a := be_bytes 2 _). set (b := be_bytes 2 (wrap 16 (8 + _))).
  assert (Hab : be_val a = (28 + Z.of_nat (length rpc))%Z ∧ be_val b = (8 + Z.of_nat (length rpc))%Z).
  { unfold a, b. rewrite !be_val_be_bytes. change (256 ^ Z.of_nat 2)%Z with (2 ^ 16)%Z.
    unfold wrap. rewrite !Zmod_mod, !Z.mod_small; lia. }
  assert (length a = 2) by apply be_bytes_length. assert (length b = 2) by apply be_bytes_length.
  destruct Hab as [Ha Hb].
  clearbody a b. destruct a as [|a1 [|a2 [|]]], b as [|b1 [|b2 [|]]]; try discriminate.
  split; [transitivity (be_val [a1; a2]); [reflexivity|lia]|].
  transitivity (be_val [b1; b2]); [reflexivity|lia].
Qed.

Lemma lor_disjoint a b : (0 ≤ a)%Z → (0 ≤ b < 2 ^ 24)%Z → Z.lor (Z.shiftl a 24) b = (a * 2 ^ 24 + b)%Z.
Proof.
  intros Ha Hb. rewrite Z.shiftl_mul_pow2 by lia. rewrite <-Z.add_lor_land.
  enough (Z.land (a * 2 ^ 24) b = 0)%Z as -> by lia.
  apply Z.bits_inj'. intros n Hn. rewrite Z.land_spec, Z.bits_0.
  destruct (decide (n < 24)%Z).
  - by rewrite Z.mul_pow2_bits_low.
  - assert (Z.testbit b n = false) as ->; [|apply andb_false_r].
    destruct (decide (b = 0)%Z) as [->|]; [apply Z.bits_0|].
    apply Z.bits_above_log2; [lia|]. assert (Z.log2 b < 24)%Z by (apply Z.log2_lt_pow2; lia). lia.
Qed.

Lemma encode_receiver_index_eq shard local :
  (0 ≤ shard)%Z → encode_receiver_index shard local = (shard * 2 ^ 24 + local mod 2 ^ 24)%Z.
Proof.
  intros Hs. unfold encode_receiver_index.
  change 16777215%Z with (Z.ones 24). rewrite Z.land_ones by lia.
  apply lor_disjoint; [done|]. apply Z.mod_pos_bound. lia.
Qed.

Lemma shard_from_encode shard local :
  (0 ≤ shard < 256)%Z → shard_from_receiver_index (encode_receiver_index shard local) = shard.
Proof.
  intros Hs. rewrite encode_receiver_index_eq by lia. unfold shard_from_receiver_index.
  rewrite Z.shiftr_div_pow2 by lia.
  pose proof (Z.mod_pos_bound local (2 ^ 24)).
  rewrite Z.div_add_l, Z.div_small, Z.add_0_r by lia. apply wrap_small. unfold in_u. lia.
Qed.

Lemma encode_receiver_index_inj shard l l' :
  (0 ≤ shard)%Z → (0 ≤ l < 2 ^ 24)%Z → (0 ≤ l' < 2 ^ 24)%Z →
  encode_receiver_index shard l = encode_receiver_index shard l' → l = l'.
Proof. intros ? ? ?. rewrite !encode_receiver_index_eq, !Z.mod_small by lia. lia. Qed.

(** ** Sessions *)

Inductive TunnResult :=
  | TunnDone
  | TunnErr
  | WriteToNetwork (len : nat)
  | WriteToTunnelV4 (len : nat)
  | WriteToTunnelV6 (len : nat).

Class TunnOps `{Crypto} := {
  Tunn : Type;
  Tunn_new : StaticSecret → arr 32 → Z → Z → Tunn;
  Tunn_decapsulate : Tunn → IpAddr → bytes → bytes → Tunn * TunnResult * bytes;
  Tunn_encapsulate : Tunn → bytes → bytes → Tunn * TunnResult * bytes;
  Tunn_update_timers : Tunn → bytes → Tunn * TunnResult * bytes;
}.

Inductive Decap :=
  | Plaintext (len : nat)
  | Network (len : nat)
  | Cookie (c : bytes)
  | Drop.

Definition is_drop (d : Decap) : bool := match d with Drop => true | _ => false end.

Section wg.
Context `{TunnOps}.

Record Session := mkSession {
  tunn : Tunn;
  peer_id : option NodeId;
  endpoint : option SocketAddr;
  sess_x25519 : arr 32;
}.

Record WgEngine := mkWgEngine {
  wge_secret : StaticSecret;
  wge_public : arr 32;
  wge_shard_id : Z;
  next_local : Z;
  sessions : gmap Z Session;
  by_x25519 : gmap (arr 32) Z;
  pow_nonce : arr 16;
  pow_bits : Z;
}.

Definition WgEngine_new (secret : StaticSecret) (shard : Z) : WgEngine :=
  {| wge_secret := secret; wge_public := X25519Public_from secret; wge_shard_id := shard;
     next_local := 1; sessions := ∅; by_x25519 := ∅;
     pow_nonce := arr_repeat (z2b 17) 16; pow_bits := 0 |}.

Definition with_sessions (e : WgEngine) (ss : gmap Z Session) : WgEngine :=
  {| wge_secret := wge_secret e; wge_public := wge_public e; wge_shard_id := wge_shard_id e;
     next_local := next_local e; sessions := ss; by_x25519 := by_x25519 e;
     pow_nonce := pow_nonce e; pow_bits := pow_bits e |}.

Definition add_peer (e : WgEngine) (x : arr 32) (pid : option NodeId) (ep : option SocketAddr)
    : WgEngine * Z :=
  match by_x25519 e !! x with
  | Some idx => (e, idx)
  | None =>
      let idx := encode_receiver_index (wge_shard_id e) (next_local e) in
      ({| wge_secret := wge_secret e; wge_public := wge_public e; wge_shard_id := wge_shard_id e;
          next_local := wrap 32 (next_local e + 1);
          sessions := <[idx := mkSession (Tunn_new (wge_secret e) x KEEPALIVE_SECS idx) pid ep x]>
                        (sessions e);
          by_x25519 := <[x := idx]> (by_x25519 e);
          pow_nonce := pow_nonce e; pow_bits := pow_bits e |}, idx)
  end.

Definition check_initiation_pow (e : WgEngine) (datagram : bytes) : bool :=
  if (pow_bits e =? 0)%Z then true
  else if length datagram <? 40 then false
  else verify_ephemeral_pow (list_to_arr 32 (slice datagram 8 40)) (pow_nonce e) (pow_bits e).

(** [cookie_reply]: the scratch buffer after the writes, and the reply. *)
Definition cookie_reply (e : WgEngine) (scratch : bytes) : bytes * bytes :=
  let scratch := write_at scratch 0 (vec_to_list (pow_nonce e)) in
  let scratch := write_at scratch 16 [z2b (pow_bits e)] in
  (scratch, take 17 scratch).

Definition drive_decap (t : Tunn) (src : IpAddr) (datagram scratch : bytes) : Tunn * Decap * bytes :=
  let '(t, r, scratch) := Tunn_decapsulate t src datagram scratch in
  (t, match r with
      | WriteToNetwork n => Network n
      | WriteToTunnelV4 n | WriteToTunnelV6 n => Plaintext n
      | TunnDone | TunnErr => Drop
      end, scratch).

(** The loop over the sessions of [decapsulate]: the first session that does not drop
    the datagram answers it and learns the sender's address. *)
Fixpoint try_sessions (order : list Z) (ss : gmap Z Session) (src : SocketAddr)
    (datagram scratch : bytes) : gmap Z Session * Decap * bytes :=
  match order with
  | [] => (ss, Drop, scratch)
  | idx :: order =>
      match ss !! idx with
      | None => try_sessions order ss src datagram scratch
      | Some s =>
          let '(t, r, scratch) := drive_decap (tunn s) (addr_ip src) datagram scratch in
          if is_drop r then
            try_sessions order
              (<[idx := mkSession t (peer_id s) (endpoint s) (sess_x25519 s)]> ss) src datagram scratch
          else (<[idx := mkSession t (peer_id s) (Some src) (sess_x25519 s)]> ss, r, scratch)
      end
  end.

(** [drain_session]: only the sessions whose endpoint is [src]. *)
Fixpoint drain_sessions (order : list Z) (ss : gmap Z Session) (src : SocketAddr) (scratch : bytes)
    : gmap Z Session * Decap * bytes :=
  match order with
  | [] => (ss, Drop, scratch)
  | idx :: order =>
      match ss !! idx with
      | None => drain_sessions order ss src scratch
      | Some s =>
          if negb (bool_decide (endpoint s = Some src)) then drain_sessions order ss src scratch
          else
            let '(t, r, scratch) := drive_decap (tunn s) (addr_ip src) [] scratch in
            let ss := <[idx := mkSession t (peer_id s) (endpoint s) (sess_x25519 s)]> ss in
            if is_drop r then drain_sessions order ss src scratch else (ss, r, scratch)
      end
  end.

Definition decapsulate (e : WgEngine) (order : list Z) (src : SocketAddr) (datagram scratch : bytes)
    : WgEngine * Decap * bytes :=
  if length datagram =? 0 then
    let '(ss, r, scratch) := drain_sessions order (sessions e) src scratch in
    (with_sessions e ss, r, scratch)
  else
    match parse_wg_header datagram with
    | None => (e, Drop, scratch)
    | Some hdr =>
        if (wg_ty hdr =? WG_TYPE_INITIATION)%Z && negb (check_initiation_pow e datagram) then
          let '(scratch, c) := cookie_reply e scratch in (e, Cookie c, scratch)
        else
          let direct :=
            if (wg_ty hdr =? WG_TYPE_DATA)%Z || (wg_ty hdr =? WG_TYPE_RESPONSE)%Z
               || (wg_ty hdr =? WG_TYPE_COOKIE)%Z
            then sessions e !! receiver_index hdr else None in
          match direct with
          | Some s =>
              let '(t, r, scratch) := drive_decap (tunn s) (addr_ip src) datagram scratch in
              (with_sessions e (<[receiver_index hdr :=
                 mkSession t (peer_id s) (Some src) (sess_x25519 s)]> (sessions e)), r, scratch)
          | None =>
              let '(ss, r, scratch) := try_sessions order (sessions e) src datagram scratch in
              (with_sessions e ss, r, scratch)
          end
    end.

Definition encapsulate (e : WgEngine) (x : arr 32) (plaintext out : bytes)
    : WgEngine * option (nat * SocketAddr) * bytes :=
  match by_x25519 e !! x with
  | None => (e, None, out)
  | Some idx =>
      match sessions e !! idx with
      | None => (e, None, out)
      | Some s =>
          match endpoint s with
          | None => (e, None, out)
          | Some dest =>
              let '(t, r, out) := Tunn_encapsulate (tunn s) plaintext out in
              (with_sessions e (<[idx := mkSession t (peer_id s) (endpoint s) (sess_x25519 s)]>
                                  (sessions e)),
               match r with WriteToNetwork n => Some (n, dest) | _ => None end, out)
          end
      end
  end.

Definition encapsulate_to (e : WgEngine) (dest : SocketAddr) (x : arr 32) (pid : option NodeId)
    (plaintext out : bytes) : WgEngine * option nat * bytes :=
  let '(e, _) := add_peer e x pid (Some dest) in
  match by_x25519 e !! x with
  | None => (e, None, out)
  | Some idx =>
      match sessions e !! idx with
      | None => (e, None, out)
      | Some s =>
          let '(t, r, out) := Tunn_encapsulate (tunn s) plaintext out in
          (with_sessions e (<[idx := mkSession t (peer_id s) (Some dest) (sess_x25519 s)]> (sessions e)),
           match r with WriteToNetwork n => Some n | _ => None end, out)
      end
  end.

(** The keepalive loop in map order: every session with an endpoint, one after the other
    into the same output buffer. *)
Fixpoint tick_sessions (order : list Z) (ss : gmap Z Session) (out : bytes)
    : gmap Z Session * list (nat * SocketAddr) * bytes :=
  match order with
  | [] => (ss, [], out)
  | idx :: order =>
      match ss !! idx with
      | None => tick_sessions order ss out
      | Some s =>
          match endpoint s with
          | None => tick_sessions order ss out
          | Some dest =>
              let '(t, r, out) := Tunn_update_timers (tunn s) out in
              let ss := <[idx := mkSession t (peer_id s) (endpoint s) (sess_x25519 s)]> ss in
              let '(ss, pkts, out) := tick_sessions order ss out in
              (ss, match r with WriteToNetwork n => (n, dest) :: pkts | _ => pkts end, out)
          end
      end
  end.

Definition tick_keepalive (e : WgEngine) (order : list Z) (out : bytes)
    : WgEngine * list (nat * SocketAddr) * bytes :=
  let '(ss, pkts, out) := tick_sessions order (sessions e) out in
  (with_sessions e ss, pkts, out).

(** ** Invariant *)

(** Each known key has exactly one session, filed under an index with the shard's id in
    its top byte and a local number already handed out. *)
Record wg_inv (e : WgEngine) : Prop := {
  wi_shard : (0 ≤ wge_shard_id e < 256)%Z;
  wi_next : (1 ≤ next_local e < 2 ^ 24)%Z;
  wi_key : ∀ x idx, by_x25519 e !! x = Some idx ↔
                    ∃ s, sessions e !! idx = Some s ∧ sess_x25519 s = x;
  wi_idx : ∀ idx s, sessions e !! idx = Some s →
                    ∃ l, (1 ≤ l < next_local e)%Z ∧ idx = encode_receiver_index (wge_shard_id e) l;
}.

Inductive wg_op :=
  | WAdd (x : arr 32) (pid : option NodeId) (ep : option SocketAddr)
  | WDecap (order : list Z) (src : SocketAddr) (datagram scratch : bytes)
  | WEncap (x : arr 32) (plaintext out : bytes)
  | WEncapTo (dest : SocketAddr) (x : arr 32) (pid : option NodeId) (plaintext out : bytes)
  | WTick (order : list Z) (out : bytes).

Definition wg_apply (e : WgEngine) (o : wg_op) : WgEngine :=
  match o with
  | WAdd x pid ep => (add_peer e x pid ep).1
  | WDecap order src d sc => (decapsulate e order src d sc).1.1
  | WEncap x p out => (encapsulate e x p out).1.1
  | WEncapTo dest x pid p out => (encapsulate_to e dest x pid p out).1.1
  | WTick order out => (tick_keepalive e order out).1.1
  end.

(** Sessions that differ only in tunnel state and endpoint. *)
Definition same_keys (ss ss' : gmap Z Session) : Prop :=
  ∀ idx, sess_x25519 <$> ss !! idx = sess_x25519 <$> ss' !! idx.

#[export] Instance same_keys_equiv : Equivalence same_keys.
Proof. split; unfold same_keys; congruence. Qed.

Lemma same_keys_insert ss idx s t pid ep :
  ss !! idx = Some s → same_keys ss (<[idx := mkSession t pid ep (sess_x25519 s)]> ss).
Proof.
  intros Hs i. destruct (decide (i = idx)) as [->|Hne].
  - by rewrite lookup_insert_eq, Hs.
  - by rewrite lookup_insert_ne.
Qed.

Lemma try_sessions_keys order ss src d sc : same_keys ss (try_sessions order ss src d sc).1.1.
Proof.
  revert ss sc. induction order as [|i order IH]; intros ss sc; cbn [try_sessions]; [done|].
  destruct (ss !! i) as [s|] eqn:Hs; [|apply IH].
  destruct (drive_decap _ _ _ _) as [[t r] sc']. destruct (is_drop r).
  - etrans; [|apply IH]. by apply same_keys_insert.
  - by apply same_keys_insert.
Qed.

Lemma drain_sessions_keys order ss src sc : same_keys ss (drain_sessions order ss src sc).1.1.
Proof.
  revert ss sc. induction order as [|i order IH]; intros ss sc; cbn [drain_sessions]; [done|].
  destruct (ss !! i) as [s|] eqn:Hs; [|apply IH]. destruct (negb _); [apply IH|].
  destruct (drive_decap _ _ _ _) as [[t r] sc']. destruct (is_drop r).
  - etrans; [|apply IH]. by apply same_keys_insert.
  - by apply same_keys_insert.
Qed.

Lemma tick_sessions_keys order ss out : same_keys ss (tick_sessions order ss out).1.1.
Proof.
  revert ss out. induction order as [|i order IH]; intros ss out; cbn [tick_sessions]; [done|].
  destruct (ss !! i) as [s|] eqn:Hs; [|apply IH]. destruct (endpoint s) as [d|]; [|apply IH].
  destruct (Tunn_update_timers _ _) as [[t r] out'].
  set (ss' := <[i := _]> ss). specialize (IH ss' out').
  destruct (tick_sessions order ss' out') as [[ss'' pkts] out'']. cbn [fst] in *.
  etrans; [|exact IH]. by apply same_keys_insert.
Qed.

Lemma wg_inv_same e ss : wg_inv e → same_keys (sessions e) ss → wg_inv (with_sessions e ss).
Proof.
  intros [Hsh Hn Hk Hi] Hsame. split; cbn; try done.
  - intros x idx. rewrite Hk. specialize (Hsame idx).
    destruct (sessions e !! idx) as [s|], (ss !! idx) as [s'|]; simplify_eq/=; naive_solver.
  - intros idx s Hs. specialize (Hsame idx). rewrite Hs in Hsame.
    destruct (sessions e !! idx) as [s'|] eqn:Hs'; [|done]. by eapply Hi.
Qed.

Lemma wg_inv_new secret shard : (0 ≤ shard < 256)%Z → wg_inv (WgEngine_new secret shard).
Proof.
  intros Hs. split; cbn; [done|lia| |].
  - intros x idx. rewrite !lookup_empty. split; [done|by intros (?&?&?)].
  - intros idx s. by rewrite lookup_empty.
Qed.

Lemma add_peer_inv e x pid ep :
  wg_inv e → (next_local e + 1 < 2 ^ 24)%Z →
  wg_inv (add_peer e x pid ep).1 ∧ by_x25519 (add_peer e x pid ep).1 !! x = Some (add_peer e x pid ep).2.
Proof.
  intros [Hsh Hn Hk Hi] Hlt. unfold add_peer. destruct (by_x25519 e !! x) as [idx|] eqn:Hx; [done|].
  cbn [fst snd by_x25519]. set (new := encode_receiver_index _ _).
  assert (Hfresh : sessions e !! new = None).
  { destruct (sessions e !! new) as [s|] eqn:Hs; [|done]. destruct (Hi _ _ Hs) as (l & Hl & Heq).
    apply encode_receiver_index_inj in Heq; lia. }
  split; [|apply lookup_insert_eq].
  split; cbn; [done| | |].
  - rewrite wrap_small; unfold in_u; lia.
  - intros y idx. destruct (decide (x = y)) as [<-|Hne].
    + rewrite lookup_insert_eq. split.
      * intros [= <-]. eexists. by rewrite lookup_insert_eq.
      * intros (s & Hs & Hsx). destruct (decide (new = idx)) as [->|Hni]; [done|].
        rewrite lookup_insert_ne in Hs by done.
        assert (by_x25519 e !! x = Some idx) by (apply Hk; eauto). congruence.
    + rewrite lookup_insert_ne, Hk by done. split.
      * intros (s & Hs & Hsx). exists s. rewrite lookup_insert_ne; [done|congruence].
      * intros (s & Hs & Hsx). exists s. destruct (decide (new = idx)) as [->|Hni].
        -- rewrite lookup_insert_eq in Hs. injection Hs as <-. done.
        -- by rewrite lookup_insert_ne in Hs.
  - intros idx s. destruct (decide (new = idx)) as [<-|Hni].
    + rewrite lookup_insert_eq. intros _. exists (next_local e).
      rewrite wrap_small by (unfold in_u; lia). split; [lia|done].
    + rewrite lookup_insert_ne by done. intros (l & Hl & ->)%Hi. exists l.
      rewrite wrap_small by (unfold in_u; lia). split; [lia|done].
Qed.

Lemma wg_inv_apply e o : wg_inv e → (next_local e + 1 < 2 ^ 24)%Z → wg_inv (wg_apply e o).
Proof.
  intros Hi Hlt. destruct o as [x pid ep|order src d sc|x p out|dest x pid p out|order out]; cbn [wg_apply].
  - by apply add_peer_inv.
  - unfold decapsulate. destruct (_ =? 0).
    { pose proof (drain_sessions_keys order (sessions e) src sc) as Hk.
      destruct (drain_sessions _ _ _ _) as [[ss r] sc']. by apply wg_inv_same. }
    destruct (parse_wg_header d) as [hdr|]; [|done].
    destruct (_ && _); [by destruct (cookie_reply e sc)|]. cbv zeta.
    destruct (if _ : bool then _ else _) as [s|] eqn:Hd.
    + destruct (drive_decap _ _ _ _) as [[t r] sc']. apply wg_inv_same; [done|].
      apply same_keys_insert. by destruct (_ || _).
    + pose proof (try_sessions_keys order (sessions e) src d sc) as Hk.
      destruct (try_sessions _ _ _ _ _) as [[ss r] sc']. by apply wg_inv_same.
  - unfold encapsulate. destruct (by_x25519 e !! x) as [idx|]; [|done].
    destruct (sessions e !! idx) as [s|] eqn:Hs; [|done]. destruct (endpoint s) as [dst|]; [|done].
    destruct (Tunn_encapsulate _ _ _) as [[t r] out']. apply wg_inv_same; [done|].
    by apply same_keys_insert.
  - unfold encapsulate_to. destruct (add_peer_inv e x pid (Some dest) Hi Hlt) as [Hi' Hx].
    destruct (add_peer e x pid (Some dest)) as [e' idx]. cbn [fst snd] in *. rewrite Hx.
    destruct (sessions e' !! idx) as [s|] eqn:Hs; [|done].
    destruct (Tunn_encapsulate _ _ _) as [[t r] out']. apply wg_inv_same; [done|].
    by apply same_keys_insert.
  - unfold tick_keepalive. pose proof (tick_sessions_keys order (sessions e) out) as Hk.
    destruct (tick_sessions _ _ _) as [[ss pkts] out']. by apply wg_inv_same.
Qed.

(** An operation keeps the shard id and hands out at most one local number. *)
Lemma wg_apply_next e o :
  wge_shard_id (wg_apply e o) = wge_shard_id e ∧
  ((0 ≤ next_local e < 2 ^ 24)%Z → (next_local (wg_apply e o) ≤ next_local e + 1)%Z).
Proof.
  assert (Hadd : ∀ x pid ep, wge_shard_id (add_peer e x pid ep).1 = wge_shard_id e ∧
    ((0 ≤ next_local e < 2 ^ 24)%Z → (next_local (add_peer e x pid ep).1 ≤ next_local e + 1)%Z)).
  { intros x pid ep. unfold add_peer. destruct (by_x25519 e !! x); cbn; [split; [done|lia]|].
    split; [done|]. intros. rewrite wrap_small by (unfold in_u; lia). lia. }
  destruct o as [x pid ep|order src d sc|x p out|dest x pid p out|order out]; cbn [wg_apply]; [done|..].
  - unfold decapsulate. destruct (_ =? 0); [destruct (drain_sessions _ _ _ _) as [[??]?]; split; [done|cbn; lia]|].
    destruct (parse_wg_header d); [|split; [done|cbn; lia]].
    destruct (_ && _); [destruct (cookie_reply e sc); split; [done|cbn; lia]|]. cbv zeta.
    destruct (if _ : bool then _ else _);
      [destruct (drive_decap _ _ _ _) as [[??]?]|destruct (try_sessions _ _ _ _ _) as [[??]?]];
      split; done || (cbn; lia).
  - unfold encapsulate. repeat (case_match; try (split; [done|cbn; lia])).
  - unfold encapsulate_to. specialize (Hadd x pid (Some dest)).
    destruct (add_peer e x pid (Some dest)) as [e' idx]. cbn [fst] in Hadd.
    destruct (by_x25519 e' !! x); [|done]. destruct (sessions e' !! _); [|done].
    by destruct (Tunn_encapsulate _ _ _) as [[??]?].
  - unfold tick_keepalive. destruct (tick_sessions _ _ _) as [[??]?]. split; [done|cbn; lia].
Qed.

(** ** What a plaintext result means *)

(** Some session's own tunnel turned the datagram into [n] bytes of plaintext, left in
    the scratch buffer [sc'], and the session now has the sender as its endpoint. *)
Definition opened_by (ss ss' : gmap Z Session) (src : SocketAddr) (d : bytes) (n : nat) (sc' : bytes)
    : Prop :=
  ∃ idx s t sc r, ss !! idx = Some s ∧
    Tunn_decapsulate (tunn s) (addr_ip src) d sc = (t, r, sc') ∧
    (r = WriteToTunnelV4 n ∨ r = WriteToTunnelV6 n) ∧
    ss' !! idx = Some (mkSession t (peer_id s) (Some src) (sess_x25519 s)).

Lemma drive_decap_plain t src d sc t' n sc' :
  drive_decap t src d sc = (t', Plaintext n, sc') →
  ∃ r, Tunn_decapsulate t src d sc = (t', r, sc') ∧ (r = WriteToTunnelV4 n ∨ r = WriteToTunnelV6 n).
Proof.
  unfold drive_decap. destruct (Tunn_decapsulate t src d sc) as [[t1 r] sc1].
  destruct r; intros [= <- <- <-]; eauto.
Qed.

Lemma try_sessions_plain order ss src d sc ss' n sc' :
  NoDup order → try_sessions order ss src d sc = (ss', Plaintext n, sc') →
  ∃ idx s t sc0 r, idx ∈ order ∧ ss !! idx = Some s ∧
    Tunn_decapsulate (tunn s) (addr_ip src) d sc0 = (t, r, sc') ∧
    (r = WriteToTunnelV4 n ∨ r = WriteToTunnelV6 n) ∧
    ss' !! idx = Some (mkSession t (peer_id s) (Some src) (sess_x25519 s)).
Proof.
  revert ss sc. induction order as [|i order IH]; intros ss sc Hnd; cbn [try_sessions]; [done|].
  apply NoDup_cons in Hnd as [Hi Hnd].
  destruct (ss !! i) as [s|] eqn:Hs.
  2:{ intros (idx & s & t & sc0 & r & ? & ?)%IH; [|done]. exists idx, s, t, sc0, r. split; [by right|done]. }
  destruct (drive_decap _ _ _ _) as [[t r] sc1] eqn:Hdr. destruct (is_drop r) eqn:Hr.
  - intros (idx & s' & t' & sc0 & r' & Hin & Hs' & ?)%IH; [|done].
    rewrite lookup_insert_ne in Hs' by (by intros ->).
    exists idx, s', t', sc0, r'. split; [by right|done].
  - intros [= <- -> <-]. apply drive_decap_plain in Hdr as (r' & Hdr & Hr').
    exists i, s, t, sc, r'. rewrite lookup_insert_eq. split_and!; [by left|done..].
Qed.

Lemma drain_sessions_plain order ss src sc ss' n sc' :
  NoDup order → drain_sessions order ss src sc = (ss', Plaintext n, sc') →
  ∃ idx s t sc0 r, idx ∈ order ∧ ss !! idx = Some s ∧
    Tunn_decapsulate (tunn s) (addr_ip src) [] sc0 = (t, r, sc') ∧
    (r = WriteToTunnelV4 n ∨ r = WriteToTunnelV6 n) ∧
    ss' !! idx = Some (mkSession t (peer_id s) (Some src) (sess_x25519 s)).
Proof.
  revert ss sc. induction order as [|i order IH]; intros ss sc Hnd; cbn [drain_sessions]; [done|].
  apply NoDup_cons in Hnd as [Hi Hnd].
  assert (Hskip : ∀ sc, drain_sessions order ss src sc = (ss', Plaintext n, sc') →
    ∃ idx s t sc0 r, idx ∈ i :: order ∧ ss !! idx = Some s ∧
    Tunn_decapsulate (tunn s) (addr_ip src) [] sc0 = (t, r, sc') ∧
    (r = WriteToTunnelV4 n ∨ r = WriteToTunnelV6 n) ∧
    ss' !! idx = Some (mkSession t (peer_id s) (Some src) (sess_x25519 s))).
  { intros sc2 (idx & s & t & sc0 & r & ? & ?)%IH; [|done]. exists idx, s, t, sc0, r. split; [by right|done]. }
  destruct (ss !! i) as [s|] eqn:Hs; [|apply Hskip].
  case_bool_decide as Hep; cbn [negb]; [|apply Hskip].
  destruct (drive_decap _ _ _ _) as [[t r] sc1] eqn:Hdr. destruct (is_drop r) eqn:Hr.
  - intros (idx & s' & t' & sc0 & r' & Hin & Hs' & ?)%IH; [|done].
    rewrite lookup_insert_ne in Hs' by (by intros ->).
    exists idx, s', t', sc0, r'. split; [by right|done].
  - intros [= <- -> <-]. apply drive_decap_plain in Hdr as (r' & Hdr & Hr').
    exists i, s, t, sc, r'. rewrite lookup_insert_eq, Hep. split_and!; [by left|done..].
Qed.
End wg.

(** ** A concrete tunnel: no encryption, data packets carry the plaintext after a header. *)

#[local] Existing Instance toy_crypto.

Definition toy_packet (idx : Z) (p : bytes) : bytes := le_bytes 4 4 ++ le_bytes 4 idx ++ p.

#[local] Instance toy_tunn : TunnOps := {|
  Tunn := Z;
  Tunn_new _ _ _ idx := idx;
  Tunn_decapsulate t _ d sc :=
    if bool_decide (take 8 d = take 8 (toy_packet t []))
    then (t, WriteToTunnelV4 (length d - 8), write_at sc 0 (drop 8 d)) else (t, TunnErr, sc);
  Tunn_encapsulate t p out := (t, WriteToNetwork (8 + length p), write_at out 0 (toy_packet t p));
  Tunn_update_timers t out := (t, WriteToNetwork 8, write_at out 0 (toy_packet t []));
|}.

Definition toy_addr (n : Z) : SocketAddr := AddrV4 (list_to_arr 4 (be_bytes 4 n)) (5000 + n).

Definition toy_engine : WgEngine :=
  let e := WgEngine_new (arr_repeat (z2b 5) 32 : StaticSecret) 3 in
  let e := (add_peer e (arr_repeat (z2b 8) 32) None (Some (toy_addr 1))).1 in
  (add_peer e (arr_repeat (z2b 9) 32) None (Some (toy_addr 2))).1.

(** ** Theorems *)

(** C33: the two datagram formats of a socket never overlap, and the inner framing is
    transparent.  A datagram that decodes as a Molia header never looks like WireGuard
    and vice versa, so [handle_datagram] sends each to the right handler; unwrapping a
    wrapped RPC gives the RPC back, unwrapping an RPC that was not wrapped leaves it
    alone, and the IP length field is right for every RPC within the PMTU. *)
Theorem datagram_classes (buf rpc : bytes) (h : Header) :
  (Header_decode buf = Some h → looks_like_wg buf = false ∧ unwrap_rpc buf = buf) ∧
  (looks_like_wg buf = true → Header_decode buf = None) ∧
  unwrap_rpc (wrap_rpc rpc) = rpc ∧
  (length rpc ≤ PMTU_FLOOR →
   be_val (slice (wrap_rpc rpc) 2 4) = Z.of_nat (length (wrap_rpc rpc)) ∧
   be_val (slice (wrap_rpc rpc) 24 26) = Z.of_nat (8 + length rpc)).
Proof.
  split_and!.
  - intros Hd. split; [by eapply header_not_wg|]. unfold unwrap_rpc.
    assert (index buf 0 = PROTOCOL_VERSION) as ->; [|by rewrite andb_false_r].
    unfold Header_decode in Hd. destruct (length buf <? HEADER_LEN); [done|].
    by case_bool_decide.
  - intros Hw. destruct (Header_decode buf) as [h'|] eqn:Hd; [|done].
    apply header_not_wg in Hd. congruence.
  - apply unwrap_wrap_rpc.
  - intros Hlen. apply wrap_rpc_lengths. unfold PMTU_FLOOR in Hlen. lia.
Qed.

Lemma datagram_classes_witness :
  let app := [z2b 1; z2b 7; z2b 0; z2b 1] ++ replicate 8 (z2b 0) in
  let h := mkHeader (z2b 1) FindValueReq (z2b 0) Coordination 0 0 in
  looks_like_wg app = false ∧ unwrap_rpc app = app.
Proof.
  apply (datagram_classes ([z2b 1; z2b 7; z2b 0; z2b 1] ++ replicate 8 (z2b 0)) []
           (mkHeader (z2b 1) FindValueReq (z2b 0) Coordination 0 0)).
  vm_compute. reflexivity.
Defined.

(** C35: demultiplexing.  The shard a datagram is routed to always exists; the receiver
    index an engine hands out for its shard (one of at most 256) carries the shard id in
    its top byte and the local number in the other three; and a data packet with such an
    index is routed to that very shard, whatever address it comes from. *)
Theorem demux_correct (buf : bytes) (src : SocketAddr) (shard local shard_count : Z) :
  (1 ≤ shard_count ≤ 256)%Z → (0 ≤ shard < shard_count)%Z →
  (0 ≤ demux_shard buf src shard_count < shard_count)%Z ∧
  shard_from_receiver_index (encode_receiver_index shard local) = shard ∧
  (encode_receiver_index shard local mod 2 ^ 24 = local mod 2 ^ 24)%Z ∧
  (parse_wg_header buf = Some (mkWgHeader WG_TYPE_DATA (encode_receiver_index shard local)) →
   demux_shard buf src shard_count = shard).
Proof.
  intros Hn Hs. split_and!.
  - unfold demux_shard. destruct (Z.leb_spec shard_count 1); [lia|].
    destruct (parse_wg_header buf) as [h|]; [destruct (_ =? _)%Z|]; apply Z.mod_pos_bound; lia.
  - unfold demux_shard. destruct (Z.leb_spec shard_count 1); [lia|].
    destruct (parse_wg_header buf) as [h|]; [destruct (_ =? _)%Z|]; apply Z.mod_pos_bound; lia.
  - apply shard_from_encode. lia.
  - rewrite encode_receiver_index_eq by lia. rewrite Z.add_comm, Z.mod_add by lia.
    apply Zmod_mod.
  - intros Hp. unfold demux_shard. destruct (Z.leb_spec shard_count 1); [lia|].
    rewrite Hp. cbn [wg_ty receiver_index]. rewrite Z.eqb_refl, shard_from_encode by lia.
    apply Z.mod_small. lia.
Qed.

Lemma demux_correct_witness :
  let buf := le_bytes 4 4 ++ le_bytes 4 (encode_receiver_index 3 7) in
  demux_shard buf (toy_addr 1) 4 = 3%Z.
Proof.
  apply (demux_correct _ (toy_addr 1) 3 7 4); [lia|lia|vm_compute; reflexivity].
Defined.

(** C34: the session table stays consistent.  After any run of fewer than [2^24 - 2]
    operations (new peers, incoming datagrams in any session order, outgoing packets,
    keepalive ticks) on a fresh engine, each known WireGuard key belongs to exactly one
    session and each session to its key, and every session index carries the engine's
    shard id, so that its data packets are demultiplexed to this shard. *)
Theorem sessions_consistent `{TunnOps} (secret : StaticSecret) (shard : Z) (ops : list wg_op) :
  (0 ≤ shard < 256)%Z → (Z.of_nat (length ops) < 2 ^ 24 - 2)%Z →
  let e := foldl wg_apply (WgEngine_new secret shard) ops in
  (∀ x idx, by_x25519 e !! x = Some idx ↔ ∃ s, sessions e !! idx = Some s ∧ sess_x25519 s = x) ∧
  (∀ idx s, sessions e !! idx = Some s → shard_from_receiver_index idx = shard).
Proof.
  intros Hsh Hlen e.
  assert (wg_inv e ∧ wge_shard_id e = shard ∧ (next_local e ≤ 1 + Z.of_nat (length ops))%Z)
    as ([_ _ Hk Hi] & He & _).
  { unfold e. clear e. induction ops as [|o ops IH] using rev_ind.
    - split_and!; [by apply wg_inv_new|done|done].
    - rewrite foldl_app. rewrite length_app in *. cbn [foldl length] in *.
      destruct IH as (Hinv & Hid & Hnl); [lia|].
      set (e := foldl _ _ ops) in *. pose proof (wg_apply_next e o) as [Hs Hn].
      pose proof (wi_next _ Hinv). split_and!; [apply wg_inv_apply; [done|lia]|congruence|lia]. }
  split; [done|]. intros idx s (l & _ & ->)%Hi. rewrite He. by apply shard_from_encode.
Qed.

Lemma sessions_consistent_witness :
  let e := foldl wg_apply (WgEngine_new (arr_repeat (z2b 5) 32 : StaticSecret) 3)
             [WAdd (arr_repeat (z2b 8) 32) None None; WEncapTo (toy_addr 1) (arr_repeat (z2b 9) 32) None [] []] in
  (∀ x idx, by_x25519 e !! x = Some idx ↔ ∃ s, sessions e !! idx = Some s ∧ sess_x25519 s = x) ∧
  (∀ idx s, sessions e !! idx = Some s → shard_from_receiver_index idx = 3%Z).
Proof. apply sessions_consistent; [lia|simpl; lia]. Defined.

(** plaintext only comes out of an established session.  If [decapsulate] reports
    plaintext for a datagram (or for the drain call with an empty one), then the tunnel of
    one of the sessions the engine already had accepted exactly this datagram and left the
    plaintext in the scratch buffer, and that session's endpoint is now the sender; a
    datagram that is not WireGuard is dropped without touching any session. *)
Theorem decap_sound `{TunnOps} (e : WgEngine) (order : list Z) (src : SocketAddr) (d sc : bytes) :
  NoDup order →
  let '(e', r, sc') := decapsulate e order src d sc in
  (∀ n, r = Plaintext n → opened_by (sessions e) (sessions e') src d n sc') ∧
  (d ≠ [] → looks_like_wg d = false → e' = e ∧ r = Drop ∧ sc' = sc) ∧
  same_keys (sessions e) (sessions e').
Proof.
  intros Hnd. unfold decapsulate. destruct (Nat.eqb_spec (length d) 0) as [Hd|Hd].
  { apply length_zero_iff_nil in Hd as ->.
    pose proof (drain_sessions_keys order (sessions e) src sc) as Hk.
    destruct (drain_sessions _ _ _ _) as [[ss r] sc'] eqn:Hdr. split_and!; [|done|done].
    intros n ->. apply drain_sessions_plain in Hdr as (i & s & t & sc0 & r & _ & ?); [|done].
    by exists i, s, t, sc0, r. }
  unfold looks_like_wg. destruct (parse_wg_header d) as [hdr|] eqn:Hp.
  2:{ split_and!; done. }
  assert (Hwg : bool_decide (is_Some (Some hdr)) = false → False).
  { rewrite bool_decide_eq_true_2 by eauto. done. }
  destruct (_ && _).
  { destruct (cookie_reply e sc). split_and!; [done| |done]. by intros _ ?%Hwg. }
  cbv zeta. destruct (if _ : bool then _ else _) as [s|] eqn:Hdir.
  - assert (Hs : sessions e !! receiver_index hdr = Some s) by (by destruct (_ || _)).
    destruct (drive_decap _ _ _ _) as [[t r] sc'] eqn:Hdr. split_and!.
    + intros n ->. apply drive_decap_plain in Hdr as (r & ? & ?).
      exists (receiver_index hdr), s, t, sc, r. cbn. by rewrite lookup_insert_eq.
    + by intros _ ?%Hwg.
    + by apply same_keys_insert.
  - pose proof (try_sessions_keys order (sessions e) src d sc) as Hk.
    destruct (try_sessions _ _ _ _ _) as [[ss r] sc'] eqn:Hdr. split_and!; [|by intros _ ?%Hwg|done].
    intros n ->. apply try_sessions_plain in Hdr as (i & s & t & sc0 & r & _ & ?); [|done].
    by exists i, s, t, sc0, r.
Qed.

Lemma decap_sound_witness :
  let d := toy_packet (encode_receiver_index 3 2) (bstr "hi") in
  let '(e', r, sc') := decapsulate toy_engine [] (toy_addr 7) d (replicate 20 (z2b 0)) in
  (∀ n, r = Plaintext n → opened_by (sessions toy_engine) (sessions e') (toy_addr 7) d n sc') ∧
  (d ≠ [] → looks_like_wg d = false → e' = toy_engine ∧ r = Drop ∧ sc' = replicate 20 (z2b 0)) ∧
  same_keys (sessions toy_engine) (sessions e').
Proof.
  apply (decap_sound toy_engine [] (toy_addr 7) (toy_packet (encode_receiver_index 3 2) (bstr "hi"))
           (replicate 20 (z2b 0))). apply NoDup_nil_2.
Defined.

(** ** Behaviour worth knowing *)

(** The keepalive tick writes every packet into the same buffer and returns only lengths
    and destinations: with two sessions due, what the caller then sends to the first
    destination is the packet of the second. *)
Theorem keepalive_overwrites_packets :
  let order := [encode_receiver_index 3 1; encode_receiver_index 3 2] in
  let '(_, pkts, out) := tick_keepalive toy_engine order (replicate 20 (z2b 0)) in
  pkts = [(8, toy_addr 1); (8, toy_addr 2)] ∧
  take 8 out = toy_packet (encode_receiver_index 3 2) [] ∧
  take 8 out ≠ toy_packet (encode_receiver_index 3 1) [].
Proof. vm_compute. split_and!; [reflexivity|reflexivity|discriminate]. Qed.

(** A datagram with the header of a data packet moves a session's endpoint to its sender
    before, and whether or not, the tunnel accepts it: anyone who knows or guesses a
    receiver index redirects the session's traffic. *)
Theorem endpoint_moves_unauthenticated `{TunnOps} (e : WgEngine) (order : list Z) (src : SocketAddr)
    (d sc : bytes) (idx : Z) (s : Session) :
  parse_wg_header d = Some (mkWgHeader WG_TYPE_DATA idx) → sessions e !! idx = Some s →
  endpoint <$> sessions (decapsulate e order src d sc).1.1 !! idx = Some (Some src).
Proof.
  intros Hp Hs. unfold decapsulate.
  assert (length d =? 0 = false) as ->.
  { unfold parse_wg_header in Hp. by destruct d. }
  rewrite Hp. cbn [wg_ty receiver_index WG_TYPE_DATA WG_TYPE_INITIATION Z.eqb Pos.eqb andb orb].
  rewrite Hs. destruct (drive_decap _ _ _ _) as [[t r] sc']. cbn. by rewrite lookup_insert_eq.
Qed.

(** Handshake datagrams from IPv6 sources are not spread over the shards: the port is
    exclusive-ored with itself and every one of them lands on shard 0. *)
Theorem ipv6_handshakes_on_shard_zero (buf : bytes) (ip : arr 16) (port flow scope shard_count : Z) :
  (∀ h, parse_wg_header buf = Some h → wg_ty h ≠ WG_TYPE_DATA) →
  demux_shard buf (AddrV6 ip port flow scope) shard_count = 0%Z.
Proof.
  intros Hb. unfold demux_shard. destruct (shard_count <=? 1)%Z; [done|]. cbn [addr_ip addr_port].
  rewrite Z.lxor_nilpotent, Zmod_0_l.
  destruct (parse_wg_header buf) as [h|]; [|done].
  destruct (Z.eqb_spec (wg_ty h) WG_TYPE_DATA) as [Hh|]; [|done]. by destruct (Hb h eq_refl).
Qed.
