(* ===== verification/Tunnels.v ===== *)
(** * Two WireGuard tunnels back to back ([src/examples/wg_handshake.rs],
    [src/docs/security/wireguard-example.rs])

    The inner IPv4/UDP packets the demonstrations build, with the header checksum, and the
    loop that carries datagrams between two tunnels until neither has anything to say. *)

From S2P Require Import Prelude Bytes Types Codec Crypto Wg.

(** ** Inner packets *)

(** [u16::from_be_bytes([hdr[i], hdr[i + 1]])] *)
Definition word (hdr : bytes) (i : nat) : Z := be_val [index hdr i; index hdr (S i)].

(** [(0..20).step_by(2)] *)
Definition word_offsets : list nat := [0; 2; 4; 6; 8; 10; 12; 14; 16; 18].

(** The loop over the words; the checksum's own is left out. *)
Definition word_sum (hdr : bytes) : Z :=
  foldl (λ sum i, if i =? 10 then sum else wrap 32 (sum + word hdr i)) 0%Z word_offsets.

(** [while sum >> 16 != 0] *)
Fixpoint fold_carries (fuel : nat) (sum : Z) : option Z :=
  if (Z.shiftr sum 16 =? 0)%Z then Some sum
  else match fuel with
       | 0 => None
       | S fuel => fold_carries fuel (Z.land sum 65535 + Z.shiftr sum 16)
       end.

(** [!(sum as u16)]; three turns are enough for a [u32] ([fold_carries_ends]). *)
Definition ipv4_checksum (hdr : bytes) : Z :=
  (65535 - wrap 16 (default 0 (fold_carries 3 (word_sum hdr))))%Z.

(** The header up to its checksum; [flags] are those of [build_ipv4_udp]. *)
Definition ipv4_header (flags : Z) (src dst : arr 4) (total : Z) : bytes :=
  let ip := replicate 20 (z2b 0) in
  let ip := write_at ip 0 [z2b 69] in
  let ip := write_at ip 2 (be_bytes 2 (wrap 16 total)) in
  let ip := write_at ip 6 (be_bytes 2 flags) in
  let ip := write_at ip 8 [z2b 64] in
  let ip := write_at ip 9 [z2b 17] in
  let ip := write_at ip 12 (vec_to_list src) in
  write_at ip 16 (vec_to_list dst).

Definition udp_header (src_port dst_port : Z) (len : Z) : bytes :=
  let udp := replicate 8 (z2b 0) in
  let udp := write_at udp 0 (be_bytes 2 src_port) in
  let udp := write_at udp 2 (be_bytes 2 dst_port) in
  write_at udp 4 (be_bytes 2 (wrap 16 len)).

Definition with_checksum (ip : bytes) : bytes := write_at ip 10 (be_bytes 2 (ipv4_checksum ip)).

Definition build_ipv4_udp (src dst : arr 4) (src_port dst_port : Z) (payload : bytes) : bytes :=
  let ip := ipv4_header 16384 src dst (20 + 8 + Z.of_nat (length payload)) in
  with_checksum ip ++ udp_header src_port dst_port (8 + Z.of_nat (length payload)) ++ payload.

(** [Ipv4Addr::new(a, b, c, d)] *)
Definition Ipv4Addr_new (a b c d : Z) : arr 4 := list_to_arr 4 (z2b <$> [a; b; c; d]).

(** [wrap_ipv4] of [wg_handshake.rs]: no flags, the checksum folded in place. *)
Definition wrap_ipv4_summed (payload : bytes) : bytes :=
  let ip := ipv4_header 0 (Ipv4Addr_new 10 0 0 1) (Ipv4Addr_new 10 0 0 2) (20 + 8 + Z.of_nat (length payload)) in
  with_checksum ip ++ udp_header 12345 54321 (8 + Z.of_nat (length payload)) ++ payload.

(** [wrap_ipv4] of [wg_engine.rs] and [wg_udp.rs]: neither checksum nor ports. *)
Definition wrap_ipv4 (payload : bytes) : bytes :=
  let ip := ipv4_header 0 (Ipv4Addr_new 10 0 0 1) (Ipv4Addr_new 10 0 0 2) (20 + 8 + Z.of_nat (length payload)) in
  ip ++ udp_header 0 0 (8 + Z.of_nat (length payload)) ++ payload.

(** ** The pump *)

(** The two calls of a tunnel that only the demonstrations make: starting a handshake, and
    [decapsulate] without a source address. *)
Class TunnWire `{TunnOps} := {
  format_handshake_initiation : Tunn → bytes → bool → Tunn * TunnResult * bytes;
  Tunn_decap : Tunn → bytes → bytes → Tunn * TunnResult * bytes;
}.

Definition SCRATCH : nat := Z.to_nat 65536.

Section pump.
Context `{TunnWire}.

(** The inner [loop]: a datagram to send is queued and the tunnel asked for more.  The
    result is the tunnel, the outgoing datagrams and the inner packets. *)
Fixpoint settle (fuel : nat) (t : Tunn) (res : TunnResult) (scratch : bytes)
    (outgoing inner : list bytes) : option (Tunn * list bytes * list bytes) :=
  match res with
  | WriteToNetwork n =>
      match fuel with
      | 0 => None
      | S fuel =>
          let '(t, res, scratch') := Tunn_decap t [] scratch in
          settle fuel t res scratch' (outgoing ++ [take n scratch]) inner
      end
  | WriteToTunnelV4 n | WriteToTunnelV6 n => Some (t, outgoing, inner ++ [take n scratch])
  | TunnDone | TunnErr => Some (t, outgoing, inner)
  end.

(** [ingest] of [wg_handshake.rs]; its [while let] empties [incoming]. *)
Fixpoint ingest (fuel : nat) (me : Tunn) (incoming outgoing inner : list bytes)
    : option (Tunn * list bytes * list bytes) :=
  match incoming with
  | [] => Some (me, outgoing, inner)
  | datagram :: incoming =>
      let '(me, res, scratch) := Tunn_decap me datagram (replicate SCRATCH (z2b 0)) in
      '(me, outgoing, inner) ← settle fuel me res scratch outgoing inner;
      ingest fuel me incoming outgoing inner
  end.

(** The tunnels, the datagrams on their way, and the inner packets that came out. *)
Record Link := mkLink {
  l_a : Tunn; l_b : Tunn; a2b : list bytes; b2a : list bytes; a_inner : list bytes; b_inner : list bytes;
}.

(** One turn of [pump] and whether anything was read ([p1 || p2]). *)
Definition pump_turn (fuel : nat) (l : Link) : option (Link * bool) :=
  let p1 := negb (bool_decide (b2a l = [])) in
  '(a, ab, ai) ← ingest fuel (l_a l) (b2a l) (a2b l) (a_inner l);
  let p2 := negb (bool_decide (ab = [])) in
  '(b, ba, bi) ← ingest fuel (l_b l) ab [] (b_inner l);
  Some (mkLink a b [] ba ai bi, p1 || p2).

(** [pump]: at most [turns] turns, each inner loop with [fuel]. *)
Fixpoint pump (fuel turns : nat) (l : Link) : option Link :=
  match turns with
  | 0 => None
  | S turns =>
      '(l, any) ← pump_turn fuel l;
      if (any : bool) then pump fuel turns l else Some l
  end.
End pump.

(** [process_incoming] of the documentation's example: the same loop, an error is also
    logged. *)
Definition process_incoming `{TunnWire} := ingest.

(** ** The checksum *)

Definition carry (s : Z) : Z := (Z.land s 65535 + Z.shiftr s 16)%Z.

Lemma carry_eq s : carry s = (s mod 65536 + s / 65536)%Z.
Proof. unfold carry. change 65535%Z with (Z.ones 16). by rewrite Z.land_ones, Z.shiftr_div_pow2. Qed.

Lemma carry_mod s : (carry s mod 65535 = s mod 65535)%Z.
Proof.
  rewrite carry_eq. pose proof (Z.div_mod s 65536).
  replace s with (s mod 65536 + s / 65536 + s / 65536 * 65535)%Z at 3 by lia. by rewrite Z_mod_plus_full.
Qed.

Lemma carry_zero s : (0 ≤ s → carry s = 0 ↔ s = 0)%Z.
Proof. rewrite carry_eq. intros. Z.to_euclidean_division_equations. lia. Qed.

Lemma fold_carries_small fuel s : (0 ≤ s < 2 ^ 16)%Z → fold_carries fuel s = Some s.
Proof. intros. destruct fuel; cbn; by rewrite Z.shiftr_div_pow2, Z.div_small by lia. Qed.

Lemma fold_carries_step fuel s : (2 ^ 16 ≤ s)%Z → fold_carries (S fuel) s = fold_carries fuel (carry s).
Proof.
  intros. cbn. destruct (Z.eqb_spec (Z.shiftr s 16) 0) as [Hs|]; [|done].
  rewrite Z.shiftr_div_pow2 in Hs by lia. Z.to_euclidean_division_equations. lia.
Qed.

(** What a sum folds to: the same number modulo 65535, zero only when it was zero. *)
Definition folds_to (s f : Z) : Prop :=
  (0 ≤ f < 2 ^ 16)%Z ∧ (f mod 65535 = s mod 65535)%Z ∧ (f = 0 ↔ s = 0)%Z.

Lemma folds_to_refl s : (0 ≤ s < 2 ^ 16)%Z → folds_to s s.
Proof. done. Qed.

Lemma folds_to_carry s f : (0 ≤ s)%Z → folds_to (carry s) f → folds_to s f.
Proof.
  intros Hs (Hf & Hm & H0). split_and!; [lia|lia|by rewrite Hm, carry_mod|]. by rewrite H0, carry_zero.
Qed.

(** Three turns are enough for any [u32]. *)
Lemma fold_carries_ends s : (0 ≤ s < 2 ^ 32)%Z → ∃ f, fold_carries 3 s = Some f ∧ folds_to s f.
Proof.
  assert (Hgo : ∀ fuel s, (0 ≤ s)%Z →
    ((s < 2 ^ 16)%Z ∨ ∃ f, fold_carries fuel (carry s) = Some f ∧ folds_to (carry s) f) →
    ∃ f, fold_carries (S fuel) s = Some f ∧ folds_to s f).
  { intros fuel s' Hs [?|(f & ? & ?)].
    - exists s'. split; [by apply fold_carries_small|by apply folds_to_refl].
    - destruct (decide (s' < 2 ^ 16)%Z); [exists s'; split; [by apply fold_carries_small|by apply folds_to_refl]|].
      exists f. rewrite fold_carries_step by lia. split; [done|by apply folds_to_carry]. }
  intros Hs. apply Hgo; [lia|right]. apply Hgo; [rewrite carry_eq; Z.to_euclidean_division_equations; lia|].
  right. apply Hgo; [rewrite !carry_eq; Z.to_euclidean_division_equations; lia|].
  left. rewrite !carry_eq. Z.to_euclidean_division_equations. lia.
Qed.

Lemma word_bound hdr i : (0 ≤ word hdr i < 2 ^ 16)%Z.
Proof. apply (be_val_bound [_; _]). Qed.

(** The sum of all ten words, as a receiver takes it. *)
Definition full_sum (hdr : bytes) : Z := foldl (λ sum i, wrap 32 (sum + word hdr i)) 0%Z word_offsets.

(** A header a receiver accepts: the words add up to all ones. *)
Definition header_valid (hdr : bytes) : Prop := fold_carries 3 (full_sum hdr) = Some 65535%Z.

Ltac word_bounds hdr :=
  repeat match goal with
    | |- context [word hdr ?i] => generalize (word_bound hdr i); generalize (word hdr i); intros ? ?
    end.

(** Removes the wrap-around of a sum that stays small, from the inside out. *)
Ltac small_wraps :=
  repeat match goal with
    | |- context [(?a mod 2 ^ 32)%Z] =>
        lazymatch a with context [Z.modulo _ _] => fail | _ => rewrite (Z.mod_small a) by lia end
    end.

Lemma word_sum_bound hdr : (0 ≤ word_sum hdr < 2 ^ 20)%Z.
Proof. unfold word_sum, wrap. cbn [foldl word_offsets Nat.eqb]. word_bounds hdr. small_wraps. lia. Qed.

Lemma full_sum_eq hdr : full_sum hdr = (word_sum hdr + word hdr 10)%Z.
Proof. unfold full_sum, word_sum, wrap. cbn [foldl word_offsets Nat.eqb]. word_bounds hdr. small_wraps. lia. Qed.

Lemma ipv4_checksum_bound hdr : (0 ≤ ipv4_checksum hdr < 2 ^ 16)%Z.
Proof. unfold ipv4_checksum, wrap. pose proof (Z.mod_pos_bound (default 0%Z (fold_carries 3 (word_sum hdr))) (2 ^ 16)). lia. Qed.

(** Reading a buffer after a write. *)
Lemma index_write_at buf i l j :
  i + length l ≤ length buf →
  index (write_at buf i l) j = if (i <=? j) && (j <? i + length l) then index l (j - i) else index buf j.
Proof.
  intros Hlen. unfold index, write_at.
  destruct (Nat.leb_spec i j) as [Hj|Hj]; cbn [andb].
  - rewrite app_nth2; rewrite length_take_le by lia; [|done].
    destruct (Nat.ltb_spec j (i + length l)); [by rewrite app_nth1 by lia|].
    rewrite app_nth2 by lia. rewrite List.nth_skipn. f_equal. lia.
  - rewrite app_nth1 by (rewrite length_take_le; lia). symmetry.
    rewrite <-(take_drop i buf) at 1. by rewrite app_nth1 by (rewrite length_take_le; lia).
Qed.

(** The words of a header of twenty bytes after its checksum is written. *)
Lemma with_checksum_word hdr i :
  length hdr = 20 → S i < 10 ∨ 12 ≤ i → word (with_checksum hdr) i = word hdr i.
Proof.
  intros Hl Hi. unfold word, with_checksum. rewrite !index_write_at, !be_bytes_length by (rewrite be_bytes_length; lia).
  by destruct (Nat.leb_spec 10 i), (Nat.leb_spec 10 (S i)), (Nat.ltb_spec i (10 + 2)), (Nat.ltb_spec (S i) (10 + 2));
    try lia.
Qed.

Lemma with_checksum_own hdr : length hdr = 20 → word (with_checksum hdr) 10 = ipv4_checksum hdr.
Proof.
  intros Hl. unfold word, with_checksum. rewrite !index_write_at, !be_bytes_length by (rewrite be_bytes_length; lia).
  cbn [Nat.leb Nat.ltb andb plus Nat.sub].
  pose proof (be_val_be_bytes 2 (ipv4_checksum hdr)) as Hv. pose proof (be_bytes_length 2 (ipv4_checksum hdr)) as Hb.
  pose proof (ipv4_checksum_bound hdr). rewrite (Z.mod_small (ipv4_checksum hdr)) in Hv by (change (256 ^ Z.of_nat 2)%Z with (2 ^ 16)%Z; lia).
  by destruct (be_bytes 2 (ipv4_checksum hdr)) as [|c0 [|c1 [|]]].
Qed.

Lemma with_checksum_sum hdr : length hdr = 20 → word_sum (with_checksum hdr) = word_sum hdr.
Proof.
  intros Hl. unfold word_sum. cbn [foldl word_offsets Nat.eqb]. by rewrite !with_checksum_word by lia.
Qed.

(** The checksum makes the header valid, whatever its other fields. *)
Lemma with_checksum_valid hdr : length hdr = 20 → header_valid (with_checksum hdr).
Proof.
  intros Hl. unfold header_valid. rewrite full_sum_eq, with_checksum_sum, with_checksum_own by done.
  pose proof (word_sum_bound hdr) as Hb.
  destruct (fold_carries_ends (word_sum hdr)) as (f & Hf & (Hr & Hm & H0)); [lia|].
  pose proof (ipv4_checksum_bound hdr) as Hc.
  assert (ipv4_checksum hdr = 65535 - f)%Z as Hck.
  { unfold ipv4_checksum, wrap. rewrite Hf. cbn. by rewrite Z.mod_small by lia. }
  destruct (fold_carries_ends (word_sum hdr + ipv4_checksum hdr)) as (g & -> & (Hg & Hgm & Hg0)); [lia|].
  f_equal. rewrite Hck in Hgm, Hg0.
  assert (g mod 65535 = 0)%Z as Hg1.
  { rewrite Hgm. rewrite Zplus_mod, <-Hm, <-Zplus_mod. replace (f + (65535 - f))%Z with 65535%Z by lia. done. }
  assert (g = 0 ∨ g = 65535)%Z as [Hz|?] by (Z.to_euclidean_division_equations; lia); [|done].
  apply Hg0 in Hz. lia.
Qed.

(** ** The packets *)

Lemma two_bytes z : ∃ a b, be_bytes 2 z = [a; b] ∧ be_val [a; b] = (z mod 2 ^ 16)%Z.
Proof.
  pose proof (be_bytes_length 2 z) as Hl. pose proof (be_val_be_bytes 2 z) as Hv.
  destruct (be_bytes 2 z) as [|a [|b [|]]]; try discriminate. by exists a, b.
Qed.

Lemma four_bytes (v : arr 4) : ∃ a b c d, vec_to_list v = [a; b; c; d].
Proof.
  pose proof (length_vec_to_list v) as Hl.
  destruct (vec_to_list v) as [|a [|b [|c [|d [|]]]]]; try discriminate. by exists a, b, c, d.
Qed.

Lemma ipv4_header_bytes flags src dst total :
  ∃ t0 t1 f0 f1 s0 s1 s2 s3 d0 d1 d2 d3,
  ipv4_header flags src dst total =
    [z2b 69; z2b 0; t0; t1; z2b 0; z2b 0; f0; f1; z2b 64; z2b 17; z2b 0; z2b 0; s0; s1; s2; s3; d0; d1; d2; d3] ∧
  be_val [t0; t1] = (total mod 2 ^ 16)%Z ∧ vec_to_list src = [s0; s1; s2; s3] ∧ vec_to_list dst = [d0; d1; d2; d3].
Proof.
  unfold ipv4_header. destruct (two_bytes (wrap 16 total)) as (t0 & t1 & -> & Ht), (two_bytes flags) as (f0 & f1 & -> & _),
    (four_bytes src) as (s0 & s1 & s2 & s3 & ->), (four_bytes dst) as (d0 & d1 & d2 & d3 & ->).
  unfold wrap in Ht. rewrite Zmod_mod in Ht. by exists t0, t1, f0, f1, s0, s1, s2, s3, d0, d1, d2, d3.
Qed.

Lemma ipv4_header_length flags src dst total : length (ipv4_header flags src dst total) = 20.
Proof. by destruct (ipv4_header_bytes flags src dst total) as (? & ? & ? & ? & ? & ? & ? & ? & ? & ? & ? & ? & -> & _). Qed.

Lemma udp_header_bytes sp dp len :
  ∃ s0 s1 d0 d1 l0 l1, udp_header sp dp len = [s0; s1; d0; d1; l0; l1; z2b 0; z2b 0] ∧
  be_val [s0; s1] = (sp mod 2 ^ 16)%Z ∧ be_val [d0; d1] = (dp mod 2 ^ 16)%Z ∧ be_val [l0; l1] = (len mod 2 ^ 16)%Z.
Proof.
  unfold udp_header. destruct (two_bytes sp) as (s0 & s1 & -> & ?), (two_bytes dp) as (d0 & d1 & -> & ?),
    (two_bytes (wrap 16 len)) as (l0 & l1 & -> & Hl).
  unfold wrap in Hl. rewrite Zmod_mod in Hl. by exists s0, s1, d0, d1, l0, l1.
Qed.

(** What a receiver reads from [pkt]: lengths, addresses, ports and payload. *)
Record ipv4_udp (pkt : bytes) (src dst : arr 4) (src_port dst_port : Z) (payload : bytes) : Prop := {
  iu_total : length pkt = 28 + length payload;
  iu_length : word pkt 2 = Z.of_nat (length pkt);
  iu_src : slice pkt 12 16 = vec_to_list src;
  iu_dst : slice pkt 16 20 = vec_to_list dst;
  iu_src_port : word pkt 20 = src_port;
  iu_dst_port : word pkt 22 = dst_port;
  iu_udp_length : word pkt 24 = Z.of_nat (8 + length payload);
  iu_payload : unwrap_rpc pkt = payload;
}.

Lemma packet_reads flags src dst sp dp payload c :
  (Z.of_nat (length payload) < 2 ^ 16 - 28)%Z → in_u 16 sp → in_u 16 dp → length c = 2 →
  ipv4_udp (write_at (ipv4_header flags src dst (20 + 8 + Z.of_nat (length payload))) 10 c ++
            udp_header sp dp (8 + Z.of_nat (length payload)) ++ payload) src dst sp dp payload.
Proof.
  intros Hlen Hsp Hdp Hc. unfold in_u in *. destruct c as [|c0 [|c1 [|]]]; try discriminate.
  destruct (ipv4_header_bytes flags src dst (20 + 8 + Z.of_nat (length payload)))
    as (t0 & t1 & f0 & f1 & s0 & s1 & s2 & s3 & d0 & d1 & d2 & d3 & -> & Ht & Hs & Hd).
  destruct (udp_header_bytes sp dp (8 + Z.of_nat (length payload))) as (a0 & a1 & b0 & b1 & l0 & l1 & -> & Ha & Hb & Hl).
  rewrite Z.mod_small in Ht by lia. rewrite Z.mod_small in Ha, Hb, Hl by lia.
  split; unfold word, slice, write_at, index; cbn -[be_val]; rewrite ?Hs, ?Hd, ?Ht, ?Ha, ?Hb, ?Hl; try lia; done.
Qed.

(** The packets of the demonstrations are what they say, and the checksum of the two that
    have one is right. *)
Theorem build_ipv4_udp_correct (src dst : arr 4) (src_port dst_port : Z) (payload : bytes) :
  (Z.of_nat (length payload) < 2 ^ 16 - 28)%Z → in_u 16 src_port → in_u 16 dst_port →
  let pkt := build_ipv4_udp src dst src_port dst_port payload in
  ipv4_udp pkt src dst src_port dst_port payload ∧ header_valid (take 20 pkt).
Proof.
  intros Hlen Hsp Hdp. cbv zeta. unfold build_ipv4_udp. split.
  - apply packet_reads; [done..|apply be_bytes_length].
  - pose proof (ipv4_header_length 16384 src dst (20 + 8 + Z.of_nat (length payload))) as Hl.
    rewrite take_app_length'; [by apply with_checksum_valid|].
    unfold with_checksum. rewrite write_at_length; [done|rewrite be_bytes_length, Hl; lia].
Qed.

(** ** The pump ends *)

(** The protocol runs down: what a tunnel still has to send, and what a datagram may make
    it send, shrink with every datagram that leaves ("call again with an empty datagram
    until [Done]"). *)
Class TunnSettles `{TunnWire} := {
  tunn_backlog : Tunn → nat;
  effort : bytes → nat;
  effort_nil : effort [] = 0;
  decap_effort t d sc t' res sc' :
    Tunn_decap t d sc = (t', res, sc') →
    match res with
    | WriteToNetwork n => tunn_backlog t' + effort (take n sc') < tunn_backlog t + effort d
    | _ => tunn_backlog t' ≤ tunn_backlog t + effort d
    end;
}.

Section settles.
Context `{TunnSettles}.

Definition cost (q : list bytes) : nat := sum_list_with (λ d, S (effort d)) q.

Definition res_cost (res : TunnResult) (sc : bytes) : nat :=
  match res with WriteToNetwork n => S (effort (take n sc)) | _ => 0 end.

Lemma decap_cost t d sc t' res sc' :
  Tunn_decap t d sc = (t', res, sc') → tunn_backlog t' + res_cost res sc' ≤ tunn_backlog t + effort d.
Proof. intros Hd%decap_effort. destruct res; cbn in *; lia. Qed.

Lemma cost_app q q' : cost (q ++ q') = cost q + cost q'.
Proof. apply sum_list_with_app. Qed.

Lemma cost_length q : length q ≤ cost q.
Proof. induction q as [|d q IH]; [done|]. unfold cost in *. cbn. lia. Qed.

Lemma settle_ends fuel t res sc outgoing inner :
  tunn_backlog t + res_cost res sc ≤ fuel →
  ∃ t' out inn, settle fuel t res sc outgoing inner = Some (t', outgoing ++ out, inner ++ inn) ∧
    tunn_backlog t' + cost out ≤ tunn_backlog t + res_cost res sc.
Proof.
  revert t res sc outgoing. induction fuel as [|fuel IH]; intros t res sc outgoing Hf.
  all: destruct res as [| |n|n|n]; cbn in Hf |- *; try lia.
  all: try (eexists _, [], _; rewrite app_nil_r; split; [try done; by rewrite app_nil_r|cbn; lia]).
  destruct (Tunn_decap t [] sc) as [[t' res'] sc'] eqn:Hd. apply decap_cost in Hd. rewrite effort_nil in Hd.
  destruct (IH t' res' sc' (outgoing ++ [take n sc])) as (t2 & out & inn & -> & Hc); [lia|].
  exists t2, (take n sc :: out), inn. rewrite <-(assoc_L (++)). split; [done|]. unfold cost in *. cbn. lia.
Qed.

Lemma ingest_ends fuel me incoming outgoing inner :
  tunn_backlog me + cost incoming ≤ fuel →
  ∃ me' out inn, ingest fuel me incoming outgoing inner = Some (me', outgoing ++ out, inner ++ inn) ∧
    tunn_backlog me' + cost out + length incoming ≤ tunn_backlog me + cost incoming.
Proof.
  revert me outgoing inner. induction incoming as [|d incoming IH]; intros me outgoing inner Hf.
  { exists me, [], []. rewrite !app_nil_r. cbn in *. split; [done|lia]. }
  assert (cost (d :: incoming) = S (effort d) + cost incoming) as Hcons by done. cbn [ingest].
  destruct (Tunn_decap me d _) as [[t res] sc] eqn:Hd. apply decap_cost in Hd.
  destruct (settle_ends fuel t res sc outgoing inner) as (t1 & out1 & inn1 & -> & Hc1); [lia|]. cbn.
  destruct (IH t1 (outgoing ++ out1) (inner ++ inn1)) as (t2 & out2 & inn2 & -> & Hc2); [lia|].
  exists t2, (out1 ++ out2), (inn1 ++ inn2). rewrite !(assoc_L (++)), cost_app. split; [done|unfold cost in *; cbn; lia].
Qed.

#[local] Arguments cost : simpl never.

Definition potential (l : Link) : nat :=
  tunn_backlog (l_a l) + tunn_backlog (l_b l) + cost (a2b l) + cost (b2a l).

(** A turn that reads nothing finds and leaves nothing on its way. *)
Definition at_rest (l : Link) : Prop := a2b l = [] ∧ b2a l = [].

Lemma length_pos {A} (q : list A) : q ≠ [] → 0 < length q.
Proof. destruct q; [done|cbn; lia]. Qed.

Lemma pump_turn_ends fuel l :
  potential l ≤ fuel →
  ∃ l' any, pump_turn fuel l = Some (l', any) ∧ a_inner l `prefix_of` a_inner l' ∧ b_inner l `prefix_of` b_inner l' ∧
    (if any : bool then potential l' < potential l else at_rest l').
Proof.
  unfold potential, pump_turn. intros Hf.
  destruct (ingest_ends fuel (l_a l) (b2a l) (a2b l) (a_inner l)) as (a & outa & inna & -> & Ha); [lia|]. cbn.
  destruct (ingest_ends fuel (l_b l) (a2b l ++ outa) [] (b_inner l)) as (b & outb & innb & Hb & Hc).
  { rewrite cost_app. lia. }
  rewrite Hb. cbn. eexists _, _. split; [done|]. cbn. split_and!; [by eexists|by eexists|].
  rewrite cost_app, length_app in Hc. assert (cost [] = 0) as Hn by done.
  destruct (bool_decide_reflect (b2a l = [])) as [Hba|Hba]; cbn.
  - destruct (bool_decide_reflect (a2b l ++ outa = [])) as [Hab|Hab]; cbn.
    + split; [done|]. cbn. rewrite Hab in Hb. cbn in Hb. by simplify_eq.
    + apply length_pos in Hab. rewrite length_app in Hab. lia.
  - apply length_pos in Hba. lia.
Qed.

(** With fuel for what the tunnels and datagrams hold, the pump comes to rest with nothing
    on its way, and no inner packet is lost or taken back. *)
Theorem pump_ends (fuel turns : nat) (l : Link) :
  potential l ≤ fuel → potential l < turns →
  ∃ l', pump fuel turns l = Some l' ∧ at_rest l' ∧
    a_inner l `prefix_of` a_inner l' ∧ b_inner l `prefix_of` b_inner l'.
Proof.
  revert l. induction turns as [|turns IH]; intros l Hf Ht; [lia|]. cbn [pump].
  destruct (pump_turn_ends fuel l Hf) as (l1 & any & -> & Ha & Hb & Hany). cbn.
  destruct any; [|by exists l1].
  destruct (IH l1) as (l2 & Hp & Hr & Ha2 & Hb2); [lia..|]. exists l2. split_and!; [done..| |]; by etrans.
Qed.
End settles.

(** ** A tunnel with a handshake

    No encryption: an initiation names the sender's index and key, a response the indices
    of both sides, a data packet the receiver's index, laid out as WireGuard does. *)

#[local] Existing Instance toy_crypto.

Record Shake := mkShake { sk_own : Z; sk_key : arr 32; sk_peer : arr 32; sk_remote : option Z }.

Definition shake_initiation (t : Shake) : bytes := le_bytes 4 1 ++ le_bytes 4 (sk_own t) ++ vec_to_list (sk_key t).
Definition shake_response (own remote : Z) : bytes := le_bytes 4 2 ++ le_bytes 4 own ++ le_bytes 4 remote.

Definition shake_with (t : Shake) (remote : Z) : Shake := mkShake (sk_own t) (sk_key t) (sk_peer t) (Some remote).

(** What a datagram does to a tunnel: the answer to send, or an inner packet. *)
Definition shake_step (t : Shake) (d : bytes) : Shake * option (bytes + bytes) :=
  match parse_wg_header d with
  | Some (mkWgHeader ty idx) =>
      if (ty =? WG_TYPE_INITIATION)%Z then
        if bool_decide (drop 8 d = vec_to_list (sk_peer t))
        then (shake_with t idx, Some (inl (shake_response (sk_own t) idx))) else (t, None)
      else if (ty =? WG_TYPE_RESPONSE)%Z then
        if (le_val (slice d 8 12) =? sk_own t)%Z then (shake_with t idx, Some (inl (toy_packet idx []))) else (t, None)
      else if (ty =? WG_TYPE_DATA)%Z && (idx =? sk_own t)%Z then
        (t, if bool_decide (drop 8 d = []) then None else Some (inr (drop 8 d)))
      else (t, None)
  | None => (t, None)
  end.

Definition shake_decap (t : Shake) (d scratch : bytes) : Shake * TunnResult * bytes :=
  let '(t, r) := shake_step t d in
  match r with
  | Some (inl p) => (t, WriteToNetwork (length p), write_at scratch 0 p)
  | Some (inr p) => (t, WriteToTunnelV4 (length p), write_at scratch 0 p)
  | None => (t, TunnDone, scratch)
  end.

Definition shake_encap (t : Shake) (p out : bytes) : Shake * TunnResult * bytes :=
  let d := match sk_remote t with Some r => toy_packet r p | None => shake_initiation t end in
  (t, WriteToNetwork (length d), write_at out 0 d).

#[local] Instance shake_tunn : TunnOps := {|
  Tunn := Shake;
  Tunn_new s peer _ idx := mkShake idx (X25519Public_from s) peer None;
  Tunn_decapsulate t _ d sc := shake_decap t d sc;
  Tunn_encapsulate := shake_encap;
  Tunn_update_timers t out := (t, TunnDone, out);
|}.

#[local] Instance shake_wire : TunnWire := {|
  format_handshake_initiation t out _ :=
    (t, WriteToNetwork (length (shake_initiation t)), write_at out 0 (shake_initiation t));
  Tunn_decap := shake_decap;
|}.

Definition shake_effort (d : bytes) : nat :=
  match parse_wg_header d with
  | Some h => if (wg_ty h =? WG_TYPE_INITIATION)%Z then 2 else if (wg_ty h =? WG_TYPE_RESPONSE)%Z then 1 else 0
  | None => 0
  end.

Lemma take_write_at sc p : take (length p) (write_at sc 0 p) = p.
Proof. unfold write_at. by rewrite take_0, app_nil_l, take_app_length. Qed.

Lemma parse_packet ty idx p :
  (1 ≤ ty ≤ 4)%Z → ∃ i, parse_wg_header (le_bytes 4 ty ++ le_bytes 4 idx ++ p) = Some (mkWgHeader ty i).
Proof.
  intros Hty. unfold parse_wg_header, slice. rewrite !length_app, !le_bytes_length.
  destruct (Nat.ltb_spec (4 + (4 + length p)) 8); [lia|].
  rewrite drop_0, take_app_length' by by rewrite le_bytes_length. rewrite le_val_le_bytes, Z.mod_small by (cbn; lia).
  replace (negb ((1 <=? ty) && (ty <=? 4)))%Z with false by lia. by eexists.
Qed.

#[local] Opaque le_bytes.

(** A response takes less effort than the initiation it answers, data less than either. *)
Lemma shake_step_effort t d t' p : shake_step t d = (t', Some (inl p)) → shake_effort p < shake_effort d.
Proof.
  unfold shake_step, shake_effort at 2. destruct (parse_wg_header d) as [[ty idx]|]; [|done]. cbn [wg_ty].
  destruct (ty =? WG_TYPE_INITIATION)%Z; [|destruct (ty =? WG_TYPE_RESPONSE)%Z].
  - case_bool_decide; [|done]. unfold shake_response.
    destruct (parse_packet 2 (sk_own t) (le_bytes 4 idx)) as (i & Hi); [lia|].
    intros [= _ <-]. unfold shake_effort. rewrite Hi. cbn. lia.
  - destruct (_ =? _)%Z; [|done]. destruct (parse_packet 4 idx []) as (i & Hi); [lia|].
    intros [= _ <-]. unfold shake_effort, toy_packet. rewrite Hi. cbn. lia.
  - destruct (_ && _); [case_bool_decide|]; done.
Qed.

#[local] Instance shake_settles : TunnSettles.
Proof.
  refine {| tunn_backlog _ := 0 : nat; effort := shake_effort |}; [done|].
  intros t d sc t' res sc'. cbn. unfold shake_decap.
  destruct (shake_step t d) as [t1 [[p|p]|]] eqn:Hs; intros [= <- <- <-]; [|lia..].
  rewrite take_write_at. apply shake_step_effort in Hs. lia.
Defined.

(** ** Handshakes between engines *)

(** The bytes [decapsulate] reads as the receiver's index of a handshake response are the
    responder's own index: when they name a session here, that session alone sees the
    response, whoever it is for. *)
Theorem response_meets_sender_index `{TunnOps} (e : WgEngine) (order : list Z) (src : SocketAddr) (d sc : bytes)
    (idx : Z) (s : Session) :
  parse_wg_header d = Some (mkWgHeader WG_TYPE_RESPONSE idx) → sessions e !! idx = Some s →
  (decapsulate e order src d sc).1.2 = (drive_decap (tunn s) (addr_ip src) d sc).1.2 ∧
  ∀ i, i ≠ idx → sessions (decapsulate e order src d sc).1.1 !! i = sessions e !! i.
Proof.
  intros Hp Hs. unfold decapsulate.
  assert (length d =? 0 = false) as -> by (unfold parse_wg_header in Hp; by destruct d).
  rewrite Hp. cbn [wg_ty receiver_index WG_TYPE_DATA WG_TYPE_RESPONSE WG_TYPE_INITIATION Z.eqb Pos.eqb andb orb].
  rewrite Hs. destruct (drive_decap _ _ _ _) as [[t r] sc']. split; [done|]. intros i Hi. cbn. by rewrite lookup_insert_ne.
Qed.

(** Engines of one shard each with the keys 1, 2 and 3. *)
Definition engine_with (key : Z) (peers : list Z) : WgEngine :=
  foldl (λ e p, (add_peer e (arr_repeat (z2b p) 32) None (Some (toy_addr p))).1)
    (WgEngine_new (arr_repeat (z2b key) 32 : StaticSecret) 0) peers.

Definition all_sessions `{TunnOps} (e : WgEngine) : list Z := (map_to_list (sessions e)).*1.

(** The engine of key 1 starts a handshake with that of key 3, which has no other peer,
    and is given the answer; what becomes of the answer, and whether data for key 3 is
    encrypted afterwards. *)
Definition handshake_with_3 (peers : list Z) : Decap * bool :=
  let key3 := arr_repeat (z2b 3) 32 in
  let a := engine_with 1 peers in
  let c := engine_with 3 [1%Z] in
  let out := replicate 64 (z2b 0) in
  let '(a, n, out1) := encapsulate a key3 (bstr "hi") out in
  let init := take (from_option fst 0 n) out1 in
  let '(c, r, out2) := decapsulate c (all_sessions c) (toy_addr 1) init out in
  let response := match r with Network n => take n out2 | _ => [] end in
  let '(a, r, _) := decapsulate a (all_sessions a) (toy_addr 3) response out in
  let '(_, _, out3) := encapsulate a key3 (bstr "hi") out in
  (r, from_option (λ h, wg_ty h =? WG_TYPE_DATA)%Z false (parse_wg_header out3)).

(** With a tunnel that puts the index it was made with on the wire, a handshake completes
    between two engines that know only each other, and never when the responder's index is
    one of the initiator's sessions with somebody else.  (A tunnel that shifts its index
    before it sends it makes such a coincidence rarer, not impossible.) *)
Example response_lost :
  handshake_with_3 [3%Z] = (Network 8, true) ∧ handshake_with_3 [2%Z; 3%Z] = (Drop, false).
Proof. vm_compute. split; reflexivity. Qed.

Example pump_ends_witness :
  let l := mkLink (mkShake 7 (arr_repeat (z2b 1) 32) (arr_repeat (z2b 3) 32) None)
                  (mkShake 9 (arr_repeat (z2b 3) 32) (arr_repeat (z2b 1) 32) None)
                  [shake_initiation (mkShake 7 (arr_repeat (z2b 1) 32) (arr_repeat (z2b 3) 32) None)] [] [] [] in
  potential l = 3 ∧
  ∃ l', pump 3 4 l = Some l' ∧ at_rest l' ∧ a_inner l `prefix_of` a_inner l' ∧ b_inner l `prefix_of` b_inner l'.
Proof. split; [by vm_compute|]. apply (pump_ends 3 4); by (vm_compute; lia). Defined.

Lemma build_ipv4_udp_correct_witness :
  let pkt := build_ipv4_udp (Ipv4Addr_new 10 0 0 1) (Ipv4Addr_new 10 0 0 2) 12345 54321 (bstr "hello over boringtun") in
  ipv4_udp pkt (Ipv4Addr_new 10 0 0 1) (Ipv4Addr_new 10 0 0 2) 12345 54321 (bstr "hello over boringtun") ∧
  header_valid (take 20 pkt).
Proof. apply build_ipv4_udp_correct; by vm_compute. Defined.
