(* ===== verification/Relay.v ===== *)
(** * NAT traversal and relaying ([src/nat.rs], [src/relay.rs])

    Endpoint freshness, NAT classification, hole-punch candidates and deadlines, and the
    byte budget that limits relayed traffic.  Counters are 64-bit; [Instant]s are
    nanoseconds. *)

From S2P Require Import Prelude Bytes Types Lookup.

Definition KEEPALIVE : Z := 20 * 1000000000.
Definition CONSENT_TTL : Z := 30 * 60 * 1000000000.
Definition RELAY_BUDGET_NUM : Z := 1.
Definition RELAY_BUDGET_DEN : Z := 10.

Inductive NatType := FullCone | Restricted | PortRestricted | Symmetric | Unknown.

Record EndpointHint := mkEndpointHint { declared : SocketAddr; observed : option SocketAddr; last_ok : Z }.

Definition fresh (e : EndpointHint) (now : Z) : bool := (sat_sub now (last_ok e) <? CONSENT_TTL)%Z.

Definition classify (decl obs : SocketAddr) : NatType :=
  if bool_decide (addr_ip decl = addr_ip obs) && (addr_port decl =? addr_port obs)%Z then FullCone
  else if bool_decide (addr_ip decl = addr_ip obs) then PortRestricted
  else Symmetric.

Definition punch_deadlines (now : Z) : Z * Z := (now + millis 250, now + millis 500)%Z.

Definition is_unspecified (ip : IpAddr) : bool :=
  match ip with
  | IpV4 o => bool_decide (o = arr_repeat (z2b 0) 4)
  | IpV6 o => bool_decide (o = arr_repeat (z2b 0) 16)
  end.

Definition LOCALHOST : arr 4 := list_to_arr 4 (z2b <$> [127; 0; 0; 1]%Z).

Definition candidates (local : SocketAddr) (mapped : option SocketAddr) : list SocketAddr :=
  let host := if is_unspecified (addr_ip local) then AddrV4 LOCALHOST (addr_port local) else local in
  let out := [host] in
  match mapped with
  | Some m => if bool_decide (m ∈ out) then out else out ++ [m]
  | None => out
  end.

Record PunchAttempt := mkPunchAttempt {
  pa_peer : NodeId;
  pa_candidates : list SocketAddr;
  rendezvous : SocketAddr;
  bursts_done : Z;
  next_burst : Z;
  relay_at : Z;
  replied : bool;
}.

(** ** The relay budget *)

Record RelayBudget := mkRelayBudget { egress : Z; relayed : Z }.

Definition RelayBudget_new : RelayBudget := mkRelayBudget 0 0.

Definition allow (b : RelayBudget) (n : Z) : RelayBudget * bool :=
  let next := wrap 64 (relayed b + n) in
  if (egress b =? 0)%Z then (mkRelayBudget (egress b) next, true)
  else if (wrap 64 (next * RELAY_BUDGET_DEN) <=?
           wrap 64 (wrap 64 (egress b * RELAY_BUDGET_NUM) + egress b))%Z
  then (mkRelayBudget (egress b) next, true)
  else (b, false).

Definition on_egress (b : RelayBudget) (n : Z) : RelayBudget :=
  mkRelayBudget (wrap 64 (egress b + n)) (relayed b).

Record RelayState := mkRelayState { enabled : bool; rs_budget : RelayBudget; prefer_control : bool }.

Definition RelayState_new (en : bool) : RelayState := mkRelayState en RelayBudget_new true.

Definition forward (r : RelayState) (n : Z) (control : bool) : RelayState * bool :=
  if negb (enabled r) && negb control then (r, false)
  else
    let b := on_egress (rs_budget r) n in
    let '(b, ok) := allow b n in
    (mkRelayState (enabled r) b (prefer_control r), ok).

Definition pick_relay (self_id dest : NodeId) (cands : list (NodeId * SocketAddr)) : option SocketAddr :=
  let db := bucket_index self_id dest in
  snd <$> find (λ c, negb (bucket_index self_id c.1 =? db)) cands.

(** ** Runs *)

(** What the shard does with its relay state: count its own traffic, and try to forward. *)
Inductive relay_op := OpEgress (n : Z) | OpForward (n : Z) (control : bool).

Definition op_bytes (o : relay_op) : Z := match o with OpEgress n => n | OpForward n _ => n end.

(** The state after a run, and the number of bytes it agreed to relay. *)
Fixpoint relay_run (r : RelayState) (ops : list relay_op) : RelayState * Z :=
  match ops with
  | [] => (r, 0%Z)
  | OpEgress n :: ops =>
      relay_run (mkRelayState (enabled r) (on_egress (rs_budget r) n) (prefer_control r)) ops
  | OpForward n c :: ops =>
      let '(r, ok) := forward r n c in
      let '(r, total) := relay_run r ops in
      (r, if ok then (n + total)%Z else total)
  end.

Definition total_bytes (ops : list relay_op) : Z := foldr (λ o t, (op_bytes o + t)%Z) 0%Z ops.

(** No 64-bit counter overflows while [b] handles another [n] bytes. *)
Definition budget_ok (b : RelayBudget) (n : Z) : Prop :=
  (0 ≤ relayed b ∧ relayed b * 10 ≤ 2 * egress b ∧ 0 ≤ n ∧ 20 * (egress b + n) < 2 ^ 64)%Z.

Lemma forward_budget r n c m :
  budget_ok (rs_budget r) (n + m) → (0 ≤ n)%Z → (0 ≤ m)%Z →
  let '(r', ok) := forward r n c in
  budget_ok (rs_budget r') m ∧ enabled r' = enabled r ∧
  (relayed (rs_budget r') = relayed (rs_budget r) + if ok then n else 0)%Z ∧
  (egress (rs_budget r') ≤ egress (rs_budget r) + n)%Z.
Proof.
  unfold budget_ok. intros (? & ? & ? & ?) Hn Hm. unfold forward.
  destruct (negb _ && negb _); [cbn; split_and!; try done; lia|].
  unfold on_egress, allow. destruct r as [en [eg rl] pc]. cbn [rs_budget egress relayed enabled] in *.
  unfold RELAY_BUDGET_NUM, RELAY_BUDGET_DEN.
  repeat rewrite wrap_small by (unfold in_u; rewrite ?wrap_small by (unfold in_u; lia); lia).
  destruct (Z.eqb_spec (eg + n) 0); [cbn; split_and!; try done; lia|].
  destruct (Z.leb_spec ((rl + n) * 10) ((eg + n) * 1 + (eg + n))); cbn; split_and!; try done; lia.
Qed.

Lemma relay_run_budget ops r :
  Forall (λ o, 0 ≤ op_bytes o)%Z ops → budget_ok (rs_budget r) (total_bytes ops) →
  let '(r', total) := relay_run r ops in
  relayed (rs_budget r') = (relayed (rs_budget r) + total)%Z ∧ enabled r' = enabled r ∧
  (relayed (rs_budget r') * 10 ≤ 2 * egress (rs_budget r'))%Z ∧
  (egress (rs_budget r') ≤ egress (rs_budget r) + total_bytes ops)%Z.
Proof.
  intros Hops. revert r. induction Hops as [|o ops Ho Hops IH]; intros r Hb; cbn [relay_run].
  { unfold budget_ok in Hb. cbn in *. split_and!; try done; lia. }
  assert (Ht : (0 ≤ total_bytes ops)%Z).
  { clear -Hops. induction Hops; cbn [total_bytes foldr]; [lia|]. fold (total_bytes l). lia. }
  cbn [total_bytes foldr] in *. fold (total_bytes ops) in *.
  destruct o as [n|n c]; cbn [op_bytes] in *.
  - set (r1 := mkRelayState _ _ _).
    assert (Hw : wrap 64 (egress (rs_budget r) + n) = (egress (rs_budget r) + n)%Z).
    { apply wrap_small. unfold in_u, budget_ok in *. lia. }
    specialize (IH r1). destruct (relay_run r1 ops) as [r' total].
    destruct IH as (? & ? & ? & ?); [unfold budget_ok in *; cbn; rewrite Hw; lia|].
    cbn [rs_budget r1 on_egress egress relayed enabled] in *. rewrite Hw in *. split_and!; try done; lia.
  - pose proof (forward_budget r n c (total_bytes ops) Hb Ho Ht) as Hf.
    destruct (forward r n c) as [r1 ok]. destruct Hf as (Hb1 & He & Hr & Hg).
    specialize (IH r1 Hb1). destruct (relay_run r1 ops) as [r' total].
    destruct IH as (? & ? & ? & ?). destruct ok; split_and!; try congruence; lia.
Qed.

(** ** Theorems *)

(** the relay budget.  Along any run of own traffic and forward requests (less than
    [2^64 / 20] bytes in all), the bytes a node agreed to relay never exceed a fifth of the
    bytes it counted as egress, and the counter it keeps is exactly the number of bytes it
    agreed to; a node on which relaying is switched off forwards no data at all. *)
Theorem relay_budget_correct (en : bool) (ops : list relay_op) :
  Forall (λ o, 0 ≤ op_bytes o)%Z ops → (20 * total_bytes ops < 2 ^ 64)%Z →
  let '(r, total) := relay_run (RelayState_new en) ops in
  relayed (rs_budget r) = total ∧
  (5 * total ≤ egress (rs_budget r) ≤ total_bytes ops)%Z ∧
  (en = false → Forall (λ o, match o with OpForward _ c => c = false | _ => True end) ops → total = 0%Z).
Proof.
  intros Hops Hlt.
  assert (Ht : (0 ≤ total_bytes ops)%Z).
  { clear -Hops. induction Hops; cbn [total_bytes foldr]; [lia|]. fold (total_bytes l). lia. }
  pose proof (relay_run_budget ops (RelayState_new en) Hops) as Hrun.
  assert (Hoff : en = false → ∀ ops r, enabled r = false →
    Forall (λ o, match o with OpForward _ c => c = false | _ => True end) ops → (relay_run r ops).2 = 0%Z).
  { intros _. clear. induction ops as [|[n|n c] ops IH]; intros r Hr Hc; [done| |];
      inversion_clear Hc as [|? ? Ho Hc']; cbn [relay_run].
    - by apply IH.
    - unfold forward. rewrite Hr, Ho. cbn [negb andb]. specialize (IH r Hr Hc').
      by destruct (relay_run r ops). }
  destruct (relay_run (RelayState_new en) ops) as [r total] eqn:Hr.
  destruct Hrun as (? & ? & ? & ?); [unfold budget_ok; cbn; lia|]. cbn in *.
  split_and!; [lia..|]. intros -> Hc. specialize (Hoff eq_refl ops (RelayState_new false) eq_refl Hc).
  by rewrite Hr in Hoff.
Qed.

Lemma relay_budget_correct_witness :
  let '(r, total) := relay_run (RelayState_new true) [OpEgress 900; OpForward 100 false; OpForward 500 false] in
  relayed (rs_budget r) = total ∧
  (5 * total ≤ egress (rs_budget r) ≤
     total_bytes [OpEgress 900; OpForward 100 false; OpForward 500 false])%Z ∧
  (true = false → Forall (λ o, match o with OpForward _ c => c = false | _ => True end)
     [OpEgress 900; OpForward 100 false; OpForward 500 false] → total = 0%Z).
Proof.
  apply (relay_budget_correct true [OpEgress 900; OpForward 100 false; OpForward 500 false]).
  - repeat constructor; cbn; lia.
  - cbn. lia.
Defined.

(** ** Behaviour worth knowing *)

(** The budget is a fifth, not the tenth that its constants name: the comparison adds the
    egress once more.  Here 200 of 1100 bytes are relayed. *)
Theorem relay_budget_exceeds_tenth :
  let '(r, total) := relay_run (RelayState_new true) [OpEgress 900; OpForward 100 false; OpForward 100 false] in
  total = 200%Z ∧ egress (rs_budget r) = 1100%Z ∧
  (egress (rs_budget r) * RELAY_BUDGET_NUM < total * RELAY_BUDGET_DEN)%Z.
Proof. vm_compute. done. Qed.

(** A refused forward is still counted as egress, so refusals earn budget: a node that has
    sent nothing relays a payload on its fifth attempt. *)
Theorem refused_forward_earns_budget :
  (relay_run (RelayState_new true) (replicate 4 (OpForward 100 false))).2 = 0%Z ∧
  (relay_run (RelayState_new true) (replicate 5 (OpForward 100 false))).2 = 100%Z.
Proof. vm_compute. done. Qed.

Lemma pick_relay_spec self_id dest cands a :
  pick_relay self_id dest cands = Some a →
  ∃ id, (id, a) ∈ cands ∧ bucket_index self_id id ≠ bucket_index self_id dest.
Proof.
  unfold pick_relay. rewrite fmap_Some. intros ([id b] & Hf & ->).
  apply find_Some_elem in Hf as [Hin Hb]. exists id. split; [done|]. by bool_to_prop.
Qed.
