(* ===== verification/EventLoop.v ===== *)
(** * Timers and command queues of a shard ([src/event_loop.rs])

    [std::collections::BinaryHeap] is a priority queue: [peek] and [pop] give a greatest
    element of [Timer]'s order, and equal timers are interchangeable.  The heap is the
    list of its elements, and [peek] the greatest of them.  Waiting on the poller is in
    [Reactor.v]. *)

From S2P Require Import Prelude Lookup.

Definition DRAIN_BATCH : nat := 32.

Inductive TimerKind := Keepalive | PeerstoreFlush | Gc | LookupTick | PunchTick.

#[export] Instance TimerKind_eq_dec : EqDecision TimerKind.
Proof. solve_decision. Defined.

(** The derived order of [TimerKind] is the order of its variants. *)
Definition kind_rank (k : TimerKind) : nat :=
  match k with Keepalive => 0 | PeerstoreFlush => 1 | Gc => 2 | LookupTick => 3 | PunchTick => 4 end.

Record Timer := mkTimer { at_ : Z; tkind : TimerKind }.

#[export] Instance Timer_eq_dec : EqDecision Timer.
Proof. solve_decision. Defined.

(** [Timer::cmp]: the instants reversed, then the kinds. *)
Definition timer_cmp (a b : Timer) : comparison :=
  match Z.compare (at_ b) (at_ a) with
  | Eq => Nat.compare (kind_rank (tkind a)) (kind_rank (tkind b))
  | c => c
  end.

(** The later argument is returned on ties. *)
Definition timer_max (a b : Timer) : Timer :=
  match timer_cmp a b with Gt => a | _ => b end.

Definition TimingWheel : Type := list Timer.

Definition peek (h : TimingWheel) : option Timer :=
  match h with
  | [] => None
  | t :: h => Some (foldl timer_max t h)
  end.

(** [BinaryHeap::pop]: one greatest element less. *)
Definition heap_pop (h : TimingWheel) : TimingWheel :=
  match peek h with
  | Some t => match position (λ x, bool_decide (x = t)) h with
              | Some i => remove_at i h
              | None => h
              end
  | None => h
  end.

Definition schedule (h : TimingWheel) (at_ : Z) (k : TimerKind) : TimingWheel := h ++ [mkTimer at_ k].

(** The [while let] of [pop_due]; every turn pops, so the size of the heap is enough
    fuel. *)
Fixpoint pop_due_loop (fuel : nat) (h : TimingWheel) (now : Z) : TimingWheel * list TimerKind :=
  match fuel with
  | O => (h, [])
  | S fuel =>
      match peek h with
      | Some t =>
          if (at_ t <=? now)%Z then
            let '(h, out) := pop_due_loop fuel (heap_pop h) now in (h, tkind t :: out)
          else (h, [])
      | None => (h, [])
      end
  end.

Definition pop_due (h : TimingWheel) (now : Z) : TimingWheel * list TimerKind :=
  pop_due_loop (length h) h now.

Definition next_timeout (h : TimingWheel) (now : Z) : option Z :=
  (λ t, sat_sub (at_ t) now) <$> peek h.

(** [drain_cmds] on a channel with the messages [queue] in it. *)
Fixpoint drain_cmds {T} (queue : list T) (max : nat) : list T * list T :=
  match max with
  | O => (queue, [])
  | S max =>
      match queue with
      | [] => (queue, [])
      | c :: queue => let '(queue, out) := drain_cmds queue max in (queue, c :: out)
      end
  end.

(** ** Lemmas *)

Lemma timer_cmp_le a b : timer_cmp a b = Gt ∨ (at_ b ≤ at_ a)%Z.
Proof.
  unfold timer_cmp. destruct (Z.compare_spec (at_ b) (at_ a)); [right; lia|right; lia|by left].
Qed.

Lemma timer_cmp_gt a b : timer_cmp a b = Gt → (at_ a ≤ at_ b)%Z.
Proof. unfold timer_cmp. destruct (Z.compare_spec (at_ b) (at_ a)); [lia|done|lia]. Qed.

Lemma peek_spec h t :
  peek h = Some t → t ∈ h ∧ ∀ x, x ∈ h → (at_ t ≤ at_ x)%Z.
Proof.
  destruct h as [|t0 h]; [done|]. intros [= <-]. revert t0.
  induction h as [|y h IH]; intros t0; cbn [foldl].
  { split; [by left|]. intros x ->%list_elem_of_singleton. lia. }
  destruct (IH (timer_max t0 y)) as [Hin Hmin].
  assert (Hm : (timer_max t0 y = t0 ∧ at_ t0 ≤ at_ y ∨ timer_max t0 y = y ∧ at_ y ≤ at_ t0)%Z).
  { unfold timer_max. destruct (timer_cmp_le t0 y) as [Hc|Hc].
    - rewrite Hc. apply timer_cmp_gt in Hc. by left.
    - destruct (timer_cmp t0 y) eqn:He; [by right|by right|]. apply timer_cmp_gt in He. by left. }
  split.
  - apply elem_of_cons in Hin as [->|Hin]; [|by do 2 right].
    destruct Hm as [[-> _]|[-> _]]; [by left|by right; left].
  - intros x Hx. pose proof (Hmin (timer_max t0 y) (list_elem_of_here _ _)).
    rewrite !elem_of_cons in Hx. destruct Hx as [->|[->|Hx]].
    + destruct Hm as [[Hm ?]|[Hm ?]]; rewrite Hm in *; lia.
    + destruct Hm as [[Hm ?]|[Hm ?]]; rewrite Hm in *; lia.
    + apply Hmin. by right.
Qed.

Lemma heap_pop_perm h t : peek h = Some t → t :: heap_pop h ≡ₚ h.
Proof.
  intros Hp. unfold heap_pop. rewrite Hp. destruct (peek_spec h t Hp) as [Hin _].
  destruct (position _ h) as [i|] eqn:Hi.
  - apply position_Some in Hi as (x & Hx & Hb & _). bool_to_prop. subst x. by apply remove_at_perm.
  - rewrite position_None in Hi. specialize (Hi t Hin). by bool_to_prop.
Qed.

(** ** Theorems *)

(** timers fire exactly when due, earliest first.  [pop_due] returns the kinds of
    exactly the timers whose time has come, in order of their times, each once, and keeps
    exactly the others; no timer is lost or duplicated, and the loop always ends.  The
    wait until the next timer ends when the earliest one is due. *)
Theorem pop_due_correct (h : TimingWheel) (now : Z) :
  let '(rest, out) := pop_due h now in
  (∃ due, out = tkind <$> due ∧ due ++ rest ≡ₚ h ∧
     Forall (λ t, at_ t ≤ now)%Z due ∧ StronglySorted (λ a b, at_ a ≤ at_ b)%Z due) ∧
  Forall (λ t, now < at_ t)%Z rest ∧
  (∀ w t, next_timeout h now = Some w → t ∈ h → (now + w ≤ Z.max now (at_ t))%Z).
Proof.
  assert (Hloop : ∀ fuel h, length h ≤ fuel →
    let '(rest, out) := pop_due_loop fuel h now in
    (∃ due, out = tkind <$> due ∧ due ++ rest ≡ₚ h ∧
       Forall (λ t, at_ t ≤ now)%Z due ∧ StronglySorted (λ a b, at_ a ≤ at_ b)%Z due) ∧
    Forall (λ t, now < at_ t)%Z rest).
  { clear h. induction fuel as [|fuel IH]; intros h Hf; cbn [pop_due_loop].
    { destruct h; [|simpl in Hf; lia]. split; [|constructor]. exists []. by repeat constructor. }
    destruct (peek h) as [t|] eqn:Hp.
    2:{ destruct h; [|done]. split; [|constructor]. exists []. by repeat constructor. }
    destruct (peek_spec h t Hp) as [_ Hmin]. destruct (Z.leb_spec (at_ t) now) as [Hle|Hgt].
    - pose proof (heap_pop_perm h t Hp) as Hperm. pose proof (Permutation_length Hperm) as Hlen.
      simpl in Hlen. specialize (IH (heap_pop h) ltac:(lia)).
      destruct (pop_due_loop fuel (heap_pop h) now) as [rest out].
      destruct IH as [(due & -> & Hd & Hdue & Hs) Hrest]. split; [|done].
      exists (t :: due). split_and!; [done| |by constructor|].
      + cbn [app]. by rewrite Hd.
      + constructor; [done|]. apply Forall_forall. intros x Hx. apply Hmin.
        rewrite <-Hperm, <-Hd. right. apply elem_of_app. by left.
    - split; [exists []; by repeat constructor|]. apply Forall_forall. intros x Hx.
      specialize (Hmin x Hx). lia. }
  unfold pop_due. specialize (Hloop (length h) h (le_n _)).
  destruct (pop_due_loop (length h) h now) as [rest out]. destruct Hloop as [? ?].
  split_and!; [done..|]. intros w t Hw Ht. unfold next_timeout in Hw.
  apply fmap_Some in Hw as (m & Hm & ->). destruct (peek_spec h m Hm) as [_ Hmin].
  specialize (Hmin t Ht). unfold sat_sub. lia.
Qed.

(** draining the command channel takes the oldest commands, in order, at most [max] of
    them and all of them if there are no more, and leaves the others in the channel. *)
Theorem drain_cmds_correct {T : Type} (queue : list T) (max : nat) :
  drain_cmds queue max = (drop max queue, take max queue).
Proof.
  revert queue. induction max as [|max IH]; intros [|c queue]; try done.
  cbn [drain_cmds take drop]. by rewrite IH.
Qed.
