(* ===== verification/Udp.v ===== *)
(** * Receiving a batch of datagrams ([recv_batch] of [src/udp.rs], the head of the loop of
    [src/shard.rs])

    A shard keeps a fixed set of receive buffers.  [recv_batch] fills them in order until the
    socket has nothing more; the loop then copies each datagram out of its buffer. *)

From S2P Require Import Prelude Bytes Types.

Definition BATCH : nat := 64.

(** What one [recv_from] on the non-blocking socket meets. *)
Inductive Recv :=
  | Received (data : bytes) (src : SocketAddr)
  | NothingThere
  | RecvFailed.

(** [recv_from] writes to the front of the buffer; what does not fit is discarded. *)
Definition recv_into (buf data : bytes) : bytes * nat :=
  let n := Nat.min (length data) (length buf) in (take n data ++ drop n buf, n).

Definition MAX_DATAGRAM : nat := 2048.

(** [if buf.len() < 2048 { buf.resize(2048, 0) }] *)
Definition grow (buf : bytes) : bytes :=
  if length buf <? MAX_DATAGRAM then resize MAX_DATAGRAM (z2b 0) buf else buf.

(** The loop over the buffers; the results are the buffers, what the socket still has, and
    the lengths and senders. *)
Fixpoint recv_loop (bufs : list bytes) (inc : list Recv) (out : list (nat * SocketAddr))
    : list bytes * list Recv * result (list (nat * SocketAddr)) :=
  match bufs with
  | [] => ([], inc, Ok out)
  | buf :: bufs =>
      let buf := grow buf in
      match inc with
      | Received data src :: inc =>
          let '(buf, n) := recv_into buf data in
          let out := if length out <? BATCH then out ++ [(n, src)] else out in
          let '(bufs, inc, r) := recv_loop bufs inc out in (buf :: bufs, inc, r)
      | RecvFailed :: inc => (buf :: bufs, inc, Err "recv")
      | NothingThere :: inc => (buf :: bufs, inc, Ok out)
      | [] => (buf :: bufs, [], Ok out)
      end
  end.

Definition recv_batch (bufs : list bytes) (inc : list Recv)
    : list bytes * list Recv * result (list (nat * SocketAddr)) :=
  let '(b, inc, r) := recv_loop (take BATCH bufs) inc [] in (b ++ drop BATCH bufs, inc, r).

(** What [run_shard] does with the batch: [rx_bufs[i][..n]] with each sender. *)
Definition read_batch (bufs : list bytes) (inc : list Recv)
    : list bytes * list Recv * list (SocketAddr * bytes) :=
  let '(bufs, inc, r) := recv_batch bufs inc in
  (bufs, inc,
   match r with
   | Ok batch => imap (λ i '(n, src), (src, take n (default [] (bufs !! i)))) batch
   | Err _ => []
   end).

(** ** Lemmas *)

Definition small (b : bytes) : Prop := length b ≤ MAX_DATAGRAM.

Lemma grow_small b : small b → length (grow b) = MAX_DATAGRAM.
Proof.
  unfold small, grow. intros Hb. destruct (Nat.ltb_spec (length b) MAX_DATAGRAM).
  - apply length_resize.
  - lia.
Qed.

Lemma recv_into_small b data :
  length b = MAX_DATAGRAM →
  length (recv_into b data).1 = MAX_DATAGRAM ∧
  take (recv_into b data).2 (recv_into b data).1 = take MAX_DATAGRAM data.
Proof.
  intros Hb. unfold recv_into. cbn [fst snd]. rewrite Hb. split.
  - rewrite length_app, length_take, length_drop. lia.
  - rewrite take_app_length' by (rewrite length_take; lia).
    destruct (Nat.le_gt_cases (length data) MAX_DATAGRAM).
    + by rewrite Nat.min_l, !take_ge by lia.
    + by rewrite Nat.min_r by lia.
Qed.

Definition arrives (d : bytes * SocketAddr) : Recv := Received d.1 d.2.

(** The buffers of a batch are read back in order. *)
Definition reads (bufs : list bytes) (batch : list (nat * SocketAddr)) : list (SocketAddr * bytes) :=
  zip_with (λ buf p, (p.2, take p.1 buf)) bufs batch.

Lemma recv_loop_spec pre : ∀ bufs inc out,
  length out + length pre ≤ BATCH → length pre ≤ length bufs → Forall small bufs →
  ∃ filled got,
    recv_loop bufs ((arrives <$> pre) ++ inc) out =
      (let '(b, i, r) := recv_loop (drop (length pre) bufs) inc (out ++ got) in (filled ++ b, i, r)) ∧
    length filled = length pre ∧ length got = length pre ∧ Forall small filled ∧
    reads filled got = (λ d, (d.2, take MAX_DATAGRAM d.1)) <$> pre.
Proof.
  induction pre as [|[data src] pre IH]; intros bufs inc out Ho Hl Hs.
  { exists [], []. rewrite app_nil_r. split_and!; [|done..]. cbn. by destruct (recv_loop _ _ _) as [[]]. }
  destruct bufs as [|buf bufs]; [cbn in Hl; lia|]. apply Forall_cons in Hs as [Hb Hs].
  apply grow_small in Hb. destruct (recv_into_small (grow buf) data Hb) as [Hlen Htake].
  rewrite fmap_cons. cbn [arrives app recv_loop fst snd]. destruct (recv_into (grow buf) data) as [buf' n].
  cbn [fst snd length drop] in *. rewrite (proj2 (Nat.ltb_lt _ _)) by lia.
  destruct (IH bufs inc (out ++ [(n, src)])) as (filled & got & Heq & Hf & Hg & Hsm & Hr);
    [rewrite length_app; cbn; lia|lia|done|].
  exists (buf' :: filled), ((n, src) :: got). rewrite Heq, <-(assoc_L (++)). cbn [app].
  clear Heq. destruct (recv_loop (drop (length pre) bufs) inc (out ++ (n, src) :: got)) as [[b i] r]. split_and!; [done|cbn; lia|cbn; lia| |].
  - constructor; [unfold small; lia|done].
  - unfold reads in *. cbn. by rewrite Hr, Htake.
Qed.

Lemma imap_reads bufs rest batch :
  length bufs = length batch →
  imap (λ i '(n, src), (src, take n (default [] ((bufs ++ rest) !! i)))) batch = reads bufs batch.
Proof.
  intros Hl. apply list_eq. intros i. rewrite list_lookup_imap. unfold reads.
  rewrite lookup_zip_with. destruct (batch !! i) as [[n src]|] eqn:E; cbn.
  - apply lookup_lt_Some in E as Hi. rewrite <-Hl in Hi.
    rewrite lookup_app_l by done. apply lookup_lt_is_Some in Hi as [b ->]. done.
  - destruct (bufs !! i); done.
Qed.

(** what a shard receives in a turn.  The datagrams that are there, as many as there are
    buffers (at most 64), are handed over in order with their senders, each cut to 2048
    bytes, and the buffers are fit for the next turn; but when the socket fails before it is
    empty, none of the datagrams already read in the turn is. *)
Theorem read_batch_correct (bufs : list bytes) (pre : list (bytes * SocketAddr)) (inc : list Recv) :
  Forall small bufs → length pre ≤ Nat.min BATCH (length bufs) →
  (length pre = Nat.min BATCH (length bufs) ∨ ∀ d, head inc ≠ Some (arrives d)) →
  let '(bufs', inc', got) := read_batch bufs ((arrives <$> pre) ++ inc) in
  Forall small bufs' ∧ length bufs' = length bufs ∧
  (length pre = Nat.min BATCH (length bufs) →
     inc' = inc ∧ got = (λ d, (d.2, take MAX_DATAGRAM d.1)) <$> pre) ∧
  (length pre < Nat.min BATCH (length bufs) → head inc = None ∨ head inc = Some NothingThere →
     inc' = tail inc ∧ got = (λ d, (d.2, take MAX_DATAGRAM d.1)) <$> pre) ∧
  (length pre < Nat.min BATCH (length bufs) → head inc = Some RecvFailed →
     inc' = tail inc ∧ got = []).
Proof.
  intros Hs Hl Hmax. unfold read_batch, recv_batch.
  destruct (recv_loop_spec pre (take BATCH bufs) inc []) as (filled & batch & Heq & Hf & Hg & Hsm & Hr);
    [cbn; lia|rewrite length_take; lia|by apply Forall_take|].
  rewrite Heq. cbn [app]. set (rest := drop (length pre) (take BATCH bufs)).
  assert (Hrest : Forall small rest) by by apply Forall_drop, Forall_take.
  assert (Hlr : length rest = Nat.min BATCH (length bufs) - length pre)
    by (unfold rest; by rewrite length_drop, length_take).
  assert (Htail : Forall small (drop BATCH bufs)) by by apply Forall_drop.
  assert (Hlt : length (drop BATCH bufs) = length bufs - BATCH) by apply length_drop.
  destruct rest as [|b rest]; cbn [recv_loop length] in *.
  - rewrite <-(assoc_L (++)), imap_reads, Hr by congruence. split_and!; try lia.
    + by apply Forall_app.
    + rewrite !length_app, Hlt. cbn [length]. lia.
    + done.
  - apply Forall_cons in Hrest as [Hb%grow_small Hrest].
    assert (Hsmall : Forall small ((filled ++ grow b :: rest) ++ drop BATCH bufs)).
    { rewrite !Forall_app, Forall_cons. unfold small at 2. split_and!; try done. lia. }
    assert (Hlen : length ((filled ++ grow b :: rest) ++ drop BATCH bufs) = length bufs).
    { rewrite !length_app, Hlt. cbn [length]. lia. }
    destruct inc as [|[data src| |] inc]; cbn [head tail] in *.
    + rewrite <-(assoc_L (++)), imap_reads, Hr by congruence. rewrite (assoc_L (++)).
      split_and!; [done..|lia|done|by intros].
    + exfalso. destruct Hmax as [?|Hd]; [lia|]. by apply (Hd (data, src)).
    + rewrite <-(assoc_L (++)), imap_reads, Hr by congruence. rewrite (assoc_L (++)).
      split_and!; [done..|lia|done|by intros].
    + split_and!; [done..|lia|by intros _ [|]|done].
Qed.

(** One datagram arrives, then the socket fails: it is not handed over. *)
Lemma read_batch_correct_witness :
  let pre := [(bstr "a", AddrV4 (arr_repeat (z2b 1) 4) 4001)] in
  let '(bufs, inc, got) := read_batch (replicate 2 []) ((arrives <$> pre) ++ [RecvFailed]) in
  length bufs = 2 ∧ inc = [] ∧ got = [].
Proof.
  intros pre. pose proof (read_batch_correct (replicate 2 []) pre [RecvFailed]) as Hr.
  destruct (read_batch _ _) as [[bufs inc] got]. destruct Hr as (_ & Hl & _ & _ & Hf).
  - repeat constructor; unfold small; cbn; lia.
  - cbn. lia.
  - right. by intros [d s].
  - split; [exact Hl|]. apply Hf; [cbn; lia|reflexivity].
Defined.
