(* ===== verification/Metrics.v ===== *)
(** * Counters ([src/metrics.rs])

    Sixteen 64-bit counters per shard, each updated by one shard thread with relaxed
    atomic additions and read by an aggregator.  A counter is a number below [2^64];
    additions wrap. *)

From S2P Require Import Prelude Bytes Net.

(** [ShardMetrics] and its copy [Snapshot] have the same fields. *)
Record Snapshot := mkSnapshot {
  rx_packets : Z; tx_packets : Z; rx_bytes : Z; tx_bytes : Z; m_lookups : Z; lookup_ok : Z;
  store_ok : Z; store_reject : Z; drops_malformed : Z; drops_rate : Z; wg_decap_ok : Z;
  wg_decap_fail : Z; pow_fail : Z; cookies : Z; punch_ok : Z; relay_bytes : Z }.

Definition ShardMetrics : Type := Snapshot.

Definition Snapshot_default : Snapshot := mkSnapshot 0 0 0 0 0 0 0 0 0 0 0 0 0 0 0 0.

(** [incr] and [add] on one counter. *)
Definition counter_incr (a : Z) : Z := wrap 64 (a + 1).

Definition counter_add (a n : Z) : Z := wrap 64 (a + n).

Definition metrics_snapshot (m : ShardMetrics) : Snapshot :=
  mkSnapshot (rx_packets m) (tx_packets m) (rx_bytes m) (tx_bytes m) (m_lookups m) (lookup_ok m)
    (store_ok m) (store_reject m) (drops_malformed m) (drops_rate m) (wg_decap_ok m)
    (wg_decap_fail m) (pow_fail m) (cookies m) (punch_ok m) (relay_bytes m).

(** One turn of the loop of [aggregate]. *)
Definition accumulate (t : Snapshot) (s : ShardMetrics) : Snapshot :=
  let x := metrics_snapshot s in
  mkSnapshot
    (wrap 64 (rx_packets t + rx_packets x)) (wrap 64 (tx_packets t + tx_packets x))
    (wrap 64 (rx_bytes t + rx_bytes x)) (wrap 64 (tx_bytes t + tx_bytes x))
    (wrap 64 (m_lookups t + m_lookups x)) (wrap 64 (lookup_ok t + lookup_ok x))
    (wrap 64 (store_ok t + store_ok x)) (wrap 64 (store_reject t + store_reject x))
    (wrap 64 (drops_malformed t + drops_malformed x)) (wrap 64 (drops_rate t + drops_rate x))
    (wrap 64 (wg_decap_ok t + wg_decap_ok x)) (wrap 64 (wg_decap_fail t + wg_decap_fail x))
    (wrap 64 (pow_fail t + pow_fail x)) (wrap 64 (cookies t + cookies x))
    (wrap 64 (punch_ok t + punch_ok x)) (wrap 64 (relay_bytes t + relay_bytes x)).

Definition aggregate (shards : list ShardMetrics) : Snapshot := foldl accumulate Snapshot_default shards.

(** [{}] of a [u64]: at most 20 digits. *)
Definition show_u64 (n : Z) : bytes := from_digit <$> digits 10 20 n.

Definition prometheus_line (name : string) (n : Z) : bytes :=
  bstr name ++ bstr " " ++ show_u64 n ++ [z2b 10].

Definition prometheus_text (s : Snapshot) : bytes :=
  prometheus_line "molia_rx_packets" (rx_packets s) ++
  prometheus_line "molia_tx_packets" (tx_packets s) ++
  prometheus_line "molia_lookups" (m_lookups s) ++
  prometheus_line "molia_lookup_ok" (lookup_ok s) ++
  prometheus_line "molia_store_ok" (store_ok s) ++
  prometheus_line "molia_drops_malformed" (drops_malformed s) ++
  prometheus_line "molia_wg_decap_ok" (wg_decap_ok s) ++
  prometheus_line "molia_pow_fail" (pow_fail s).

(** The counters of a snapshot, in order. *)
Definition counters (s : Snapshot) : list Z :=
  [rx_packets s; tx_packets s; rx_bytes s; tx_bytes s; m_lookups s; lookup_ok s; store_ok s;
   store_reject s; drops_malformed s; drops_rate s; wg_decap_ok s; wg_decap_fail s; pow_fail s;
   cookies s; punch_ok s; relay_bytes s].

Definition sum_at (i : nat) (shards : list ShardMetrics) : Z :=
  foldr (λ s t, (nth i (counters s) 0 + t)%Z) 0%Z shards.

(** the aggregate has, for each of the sixteen counters, the sum of the shards' values
    modulo [2^64]; so it does not depend on the order of the shards, and it is the exact
    sum as long as that fits 64 bits. *)
Theorem aggregate_correct (shards : list ShardMetrics) (i : nat) :
  i < 16 →
  nth i (counters (aggregate shards)) 0%Z = wrap 64 (sum_at i shards) ∧
  (in_u 64 (sum_at i shards) → nth i (counters (aggregate shards)) 0%Z = sum_at i shards) ∧
  (∀ shards', shards' ≡ₚ shards →
     nth i (counters (aggregate shards')) 0%Z = nth i (counters (aggregate shards)) 0%Z).
Proof.
  intros Hi.
  assert (Hacc : ∀ t s, nth i (counters (accumulate t s)) 0%Z =
                        wrap 64 (nth i (counters t) 0 + nth i (counters s) 0)%Z).
  { intros t s. do 16 (destruct i as [|i]; [reflexivity|]). lia. }
  assert (Hsum : ∀ l t, nth i (counters (foldl accumulate t l)) 0%Z =
                        if l then nth i (counters t) 0%Z
                        else wrap 64 (nth i (counters t) 0 + sum_at i l)%Z).
  { induction l as [|s l IH]; intros t; [done|]. cbn [foldl]. rewrite IH, Hacc. unfold wrap.
    destruct l as [|s' l]; cbn [sum_at foldr]; [by rewrite Z.add_0_r|].
    fold (sum_at i (s' :: l)). rewrite Zplus_mod_idemp_l. f_equal. unfold sum_at. cbn. lia. }
  assert (Hagg : ∀ l, nth i (counters (aggregate l)) 0%Z = wrap 64 (sum_at i l)).
  { intros l. unfold aggregate. rewrite Hsum.
    assert (nth i (counters Snapshot_default) 0%Z = 0%Z) as ->.
    { do 16 (destruct i as [|i]; [reflexivity|]). lia. }
    by destruct l. }
  split_and!; [done|intros; rewrite Hagg; by apply wrap_small|].
  intros shards' Hp. rewrite !Hagg. f_equal. unfold sum_at.
  induction Hp; cbn [foldr]; lia.
Qed.

Lemma aggregate_correct_witness :
  let s := mkSnapshot 1 2 3 4 5 6 7 8 9 10 11 12 13 14 15 16 in
  nth 3 (counters (aggregate [s; s; s])) 0%Z = wrap 64 (sum_at 3 [s; s; s]).
Proof. intros s. refine (proj1 (aggregate_correct [s; s; s] 3 _)). lia. Defined.
