(* ===== verification/Sybil.v ===== *)
(** * Rate limits, scores and admission tokens ([src/sybil.rs])

    [f64] arithmetic is IEEE 754 binary64 with the operations of the Standard Library's
    [SpecFloat]: a decimal literal is the correctly rounded quotient of two integers.  One
    call reads the clock once: [now] is the instant, in nanoseconds, for everything the
    call does.  BLAKE3's keyed mode is a parameter like the other hashes. *)

From Stdlib Require Import Floats.SpecFloat.
From S2P Require Import Prelude Bytes Types Crypto.

(** ** [f64] *)

Abbreviation f64 := spec_float.

Definition f_of_Z (z : Z) : f64 := binary_normalize 53 1024 z 0 false.
Definition f_add : f64 → f64 → f64 := SFadd 53 1024.
Definition f_sub : f64 → f64 → f64 := SFsub 53 1024.
Definition f_mul : f64 → f64 → f64 := SFmul 53 1024.
Definition f_div : f64 → f64 → f64 := SFdiv 53 1024.
Definition f_lt : f64 → f64 → bool := SFltb.
Definition f_le : f64 → f64 → bool := SFleb.

(** [f64::min]: the other argument if one is not a number. *)
Definition f_min (a b : f64) : f64 :=
  match a, b with
  | S754_nan, _ => b
  | _, S754_nan => a
  | _, _ => if f_lt a b then a else b
  end.

(** The literal [n / d]. *)
Definition f_lit (n d : Z) : f64 := f_div (f_of_Z n) (f_of_Z d).

(** [Duration::as_secs_f64] of [ns] nanoseconds. *)
Definition as_secs_f64 (ns : Z) : f64 :=
  f_add (f_of_Z (ns / 1000000000)) (f_div (f_of_Z (ns mod 1000000000)) (f_of_Z 1000000000)).

(** ** Token buckets *)

Record TokenBucket := mkTokenBucket { tb_tokens : f64; tb_cap : f64; rate_per_s : f64; tb_last : Z }.

Definition TokenBucket_new (cap rate : f64) (now : Z) : TokenBucket := mkTokenBucket cap cap rate now.

Definition TokenBucket_take (b : TokenBucket) (now : Z) (n : f64) : TokenBucket * bool :=
  let dt := as_secs_f64 (sat_sub now (tb_last b)) in
  let tokens := f_min (f_add (tb_tokens b) (f_mul dt (rate_per_s b))) (tb_cap b) in
  if f_le n tokens
  then (mkTokenBucket (f_sub tokens n) (tb_cap b) (rate_per_s b) now, true)
  else (mkTokenBucket tokens (tb_cap b) (rate_per_s b) now, false).

(** ** Scores *)

Record Score := mkScore { ewma : f64; quarantine : Z }.

Definition Score_default : Score := mkScore (f_lit 1 2) 0.

Class KeyedHash := { blake3_keyed : arr 32 → bytes → arr 32 }.

Record Sybil := mkSybil {
  sy_pow_nonce : arr 16;
  sy_pow_bits : Z;
  op_bits : Z;
  ip_buckets : gmap IpAddr TokenBucket;
  prefix_buckets : gmap bytes TokenBucket;
  peer_buckets : gmap NodeId TokenBucket;
  scores : gmap NodeId Score;
  sy_tokens : gmap NodeId (Z * Z);
  token_secret : arr 32;
}.

Section sybil.
Context `{Crypto} `{KeyedHash}.

Definition Sybil_new : Sybil :=
  {| sy_pow_nonce := arr_repeat (z2b 66) 16; sy_pow_bits := 0; op_bits := 0; ip_buckets := ∅;
     prefix_buckets := ∅; peer_buckets := ∅; scores := ∅; sy_tokens := ∅;
     token_secret := blake3_hash (bstr "molia-admission-dev") |}.

Definition set_buckets (s : Sybil) (ips : gmap IpAddr TokenBucket) (pfx : gmap bytes TokenBucket)
    (prs : gmap NodeId TokenBucket) : Sybil :=
  {| sy_pow_nonce := sy_pow_nonce s; sy_pow_bits := sy_pow_bits s; op_bits := op_bits s;
     ip_buckets := ips; prefix_buckets := pfx; peer_buckets := prs; scores := scores s;
     sy_tokens := sy_tokens s; token_secret := token_secret s |}.

Definition set_scores (s : Sybil) (sc : gmap NodeId Score) : Sybil :=
  {| sy_pow_nonce := sy_pow_nonce s; sy_pow_bits := sy_pow_bits s; op_bits := op_bits s;
     ip_buckets := ip_buckets s; prefix_buckets := prefix_buckets s; peer_buckets := peer_buckets s;
     scores := sc; sy_tokens := sy_tokens s; token_secret := token_secret s |}.

Definition allow_pre_handshake (s : Sybil) (src : SocketAddr) (now : Z) : Sybil * bool :=
  let ip := addr_ip src in
  let b := default (TokenBucket_new (f_of_Z 20) (f_of_Z 10) now) (ip_buckets s !! ip) in
  let '(b, ok) := TokenBucket_take b now (f_of_Z 1) in
  let ips := <[ip := b]> (ip_buckets s) in
  if negb ok then (set_buckets s ips (prefix_buckets s) (peer_buckets s), false)
  else match ip with
       | IpV4 o =>
           let p := take 3 (vec_to_list o) in
           let pb := default (TokenBucket_new (f_of_Z 80) (f_of_Z 40) now) (prefix_buckets s !! p) in
           let '(pb, ok) := TokenBucket_take pb now (f_of_Z 1) in
           (set_buckets s ips (<[p := pb]> (prefix_buckets s)) (peer_buckets s), ok)
       | IpV6 _ => (set_buckets s ips (prefix_buckets s) (peer_buckets s), true)
       end.

Definition quarantine_of (s : Sybil) (id : NodeId) : Z :=
  match scores s !! id with Some sc => quarantine sc | None => 0 end.

Definition allow_peer (s : Sybil) (id : NodeId) (cost : f64) (now : Z) : Sybil * bool :=
  let q := quarantine_of s id in
  let cap := if (0 <? q)%Z then f_of_Z 4 else f_of_Z 40 in
  let b := default (TokenBucket_new cap (f_div cap (f_of_Z 2)) now) (peer_buckets s !! id) in
  let '(b, ok) := TokenBucket_take b now cost in
  (set_buckets s (ip_buckets s) (prefix_buckets s) (<[id := b]> (peer_buckets s)), ok).

Definition check_pow (s : Sybil) (ephemeral : arr 32) : bool :=
  verify_ephemeral_pow ephemeral (sy_pow_nonce s) (sy_pow_bits s).

(** [mint_token]: [elapsed] is what [now.elapsed()] reads, the nanoseconds since [now]
    itself. *)
Definition mint_token (s : Sybil) (id : NodeId) (now elapsed : Z) : Sybil * arr 32 :=
  let tok := blake3_keyed (token_secret s) (vec_to_list (nid id) ++ le_bytes 16 elapsed) in
  ({| sy_pow_nonce := sy_pow_nonce s; sy_pow_bits := sy_pow_bits s; op_bits := op_bits s;
      ip_buckets := ip_buckets s; prefix_buckets := prefix_buckets s;
      peer_buckets := peer_buckets s; scores := scores s;
      sy_tokens := <[id := (le_val (take 8 (vec_to_list tok)), now)]> (sy_tokens s);
      token_secret := token_secret s |}, tok).

Definition check_token (s : Sybil) (id : NodeId) (tok : bytes) (now : Z) : bool :=
  match sy_tokens s !! id with
  | None => false
  | Some (head, at_) =>
      if (600 * 1000000000 <? sat_sub now at_)%Z then false
      else (8 <=? length tok) && (le_val (take 8 tok) =? head)%Z
  end.

Definition check_cost_stamp (s : Sybil) (k : Key) (salt nonce : bytes) : bool :=
  if (op_bits s =? 0)%Z then true
  else (op_bits s <=? leading_zero_bits (cost_stamp k salt nonce))%Z.

Definition reward_score (sc : Score) : Score :=
  let e := f_add (f_mul (ewma sc) (f_lit 8 10)) (f_lit 2 10) in
  mkScore e (if f_lt (f_lit 7 10) e then 0 else quarantine sc).

Definition reward (s : Sybil) (id : NodeId) : Sybil :=
  set_scores s (<[id := reward_score (default Score_default (scores s !! id))]> (scores s)).

Definition penalize_score (sc : Score) : Score :=
  let e := f_mul (ewma sc) (f_lit 7 10) in
  mkScore e (if f_lt e (f_lit 2 10) then Z.min (sat_add 8 (quarantine sc) 1) 3 else quarantine sc).

Definition penalize (s : Sybil) (id : NodeId) : Sybil :=
  set_scores s (<[id := penalize_score (default Score_default (scores s !! id))]> (scores s)).

Definition alpha_cap (s : Sybil) (id : NodeId) : nat :=
  if (quarantine_of s id =? 0)%Z then 8 else if (quarantine_of s id =? 1)%Z then 3 else 1.

Definition raise_difficulty (s : Sybil) : Sybil :=
  {| sy_pow_nonce := sy_pow_nonce s; sy_pow_bits := Z.min (sat_add 8 (sy_pow_bits s) 1) 16;
     op_bits := op_bits s; ip_buckets := ip_buckets s; prefix_buckets := prefix_buckets s;
     peer_buckets := peer_buckets s; scores := scores s; sy_tokens := sy_tokens s;
     token_secret := token_secret s |}.
End sybil.

(** ** Bursts *)

(** [m] datagrams from [src] at the same instant. *)
Fixpoint burst `{Crypto} `{KeyedHash} (s : Sybil) (src : SocketAddr) (now : Z) (m : nat) : Sybil * list bool :=
  match m with
  | O => (s, [])
  | S m =>
      let '(s, ok) := allow_pre_handshake s src now in
      let '(s, oks) := burst s src now m in
      (s, ok :: oks)
  end.

(** A bucket of capacity [c] with [k] tokens left, last used at [now]. *)
Definition bucket (c rate k now : Z) : TokenBucket :=
  mkTokenBucket (f_of_Z k) (f_of_Z c) (f_of_Z rate) now.

Lemma take_now b n :
  TokenBucket_take b (tb_last b) n =
    let tokens := f_min (f_add (tb_tokens b) (f_mul (as_secs_f64 0) (rate_per_s b))) (tb_cap b) in
    if f_le n tokens
    then (mkTokenBucket (f_sub tokens n) (tb_cap b) (rate_per_s b) (tb_last b), true)
    else (mkTokenBucket tokens (tb_cap b) (rate_per_s b) (tb_last b), false).
Proof.
  unfold TokenBucket_take. replace (sat_sub (tb_last b) (tb_last b)) with 0%Z; [done|].
  unfold sat_sub. lia.
Qed.

Lemma take_ip_bucket k now :
  (0 < k ≤ 20)%nat →
  TokenBucket_take (bucket 20 10 (Z.of_nat k) now) now (f_of_Z 1) =
    (bucket 20 10 (Z.of_nat (k - 1)) now, true).
Proof.
  intros Hk. change now with (tb_last (bucket 20 10 (Z.of_nat k) now)) at 2. rewrite take_now.
  destruct k as [|k]; [lia|].
  do 20 (destruct k as [|k]; [vm_compute; reflexivity|]). lia.
Qed.

Lemma take_ip_empty now :
  TokenBucket_take (bucket 20 10 0 now) now (f_of_Z 1) = (bucket 20 10 0 now, false).
Proof.
  change now with (tb_last (bucket 20 10 0 now)) at 2. rewrite take_now. vm_compute. reflexivity.
Qed.

Lemma take_prefix_bucket j now :
  (0 < j ≤ 20)%nat →
  TokenBucket_take (bucket 80 40 (Z.of_nat (60 + j)) now) now (f_of_Z 1) =
    (bucket 80 40 (Z.of_nat (60 + (j - 1))) now, true).
Proof.
  intros Hj. change now with (tb_last (bucket 80 40 (Z.of_nat (60 + j)) now)) at 2. rewrite take_now.
  destruct j as [|j]; [lia|].
  do 20 (destruct j as [|j]; [vm_compute; reflexivity|]). lia.
Qed.

Section burst.
Context `{Crypto} `{KeyedHash}.

Definition ip_bucket_is (s : Sybil) (o : arr 4) (now : Z) (k : nat) : Prop :=
  default (TokenBucket_new (f_of_Z 20) (f_of_Z 10) now) (ip_buckets s !! IpV4 o) =
    bucket 20 10 (Z.of_nat k) now ∧
  default (TokenBucket_new (f_of_Z 80) (f_of_Z 40) now) (prefix_buckets s !! take 3 (vec_to_list o)) =
    bucket 80 40 (Z.of_nat (60 + k)) now.

Lemma burst_results m s o port now k :
  (k ≤ 20)%nat → ip_bucket_is s o now k →
  (burst s (AddrV4 o port) now m).2 = replicate (Nat.min k m) true ++ replicate (m - k) false.
Proof.
  revert s k. induction m as [|m IH]; intros s k Hk [Hb Hp]; cbn [burst].
  { by rewrite Nat.min_0_r. }
  destruct (allow_pre_handshake s (AddrV4 o port) now) as [s1 ok] eqn:Ha.
  unfold allow_pre_handshake in Ha. cbn [addr_ip] in Ha. rewrite Hb in Ha.
  destruct k as [|k].
  - rewrite take_ip_empty in Ha. cbn [negb] in Ha. injection Ha as <- <-.
    specialize (IH (set_buckets s (<[IpV4 o := bucket 20 10 0 now]> (ip_buckets s))
      (prefix_buckets s) (peer_buckets s)) 0 (Nat.le_0_l _)).
    destruct (burst _ (AddrV4 o port) now m) as [s2 oks]. cbn [snd] in *.
    rewrite IH; [by rewrite Nat.sub_0_r|].
    split; cbn [ip_buckets prefix_buckets set_buckets]; [by rewrite lookup_insert_eq|done].
  - rewrite take_ip_bucket in Ha by lia. cbn [negb] in Ha. rewrite Hp, take_prefix_bucket in Ha by lia.
    rewrite Nat.sub_succ, Nat.sub_0_r in Ha. injection Ha as <- <-.
    specialize (IH (set_buckets s (<[IpV4 o := bucket 20 10 (Z.of_nat k) now]> (ip_buckets s))
      (<[take 3 (vec_to_list o) := bucket 80 40 (Z.of_nat (60 + k)) now]> (prefix_buckets s))
      (peer_buckets s)) k ltac:(lia)).
    destruct (burst _ (AddrV4 o port) now m) as [s2 oks]. cbn [snd] in *.
    rewrite IH; [done|]. split; cbn [ip_buckets prefix_buckets set_buckets]; by rewrite lookup_insert_eq.
Qed.

Lemma penalize_quarantine s id j :
  (0 ≤ quarantine_of s j ≤ 3)%Z → (0 ≤ quarantine_of (penalize s id) j ≤ 3)%Z.
Proof.
  unfold quarantine_of. cbn [penalize set_scores scores].
  destruct (decide (id = j)) as [->|Hne]; [|by rewrite lookup_insert_ne].
  rewrite lookup_insert_eq. unfold penalize_score, sat_add. cbn [quarantine].
  destruct (scores s !! j) as [sc|]; cbn [from_option id quarantine Score_default];
    destruct (f_lt _ _); cbn [quarantine Score_default]; lia.
Qed.

Lemma reward_quarantine s id j :
  (0 ≤ quarantine_of s j ≤ 3)%Z → (0 ≤ quarantine_of (reward s id) j ≤ 3)%Z.
Proof.
  unfold quarantine_of. cbn [reward set_scores scores].
  destruct (decide (id = j)) as [->|Hne]; [|by rewrite lookup_insert_ne].
  rewrite lookup_insert_eq. unfold reward_score. cbn [quarantine].
  destruct (scores s !! j) as [sc|]; cbn [from_option id quarantine Score_default];
    destruct (f_lt _ _); cbn [quarantine Score_default]; lia.
Qed.
End burst.

#[local] Existing Instance toy_crypto.
#[local] Instance toy_keyed : KeyedHash := {| blake3_keyed k b := toy_hash 32 (vec_to_list k ++ b) |}.

(** ** Theorems *)

(** C37: the pre-handshake limit on a burst.  Of any number of datagrams from one IPv4
    address that arrive at a node at the same instant, from any ports, exactly the first
    twenty are admitted, provided that neither the address nor its /24 prefix was seen
    before; computed in IEEE double arithmetic, with no rounding slack. *)
Theorem burst_limit `{Crypto} `{KeyedHash} (s : Sybil) (o : arr 4) (port now : Z) (m : nat) :
  ip_buckets s !! IpV4 o = None → prefix_buckets s !! take 3 (vec_to_list o) = None →
  (burst s (AddrV4 o port) now m).2 = replicate (Nat.min 20 m) true ++ replicate (m - 20) false.
Proof.
  intros Hip Hpfx. apply burst_results; [lia|].
  split; [rewrite Hip|rewrite Hpfx]; reflexivity.
Qed.

Lemma burst_limit_witness :
  (burst Sybil_new (AddrV4 (arr_repeat (z2b 9) 4) 77) 1000 50).2 =
    replicate (Nat.min 20 50) true ++ replicate (50 - 20) false.
Proof. apply burst_limit; vm_compute; reflexivity. Defined.

(** quarantine.  Along any history of rewards and penalties of any peers, every
    quarantine level stays within [0, 3] and the parallelism granted to a peer is 8, 3 or
    1; a peer without history is quarantined by exactly the third of three penalties in a
    row, reaches the lowest level with the fifth, and one reward does not release it. *)
Theorem quarantine_bounded `{Crypto} `{KeyedHash} (ops : list (bool * NodeId)) (id : NodeId) :
  let run s := foldl (λ s op, if op.1 : bool then reward s op.2 else penalize s op.2) s in
  let s := run Sybil_new ops in
  (0 ≤ quarantine_of s id ≤ 3)%Z ∧ alpha_cap s id ∈ [8; 3; 1] ∧
  (scores s !! id = None →
   (λ n, quarantine_of (run s (replicate n (false, id))) id) <$> [1; 2; 3; 4; 5; 6] = [0; 0; 1; 2; 3; 3]%Z ∧
   quarantine_of (run s (replicate 5 (false, id) ++ [(true, id)])) id = 3%Z).
Proof.
  intros run s. split; [|split].
  - unfold s, run. induction ops as [|[b j] ops IH] using rev_ind; [done|].
    rewrite foldl_app. cbn [foldl fst snd]. destruct b; [by apply reward_quarantine|by apply penalize_quarantine].
  - unfold alpha_cap. destruct (quarantine_of s id =? 0)%Z, (quarantine_of s id =? 1)%Z; set_solver.
  - intros Hnone.
    assert (Hpen : ∀ n, scores (run s (replicate n (false, id))) !! id =
      match n with O => None | S n => Some (Nat.iter (S n) penalize_score Score_default) end).
    { induction n as [|n IHn]; [done|]. rewrite replicate_S_end. unfold run. rewrite foldl_app.
      fold (run s (replicate n (false, id))). cbn [foldl fst snd penalize set_scores scores].
      rewrite lookup_insert_eq, IHn. by destruct n. }
    split.
    + unfold quarantine_of. cbn [fmap list_fmap]. rewrite !Hpen. vm_compute. reflexivity.
    + unfold run. rewrite foldl_app. fold (run s (replicate 5 (false, id))).
      cbn [foldl fst snd]. unfold quarantine_of. cbn [reward set_scores scores].
      rewrite lookup_insert_eq, Hpen. vm_compute. reflexivity.
Qed.

Lemma quarantine_bounded_witness :
  let run s := foldl (λ s op, if op.1 : bool then reward s op.2 else penalize s op.2) s in
  let id := mkNodeId (arr_repeat (z2b 4) 32) in
  (λ n, quarantine_of (run Sybil_new (replicate n (false, id))) id) <$> [1; 2; 3; 4; 5; 6] = [0; 0; 1; 2; 3; 3]%Z.
Proof. intros run id. apply (quarantine_bounded [] id). reflexivity. Defined.

(** admission tokens.  A minted token is accepted from the peer it was minted for
    during ten minutes and not after, and minting one leaves the tokens of other peers as
    they were; a peer that never got a token has none accepted; only the first eight bytes
    of a token count. *)
Theorem token_correct `{Crypto} `{KeyedHash} (s : Sybil) (id other : NodeId) (now elapsed later : Z)
    (tok : bytes) :
  other ≠ id → (now ≤ later)%Z →
  let '(s', t) := mint_token s id now elapsed in
  check_token s' id (vec_to_list t) later = bool_decide (later - now ≤ 600 * 1000000000)%Z ∧
  check_token s' other tok later = check_token s other tok later ∧
  (sy_tokens s !! other = None → check_token s' other tok later = false) ∧
  (check_token s' id tok later = true → take 8 tok = take 8 (vec_to_list t)).
Proof.
  intros Hne Hle. destruct (mint_token s id now elapsed) as [s' t] eqn:Hm.
  unfold mint_token in Hm. injection Hm as Hs Ht. subst t.
  set (t := blake3_keyed _ _) in *.
  assert (Hid : sy_tokens s' !! id = Some (le_val (take 8 (vec_to_list t)), now)).
  { rewrite <-Hs. cbn. apply lookup_insert_eq. }
  assert (Hot : sy_tokens s' !! other = sy_tokens s !! other).
  { rewrite <-Hs. cbn. by rewrite lookup_insert_ne. }
  unfold check_token. rewrite Hid, Hot. unfold sat_sub. split_and!.
  - rewrite Z.eqb_refl, length_vec_to_list. cbn [Nat.leb andb].
    destruct (Z.ltb_spec (600 * 1000000000) (Z.max 0 (later - now))); case_bool_decide; (done || lia).
  - done.
  - by intros ->.
  - destruct (_ <? _)%Z; [done|]. intros [Hl Hv]%andb_true_iff. bool_to_prop.
    apply le_val_inj; [|done]. rewrite !length_take, length_vec_to_list. lia.
Qed.

Lemma token_correct_witness :
  let id := mkNodeId (arr_repeat (z2b 4) 32) in
  let '(s', t) := mint_token Sybil_new id 5 30 in
  check_token s' id (vec_to_list t) 100 = bool_decide (100 - 5 ≤ 600 * 1000000000)%Z.
Proof.
  refine (proj1 (token_correct Sybil_new (mkNodeId (arr_repeat (z2b 4) 32))
    (mkNodeId (arr_repeat (z2b 5) 32)) 5 30 100 [] _ _)); [discriminate|lia].
Defined.
