(* ===== verification/Erasure.v ===== *)
(** * Erasure coding of large values ([src/erasure.rs])

    A value is cut into ten data shards, padded with zeros, to which the
    [reed_solomon_erasure] crate adds four parity shards.  The crate's [encode] and
    [reconstruct] are parameters; the theorem uses what they document: encoding keeps the
    data shards and replaces the parity shards, and reconstruction restores missing
    shards. *)

From S2P Require Import Prelude Bytes Codec.

Definition DATA_SHARDS : nat := 10.
Definition PARITY_SHARDS : nat := 4.
Definition THRESHOLD : Z := 1024 * 1024.

Definition should_erasure (len : Z) : bool := (THRESHOLD <=? len)%Z.

Definition div_ceil (a b : nat) : nat := (a + (b - 1)) / b.

(** One turn of the first loop of [encode]. *)
Definition data_shard (data : bytes) (shard_len i : nat) : bytes :=
  let start := i * shard_len in
  let s := replicate shard_len (z2b 0) in
  if start <? length data then
    let n := Nat.min (length data - start) shard_len in
    write_at s 0 (slice data start (start + n))
  else s.

Section erasure.
Context (rs_encode : list bytes → result (list bytes)).
Context (rs_reconstruct : list (option bytes) → result (list (option bytes))).

Definition erasure_encode (data : bytes) : result (list bytes) :=
  let shard_len := div_ceil (length data) DATA_SHARDS in
  let shards := data_shard data shard_len <$> seq 0 DATA_SHARDS in
  let shards := shards ++ replicate PARITY_SHARDS (replicate shard_len (z2b 0)) in
  rs_encode shards.

Definition erasure_reconstruct (shards : list (option bytes)) (original_len : nat) : result bytes :=
  match rs_reconstruct shards with
  | Err e => Err e
  | Ok shards =>
      let out := mjoin (default [] <$> take DATA_SHARDS shards) in
      Ok (take original_len out)
  end.
End erasure.

(** ** Lemmas *)

Definition data_shards (data : bytes) : list bytes :=
  data_shard data (div_ceil (length data) DATA_SHARDS) <$> seq 0 DATA_SHARDS.

Lemma div_ceil_bound a : a ≤ 10 * div_ceil a 10 < a + 10.
Proof. unfold div_ceil. pose proof (Nat.div_mod (a + 9) 10). pose proof (Nat.mod_upper_bound (a + 9) 10). simpl (10 - 1). lia. Qed.

(** A data shard is a window of the padded value. *)
Lemma data_shard_window data sl i pad :
  length data + pad = 10 * sl → i < 10 →
  data_shard data sl i = take sl (drop (i * sl) (data ++ replicate pad (z2b 0))).
Proof.
  intros Hpad Hi. assert (i * sl + sl ≤ length data + pad) by nia. unfold data_shard.
  destruct (Nat.ltb_spec (i * sl) (length data)) as [Hlt|Hge].
  - unfold write_at, slice. cbn [take app].
    replace (i * sl + Nat.min (length data - i * sl) sl - i * sl)
      with (Nat.min (length data - i * sl) sl) by lia.
    rewrite drop_app_le by lia. rewrite drop_replicate, length_take, length_drop, take_0. cbn [app Nat.add].
    destruct (Nat.le_ge_cases sl (length data - i * sl)).
    + replace (sl - _) with 0 by lia. rewrite Nat.min_r by lia. rewrite app_nil_r.
      by rewrite take_app_le by (rewrite length_drop; lia).
    + rewrite (Nat.min_l (length data - i * sl) sl), Nat.min_id by lia.
      rewrite take_app_ge by (rewrite length_drop; lia).
      rewrite (take_ge (drop (i * sl) data)) by (rewrite length_drop; lia).
      rewrite length_drop, take_replicate. do 2 f_equal. lia.
  - rewrite drop_app_ge, drop_replicate, take_replicate by lia. f_equal. lia.
Qed.

(** Consecutive windows put together. *)
Lemma windows_join (l : bytes) sl n :
  n * sl ≤ length l → mjoin ((λ i, take sl (drop (i * sl) l)) <$> seq 0 n) = take (n * sl) l.
Proof.
  induction n as [|n IH]; intros Hn; [done|].
  rewrite seq_S, fmap_app, join_app, IH by lia. cbn [Nat.add fmap list_fmap mjoin list_join].
  rewrite app_nil_r. replace (S n * sl) with (n * sl + sl) by lia.
  rewrite <-(take_drop (n * sl) (take (n * sl + sl) l)), take_take, skipn_firstn_comm.
  f_equal; f_equal; lia.
Qed.

Lemma data_shards_join data : take (length data) (mjoin (data_shards data)) = data.
Proof.
  set (sl := div_ceil (length data) 10). pose proof (div_ceil_bound (length data)) as Hb. fold sl in Hb.
  set (pad := 10 * sl - length data).
  assert (Heq : data_shards data =
    (λ i, take sl (drop (i * sl) (data ++ replicate pad (z2b 0)))) <$> seq 0 10).
  { unfold data_shards. apply list_fmap_ext. intros j i Hi.
    apply lookup_seq in Hi as [-> Hj]. apply data_shard_window; [unfold pad, DATA_SHARDS; fold sl; lia|exact Hj]. }
  rewrite Heq, windows_join by (rewrite length_app, length_replicate; unfold pad; lia).
  rewrite take_take, Nat.min_l by lia. by rewrite take_app_length.
Qed.

Lemma data_shards_length data :
  length (data_shards data) = 10 ∧
  Forall (λ s, length s = div_ceil (length data) 10) (data_shards data).
Proof.
  set (sl := div_ceil (length data) 10). pose proof (div_ceil_bound (length data)) as Hb. fold sl in Hb.
  split; [by unfold data_shards; rewrite length_fmap, length_seq|].
  apply Forall_forall. intros s (i & -> & Hi)%list_elem_of_fmap. apply elem_of_seq in Hi.
  change (div_ceil (length data) DATA_SHARDS) with sl. unfold DATA_SHARDS in Hi.
  rewrite (data_shard_window data _ i (10 * sl - length data)) by lia.
  rewrite length_take, length_drop, length_app, length_replicate. nia.
Qed.

(** ** Theorem *)

(** XOR of the data shards, four times: a stand-in code that repairs one lost data shard. *)
Definition xor_all (l : list bytes) : bytes :=
  match l with [] => [] | s :: l => foldl (zip_with byte_xor) s l end.

Definition toy_rs_encode (shards : list bytes) : result (list bytes) :=
  let d := take 10 shards in Ok (d ++ replicate 4 (xor_all d)).

Definition toy_rs_reconstruct (shards : list (option bytes)) : result (list (option bytes)) :=
  let present := omap id (take 11 shards) in
  Ok ((λ s, Some (default (xor_all present) s)) <$> shards).

(** a value survives its erasure coding.  Encoding hands the crate fourteen shards of
    the same length, a tenth of the value rounded up, of which the first ten hold the value
    in order; from any set of shards that the crate can restore, reconstruction returns the
    value byte for byte, without the padding, whatever its length. *)
Theorem erasure_roundtrip (rs_encode : list bytes → result (list bytes))
    (rs_reconstruct : list (option bytes) → result (list (option bytes)))
    (data : bytes) (parity : list bytes) (received : list (option bytes)) :
  (∀ zeros, length zeros = 4 → rs_encode (data_shards data ++ zeros) = Ok (data_shards data ++ parity)) →
  rs_reconstruct received = Ok (Some <$> (data_shards data ++ parity)) →
  erasure_encode rs_encode data = Ok (data_shards data ++ parity) ∧
  length (data_shards data) = 10 ∧
  Forall (λ s, length s = div_ceil (length data) 10) (data_shards data) ∧
  erasure_reconstruct rs_reconstruct received (length data) = Ok data.
Proof.
  intros Henc Hrec. destruct (data_shards_length data) as [Hl Hall].
  split_and!; [by apply Henc|done|done|].
  unfold erasure_reconstruct. rewrite Hrec. f_equal.
  rewrite fmap_app, take_app_length' by (by rewrite length_fmap, Hl).
  rewrite <-list_fmap_compose, list_fmap_id. apply data_shards_join.
Qed.

Lemma erasure_roundtrip_witness :
  let data := bstr "a value that is cut into ten shards" in
  let received := None :: drop 1 (Some <$> (data_shards data ++ replicate 4 (xor_all (data_shards data)))) in
  erasure_reconstruct toy_rs_reconstruct received (length data) = Ok data.
Proof.
  intros data received.
  apply (erasure_roundtrip toy_rs_encode toy_rs_reconstruct data
           (replicate 4 (xor_all (data_shards data))) received).
  - intros zeros _. reflexivity.
  - vm_compute. reflexivity.
Defined.
