(* ===== verification/Webrtc.v ===== *)
(** * The browser gateway ([src/webrtc.rs])

    A small HTTP server: it passes RPC datagrams to the node over UDP, hands SDP offers to
    the ICE engine ([ice_rtc.rs], the argument [accept_offer], [IceRtc.v]) and keeps rooms through which
    two browser tabs exchange offers, answers and candidates.  The page it serves and the
    JSON parser are arguments too.  A connection is the list of what its reads will return
    and the number of bytes that can still be written to it; each request runs with the
    rooms as they are when it takes the lock. *)

From S2P Require Import Prelude Bytes Types Proto Codec Net Text Metrics.

(** ** RPC frames *)

Definition multiaddr (hint : bytes) : bytes := bstr "/webrtc/" ++ hint.

Definition frame_rpc (datagram : bytes) : option (Header * bytes) :=
  h ← Header_decode datagram;
  Some (h, drop HEADER_LEN datagram).

Definition accept_rpc (datagram : bytes) : bool := bool_decide (is_Some (Header_decode datagram)).

Inductive SignalKind := Offer | Answer | Ice.

Record Signal := mkSignal { sg_room : bytes; sg_from : bytes; sg_kind : SignalKind; sg_body : bytes }.

(** The two queues of a pair of endpoints; endpoint [true] is the first of the pair. *)
Record DcPair := mkDcPair { to_a : list bytes; to_b : list bytes }.

Definition dc_pair : DcPair := mkDcPair [] [].

Definition dc_send (p : DcPair) (a : bool) (msg : bytes) : DcPair :=
  if a then mkDcPair (to_a p) (to_b p ++ [msg]) else mkDcPair (to_a p ++ [msg]) (to_b p).

(** [recv_timeout] of a queue nothing is added to before the deadline. *)
Definition dc_recv (p : DcPair) (a : bool) : DcPair * option bytes :=
  match (if a then to_a p else to_b p) with
  | m :: q => (if a then mkDcPair q (to_b p) else mkDcPair (to_a p) q, Some m)
  | [] => (p, None)
  end.

(** ** One RPC over a fresh socket *)

Inductive RecvEvent :=
  | Got (datagram : bytes)
  | TimedOut
  | WouldBlock
  | Other.

(** What the socket of [accept_rpc_to_node] does: whether binding, setting the timeout and
    sending succeed, and what each [recv_from] before the deadline returns. *)
Record RpcSocket := mkRpcSocket {
  rs_bind : bool;
  rs_timeout : bool;
  rs_send : bool;
  rs_events : list RecvEvent;
}.

Definition RPC_BUF : nat := 2048.

(** The loop up to the deadline; a datagram is cut to the buffer. *)
Fixpoint await_reply (want : Z) (events : list RecvEvent) : option bytes :=
  match events with
  | [] => None
  | Got d :: events =>
      let d := take RPC_BUF d in
      match Header_decode d with
      | Some h => if (h_correlation h =? want)%Z then Some d else await_reply want events
      | None => await_reply want events
      end
  | TimedOut :: _ => None
  | WouldBlock :: events => await_reply want events
  | Other :: _ => None
  end.

Definition accept_rpc_to_node (sock : RpcSocket) (datagram : bytes) : option bytes :=
  if negb (accept_rpc datagram) then None
  else
    h ← Header_decode datagram;
    if rs_bind sock && rs_timeout sock && rs_send sock
    then await_reply (h_correlation h) (rs_events sock)
    else None.

(** ** Connections *)

(** What one [read] returns: at most the 512 bytes of its buffer, or an error.  After the
    last one the peer has closed its side and reads return no bytes. *)
Inductive Chunk :=
  | Data (b : bytes)
  | ReadError (e : string).

Record TcpStream := mkTcpStream { t_in : list Chunk; t_out : bytes; t_room : nat }.

Definition write_all (t : TcpStream) (b : bytes) : TcpStream * result unit :=
  if length b <=? t_room t
  then (mkTcpStream (t_in t) (t_out t ++ b) (t_room t - length b), Ok tt)
  else (mkTcpStream (t_in t) (t_out t ++ take (t_room t) b) 0, Err "write").

(** [windows(4).position(|w| w == b"\r\n\r\n")] *)
Fixpoint find_double_crlf (l : bytes) : option nat :=
  match l with
  | [] => None
  | _ :: l' => if starts_with dcrlf l then Some 0 else S <$> find_double_crlf l'
  end.

(** The first loop of [read_request]: [buf] so far. *)
Fixpoint read_head (s : list Chunk) (buf : bytes) : list Chunk * result bytes :=
  match s with
  | [] => ([], Ok buf)
  | ReadError e :: s => (s, Err e)
  | Data b :: s =>
      if bool_decide (b = []) then (s, Ok buf)
      else
        let buf := buf ++ b in
        if bool_decide (is_Some (find_double_crlf buf)) then (s, Ok buf)
        else if (64 * 1024 <? Z.of_nat (length buf))%Z then (s, Err "headers too large")
        else read_head s buf
  end.

(** The second loop. *)
Fixpoint read_body (s : list Chunk) (body : bytes) (len : Z) : list Chunk * result bytes :=
  if (len <=? Z.of_nat (length body))%Z then (s, Ok body)
  else
    match s with
    | [] => ([], Ok body)
    | ReadError e :: s => (s, Err e)
    | Data b :: s => if bool_decide (b = []) then (s, Ok body) else read_body s (body ++ b) len
    end.

(** The header loop: the last [Content-Length] counts, and one that is not a number is
    zero. *)
Definition content_length (lines : list bytes) : Z :=
  foldl (λ len line,
    let '(k, v) := default ([], []) (split_once (z2b 58) line) in
    if eq_ignore_ascii_case k (bstr "content-length") then default 0%Z (parse_uint 64 (trim v))
    else len) 0%Z lines.

(** Method, path and declared length of the body. *)
Definition parse_head (head : bytes) : bytes * bytes * Z :=
  let lines := split_crlf (from_utf8_lossy head) in
  let req_parts := split_whitespace (default [] (lines !! 0)) in
  (default [] (req_parts !! 0), default (bstr "/") (req_parts !! 1), content_length (drop 1 lines)).

Definition read_request (t : TcpStream) : TcpStream * result (bytes * bytes * bytes) :=
  let '(s, r) := read_head (t_in t) [] in
  match r with
  | Err e => (mkTcpStream s (t_out t) (t_room t), Err e)
  | Ok buf =>
      match find_double_crlf buf with
      | None => (mkTcpStream s (t_out t) (t_room t), Err "bad request")
      | Some header_end =>
          let '(method, path, len) := parse_head (take header_end buf) in
          let '(s, r) := read_body s (drop (header_end + 4) buf) len in
          (mkTcpStream s (t_out t) (t_room t),
           match r with
           | Err e => Err e
           | Ok body => Ok (method, path, take (Z.to_nat len) body)
           end)
      end
  end.

Definition reason (status : Z) : string :=
  match status with
  | 200 => "OK"
  | 204 => "No Content"
  | _ => "Error"
  end%Z.

Definition resp_head (status : Z) (ctype : string) (len : nat) : bytes :=
  bstr "HTTP/1.1 " ++ show_dec status ++ bstr " " ++ bstr (reason status) ++ crlf ++
  bstr "Content-Type: " ++ bstr ctype ++ crlf ++
  bstr "Content-Length: " ++ show_u64 (Z.of_nat len) ++ crlf ++
  bstr "Access-Control-Allow-Origin: *" ++ crlf ++
  bstr "Access-Control-Allow-Methods: GET, POST, PUT, DELETE, OPTIONS" ++ crlf ++
  bstr "Access-Control-Allow-Headers: *" ++ crlf ++
  bstr "Connection: close" ++ dcrlf.

Definition write_resp (t : TcpStream) (status : Z) (ctype : string) (body : bytes)
    : TcpStream * result unit :=
  let '(t, r) := write_all t (resp_head status ctype (length body)) in
  match r with
  | Err e => (t, Err e)
  | Ok _ => write_all t body
  end.

(** ** Rooms *)

Record Room := mkRoom {
  offer : bytes;
  answer : bytes;
  ice_offerer : list bytes;
  ice_answerer : list bytes;
}.

Definition Room_default : Room := mkRoom [] [] [] [].

Abbreviation Rooms := (gmap bytes Room).

#[export] Instance Room_eq_dec : EqDecision Room.
Proof. solve_decision. Defined.

Definition Resp : Type := Z * string * bytes.

(** [take_text]: one look at the rooms, then one every 100 ms until the deadline; [views]
    are the rooms at the later looks. *)
Fixpoint take_text (rooms : Rooms) (views : list Rooms) (name : bytes) (f : Room → bytes) : Resp :=
  match f <$> rooms !! name with
  | Some (c :: s) => (200, "text/plain; charset=utf-8", c :: s)
  | _ =>
      match views with
      | [] => (204, "text/plain", [])
      | rooms :: views => take_text rooms views name f
      end
  end%Z.

(** [serde_json] on a value. *)
Class Json := {
  Value : Type;
  json_from_str : bytes → option Value;
  json_get : Value → bytes → option Value;
  json_as_str : Value → option bytes;
}.

Definition offer_sdp `{Json} (body : bytes) : bytes :=
  let t := trim body in
  if starts_with (bstr "v=") t then t
  else
    match (v ← json_from_str t; x ← json_get v (bstr "sdp"); json_as_str x) with
    | Some s => s
    | None => t
    end.

Section gateway.
Context `{Json}.
Context (HTML : bytes) (accept_offer : bytes → SocketAddr → bytes + bytes).

(** What a request sees besides the rooms when it takes the lock: the rooms at its later
    looks, and the socket of an RPC. *)
Record Request := mkRequest { rq_views : list Rooms; rq_sock : RpcSocket }.

Definition no_content : Resp := (204%Z, "text/plain"%string, []).
Definition not_found : Resp := (404%Z, "text/plain"%string, bstr "not found").

(** The requests to a room: [kind] and [side] are the path's third and fourth part. *)
Definition room_request (rq : Request) (method name : bytes) (kind side : option bytes)
    (body : bytes) (rooms : Rooms) : Rooms * Resp :=
  let r := default Room_default (rooms !! name) in
  let text := from_utf8_lossy body in
  if bool_decide (method = bstr "DELETE" ∧ kind = None ∧ side = None)
  then (delete name rooms, no_content)
  else if bool_decide (method = bstr "PUT" ∧ kind = Some (bstr "offer") ∧ side = None)
  then (<[name := mkRoom text [] [] []]> rooms, no_content)
  else if bool_decide (method = bstr "PUT" ∧ kind = Some (bstr "answer") ∧ side = None)
  then (<[name := mkRoom (offer r) text (ice_offerer r) (ice_answerer r)]> rooms, no_content)
  else if bool_decide (method = bstr "GET" ∧ kind = Some (bstr "offer") ∧ side = None)
  then (rooms, take_text rooms (rq_views rq) name offer)
  else if bool_decide (method = bstr "GET" ∧ kind = Some (bstr "answer") ∧ side = None)
  then (rooms, take_text rooms (rq_views rq) name answer)
  else if bool_decide (method = bstr "POST" ∧ kind = Some (bstr "ice") ∧ is_Some side)
  then
    if bool_decide (side = Some (bstr "offerer"))
    then (<[name := mkRoom (offer r) (answer r) (ice_offerer r ++ [text]) (ice_answerer r)]> rooms, no_content)
    else if bool_decide (side = Some (bstr "answerer"))
    then (<[name := mkRoom (offer r) (answer r) (ice_offerer r) (ice_answerer r ++ [text])]> rooms, no_content)
    else (<[name := r]> rooms, (404%Z, "text/plain"%string, bstr "ice side"))
  else if bool_decide (method = bstr "GET" ∧ kind = Some (bstr "ice") ∧ is_Some side)
  then
    (rooms,
     match rooms !! name with
     | None => no_content
     | Some r =>
         if bool_decide (side = Some (bstr "offerer"))
         then (200%Z, "text/plain; charset=utf-8"%string, join [LF] (ice_offerer r))
         else if bool_decide (side = Some (bstr "answerer"))
         then (200%Z, "text/plain; charset=utf-8"%string, join [LF] (ice_answerer r))
         else (404%Z, "text/plain"%string, bstr "ice side")
     end)
  else (rooms, not_found).

Definition route (rq : Request) (method path body : bytes) (rooms : Rooms)
    (node : option SocketAddr) : Rooms * Resp :=
  if bool_decide (method = bstr "GET") && bool_decide (path = bstr "/" ∨ path = bstr "/index.html")
  then (rooms, (200%Z, "text/html; charset=utf-8"%string, HTML))
  else if bool_decide (method = bstr "POST" ∧ path = bstr "/rpc") then
    (rooms,
     match node with
     | None => (503%Z, "text/plain"%string, bstr "no node")
     | Some dest =>
         if negb (accept_rpc body) then (400%Z, "text/plain"%string, bstr "bad rpc")
         else match accept_rpc_to_node (rq_sock rq) body with
              | Some reply => (200%Z, "application/octet-stream"%string, reply)
              | None => no_content
              end
     end)
  else if bool_decide (method = bstr "POST" ∧ path = bstr "/rtc/offer") then
    (rooms,
     match node with
     | None => (503%Z, "text/plain"%string, bstr "no node")
     | Some dest =>
         match from_utf8 body with
         | None => (400%Z, "text/plain"%string, bstr "sdp must be utf-8")
         | Some raw =>
             match accept_offer (offer_sdp raw) dest with
             | inl answer => (200%Z, "application/sdp"%string, answer)
             | inr e => (400%Z, "text/plain"%string, e)
             end
         end
     end)
  else
    let parts := split_char (z2b 47) (trim_start_matches (z2b 47) path) in
    match parts with
    | room :: name :: rest =>
        if bool_decide (room = bstr "room")
        then room_request rq method name (rest !! 0) (rest !! 1) body rooms
        else (rooms, not_found)
    | _ => (rooms, not_found)
    end.

Definition handle_http (rq : Request) (node : option SocketAddr) (rooms : Rooms) (t : TcpStream)
    : Rooms * TcpStream * result unit :=
  let '(t, r) := read_request t in
  match r with
  | Err e => (rooms, t, Err e)
  | Ok (method, path, body) =>
      if bool_decide (method = bstr "OPTIONS")
      then let '(t, r) := write_resp t 204 "text/plain" [] in (rooms, t, r)
      else
        let '(rooms, (status, ctype, payload)) := route rq method path body rooms node in
        let '(t, r) := write_resp t status ctype payload in
        (rooms, t, r)
  end.
End gateway.

(** ** Lemmas: the end of the head *)

Lemma starts_with_app p l k : length p ≤ length l → starts_with p (l ++ k) = starts_with p l.
Proof. intros Hl. unfold starts_with. by rewrite take_app_le. Qed.

Lemma find_double_crlf_bound l i : find_double_crlf l = Some i → i + 4 ≤ length l.
Proof.
  revert i. induction l as [|c l IH]; intros i; [done|]. cbn [find_double_crlf].
  destruct (starts_with dcrlf (c :: l)) eqn:E.
  - intros [= <-]. unfold starts_with in E. apply bool_decide_eq_true_1, (f_equal length) in E.
    rewrite length_take in E. change (length dcrlf) with 4 in E. lia.
  - destruct (find_double_crlf l) as [j|]; [|done]. intros [= <-]. specialize (IH j eq_refl). cbn. lia.
Qed.

Lemma find_double_crlf_app l k i : find_double_crlf l = Some i → find_double_crlf (l ++ k) = Some i.
Proof.
  revert i. induction l as [|c l IH]; intros i Hi; [done|].
  pose proof (find_double_crlf_bound _ _ Hi) as Hb. cbn [find_double_crlf app] in *.
  destruct (starts_with dcrlf (c :: l)) eqn:E.
  - pose proof (starts_with_app dcrlf (c :: l) k) as Hs. rewrite E in Hs. cbn [app] in Hs.
    rewrite Hs; [done|]. injection Hi as <-. change (length dcrlf) with 4. lia.
  - destruct (find_double_crlf l) as [j|] eqn:Ej; [|done]. rewrite (IH j eq_refl).
    pose proof (find_double_crlf_bound _ _ Ej).
    pose proof (starts_with_app dcrlf (c :: l) k) as Hs. rewrite E in Hs. cbn [app] in Hs.
    rewrite Hs; [done|]. change (length dcrlf) with 4. cbn [length]. lia.
Qed.

(** A part of the input that reaches the end of the head has the same head. *)
Lemma find_double_crlf_prefix l k i :
  find_double_crlf (l ++ k) = Some i → i + 4 ≤ length l → find_double_crlf l = Some i.
Proof.
  revert i. induction l as [|c l IH]; intros i Hi Hb; [cbn in Hb; lia|].
  cbn [find_double_crlf app] in *.
  pose proof (starts_with_app dcrlf (c :: l) k) as Hs. cbn [app] in Hs.
  rewrite Hs in Hi by (change (length dcrlf) with 4; lia). destruct (starts_with dcrlf (c :: l)); [done|].
  destruct (find_double_crlf (l ++ k)) as [j|] eqn:Ej; [|done]. injection Hi as <-.
  rewrite (IH j); [done|done|cbn in Hb; lia].
Qed.

Lemma not_crlf_start c l : c ≠ CR → starts_with dcrlf (c :: l) = false.
Proof. intros Hc. apply bool_decide_eq_false_2. intros [= ? _]. done. Qed.

Lemma find_double_crlf_line l k :
  CR ∉ l → find_double_crlf (l ++ k) = (λ i, length l + i) <$> find_double_crlf k.
Proof.
  induction l as [|c l IH]; intros Hl; cbn [app length].
  { by destruct (find_double_crlf k). }
  apply not_elem_of_cons in Hl as [Hc Hl]. cbn [find_double_crlf].
  rewrite not_crlf_start, IH by congruence. by destruct (find_double_crlf k).
Qed.

Lemma LF_CR : LF ≠ CR.
Proof. apply (bool_decide_unpack _). by vm_compute. Qed.

Lemma find_double_crlf_here k : find_double_crlf (dcrlf ++ k) = Some 0.
Proof.
  unfold dcrlf, crlf. cbn [app find_double_crlf]. unfold starts_with.
  by rewrite bool_decide_eq_true_2.
Qed.

Lemma find_double_crlf_join ls k :
  ls ≠ [] → Forall (λ l, CR ∉ l ∧ l ≠ []) ls →
  find_double_crlf (join crlf ls ++ dcrlf ++ k) = Some (length (join crlf ls)).
Proof.
  intros Hne Hls. induction Hls as [|l ls [Hl Hln] Hls IH]; [done|]. destruct ls as [|m ls].
  { cbn [join]. rewrite find_double_crlf_line, find_double_crlf_here by done. cbn. f_equal. lia. }
  rewrite join_cons, <-!(assoc_L (++)), find_double_crlf_line by done.
  specialize (IH ltac:(done)). revert IH.
  apply Forall_cons in Hls as [[Hm Hmn] _]. destruct m as [|c m]; [done|].
  apply not_elem_of_cons in Hm as [Hc _].
  assert (Hj : ∃ j, join crlf ((c :: m) :: ls) = c :: j) by (destruct ls; cbn; eauto).
  destruct Hj as [j ->]. cbn [app]. intros IH. rewrite !length_app.
  assert (Hs : ∀ r, find_double_crlf (CR :: LF :: c :: r) = (λ i, 2 + i) <$> find_double_crlf (c :: r)).
  { intros r. cbn [find_double_crlf].
    assert (starts_with dcrlf (CR :: LF :: c :: r) = false) as ->.
    { apply bool_decide_eq_false_2. cbn. intros [= E _]. congruence. }
    rewrite !not_crlf_start by (apply LF_CR || congruence). by destruct (find_double_crlf r). }
  cbn [app crlf]. by rewrite Hs, IH.
Qed.

(** ** Requests as a client writes them *)

Record HttpRequest := mkHttpRequest {
  hr_method : bytes;
  hr_path : bytes;
  hr_before : list (bytes * bytes);
  hr_length : bytes;
  hr_after : list (bytes * bytes);
  hr_body : bytes;
}.

Definition header_line (h : bytes * bytes) : bytes := h.1 ++ z2b 58 :: h.2.

Definition request_headers (r : HttpRequest) : list (bytes * bytes) :=
  hr_before r ++
  (hr_length r, z2b 32 :: show_u64 (Z.of_nat (length (hr_body r)))) :: hr_after r.

Definition request_lines (r : HttpRequest) : list bytes :=
  (hr_method r ++ z2b 32 :: hr_path r ++ z2b 32 :: bstr "HTTP/1.1") ::
  (header_line <$> request_headers r).

Definition request_text (r : HttpRequest) : bytes :=
  join crlf (request_lines r) ++ dcrlf ++ hr_body r.

Definition printable (c : byte) : Prop := (32 ≤ b2z c ≤ 126)%Z.

#[export] Instance printable_dec c : Decision (printable c).
Proof. unfold printable. apply _. Defined.

Definition header_ok (h : bytes * bytes) : Prop :=
  Forall token h.1 ∧ z2b 58 ∉ h.1 ∧ Forall printable h.2.

(** Visible method, path and header names, printable header values, one [Content-Length]
    in any case and the header fields within the server's 64 KiB. *)
Definition request_ok (r : HttpRequest) : Prop :=
  (Forall token (hr_method r) ∧ hr_method r ≠ []) ∧
  (Forall token (hr_path r) ∧ hr_path r ≠ []) ∧
  Forall header_ok (hr_before r) ∧
  (Forall token (hr_length r) ∧ z2b 58 ∉ hr_length r ∧
   eq_ignore_ascii_case (hr_length r) (bstr "content-length") = true) ∧
  Forall (λ h, header_ok h ∧ eq_ignore_ascii_case h.1 (bstr "content-length") = false) (hr_after r) ∧
  (Z.of_nat (length (hr_body r)) < 2 ^ 64)%Z ∧
  (Z.of_nat (length (join crlf (request_lines r))) + 4 ≤ 64 * 1024)%Z.

#[export] Instance request_ok_dec r : Decision (request_ok r).
Proof. unfold request_ok, header_ok. apply _. Defined.

Lemma read_head_chunks chunks rest buf i :
  Forall (λ b, b ≠ []) chunks → find_double_crlf (buf ++ concat chunks) = Some i →
  find_double_crlf buf = None → (Z.of_nat i + 4 ≤ 64 * 1024)%Z →
  ∃ p q, chunks = p ++ q ∧ find_double_crlf (buf ++ concat p) = Some i ∧
    read_head ((Data <$> chunks) ++ rest) buf = ((Data <$> q) ++ rest, Ok (buf ++ concat p)).
Proof.
  intros Hc. revert buf. induction Hc as [|b chunks Hb Hc IH]; intros buf Hi Hn Hl.
  { cbn in Hi. rewrite app_nil_r in Hi. congruence. }
  cbn [concat] in Hi. rewrite (assoc_L (++)) in Hi. cbn [fmap list_fmap app read_head].
  rewrite bool_decide_eq_false_2 by done. cbn zeta.
  destruct (find_double_crlf (buf ++ b)) as [j|] eqn:Ej.
  - apply (find_double_crlf_app _ (concat chunks)) in Ej as Ej'. rewrite Ej' in Hi. injection Hi as ->.
    exists [b], chunks. cbn [concat]. rewrite app_nil_r. split_and!; [done..|].
    rewrite bool_decide_eq_true_2 by eauto. done.
  - rewrite bool_decide_eq_false_2 by (intros []; done).
    assert (length (buf ++ b) < i + 4) as Hlt.
    { destruct (decide (i + 4 ≤ length (buf ++ b))); [|lia].
      rewrite (find_double_crlf_prefix _ _ _ Hi) in Ej by done. done. }
    replace (64 * 1024 <? Z.of_nat (length (buf ++ b)))%Z with false by lia.
    destruct (IH (buf ++ b) Hi Ej Hl) as (p & q & -> & Hp & Hr).
    exists (b :: p), q. cbn [concat]. rewrite (assoc_L (++)). split_and!; [done..|exact Hr].
Qed.

Lemma read_body_chunks chunks rest body n :
  Forall (λ b, b ≠ []) chunks → n ≤ length (body ++ concat chunks) →
  ∃ s b, read_body ((Data <$> chunks) ++ rest) body (Z.of_nat n) = (s, Ok b) ∧
    take n b = take n (body ++ concat chunks).
Proof.
  intros Hc. revert body. induction Hc as [|b chunks Hb Hc IH]; intros body Hn.
  - cbn [concat fmap list_fmap app]. rewrite app_nil_r in *. exists rest, body. split; [|done].
    replace rest with ([] ++ rest) at 1 by done.
    assert ((Z.of_nat n <=? Z.of_nat (length body))%Z = true) as Hle by lia.
    destruct rest as [|[]]; cbn [app read_body]; by rewrite Hle.
  - cbn [concat fmap list_fmap app read_body] in *.
    destruct (Z.leb_spec (Z.of_nat n) (Z.of_nat (length body))).
    + eexists _, body. split; [done|]. by rewrite take_app_le by lia.
    + rewrite bool_decide_eq_false_2 by done. rewrite (assoc_L (++)) in Hn |- *. by apply IH.
Qed.

Lemma token_bound c : token c → (b2z c < 128)%Z ∧ c ≠ CR.
Proof.
  unfold token. intros Hc. split; [lia|]. intros ->. vm_compute in Hc. destruct Hc as [[] _]. done.
Qed.

Lemma printable_bound c : printable c → (b2z c < 128)%Z ∧ c ≠ CR.
Proof.
  unfold printable. intros Hc. split; [lia|]. intros ->. vm_compute in Hc. destruct Hc as [[] _]. done.
Qed.

Definition plain (l : bytes) : Prop := Forall (λ c, b2z c < 128 ∧ c ≠ CR)%Z l.

Lemma plain_token l : Forall token l → plain l.
Proof. intros. eapply Forall_impl; [done|apply token_bound]. Qed.

Lemma plain_no_cr l : plain l → CR ∉ l.
Proof. intros Hl Hin. unfold plain in Hl. rewrite Forall_forall in Hl. by destruct (Hl _ Hin). Qed.

Lemma header_line_plain h : header_ok h → plain (header_line h) ∧ header_line h ≠ [].
Proof.
  intros (Hk & _ & Hv). unfold header_line. split; [|by destruct h.1].
  apply Forall_app. split; [by apply plain_token|]. constructor.
  - apply token_bound. split; by vm_compute.
  - eapply Forall_impl; [exact Hv|apply printable_bound].
Qed.

Lemma show_u64_tokens n : (0 ≤ n)%Z → Forall token (show_u64 n).
Proof. apply digits_tokens. Qed.

Lemma length_header_ok r : request_ok r →
  header_ok (hr_length r, z2b 32 :: show_u64 (Z.of_nat (length (hr_body r)))).
Proof.
  intros (_ & _ & _ & (? & ? & _) & _). split_and!; [done..|]. constructor; [split; by vm_compute|].
  eapply Forall_impl; [apply show_u64_tokens; lia|]. unfold token, printable. lia.
Qed.

Lemma request_headers_ok r : request_ok r → Forall header_ok (request_headers r).
Proof.
  intros Hr. pose proof (length_header_ok r Hr). destruct Hr as (_ & _ & Hb & _ & Ha & _).
  apply Forall_app. split; [done|]. constructor; [done|]. eapply Forall_impl; [exact Ha|]. by intros ? [].
Qed.

Lemma request_lines_plain r : request_ok r → Forall (λ l, plain l ∧ l ≠ []) (request_lines r).
Proof.
  intros Hr. pose proof (request_headers_ok r Hr) as Hh. destruct Hr as ([Hm Hmn] & [Hp _] & _).
  constructor.
  - split; [|by destruct (hr_method r)].
    assert (plain [z2b 32]) as Hs by (constructor; [apply printable_bound; split; by vm_compute|done]).
    apply Forall_app. split; [by apply plain_token|]. apply Forall_cons_1 in Hs as [Hs _].
    constructor; [done|]. apply Forall_app. split; [by apply plain_token|].
    constructor; [done|]. apply plain_token, (bool_decide_unpack _). by vm_compute.
  - apply Forall_fmap. eapply Forall_impl; [exact Hh|]. intros h Hk. by apply header_line_plain.
Qed.

(** ** Parsing the head *)

Definition length_step (len : Z) (line : bytes) : Z :=
  let '(k, v) := default ([], []) (split_once (z2b 58) line) in
  if eq_ignore_ascii_case k (bstr "content-length") then default 0%Z (parse_uint 64 (trim v)) else len.

Lemma length_step_header len h : z2b 58 ∉ h.1 →
  length_step len (header_line h) =
  if eq_ignore_ascii_case h.1 (bstr "content-length") then default 0%Z (parse_uint 64 (trim h.2)) else len.
Proof. intros Hh. unfold length_step, header_line. by rewrite split_once_app. Qed.

Lemma length_after hs len :
  Forall (λ h, header_ok h ∧ eq_ignore_ascii_case h.1 (bstr "content-length") = false) hs →
  foldl length_step len (header_line <$> hs) = len.
Proof.
  induction 1 as [|h hs [(_ & Hc & _) He] _ IH]; [done|]. cbn [fmap list_fmap foldl].
  by rewrite length_step_header, He.
Qed.

Lemma content_length_request r : request_ok r →
  content_length (header_line <$> request_headers r) = Z.of_nat (length (hr_body r)).
Proof.
  intros (_ & _ & _ & (Ht & Hc & He) & Ha & Hb & _). unfold content_length, request_headers.
  change (λ len line, _) with length_step.
  rewrite fmap_app, foldl_app. cbn [fmap list_fmap foldl]. rewrite length_after by done.
  rewrite length_step_header by done. cbn [fst snd]. rewrite He.
  rewrite trim_space_token by (apply show_u64_tokens; lia). unfold show_u64.
  rewrite parse_uint_digits; [done|lia| |cbn; lia|lia]. unfold in_u. lia.
Qed.

Lemma join_ascii ls :
  Forall (λ l, plain l ∧ l ≠ []) ls → Forall (λ c, b2z c < 128)%Z (join crlf ls).
Proof.
  induction 1 as [|l ls [Hx _] Hls IH]; [constructor|].
  assert (Forall (λ c, b2z c < 128)%Z l) by (eapply Forall_impl; [exact Hx|by intros ? []]).
  destruct ls; [done|]. rewrite join_cons by done. apply Forall_app. split; [done|].
  apply Forall_app. split; [repeat constructor; by vm_compute|done].
Qed.

Lemma parse_head_request r : request_ok r →
  parse_head (join crlf (request_lines r)) =
  (hr_method r, hr_path r, Z.of_nat (length (hr_body r))).
Proof.
  intros Hr. pose proof (request_lines_plain r Hr) as Hl. unfold parse_head.
  rewrite utf8_lossy_id by (by apply utf8_ascii, join_ascii).
  rewrite split_crlf_join; [|done|].
  2: { eapply Forall_impl; [exact Hl|]. intros l [Hp _]. by apply plain_no_cr. }
  pose proof (content_length_request r Hr) as Hlen. unfold request_lines. revert Hlen.
  generalize (header_line <$> request_headers r). intros hs Hlen.
  destruct Hr as ([Hm Hmn] & [Hp Hpn] & _). cbn zeta.
  change (drop 1 (?x :: hs)) with hs. rewrite Hlen.
  change (default [] ((?x :: hs) !! 0)) with x. rewrite !split_whitespace_token by done. done.
Qed.

(** ** The request loop *)

(** The head and the body read from a text in chunks. *)
Lemma read_request_chunks r chunks rest extra out room :
  request_ok r → Forall (λ b, b ≠ []) chunks → concat chunks = request_text r ++ extra →
  ∃ s, read_request (mkTcpStream ((Data <$> chunks) ++ rest) out room) =
    (mkTcpStream s out room, Ok (hr_method r, hr_path r, hr_body r)).
Proof.
  intros Hr Hc Ht. unfold read_request. cbn [t_in t_out t_room].
  set (head := join crlf (request_lines r)) in *.
  assert (Hi : find_double_crlf (concat chunks) = Some (length head)).
  { rewrite Ht. unfold request_text. rewrite <-!(assoc_L (++)). apply find_double_crlf_join; [done|].
    eapply Forall_impl; [by apply request_lines_plain|]. intros l [Hp ?]. split; [by apply plain_no_cr|done]. }
  destruct (read_head_chunks chunks rest [] (length head)) as (p & q & -> & Hp & ->); [done..| |].
  { destruct Hr as (_ & _ & _ & _ & _ & _ & Hlen). fold head in Hlen. lia. }
  cbn [app] in *. rewrite Hp. rewrite concat_app in Ht.
  pose proof (find_double_crlf_bound _ _ Hp) as Hb.
  assert (Htake : take (length head) (concat p) = head).
  { rewrite <-(take_app_le (concat p) (concat q)) by lia. rewrite Ht. unfold request_text.
    fold head. rewrite <-!(assoc_L (++)). by rewrite take_app_length. }
  assert (Hdrop : drop (length head + 4) (concat p) ++ concat q = hr_body r ++ extra).
  { rewrite <-drop_app_le by lia. rewrite Ht. unfold request_text. fold head.
    rewrite (assoc_L (++) head), <-(assoc_L (++)).
    replace (length head + 4) with (length (head ++ dcrlf)) by (by rewrite length_app).
    by rewrite drop_app_length. }
  pose proof (parse_head_request r Hr) as Hhead. fold head in Hhead. rewrite Htake, Hhead.
  destruct (read_body_chunks q rest (drop (length head + 4) (concat p)) (length (hr_body r)))
    as (s & b & -> & Htb).
  { by apply Forall_app in Hc as [_ ?]. }
  { rewrite Hdrop, length_app. lia. }
  exists s. rewrite Nat2Z.id, Htb, Hdrop, take_app_length. done.
Qed.

(** ** Responses *)

Definition resp_lines (status : Z) (ctype : string) (len : nat) : list bytes :=
  [bstr "HTTP/1.1 " ++ show_dec status ++ bstr " " ++ bstr (reason status);
   bstr "Content-Type: " ++ bstr ctype;
   bstr "Content-Length: " ++ show_u64 (Z.of_nat len);
   bstr "Access-Control-Allow-Origin: *";
   bstr "Access-Control-Allow-Methods: GET, POST, PUT, DELETE, OPTIONS";
   bstr "Access-Control-Allow-Headers: *";
   bstr "Connection: close"].

Lemma resp_head_lines status ctype len :
  resp_head status ctype len = join crlf (resp_lines status ctype len) ++ dcrlf.
Proof. unfold resp_head, resp_lines. cbn [join]. by rewrite <-!(assoc_L (++)). Qed.

Lemma literal_line (p : string) (l : bytes) :
  bool_decide (CR ∉ bstr p ∧ bstr p ≠ []) = true → CR ∉ l → CR ∉ bstr p ++ l ∧ bstr p ++ l ≠ [].
Proof.
  intros [Hp Hn]%bool_decide_eq_true_1 Hl. split; [|by destruct (bstr p)]. rewrite elem_of_app. tauto.
Qed.

Lemma literal_no_cr (p : string) : bool_decide (CR ∉ bstr p) = true → CR ∉ bstr p.
Proof. apply bool_decide_eq_true_1. Qed.

Lemma number_no_cr f n : (0 ≤ n)%Z → CR ∉ from_digit <$> digits 10 f n.
Proof. intros Hn. by apply plain_no_cr, plain_token, digits_tokens. Qed.

Lemma resp_lines_ok status ctype len :
  (0 ≤ status)%Z → CR ∉ bstr ctype → Forall (λ l, CR ∉ l ∧ l ≠ []) (resp_lines status ctype len).
Proof.
  intros Hs Hc. unfold resp_lines.
  assert (CR ∉ bstr (reason status)) by (unfold reason; repeat case_match; by apply literal_no_cr).
  assert (CR ∉ bstr " ") by by apply literal_no_cr.
  constructor; [|constructor; [by apply literal_line, Hc|constructor]].
  - apply literal_line; [by vm_compute|]. rewrite !elem_of_app.
    pose proof (number_no_cr 10 status Hs) as Hn. unfold show_dec. tauto.
  - apply literal_line; [by vm_compute|]. apply number_no_cr. lia.
  - repeat (constructor; [apply (bool_decide_unpack _); by vm_compute|]). constructor.
Qed.

(** A response is read back by looking for the end of its head. *)
Lemma response_split status ctype payload :
  (0 ≤ status)%Z → CR ∉ bstr ctype →
  ∃ i, find_double_crlf (resp_head status ctype (length payload) ++ payload) = Some i ∧
    drop (i + 4) (resp_head status ctype (length payload) ++ payload) = payload.
Proof.
  intros Hs Hc. rewrite resp_head_lines, <-(assoc_L (++)). eexists. split.
  - apply find_double_crlf_join; [done|by apply resp_lines_ok].
  - rewrite (assoc_L (++)). apply drop_app_length'. by rewrite length_app.
Qed.

(** ** Rooms *)

Lemma take_text_status rooms views name f :
  (take_text rooms views name f).1.1 = 200%Z ∨ (take_text rooms views name f).1.1 = 204%Z.
Proof.
  revert rooms. induction views as [|v views IH]; intros rooms; cbn [take_text];
    destruct (f <$> _) as [[|]|]; auto.
Qed.

(** What a request to a room can answer, and what a refused one leaves behind. *)
Lemma room_request_status rq m name kind side body rooms rooms' status ctype payload :
  room_request rq m name kind side body rooms = (rooms', (status, ctype, payload)) →
  status ∈ [200; 204; 404]%Z ∧
  (rooms' = rooms ∨ status = 204%Z ∨
   m = bstr "POST" ∧ rooms !! name = None ∧ rooms' = <[name := Room_default]> rooms).
Proof.
  assert (Hlook : ∀ f, take_text rooms (rq_views rq) name f = (status, ctype, payload) →
                  status ∈ [200; 204; 404]%Z).
  { intros f Hf. pose proof (take_text_status rooms (rq_views rq) name f) as Hs.
    rewrite Hf in Hs. cbn in Hs. set_solver. }
  unfold room_request. intros Hr.
  assert (Hdone : ∀ r st ct p, (r, (st, ct, p)) = (rooms', (status, ctype, payload)) →
    st ∈ [200; 204; 404]%Z → (r = rooms ∨ st = 204%Z ∨
      m = bstr "POST" ∧ rooms !! name = None ∧ r = <[name := Room_default]> rooms) →
    status ∈ [200; 204; 404]%Z ∧ (rooms' = rooms ∨ status = 204%Z ∨
      m = bstr "POST" ∧ rooms !! name = None ∧ rooms' = <[name := Room_default]> rooms)).
  { intros r st ct p [= -> -> _ _]. auto. }
  unfold no_content, not_found in Hr.
  destruct (bool_decide _) in Hr; [eapply Hdone; [exact Hr|set_solver|auto]|].
  destruct (bool_decide _) in Hr; [eapply Hdone; [exact Hr|set_solver|auto]|].
  destruct (bool_decide _) in Hr; [eapply Hdone; [exact Hr|set_solver|auto]|].
  destruct (bool_decide _) in Hr; [injection Hr as <- Hr; split; [by eapply Hlook|by left]|].
  destruct (bool_decide _) in Hr; [injection Hr as <- Hr; split; [by eapply Hlook|by left]|].
  destruct (bool_decide _) eqn:Ep in Hr.
  { apply bool_decide_eq_true_1 in Ep as [Hm _].
    do 2 (destruct (bool_decide _) in Hr; [eapply Hdone; [exact Hr|set_solver|auto]|]).
    eapply Hdone; [exact Hr|set_solver|]. destruct (rooms !! name) eqn:E; cbn; [|by auto].
    left. by apply insert_id. }
  destruct (bool_decide _) in Hr; [|eapply Hdone; [exact Hr|set_solver|auto]].
  injection Hr as <- Hr. split; [|by left]. revert Hr.
  repeat case_match; intros [= <- _ _]; set_solver.
Qed.

Section rooms.
Context `{Json}.
Context (HTML : bytes) (accept_offer : bytes → SocketAddr → bytes + bytes).

Notation route := (route HTML accept_offer).

(** A request with what it sees of the world. *)
Record Call := mkCall {
  c_req : Request; c_method : bytes; c_path : bytes; c_body : bytes; c_node : option SocketAddr }.

Definition run_call (rooms : Rooms) (c : Call) : Rooms * Resp :=
  route (c_req c) (c_method c) (c_path c) (c_body c) rooms (c_node c).

(** The room a path names. *)
Definition path_room (path : bytes) : option bytes :=
  match split_char (z2b 47) (trim_start_matches (z2b 47) path) with
  | room :: name :: _ => if bool_decide (room = bstr "room") then Some name else None
  | _ => None
  end.

(** Only requests to a room change it. *)
Lemma run_call_frame rooms c name :
  path_room (c_path c) ≠ Some name → (run_call rooms c).1 !! name = rooms !! name.
Proof.
  unfold run_call, Webrtc.route, path_room. intros Hn.
  destruct (_ && _); [done|]. do 2 (destruct (bool_decide _); [done|]).
  destruct (split_char _ _) as [|room [|nm rest]]; [done..|].
  destruct (bool_decide (room = bstr "room")); [|done].
  assert (nm ≠ name) by congruence. unfold room_request.
  repeat (case_match; cbn [fst]; rewrite ?lookup_delete_ne, ?lookup_insert_ne by done; try done).
Qed.

(** A look changes nothing. *)
Lemma run_call_get rooms c : c_method c = bstr "GET" → (run_call rooms c).1 = rooms.
Proof.
  unfold run_call, Webrtc.route. intros ->. repeat (case_match; try done).
  unfold room_request. repeat (case_match; try done); bool_to_prop; destruct_and?;
    match goal with H : bstr _ = bstr _ |- _ => vm_compute in H; discriminate end.
Qed.

Definition slash : byte := z2b 47.

Definition room_path (name : bytes) (segs : list bytes) : bytes :=
  slash :: join [slash] (bstr "room" :: name :: segs).

Lemma room_path_parts name segs :
  slash ∉ name → Forall (λ l, slash ∉ l) segs →
  split_char (z2b 47) (trim_start_matches (z2b 47) (room_path name segs)) = bstr "room" :: name :: segs.
Proof.
  intros Hn Hs. unfold room_path. cbn [trim_start_matches].
  rewrite bool_decide_eq_true_2 by done.
  assert (trim_start_matches (z2b 47) (join [slash] (bstr "room" :: name :: segs)) =
          join [slash] (bstr "room" :: name :: segs)) as ->.
  { rewrite join_cons by done. cbn [bstr app String.list_ascii_of_string fmap list_fmap trim_start_matches].
    by rewrite bool_decide_eq_false_2. }
  apply split_char_join; [done|]. constructor; [by apply (bool_decide_unpack _)|]. by constructor.
Qed.

Lemma room_path_room name segs (p : string) :
  bool_decide (take 3 (bstr p) = bstr "/ro") = false → room_path name segs ≠ bstr p.
Proof. intros Hp%bool_decide_eq_false_1 E. apply Hp. rewrite <-E. by destruct segs. Qed.

(** A request to a room, with what it sees of the world. *)
Definition room_call (w : Request * option SocketAddr) (m : string) (name : bytes)
    (segs : list bytes) (body : bytes) : Call :=
  mkCall w.1 (bstr m) (room_path name segs) body w.2.

Lemma run_room_call rooms w m name segs body :
  slash ∉ name → Forall (λ l, slash ∉ l) segs →
  run_call rooms (room_call w m name segs body) =
  room_request w.1 (bstr m) name (segs !! 0) (segs !! 1) body rooms.
Proof.
  intros Hn Hs. unfold run_call, room_call, Webrtc.route. cbn [c_req c_method c_path c_body c_node].
  assert (Hp : ∀ p, bool_decide (take 3 (bstr p) = bstr "/ro") = false → room_path name segs ≠ bstr p)
    by (intros; by apply room_path_room).
  rewrite (bool_decide_eq_false_2 (_ ∨ _)) by (by intros [?%Hp|?%Hp]).
  rewrite andb_false_r. rewrite !(bool_decide_eq_false_2 (_ ∧ _)) by (by intros [_ ?%Hp]).
  rewrite room_path_parts by done. by rewrite bool_decide_eq_true_2.
Qed.

Definition side_name (offerer : bool) : bytes := if offerer then bstr "offerer" else bstr "answerer".

(** The requests to a room, one equation each. *)

Lemma put_offer_eq rq name text rooms :
  room_request rq (bstr "PUT") name (Some (bstr "offer")) None text rooms =
  (<[name := mkRoom (from_utf8_lossy text) [] [] []]> rooms, no_content).
Proof. reflexivity. Qed.

Lemma put_answer_eq rq name text rooms r :
  rooms !! name = Some r →
  room_request rq (bstr "PUT") name (Some (bstr "answer")) None text rooms =
  (<[name := mkRoom (offer r) (from_utf8_lossy text) (ice_offerer r) (ice_answerer r)]> rooms, no_content).
Proof. intros Hr. unfold room_request. rewrite Hr. reflexivity. Qed.

Lemma post_ice_eq rq name (offerer : bool) line rooms r :
  rooms !! name = Some r →
  room_request rq (bstr "POST") name (Some (bstr "ice"))
    (Some (side_name offerer)) line rooms =
  (<[name := mkRoom (offer r) (answer r)
       (ice_offerer r ++ if offerer then [from_utf8_lossy line] else [])
       (ice_answerer r ++ if offerer then [] else [from_utf8_lossy line])]> rooms, no_content).
Proof. intros Hr. unfold room_request. rewrite Hr. by destruct offerer; rewrite app_nil_r. Qed.

Lemma get_offer_eq rq name rooms :
  room_request rq (bstr "GET") name (Some (bstr "offer")) None [] rooms =
  (rooms, take_text rooms (rq_views rq) name offer).
Proof. reflexivity. Qed.

Lemma get_answer_eq rq name rooms :
  room_request rq (bstr "GET") name (Some (bstr "answer")) None [] rooms =
  (rooms, take_text rooms (rq_views rq) name answer).
Proof. reflexivity. Qed.

Lemma get_ice_eq rq name (offerer : bool) rooms r :
  rooms !! name = Some r →
  room_request rq (bstr "GET") name (Some (bstr "ice"))
    (Some (side_name offerer)) [] rooms =
  (rooms, (200%Z, "text/plain; charset=utf-8"%string,
           join [LF] (if offerer then ice_offerer r else ice_answerer r))).
Proof. intros Hr. unfold room_request. rewrite Hr. by destruct offerer. Qed.

(** What happens in and around a room after an offer was put there. *)
Inductive Act :=
  | Elsewhere (c : Call)
  | Look (c : Call)
  | PutAnswer (w : Request * option SocketAddr) (text : bytes)
  | PostIce (w : Request * option SocketAddr) (offerer : bool) (line : bytes).

Definition act_ok (name : bytes) (a : Act) : Prop :=
  match a with
  | Elsewhere c => path_room (c_path c) ≠ Some name
  | Look c => c_method c = bstr "GET"
  | _ => True
  end.

Definition act_call (name : bytes) (a : Act) : Call :=
  match a with
  | Elsewhere c | Look c => c
  | PutAnswer w text => room_call w "PUT" name [bstr "answer"] text
  | PostIce w offerer line => room_call w "POST" name [bstr "ice"; side_name offerer] line
  end.

Definition answers (acts : list Act) : list bytes :=
  omap (λ a, match a with PutAnswer _ text => Some (from_utf8_lossy text) | _ => None end) acts.

Definition ice_lines (offerer : bool) (acts : list Act) : list bytes :=
  omap (λ a, match a with
             | PostIce _ o line => if bool_decide (o = offerer) then Some (from_utf8_lossy line) else None
             | _ => None
             end) acts.

Definition run_acts (name : bytes) (rooms : Rooms) (acts : list Act) : Rooms :=
  foldl (λ rooms a, (run_call rooms (act_call name a)).1) rooms acts.

(** The room as the script says. *)
Definition room_after (offer : bytes) (acts : list Act) : Room :=
  mkRoom offer (default [] (last (answers acts))) (ice_lines true acts) (ice_lines false acts).

Lemma run_acts_room name rooms o acts :
  slash ∉ name → Forall (act_ok name) acts → rooms !! name = Some (room_after o []) →
  run_acts name rooms acts !! name = Some (room_after o acts).
Proof.
  intros Hn Ha Hr. induction acts as [|a acts IH] using rev_ind; [done|].
  apply Forall_app in Ha as [Ha Hok]. apply Forall_cons in Hok as [Hok _]. specialize (IH Ha).
  unfold run_acts in *. rewrite foldl_app. cbn [foldl]. revert IH.
  generalize (foldl (λ rooms a, (run_call rooms (act_call name a)).1) rooms acts). intros rs IH.
  unfold room_after, answers, ice_lines. rewrite !omap_app, last_app.
  destruct a as [c|c|w text|w side line]; cbn [act_call act_ok omap list_omap] in *.
  - rewrite run_call_frame, IH by done. by rewrite !app_nil_r.
  - rewrite run_call_get, IH by done. by rewrite !app_nil_r.
  - rewrite run_room_call by (done || by apply (bool_decide_unpack _)).
    erewrite put_answer_eq by exact IH. cbn [fst]. rewrite lookup_insert_eq. cbn. by rewrite !app_nil_r.
  - rewrite run_room_call by (done || by destruct side; apply (bool_decide_unpack _)).
    cbn [lookup list_lookup]. erewrite post_ice_eq by exact IH. cbn [fst]. rewrite lookup_insert_eq. cbn.
    by destruct side; cbn; rewrite ?app_nil_r.
Qed.
End rooms.

(** ** Theorems *)

(** C27: a well-formed HTTP request is served the same however TCP cuts it into pieces and
    whatever follows it on the connection: the gateway reads exactly its method, path and
    body, routes them once, and writes one response (as long as the connection takes it)
    whose head is the status, type and length of that response and whose body the client
    recovers by looking for the first empty line. *)
Theorem gateway_roundtrip `{Json} (HTML : bytes) (accept_offer : bytes → SocketAddr → bytes + bytes)
    (r : HttpRequest) (chunks : list bytes) (rest : list Chunk) (extra : bytes)
    (rq : Request) (node : option SocketAddr) (rooms : Rooms) (room : nat) :
  request_ok r → hr_method r ≠ bstr "OPTIONS" →
  Forall (λ b, b ≠ []) chunks → concat chunks = request_text r ++ extra →
  let '(rooms', (status, ctype, payload)) :=
    route HTML accept_offer rq (hr_method r) (hr_path r) (hr_body r) rooms node in
  let text := resp_head status ctype (length payload) ++ payload in
  length text ≤ room →
  ∃ t', handle_http HTML accept_offer rq node rooms
      (mkTcpStream ((Data <$> chunks) ++ rest) [] room) = (rooms', t', Ok tt) ∧
    t_out t' = text ∧
    (CR ∉ bstr ctype → (0 ≤ status)%Z →
     ∃ i, find_double_crlf text = Some i ∧ drop (i + 4) text = payload).
Proof.
  intros Hr Hm Hc Ht.
  destruct (route _ _ _ _ _ _ _ _) as [rooms' [[status ctype] payload]] eqn:Hroute.
  intros text Hroom. unfold text in *. rewrite length_app in Hroom.
  destruct (read_request_chunks r chunks rest extra [] room Hr Hc Ht) as [s Hs].
  unfold handle_http. rewrite Hs, bool_decide_eq_false_2, Hroute by done.
  unfold write_resp, write_all. cbn [t_in t_out t_room app].
  replace (_ <=? room) with true by (symmetry; apply Nat.leb_le; lia). cbn [t_in t_out t_room].
  replace (_ <=? _) with true by (symmetry; apply Nat.leb_le; lia). cbn [t_in t_out t_room].
  eexists. split_and!; [done|done|]. intros Hct Hst. by apply response_split.
Qed.

(** The room scripts and looks of [room_exchange]. *)
Definition look_at `{Json} (HTML : bytes) (accept_offer : bytes → SocketAddr → bytes + bytes)
    (rooms : Rooms) (w : Request * option SocketAddr) (name : bytes) (segs : list bytes) : Resp :=
  (run_call HTML accept_offer rooms (room_call w "GET" name segs [])).2.

Definition text_plain : string := "text/plain; charset=utf-8".

(** signalling through a room.  After an offer was put in a room, and whatever requests
    follow (to other rooms or pages, looks at this room, answers and candidates put in it,
    in any order), a look at the room returns exactly that offer, the last answer, and the
    candidates of each side in the order they were posted. *)
Theorem room_exchange `{Json} (HTML : bytes) (accept_offer : bytes → SocketAddr → bytes + bytes)
    (name o : bytes) (w w' : Request * option SocketAddr) (acts : list Act) (rooms : Rooms) :
  slash ∉ name → Forall (act_ok name) acts →
  let start := (run_call HTML accept_offer rooms (room_call w "PUT" name [bstr "offer"] o)).1 in
  let look := look_at HTML accept_offer (run_acts HTML accept_offer name start acts) w' name in
  (from_utf8_lossy o ≠ [] → look [bstr "offer"] = (200%Z, text_plain, from_utf8_lossy o)) ∧
  (∀ a, last (answers acts) = Some a → a ≠ [] → look [bstr "answer"] = (200%Z, text_plain, a)) ∧
  (∀ offerer : bool, look [bstr "ice"; side_name offerer] =
     (200%Z, text_plain, join [LF] (ice_lines offerer acts))).
Proof.
  intros Hn Hacts start look.
  assert (Hstart : start !! name = Some (room_after (from_utf8_lossy o) [])).
  { unfold start. rewrite run_room_call by (done || by apply (bool_decide_unpack _)).
    cbn [lookup list_lookup]. rewrite put_offer_eq. apply lookup_insert_eq. }
  pose proof (run_acts_room HTML accept_offer name start _ acts Hn Hacts Hstart) as Hroom.
  unfold look, look_at. clearbody start. revert Hroom.
  generalize (run_acts HTML accept_offer name start acts). intros rs Hroom. split_and!.
  - intros Ho. rewrite run_room_call by (done || by apply (bool_decide_unpack _)).
    cbn [lookup list_lookup]. rewrite get_offer_eq.
    destruct (rq_views w'.1); cbn [take_text snd]; rewrite Hroom; cbn;
      by destruct (from_utf8_lossy o).
  - intros a Ha Hne. rewrite run_room_call by (done || by apply (bool_decide_unpack _)).
    cbn [lookup list_lookup]. rewrite get_answer_eq. unfold room_after in Hroom. rewrite Ha in Hroom.
    destruct (rq_views w'.1); cbn [take_text snd]; rewrite Hroom; cbn; by destruct a.
  - intros offerer. rewrite run_room_call by (done || by destruct offerer; apply (bool_decide_unpack _)).
    cbn [lookup list_lookup]. erewrite get_ice_eq by exact Hroom. by destruct offerer.
Qed.

(** error responses.  The gateway answers 503 exactly when an RPC or an SDP offer comes
    and it has no node; 400 exactly when an RPC is not a Molia datagram, an offer is not
    UTF-8, or the ICE engine refuses it; otherwise 200, 204 or 404.  No error response
    changes a room, with one exception: a candidate posted for an unknown side creates an
    empty room where there was none. *)
Theorem route_errors `{Json} (HTML : bytes) (accept_offer : bytes → SocketAddr → bytes + bytes)
    (rooms : Rooms) (c : Call) :
  let '(rooms', (status, _, payload)) := run_call HTML accept_offer rooms c in
  let rpc := c_method c = bstr "POST" ∧ c_path c = bstr "/rpc" in
  let sdp := c_method c = bstr "POST" ∧ c_path c = bstr "/rtc/offer" in
  status ∈ [200; 204; 400; 404; 503]%Z ∧
  (status = 503%Z ↔ (rpc ∨ sdp) ∧ c_node c = None) ∧
  (status = 400%Z ↔ ∃ dest, c_node c = Some dest ∧
     (rpc ∧ Header_decode (c_body c) = None ∨
      sdp ∧ (utf8_valid (c_body c) = false ∨
             utf8_valid (c_body c) = true ∧ ∃ e, accept_offer (offer_sdp (c_body c)) dest = inr e))) ∧
  ((400 ≤ status)%Z → rooms' = rooms ∨
     ∃ name, path_room (c_path c) = Some name ∧ c_method c = bstr "POST" ∧
       rooms !! name = None ∧ rooms' = <[name := Room_default]> rooms).
Proof.
  destruct (run_call HTML accept_offer rooms c) as [rooms' [[status ctype] payload]] eqn:Hrun.
  intros rpc sdp. unfold run_call, route in Hrun.
  assert (Hps : bstr "/rpc" ≠ bstr "/rtc/offer") by (apply (bool_decide_unpack _); by vm_compute).
  assert (Hgp : bstr "GET" ≠ bstr "POST") by (apply (bool_decide_unpack _); by vm_compute).
  destruct (_ && _) eqn:Eg.
  { simplify_eq. apply andb_true_iff in Eg as [Eg _]. apply bool_decide_eq_true_1 in Eg.
    assert (¬ rpc ∧ ¬ sdp) as [] by (unfold rpc, sdp; split; intros []; congruence).
    split_and!; [set_solver|naive_solver lia..]. }
  clear Eg. destruct (bool_decide _) eqn:Er in Hrun.
  { apply bool_decide_eq_true_1 in Er. fold rpc in Er.
    assert (¬ sdp) by (unfold sdp; destruct Er; intros []; congruence).
    destruct (c_node c) as [dest|]; [|simplify_eq; split_and!; [set_solver|naive_solver lia..]].
    unfold accept_rpc in Hrun. destruct (Header_decode (c_body c)) as [h|] eqn:Eh.
    - rewrite bool_decide_eq_true_2 in Hrun by eauto. cbn [negb] in Hrun.
      destruct (accept_rpc_to_node _ _); simplify_eq;
        (split_and!; [set_solver|naive_solver lia..]).
    - rewrite bool_decide_eq_false_2 in Hrun by (intros []; done). cbn [negb] in Hrun.
      simplify_eq. split_and!; [set_solver|naive_solver lia..]. }
  apply bool_decide_eq_false_1 in Er. fold rpc in Er. destruct (bool_decide _) eqn:Es in Hrun.
  { apply bool_decide_eq_true_1 in Es. fold sdp in Es.
    destruct (c_node c) as [dest|]; [|simplify_eq; split_and!; [set_solver|naive_solver lia..]].
    unfold from_utf8 in Hrun. destruct (utf8_valid (c_body c)) eqn:Eu.
    - destruct (accept_offer _ dest) as [sdp'|e] eqn:Ea; injection Hrun as <- <- _ <-; split_and!.
      + set_solver.
      + split; [lia|]. by intros [_ [=]].
      + split; [lia|]. intros (d & [= <-] & [[? _]|[_ [?|[_ [e He]]]]]); congruence.
      + lia.
      + set_solver.
      + split; [lia|]. by intros [_ [=]].
      + split; [|done]. intros _. exists dest. split; [done|]. right. split; [done|]. right. by eauto.
      + by left.
    - injection Hrun as <- <- _ <-. split_and!.
      + set_solver.
      + split; [lia|]. by intros [_ [=]].
      + split; [|done]. intros _. exists dest. split; [done|]. right. split; [done|]. by left.
      + by left. }
  apply bool_decide_eq_false_1 in Es. fold sdp in Es.
  assert (status ∈ [200; 204; 404]%Z ∧ (rooms' = rooms ∨ (status = 204%Z) ∨
     ∃ name, path_room (c_path c) = Some name ∧ c_method c = bstr "POST" ∧
       rooms !! name = None ∧ rooms' = <[name := Room_default]> rooms)) as [Hst Hrooms].
  { unfold path_room. unfold not_found in Hrun. destruct (split_char _ _) as [|rm [|name rest]];
      [simplify_eq; split; [set_solver|by left]..|].
    destruct (bool_decide (rm = _)); [|simplify_eq; split; [set_solver|by left]].
    apply room_request_status in Hrun as [? Hrooms]. split; [done|].
    destruct Hrooms as [->|[->|(? & ? & ->)]]; [by left|right; by left|]. do 2 right. by exists name. }
  assert (status ≠ 503 ∧ status ≠ 400)%Z as [] by set_solver.
  split_and!; [set_solver|naive_solver|naive_solver|].
  intros Hle. destruct Hrooms as [|[->|]]; [by left|lia|by right].
Qed.

(** A datagram as the buffer holds it answers the request with correlation number [c]. *)
Definition answers_to (c : Z) (d : bytes) : bool :=
  match Header_decode (take RPC_BUF d) with Some h => (h_correlation h =? c)%Z | None => false end.

Definition passed_over (c : Z) (e : RecvEvent) : Prop :=
  e = WouldBlock ∨ ∃ d, e = Got d ∧ answers_to c d = false.

Lemma await_reply_got c d evs :
  await_reply c (Got d :: evs) = if answers_to c d then Some (take RPC_BUF d) else await_reply c evs.
Proof. unfold answers_to. cbn [await_reply]. by destruct (Header_decode _). Qed.

Lemma await_reply_Some c evs reply :
  await_reply c evs = Some reply ↔
  ∃ pre d post, evs = pre ++ Got d :: post ∧ Forall (passed_over c) pre ∧
    answers_to c d = true ∧ reply = take RPC_BUF d.
Proof.
  split.
  - induction evs as [|e evs IH]; [done|]. destruct e as [d| | |]; [|done| |done].
    + rewrite await_reply_got. destruct (answers_to c d) eqn:E.
      * intros [= <-]. exists [], d, evs. by split_and!.
      * intros (pre & d' & post & -> & Hp & Ha & ->)%IH. exists (Got d :: pre), d', post.
        split_and!; [done| |done..]. constructor; [right; eauto|done].
    + intros (pre & d' & post & -> & Hp & Ha & ->)%IH. exists (WouldBlock :: pre), d', post.
      split_and!; [done| |done..]. constructor; [by left|done].
  - intros (pre & d & post & -> & Hp & Ha & ->).
    induction Hp as [|e pre [->|(d' & -> & Hd)] _ IH]; cbn [app].
    + by rewrite await_reply_got, Ha.
    + exact IH.
    + by rewrite await_reply_got, Hd.
Qed.

(** an RPC over a fresh socket returns a datagram exactly when the request is a Molia
    datagram, the socket could be set up and written, and one of the datagrams received
    before the deadline or an error answers it; the first such datagram is returned, cut to
    the 2048 bytes of the buffer. *)
Theorem rpc_reply_correct (sock : RpcSocket) (datagram reply : bytes) :
  accept_rpc_to_node sock datagram = Some reply ↔
  ∃ h pre d post,
    Header_decode datagram = Some h ∧
    rs_bind sock = true ∧ rs_timeout sock = true ∧ rs_send sock = true ∧
    rs_events sock = pre ++ Got d :: post ∧ Forall (passed_over (h_correlation h)) pre ∧
    answers_to (h_correlation h) d = true ∧ reply = take RPC_BUF d.
Proof.
  unfold accept_rpc_to_node, accept_rpc.
  destruct (Header_decode datagram) as [h|] eqn:Eh; [|split; [done|by intros (? & ? & ? & ? & ? & _)]].
  rewrite bool_decide_eq_true_2 by eauto. cbn [negb mbind option_bind].
  destruct (rs_bind sock && rs_timeout sock && rs_send sock) eqn:E.
  - rewrite await_reply_Some. apply andb_true_iff in E as [[? ?]%andb_true_iff ?].
    split; [naive_solver|]. intros (h' & pre & d & post & [= <-] & _ & _ & _ & ? & ? & ? & ?).
    by exists pre, d, post.
  - split; [done|]. intros (h' & pre & d & post & _ & Hb & Ht & Hs & _).
    by rewrite Hb, Ht, Hs in E.
Qed.

(** ** Evaluation *)

#[local] Instance no_json : Json := {|
  Value := unit; json_from_str _ := None; json_get _ _ := None; json_as_str _ := None |}.

Definition sample_request : HttpRequest := {|
  hr_method := bstr "POST"; hr_path := bstr "/rpc";
  hr_before := [(bstr "Host", bstr " localhost")];
  hr_length := bstr "content-Length"; hr_after := [(bstr "Connection", bstr " close")];
  hr_body := bstr "not a datagram" |}.

Definition sample_world : Request := mkRequest [] (mkRpcSocket true true true []).

Definition refuse (_ : bytes) (_ : SocketAddr) : bytes + bytes := inr (bstr "sdp offer").

Definition sample_chunks : list bytes :=
  let t := request_text sample_request in [take 7 t; take 60 (drop 7 t); drop 67 t].

Lemma gateway_roundtrip_witness :
  let node := Some (AddrV4 (arr_repeat (z2b 127) 4) 4001) in
  route [] refuse sample_world (bstr "POST") (bstr "/rpc") (bstr "not a datagram") ∅ node =
    (∅, (400%Z, "text/plain"%string, bstr "bad rpc")) ∧
  let '(rooms', (status, ctype, payload)) :=
    route [] refuse sample_world (bstr "POST") (bstr "/rpc") (bstr "not a datagram") ∅ node in
  let text := resp_head status ctype (length payload) ++ payload in
  length text ≤ 4096 →
  ∃ t', handle_http [] refuse sample_world node ∅
      (mkTcpStream ((Data <$> sample_chunks) ++ []) [] 4096) = (rooms', t', Ok tt) ∧
    t_out t' = text ∧
    (CR ∉ bstr ctype → (0 ≤ status)%Z →
     ∃ i, find_double_crlf text = Some i ∧ drop (i + 4) text = payload).
Proof.
  intros node. split; [by vm_compute|].
  apply (gateway_roundtrip [] refuse sample_request sample_chunks [] [] sample_world node ∅ 4096).
  - apply (bool_decide_unpack _). vm_compute. exact I.
  - apply (bool_decide_unpack _). vm_compute. exact I.
  - apply (bool_decide_unpack _). vm_compute. exact I.
  - vm_compute. reflexivity.
Defined.

Definition sample_acts : list Act :=
  let w := (sample_world, None) in
  [PostIce w true (bstr "candidate:1"); Elsewhere (mkCall sample_world (bstr "DELETE") (bstr "/room/b") [] None);
   PutAnswer w (bstr "v=0 answer"); PostIce w false (bstr "candidate:2"); PostIce w true (bstr "candidate:3")].

Lemma room_exchange_witness :
  let w := (sample_world, None) in
  let start := (run_call [] refuse ∅ (room_call w "PUT" (bstr "a") [bstr "offer"] (bstr "v=0"))).1 in
  let look := look_at [] refuse (run_acts [] refuse (bstr "a") start sample_acts) w (bstr "a") in
  (from_utf8_lossy (bstr "v=0") ≠ [] →
     look [bstr "offer"] = (200%Z, text_plain, from_utf8_lossy (bstr "v=0"))) ∧
  (∀ a, last (answers sample_acts) = Some a → a ≠ [] → look [bstr "answer"] = (200%Z, text_plain, a)) ∧
  (∀ offerer : bool, look [bstr "ice"; side_name offerer] =
     (200%Z, text_plain, join [LF] (ice_lines offerer sample_acts))).
Proof.
  intros w. apply (room_exchange [] refuse (bstr "a") (bstr "v=0") w w sample_acts ∅).
  - apply (bool_decide_unpack _). vm_compute. exact I.
  - repeat constructor. apply (bool_decide_unpack _). vm_compute. exact I.
Defined.
