(* ===== verification/WebServe.v ===== *)
(** * The gateway's threads ([serve_listener], [spawn_gateway], [take_text] of [src/webrtc.rs])

    The listener accepts connections and gives each a thread; the threads share the rooms
    under one lock.  Here they run interleaved: a thread reads its request, takes the lock
    once (or, waiting for a text, once per look), and writes its response.  Every such
    execution is one of the sequential model of [Webrtc.v]: the requests take effect one at
    a time, in the order in which the threads first took the lock. *)

From S2P Require Import Prelude Bytes Types Proto Codec Net Text Webrtc.

(** ** The server *)

(** Where the thread of a connection is: before its request is read; before it takes the
    lock; between two looks for a text; before it writes; at its end. *)
Inductive ConnPhase :=
  | Reading (t : TcpStream)
  | Routing (method path body : bytes) (t : TcpStream)
  | Waiting (name : bytes) (f : Room → bytes) (t : TcpStream)
  | Writing (r : Resp) (t : TcpStream)
  | Finished (t : TcpStream) (r : result unit).

(** [sv_order] is a history variable: the threads in the order they got past the lock or,
    when they have no use for it, past reading. *)
Record Server := mkServer {
  sv_rooms : Rooms;
  sv_conns : list ConnPhase;
  sv_order : list nat;
}.

Definition Server_new : Server := mkServer ∅ [] [].

(** [listener.incoming()] yields a stream or an error; a thread goes on to its next point,
    with the socket an RPC of its own would use, and [late] when a wait has reached its
    deadline. *)
Inductive ServerEvent :=
  | Incoming (s : option TcpStream)
  | Resume (i : nat) (sock : RpcSocket) (late : bool).

(** The requests [route] hands to [take_text]. *)
Definition awaited (method path : bytes) : option (bytes * (Room → bytes)) :=
  match split_char (z2b 47) (trim_start_matches (z2b 47) path) with
  | room :: name :: rest =>
      if bool_decide (room = bstr "room") && bool_decide (method = bstr "GET") && bool_decide (rest !! 1 = None)
      then
        if bool_decide (rest !! 0 = Some (bstr "offer")) then Some (name, offer)
        else if bool_decide (rest !! 0 = Some (bstr "answer")) then Some (name, answer)
        else None
      else None
  | _ => None
  end.

Section server.
Context `{Json}.
Context (HTML : bytes) (accept_offer : bytes → SocketAddr → bytes + bytes) (node : option SocketAddr).

(** One turn of the loop of [take_text]. *)
Definition look (rooms : Rooms) (late : bool) (name : bytes) (f : Room → bytes) (t : TcpStream) : ConnPhase :=
  match f <$> rooms !! name with
  | Some (c :: s) => Writing (200%Z, "text/plain; charset=utf-8"%string, c :: s) t
  | _ => if late then Writing no_content t else Waiting name f t
  end.

(** A thread up to its next point: the rooms, where it is then, and whether it is past the
    lock. *)
Definition resume (sock : RpcSocket) (late : bool) (rooms : Rooms) (c : ConnPhase) : Rooms * ConnPhase * bool :=
  match c with
  | Reading t =>
      let '(t, r) := read_request t in
      match r with
      | Err e => (rooms, Finished t (Err e), true)
      | Ok (method, path, body) =>
          if bool_decide (method = bstr "OPTIONS") then (rooms, Writing no_content t, true)
          else (rooms, Routing method path body t, false)
      end
  | Routing method path body t =>
      match awaited method path with
      | Some (name, f) => (rooms, look rooms late name f t, true)
      | None =>
          let '(rooms, r) := route HTML accept_offer (mkRequest [] sock) method path body rooms node in
          (rooms, Writing r t, true)
      end
  | Waiting name f t => (rooms, look rooms late name f t, false)
  | Writing (status, ctype, payload) t =>
      let '(t, r) := write_resp t status ctype payload in (rooms, Finished t r, false)
  | Finished t r => (rooms, Finished t r, false)
  end.

(** [serve_listener]: an error to accept is logged, a stream gets a thread. *)
Definition server_event (s : Server) (ev : ServerEvent) : Server :=
  match ev with
  | Incoming None => s
  | Incoming (Some t) => mkServer (sv_rooms s) (sv_conns s ++ [Reading t]) (sv_order s)
  | Resume i sock late =>
      match sv_conns s !! i with
      | None => s
      | Some c =>
          let '(rooms, c, past) := resume sock late (sv_rooms s) c in
          mkServer rooms (<[i := c]> (sv_conns s)) (if past then sv_order s ++ [i] else sv_order s)
      end
  end.

Definition serve_listener (s : Server) (evs : list ServerEvent) : Server := foldl server_event s evs.

(** [spawn_gateway] and [serve_gateway]: [bound] is the address the listener got, or the
    error; [threads] whether the thread could be started.  The handle is that address with
    the server behind it. *)
Definition spawn_gateway (bound : result SocketAddr) (threads : result unit) : result (SocketAddr * Server) :=
  match bound with
  | Err e => Err e
  | Ok local => match threads with Err e => Err e | Ok _ => Ok (local, Server_new) end
  end.

Definition serve_gateway (bound : result SocketAddr) (evs : list ServerEvent) : result (SocketAddr * Server) :=
  match bound with
  | Err e => Err e
  | Ok local => Ok (local, serve_listener Server_new evs)
  end.

(** ** The sequential model *)

Notation handle := (handle_http HTML accept_offer).

Definition accepted (evs : list ServerEvent) : list TcpStream :=
  omap (λ ev, match ev with Incoming s => s | _ => None end) evs.

Definition idle_request : Request := mkRequest [] (mkRpcSocket false false false []).

(** What connection [i] meets in a run beside the rooms of its place in the order: the
    socket its thread has for an RPC when it takes the lock, and the rooms at each later look
    of a wait. *)
Definition observe (i : nat) (s : Server) (ev : ServerEvent) (rq : Request) : Request :=
  match ev with
  | Resume j sock _ =>
      if j =? i then
        match sv_conns s !! i with
        | Some (Routing _ _ _ _) => mkRequest (rq_views rq) sock
        | Some (Waiting _ _ _) => mkRequest (rq_views rq ++ [sv_rooms s]) (rq_sock rq)
        | _ => rq
        end
      else rq
  | Incoming _ => rq
  end.

Fixpoint observed (i : nat) (evs : list ServerEvent) (s : Server) (rq : Request) : Request :=
  match evs with
  | [] => rq
  | ev :: evs => observed i evs (server_event s ev) (observe i s ev rq)
  end.

(** In a run from the beginning. *)
Definition met (i : nat) (evs : list ServerEvent) : Request := observed i evs Server_new idle_request.

(** The rooms after the connections of [order], one after the other. *)
Definition replay_rooms (ts : list TcpStream) (order : list nat) : Rooms :=
  foldl (λ rooms i, match ts !! i with Some t => (handle idle_request node rooms t).1.1 | None => rooms end) ∅ order.

(** ** What a response depends on *)

(** What a request does to the rooms does not depend on its later looks or its socket. *)
Lemma route_rooms rq rq' m p b rooms :
  (route HTML accept_offer rq m p b rooms node).1 = (route HTML accept_offer rq' m p b rooms node).1.
Proof.
  unfold route. destruct (_ && _); [done|]. do 2 (destruct (bool_decide _); [done|]).
  destruct (split_char _ _) as [|? [|? ?]]; [done..|]. destruct (bool_decide _); [|done].
  unfold room_request. by repeat (destruct (bool_decide _); [done|]).
Qed.

Lemma handle_rooms rq rq' rooms t : (handle rq node rooms t).1.1 = (handle rq' node rooms t).1.1.
Proof.
  unfold handle_http. destruct (read_request t) as [t' [[[m p] b]|e]]; [|done].
  destruct (bool_decide _); [done|]. pose proof (route_rooms rq rq' m p b rooms) as Hr.
  destruct (route _ _ rq _ _ _ _ _) as [r1 [[st ct] pl]], (route _ _ rq' _ _ _ _ _) as [r2 [[st' ct'] pl']].
  cbn in Hr. subst. by destruct (write_resp t' st ct pl), (write_resp t' st' ct' pl').
Qed.

Lemma route_awaited rq m p b rooms name f :
  awaited m p = Some (name, f) →
  route HTML accept_offer rq m p b rooms node = (rooms, take_text rooms (rq_views rq) name f).
Proof.
  unfold awaited, route. intros Ha.
  destruct (split_char _ _) as [|room [|nm rest]] eqn:Ep; [done..|].
  destruct (bool_decide (room = bstr "room")) eqn:Er; [|done].
  destruct (bool_decide (m = bstr "GET")) eqn:Em; [|done]. destruct (bool_decide (rest !! 1 = None)) eqn:E1; [|done].
  cbn [andb] in *. bool_to_prop. subst.
  rewrite (bool_decide_eq_false_2 (p = _ ∨ _)).
  2: { intros [-> | ->]; vm_compute in Ep; discriminate Ep. }
  rewrite !(bool_decide_eq_false_2 (bstr "GET" = bstr "POST" ∧ _)) by (by intros [E _]; vm_compute in E).
  unfold room_request.
  rewrite (bool_decide_eq_false_2 (bstr "GET" = bstr "DELETE" ∧ _)) by (by intros [E _]; vm_compute in E).
  rewrite !(bool_decide_eq_false_2 (bstr "GET" = bstr "PUT" ∧ _)) by (by intros [E _]; vm_compute in E).
  destruct (bool_decide (rest !! 0 = Some (bstr "offer"))) eqn:E0; bool_to_prop.
  - injection Ha as <- <-. rewrite E0. by rewrite bool_decide_eq_true_2.
  - rewrite (bool_decide_eq_false_2 (_ ∧ rest !! 0 = Some (bstr "offer") ∧ _)) by naive_solver.
    destruct (bool_decide (rest !! 0 = Some (bstr "answer"))) eqn:E0'; [|done]. bool_to_prop.
    injection Ha as <- <-. rewrite E0'. by rewrite bool_decide_eq_true_2.
Qed.

Definition nothing (name : bytes) (f : Room → bytes) (rooms : Rooms) : Prop :=
  match f <$> rooms !! name with Some (_ :: _) => False | _ => True end.

Lemma take_text_nothing rooms views name f :
  nothing name f rooms → Forall (nothing name f) views → take_text rooms views name f = no_content.
Proof.
  intros Hr Hv. revert rooms Hr. induction Hv as [|v views Hv _ IH]; intros rooms Hr; cbn [take_text];
    unfold nothing in Hr; destruct (f <$> _) as [[|]|]; try done; by apply IH.
Qed.

(** The thread that looks again sees what the sequential model sees with one look more. *)
Lemma take_text_snoc rooms views v name f :
  nothing name f rooms → Forall (nothing name f) views →
  take_text rooms (views ++ [v]) name f =
  match f <$> v !! name with
  | Some (c :: s) => (200%Z, "text/plain; charset=utf-8"%string, c :: s)
  | _ => no_content
  end.
Proof.
  intros Hr Hv. revert rooms Hr. induction Hv as [|v' views Hv' _ IH]; intros rooms Hr; cbn [app take_text];
    unfold nothing in Hr; destruct (f <$> rooms !! name) as [[|]|]; try done; by apply IH.
Qed.

(** What the thread of a connection does once its request is read. *)
Lemma handle_read rq rooms t0 t m p b :
  read_request t0 = (t, Ok (m, p, b)) → m ≠ bstr "OPTIONS" →
  handle rq node rooms t0 =
  let '(rooms, (status, ctype, payload)) := route HTML accept_offer rq m p b rooms node in
  let '(t, r) := write_resp t status ctype payload in (rooms, t, r).
Proof. intros Hr Hm. unfold handle_http. rewrite Hr. by rewrite bool_decide_eq_false_2. Qed.

(** ** The invariant *)

Definition written (r : Resp) (t : TcpStream) : TcpStream * result unit :=
  let '(status, ctype, payload) := r in write_resp t status ctype payload.

(** Connection [i], in its place of the order and meeting [rq], ends with [out] in the
    sequential model. *)
Definition ends_with (ts : list TcpStream) (order : list nat) (rq : Request) (i : nat)
    (out : TcpStream * result unit) : Prop :=
  ∃ t0 pre post, ts !! i = Some t0 ∧ order = pre ++ i :: post ∧
    let '(_, t, r) := handle rq node (replay_rooms ts pre) t0 in (t, r) = out.

(** Request [m p b] of connection [i] is read, and [t] is what is left of the stream. *)
Definition has_read (ts : list TcpStream) (i : nat) (m p b : bytes) (t : TcpStream) : Prop :=
  ∃ t0, ts !! i = Some t0 ∧ read_request t0 = (t, Ok (m, p, b)) ∧ m ≠ bstr "OPTIONS".

Definition conn_ok (ts : list TcpStream) (order : list nat) (rq : Request) (i : nat) (c : ConnPhase) : Prop :=
  match c with
  | Reading t => ts !! i = Some t ∧ i ∉ order ∧ rq = idle_request
  | Routing m p b t => has_read ts i m p b t ∧ i ∉ order ∧ rq = idle_request
  | Waiting name f t => ∃ m p b pre post, has_read ts i m p b t ∧ awaited m p = Some (name, f) ∧
      order = pre ++ i :: post ∧ nothing name f (replay_rooms ts pre) ∧ Forall (nothing name f) (rq_views rq)
  | Writing r t => ends_with ts order rq i (written r t)
  | Finished t r => ends_with ts order rq i (t, r)
  end.

(** The rooms of a later look are those of a place in the order behind that of the look. *)
Definition views_ok (ts : list TcpStream) (order : list nat) (rq : Request) (i : nat) : Prop :=
  ∀ v, v ∈ rq_views rq → ∃ k, k `prefix_of` order ∧ i ∈ k ∧ v = replay_rooms ts k.

Record server_ok (ts : list TcpStream) (rqs : nat → Request) (s : Server) : Prop := {
  so_rooms : sv_rooms s = replay_rooms ts (sv_order s);
  so_length : length (sv_conns s) = length ts;
  so_order : Forall (λ i, i < length ts) (sv_order s);
  so_nodup : NoDup (sv_order s);
  so_conns : ∀ i c, sv_conns s !! i = Some c → conn_ok ts (sv_order s) (rqs i) i c;
  so_views : ∀ i, views_ok ts (sv_order s) (rqs i) i;
  so_fresh : ∀ i, length ts ≤ i → rqs i = idle_request;
}.

Lemma replay_rooms_more ts t order :
  Forall (λ i, i < length ts) order → replay_rooms (ts ++ [t]) order = replay_rooms ts order.
Proof.
  intros Ho. unfold replay_rooms. generalize (∅ : Rooms) as r. induction Ho as [|i order Hi _ IH]; intros r; [done|].
  cbn [foldl]. rewrite lookup_app_l by done. by apply IH.
Qed.

Lemma replay_rooms_snoc ts order i t0 :
  ts !! i = Some t0 → replay_rooms ts (order ++ [i]) = (handle idle_request node (replay_rooms ts order) t0).1.1.
Proof. intros Hi. unfold replay_rooms. rewrite foldl_app. cbn [foldl]. by rewrite Hi. Qed.

(** What is known of a connection stays known when others get on. *)
Lemma conn_ok_more ts order order' rq i c t :
  Forall (λ i, i < length ts) order → i ∉ order' → conn_ok ts order rq i c →
  conn_ok (ts ++ [t]) order rq i c ∧ conn_ok ts (order ++ order') rq i c.
Proof.
  intros Ho Hi Hc.
  assert (Hpre : ∀ pre post, order = pre ++ i :: post → replay_rooms (ts ++ [t]) pre = replay_rooms ts pre).
  { intros pre post ->. apply Forall_app in Ho as [Ho _]. by apply replay_rooms_more. }
  assert (Hends : ∀ out, ends_with ts order rq i out →
            ends_with (ts ++ [t]) order rq i out ∧ ends_with ts (order ++ order') rq i out).
  { intros out (t0 & pre & post & Ht & Heq & Hh). split; exists t0, pre.
    - exists post. rewrite (Hpre pre post Heq). by rewrite lookup_app_l by (by eapply lookup_lt_Some).
    - exists (post ++ order'). rewrite Heq. by rewrite <-(assoc_L (++)). }
  assert (Hread : ∀ m p b t', has_read ts i m p b t' → has_read (ts ++ [t]) i m p b t').
  { intros m p b t' (t0 & Ht & Hr). exists t0. by rewrite lookup_app_l by (by eapply lookup_lt_Some). }
  destruct c as [t'|m p b t'|name f t'|r t'|t' r]; cbn [conn_ok] in *; [| | |by apply Hends..].
  - destruct Hc as [Ht Hno]. rewrite lookup_app_l by (by eapply lookup_lt_Some). rewrite not_elem_of_app. naive_solver.
  - destruct Hc as [Hr Hno]. rewrite not_elem_of_app. naive_solver.
  - destruct Hc as (m & p & b & pre & post & Hr & Ha & Heq & Hn & Hv).
    split; exists m, p, b, pre; [exists post|exists (post ++ order')].
    + rewrite (Hpre pre post Heq). auto 7.
    + split_and!; [done..| |done|done]. by rewrite Heq, <-(assoc_L (++)).
Qed.

Lemma views_ok_more ts order order' rq i t :
  Forall (λ i, i < length ts) order → views_ok ts order rq i →
  views_ok (ts ++ [t]) order rq i ∧ views_ok ts (order ++ order') rq i.
Proof.
  intros Ho Hv. split; intros v (k & Hk & Hi & ->)%Hv; exists k.
  - split_and!; [done..|]. symmetry. apply replay_rooms_more. destruct Hk as [post ->].
    by apply Forall_app in Ho as [? _].
  - split_and!; [|done..]. etrans; [done|by eexists].
Qed.

(** One thread gets on; [past] says whether it joins the order. *)
Lemma advance_ok ts rqs rqs' s i c rooms (past : bool) :
  server_ok ts rqs s → i < length ts →
  let order := if past then sv_order s ++ [i] else sv_order s in
  conn_ok ts order (rqs' i) i c → views_ok ts order (rqs' i) i → (∀ j, j ≠ i → rqs' j = rqs j) →
  (if past then i ∉ sv_order s ∧ rooms = replay_rooms ts order else rooms = sv_rooms s) →
  server_ok ts rqs' (mkServer rooms (<[i := c]> (sv_conns s)) order).
Proof.
  intros [Hr Hl Ho Hn Hc Hv Hf] Hi order Hc' Hv' Hrq Hp.
  assert (Hothers : ∀ j cj, (<[i := c]> (sv_conns s)) !! j = Some cj →
    j = i ∧ cj = c ∨ j ≠ i ∧ sv_conns s !! j = Some cj).
  { intros j cj [(<- & <- & _)|(Hne & Hj)]%list_lookup_insert_Some; auto. }
  assert (Hall : ∀ j, views_ok ts order (rqs' j) j).
  { intros j. destruct (decide (j = i)) as [->|Hne]; [done|]. rewrite Hrq by done. unfold order.
    destruct past; [|done]. exact (proj2 (views_ok_more ts _ [i] _ _ (mkTcpStream [] [] 0) Ho (Hv j))). }
  assert (Hfr : ∀ j, length ts ≤ j → rqs' j = idle_request).
  { intros j Hj. rewrite Hrq by lia. by apply Hf. }
  destruct past; split; cbn [sv_rooms sv_conns sv_order]; rewrite ?length_insert; try done.
  - apply Hp.
  - apply Forall_app. by split; [|constructor].
  - apply NoDup_app. split_and!; [done| |apply NoDup_singleton].
    intros j Hj ->%list_elem_of_singleton. by apply Hp in Hj.
  - intros j cj [[-> ->]|[Hne Hj]]%Hothers; [done|]. rewrite Hrq by done.
    refine (proj2 (conn_ok_more ts (sv_order s) [i] _ j cj (mkTcpStream [] [] 0) Ho _ (Hc j cj Hj))).
    by rewrite list_elem_of_singleton.
  - by rewrite Hp.
  - intros j cj [[-> ->]|[Hne Hj]]%Hothers; [done|]. rewrite Hrq by done. by apply Hc.
Qed.

(** A thread whose request has taken effect has its answer. *)
Lemma routed_ends ts order i m p b t rq :
  has_read ts i m p b t → ends_with ts (order ++ [i]) rq i
    (written (route HTML accept_offer rq m p b (replay_rooms ts order) node).2 t).
Proof.
  intros (t0 & Ht & Hr & Hm). exists t0, order, []. split_and!; [done..|].
  rewrite (handle_read _ _ _ _ _ _ _ Hr Hm). destruct (route _ _ _ _ _ _ _ _) as [rooms [[st ct] pl]].
  cbn. by destruct (write_resp t st ct pl).
Qed.

Lemma routed_rooms ts order i m p b t rq :
  has_read ts i m p b t → replay_rooms ts (order ++ [i]) =
    (route HTML accept_offer rq m p b (replay_rooms ts order) node).1.
Proof.
  intros (t0 & Ht & Hr & Hm). rewrite (replay_rooms_snoc ts order i t0 Ht), (handle_rooms _ rq).
  rewrite (handle_read _ _ _ _ _ _ _ Hr Hm). destruct (route _ _ _ _ _ _ _ _) as [rooms [[st ct] pl]].
  by destruct (write_resp t st ct pl).
Qed.

Lemma look_cases rooms late name f t :
  (look rooms late name f t = Waiting name f t ∧ nothing name f rooms) ∨
  look rooms late name f t = Writing (take_text rooms [] name f) t.
Proof.
  unfold look, nothing. cbn [take_text]. destruct (f <$> rooms !! name) as [[|c l]|]; destruct late; auto.
Qed.

(** What the thread of [i] meets when it gets on. *)
Lemma observe_others i j s sock late rq : j ≠ i → observe j s (Resume i sock late) rq = rq.
Proof. intros Hne. cbn. by rewrite (proj2 (Nat.eqb_neq i j)). Qed.

Lemma observe_self i s sock late rq c :
  sv_conns s !! i = Some c → observe i s (Resume i sock late) rq =
  match c with
  | Routing _ _ _ _ => mkRequest (rq_views rq) sock
  | Waiting _ _ _ => mkRequest (rq_views rq ++ [sv_rooms s]) (rq_sock rq)
  | _ => rq
  end.
Proof. intros Hi. cbn. by rewrite Nat.eqb_refl, Hi. Qed.

(** An answer of the sequential model that does not depend on what is met. *)
Lemma handle_ends ts order rq i t0 out :
  ts !! i = Some t0 →
  (let '(_, t, r) := handle rq node (replay_rooms ts order) t0 in (t, r) = out) →
  ends_with ts (order ++ [i]) rq i out.
Proof. intros Ht Hh. by exists t0, order, []. Qed.

(** A thread that has read its request. *)
Lemma step_reading ts order rq i t rooms sock late rooms' c' past :
  ts !! i = Some t → i ∉ order → rq = idle_request → rooms = replay_rooms ts order →
  resume sock late rooms (Reading t) = (rooms', c', past) →
  let order' := if past then order ++ [i] else order in
  conn_ok ts order' rq i c' ∧
  (if past then i ∉ order ∧ rooms' = replay_rooms ts order' else rooms' = rooms).
Proof.
  intros Ht Hno Hrq ->. cbn [resume]. destruct (read_request t) as [t' [[[m p] b]|e]] eqn:Er.
  - destruct (bool_decide (m = bstr "OPTIONS")) eqn:Em; intros [= <- <- <-]; bool_to_prop.
    + split; [|split; [done|]].
      * apply (handle_ends _ _ _ _ t); [done|]. unfold handle_http.
        rewrite Er. rewrite bool_decide_eq_true_2 by done. cbn. by destruct (write_resp _ _ _ _).
      * rewrite (replay_rooms_snoc ts _ i t Ht). unfold handle_http. rewrite Er.
        rewrite bool_decide_eq_true_2 by done. by destruct (write_resp _ _ _ _).
    + split; [|done]. split_and!; [|done..]. by exists t.
  - intros [= <- <- <-]. split; [|split; [done|]].
    + apply (handle_ends _ _ _ _ t); [done|]. unfold handle_http. by rewrite Er.
    + rewrite (replay_rooms_snoc ts _ i t Ht). unfold handle_http. by rewrite Er.
Qed.

(** A thread that takes the lock. *)
Lemma step_routing ts order i m p b t rooms sock late rooms' c' past :
  has_read ts i m p b t → i ∉ order → rooms = replay_rooms ts order →
  resume sock late rooms (Routing m p b t) = (rooms', c', past) →
  past = true ∧ conn_ok ts (order ++ [i]) (mkRequest [] sock) i c' ∧ rooms' = replay_rooms ts (order ++ [i]).
Proof.
  intros Hread Hno ->. cbn [resume]. set (R := replay_rooms ts order).
  pose proof (routed_ends ts order i m p b t (mkRequest [] sock) Hread) as He.
  pose proof (routed_rooms ts order i m p b t (mkRequest [] sock) Hread) as Hr'. fold R in He, Hr'.
  destruct (awaited m p) as [[name f]|] eqn:Ea.
  - intros [= <- <- <-]. rewrite (route_awaited _ _ _ _ _ _ _ Ea) in He, Hr'. cbn [fst snd] in *.
    split_and!; [done| |done].
    destruct (look_cases R late name f t) as [[-> Hnone]| ->]; [|exact He].
    exists m, p, b, order, []. by split_and!.
  - destruct (route _ _ _ m p b R node) as [rooms1 r]. intros [= <- <- <-]. by split_and!.
Qed.

(** A thread that looks again. *)
Lemma step_waiting ts order rq i name f t rooms late :
  conn_ok ts order rq i (Waiting name f t) →
  conn_ok ts order (mkRequest (rq_views rq ++ [rooms]) (rq_sock rq)) i (look rooms late name f t).
Proof.
  intros (m & p & b & pre & post & Hread & Ha & Heq & Hnone & Hv).
  assert (Hends : ends_with ts order (mkRequest (rq_views rq ++ [rooms]) (rq_sock rq)) i
            (written (take_text (replay_rooms ts pre) (rq_views rq ++ [rooms]) name f) t)).
  { destruct Hread as (t0 & Ht & Hr & Hm). exists t0, pre, post. split_and!; [done..|].
    rewrite (handle_read _ _ _ _ _ _ _ Hr Hm), (route_awaited _ _ _ _ _ _ _ Ha). cbn [rq_views].
    destruct (take_text _ _ name f) as [[st ct] pl]. cbn. by destruct (write_resp _ _ _ _). }
  rewrite take_text_snoc in Hends by done.
  destruct (look_cases rooms late name f t) as [[-> Hn']| ->]; [|exact Hends].
  exists m, p, b, pre, post. split_and!; [done..|]. apply Forall_app. by split; [|constructor].
Qed.

Lemma resume_ok ts rqs s i c sock late :
  server_ok ts rqs s → sv_conns s !! i = Some c →
  server_ok ts (λ j, observe j s (Resume i sock late) (rqs j)) (server_event s (Resume i sock late)).
Proof.
  intros Hs Hi. pose proof (so_conns _ _ _ Hs i c Hi) as Hc. pose proof (so_rooms _ _ _ Hs) as Hrooms.
  pose proof (so_views _ _ _ Hs i) as Hv. pose proof (so_order _ _ _ Hs) as Ho.
  assert (Hlt : i < length ts) by (rewrite <-(so_length _ _ _ Hs); by eapply lookup_lt_Some).
  assert (Hviews : ∀ order', views_ok ts (sv_order s ++ order') (rqs i) i).
  { intros order'. exact (proj2 (views_ok_more ts _ order' _ _ (mkTcpStream [] [] 0) Ho Hv)). }
  cbn [server_event]. rewrite Hi. destruct (resume sock late (sv_rooms s) c) as [[rooms c'] past] eqn:E.
  assert (Hj : ∀ j, j ≠ i → observe j s (Resume i sock late) (rqs j) = rqs j) by (intros; by apply observe_others).
  apply (advance_ok ts rqs); [done|done| | |done|]; rewrite ?(observe_self i s sock late (rqs i) c Hi);
    destruct c as [t|m p b t|name f t|[[st ct] pl] t|t r].
  - destruct Hc as (Ht & Hno & Hrq). by eapply step_reading.
  - destruct Hc as (Hread & Hno & ->). by eapply step_routing in E as (-> & ? & _).
  - injection E as <- <- <-. by apply step_waiting.
  - cbn [resume] in E. destruct (write_resp t st ct pl) as [t' r] eqn:Ew. injection E as <- <- <-.
    cbn [conn_ok written] in Hc |- *. by rewrite Ew in Hc.
  - by injection E as <- <- <-.
  - destruct past; [apply Hviews|exact Hv].
  - destruct Hc as (Hread & Hno & ->). by intros v ?%not_elem_of_nil.
  - injection E as <- <- <-. intros v [Hin| ->%list_elem_of_singleton]%elem_of_app; [by apply Hv|].
    destruct Hc as (m & p & b & pre & post & _ & _ & Heq & _). exists (sv_order s). split_and!; [done| |done].
    rewrite Heq. apply elem_of_app. right. by left.
  - cbn [resume] in E. destruct (write_resp t st ct pl). by injection E as <- <- <-.
  - by injection E as <- <- <-.
  - destruct Hc as (Ht & Hno & Hrq). eapply step_reading in E as [_ E]; [exact E|done..].
  - destruct Hc as (Hread & Hno & _). by eapply step_routing in E as (-> & _ & ?).
  - by injection E as <- <- <-.
  - cbn [resume] in E. destruct (write_resp t st ct pl). by injection E as <- <- <-.
  - by injection E as <- <- <-.
Qed.

Lemma server_ok_ext ts rqs rqs' s : (∀ i, rqs' i = rqs i) → server_ok ts rqs s → server_ok ts rqs' s.
Proof.
  intros Heq [Hr Hl Ho Hn Hc Hv Hf]. split; try done; setoid_rewrite Heq; done.
Qed.

Lemma server_event_ok ts rqs s ev :
  server_ok ts rqs s →
  server_ok (ts ++ accepted [ev]) (λ i, observe i s ev (rqs i)) (server_event s ev).
Proof.
  intros Hs. destruct ev as [[t|]|i sock late]; cbn [accepted omap list_omap].
  - destruct Hs as [Hr Hl Ho Hn Hc Hv Hf].
    split; cbn [server_event observe sv_rooms sv_conns sv_order]; [|by rewrite !length_app, Hl| |done| | |].
    + by rewrite replay_rooms_more.
    + eapply Forall_impl; [exact Ho|]. intros i Hi. rewrite length_app. cbn in *. lia.
    + intros i c [Hi|[Hi Heq]]%lookup_app_Some.
      * refine (proj1 (conn_ok_more ts (sv_order s) [] _ i c t Ho _ (Hc i c Hi))). by apply not_elem_of_nil.
      * apply list_lookup_singleton_Some in Heq as [Heq <-].
        assert (i = length ts) as -> by lia. split_and!; [by rewrite lookup_app_r, Nat.sub_diag by done| |by apply Hf].
        intros Hin. rewrite Forall_forall in Ho. specialize (Ho _ Hin). lia.
    + intros i. exact (proj1 (views_ok_more ts _ [] _ _ t Ho (Hv i))).
    + intros i. rewrite length_app. intros Hi. apply Hf. lia.
  - by rewrite app_nil_r.
  - rewrite app_nil_r. destruct (sv_conns s !! i) as [c|] eqn:Hi; [by eapply resume_ok|].
    cbn [server_event]. rewrite Hi. eapply server_ok_ext; [|exact Hs].
    intros j. cbn. destruct (Nat.eqb_spec i j) as [<-|]; [by rewrite Hi|done].
Qed.

Lemma serve_ok evs ts rqs s :
  server_ok ts rqs s → server_ok (ts ++ accepted evs) (λ i, observed i evs s (rqs i)) (serve_listener s evs).
Proof.
  revert ts rqs s. induction evs as [|ev evs IH]; intros ts rqs s Hs; [by rewrite app_nil_r|].
  replace (accepted (ev :: evs)) with (accepted [ev] ++ accepted evs) by (by destruct ev as [[]|]).
  rewrite (assoc_L (++)). exact (IH _ _ _ (server_event_ok ts rqs s ev Hs)).
Qed.

Lemma order_event s ev : sv_order s `prefix_of` sv_order (server_event s ev).
Proof.
  destruct ev as [[t|]|i sock late]; cbn; [done..|]. destruct (sv_conns s !! i) as [c|]; [|done].
  destruct (resume _ _ _ c) as [[? ?] []]; cbn; [by eexists|done].
Qed.

Lemma order_grows evs s : sv_order s `prefix_of` sv_order (serve_listener s evs).
Proof.
  revert s. induction evs as [|ev evs IH]; intros s; [done|]. etrans; [apply order_event|apply IH].
Qed.

(** ** Threads finish *)

(** How often a thread past its deadlines has still to get on. *)
Definition rank (c : ConnPhase) : nat :=
  match c with
  | Reading _ => 3
  | Routing _ _ _ _ | Waiting _ _ _ => 2
  | Writing _ _ => 1
  | Finished _ _ => 0
  end.

Definition late_turn (i : nat) (ev : ServerEvent) : bool :=
  match ev with Resume j _ late => (j =? i) && late | Incoming _ => false end.

Definition late_turns (i : nat) (evs : list ServerEvent) : nat := length (filter (late_turn i) evs).

Lemma late_turns_cons i ev evs :
  late_turns i (ev :: evs) = (if late_turn i ev then 1 else 0) + late_turns i evs.
Proof. unfold late_turns. rewrite filter_cons. by destruct (late_turn i ev). Qed.

Lemma look_rank rooms late name f t : rank (look rooms late name f t) ≤ if late then 1 else 2.
Proof. unfold look. destruct (f <$> rooms !! name) as [[|]|], late; cbn; lia. Qed.

Lemma resume_rank sock late rooms c :
  rank (resume sock late rooms c).1.2 ≤ if late then rank c - 1 else rank c.
Proof.
  destruct c as [t|m p b t|name f t|[[st ct] pl] t|t r]; cbn [resume rank].
  - destruct (read_request t) as [t' [[[m p] b]|e]]; [|destruct late; cbn; lia].
    destruct (bool_decide _), late; cbn; lia.
  - destruct (awaited m p) as [[name f]|]; cbn [fst snd].
    + pose proof (look_rank rooms late name f t). destruct late; lia.
    + destruct (route _ _ _ _ _ _ _ _) as [? ?]. destruct late; cbn; lia.
  - pose proof (look_rank rooms late name f t). cbn. destruct late; lia.
  - destruct (write_resp t st ct pl). destruct late; cbn; lia.
  - destruct late; cbn; lia.
Qed.

Lemma serve_rank evs s i c :
  sv_conns s !! i = Some c →
  ∃ c', sv_conns (serve_listener s evs) !! i = Some c' ∧ rank c' ≤ rank c - late_turns i evs.
Proof.
  revert s c. induction evs as [|ev evs IH]; intros s c Hi; [exists c; split; [done|cbn; lia]|].
  assert (∃ c1, sv_conns (server_event s ev) !! i = Some c1 ∧
            rank c1 ≤ rank c - (if late_turn i ev then 1 else 0)) as (c1 & Hc1 & Hr1).
  { destruct ev as [[t|]|j sock late]; cbn [server_event sv_conns late_turn].
    - exists c. split; [by apply lookup_app_l_Some|lia].
    - exists c. split; [done|lia].
    - destruct (Nat.eqb_spec j i) as [->|Hne]; cbn [andb].
      + rewrite Hi. pose proof (resume_rank sock late (sv_rooms s) c) as Hr.
        destruct (resume sock late (sv_rooms s) c) as [[rooms c1] past]. cbn in Hr |- *.
        exists c1. split; [apply list_lookup_insert_eq; by eapply lookup_lt_Some|destruct late; lia].
      + exists c. destruct (sv_conns s !! j) as [cj|]; [|split; [done|lia]].
        destruct (resume _ _ _ cj) as [[? ?] ?]. cbn. rewrite list_lookup_insert_ne by done.
        split; [done|lia]. }
  destruct (IH _ _ Hc1) as (c' & Hc' & Hr'). exists c'. split; [exact Hc'|].
  rewrite late_turns_cons. lia.
Qed.

(** ** Theorems *)

(** C40: the gateway is linearizable.  In every interleaving of its threads the rooms are
    those the requests leave when they are handled one at a time, and every connection that
    is finished has read and written, and ended with, exactly what the sequential
    [handle_http] gives in its place, for the socket its thread had for an RPC and, when it
    waited for a text, for the rooms at its later looks; and the rooms at every such look are
    again those that the requests before it leave, one at a time.  The order agrees with
    time: it only grows, a finished connection is in it, and one not accepted yet is not. *)
Theorem gateway_linearizable (evs evs' : list ServerEvent) :
  let s := serve_listener Server_new evs in
  let s' := serve_listener Server_new (evs ++ evs') in
  let ts := accepted (evs ++ evs') in
  sv_rooms s' = replay_rooms ts (sv_order s') ∧
  NoDup (sv_order s') ∧ sv_order s `prefix_of` sv_order s' ∧
  (∀ i t r, sv_conns s' !! i = Some (Finished t r) →
     ∃ t0 pre post, ts !! i = Some t0 ∧ sv_order s' = pre ++ i :: post ∧
       let '(_, t', r') := handle (met i (evs ++ evs')) node (replay_rooms ts pre) t0 in t' = t ∧ r' = r) ∧
  (∀ i v, v ∈ rq_views (met i (evs ++ evs')) →
     ∃ k, k `prefix_of` sv_order s' ∧ i ∈ k ∧ v = replay_rooms ts k) ∧
  (∀ i t r, sv_conns s !! i = Some (Finished t r) → i ∈ sv_order s) ∧
  (∀ i, length (accepted evs) ≤ i → i ∉ sv_order s).
Proof.
  assert (H0 : server_ok [] (λ _, idle_request) Server_new).
  { split; [done|done|constructor|constructor|done| |done]. by intros i v ?%not_elem_of_nil. }
  pose proof (serve_ok evs [] _ _ H0) as Hs. pose proof (serve_ok (evs ++ evs') [] _ _ H0) as Hs'.
  intros s s' ts. fold s in Hs. fold s' ts in Hs'. cbn [app] in Hs, Hs'. destruct Hs' as [Hr _ _ Hn Hc Hv _].
  split_and!; [done|done| | |exact Hv| |].
  - unfold s'. unfold serve_listener. rewrite foldl_app. apply order_grows.
  - intros i t r Hi. apply Hc in Hi as (t0 & pre & post & Ht & Ho & Hh). exists t0, pre, post.
    split_and!; [done..|]. unfold met. destruct (handle _ _ _ _) as [[? ?] ?]. by injection Hh.
  - intros i t r Hi. apply (so_conns _ _ _ Hs) in Hi as (t0 & pre & post & _ & Ho & _).
    rewrite Ho. apply elem_of_app. right. by left.
  - intros i Hi Hin. pose proof (so_order _ _ _ Hs) as Ho. rewrite Forall_forall in Ho.
    specialize (Ho _ Hin). cbn in Ho. lia.
Qed.

(** Every accepted connection is finished once its thread has got on three times with its
    deadlines past, whatever else happens. *)
Theorem gateway_finishes (s : Server) (i : nat) (c : ConnPhase) (evs : list ServerEvent) :
  sv_conns s !! i = Some c → 3 ≤ late_turns i evs →
  ∃ t r, sv_conns (serve_listener s evs) !! i = Some (Finished t r).
Proof.
  intros Hi Hl. destruct (serve_rank evs s i c Hi) as (c' & Hc & Hr).
  assert (rank c ≤ 3) by (destruct c; cbn; lia).
  destruct c'; cbn in Hr; try lia. eauto.
Qed.
End server.

(** A poll for an answer that another connection leaves in the meantime. *)
Section example.
#[local] Instance no_json : Json := {|
  Value := unit; json_from_str _ := None; json_get _ _ := None; json_as_str _ := None |}.

Definition http (m p body : string) : TcpStream :=
  mkTcpStream [Data (bstr m ++ bstr " " ++ bstr p ++ bstr " HTTP/1.1" ++ crlf ++ bstr "Content-Length: " ++
    show_dec (Z.of_nat (length (bstr body))) ++ dcrlf ++ bstr body)] [] 4096.

Definition dead_sock : RpcSocket := mkRpcSocket false false false [].

Example poll_meets_put :
  let s := serve_listener [] (λ _ _, inr []) None Server_new
    ([Incoming (Some (http "GET" "/room/a/answer" "")); Resume 0 dead_sock false; Resume 0 dead_sock false;
      Incoming None; Incoming (Some (http "PUT" "/room/a/answer" "v=0")); Resume 1 dead_sock false;
      Resume 0 dead_sock false; Resume 1 dead_sock false; Resume 0 dead_sock false; Resume 0 dead_sock false]) in
  sv_order s = [0; 1] ∧
  match sv_conns s !! 0 with
  | Some (Finished t (Ok _)) => drop (length (t_out t) - 3) (t_out t) = bstr "v=0"
  | _ => False
  end.
Proof. vm_compute. split; reflexivity. Qed.
End example.
