(* ===== verification/IceRtc.v ===== *)
(** * WebRTC sessions ([src/ice_rtc.rs])

    The gateway turns an SDP offer into a session: a UDP socket, a str0m engine and a thread
    that moves datagrams, deadlines and events between the two, passing every data-channel
    message on to the node as one RPC.  str0m performs no I/O of its own; its engine is the
    class [Str0m] of the calls the code makes.  What a session writes is proved of every
    engine; that it comes back to its socket, of one that keeps [Str0mLaws].  What the socket, the clock and the node do is given
    per turn of the session's loop. *)

From S2P Require Import Prelude Bytes Types Proto Codec Net Text Relay Webrtc.

(** ** The engine *)

(** The states, events and outputs the code tells apart. *)
Inductive IceConnectionState := Disconnected | OtherState.

Inductive RtcEvent (ChannelId : Type) :=
  | IceConnectionStateChange (st : IceConnectionState)
  | Closed
  | ChannelOpen (id : ChannelId) (label : bytes)
  | ChannelClose (id : ChannelId)
  | ChannelData (id : ChannelId) (data : bytes)
  | Connected
  | OtherEvent.

Arguments IceConnectionStateChange {_} st.
Arguments Closed {_}.
Arguments ChannelOpen {_} id label.
Arguments ChannelClose {_} id.
Arguments ChannelData {_} id data.
Arguments Connected {_}.
Arguments OtherEvent {_}.

Inductive RtcOutput (ChannelId : Type) :=
  | OutTimeout (t : Z)
  | OutTransmit (contents : bytes) (destination : SocketAddr)
  | OutEvent (ev : RtcEvent ChannelId).

Arguments OutTimeout {_} t.
Arguments OutTransmit {_} contents destination.
Arguments OutEvent {_} ev.

(** [Input]; everything is received over UDP. *)
Inductive RtcInput (DatagramRecv : Type) :=
  | InTimeout (now : Z)
  | InReceive (now : Z) (source destination : SocketAddr) (contents : DatagramRecv).

Arguments InTimeout {_} now.
Arguments InReceive {_} now source destination contents.

(** [channel] is whether [rtc.channel(id)] gives a writer, [channel_write] the write through
    it with its result, of a type the code never looks at; [datagram_recv] is [TryFrom<&[u8]>], which refuses what is neither STUN, DTLS, RTP
    nor RTCP.  Errors of setting a session up are their text. *)
Class Str0m := {
  Rtc : Type;
  ChannelId : Type;
  ChannelId_eq_dec :: EqDecision ChannelId;
  SdpOffer : Type;
  SdpAnswer : Type;
  Candidate : Type;
  DatagramRecv : Type;
  WriteResult : Type;
  from_sdp_string : bytes → SdpOffer + bytes;
  to_sdp_string : SdpAnswer → bytes;
  rtc_build : bool → Z → Rtc;
  Candidate_host : SocketAddr → bytes → Candidate + bytes;
  add_local_candidate : Candidate → Rtc → Rtc;
  sdp_accept_offer : SdpOffer → Rtc → Rtc * (SdpAnswer + bytes);
  poll_output : Rtc → Rtc * result (RtcOutput ChannelId);
  datagram_recv : bytes → result DatagramRecv;
  handle_input : RtcInput DatagramRecv → Rtc → Rtc * result unit;
  channel : ChannelId → Rtc → bool;
  channel_write : ChannelId → bool → bytes → Rtc → Rtc * WriteResult;
}.

(** "[poll_output] is called until it returns a timeout": the messages received and not yet
    polled get fewer with each one polled, and between two messages what is left to poll gets
    less with each output.  The engine does no I/O of its own, so a message comes from
    [handle_input] and never from a write, which may leave any amount to poll. *)
Class Str0mLaws `{Str0m} := {
  messages : Rtc → nat;
  backlog : Rtc → nat;
  poll_progress r r' o :
    poll_output r = (r', Ok o) → (∀ t, o ≠ OutTimeout t) →
    messages r' < messages r ∨ (messages r' = messages r ∧ backlog r' < backlog r);
  poll_message r r' id data :
    poll_output r = (r', Ok (OutEvent (ChannelData id data))) → messages r' < messages r;
  write_messages id binary reply r : messages (channel_write id binary reply r).1 ≤ messages r;
}.

(** ** The addresses offered to the browser *)

(** [SocketAddr::new] *)
Definition SocketAddr_new (ip : IpAddr) (port : Z) : SocketAddr :=
  match ip with IpV4 o => AddrV4 o port | IpV6 o => AddrV6 o port 0 0 end.

(** [probe] is the address a socket connected to a public one has, if there is one. *)
Definition advertise_hosts (probe : option SocketAddr) (port : Z) : list SocketAddr :=
  let out := [AddrV4 LOCALHOST port] in
  match probe with
  | Some a =>
      let host := SocketAddr_new (addr_ip a) port in
      if bool_decide (host ∈ out) then out else out ++ [host]
  | None => out
  end.

Section ice_rtc.
Context `{Str0m}.

(** ** A session *)

(** What a session has done: datagrams sent; messages passed to the node, with what the
    socket of that RPC met and whether the channel had a writer afterwards; and messages
    handed to a channel's [write] with what it returned. *)
Inductive Act :=
  | Sent (contents : bytes) (destination : SocketAddr)
  | Asked (id : ChannelId) (data : bytes) (sock : RpcSocket) (open : bool)
  | Wrote (id : ChannelId) (reply : bytes) (res : WriteResult).

Record RtcSession := mkRtcSession {
  s_rtc : Rtc;
  s_local : SocketAddr;
  s_node : SocketAddr;
  s_dc : option ChannelId;
  s_log : list Act;
}.

Definition with_rtc (r : Rtc) (s : RtcSession) : RtcSession :=
  mkRtcSession r (s_local s) (s_node s) (s_dc s) (s_log s).

Definition with_dc (dc : option ChannelId) (s : RtcSession) : RtcSession :=
  mkRtcSession (s_rtc s) (s_local s) (s_node s) dc (s_log s).

Definition act (a : Act) (s : RtcSession) : RtcSession :=
  mkRtcSession (s_rtc s) (s_local s) (s_node s) (s_dc s) (s_log s ++ [a]).

Definition asks (l : list Act) : list (ChannelId * bytes * RpcSocket * bool) :=
  omap (λ a, match a with Asked id data sock open => Some (id, data, sock, open) | _ => None end) l.

Definition writes (l : list Act) : list (ChannelId * bytes) :=
  omap (λ a, match a with Wrote id reply _ => Some (id, reply) | _ => None end) l.

(** ** Accepting an offer *)

(** What [accept_offer] meets: the address the socket is bound to or the error, the probe of
    [advertise_hosts], the time, and the error of starting the thread, if any. *)
Record OfferWorld := mkOfferWorld {
  ow_bound : SocketAddr + bytes;
  ow_probe : option SocketAddr;
  ow_now : Z;
  ow_spawn_error : option bytes;
}.

Fixpoint add_hosts (addrs : list SocketAddr) (r : Rtc) : Rtc + bytes :=
  match addrs with
  | [] => inl r
  | a :: addrs =>
      match Candidate_host a (bstr "udp") with
      | inr e => inr e
      | inl c => add_hosts addrs (add_local_candidate c r)
      end
  end.

(** The session started, if any, and the result. *)
Definition accept_offer (w : OfferWorld) (offer_sdp : bytes) (node : SocketAddr)
    : option RtcSession * (bytes + bytes) :=
  match from_sdp_string (trim offer_sdp) with
  | inr e => (None, inr (bstr "sdp offer: " ++ e))
  | inl offer =>
      match ow_bound w with
      | inr e => (None, inr e)
      | inl bound =>
          match add_hosts (advertise_hosts (ow_probe w) (addr_port bound)) (rtc_build true (ow_now w)) with
          | inr e => (None, inr e)
          | inl rtc =>
              match sdp_accept_offer offer rtc with
              | (_, inr e) => (None, inr (bstr "accept offer: " ++ e))
              | (rtc, inl answer) =>
                  match ow_spawn_error w with
                  | Some e => (None, inr e)
                  | None => (Some (mkRtcSession rtc bound node None []), inl (to_sdp_string answer))
                  end
              end
          end
      end
  end.

(** ** The loop of [drive] *)

(** One pass of the inner loop goes on, breaks with the time of the next timeout, or
    returns. *)
Inductive Polled :=
  | PollMore
  | PollUntil (t : Z)
  | PollReturn (r : result unit).

(** The arms of the inner [match]; RPC number [n] of the session meets [rpc n]. *)
Definition on_output (rpc : nat → RpcSocket) (o : RtcOutput ChannelId) (s : RtcSession) : RtcSession * Polled :=
  match o with
  | OutTimeout t => (s, PollUntil t)
  | OutTransmit contents destination => (act (Sent contents destination) s, PollMore)
  | OutEvent (IceConnectionStateChange Disconnected) | OutEvent Closed => (s, PollReturn (Ok tt))
  | OutEvent (ChannelOpen id _) => (with_dc (Some id) s, PollMore)
  | OutEvent (ChannelClose id) =>
      (if bool_decide (s_dc s = Some id) then with_dc None s else s, PollMore)
  | OutEvent (ChannelData id data) =>
      let sock := rpc (length (asks (s_log s))) in
      let open := channel id (s_rtc s) in
      let s := act (Asked id data sock open) s in
      match accept_rpc_to_node sock data with
      | Some reply =>
          if open
          then
            let '(r, res) := channel_write id true reply (s_rtc s) in
            (act (Wrote id reply res) (with_rtc r s), PollMore)
          else (s, PollMore)
      | None => (s, PollMore)
      end
  | OutEvent Connected | OutEvent (IceConnectionStateChange OtherState) | OutEvent OtherEvent =>
      (s, PollMore)
  end.

Definition poll_once (rpc : nat → RpcSocket) (s : RtcSession) : RtcSession * Polled :=
  let '(r, o) := poll_output (s_rtc s) in
  let s := with_rtc r s in
  match o with
  | Err e => (s, PollReturn (Err e))
  | Ok o => on_output rpc o s
  end.

(** The inner loop; [None] when the fuel is used up. *)
Fixpoint poll_loop (fuel : nat) (rpc : nat → RpcSocket) (s : RtcSession)
    : RtcSession * option (Z + result unit) :=
  match fuel with
  | O => (s, None)
  | S fuel =>
      match poll_once rpc s with
      | (s, PollMore) => poll_loop fuel rpc s
      | (s, PollUntil t) => (s, Some (inl t))
      | (s, PollReturn r) => (s, Some (inr r))
      end
  end.

(** [recv_from]: a datagram, nothing before the read timeout, or another error. *)
Inductive Recv :=
  | Datagram (b : bytes) (source : SocketAddr)
  | NoDatagram
  | RecvFailed (e : string).

(** What one turn of the outer loop meets: the clock when it computes the wait and when it
    makes the input, the socket's answers to [set_read_timeout], [recv_from] and
    [local_addr]. *)
Record Turn := mkTurn {
  tn_now : Z;
  tn_input_now : Z;
  tn_set_timeout : result unit;
  tn_recv : Recv;
  tn_local : result unit;
}.

Definition ICE_BUF : nat := 2000.

(** What follows the inner loop: the input for the engine, or the error returned. *)
Definition turn_input (tn : Turn) (local : SocketAddr) (timeout : Z) : result (RtcInput DatagramRecv) :=
  let wait := Z.max 0 (timeout - tn_now tn) in
  if (wait =? 0)%Z then Ok (InTimeout (tn_input_now tn))
  else
    match tn_set_timeout tn with
    | Err e => Err e
    | Ok _ =>
        match tn_recv tn with
        | Datagram b source =>
            match tn_local tn with
            | Err e => Err e
            | Ok _ =>
                match datagram_recv (take ICE_BUF b) with
                | Err e => Err e
                | Ok contents => Ok (InReceive (tn_input_now tn) source local contents)
                end
            end
        | NoDatagram => Ok (InTimeout (tn_input_now tn))
        | RecvFailed e => Err e
        end
    end.

Inductive Outcome :=
  | Running
  | Ended (r : result unit)
  | OutOfFuel.

(** [turns] is what the turns up to now have met; [fuel] bounds the inner loop of each. *)
Fixpoint drive (fuel : Rtc → nat) (rpc : nat → RpcSocket) (turns : list Turn) (s : RtcSession)
    : RtcSession * Outcome :=
  match turns with
  | [] => (s, Running)
  | tn :: turns =>
      match poll_loop (fuel (s_rtc s)) rpc s with
      | (s, None) => (s, OutOfFuel)
      | (s, Some (inr r)) => (s, Ended r)
      | (s, Some (inl t)) =>
          match turn_input tn (s_local s) t with
          | Err e => (s, Ended (Err e))
          | Ok i =>
              match handle_input i (s_rtc s) with
              | (r, Ok _) => drive fuel rpc turns (with_rtc r s)
              | (r, Err e) => (with_rtc r s, Ended (Err e))
              end
          end
      end
  end.
End ice_rtc.

(** ** Lemmas: a session's log *)

Section log.
Context `{Str0m}.
Context (rpc : nat → RpcSocket).

(** What is to be written on its channel for a message passed to the node. *)
Definition reply_to (a : ChannelId * bytes * RpcSocket * bool) : option (ChannelId * bytes) :=
  let '(id, data, sock, open) := a in
  if open : bool then pair id <$> accept_rpc_to_node sock data else None.

(** The log is complete: everything that was to be written is, and nothing was before its
    request. *)
Definition answered (l : list Act) : Prop :=
  writes l = omap reply_to (asks l) ∧
  (∀ k, k `prefix_of` l → writes k `prefix_of` omap reply_to (asks k)) ∧
  (∀ n a, asks l !! n = Some a → a.1.2 = rpc n).

Lemma asks_app l k : asks (l ++ k) = asks l ++ asks k.
Proof. apply omap_app. Qed.

Lemma writes_app l k : writes (l ++ k) = writes l ++ writes k.
Proof. apply omap_app. Qed.

Lemma prefix_snoc {A} (k l : list A) x : k `prefix_of` l ++ [x] → k `prefix_of` l ∨ k = l ++ [x].
Proof.
  intros [m Hm]. destruct m as [|y m _] using rev_ind; [right; by rewrite app_nil_r in Hm|].
  rewrite app_assoc in Hm. apply app_inj_tail in Hm as [-> _]. left. by exists m.
Qed.

Lemma answered_nil : answered [].
Proof. split_and!; [done| |done]. by intros k ->%prefix_nil_inv. Qed.

(** An act that is its own answer. *)
Lemma answered_snoc l a :
  answered l → writes [a] = omap reply_to (asks [a]) →
  (∀ b, b ∈ asks [a] → b.1.2 = rpc (length (asks l))) → answered (l ++ [a]).
Proof.
  intros (Hw & Hp & Hr) Ha Hs.
  assert (writes (l ++ [a]) = omap reply_to (asks (l ++ [a]))) as Hla.
  { by rewrite writes_app, asks_app, omap_app, Hw, Ha. }
  split_and!; [done| |].
  - intros k [Hk| ->]%prefix_snoc; [by apply Hp|by rewrite Hla].
  - intros n b. rewrite asks_app. intros [Hb|[Hlen Hb]]%lookup_app_Some; [by apply Hr|].
    destruct a; cbn in Hb; try done. destruct (n - length (asks l)) eqn:En; [|done].
    replace n with (length (asks l)) by lia. injection Hb as <-. apply Hs. by left.
Qed.

(** A message and the answer written to its channel. *)
Lemma answered_exchange l id data reply res :
  let sock := rpc (length (asks l)) in
  answered l → accept_rpc_to_node sock data = Some reply →
  answered ((l ++ [Asked id data sock true]) ++ [Wrote id reply res]).
Proof.
  intros sock (Hw & Hp & Hr) Ha.
  assert (writes ((l ++ [Asked id data sock true]) ++ [Wrote id reply res]) =
          omap reply_to (asks ((l ++ [Asked id data sock true]) ++ [Wrote id reply res]))) as Hla.
  { rewrite !writes_app, !asks_app, !omap_app, Hw. cbn. by rewrite Ha, !app_nil_r. }
  split_and!; [done| |].
  - intros k [[Hk| ->]%prefix_snoc| ->]%prefix_snoc; [by apply Hp| |by rewrite Hla].
    rewrite writes_app, asks_app, omap_app, Hw. cbn. rewrite app_nil_r. by eexists.
  - intros n b. rewrite !asks_app. cbn [asks omap list_omap]. rewrite app_nil_r.
    intros [Hb|[Hlen Hb]]%lookup_app_Some; [by apply Hr|].
    apply list_lookup_singleton_Some in Hb as [Hn <-]. cbn. unfold sock. f_equal. lia.
Qed.

Lemma on_output_answered o s : answered (s_log s) → answered (s_log (on_output rpc o s).1).
Proof.
  intros Hs. destruct o as [t|contents destination|[[]| |id label|id|id data| |]]; try done.
  - apply answered_snoc; [done..|by intros b ?%not_elem_of_nil].
  - cbn. by case_bool_decide.
  - unfold on_output. set (sock := rpc _).
    assert (∀ open, reply_to (id, data, sock, open) = None →
              answered (s_log s ++ [Asked id data sock open])) as Hasked.
    { intros open Ho. apply answered_snoc; [done|by cbn -[reply_to]; rewrite Ho|].
      by intros b ->%list_elem_of_singleton. }
    cbn -[reply_to] in Hasked |- *.
    destruct (accept_rpc_to_node sock data) as [reply|] eqn:Ea; [destruct (channel id _)|]; cbn.
    + destruct (channel_write id true reply _) as [r res]. by apply answered_exchange.
    + by apply Hasked.
    + apply Hasked. unfold reply_to. rewrite Ea. by destruct (channel id _).
Qed.

Lemma poll_once_answered s : answered (s_log s) → answered (s_log (poll_once rpc s).1).
Proof.
  intros Hs. unfold poll_once. destruct (poll_output _) as [r [o|e]]; [|done].
  by apply on_output_answered.
Qed.

Lemma poll_loop_answered fuel s : answered (s_log s) → answered (s_log (poll_loop fuel rpc s).1).
Proof.
  revert s. induction fuel as [|fuel IH]; intros s Hs; [done|]. cbn [poll_loop].
  pose proof (poll_once_answered s Hs) as H1.
  destruct (poll_once rpc s) as [s1 []]; cbn in *; auto.
Qed.

Lemma drive_answered fuel turns s : answered (s_log s) → answered (s_log (drive fuel rpc turns s).1).
Proof.
  revert s. induction turns as [|tn turns IH]; intros s Hs; [done|]. cbn [drive].
  pose proof (poll_loop_answered (fuel (s_rtc s)) s Hs) as H1.
  destruct (poll_loop _ rpc s) as [s1 [[t|r]|]]; cbn in H1; [|done..].
  destruct (turn_input tn _ t) as [i|e]; [|done].
  destruct (handle_input i _) as [r [|e]]; [|done]. by apply IH.
Qed.

(** ** Lemmas: the inner loop ends *)

Lemma poll_loop_more fuel fuel' s s' x :
  fuel ≤ fuel' → poll_loop fuel rpc s = (s', Some x) → poll_loop fuel' rpc s = (s', Some x).
Proof.
  revert fuel' s. induction fuel as [|fuel IH]; intros [|fuel'] s Hle; cbn [poll_loop]; [done|done|lia|].
  destruct (poll_once rpc s) as [s1 []]; [|done..]. apply IH. lia.
Qed.

Context `{!Str0mLaws}.

(** Polling again leaves fewer messages, or as many and less besides. *)
Lemma on_output_progress r r' o s s' :
  poll_output r = (r', Ok o) → s_rtc s = r' → on_output rpc o s = (s', PollMore) →
  messages (s_rtc s') < messages r ∨ (messages (s_rtc s') = messages r ∧ backlog (s_rtc s') < backlog r).
Proof.
  intros Hp Hr Ho.
  assert (messages (s_rtc s) < messages r ∨ (messages (s_rtc s) = messages r ∧ backlog (s_rtc s) < backlog r)) as Hlt.
  { rewrite Hr. eapply poll_progress; [done|]. by intros t ->. }
  destruct o as [t|contents destination|[[]| |id label|id|id data| |]]; cbn in Ho; simplify_eq; try done.
  - by case_bool_decide.
  - apply poll_message in Hp. left.
    destruct (accept_rpc_to_node _ _) as [reply|]; [|by simplify_eq].
    destruct (channel id _); [|by simplify_eq].
    pose proof (write_messages id true reply (s_rtc s)) as Hw.
    destruct (channel_write id true reply _) as [r1 res]. simplify_eq/=. lia.
Qed.

Lemma poll_loop_ends s : ∃ fuel s' x, poll_loop fuel rpc s = (s', Some x).
Proof.
  remember (messages (s_rtc s)) as m eqn:Em. revert s Em.
  induction (lt_wf m) as [m _ IHm]. intros s Em.
  remember (backlog (s_rtc s)) as b eqn:Eb. revert s Em Eb.
  induction (lt_wf b) as [b _ IHb]. intros s -> ->.
  destruct (poll_once rpc s) as [s1 [|t|x]] eqn:Ep.
  - assert (∃ fuel s' x, poll_loop fuel rpc s1 = (s', Some x)) as (fuel & s' & x & Hf);
      [|exists (S fuel), s', x; cbn [poll_loop]; by rewrite Ep].
    unfold poll_once in Ep. destruct (poll_output (s_rtc s)) as [r [o|e]] eqn:Eo; [|done].
    destruct (on_output_progress _ _ _ (with_rtc r s) _ Eo eq_refl Ep) as [Hm|[Hm Hb]].
    + by apply (IHm _ Hm s1).
    + by apply (IHb _ Hb s1).
  - exists 1, s1, (inl t). cbn [poll_loop]. by rewrite Ep.
  - exists 1, s1, (inr x). cbn [poll_loop]. by rewrite Ep.
Qed.

(** A session comes back to its socket: whatever its turns meet, there is an amount of fuel
    that no inner loop uses up. *)
Theorem session_comes_back turns s :
  ∃ n, ∀ fuel, (∀ r, n ≤ fuel r) → (drive fuel rpc turns s).2 ≠ OutOfFuel.
Proof.
  revert s. induction turns as [|tn turns IH]; intros s; [by exists 0|].
  destruct (poll_loop_ends s) as (n1 & s1 & x & Hx).
  assert (∃ n, ∀ fuel, (∀ r, n ≤ fuel r) →
    match x with
    | inr r => (s1, Ended r)
    | inl t => match turn_input tn (s_local s1) t with
               | Err e => (s1, Ended (Err e))
               | Ok i => match handle_input i (s_rtc s1) with
                         | (r, Ok _) => drive fuel rpc turns (with_rtc r s1)
                         | (r, Err e) => (with_rtc r s1, Ended (Err e))
                         end
               end
    end.2 ≠ OutOfFuel) as [n2 Hn2].
  { destruct x as [t|r]; [|by exists 0]. destruct (turn_input tn _ t) as [i|e]; [|by exists 0].
    destruct (handle_input i _) as [r [|e]]; [apply IH|by exists 0]. }
  exists (Nat.max n1 n2). intros fuel Hf. cbn [drive].
  rewrite (poll_loop_more n1 _ s s1 x); [|specialize (Hf (s_rtc s)); lia|done].
  specialize (Hn2 fuel ltac:(intros r; specialize (Hf r); lia)).
  by destruct x.
Qed.
End log.

(** ** Properties *)

(** C39: what a session writes.  Whatever the engine does and however long a session runs,
    what it has handed to the [write] of data channels is, in order, exactly the answers the
    node gave to the messages received so far whose channel had a writer, each once, on the
    channel its message came from and none before its message.  The n-th message uses the
    n-th RPC, and an answer carries the correlation number of its message.  What [write]
    returns changes nothing: an answer it refuses is not written again, and the session goes
    on. *)
Theorem session_answers `{Str0m} (fuel : Rtc → nat) (rpc : nat → RpcSocket)
    (turns : list Turn) (rtc : Rtc) (local node : SocketAddr) :
  let '(s, out) := drive fuel rpc turns (mkRtcSession rtc local node None []) in
  writes (s_log s) = omap reply_to (asks (s_log s)) ∧
  (∀ k, k `prefix_of` s_log s → writes k `prefix_of` omap reply_to (asks k)) ∧
  (∀ id reply, (id, reply) ∈ writes (s_log s) →
     ∃ n data h h', asks (s_log s) !! n = Some (id, data, rpc n, true) ∧
       accept_rpc_to_node (rpc n) data = Some reply ∧
       Header_decode data = Some h ∧ Header_decode reply = Some h' ∧
       h_correlation h' = h_correlation h).
Proof.
  pose proof (drive_answered rpc fuel turns (mkRtcSession rtc local node None []) (answered_nil rpc)) as Ha.
  destruct (drive fuel rpc turns _) as [s out]. cbn in *. destruct Ha as (Hw & Hp & Hr).
  split_and!; [done..|]. intros id reply Hin. rewrite Hw in Hin.
  apply list_elem_of_omap in Hin as ([[[id' data] sock] open] & Hask & Hrep).
  apply list_elem_of_lookup in Hask as [n Hn]. pose proof (Hr _ _ Hn) as Hsock. cbn in Hsock. subst sock.
  unfold reply_to in Hrep. destruct open; [|done].
  apply fmap_Some in Hrep as (reply' & Hacc & [= -> ->]).
  pose proof Hacc as (h & pre & d & post & Hh & _ & _ & _ & _ & _ & Hd & ->)%rpc_reply_correct.
  unfold answers_to in Hd. destruct (Header_decode (take RPC_BUF d)) as [h'|] eqn:Eh'; [|done].
  apply Z.eqb_eq in Hd. by exists n, data, h, h'.
Qed.

(** The addresses offered: the loopback address first, at most one other, all with the port
    of the session's socket. *)
Theorem advertise_hosts_correct (probe : option SocketAddr) (port : Z) :
  let out := advertise_hosts probe port in
  head out = Some (AddrV4 LOCALHOST port) ∧ NoDup out ∧ length out ≤ 2 ∧
  Forall (λ a, addr_port a = port) out ∧
  (∀ a, probe = Some a → addr_ip a ∈ (addr_ip <$> out)).
Proof.
  intros out. unfold out, advertise_hosts. destruct probe as [a|].
  - case_bool_decide as Hin.
    + split_and!; [done|apply NoDup_singleton|cbn; lia|by constructor|].
      intros ? [= <-]. apply list_elem_of_singleton in Hin.
      apply list_elem_of_fmap. exists (AddrV4 LOCALHOST port). split; [|by left].
      rewrite <-Hin. by destruct a.
    + split_and!; [done| |cbn; lia| |].
      * apply NoDup_app. split_and!; [apply NoDup_singleton| |apply NoDup_singleton].
        by intros x ->%list_elem_of_singleton Hx%list_elem_of_singleton;
          apply Hin, list_elem_of_singleton.
      * repeat constructor. by destruct a.
      * intros ? [= <-]. destruct a; cbn; set_solver.
  - split_and!; [done|apply NoDup_singleton|cbn; lia|by constructor|done].
Qed.

(** An offer is answered exactly when a session is started for it, and the session is a new
    engine with the advertised addresses that has accepted that offer. *)
Theorem offer_starts_session `{Str0m} (w : OfferWorld) (offer_sdp : bytes) (node : SocketAddr) :
  let '(started, answer) := accept_offer w offer_sdp node in
  (is_Some started ↔ ∃ a, answer = inl a) ∧
  ∀ s, started = Some s →
    ∃ offer rtc a, from_sdp_string (trim offer_sdp) = inl offer ∧
      ow_bound w = inl (s_local s) ∧
      add_hosts (advertise_hosts (ow_probe w) (addr_port (s_local s))) (rtc_build true (ow_now w)) = inl rtc ∧
      sdp_accept_offer offer rtc = (s_rtc s, inl a) ∧ answer = inl (to_sdp_string a) ∧
      s_node s = node ∧ s_dc s = None ∧ s_log s = [].
Proof.
  unfold accept_offer.
  destruct (from_sdp_string _) as [offer|e]; [|naive_solver].
  destruct (ow_bound w) as [bound|e] eqn:Eb; [|naive_solver].
  destruct (add_hosts _ _) as [rtc|e] eqn:Eh; [|naive_solver].
  destruct (sdp_accept_offer offer rtc) as [rtc' [a|e]] eqn:Ea; [|naive_solver].
  destruct (ow_spawn_error w); [naive_solver|].
  split; [naive_solver|]. intros s [= <-]. by exists offer, rtc, a.
Qed.

(** Posted to the gateway, an offer in UTF-8 is answered 200 and a session started for it, or
    400 and none started; the rooms are left alone. *)
Theorem gateway_offer `{Str0m} `{Json} (HTML : bytes) (w : OfferWorld) (rq : Request)
    (body : bytes) (rooms : Rooms) (node : SocketAddr) :
  utf8_valid body = true →
  let '(started, answer) := accept_offer w (offer_sdp body) node in
  route HTML (λ sdp dest, (accept_offer w sdp dest).2) rq (bstr "POST") (bstr "/rtc/offer") body rooms
    (Some node) =
  (rooms, match answer with
          | inl a => (200%Z, "application/sdp"%string, a)
          | inr e => (400%Z, "text/plain"%string, e)
          end).
Proof.
  intros Hu. destruct (accept_offer w (offer_sdp body) node) as [started answer] eqn:Ea.
  unfold route. rewrite !bool_decide_eq_false_2 by (apply (bool_decide_unpack _); by vm_compute).
  cbn [andb]. rewrite bool_decide_eq_true_2 by done. unfold from_utf8. rewrite Hu, Ea. by destruct answer.
Qed.

(** ** What departs from the documents *)

(** The destination given to the engine with every datagram is the wildcard address the
    socket is bound to, which is never among the addresses advertised as candidates. *)
Theorem destination_not_advertised (probe : option SocketAddr) (ip : IpAddr) (port : Z) :
  is_unspecified ip = true → (∀ a, probe = Some a → is_unspecified (addr_ip a) = false) →
  SocketAddr_new ip port ∉ advertise_hosts probe port.
Proof.
  intros Hip Hprobe Hin.
  assert (∀ a, SocketAddr_new ip port = a → addr_ip a = ip) as Hai by (intros ? <-; by destruct ip).
  unfold advertise_hosts in Hin. destruct probe as [a|]; [case_bool_decide|];
    rewrite ?elem_of_app, ?list_elem_of_singleton in Hin.
  - apply Hai in Hin. subst ip. by vm_compute in Hip.
  - destruct Hin as [Hin|Hin]; apply Hai in Hin; subst ip; [by vm_compute in Hip|].
    specialize (Hprobe a eq_refl). destruct a; cbn in *; congruence.
  - apply Hai in Hin. subst ip. by vm_compute in Hip.
Qed.

(** A datagram from anywhere that the engine cannot classify ends the session. *)
Theorem stray_datagram_ends_session `{Str0m} fuel rpc (s s' : RtcSession) (t now now' : Z) (b : bytes)
    (source : SocketAddr) (e : string) (turns : list Turn) :
  poll_loop (fuel (s_rtc s)) rpc s = (s', Some (inl t)) → (now < t)%Z →
  datagram_recv (take ICE_BUF b) = Err e →
  drive fuel rpc (mkTurn now now' (Ok tt) (Datagram b source) (Ok tt) :: turns) s = (s', Ended (Err e)).
Proof.
  intros Hp Ht Hd. cbn [drive]. rewrite Hp. unfold turn_input. cbn [tn_now tn_set_timeout tn_recv tn_local].
  rewrite (proj2 (Z.eqb_neq _ _)) by lia. by rewrite Hd.
Qed.

(** ** Evaluation

    An engine that is a plain pipe: a datagram received is a message on channel 0, a message
    written is a datagram to the browser, and a write returns whether it fits. *)

Record Pipe := mkPipe { pp_queue : list (RtcOutput nat); pp_peer : SocketAddr; pp_hosts : list SocketAddr; pp_now : Z }.

Definition pipe_push (p : Pipe) (o : RtcOutput nat) : Pipe :=
  mkPipe (pp_queue p ++ [o]) (pp_peer p) (pp_hosts p) (pp_now p).

#[local] Instance pipe_engine : Str0m := {|
  Rtc := Pipe; ChannelId := nat; SdpOffer := bytes; SdpAnswer := bytes; Candidate := SocketAddr;
  DatagramRecv := bytes; WriteResult := result bool;
  from_sdp_string s := if starts_with (bstr "v=") s then inl s else inr (bstr "not an SDP");
  to_sdp_string s := s;
  rtc_build _ now := mkPipe [] (AddrV4 LOCALHOST 50000) [] now;
  Candidate_host a _ := inl a;
  add_local_candidate a p := mkPipe (pp_queue p) (pp_peer p) (pp_hosts p ++ [a]) (pp_now p);
  sdp_accept_offer _ p := (pipe_push p (OutEvent (ChannelOpen 0 (bstr "molia"))), inl (bstr "v=0 answer"));
  poll_output p :=
    match pp_queue p with
    | o :: q => (mkPipe q (pp_peer p) (pp_hosts p) (pp_now p), Ok o)
    | [] => (p, Ok (OutTimeout (pp_now p + 100)%Z))
    end;
  datagram_recv b := if bool_decide (b = []) then Err "not enough data" else Ok b;
  handle_input i p :=
    match i with
    | InTimeout now => (mkPipe (pp_queue p) (pp_peer p) (pp_hosts p) now, Ok tt)
    | InReceive now _ _ b =>
        (pipe_push (mkPipe (pp_queue p) (pp_peer p) (pp_hosts p) now) (OutEvent (ChannelData 0 b)), Ok tt)
    end;
  channel id _ := Nat.eqb id 0;
  channel_write _ _ reply p :=
    if length reply <=? 1200 then (pipe_push p (OutTransmit reply (pp_peer p)), Ok true) else (p, Ok false);
|}.

Definition is_message (o : RtcOutput nat) : Prop :=
  match o with OutEvent (ChannelData _ _) => True | _ => False end.

#[local] Instance is_message_dec o : Decision (is_message o).
Proof. destruct o as [| |[]]; apply _. Defined.

Definition queued_messages (q : list (RtcOutput nat)) : nat := length (filter is_message q).

Lemma queued_messages_cons o q :
  queued_messages (o :: q) = (if decide (is_message o) then 1 else 0) + queued_messages q.
Proof. unfold queued_messages. rewrite filter_cons. by case_decide. Qed.

#[local] Program Instance pipe_laws : Str0mLaws := {|
  messages p := queued_messages (pp_queue p); backlog p := length (pp_queue p) |}.
Next Obligation.
  intros [[|o' q] ? ? ?] r' o; cbn -[queued_messages]; intros [= <- <-] Ho; [by destruct (Ho _ eq_refl)|].
  cbn -[queued_messages]. rewrite queued_messages_cons. case_decide; lia.
Qed.
Next Obligation.
  intros [[|o' q] ? ? ?] r' id data; cbn -[queued_messages]; [done|]. intros [= <- ->].
  cbn -[queued_messages]. rewrite queued_messages_cons, decide_True by done. lia.
Qed.
Next Obligation.
  intros id binary reply [q ? ? ?]. cbn -[queued_messages]. destruct (_ <=? _); [|done].
  cbn -[queued_messages]. unfold queued_messages. by rewrite filter_app, app_nil_r.
Qed.

Definition wildcard (port : Z) : SocketAddr := AddrV4 (list_to_arr 4 (z2b <$> [0; 0; 0; 0]%Z)) port.

Definition pipe_world : OfferWorld := mkOfferWorld (inl (wildcard 40000)) None 0 None.

Definition pipe_node : SocketAddr := AddrV4 LOCALHOST 4001.

Definition header_of (ty : MessageType) (corr : Z) : bytes :=
  (Header_encode (Header_request ty Control corr) (replicate 12 (z2b 0))).1.

(** A PING, noise, and a PING the node does not answer in time. *)
Definition pipe_turns : list Turn :=
  let tn r := mkTurn 0 0 (Ok tt) r (Ok tt) in
  let peer := AddrV4 LOCALHOST 50000 in
  [tn (Datagram (header_of Ping 7) peer); tn (Datagram (bstr "noise") peer);
   tn (Datagram (header_of Ping 8) peer); tn NoDatagram; tn NoDatagram].

Definition pipe_rpc (n : nat) : RpcSocket :=
  match n with
  | 0 => mkRpcSocket true true true [Got (header_of Pong 9); WouldBlock; Got (header_of Pong 7)]
  | _ => mkRpcSocket true true true [TimedOut]
  end.

(** A PING that is answered, noise, a PING that is not. *)
Example pipe_session :
  let rtc : Rtc := mkPipe [OutEvent (ChannelOpen 0 (bstr "molia"))] (AddrV4 LOCALHOST 50000)
               [AddrV4 LOCALHOST 40000] 0 in
  accept_offer pipe_world (bstr "v=0 offer") pipe_node =
    (Some (mkRtcSession rtc (wildcard 40000) pipe_node None []), inl (bstr "v=0 answer")) ∧
  let '(s, out) := drive (λ _, 9) pipe_rpc pipe_turns (mkRtcSession rtc (wildcard 40000) pipe_node None []) in
  length (asks (s_log s)) = 3 ∧ writes (s_log s) = [(0, header_of Pong 7)] ∧ out = Running.
Proof. split; vm_compute; [reflexivity|]. split_and!; reflexivity. Qed.

(** The pipe drops the session when an empty datagram arrives. *)
Example empty_datagram_ends :
  (drive (λ _, 9) pipe_rpc [mkTurn 0 0 (Ok tt) (Datagram [] pipe_node) (Ok tt)]
     (mkRtcSession (mkPipe [] pipe_node [] 0) (wildcard 40000) pipe_node None [])).2 =
  Ended (Err "not enough data").
Proof. vm_compute. reflexivity. Qed.
