(* ===== verification/ShardState.v ===== *)
(** * The state of a shard and how its handlers change it ([src/shard.rs])

    A shard owns every component of the node.  Its handlers are written here in a state
    monad: a handler reads an environment [Env] (the clocks, the outcome of each socket
    write, the iteration order of each hash map, one answer per reading) and updates the
    state [St], the components together with the datagrams written to the socket and the
    replies sent to API callers so far. *)

From S2P Require Import Prelude Bytes Types Proto Codec Routing Crypto Net Peerstore Store Pool Lookup Wg Relay EventLoop Metrics Sybil.

(** ** Configuration, commands and replies *)

Record NodeConfig := mkNodeConfig {
  listen : SocketAddr;
  shard_count : Z;
  bootstrap : list SocketAddr;
  plaintext : bool;
  query_blind : bool;
  two_hop_relay : bool;
  peerstore_dir : bool;
}.

(** [NodeConfig::default]; [peerstore_dir] says whether a directory is given. *)
Definition NodeConfig_default : NodeConfig :=
  {| listen := AddrV4 (arr_repeat (z2b 0) 4) 0; shard_count := 1; bootstrap := []; plaintext := true;
     query_blind := true; two_hop_relay := false; peerstore_dir := false |}.

Inductive Reply :=
  | RKey (k : Key)
  | RValue (v : option bytes)
  | RRecord (r : option StoredRecord)
  | RProviders (l : list (NodeId * bytes))
  | RPeers (l : list PeerInfo)
  | ROk
  | RErr (e : string).

(** The sending half of a caller's reply channel, by a number. *)
Definition Sender : Type := nat.

Inductive ShardCmd :=
  | CmdBootstrap (seeds : list SocketAddr)
  | CmdPut (value : bytes) (ttl_secs : Z) (tx : Sender)
  | CmdGet (key : Key) (tx : Sender)
  | CmdPutMutable (rec : StoredRecord) (tx : Sender)
  | CmdAnnounce (key : Key) (meta : bytes) (tx : Sender)
  | CmdFindProviders (key : Key) (tx : Sender)
  | CmdInjectPeer (info : PeerInfo)
  | CmdShutdown.

Record PendingLookup := mkPendingLookup { pl_lookup : Lookup; pl_reply : option Sender }.

(** ** Counters of the shard *)

Inductive Counter :=
  | MRxPackets | MTxPackets | MRxBytes | MTxBytes | MLookups | MLookupOk | MStoreOk | MStoreReject
  | MDropsMalformed | MDropsRate | MWgDecapOk | MWgDecapFail | MPowFail | MCookies | MPunchOk
  | MRelayBytes.

#[export] Instance Counter_eq_dec : EqDecision Counter.
Proof. solve_decision. Defined.

(** [ShardMetrics::add] on one of the counters ([ShardMetrics::incr] adds one). *)
Definition metrics_add (k : Counter) (n : Z) (m : ShardMetrics) : ShardMetrics :=
  let f k' x := if bool_decide (k' = k) then counter_add x n else x in
  mkSnapshot
    (f MRxPackets (rx_packets m)) (f MTxPackets (tx_packets m)) (f MRxBytes (rx_bytes m))
    (f MTxBytes (tx_bytes m)) (f MLookups (m_lookups m)) (f MLookupOk (lookup_ok m))
    (f MStoreOk (store_ok m)) (f MStoreReject (store_reject m))
    (f MDropsMalformed (drops_malformed m)) (f MDropsRate (drops_rate m))
    (f MWgDecapOk (wg_decap_ok m)) (f MWgDecapFail (wg_decap_fail m)) (f MPowFail (pow_fail m))
    (f MCookies (cookies m)) (f MPunchOk (punch_ok m)) (f MRelayBytes (relay_bytes m)).

(** ** The environment of one event

    Reading number [n] of a clock, of a socket write or of a map's iteration order is
    given by the [n]-th value.  [env_drain] is the number of turns the drain loop takes
    before its session has nothing more to say. *)
Record Env := mkEnv {
  env_now : nat → Z;
  env_unix : nat → Z;
  env_unix_ms : nat → Z;
  env_sent : nat → bool;
  env_ids : nat → list Z → list Z;
  env_nodes : nat → list NodeId → list NodeId;
  env_drain : nat;
}.

(** What is written to the socket: an application datagram, or what the WireGuard engine
    produced. *)
Inductive Out :=
  | OutPlain (dest : SocketAddr) (app : bytes)
  | OutWg (dest : SocketAddr) (packet : bytes).

Section state.
Context `{TunnOps} `{KeyedHash}.

Record ShardCtx := mkShardCtx {
  sc_id : Z;
  sc_identity : Identity;
  sc_cfg : NodeConfig;
  sc_local : SocketAddr;
  sc_pool : BufferPool;
  sc_table : RoutingTable;
  sc_store : Store;
  sc_peers : Peerstore;
  sc_disk : Dir;
  sc_wg : WgEngine;
  sc_sybil : Sybil;
  sc_relay : RelayState;
  sc_metrics : ShardMetrics;
  sc_lookups : gmap Z PendingLookup;
  sc_next_corr : Z;
  sc_endpoints : gmap NodeId EndpointHint;
  sc_timers : TimingWheel;
  sc_keys : gmap SocketAddr (arr 32);
  sc_pending_wg : gmap SocketAddr (list bytes);
  sc_mapped : option SocketAddr;
  sc_punches : gmap NodeId PunchAttempt;
  sc_via_relay : gmap NodeId SocketAddr;
}.

(** Assignments to one field. *)

Definition set_pool (x : BufferPool) (c : ShardCtx) : ShardCtx :=
  mkShardCtx
    (sc_id c) (sc_identity c) (sc_cfg c) (sc_local c) x (sc_table c) (sc_store c)
    (sc_peers c) (sc_disk c) (sc_wg c) (sc_sybil c) (sc_relay c) (sc_metrics c)
    (sc_lookups c) (sc_next_corr c) (sc_endpoints c) (sc_timers c) (sc_keys c)
    (sc_pending_wg c) (sc_mapped c) (sc_punches c) (sc_via_relay c).

Definition set_table (x : RoutingTable) (c : ShardCtx) : ShardCtx :=
  mkShardCtx
    (sc_id c) (sc_identity c) (sc_cfg c) (sc_local c) (sc_pool c) x (sc_store c)
    (sc_peers c) (sc_disk c) (sc_wg c) (sc_sybil c) (sc_relay c) (sc_metrics c)
    (sc_lookups c) (sc_next_corr c) (sc_endpoints c) (sc_timers c) (sc_keys c)
    (sc_pending_wg c) (sc_mapped c) (sc_punches c) (sc_via_relay c).

Definition set_store (x : Store) (c : ShardCtx) : ShardCtx :=
  mkShardCtx
    (sc_id c) (sc_identity c) (sc_cfg c) (sc_local c) (sc_pool c) (sc_table c) x
    (sc_peers c) (sc_disk c) (sc_wg c) (sc_sybil c) (sc_relay c) (sc_metrics c)
    (sc_lookups c) (sc_next_corr c) (sc_endpoints c) (sc_timers c) (sc_keys c)
    (sc_pending_wg c) (sc_mapped c) (sc_punches c) (sc_via_relay c).

Definition set_peers (x : Peerstore) (c : ShardCtx) : ShardCtx :=
  mkShardCtx
    (sc_id c) (sc_identity c) (sc_cfg c) (sc_local c) (sc_pool c) (sc_table c) (sc_store c)
    x (sc_disk c) (sc_wg c) (sc_sybil c) (sc_relay c) (sc_metrics c) (sc_lookups c)
    (sc_next_corr c) (sc_endpoints c) (sc_timers c) (sc_keys c) (sc_pending_wg c)
    (sc_mapped c) (sc_punches c) (sc_via_relay c).

Definition set_disk (x : Dir) (c : ShardCtx) : ShardCtx :=
  mkShardCtx
    (sc_id c) (sc_identity c) (sc_cfg c) (sc_local c) (sc_pool c) (sc_table c) (sc_store c)
    (sc_peers c) x (sc_wg c) (sc_sybil c) (sc_relay c) (sc_metrics c) (sc_lookups c)
    (sc_next_corr c) (sc_endpoints c) (sc_timers c) (sc_keys c) (sc_pending_wg c)
    (sc_mapped c) (sc_punches c) (sc_via_relay c).

Definition set_wg (x : WgEngine) (c : ShardCtx) : ShardCtx :=
  mkShardCtx
    (sc_id c) (sc_identity c) (sc_cfg c) (sc_local c) (sc_pool c) (sc_table c) (sc_store c)
    (sc_peers c) (sc_disk c) x (sc_sybil c) (sc_relay c) (sc_metrics c) (sc_lookups c)
    (sc_next_corr c) (sc_endpoints c) (sc_timers c) (sc_keys c) (sc_pending_wg c)
    (sc_mapped c) (sc_punches c) (sc_via_relay c).

Definition set_sybil (x : Sybil) (c : ShardCtx) : ShardCtx :=
  mkShardCtx
    (sc_id c) (sc_identity c) (sc_cfg c) (sc_local c) (sc_pool c) (sc_table c) (sc_store c)
    (sc_peers c) (sc_disk c) (sc_wg c) x (sc_relay c) (sc_metrics c) (sc_lookups c)
    (sc_next_corr c) (sc_endpoints c) (sc_timers c) (sc_keys c) (sc_pending_wg c)
    (sc_mapped c) (sc_punches c) (sc_via_relay c).

Definition set_relay (x : RelayState) (c : ShardCtx) : ShardCtx :=
  mkShardCtx
    (sc_id c) (sc_identity c) (sc_cfg c) (sc_local c) (sc_pool c) (sc_table c) (sc_store c)
    (sc_peers c) (sc_disk c) (sc_wg c) (sc_sybil c) x (sc_metrics c) (sc_lookups c)
    (sc_next_corr c) (sc_endpoints c) (sc_timers c) (sc_keys c) (sc_pending_wg c)
    (sc_mapped c) (sc_punches c) (sc_via_relay c).

Definition set_metrics (x : ShardMetrics) (c : ShardCtx) : ShardCtx :=
  mkShardCtx
    (sc_id c) (sc_identity c) (sc_cfg c) (sc_local c) (sc_pool c) (sc_table c) (sc_store c)
    (sc_peers c) (sc_disk c) (sc_wg c) (sc_sybil c) (sc_relay c) x (sc_lookups c)
    (sc_next_corr c) (sc_endpoints c) (sc_timers c) (sc_keys c) (sc_pending_wg c)
    (sc_mapped c) (sc_punches c) (sc_via_relay c).

Definition set_lookups (x : gmap Z PendingLookup) (c : ShardCtx) : ShardCtx :=
  mkShardCtx
    (sc_id c) (sc_identity c) (sc_cfg c) (sc_local c) (sc_pool c) (sc_table c) (sc_store c)
    (sc_peers c) (sc_disk c) (sc_wg c) (sc_sybil c) (sc_relay c) (sc_metrics c) x
    (sc_next_corr c) (sc_endpoints c) (sc_timers c) (sc_keys c) (sc_pending_wg c)
    (sc_mapped c) (sc_punches c) (sc_via_relay c).

Definition set_next_corr (x : Z) (c : ShardCtx) : ShardCtx :=
  mkShardCtx
    (sc_id c) (sc_identity c) (sc_cfg c) (sc_local c) (sc_pool c) (sc_table c) (sc_store c)
    (sc_peers c) (sc_disk c) (sc_wg c) (sc_sybil c) (sc_relay c) (sc_metrics c)
    (sc_lookups c) x (sc_endpoints c) (sc_timers c) (sc_keys c) (sc_pending_wg c)
    (sc_mapped c) (sc_punches c) (sc_via_relay c).

Definition set_endpoints (x : gmap NodeId EndpointHint) (c : ShardCtx) : ShardCtx :=
  mkShardCtx
    (sc_id c) (sc_identity c) (sc_cfg c) (sc_local c) (sc_pool c) (sc_table c) (sc_store c)
    (sc_peers c) (sc_disk c) (sc_wg c) (sc_sybil c) (sc_relay c) (sc_metrics c)
    (sc_lookups c) (sc_next_corr c) x (sc_timers c) (sc_keys c) (sc_pending_wg c)
    (sc_mapped c) (sc_punches c) (sc_via_relay c).

Definition set_timers (x : TimingWheel) (c : ShardCtx) : ShardCtx :=
  mkShardCtx
    (sc_id c) (sc_identity c) (sc_cfg c) (sc_local c) (sc_pool c) (sc_table c) (sc_store c)
    (sc_peers c) (sc_disk c) (sc_wg c) (sc_sybil c) (sc_relay c) (sc_metrics c)
    (sc_lookups c) (sc_next_corr c) (sc_endpoints c) x (sc_keys c) (sc_pending_wg c)
    (sc_mapped c) (sc_punches c) (sc_via_relay c).

Definition set_keys (x : gmap SocketAddr (arr 32)) (c : ShardCtx) : ShardCtx :=
  mkShardCtx
    (sc_id c) (sc_identity c) (sc_cfg c) (sc_local c) (sc_pool c) (sc_table c) (sc_store c)
    (sc_peers c) (sc_disk c) (sc_wg c) (sc_sybil c) (sc_relay c) (sc_metrics c)
    (sc_lookups c) (sc_next_corr c) (sc_endpoints c) (sc_timers c) x (sc_pending_wg c)
    (sc_mapped c) (sc_punches c) (sc_via_relay c).

Definition set_pending_wg (x : gmap SocketAddr (list bytes)) (c : ShardCtx) : ShardCtx :=
  mkShardCtx
    (sc_id c) (sc_identity c) (sc_cfg c) (sc_local c) (sc_pool c) (sc_table c) (sc_store c)
    (sc_peers c) (sc_disk c) (sc_wg c) (sc_sybil c) (sc_relay c) (sc_metrics c)
    (sc_lookups c) (sc_next_corr c) (sc_endpoints c) (sc_timers c) (sc_keys c) x
    (sc_mapped c) (sc_punches c) (sc_via_relay c).

Definition set_mapped (x : option SocketAddr) (c : ShardCtx) : ShardCtx :=
  mkShardCtx
    (sc_id c) (sc_identity c) (sc_cfg c) (sc_local c) (sc_pool c) (sc_table c) (sc_store c)
    (sc_peers c) (sc_disk c) (sc_wg c) (sc_sybil c) (sc_relay c) (sc_metrics c)
    (sc_lookups c) (sc_next_corr c) (sc_endpoints c) (sc_timers c) (sc_keys c)
    (sc_pending_wg c) x (sc_punches c) (sc_via_relay c).

Definition set_punches (x : gmap NodeId PunchAttempt) (c : ShardCtx) : ShardCtx :=
  mkShardCtx
    (sc_id c) (sc_identity c) (sc_cfg c) (sc_local c) (sc_pool c) (sc_table c) (sc_store c)
    (sc_peers c) (sc_disk c) (sc_wg c) (sc_sybil c) (sc_relay c) (sc_metrics c)
    (sc_lookups c) (sc_next_corr c) (sc_endpoints c) (sc_timers c) (sc_keys c)
    (sc_pending_wg c) (sc_mapped c) x (sc_via_relay c).

Definition set_via_relay (x : gmap NodeId SocketAddr) (c : ShardCtx) : ShardCtx :=
  mkShardCtx
    (sc_id c) (sc_identity c) (sc_cfg c) (sc_local c) (sc_pool c) (sc_table c) (sc_store c)
    (sc_peers c) (sc_disk c) (sc_wg c) (sc_sybil c) (sc_relay c) (sc_metrics c)
    (sc_lookups c) (sc_next_corr c) (sc_endpoints c) (sc_timers c) (sc_keys c)
    (sc_pending_wg c) (sc_mapped c) (sc_punches c) x.

Record St := mkSt {
  st_ctx : ShardCtx;
  st_tick : nat;
  st_out : list Out;
  st_answers : list (Sender * Reply);
}.

(** ** The monad *)

Definition M (A : Type) : Type := Env → St → A * St.

#[global] Instance M_ret : MRet M := λ A a _ s, (a, s).
#[global] Instance M_bind : MBind M := λ A B f m e s, let '(a, s') := m e s in f a e s'.

Definition gets {A} (f : ShardCtx → A) : M A := λ _ s, (f (st_ctx s), s).

Definition modify (f : ShardCtx → ShardCtx) : M unit :=
  λ _ s, (tt, mkSt (f (st_ctx s)) (st_tick s) (st_out s) (st_answers s)).

(** One reading of the environment. *)
Definition read {A} (f : Env → nat → A) : M A :=
  λ e s, (f e (st_tick s), mkSt (st_ctx s) (S (st_tick s)) (st_out s) (st_answers s)).

Definition now_instant : M Z := read env_now.
Definition now_unix : M Z := read env_unix.
Definition now_unix_ms : M Z := read env_unix_ms.

Definition write_out (o : Out) : M unit :=
  λ _ s, (tt, mkSt (st_ctx s) (st_tick s) (st_out s ++ [o]) (st_answers s)).

(** [let _ = tx.send(reply)] *)
Definition answer (tx : Sender) (r : Reply) : M unit :=
  λ _ s, (tt, mkSt (st_ctx s) (st_tick s) (st_out s) (st_answers s ++ [(tx, r)])).

Definition when_ (b : bool) (m : M unit) : M unit := if b then m else mret tt.

Fixpoint for_ {A} (l : list A) (f : A → M unit) : M unit :=
  match l with
  | [] => mret tt
  | a :: l => f a;; for_ l f
  end.

(** ** The operations of the components, on the shard's copy *)

Definition incr (k : Counter) : M unit := modify (λ c, set_metrics (metrics_add k 1 (sc_metrics c)) c).

Definition add_metric (k : Counter) (n : Z) : M unit :=
  modify (λ c, set_metrics (metrics_add k n (sc_metrics c)) c).

Definition pool_take : M Buffer :=
  b ← gets (λ c, (BufferPool_take (sc_pool c)).2);
  modify (λ c, set_pool (BufferPool_take (sc_pool c)).1 c);;
  mret b.

Definition pool_recycle (b : Buffer) : M unit := modify (λ c, set_pool (recycle (sc_pool c) b) c).

(** A buffer after its bytes were overwritten. *)
Definition refill (b : Buffer) (data : bytes) : Buffer := mkBuffer data (buf_capacity b).

Definition table_insert (info : PeerInfo) : M unit :=
  now ← now_instant;
  modify (λ c, set_table (RoutingTable_insert now (sc_table c) info).1 c).

Definition peers_upsert (info : PeerInfo) : M unit :=
  modify (λ c, set_peers (Peerstore_upsert (sc_peers c) info) c).

Definition schedule_timer (at_ : Z) (k : TimerKind) : M unit :=
  modify (λ c, set_timers (schedule (sc_timers c) at_ k) c).

Definition pre_handshake (src : SocketAddr) : M bool :=
  now ← now_instant;
  ok ← gets (λ c, (allow_pre_handshake (sc_sybil c) src now).2);
  modify (λ c, set_sybil (allow_pre_handshake (sc_sybil c) src now).1 c);;
  mret ok.

Definition wg_add_peer (x : arr 32) (pid : option NodeId) (ep : option SocketAddr) : M unit :=
  modify (λ c, set_wg (add_peer (sc_wg c) x pid ep).1 c).

Definition wg_encapsulate_to (dest : SocketAddr) (x : arr 32) (inner out : bytes)
    : M (option nat * bytes) :=
  r ← gets (λ c, let '(_, n, out) := encapsulate_to (sc_wg c) dest x None inner out in (n, out));
  modify (λ c, set_wg (encapsulate_to (sc_wg c) dest x None inner out).1.1 c);;
  mret r.

Definition wg_decapsulate (src : SocketAddr) (datagram scratch : bytes) : M (Decap * bytes) :=
  perm ← read env_ids;
  order ← gets (λ c, perm ((map_to_list (sessions (sc_wg c))).*1));
  r ← gets (λ c, let '(_, d, scratch) := decapsulate (sc_wg c) order src datagram scratch in (d, scratch));
  modify (λ c, set_wg (decapsulate (sc_wg c) order src datagram scratch).1.1 c);;
  mret r.

Definition relay_forward (n : Z) (control : bool) : M bool :=
  ok ← gets (λ c, (forward (sc_relay c) n control).2);
  modify (λ c, set_relay (forward (sc_relay c) n control).1 c);;
  mret ok.

(** [ctx.relay.budget.on_egress(n)] *)
Definition relay_egress (n : Z) : M unit :=
  modify (λ c, set_relay (mkRelayState (enabled (sc_relay c)) (on_egress (rs_budget (sc_relay c)) n)
                            (prefer_control (sc_relay c))) c).

(** [ctx.io.send_to]: whether the write succeeds is up to the socket. *)
Definition send_raw (dest : SocketAddr) (packet : bytes) : M unit := write_out (OutWg dest packet).

Lemma bind_run {A B} (m : M A) (f : A → M B) e s : mbind f m e s = f (m e s).1 e (m e s).2.
Proof. unfold mbind, M_bind. by destruct (m e s). Qed.
End state.
