(* ===== verification/Shard.v ===== *)
(** * The handlers of a shard ([src/shard.rs])

    Every function of the shard's event loop: sending, the handlers of the message types,
    lookups, hole punching and relaying, the WireGuard paths, the timers, the commands of
    the API, and the loop itself. *)

From S2P Require Import Prelude Bytes Types Proto Codec Routing Crypto Net Peerstore Store Pool Lookup Wg Relay EventLoop Metrics Sybil Erasure ShardState.

(** ** Addresses and peers on the wire *)

(** [format!("udp://{a}")] *)
Definition addr_to_proto (a : SocketAddr) : proto.Addr :=
  proto.mkAddr (bstr "udp://" ++ addr_to_string a).

Definition encode_addrs (addrs : list SocketAddr) : list proto.Addr := addr_to_proto <$> addrs.

Definition strip_prefix (p l : bytes) : option bytes :=
  if bool_decide (take (length p) l = p) then Some (drop (length p) l) else None.

Definition parse_multiaddr (raw : bytes) : option SocketAddr :=
  s ← from_utf8 raw;
  addr_parse (default s (strip_prefix (bstr "udp://") s)).

Definition peer_to_proto (p : PeerInfo) : proto.Peer :=
  {| proto.peer_id := vec_to_list (nid (pi_id p));
     proto.peer_addrs := addr_to_proto <$> pi_addrs p;
     proto.peer_rtt_ms := pi_rtt_ms p;
     proto.peer_x25519_pubkey := from_option vec_to_list [] (pi_x25519 p) |}.

Definition peers_to_proto (peers : list PeerInfo) : list proto.Peer :=
  peer_to_proto <$> take MAX_FIND_NODE_PEERS peers.

Definition set_x25519 (x : arr 32) (p : PeerInfo) : PeerInfo :=
  {| pi_id := pi_id p; pi_addrs := pi_addrs p; pi_rtt_ms := pi_rtt_ms p; pi_x25519 := Some x |}.

(** The closure of [peers_from_proto]. *)
Definition peer_from_proto (p : proto.Peer) : option PeerInfo :=
  id ← NodeId_from_bytes (proto.peer_id p);
  match omap (λ a, parse_multiaddr (proto.multiaddr a)) (proto.peer_addrs p) with
  | [] => None
  | addr :: addrs =>
      let info := foldl push_addr (PeerInfo_new id addr) addrs in
      Some (if length (proto.peer_x25519_pubkey p) =? 32
            then set_x25519 (list_to_arr 32 (proto.peer_x25519_pubkey p)) info else info)
  end.

Definition peers_from_proto (peers : list proto.Peer) : list PeerInfo := omap peer_from_proto peers.

(** The identifier under which an address without a known key is filed. *)
Definition synthetic_bytes (src : SocketAddr) : bytes :=
  let b := replicate 32 (z2b 0) in
  let b := match addr_ip src with
           | IpV4 v => write_at b 0 (vec_to_list v)
           | IpV6 v => write_at b 0 (vec_to_list v)
           end in
  write_at b 30 (be_bytes 2 (addr_port src)).

Definition owns_key (self_id : NodeId) (k : Key) (shard shard_count : Z) : bool :=
  (shard_id self_id k shard_count =? shard)%Z.

(** [proto::store_resp::Code], [proto::announce_provider_resp::Code], [proto::error::Code] *)
Definition STORE_OK : Z := 0.
Definition STORE_INVALID : Z := 3.
Definition ANNOUNCE_OK : Z := 0.
Definition ERROR_RATE_LIMITED : Z := 3.
Definition ERROR_UNSUPPORTED : Z := 6.

Section shard.
Context `{TunnOps} `{KeyedHash} `{Protobuf} `{Crc32}.
Context (rs_encode : list bytes → result (list bytes)).

Definition peer_id_for (c : ShardCtx) (dest : SocketAddr) : option NodeId :=
  (λ e, pi_id (pe_info e)) <$>
    find (λ e, existsb (λ a, bool_decide (a = dest)) (pi_addrs (pe_info e))) (all_peers (sc_table c)).

Definition our_candidates (c : ShardCtx) : list SocketAddr := candidates (sc_local c) (sc_mapped c).

Definition self_node (c : ShardCtx) : NodeId := node_id (sc_identity c).

(** ** Sending *)

Definition bump_corr (n : Z) : Z := let n := wrap 32 (n + 1) in if (n =? 0)%Z then 1%Z else n.

Definition next_corr : M Z :=
  c ← gets sc_next_corr;
  modify (set_next_corr (bump_corr c));;
  mret c.

(** [let mut buf = ctx.pool.take(); if let Some(n) = encode_message(..) { k(&buf[..n]) };
    ctx.pool.recycle(buf)] *)
Definition encoded {T A} `{Message T} (h : Header) (m : T) (d : A) (k : bytes → M A) : M A :=
  buf ← pool_take;
  let '(out, n) := encode_message h m (buf_data buf) in
  r ← (match n with Some n => k (take n out) | None => mret d end);
  pool_recycle (refill buf out);;
  mret r.

Definition send_plain (dest : SocketAddr) (app : bytes) : M unit :=
  ok ← read env_sent;
  write_out (OutPlain dest app);;
  when_ ok (incr MTxPackets;; add_metric MTxBytes (Z.of_nat (length app))).

Definition send_relay_frame (hop : SocketAddr) (dest : NodeId) (app : bytes) : M unit :=
  c ← gets id;
  if bool_decide (hop = sc_local c) then mret tt
  else
    let cands := omap (λ e, (PeerEntry_id e,.) <$> primary_addr (pe_info e)) (all_peers (sc_table c)) in
    let hop := default hop (pick_relay (self_node c) dest cands) in
    corr ← next_corr;
    encoded (Header_request Relay Coordination corr)
      {| proto.relay_dest_id := vec_to_list (nid dest);
         proto.relay_from_id := vec_to_list (nid (self_node c));
         proto.relay_payload := app |} tt
      (λ frame, send_plain hop frame;; add_metric MRelayBytes (Z.of_nat (length frame))).

Definition is_initiation (packet : bytes) : bool :=
  match parse_wg_header packet with Some h => (wg_ty h =? WG_TYPE_INITIATION)%Z | None => false end.

(** [ctx.pending_wg.entry(dest).or_default().extend(apps)] *)
Definition queue_pending (dest : SocketAddr) (apps : list bytes) : M unit :=
  modify (λ c, set_pending_wg
    (<[dest := default [] (sc_pending_wg c !! dest) ++ apps]> (sc_pending_wg c)) c).

Definition send_wg (dest : SocketAddr) (x : arr 32) (app : bytes) : M unit :=
  let inner := wrap_rpc app in
  out ← pool_take;
  '(n, o) ← wg_encapsulate_to dest x inner (buf_data out);
  match n with
  | Some n =>
      when_ (is_initiation (take n o)) (queue_pending dest [app]);;
      send_raw dest (take n o);;
      incr MTxPackets;;
      pool_recycle (refill out o)
  | None =>
      queue_pending dest [app];;
      '(n, o) ← wg_encapsulate_to dest x [] o;
      (match n with Some n => send_raw dest (take n o);; incr MTxPackets | None => mret tt end);;
      pool_recycle (refill out o)
  end.

Definition send_app (dest : SocketAddr) (x25519 : option (arr 32)) (app : bytes) : M unit :=
  if PMTU_FLOOR <? length app then mret tt
  else
    via ← gets (λ c, pid ← peer_id_for c dest; (pid,.) <$> sc_via_relay c !! pid);
    match via with
    | Some (pid, hop) => send_relay_frame hop pid app
    | None =>
        relay_egress (Z.of_nat (length app));;
        c ← gets id;
        match (match x25519 with Some x => Some x | None => sc_keys c !! dest end) with
        | Some x => if plaintext (sc_cfg c) then send_plain dest app else send_wg dest x app
        | None => send_plain dest app
        end
    end.

Definition intro_ping (c : ShardCtx) (now : Z) : proto.Ping :=
  {| proto.ping_now_unix_ms := now;
     proto.ping_x25519_pubkey := vec_to_list (wg_public (sc_identity c));
     proto.ping_ed25519_pubkey := vec_to_list (verifying_key (sc_identity c));
     proto.ping_binding_sig := vec_to_list (binding_signature (sc_identity c)) |}.

Definition intro_pong (c : ShardCtx) (now : Z) (src : SocketAddr) : proto.Pong :=
  {| proto.pong_now_unix_ms := now;
     proto.pong_x25519_pubkey := vec_to_list (wg_public (sc_identity c));
     proto.pong_ed25519_pubkey := vec_to_list (verifying_key (sc_identity c));
     proto.pong_binding_sig := vec_to_list (binding_signature (sc_identity c));
     proto.pong_observed := Some (addr_to_proto src) |}.

Definition ping (dest : SocketAddr) : M unit :=
  corr ← next_corr;
  c ← gets id;
  now ← now_unix_ms;
  encoded (Header_request Ping Control corr) (intro_ping c now) tt (send_plain dest).

Definition reply_peers (dest : SocketAddr) (corr : Z) (ps : list PeerInfo) : M unit :=
  encoded (Header_response FindNodeResp Coordination corr)
    (proto.mkFindNodeResp (peers_to_proto ps)) tt (send_app dest None).

Definition send_error (dest : SocketAddr) (corr code : Z) (reason : string) : M unit :=
  encoded (Header_response ErrorMsg Control corr)
    {| proto.err_code := code; proto.err_reason := bstr reason; proto.err_retry_after_ms := 50 |} tt
    (send_app dest None).

Definition send_store_rpc (rec : StoredRecord) : M unit :=
  ps ← gets (λ c, closest (sc_table c) (key rec) K_DEFAULT);
  let enc := StoredRecord_encode rec in
  for_ ps (λ p,
    match primary_addr p with
    | None => mret tt
    | Some dest =>
        corr ← next_corr;
        encoded (Header_request StoreReq Coordination corr)
          {| proto.sq_record := enc; proto.sq_admission_token := []; proto.sq_cost_stamp := [] |} tt
          (send_app dest (pi_x25519 p))
    end).

Definition replicate_store (v : bytes) (k : Key) (ttl : Z) : M unit :=
  now ← now_unix;
  send_store_rpc {|
    key := k; value := v; sequence := 0; ttl_secs := ttl; not_before_unix := 0; owner_pubkey := [];
    signature := []; kind := KIND_IMMUTABLE; namespace := []; salt := []; stored_unix := now;
    cache := false |}.

Definition announce_rpc (k : Key) (meta : bytes) : M unit :=
  c ← gets id;
  for_ (closest (sc_table c) k K_DEFAULT) (λ p,
    match primary_addr p with
    | None => mret tt
    | Some dest =>
        corr ← next_corr;
        encoded (Header_request AnnounceProviderReq Coordination corr)
          {| proto.aq_key := vec_to_list (kid k);
             proto.aq_self_descriptor :=
               Some (proto.mkProvider (vec_to_list (nid (self_node c))) meta);
             proto.aq_record := []; proto.aq_admission_token := []; proto.aq_cost_stamp := [] |} tt
          (send_app dest (pi_x25519 p))
    end).

(** ** What the shard learns about peers *)

Definition note_peer_keys (src : SocketAddr) (x25519 ed25519 sig : bytes) : M (option NodeId) :=
  if negb (length x25519 =? 32) || negb (length ed25519 =? 32) || (length sig =? 0) then mret None
  else if negb (verify_binding ed25519 x25519 sig) then mret None
  else
    let x := list_to_arr 32 x25519 in
    let pid := node_id_from_pubkey ed25519 in
    modify (λ c, set_keys (<[src := x]> (sc_keys c)) c);;
    wg_add_peer x (Some pid) (Some src);;
    let info := set_x25519 x (PeerInfo_new pid src) in
    table_insert info;;
    peers_upsert info;;
    mret (Some pid).

Definition learn_addr (src : SocketAddr) (pid : option NodeId) : M unit :=
  match pid with
  | Some pid =>
      known ← gets (λ c, pe_info <$> RoutingTable_get (sc_table c) pid);
      let info := push_addr (default (PeerInfo_new pid src) known) src in
      table_insert info;;
      peers_upsert info;;
      now ← now_instant;
      modify (λ c, set_endpoints (<[pid := mkEndpointHint src (Some src) now]> (sc_endpoints c)) c);;
      modify (λ c, set_sybil (reward (sc_sybil c) pid) c);;
      now ← now_instant;
      modify (λ c, set_table (touch_ok now (sc_table c) pid 80000) c)
  | None =>
      let info := PeerInfo_new (mkNodeId (blake3_hash (synthetic_bytes src))) src in
      table_insert info;;
      peers_upsert info
  end.

(** ** Hole punching *)

Definition send_punch_msg (hop : SocketAddr) (tgt : NodeId) (cands : list SocketAddr) : M unit :=
  corr ← next_corr;
  c ← gets id;
  encoded (Header_request Punch Control corr)
    {| proto.punch_target_id := vec_to_list (nid tgt);
       proto.punch_from_id := vec_to_list (nid (self_node c));
       proto.punch_candidates := encode_addrs cands |} tt (send_plain hop).

(** [bursts_done] is a [u8]. *)
Definition note_burst (now : Z) (p : PunchAttempt) : PunchAttempt :=
  {| pa_peer := pa_peer p; pa_candidates := pa_candidates p; rendezvous := rendezvous p;
     bursts_done := sat_add 8 (bursts_done p) 1; next_burst := (punch_deadlines now).1;
     relay_at := relay_at p; replied := replied p |}.

Definition burst_punch (pid : NodeId) : M unit :=
  cands ← gets (λ c, pa_candidates <$> sc_punches c !! pid);
  match cands with
  | None => mret tt
  | Some cands =>
      for_ cands ping;;
      now ← now_instant;
      modify (λ c, set_punches (alter (note_burst now) pid (sc_punches c)) c);;
      incr MPunchOk
  end.

Definition new_attempt (pid : NodeId) (cands : list SocketAddr) (rdv : SocketAddr) (now : Z)
    : PunchAttempt :=
  {| pa_peer := pid; pa_candidates := cands; rendezvous := rdv; bursts_done := 0; next_burst := now;
     relay_at := (punch_deadlines now).2 + millis 250; replied := false |}.

Definition start_punch (p : PeerInfo) (rdv : SocketAddr) : M unit :=
  c ← gets id;
  if bool_decide (pi_id p = self_node c) then mret tt
  else
    now ← now_instant;
    if from_option (λ e, fresh e now) false (sc_endpoints c !! pi_id p) then mret tt
    else if bool_decide (is_Some (sc_punches c !! pi_id p)) ||
            bool_decide (is_Some (sc_via_relay c !! pi_id p)) then mret tt
    else
      now ← now_instant;
      if length (pi_addrs p) =? 0 then mret tt
      else
        modify (λ c, set_punches
          (<[pi_id p := new_attempt (pi_id p) (pi_addrs p) rdv now]> (sc_punches c)) c);;
        send_punch_msg rdv (pi_id p) (our_candidates c);;
        burst_punch (pi_id p);;
        schedule_timer (punch_deadlines now).1 PunchTick.

(** [attempt] after an incoming punch request. *)
Definition refresh_attempt (cands : list SocketAddr) (rdv : SocketAddr) (p : PunchAttempt)
    : PunchAttempt :=
  {| pa_peer := pa_peer p; pa_candidates := cands; rendezvous := rdv; bursts_done := bursts_done p;
     next_burst := next_burst p; relay_at := relay_at p; replied := replied p |}.

Definition set_replied (p : PunchAttempt) : PunchAttempt :=
  {| pa_peer := pa_peer p; pa_candidates := pa_candidates p; rendezvous := rendezvous p;
     bursts_done := bursts_done p; next_burst := next_burst p; relay_at := relay_at p;
     replied := true |}.

(** The branch of [on_punch] for a request addressed to this node. *)
Definition accept_punch (src : SocketAddr) (from : NodeId) (cands : list SocketAddr) : M unit :=
  match cands with
  | [] => mret tt
  | first :: _ =>
      known ← gets (λ c, pe_info <$> RoutingTable_get (sc_table c) from);
      table_insert (foldl push_addr (default (PeerInfo_new from first) known) cands);;
      now ← now_instant;
      c ← gets id;
      let attempt := refresh_attempt cands src
                       (default (new_attempt from cands src now) (sc_punches c !! from)) in
      modify (λ c, set_punches (<[from := set_replied attempt]> (sc_punches c)) c);;
      when_ (negb (replied attempt)) (send_punch_msg src from (our_candidates c));;
      burst_punch from;;
      schedule_timer (punch_deadlines now).1 PunchTick
  end.

(** A punch or relay request passed on to the next node. *)
Definition pass_on {T} `{Message T} (ty : MessageType) (qos : Qos) (m : T) (next : SocketAddr) : M unit :=
  corr ← next_corr;
  encoded (Header_request ty qos corr) m tt
    (λ frame, send_plain next frame;; add_metric MRelayBytes (Z.of_nat (length frame))).

Definition addr_of (c : ShardCtx) (pid : NodeId) : option SocketAddr :=
  e ← RoutingTable_get (sc_table c) pid; primary_addr (pe_info e).

Definition on_punch (src : SocketAddr) (pkt : bytes) : M unit :=
  match decode_body proto.Punch pkt with
  | None => mret tt
  | Some p =>
      match NodeId_from_bytes (proto.punch_target_id p), NodeId_from_bytes (proto.punch_from_id p) with
      | Some tgt, Some from =>
          c ← gets id;
          if bool_decide (tgt = self_node c) then
            accept_punch src from
              (omap (λ a, parse_multiaddr (proto.multiaddr a)) (proto.punch_candidates p))
          else
            match addr_of c tgt with
            | None => mret tt
            | Some dest => pass_on Punch Control p dest
            end
      | _, _ => mret tt
      end
  end.

(** One turn of the loop of [on_punch_timer]; the result is the new value of [again]. *)
Definition punch_turn (now : Z) (again : bool) (pid : NodeId) : M bool :=
  now' ← now_instant;
  is_fresh ← gets (λ c, from_option (λ e, fresh e now') false (sc_endpoints c !! pid));
  if is_fresh : bool then
    modify (λ c, set_punches (delete pid (sc_punches c)) c);;
    modify (λ c, set_via_relay (delete pid (sc_via_relay c)) c);;
    mret again
  else
    p ← gets (λ c, sc_punches c !! pid);
    match p with
    | None => mret again
    | Some p =>
        let go := ((bursts_done p <? 2) && (next_burst p <=? now))%Z in
        when_ go (burst_punch pid);;
        p ← gets (λ c, sc_punches c !! pid);
        match p with
        | None => mret (go || again)
        | Some p =>
            if ((2 <=? bursts_done p) && (relay_at p <=? now))%Z then
              modify (λ c, set_punches (delete pid (sc_punches c)) c);;
              known ← gets (λ c, enabled (sc_relay c) ||
                                 bool_decide (is_Some (RoutingTable_get (sc_table c) pid)));
              when_ known (modify (λ c, set_via_relay (<[pid := rendezvous p]> (sc_via_relay c)) c));;
              mret (go || again)
            else mret true
        end
    end.

Fixpoint fold_ {A B} (f : B → A → M B) (l : list A) (b : B) : M B :=
  match l with
  | [] => mret b
  | a :: l => b ← f b a; fold_ f l b
  end.

Definition on_punch_timer (now : Z) : M unit :=
  perm ← read env_nodes;
  ids ← gets (λ c, perm ((map_to_list (sc_punches c)).*1));
  again ← fold_ (punch_turn now) ids false;
  when_ again (schedule_timer (now + millis 250) PunchTick).

(** ** Lookups *)

Definition send_probe (p : PeerInfo) (dest : SocketAddr) (probe : Key) : M unit :=
  corr ← next_corr;
  let h := Header_request FindValueReq Hints corr in
  let h := mkHeader (h_version h) (h_ty h) (z2b (Z.lor (b2z (h_flags h)) FLAG_PROBE)) (h_qos h)
             (h_correlation h) (h_stream_id h) in
  encoded h (proto.mkFindValueReq (vec_to_list (kid probe)) 1) tt (send_app dest (pi_x25519 p)).

(** One turn of the loop of [dispatch_lookup_batch]. *)
Definition dispatch_one (l : Lookup) (p : PeerInfo) : M Lookup :=
  corr ← next_corr;
  match primary_addr p with
  | None => mret l
  | Some dest =>
      let sent app := send_app dest (pi_x25519 p) app;;
                      now ← now_instant;
                      mret (note_sent l (pi_id p) corr now) in
      l ← (match lk_kind l with
           | FindNode =>
               encoded (Header_request FindNodeReq Coordination corr)
                 (proto.mkFindNodeReq (vec_to_list (kid (target l))) (Z.of_nat K_DEFAULT)) l sent
           | FindValue =>
               encoded (Header_request FindValueReq Coordination corr)
                 (proto.mkFindValueReq (vec_to_list (kid (target l))) 16) l sent
           end);
      match privacy l with
      | PrivacyBlind => for_ (probe_targets l) (send_probe p dest)
      | _ => mret tt
      end;;
      mret l
  end.

Definition dispatch_lookup_batch (l : Lookup) : M Lookup :=
  now ← now_instant;
  let '(l, batch) := next_batch l now in
  fold_ dispatch_one batch l.

(** The reply a finished lookup sends. *)
Definition lookup_reply (kd : LookupKind) (l : Lookup) : Reply :=
  match kd with
  | FindNode => RPeers (finish_peers l)
  | FindValue =>
      match found_record l with
      | Some r => RRecord (Some r)
      | None => if length (lk_providers l) =? 0 then RValue None else RProviders (lk_providers l)
      end
  end.

Definition finish_lookup (kd : LookupKind) (l : Lookup) (reply : option Sender) : M unit :=
  match reply with
  | None => mret tt
  | Some tx => answer tx (lookup_reply kd l)
  end.

Definition insert_lookup (n : Z) (p : PendingLookup) : M unit :=
  modify (λ c, set_lookups (<[n := p]> (sc_lookups c)) c).

Definition start_lookup (kd : LookupKind) (tgt : Key) (reply : option Sender) : M unit :=
  c ← gets id;
  let pm := if query_blind (sc_cfg c) then PrivacyBlind else PrivacyNone in
  let seeds := closest (sc_table c) tgt ALPHA_DEFAULT in
  now ← now_instant;
  l ← dispatch_lookup_batch (Lookup_new kd tgt seeds pm now);
  if lk_done l then finish_lookup kd l reply
  else
    n ← gets sc_next_corr;
    insert_lookup n (mkPendingLookup l reply).

(** Does the lookup wait for a response with this correlation number? *)
Definition awaits (corr : Z) (p : PendingLookup) : bool :=
  existsb (λ f, (if_corr f =? corr)%Z) (in_flight (pl_lookup p)).

Definition find_lookup_mut (corr : Z) : M (option (Z * PendingLookup)) :=
  perm ← read env_ids;
  gets (λ c,
    let ids := perm ((map_to_list (sc_lookups c)).*1) in
    head (omap (λ n, p ← sc_lookups c !! n; if awaits corr p then Some (n, p) else None) ids)).

(** [if let Some(pend) = find_lookup_mut(ctx, corr) { f(&mut pend.lookup) }] *)
Definition update_lookup (corr : Z) (f : Lookup → Lookup) : M unit :=
  found ← find_lookup_mut corr;
  match found with
  | None => mret tt
  | Some (n, p) => insert_lookup n (mkPendingLookup (f (pl_lookup p)) (pl_reply p))
  end.

Definition sweep_one (n : Z) : M unit :=
  found ← gets (λ c, sc_lookups c !! n);
  match found with
  | None => mret tt
  | Some pend =>
      modify (λ c, set_lookups (delete n (sc_lookups c)) c);;
      l ← dispatch_lookup_batch (pl_lookup pend);
      if lk_done l then
        when_ (bool_decide (is_Some (found_record l))) (incr MLookupOk);;
        finish_lookup (lk_kind l) l (pl_reply pend)
      else insert_lookup n (mkPendingLookup l (pl_reply pend))
  end.

Definition sweep_lookups : M unit :=
  perm ← read env_ids;
  ids ← gets (λ c, perm ((map_to_list (sc_lookups c)).*1));
  for_ ids sweep_one.

Definition complete_closer (corr : Z) (src : SocketAddr) (ps : list PeerInfo) : M unit :=
  from ← gets (λ c, from_option PeerEntry_id (mkNodeId (arr_repeat (z2b 0) 32))
    (find (λ e, bool_decide (primary_addr (pe_info e) = Some src)) (all_peers (sc_table c))));
  update_lookup corr (λ l, on_closer l from ps 50000);;
  sweep_lookups.

(** The lookup part of [LookupTick]: every lookup's timed-out peers. *)
Definition timeout_one (now : Z) (timed : list NodeId) (n : Z) : M (list NodeId) :=
  found ← gets (λ c, sc_lookups c !! n);
  match found with
  | None => mret timed
  | Some p =>
      let '(l, dead) := on_timeouts (pl_lookup p) now in
      insert_lookup n (mkPendingLookup l (pl_reply p));;
      mret (timed ++ dead)
  end.

(** ** Message handlers *)

Definition respond {T} `{Message T} (ty : MessageType) (qos : Qos) (src : SocketAddr) (h : Header)
    (m : T) : M unit :=
  encoded (Header_response ty qos (h_correlation h)) m tt (send_app src None).

Definition on_ping (src : SocketAddr) (h : Header) (pkt : bytes) : M unit :=
  pid ← (match decode_body proto.Ping pkt with
         | Some p => note_peer_keys src (proto.ping_x25519_pubkey p) (proto.ping_ed25519_pubkey p)
                       (proto.ping_binding_sig p)
         | None => mret None
         end);
  learn_addr src pid;;
  c ← gets id;
  now ← now_unix_ms;
  encoded (Header_response Pong Control (h_correlation h)) (intro_pong c now src) tt (send_plain src).

Definition on_pong (src : SocketAddr) (pkt : bytes) : M unit :=
  let pong := decode_body proto.Pong pkt in
  match (p ← pong; a ← proto.pong_observed p; parse_multiaddr (proto.multiaddr a)) with
  | Some obs => modify (set_mapped (Some obs))
  | None => mret tt
  end;;
  pid ← (match pong with
         | Some p => note_peer_keys src (proto.pong_x25519_pubkey p) (proto.pong_ed25519_pubkey p)
                       (proto.pong_binding_sig p)
         | None => mret None
         end);
  learn_addr src pid;;
  match pid with
  | Some pid =>
      modify (λ c, set_via_relay (delete pid (sc_via_relay c)) c);;
      modify (λ c, set_punches (delete pid (sc_punches c)) c)
  | None => mret tt
  end.

Definition on_negotiate (src : SocketAddr) (h : Header) : M unit :=
  respond NegotiateResp Control src h (proto.mkNegotiateResp (Some default_capabilities)).

(** [(req.limit as usize).clamp(1, MAX_FIND_NODE_PEERS)] *)
Definition clamp_limit (limit : Z) : nat := Nat.max 1 (Nat.min (Z.to_nat limit) MAX_FIND_NODE_PEERS).

Definition on_find_node (src : SocketAddr) (h : Header) (pkt : bytes) : M unit :=
  match decode_body proto.FindNodeReq pkt with
  | None => mret tt
  | Some req =>
      let tgt := default (mkKey (arr_repeat (z2b 0) 32)) (Key_from_bytes (proto.fnq_target_id req)) in
      ps ← gets (λ c, closest (sc_table c) tgt (clamp_limit (proto.fnq_limit req)));
      reply_peers src (h_correlation h) ps
  end.

Definition on_find_node_resp (src : SocketAddr) (h : Header) (pkt : bytes) : M unit :=
  match decode_body proto.FindNodeResp pkt with
  | None => mret tt
  | Some resp =>
      let ps := peers_from_proto (proto.fnr_peers resp) in
      for_ ps (λ p, table_insert p;; peers_upsert p;; start_punch p src);;
      learn_addr src (pi_id <$> head ps);;
      complete_closer (h_correlation h) src ps
  end.

Definition on_find_value (src : SocketAddr) (h : Header) (pkt : bytes) : M unit :=
  match decode_body proto.FindValueReq pkt with
  | None => mret tt
  | Some req =>
      match Key_from_bytes (proto.fvq_key req) with
      | None => mret tt
      | Some k =>
          closer ← gets (λ c, closest (sc_table c) k MAX_CLOSER_PEERS);
          now ← now_unix;
          found ← gets (λ c, Store_get (sc_store c) now k);
          match (if is_probe h then None else found) with
          | Some rec =>
              respond FindValueResp Coordination src h
                (proto.mkFindValueResp (Some (proto.ResultRecord (StoredRecord_encode rec)))
                   (peers_to_proto closer))
          | None =>
              now ← now_unix;
              prov ← gets (λ c, Store_providers (sc_store c) now k
                                  (Nat.min (Z.to_nat (proto.fvq_provider_limit req)) MAX_PROVIDERS_PER_CHUNK));
              let result :=
                if length prov =? 0 then None
                else Some (proto.ResultProviders
                       ((λ e, proto.mkProvider (vec_to_list (nid (pe_peer_id e))) (pe_meta e)) <$> prov)) in
              respond FindValueResp Coordination src h
                (proto.mkFindValueResp result (peers_to_proto closer))
          end
      end
  end.

Definition zero_node : NodeId := mkNodeId (arr_repeat (z2b 0) 32).

(** The record branch of [on_find_value_resp]. *)
Definition accept_record (h : Header) (b : bytes) : M unit :=
  match decode_msg (T := proto.Record_) b with
  | None => mret tt
  | Some pr =>
      now ← now_unix;
      match record_from_proto now pr with
      | None => mret tt
      | Some rec =>
          if authentic rec then
            now ← now_unix;
            when_ (negb (is_probe h)) (modify (λ c, set_store (cache_hit (sc_store c) now rec) c));;
            update_lookup (h_correlation h) (λ l, on_record l zero_node rec)
          else mret tt
      end
  end.

Definition on_find_value_resp (src : SocketAddr) (h : Header) (pkt : bytes) : M unit :=
  match decode_body proto.FindValueResp pkt with
  | None => mret tt
  | Some resp =>
      let closer := peers_from_proto (proto.fvr_closer_peers resp) in
      for_ closer (λ p, table_insert p;; start_punch p src);;
      match proto.fvr_result resp with
      | Some (proto.ResultRecord b) => accept_record h b
      | Some (proto.ResultProviders l) =>
          let l := omap (λ x, (., proto.prov_meta x) <$> NodeId_from_bytes (proto.prov_peer_id x)) l in
          update_lookup (h_correlation h) (λ lk, on_providers lk zero_node l closer)
      | None => complete_closer (h_correlation h) src closer
      end;;
      sweep_lookups
  end.

(** The code and reason of the answer to a store request, after its effect.  The outcome
    of [check_cost_stamp], which changes nothing, is dropped. *)
Definition store_request (h : Header) (req : proto.StoreReq) : M (Z * string) :=
  match decode_msg (T := proto.Record_) (proto.sq_record req) with
  | None => mret (STORE_INVALID, "decode")
  | Some pr =>
      now ← now_unix;
      match record_from_proto now pr with
      | None => mret (STORE_INVALID, "record")
      | Some rec =>
          r ← gets (λ c, (put_record (sc_store c) rec (is_probe h)).2);
          modify (λ c, set_store (put_record (sc_store c) rec (is_probe h)).1 c);;
          match r with
          | Ok _ => incr MStoreOk;; mret (STORE_OK, ""%string)
          | Err e => incr MStoreReject;; mret (STORE_INVALID, e)
          end
      end
  end.

Definition on_store (src : SocketAddr) (h : Header) (pkt : bytes) : M unit :=
  match decode_body proto.StoreReq pkt with
  | None => mret tt
  | Some req =>
      ok ← pre_handshake src;
      if negb ok then send_error src (h_correlation h) ERROR_RATE_LIMITED "rate"
      else
        '(code, reason) ← store_request h req;
        respond StoreResp Coordination src h (proto.mkStoreResp code (bstr reason))
  end.

Definition on_announce (src : SocketAddr) (h : Header) (pkt : bytes) : M unit :=
  match decode_body proto.AnnounceProviderReq pkt with
  | None => mret tt
  | Some req =>
      ok ← pre_handshake src;
      if negb ok then mret tt
      else
        match Key_from_bytes (proto.aq_key req) with
        | None => mret tt
        | Some k =>
            match (p ← proto.aq_self_descriptor req;
                   (., proto.prov_meta p) <$> NodeId_from_bytes (proto.prov_peer_id p)) with
            | Some (pid, meta) =>
                now ← now_unix;
                modify (λ c, set_store (announce_provider (sc_store c) now k pid meta) c)
            | None => mret tt
            end;;
            respond AnnounceProviderResp Coordination src h
              (proto.mkAnnounceProviderResp ANNOUNCE_OK [])
        end
  end.

(** [on_relay]; [inner] handles the payload of a frame addressed to this node. *)
Definition on_relay (inner : bytes → M unit) (src : SocketAddr) (pkt : bytes) : M unit :=
  match decode_body proto.Relay pkt with
  | None => mret tt
  | Some r =>
      match NodeId_from_bytes (proto.relay_dest_id r), NodeId_from_bytes (proto.relay_from_id r) with
      | Some dest, Some from =>
          c ← gets id;
          if bool_decide (dest = self_node c) then
            modify (λ c, set_via_relay (<[from := src]> (sc_via_relay c)) c);;
            inner (proto.relay_payload r)
          else
            ok ← relay_forward (Z.of_nat (length (proto.relay_payload r))) false;
            if negb ok then mret tt
            else
              match addr_of c dest with
              | None => mret tt
              | Some next => pass_on Relay Coordination r next
              end
      | _, _ => mret tt
      end
  end.

(** [handle_app] with bounded relay nesting. *)
Fixpoint handle_app_fuel (fuel : nat) (src : SocketAddr) (pkt : bytes) (authenticated : bool) : M unit :=
  match Header_decode pkt with
  | None => incr MDropsMalformed
  | Some h =>
      match h_ty h with
      | Ping => on_ping src h pkt
      | Pong => on_pong src pkt
      | NegotiateReq => on_negotiate src h
      | FindNodeReq => on_find_node src h pkt
      | FindNodeResp => on_find_node_resp src h pkt
      | FindValueReq => on_find_value src h pkt
      | FindValueResp => on_find_value_resp src h pkt
      | StoreReq => on_store src h pkt
      | AnnounceProviderReq => on_announce src h pkt
      | Punch => on_punch src pkt
      | Relay =>
          match fuel with
          | O => mret tt
          | S fuel => on_relay (λ payload, handle_app_fuel fuel src payload false) src pkt
          end
      | ErrorMsg => mret tt
      | _ =>
          when_ (negb (is_response h) && authenticated)
            (send_error src (h_correlation h) ERROR_UNSUPPORTED "type")
      end
  end.

(** A relayed payload is shorter than its frame, so a datagram has at most its length of
    nested frames. *)
Definition handle_app (src : SocketAddr) (pkt : bytes) (authenticated : bool) : M unit :=
  handle_app_fuel (length pkt) src pkt authenticated.

(** ** WireGuard datagrams *)

Fixpoint drain_wg_loop (turns : nat) (src : SocketAddr) : M unit :=
  match turns with
  | O => mret tt
  | S turns =>
      scratch ← pool_take;
      '(d, sc) ← wg_decapsulate src [] (buf_data scratch);
      match d with
      | Network n =>
          send_raw src (take n sc);;
          pool_recycle (refill scratch sc);;
          drain_wg_loop turns src
      | Plaintext n =>
          incr MWgDecapOk;;
          let inner := unwrap_rpc (take n sc) in
          pool_recycle (refill scratch sc);;
          handle_app src inner true;;
          drain_wg_loop turns src
      | _ => pool_recycle (refill scratch sc)
      end
  end.

Definition drain_wg_session (src : SocketAddr) : M unit :=
  turns ← read (λ e _, env_drain e);
  drain_wg_loop turns src.

(** The loop of [flush_pending_wg] over the queue; the result is [leftover]. *)
Fixpoint flush_queue (dest : SocketAddr) (x : arr 32) (queue : list bytes) : M (list bytes) :=
  match queue with
  | [] => mret []
  | app :: rest =>
      let inner := wrap_rpc app in
      out ← pool_take;
      '(n, o) ← wg_encapsulate_to dest x inner (buf_data out);
      match n with
      | Some n =>
          if is_initiation (take n o) then
            send_raw dest (take n o);;
            pool_recycle (refill out o);;
            mret (app :: rest)
          else
            send_raw dest (take n o);;
            incr MTxPackets;;
            pool_recycle (refill out o);;
            flush_queue dest x rest
      | None =>
          pool_recycle (refill out o);;
          mret (app :: rest)
      end
  end.

Definition flush_pending_wg (dest : SocketAddr) : M unit :=
  queue ← gets (λ c, sc_pending_wg c !! dest);
  match queue with
  | None => mret tt
  | Some queue =>
      modify (λ c, set_pending_wg (delete dest (sc_pending_wg c)) c);;
      x ← gets (λ c, sc_keys c !! dest);
      match x with
      | None => for_ queue (send_plain dest)
      | Some x =>
          leftover ← flush_queue dest x queue;
          when_ (negb (length leftover =? 0)) (queue_pending dest leftover)
      end
  end.

Definition handle_datagram (src : SocketAddr) (pkt : bytes) : M unit :=
  if looks_like_wg pkt then
    ok ← pre_handshake src;
    if negb ok then incr MDropsRate
    else
      scratch ← pool_take;
      '(d, sc) ← wg_decapsulate src pkt (buf_data scratch);
      match d with
      | Plaintext n =>
          incr MWgDecapOk;;
          let inner := unwrap_rpc (take n sc) in
          pool_recycle (refill scratch sc);;
          handle_app src inner true;;
          drain_wg_session src;;
          flush_pending_wg src
      | Network n =>
          send_raw src (take n sc);;
          pool_recycle (refill scratch sc);;
          drain_wg_session src;;
          flush_pending_wg src
      | Cookie c =>
          incr MCookies;;
          send_raw src c;;
          pool_recycle (refill scratch sc)
      | Drop =>
          incr MWgDecapFail;;
          pool_recycle (refill scratch sc)
      end
  else handle_app src pkt false.

(** ** Timers *)

Definition tick_sessions_all : M unit :=
  out ← pool_take;
  perm ← read env_ids;
  order ← gets (λ c, perm ((map_to_list (sessions (sc_wg c))).*1));
  '(pkts, o) ← gets (λ c, let '(_, pkts, o) := tick_keepalive (sc_wg c) order (buf_data out) in (pkts, o));
  modify (λ c, set_wg (tick_keepalive (sc_wg c) order (buf_data out)).1.1 c);;
  for_ pkts (λ '(n, dest), send_raw dest (take n o));;
  pool_recycle (refill out o).

Definition flush_wals : M unit :=
  modify (λ c, set_peers (flush_wal (sc_store c) (sc_peers c)).2
                 (set_store (flush_wal (sc_store c) (sc_peers c)).1 c));;
  modify (λ c, set_disk (Peerstore_flush (sc_peers c) (sc_disk c)).1.2
                 (set_peers (Peerstore_flush (sc_peers c) (sc_disk c)).1.1 c)).

Definition fail_peer (pid : NodeId) : M unit :=
  modify (λ c, set_table (mark_fail (sc_table c) pid) c);;
  modify (λ c, set_sybil (penalize (sc_sybil c) pid) c).

Definition on_timer (kd : TimerKind) : M unit :=
  now ← now_instant;
  match kd with
  | Keepalive =>
      dests ← gets (λ c, omap (λ e, primary_addr (pe_info e)) (all_peers (sc_table c)));
      for_ dests ping;;
      plain ← gets (λ c, plaintext (sc_cfg c));
      when_ (negb plain) tick_sessions_all;;
      schedule_timer (now + KEEPALIVE) Keepalive
  | PeerstoreFlush =>
      flush_wals;;
      schedule_timer (now + millis 100) PeerstoreFlush
  | Gc =>
      unix ← now_unix;
      modify (λ c, set_store (gc (sc_store c) unix) c);;
      schedule_timer (now + millis 30000) Gc
  | LookupTick =>
      perm ← read env_ids;
      ids ← gets (λ c, perm ((map_to_list (sc_lookups c)).*1));
      timed ← fold_ (timeout_one now) ids [];
      for_ timed fail_peer;;
      sweep_lookups;;
      schedule_timer (now + millis 50) LookupTick
  | PunchTick => on_punch_timer now
  end.

(** ** Commands *)

Definition put_value (v : bytes) (ttl : Z) (tx : Sender) : M unit :=
  now ← now_unix;
  r ← gets (λ c, (put_immutable_ttl (sc_store c) now v ttl).2);
  modify (λ c, set_store (put_immutable_ttl (sc_store c) now v ttl).1 c);;
  match r with
  | Ok k => incr MStoreOk;; replicate_store v k ttl;; answer tx (RKey k)
  | Err _ => incr MStoreReject;; answer tx (RErr "store failed")
  end.

Definition announce_self (k : Key) (meta : bytes) : M unit :=
  now ← now_unix;
  modify (λ c, set_store (announce_provider (sc_store c) now k (self_node c) meta) c).

Definition handle_cmd (cmd : ShardCmd) : M unit :=
  match cmd with
  | CmdBootstrap seeds => for_ seeds ping
  | CmdInjectPeer info =>
      match pi_x25519 info with
      | Some x =>
          wg_add_peer x (Some (pi_id info)) (primary_addr info);;
          match primary_addr info with
          | Some addr => modify (λ c, set_keys (<[addr := x]> (sc_keys c)) c)
          | None => mret tt
          end
      | None => mret tt
      end;;
      table_insert info;;
      peers_upsert info
  | CmdPut v ttl tx =>
      if should_erasure (Z.of_nat (length v)) && is_ok (erasure_encode rs_encode v) then
        let k := hash_value v in
        announce_self k (bstr "rs-10-4:" ++ show_u64 (Z.of_nat (length v)));;
        answer tx (RKey k)
      else put_value v ttl tx
  | CmdGet k tx =>
      incr MLookups;;
      now ← now_unix;
      found ← gets (λ c, Store_get (sc_store c) now k);
      match found with
      | Some r => incr MLookupOk;; answer tx (RRecord (Some r))
      | None => start_lookup FindValue k (Some tx)
      end
  | CmdPutMutable rec tx =>
      r ← gets (λ c, (put_record (sc_store c) rec false).2);
      modify (λ c, set_store (put_record (sc_store c) rec false).1 c);;
      match r with
      | Ok _ => incr MStoreOk;; send_store_rpc rec;; answer tx (RKey (key rec))
      | Err _ => incr MStoreReject;; answer tx (RErr "mutable rejected")
      end
  | CmdAnnounce k meta tx =>
      announce_self k meta;;
      announce_rpc k meta;;
      answer tx ROk
  | CmdFindProviders k tx =>
      now ← now_unix;
      l ← gets (λ c, Store_providers (sc_store c) now k MAX_PROVIDERS_PER_CHUNK);
      if negb (length l =? 0) then
        answer tx (RProviders ((λ e, (pe_peer_id e, pe_meta e)) <$> l))
      else start_lookup FindValue k (Some tx)
  | CmdShutdown => mret tt
  end.

(** ** The loop *)

(** Commands in order, up to a [Shutdown]; the result is [running]. *)
Fixpoint run_cmds (cmds : list ShardCmd) : M bool :=
  match cmds with
  | [] => mret true
  | CmdShutdown :: _ => mret false
  | cmd :: cmds => handle_cmd cmd;; run_cmds cmds
  end.

Definition receive (d : SocketAddr * bytes) : M unit :=
  incr MRxPackets;;
  add_metric MRxBytes (Z.of_nat (length d.2));;
  handle_datagram d.1 d.2.

(** One turn of the loop of [run_shard]: the datagrams of [recv_batch], the commands in
    the queue, the timers that are due.  The results are [running] and the queue left. *)
Definition shard_turn (batch : list (SocketAddr * bytes)) (queue : list ShardCmd)
    : M (bool * list ShardCmd) :=
  for_ batch receive;;
  let '(queue, cmds) := drain_cmds queue DRAIN_BATCH in
  running ← run_cmds cmds;
  now ← now_instant;
  due ← gets (λ c, (pop_due (sc_timers c) now).2);
  modify (λ c, set_timers (pop_due (sc_timers c) now).1 c);;
  for_ due on_timer;;
  mret (running, queue).

(** The context [run_shard] starts from; [opens] says whether the two files open. *)
Definition ShardCtx_new (n : Z) (identity : Identity) (cfg : NodeConfig) (local : SocketAddr)
    (d : Dir) (opens : bool * bool) (unix : Z) : ShardCtx :=
  let opened := Peerstore_open d in
  let '(ps, d) := if peerstore_dir cfg && opens.1 then opened else (Peerstore_memory, d) in
  {| sc_id := n; sc_identity := identity; sc_cfg := cfg; sc_local := local;
     sc_pool := BufferPool_new;
     sc_table := RoutingTable_new (node_id identity);
     sc_store := if peerstore_dir cfg && opens.2 then Store_open d unix else Store_new;
     sc_peers := ps; sc_disk := d;
     sc_wg := WgEngine_new (wg_secret identity) (wrap 8 n);
     sc_sybil := Sybil_new;
     sc_relay := RelayState_new (two_hop_relay cfg);
     sc_metrics := Snapshot_default;
     sc_lookups := ∅; sc_next_corr := 1; sc_endpoints := ∅; sc_timers := []; sc_keys := ∅;
     sc_pending_wg := ∅; sc_mapped := None; sc_punches := ∅; sc_via_relay := ∅ |}.

(** What [run_shard] does before its loop: the timers and the receive buffers. *)
Definition shard_start : M unit :=
  now ← now_instant;
  schedule_timer (now + KEEPALIVE) Keepalive;;
  schedule_timer (now + millis 100) PeerstoreFlush;;
  schedule_timer (now + millis 30000) Gc;;
  schedule_timer (now + millis 50) LookupTick;;
  for_ (seq 0 32) (λ _, b ← pool_take; mret tt).

(** The loop over the turns' inputs, and what follows it: the receive buffers go back to
    the pool and the logs are flushed. *)
Fixpoint shard_loop (turns : list (list (SocketAddr * bytes) * list ShardCmd))
    (queue : list ShardCmd) : M unit :=
  match turns with
  | [] => mret tt
  | (batch, cmds) :: turns =>
      '(running, queue) ← shard_turn batch (queue ++ cmds);
      if running : bool then shard_loop turns queue else mret tt
  end.

Definition run_shard (turns : list (list (SocketAddr * bytes) * list ShardCmd)) : M unit :=
  shard_start;;
  shard_loop turns [];;
  for_ (seq 0 32) (λ _, pool_recycle (zeroed BUFFER_SIZE));;
  flush_wals.
End shard.
