(* ===== verification/ShardInv.v ===== *)
(** * What every handler of the shard does to its state

    An abstract specification of the event loop: [low_step] is one operation of one
    component or one write to the socket, [shard_step] adds what happens to pending
    lookups.  Every handler is shown to run only such steps, whatever the environment;
    the invariants of the components, the size of the datagrams and the use of the reply
    channels follow by induction on the steps. *)

From S2P Require Import Prelude Bytes Types Proto Codec Routing Crypto Net Peerstore Store Pool Lookup Wg Relay EventLoop Metrics Sybil Erasure ShardState Shard.

Section spec.
Context `{TunnOps} `{KeyedHash} `{Protobuf} `{Crc32}.

(** ** Messages

    The struct that goes with each message type. *)
Inductive speaks : MessageType → bytes → Prop :=
  | sp_ping (m : proto.Ping) : speaks Ping (encode_to_vec m)
  | sp_pong (m : proto.Pong) : speaks Pong (encode_to_vec m)
  | sp_negotiate_resp (m : proto.NegotiateResp) : speaks NegotiateResp (encode_to_vec m)
  | sp_find_node_req (m : proto.FindNodeReq) : speaks FindNodeReq (encode_to_vec m)
  | sp_find_node_resp (m : proto.FindNodeResp) : speaks FindNodeResp (encode_to_vec m)
  | sp_find_value_req (m : proto.FindValueReq) : speaks FindValueReq (encode_to_vec m)
  | sp_find_value_resp (m : proto.FindValueResp) : speaks FindValueResp (encode_to_vec m)
  | sp_store_req (m : proto.StoreReq) : speaks StoreReq (encode_to_vec m)
  | sp_store_resp (m : proto.StoreResp) : speaks StoreResp (encode_to_vec m)
  | sp_announce_req (m : proto.AnnounceProviderReq) : speaks AnnounceProviderReq (encode_to_vec m)
  | sp_announce_resp (m : proto.AnnounceProviderResp) : speaks AnnounceProviderResp (encode_to_vec m)
  | sp_punch (m : proto.Punch) : speaks Punch (encode_to_vec m)
  | sp_relay (m : proto.Relay) : speaks Relay (encode_to_vec m)
  | sp_error (m : proto.Error) : speaks ErrorMsg (encode_to_vec m).

(** An application datagram that fits the path MTU and is a message of its type. *)
Definition sendable (app : bytes) : Prop :=
  length app ≤ PMTU_FLOOR ∧
  ∃ h body, app = header_bytes h ++ body ∧ h_version h = PROTOCOL_VERSION ∧ speaks (h_ty h) body.

(** The sender of such a message: its header has this version and the message this type. *)
Definition proper {T} `{Message T} (h : Header) (m : T) : Prop :=
  h_version h = PROTOCOL_VERSION ∧ speaks (h_ty h) (encode_to_vec m).

(** ** Steps *)

Inductive ctx_step (c : ShardCtx) : ShardCtx → Prop :=
  | cs_take : ctx_step c (set_pool (BufferPool_take (sc_pool c)).1 c)
  | cs_recycle b : ctx_step c (set_pool (recycle (sc_pool c) b) c)
  | cs_table t : rt_use (sc_table c) t → rt_timed (sc_table c) t → ctx_step c (set_table t c)
  | cs_store st : store_step (sc_store c) st → ctx_step c (set_store st c)
  | cs_upsert info : ctx_step c (set_peers (Peerstore_upsert (sc_peers c) info) c)
  | cs_flush : ctx_step c (set_peers (flush_wal (sc_store c) (sc_peers c)).2
                 (set_store (flush_wal (sc_store c) (sc_peers c)).1 c))
  | cs_disk : ctx_step c (set_disk (Peerstore_flush (sc_peers c) (sc_disk c)).1.2
                 (set_peers (Peerstore_flush (sc_peers c) (sc_disk c)).1.1 c))
  | cs_wg o : ctx_step c (set_wg (wg_apply (sc_wg c) o) c)
  | cs_handshake src now : ctx_step c (set_sybil (allow_pre_handshake (sc_sybil c) src now).1 c)
  | cs_reward i : ctx_step c (set_sybil (reward (sc_sybil c) i) c)
  | cs_penalize i : ctx_step c (set_sybil (penalize (sc_sybil c) i) c)
  | cs_forward n ctl : ctx_step c (set_relay (forward (sc_relay c) n ctl).1 c)
  | cs_egress n : ctx_step c (set_relay (mkRelayState (enabled (sc_relay c))
                    (on_egress (rs_budget (sc_relay c)) n) (prefer_control (sc_relay c))) c)
  | cs_metrics k n : ctx_step c (set_metrics (metrics_add k n (sc_metrics c)) c)
  | cs_corr : ctx_step c (set_next_corr (bump_corr (sc_next_corr c)) c)
  | cs_endpoints x : ctx_step c (set_endpoints x c)
  | cs_timers x : ctx_step c (set_timers x c)
  | cs_keys x : ctx_step c (set_keys x c)
  | cs_mapped x : ctx_step c (set_mapped x c)
  | cs_punches x : ctx_step c (set_punches x c)
  | cs_via_relay x : ctx_step c (set_via_relay x c)
  | cs_queue dest apps : Forall sendable apps → ctx_step c (set_pending_wg
      (<[dest := default [] (sc_pending_wg c !! dest) ++ apps]> (sc_pending_wg c)) c)
  | cs_unqueue dest : ctx_step c (set_pending_wg (delete dest (sc_pending_wg c)) c).

Definition with_ctx (s : St) (c : ShardCtx) : St := mkSt c (st_tick s) (st_out s) (st_answers s).

Inductive low_step (s : St) : St → Prop :=
  | low_read : low_step s (mkSt (st_ctx s) (S (st_tick s)) (st_out s) (st_answers s))
  | low_ctx c : ctx_step (st_ctx s) c → low_step s (with_ctx s c)
  | low_plain dest app : sendable app →
      low_step s (mkSt (st_ctx s) (st_tick s) (st_out s ++ [OutPlain dest app]) (st_answers s))
  | low_wg dest p :
      low_step s (mkSt (st_ctx s) (st_tick s) (st_out s ++ [OutWg dest p]) (st_answers s)).

(** What a response or a timeout does to a pending lookup. *)
Inductive lookup_use (l : Lookup) : Lookup → Prop :=
  | use_closer from ps rtt : lookup_use l (on_closer l from ps rtt)
  | use_record from rec : authentic rec = true → lookup_use l (on_record l from rec)
  | use_providers from ps closer : lookup_use l (on_providers l from ps closer)
  | use_timeouts now : lookup_use l (on_timeouts l now).1.

(** What a dispatch does to it: some of the requests of its next batch go out. *)
Definition sent_from (l l' : Lookup) : Prop :=
  ∃ now outs, l' = send_batch (next_batch l now).1 (zip (next_batch l now).2 outs).

Definition with_lookups (s : St) (f : gmap Z PendingLookup → gmap Z PendingLookup) : St :=
  with_ctx s (set_lookups (f (sc_lookups (st_ctx s))) (st_ctx s)).

Definition with_answer (s : St) (tx : Sender) (r : Reply) : St :=
  mkSt (st_ctx s) (st_tick s) (st_out s) (st_answers s ++ [(tx, r)]).

(** A swept lookup is taken out of the map, sends its next batch, and goes back or
    answers. *)
Inductive shard_step (s : St) : St → Prop :=
  | sh_low s' : low_step s s' → shard_step s s'
  | sh_update n p l :
      sc_lookups (st_ctx s) !! n = Some p → lookup_use (pl_lookup p) l →
      shard_step s (with_lookups s (<[n := mkPendingLookup l (pl_reply p)]>))
  | sh_requeue n p l s' :
      sc_lookups (st_ctx s) !! n = Some p → rtc low_step (with_lookups s (delete n)) s' →
      sent_from (pl_lookup p) l →
      shard_step s (with_lookups s' (<[n := mkPendingLookup l (pl_reply p)]>))
  | sh_finish n p l s' :
      sc_lookups (st_ctx s) !! n = Some p → rtc low_step (with_lookups s (delete n)) s' →
      sent_from (pl_lookup p) l → lk_done l = true →
      shard_step s (match pl_reply p with
                    | Some tx => with_answer s' tx (lookup_reply (lk_kind l) l)
                    | None => s'
                    end).

(** ** Runs *)

Definition queues_sendable (s : St) : Prop :=
  map_Forall (λ _ q, Forall sendable q) (sc_pending_wg (st_ctx s)).

Lemma ctx_step_queues c c' :
  ctx_step c c' → map_Forall (λ _ q, Forall sendable q) (sc_pending_wg c) →
  map_Forall (λ _ q, Forall sendable q) (sc_pending_wg c').
Proof.
  destruct 1 as [| | | | | | | | | | | | | | | | | | | | |dest apps Ha|dest]; intros Hq;
    try exact Hq; cbn.
  - apply map_Forall_insert_2; [|done]. apply Forall_app; split; [|done].
    destruct (sc_pending_wg c !! dest) eqn:E; [by apply (Hq dest)|constructor].
  - by apply map_Forall_delete.
Qed.

Lemma low_step_queues s s' : low_step s s' → queues_sendable s → queues_sendable s'.
Proof. destruct 1; intros Hq; try exact Hq. by eapply ctx_step_queues. Qed.

Lemma low_steps_queues s s' : rtc low_step s s' → queues_sendable s → queues_sendable s'.
Proof. induction 1; eauto using low_step_queues. Qed.

Lemma shard_step_queues s s' : shard_step s s' → queues_sendable s → queues_sendable s'.
Proof.
  destruct 1 as [s' Hl|n p l Hn Hu|n p l s' Hn Hl _|n p l s' Hn Hl _ _]; intros Hq.
  - by eapply low_step_queues.
  - exact Hq.
  - assert (queues_sendable s') as Hq' by (eapply low_steps_queues; eauto). exact Hq'.
  - assert (queues_sendable s') as Hq' by (eapply low_steps_queues; eauto).
    by destruct (pl_reply p).
Qed.

(** [m] runs only steps of [R], and its result satisfies [Q]. *)
Definition runs {A} (R : St → St → Prop) (m : M A) (Q : A → Prop) : Prop :=
  ∀ e s, queues_sendable s → rtc R s (m e s).2 ∧ Q (m e s).1.

(** The two kinds of steps keep the queues sendable. *)
Class Steps (R : St → St → Prop) := {
  steps_low s s' : low_step s s' → R s s';
  steps_queues s s' : R s s' → queues_sendable s → queues_sendable s';
}.

#[export] Instance low_Steps : Steps low_step := {|
  steps_low _ _ Hs := Hs; steps_queues := low_step_queues |}.

#[export] Instance shard_Steps : Steps shard_step := {|
  steps_low := sh_low; steps_queues := shard_step_queues |}.

Lemma steps_rtc_queues R `{!Steps R} s s' : rtc R s s' → queues_sendable s → queues_sendable s'.
Proof. induction 1; eauto using steps_queues. Qed.

Section rules.
Context (R : St → St → Prop) `{!Steps R}.

Lemma runs_ret {A} (a : A) (Q : A → Prop) : Q a → runs R (mret a) Q.
Proof. intros HQ e s _. split; [reflexivity|done]. Qed.

Lemma runs_bind {A B} (m : M A) (f : A → M B) (P : A → Prop) (Q : B → Prop) :
  runs R m P → (∀ a, P a → runs R (f a) Q) → runs R (mbind f m) Q.
Proof.
  intros Hm Hf e s Hq. unfold mbind, M_bind. destruct (Hm e s Hq) as [Hs Ha].
  destruct (m e s) as [a s']. cbn in *.
  destruct (Hf a Ha e s') as [Hs' Hb]; [by eapply steps_rtc_queues|].
  split; [by etrans|done].
Qed.

Lemma runs_weaken {A} (m : M A) (P Q : A → Prop) : runs R m P → (∀ a, P a → Q a) → runs R m Q.
Proof. intros Hm HPQ e s Hq. destruct (Hm e s Hq). auto. Qed.

Lemma runs_gets {A} (f : ShardCtx → A) (Q : A → Prop) :
  (∀ s, queues_sendable s → Q (f (st_ctx s))) → runs R (gets f) Q.
Proof. intros HQ e s Hq. split; [reflexivity|by apply HQ]. Qed.

Lemma runs_read {A} (f : Env → nat → A) : runs R (read f) (λ _, True).
Proof. intros e s _. split; [apply rtc_once, steps_low, low_read|done]. Qed.

Lemma runs_modify f : (∀ c, ctx_step c (f c)) → runs R (modify f) (λ _, True).
Proof. intros Hf e s _. split; [apply rtc_once, steps_low, (low_ctx s), Hf|done]. Qed.

Lemma runs_when b m : (b = true → runs R m (λ _, True)) → runs R (when_ b m) (λ _, True).
Proof. destruct b; [auto|intros; by apply runs_ret]. Qed.

Lemma runs_for {A} (l : list A) f (P : A → Prop) :
  Forall P l → (∀ a, P a → runs R (f a) (λ _, True)) → runs R (for_ l f) (λ _, True).
Proof.
  intros Hl Hf. induction Hl as [|a l Ha Hl IH]; cbn [for_]; [by apply runs_ret|].
  eapply runs_bind; [by apply Hf|]. intros. apply IH.
Qed.

Lemma runs_for_all {A} (l : list A) f :
  (∀ a, runs R (f a) (λ _, True)) → runs R (for_ l f) (λ _, True).
Proof. intros Hf. eapply (runs_for _ _ (λ _, True)); [by apply Forall_forall|auto]. Qed.

Lemma runs_fold {A B} (f : B → A → M B) l b :
  (∀ b a, runs R (f b a) (λ _, True)) → runs R (fold_ f l b) (λ _, True).
Proof.
  intros Hf. revert b. induction l as [|a l IH]; intros b; cbn [fold_]; [by apply runs_ret|].
  eapply runs_bind; [by apply Hf|]. intros. apply IH.
Qed.

Lemma runs_plain dest app : sendable app → runs R (write_out (OutPlain dest app)) (λ _, True).
Proof. intros Ha e s _. split; [apply rtc_once, steps_low, low_plain, Ha|done]. Qed.

Lemma runs_raw dest p : runs R (send_raw dest p) (λ _, True).
Proof. intros e s _. split; [apply rtc_once, steps_low, low_wg|done]. Qed.
End rules.

(** The bind rule when nothing is known about the first result. *)
Lemma runs_seq {A B} R `{!Steps R} (m : M A) (f : A → M B) Q :
  runs R m (λ _, True) → (∀ a, runs R (f a) Q) → runs R (mbind f m) Q.
Proof. intros. eapply runs_bind; eauto. Qed.

Lemma encode_message_sendable {T} `{Message T} h (m : T) out out' n :
  proper h m → encode_message h m out = (out', Some n) → sendable (take n out').
Proof.
  intros [Hv Hs] He. destruct (encode_message_Some h m out out' n He) as [Hn ->].
  split; [|by exists h, (encode_to_vec m)]. rewrite length_app, header_bytes_length. lia.
Qed.

(** The tactic follows the structure of a handler; what it calls is found among the
    hints. *)
Create HintDb runs discriminated.
#[local] Hint Constants Opaque : runs.
#[local] Hint Extern 1 (proper _ _) => (split; [reflexivity|cbn; constructor]) : runs.
#[local] Hint Extern 1 (speaks _ _) => constructor : runs.

Ltac run_modify :=
  notypeclasses refine (runs_modify _ _ _); [exact _|];
  let c := fresh "c" in
  intros c;
  lazymatch goal with
  | |- ctx_step c (set_pool (recycle _ _) c) => apply cs_recycle
  | |- ctx_step c (set_pool _ c) => apply cs_take
  | |- ctx_step c (set_table _ c) => apply cs_table; constructor; unfold rtt_range; lia
  | |- ctx_step c (set_store _ c) => apply cs_store; by constructor
  | |- ctx_step c (set_wg (add_peer _ _ _ _).1 c) => exact (cs_wg c (WAdd _ _ _))
  | |- ctx_step c (set_wg (encapsulate_to _ _ _ _ _ _).1.1 c) => exact (cs_wg c (WEncapTo _ _ None _ _))
  | |- ctx_step c (set_wg (decapsulate _ _ _ _ _).1.1 c) => exact (cs_wg c (WDecap _ _ _ _))
  | |- ctx_step c (set_wg (tick_keepalive _ _ _).1.1 c) => exact (cs_wg c (WTick _ _))
  | |- ctx_step c (set_sybil (allow_pre_handshake _ _ _).1 c) => apply cs_handshake
  | |- ctx_step c (set_sybil (reward _ _) c) => apply cs_reward
  | |- ctx_step c (set_sybil (penalize _ _) c) => apply cs_penalize
  | |- ctx_step c (set_relay (forward _ _ _).1 c) => apply cs_forward
  | |- ctx_step c (set_relay _ c) => apply cs_egress
  | |- ctx_step c (set_metrics _ c) => apply cs_metrics
  | |- ctx_step c (set_peers (Peerstore_upsert _ _) c) => apply cs_upsert
  | |- ctx_step c (set_peers _ (set_store _ c)) => apply cs_flush
  | |- ctx_step c (set_disk _ _) => apply cs_disk
  | |- ctx_step c (set_pending_wg (delete _ _) c) => apply cs_unqueue
  | |- ctx_step c (set_pending_wg _ c) => by apply cs_queue
  | |- _ => constructor
  end.

Ltac run :=
  cbn beta iota zeta;
  lazymatch goal with
  | |- runs _ (mret _) _ => first [by apply runs_ret | solve [eauto with runs]]
  | |- runs _ (mbind _ _) _ =>
      first [solve [auto 1 with nocore]
            |notypeclasses refine (runs_seq _ _ _ _ _ _); [exact _|run|intros ?; run]]
  | |- runs _ (gets _) _ => by apply runs_gets
  | |- runs _ (read _) _ => notypeclasses refine (runs_read _ _); exact _
  | |- runs _ (modify _) _ => run_modify
  | |- runs _ (send_raw _ _) _ => notypeclasses refine (runs_raw _ _ _); exact _
  | |- runs _ (when_ _ _) _ => notypeclasses refine (runs_when _ _ _ _); [exact _..|intros ?; run]
  | |- runs _ (for_ _ _) _ =>
      first [solve [auto 1 with nocore]
            |notypeclasses refine (runs_for_all _ _ _ _); [exact _..|intros ?; run]]
  | |- runs _ (fold_ _ _ _) _ => notypeclasses refine (runs_fold _ _ _ _ _); [exact _..|intros ? ?; run]
  | |- runs _ (match ?x with _ => _ end) _ => destruct x eqn:?; run
  | |- _ => try solve [eauto 6 with runs]
  end.

Section handlers.
Context (R : St → St → Prop) `{!Steps R}.

Notation ok m := (runs R m (λ _, True)).

Lemma incr_ok k : ok (incr k).
Proof. unfold incr. run. Qed.

Lemma add_metric_ok k n : ok (add_metric k n).
Proof. unfold add_metric. run. Qed.

Lemma pool_take_ok : ok pool_take.
Proof. unfold pool_take. run. Qed.

Lemma pool_recycle_ok b : ok (pool_recycle b).
Proof. unfold pool_recycle. run. Qed.

Lemma table_insert_ok info : ok (table_insert info).
Proof. unfold table_insert, now_instant. run. Qed.

Lemma peers_upsert_ok info : ok (peers_upsert info).
Proof. unfold peers_upsert. run. Qed.

Lemma schedule_timer_ok t k : ok (schedule_timer t k).
Proof. unfold schedule_timer. run. Qed.

Lemma pre_handshake_ok src : ok (pre_handshake src).
Proof. unfold pre_handshake, now_instant. run. Qed.

Lemma wg_add_peer_ok x i ep : ok (wg_add_peer x i ep).
Proof. unfold wg_add_peer. run. Qed.

Lemma wg_encapsulate_to_ok d x i o : ok (wg_encapsulate_to d x i o).
Proof. unfold wg_encapsulate_to. run. Qed.

Lemma wg_decapsulate_ok src d sc : ok (wg_decapsulate src d sc).
Proof. unfold wg_decapsulate. run. Qed.

Lemma relay_forward_ok n c : ok (relay_forward n c).
Proof. unfold relay_forward. run. Qed.

Lemma relay_egress_ok n : ok (relay_egress n).
Proof. unfold relay_egress. run. Qed.

Lemma now_instant_ok : ok now_instant.
Proof. unfold now_instant. run. Qed.

Lemma now_unix_ok : ok now_unix.
Proof. unfold now_unix. run. Qed.

Lemma now_unix_ms_ok : ok now_unix_ms.
Proof. unfold now_unix_ms. run. Qed.

Lemma queue_pending_ok d apps : Forall sendable apps → ok (queue_pending d apps).
Proof. intros. unfold queue_pending. run. Qed.

Hint Resolve incr_ok add_metric_ok pool_take_ok pool_recycle_ok table_insert_ok peers_upsert_ok
  schedule_timer_ok pre_handshake_ok wg_add_peer_ok wg_encapsulate_to_ok wg_decapsulate_ok
  relay_forward_ok relay_egress_ok now_instant_ok now_unix_ok now_unix_ms_ok queue_pending_ok : runs.

Lemma next_corr_ok : ok next_corr.
Proof.
  intros e s _. unfold next_corr, gets, modify, mbind, M_bind, mret, M_ret. cbn. split; [|done].
  apply rtc_once, steps_low, (low_ctx s), cs_corr.
Qed.

Lemma encoded_runs {T A} `{Message T} h (m : T) (d : A) k (Q : A → Prop) :
  proper h m → (∀ app, sendable app → runs R (k app) Q) → Q d → runs R (encoded h m d k) Q.
Proof.
  intros Hm Hk Hd. unfold encoded. apply runs_seq; [exact _|apply pool_take_ok|]. intros buf.
  destruct (encode_message h m (buf_data buf)) as [out [n|]] eqn:E.
  - apply encode_message_sendable in E; [|done]. eapply runs_bind; [exact _|by apply Hk|]. intros a Ha.
    apply runs_seq; [exact _|apply pool_recycle_ok|]. intros. by apply runs_ret.
  - eapply runs_bind; [exact _|by apply (runs_ret _ _ Q)|]. intros a Ha.
    apply runs_seq; [exact _|apply pool_recycle_ok|]. intros. by apply runs_ret.
Qed.

Lemma encoded_ok {T A} `{Message T} h (m : T) (d : A) k :
  proper h m → (∀ app, sendable app → ok (k app)) → ok (encoded h m d k).
Proof. intros. by apply encoded_runs. Qed.

Hint Resolve next_corr_ok encoded_ok : runs.

Lemma send_plain_ok d app : sendable app → ok (send_plain d app).
Proof.
  intros Ha. unfold send_plain. apply runs_seq; [exact _|by apply runs_read|]. intros b.
  apply runs_seq; [exact _|by apply runs_plain|]. intros. run.
Qed.

Hint Resolve send_plain_ok : runs.

Lemma send_relay_frame_ok hop d app : ok (send_relay_frame hop d app).
Proof. unfold send_relay_frame. run. apply encoded_ok; [eauto with runs|intros; run]. Qed.

Lemma send_wg_ok d x app : sendable app → ok (send_wg d x app).
Proof. intros. unfold send_wg. run. Qed.

Hint Resolve send_relay_frame_ok send_wg_ok : runs.

Lemma send_app_ok d x app : sendable app → ok (send_app d x app).
Proof. intros. unfold send_app. run. Qed.

Hint Resolve send_app_ok : runs.

Lemma ping_ok d : ok (ping d).
Proof. unfold ping. run. Qed.

Lemma reply_peers_ok d c ps : ok (reply_peers d c ps).
Proof. unfold reply_peers. run. Qed.

Lemma send_error_ok d c k r : ok (send_error d c k r).
Proof. unfold send_error. run. Qed.

Lemma send_store_rpc_ok rec : ok (send_store_rpc rec).
Proof. unfold send_store_rpc. run. Qed.

Hint Resolve ping_ok reply_peers_ok send_error_ok send_store_rpc_ok : runs.

Lemma replicate_store_ok v k t : ok (replicate_store v k t).
Proof. unfold replicate_store. run. Qed.

Lemma announce_rpc_ok k m : ok (announce_rpc k m).
Proof. unfold announce_rpc. run. Qed.

Lemma note_peer_keys_ok src x ed sg : ok (note_peer_keys src x ed sg).
Proof. unfold note_peer_keys. run. Qed.

Lemma learn_addr_ok src i : ok (learn_addr src i).
Proof. unfold learn_addr. run. Qed.

Lemma send_punch_msg_ok hop t c : ok (send_punch_msg hop t c).
Proof. unfold send_punch_msg. run. Qed.

Lemma burst_punch_ok i : ok (burst_punch i).
Proof. unfold burst_punch. run. Qed.

Hint Resolve replicate_store_ok announce_rpc_ok note_peer_keys_ok learn_addr_ok send_punch_msg_ok
  burst_punch_ok : runs.

Lemma start_punch_ok p rdv : ok (start_punch p rdv).
Proof. unfold start_punch. run. Qed.

Lemma accept_punch_ok src f c : ok (accept_punch src f c).
Proof. unfold accept_punch. run. Qed.

Lemma pass_on_ok {T} `{Message T} ty q (m : T) n :
  speaks ty (encode_to_vec m) → ok (pass_on ty q m n).
Proof. intros. unfold pass_on. run. apply encoded_ok; [by split|intros; run]. Qed.

Hint Resolve start_punch_ok accept_punch_ok pass_on_ok : runs.

Lemma on_punch_ok src pkt : ok (on_punch src pkt).
Proof. unfold on_punch. run. Qed.

Lemma punch_turn_ok now again i : ok (punch_turn now again i).
Proof. unfold punch_turn. run. Qed.

Hint Resolve on_punch_ok punch_turn_ok : runs.

Lemma on_punch_timer_ok now : ok (on_punch_timer now).
Proof. unfold on_punch_timer. run. Qed.

Lemma send_probe_ok p d k : ok (send_probe p d k).
Proof. unfold send_probe. run. Qed.

Hint Resolve on_punch_timer_ok send_probe_ok : runs.

Lemma dispatch_one_runs l p : runs R (dispatch_one l p) (λ l', ∃ o, l' = send_one l (p, o)).
Proof.
  assert (Hnone : ∃ o, l = send_one l (p, o)) by (by exists None).
  unfold dispatch_one. apply runs_seq; [exact _|apply next_corr_ok|]. intros corr.
  destruct (primary_addr p) as [dest|]; [|by apply runs_ret].
  eapply (runs_bind _ _ _ (λ l', ∃ o, l' = send_one l (p, o))).
  - assert (∀ app, sendable app → runs R (send_app dest (pi_x25519 p) app;;
      now ← now_instant; mret (note_sent l (pi_id p) corr now)) (λ l', ∃ o, l' = send_one l (p, o))).
    { intros app Ha. apply runs_seq; [exact _|by apply send_app_ok|]. intros _.
      apply runs_seq; [exact _|apply now_instant_ok|]. intros now. apply runs_ret.
      by exists (Some (corr, now)). }
    destruct (lk_kind l); apply encoded_runs; eauto with runs.
  - intros l' Hl'. apply runs_seq; [exact _|run|]. intros _. by apply runs_ret.
Qed.

Lemma fold_dispatch_runs b l :
  runs R (fold_ dispatch_one b l) (λ l', ∃ outs, l' = send_batch l (zip b outs)).
Proof.
  revert l. induction b as [|p b IH]; intros l; cbn [fold_]; [apply runs_ret; by exists []|].
  eapply runs_bind; [exact _|apply dispatch_one_runs|]. intros _ [o ->].
  eapply runs_weaken; [apply IH|]. intros l' [outs ->]. by exists (o :: outs).
Qed.

Lemma dispatch_lookup_batch_runs l : runs R (dispatch_lookup_batch l) (sent_from l).
Proof.
  unfold dispatch_lookup_batch. apply runs_seq; [exact _|apply now_instant_ok|]. intros now.
  destruct (next_batch l now) as [l1 batch] eqn:E.
  eapply runs_weaken; [apply fold_dispatch_runs|]. intros l' [outs ->]. exists now, outs. by rewrite E.
Qed.

Lemma dispatch_lookup_batch_ok l : ok (dispatch_lookup_batch l).
Proof. eapply runs_weaken; [apply dispatch_lookup_batch_runs|done]. Qed.

Lemma flush_wals_ok : ok flush_wals.
Proof. unfold flush_wals. run. Qed.

Lemma fail_peer_ok i : ok (fail_peer i).
Proof. unfold fail_peer. run. Qed.

Lemma tick_sessions_all_ok : ok tick_sessions_all.
Proof. unfold tick_sessions_all. run. Qed.

Lemma respond_ok {T} `{Message T} ty q src h (m : T) :
  speaks ty (encode_to_vec m) → ok (respond ty q src h m).
Proof. intros. unfold respond. apply encoded_ok; [by split|intros; run]. Qed.

Hint Resolve dispatch_lookup_batch_ok flush_wals_ok fail_peer_ok tick_sessions_all_ok respond_ok : runs.

Lemma on_ping_ok src h pkt : ok (on_ping src h pkt).
Proof. unfold on_ping. run. Qed.

Lemma on_pong_ok src pkt : ok (on_pong src pkt).
Proof. unfold on_pong. run. Qed.

Lemma on_negotiate_ok src h : ok (on_negotiate src h).
Proof. unfold on_negotiate. run. Qed.

Lemma on_find_node_ok src h pkt : ok (on_find_node src h pkt).
Proof. unfold on_find_node. run. Qed.

Lemma on_find_value_ok src h pkt : ok (on_find_value src h pkt).
Proof. unfold on_find_value. run. Qed.

Lemma store_request_ok h req : ok (store_request h req).
Proof. unfold store_request. run. Qed.

Hint Resolve store_request_ok : runs.

Lemma on_store_ok src h pkt : ok (on_store src h pkt).
Proof. unfold on_store. run. Qed.

Lemma on_announce_ok src h pkt : ok (on_announce src h pkt).
Proof. unfold on_announce. run. Qed.

End handlers.

#[local] Hint Resolve shard_Steps : runs.
#[local] Hint Resolve incr_ok add_metric_ok pool_take_ok pool_recycle_ok table_insert_ok
  peers_upsert_ok schedule_timer_ok pre_handshake_ok wg_add_peer_ok wg_encapsulate_to_ok
  wg_decapsulate_ok relay_forward_ok relay_egress_ok now_instant_ok now_unix_ok now_unix_ms_ok
  queue_pending_ok encoded_ok send_plain_ok ping_ok send_error_ok send_store_rpc_ok
  replicate_store_ok announce_rpc_ok learn_addr_ok start_punch_ok pass_on_ok on_punch_ok
  on_punch_timer_ok dispatch_lookup_batch_ok flush_wals_ok fail_peer_ok tick_sessions_all_ok
  respond_ok on_ping_ok on_pong_ok on_negotiate_ok on_find_node_ok on_find_value_ok on_store_ok
  on_announce_ok : runs.

Notation ok m := (runs shard_step m (λ _, True)).

(** ** Handlers that touch pending lookups *)

Lemma update_lookup_ok corr f : (∀ l, lookup_use l (f l)) → ok (update_lookup corr f).
Proof.
  intros Hf e s _. unfold update_lookup, find_lookup_mut, read, gets, mbind, M_bind. cbn.
  destruct (head _) as [[n p]|] eqn:E; cbn.
  - apply head_Some_elem_of, list_elem_of_omap in E as (n' & _ & Hn).
    destruct (sc_lookups (st_ctx s) !! n') as [p'|] eqn:Hl; [|done]. cbn in Hn.
    destruct (awaits corr p'); [|done]. injection Hn as -> ->.
    split; [|done]. eapply rtc_l; [apply sh_low, low_read|].
    apply rtc_once. by eapply (sh_update (mkSt _ _ _ _)).
  - split; [|done]. apply rtc_once, sh_low, low_read.
Qed.

Lemma low_shard s s' : rtc low_step s s' → rtc shard_step s s'.
Proof. induction 1; econstructor; eauto using sh_low. Qed.

Lemma sweep_one_ok n : ok (sweep_one n).
Proof.
  intros e s Hq. unfold sweep_one, gets, mbind, M_bind, modify. cbn -[dispatch_lookup_batch].
  destruct (sc_lookups (st_ctx s) !! n) as [p|] eqn:Hn; [|split; [reflexivity|done]].
  destruct (dispatch_lookup_batch_runs low_step (pl_lookup p) e (with_lookups s (delete n)) Hq) as [Hl Hsent].
  unfold with_lookups, with_ctx in Hl, Hsent. revert Hl Hsent.
  destruct (dispatch_lookup_batch (pl_lookup p) e _) as [l s2]. cbn. intros Hl Hsent.
  assert (Hq2 : queues_sendable s2) by (eapply low_steps_queues; [exact Hl|exact Hq]).
  destruct (lk_done l) eqn:Hd.
  - destruct (runs_when low_step (bool_decide (is_Some (found_record l))) (incr MLookupOk)
                (λ _, incr_ok low_step _) e s2 Hq2) as [Hi _]. revert Hi.
    destruct (when_ _ _ e s2) as [[] s3]. cbn. intros Hi. split; [|done].
    pose proof (sh_finish s n p l s3 Hn (transitivity Hl Hi) Hsent Hd) as Hs.
    unfold finish_lookup. destruct (pl_reply p); cbn; by apply rtc_once.
  - split; [|done]. apply rtc_once. by eapply (sh_requeue s n p l s2).
Qed.

Lemma sweep_lookups_ok : ok sweep_lookups.
Proof. pose proof sweep_one_ok. unfold sweep_lookups. run. Qed.

Hint Resolve sweep_lookups_ok : runs.

Lemma complete_closer_ok corr src ps : ok (complete_closer corr src ps).
Proof.
  pose proof (λ from, update_lookup_ok corr (λ l, on_closer l from ps 50000) (λ l, use_closer l _ _ _)).
  unfold complete_closer. run.
Qed.

Lemma timeout_one_ok now timed n : ok (timeout_one now timed n).
Proof.
  intros e s _. unfold timeout_one, gets, mbind, M_bind. cbn.
  destruct (sc_lookups (st_ctx s) !! n) as [p|] eqn:Hn; [|split; [reflexivity|done]].
  destruct (on_timeouts (pl_lookup p) now) as [l dead] eqn:E. cbn. split; [|done].
  apply rtc_once. eapply (sh_update s n p); [exact Hn|].
  pose proof (use_timeouts (pl_lookup p) now) as Hu. by rewrite E in Hu.
Qed.

Hint Resolve complete_closer_ok timeout_one_ok : runs.

Lemma on_find_node_resp_ok src h pkt : ok (on_find_node_resp src h pkt).
Proof. unfold on_find_node_resp. run. Qed.

Lemma accept_record_ok h b : ok (accept_record h b).
Proof.
  unfold accept_record. run.
  pose proof (update_lookup_ok (h_correlation h) (λ l, on_record l zero_node s)
                (λ l, use_record l _ _ ltac:(eassumption))).
  run.
Qed.

Hint Resolve accept_record_ok : runs.

Lemma on_find_value_resp_ok src h pkt : ok (on_find_value_resp src h pkt).
Proof.
  assert (∀ l c, ok (update_lookup (h_correlation h) (λ lk, on_providers lk zero_node l c)))
    by (intros; apply update_lookup_ok; constructor).
  unfold on_find_value_resp. run.
Qed.

Hint Resolve on_find_node_resp_ok on_find_value_resp_ok : runs.

Lemma on_relay_ok inner src pkt : (∀ p, ok (inner p)) → ok (on_relay inner src pkt).
Proof. intros. unfold on_relay. run. Qed.

Lemma handle_app_fuel_ok fuel src pkt au : ok (handle_app_fuel fuel src pkt au).
Proof.
  revert pkt au. induction fuel as [|fuel IH]; intros pkt au; cbn [handle_app_fuel].
  - run.
  - assert (ok (on_relay (λ payload, handle_app_fuel fuel src payload false) src pkt))
      by (apply on_relay_ok; intros; apply IH).
    run.
Qed.

Lemma handle_app_ok src pkt au : ok (handle_app src pkt au).
Proof. apply handle_app_fuel_ok. Qed.

Hint Resolve handle_app_ok : runs.

Lemma drain_wg_loop_ok turns src : ok (drain_wg_loop turns src).
Proof. induction turns as [|turns IH]; cbn [drain_wg_loop]; run. Qed.

Hint Resolve drain_wg_loop_ok : runs.

Lemma drain_wg_session_ok src : ok (drain_wg_session src).
Proof. unfold drain_wg_session. run. Qed.

Lemma flush_queue_ok dest x queue :
  Forall sendable queue → runs shard_step (flush_queue dest x queue) (Forall sendable).
Proof.
  induction 1 as [|app rest Ha Hr IH]; cbn [flush_queue]; [by apply runs_ret|].
  assert (runs shard_step (mret (app :: rest)) (Forall sendable)) by (apply runs_ret; by constructor).
  run.
Qed.

Lemma flush_pending_wg_ok dest : ok (flush_pending_wg dest).
Proof.
  unfold flush_pending_wg. eapply runs_bind; [exact _|..].
  { apply (runs_gets _ _ (λ q, ∀ queue, q = Some queue → Forall sendable queue)).
    intros s Hq queue. apply Hq. }
  intros [queue|] Hq; [|run]. specialize (Hq queue eq_refl).
  assert (ok (for_ queue (send_plain dest))) by (eapply runs_for; [exact _|exact Hq|intros; run]).
  assert (∀ x, ok (leftover ← flush_queue dest x queue;
                   when_ (negb (length leftover =? 0)) (queue_pending dest leftover))).
  { intros x. eapply runs_bind; [exact _|by apply flush_queue_ok|]. intros. run. }
  run.
Qed.

Hint Resolve drain_wg_session_ok flush_pending_wg_ok : runs.

Lemma handle_datagram_ok src pkt : ok (handle_datagram src pkt).
Proof. unfold handle_datagram. run. Qed.

Lemma on_timer_ok kd : ok (on_timer kd).
Proof. unfold on_timer. run. Qed.

(** ** Commands *)

(** The lookups a shard holds are runs of [Lookup.v]. *)
Definition lookup_run (l : Lookup) : Prop :=
  ∃ kd t seeds pm t0 tr hd, rtc lk_step (lk_init kd t seeds pm t0) (l, tr, hd).

Lemma lookup_run_step l l' :
  (∀ tr0 hd0, ∃ tr1 hd1, lk_step (l, tr0, hd0) (l', tr1, hd1)) → lookup_run l → lookup_run l'.
Proof.
  intros Hs (kd & t & seeds & pm & t0 & tr0 & hd0 & Hr).
  destruct (Hs tr0 hd0) as (tr1 & hd1 & Hs').
  exists kd, t, seeds, pm, t0, tr1, hd1. by eapply rtc_r.
Qed.

Lemma lookup_run_use l l' : lookup_use l l' → lookup_run l → lookup_run l'.
Proof.
  intros Hu. apply lookup_run_step. intros tr hd.
  destruct Hu; eexists _, _; constructor.
Qed.

Lemma lookup_run_sent l l' : sent_from l l' → lookup_run l → lookup_run l'.
Proof.
  intros (now & outs & ->). apply lookup_run_step. intros tr hd.
  eexists _, _. apply s_dispatch.
Qed.

Lemma lookup_run_new kd t seeds pm t0 : lookup_run (Lookup_new kd t seeds pm t0).
Proof. exists kd, t, seeds, pm, t0, [], (pi_id <$> seeds). reflexivity. Qed.

Definition cmd_sender (cmd : ShardCmd) : option Sender :=
  match cmd with
  | CmdPut _ _ tx | CmdGet _ tx | CmdPutMutable _ tx | CmdAnnounce _ _ tx | CmdFindProviders _ tx =>
      Some tx
  | CmdBootstrap _ | CmdInjectPeer _ | CmdShutdown => None
  end.

(** A pending lookup asks for a value, and the record it found is authentic. *)
Definition asks (l : Lookup) : Prop :=
  lk_kind l = FindValue ∧ ∀ r, found_record l = Some r → authentic r = true.

Lemma asks_new t seeds pm t0 : asks (Lookup_new FindValue t seeds pm t0).
Proof. by split. Qed.

Lemma asks_use l l' : lookup_use l l' → asks l → asks l'.
Proof.
  intros Hu [Hk Hf]. destruct Hu as [from ps rtt|from rec Ha|from ps closer|now]; split; try done.
  - cbn. by intros r [= <-].
  - unfold on_timeouts. by case_match.
  - unfold on_timeouts. by case_match.
Qed.

Lemma asks_send_batch b l : asks l → asks (send_batch l b).
Proof.
  unfold send_batch. revert l. induction b as [|[p [[c t]|]] b IH]; intros l Hl; cbn [foldl];
    [done|apply IH; by destruct Hl|by apply IH].
Qed.

Lemma asks_sent l l' : sent_from l l' → asks l → asks l'.
Proof.
  intros (now & outs & ->) Hl. apply asks_send_batch. unfold next_batch.
  repeat case_match; cbn; by destruct Hl.
Qed.

(** ** Replies

    What a lookup for a value may answer, and what each command may. *)
Definition lookup_answer (r : Reply) : Prop :=
  match r with
  | RRecord (Some rec) => authentic rec = true
  | RProviders _ | RValue None => True
  | _ => False
  end.

Definition reply_ok (cmd : ShardCmd) (r : Reply) : Prop :=
  match cmd with
  | CmdPut v _ _ => r = RKey (hash_value v) ∨ r = RErr "store failed"
  | CmdPutMutable rec _ => r = RKey (key rec) ∨ r = RErr "mutable rejected"
  | CmdAnnounce _ _ _ => r = ROk
  | CmdGet _ _ | CmdFindProviders _ _ => lookup_answer r
  | CmdBootstrap _ | CmdInjectPeer _ | CmdShutdown => False
  end.

Definition looks_up (cmd : ShardCmd) : Prop := ∀ r, lookup_answer r → reply_ok cmd r.

Lemma asks_reply l : asks l → lookup_answer (lookup_reply (lk_kind l) l).
Proof.
  intros [-> Hf]. cbn. destruct (found_record l) as [r|] eqn:E; [by apply Hf|]. by case_match.
Qed.

(** A command runs steps of the components; then, if it came with a reply channel, it
    answers as its caller expects (as long as the store holds what it should) or leaves the
    channel with a lookup. *)
Inductive settled (s : St) (cmd : ShardCmd) : St → Prop :=
  | settled_none s' : cmd_sender cmd = None → rtc low_step s s' → settled s cmd s'
  | settled_answer tx s' r :
      cmd_sender cmd = Some tx → rtc low_step s s' →
      (store_inv (sc_store (st_ctx s')) → reply_ok cmd r) → settled s cmd (with_answer s' tx r)
  | settled_pending tx s' n l :
      cmd_sender cmd = Some tx → looks_up cmd → rtc low_step s s' → lookup_run l → asks l →
      settled s cmd (with_lookups s' (<[n := mkPendingLookup l (Some tx)]>)).

Definition settles (m : M unit) (cmd : ShardCmd) : Prop :=
  ∀ e s, queues_sendable s → settled s cmd (m e s).2.

Lemma settled_after s s' cmd s'' : rtc low_step s s' → settled s' cmd s'' → settled s cmd s''.
Proof. intros Hs. destruct 1; econstructor; eauto; by etrans. Qed.

Lemma settles_bind {A} (m : M A) f (P : A → Prop) cmd :
  runs low_step m P → (∀ a, P a → settles (f a) cmd) → settles (mbind f m) cmd.
Proof.
  intros Hm Hf e s Hq. unfold mbind, M_bind. destruct (Hm e s Hq) as [Hs Ha].
  destruct (m e s) as [a s']. cbn in *. eapply settled_after; [exact Hs|].
  apply Hf; [done|]. by eapply low_steps_queues.
Qed.

Lemma settles_seq {A} (m : M A) f cmd :
  runs low_step m (λ _, True) → (∀ a, settles (f a) cmd) → settles (mbind f m) cmd.
Proof. intros. eapply settles_bind; eauto. Qed.

Lemma settles_low m cmd : cmd_sender cmd = None → runs low_step m (λ _, True) → settles m cmd.
Proof. intros Hc Hm e s Hq. destruct (Hm e s Hq). by constructor. Qed.

Lemma settles_answer tx r cmd : cmd_sender cmd = Some tx → reply_ok cmd r → settles (answer tx r) cmd.
Proof. intros Hc Hr e s _. by apply (settled_answer s cmd tx s r). Qed.

Lemma start_lookup_settles t tx cmd :
  cmd_sender cmd = Some tx → looks_up cmd → settles (start_lookup FindValue t (Some tx)) cmd.
Proof.
  intros Hc Hl. unfold start_lookup. apply settles_seq; [by apply runs_gets|]. intros c.
  apply settles_seq; [apply now_instant_ok; exact _|]. intros now.
  eapply settles_bind; [apply dispatch_lookup_batch_runs; exact _|]. intros l Hsent.
  pose proof (asks_sent _ _ Hsent (asks_new _ _ _ _)) as Ha.
  destruct (lk_done l).
  - cbn [finish_lookup]. apply settles_answer; [done|]. apply Hl. destruct Ha as [Hk Hf].
    rewrite <-Hk at 1. by apply asks_reply.
  - intros e s _. eapply (settled_pending s cmd tx s); [done..| |done].
    eapply lookup_run_sent; [exact Hsent|apply lookup_run_new].
Qed.

(** A record of the shard's own store is authentic. *)
Lemma get_settles now k tx :
  settles (found ← gets (λ c, Store_get (sc_store c) now k);
           match found with
           | Some r => incr MLookupOk;; answer tx (RRecord (Some r))
           | None => start_lookup FindValue k (Some tx)
           end) (CmdGet k tx).
Proof.
  intros e s Hq. unfold gets, mbind at 1, M_bind at 1. cbn beta iota.
  destruct (Store_get (sc_store (st_ctx s)) now k) as [r|] eqn:E.
  - destruct (incr_ok low_step MLookupOk e s Hq) as [Hi _].
    change (settled s (CmdGet k tx) (with_answer (incr MLookupOk e s).2 tx (RRecord (Some r)))).
    constructor; [done|exact Hi|]. cbn. intros Hinv. by eapply store_get_ok in E as [].
  - apply start_lookup_settles; [done|by intros ?|done].
Qed.

Hint Resolve low_Steps : runs.

Ltac settle :=
  cbn beta iota zeta;
  lazymatch goal with
  | |- settles (mbind _ _) _ => apply settles_seq; [run|intros ?; settle]
  | |- settles (answer _ _) _ => apply settles_answer; cbn; auto
  | |- settles (start_lookup _ _ _) _ => apply start_lookup_settles; [done|intros ?; exact id]
  | |- settles (match ?x with _ => _ end) _ => destruct x eqn:?; settle
  | |- settles _ _ => apply settles_low; [done|run]
  end.

Lemma put_value_settles v ttl tx : settles (put_value v ttl tx) (CmdPut v ttl tx).
Proof.
  unfold put_value. apply settles_seq; [run|]. intros now.
  eapply (settles_bind _ _ (λ r, ∀ k, r = Ok k → k = hash_value v)).
  { apply runs_gets. intros s _ k. unfold put_immutable_ttl. case_match; [done|].
    cbn. congruence. }
  intros r Hr. settle. left. f_equal. by apply Hr.
Qed.

Lemma handle_cmd_settles rs_encode cmd : settles (handle_cmd rs_encode cmd) cmd.
Proof.
  destruct cmd as [seeds|v ttl tx|k tx|rec tx|k meta tx|k tx|info|]; cbn [handle_cmd];
    unfold announce_self; try solve [settle].
  - destruct (_ && _); [settle|apply put_value_settles].
  - apply settles_seq; [run|intros _]. apply settles_seq; [run|intros now]. apply get_settles.
Qed.
End spec.
