(* ===== verification/ShardThms.v ===== *)
(** * What the shard guarantees

    The invariants that hold after any history of datagrams, commands and timers, and the
    behaviour of single handlers. *)

From S2P Require Import Prelude Bytes Types Proto Codec Routing Crypto Net Peerstore Store Pool Lookup Wg Relay EventLoop Metrics Sybil Erasure ShardState Shard ShardInv.

Section histories.
Context `{TunnOps} `{KeyedHash} `{Protobuf} `{Crc32}.

(** ** Histories *)

(** A history with the commands it served. *)
Inductive served : list ShardCmd → St → St → Prop :=
  | served_done s : served [] s s
  | served_steps cmds s s' s'' : rtc shard_step s s' → served cmds s' s'' → served cmds s s''
  | served_cmd cmd cmds s s' s'' :
      settled s cmd s' → served cmds s' s'' → served (cmd :: cmds) s s''.

Lemma served_app cmds cmds' s s' s'' :
  served cmds s s' → served cmds' s' s'' → served (cmds ++ cmds') s s''.
Proof.
  induction 1 as [s|cmds s s1 s2 Hs _ IH|cmd cmds s s1 s2 Hs _ IH]; intros Hr; [done|..].
  - eapply served_steps; eauto.
  - eapply served_cmd; eauto.
Qed.

Lemma settled_queues s cmd s' : settled s cmd s' → queues_sendable s → queues_sendable s'.
Proof.
  destruct 1 as [s' _ Hl|tx s' r _ Hl _|tx s' n l _ _ Hl _ _]; intros Hq;
    pose proof (low_steps_queues _ _ Hl Hq) as Hq'; exact Hq'.
Qed.

Lemma served_queues cmds s s' : served cmds s s' → queues_sendable s → queues_sendable s'.
Proof.
  induction 1 as [|cmds s s1 s2 Hs _ IH|cmd cmds s s1 s2 Hs _ IH]; intros Hq; [done|..]; apply IH.
  - by eapply (steps_rtc_queues shard_step).
  - by eapply settled_queues.
Qed.

Lemma ok_served {A} (m : M A) e s :
  runs shard_step m (λ _, True) → queues_sendable s → served [] s (m e s).2.
Proof. intros Hm Hq. destruct (Hm e s Hq). by eapply served_steps; [|constructor]. Qed.

(** [m] serves some of the commands [cmds]. *)
Definition serves {A} (m : M A) (cmds : list ShardCmd) (Q : A → Prop) : Prop :=
  ∀ e s, queues_sendable s → ∃ cmds', served cmds' s (m e s).2 ∧ cmds' ⊆+ cmds ∧ Q (m e s).1.

Lemma serves_ok {A} (m : M A) : runs shard_step m (λ _, True) → serves m [] (λ _, True).
Proof. intros Hm e s Hq. exists []. split_and!; [by apply ok_served|done|done]. Qed.

Lemma serves_ret {A} (a : A) (Q : A → Prop) : Q a → serves (mret a) [] Q.
Proof. intros HQ e s _. exists []. split_and!; [constructor|done|done]. Qed.

Lemma serves_bind {A B} (m : M A) (f : A → M B) cmds cmds' (P : A → Prop) (Q : B → Prop) :
  serves m cmds P → (∀ a, P a → serves (f a) cmds' Q) → serves (mbind f m) (cmds ++ cmds') Q.
Proof.
  intros Hm Hf e s Hq. unfold mbind, M_bind. destruct (Hm e s Hq) as (t1 & Hs & Ht1 & Ha).
  destruct (m e s) as [a s']. cbn in *.
  destruct (Hf a Ha e s') as (t2 & Hs' & Ht2 & Hb); [by eapply served_queues|].
  exists (t1 ++ t2). split_and!; [by eapply served_app|by apply submseteq_app|done].
Qed.

Lemma serves_seq {A B} (m : M A) (f : A → M B) cmds (Q : B → Prop) :
  runs shard_step m (λ _, True) → (∀ a, serves (f a) cmds Q) → serves (mbind f m) cmds Q.
Proof. intros Hm Hf. eapply (serves_bind m f [] cmds); [by apply serves_ok|auto]. Qed.

Lemma serves_then {A B} (m : M A) (f : A → M B) cmds (P : A → Prop) (Q : B → Prop) :
  serves m cmds P → (∀ a, P a → serves (f a) [] Q) → serves (mbind f m) cmds Q.
Proof. intros Hm Hf. rewrite <-(app_nil_r cmds). by eapply serves_bind. Qed.

Lemma serves_weaken {A} (m : M A) cmds cmds' (P Q : A → Prop) :
  serves m cmds P → cmds ⊆+ cmds' → (∀ a, P a → Q a) → serves m cmds' Q.
Proof.
  intros Hm Ht HPQ e s Hq. destruct (Hm e s Hq) as (t & ? & ? & ?).
  exists t. split_and!; [done|by etrans|auto].
Qed.

Context (rs_encode : list bytes → result (list bytes)).

Lemma handle_cmd_serves cmd : serves (handle_cmd rs_encode cmd) [cmd] (λ _, True).
Proof.
  intros e s Hq. exists [cmd]. split_and!; [|done|done].
  eapply served_cmd; [|constructor]. by apply handle_cmd_settles.
Qed.

Lemma run_cmds_serves cmds : serves (run_cmds rs_encode cmds) cmds (λ _, True).
Proof.
  induction cmds as [|cmd cmds IH]; [by apply serves_ret|]. change (cmd :: cmds) with ([cmd] ++ cmds).
  destruct cmd; try (by eapply serves_bind; [apply handle_cmd_serves|intros; apply IH]).
  cbn [app run_cmds]. eapply serves_weaken; [by apply (serves_ret false (λ _, True))|by apply submseteq_nil_l|done].
Qed.

Lemma receive_ok d : runs shard_step (receive d) (λ _, True).
Proof.
  unfold receive. apply runs_seq; [exact _|apply incr_ok; exact _|intros _].
  apply runs_seq; [exact _|apply add_metric_ok; exact _|intros _]. apply handle_datagram_ok.
Qed.

Lemma shard_turn_serves batch queue :
  ∃ cmds, serves (shard_turn rs_encode batch queue) cmds (λ r, cmds ++ r.2 = queue).
Proof.
  unfold shard_turn. rewrite drain_cmds_correct. pose proof (take_drop DRAIN_BATCH queue) as Hd.
  revert Hd. generalize (take DRAIN_BATCH queue) (drop DRAIN_BATCH queue). intros cmds rest Hd.
  exists cmds.
  apply serves_seq; [apply runs_for_all; [exact _|apply receive_ok]|intros _].
  eapply serves_then; [apply run_cmds_serves|]. intros running _.
  apply serves_seq; [apply now_instant_ok; exact _|intros now].
  apply serves_seq; [by apply runs_gets|intros due].
  apply serves_seq; [apply runs_modify; [exact _|intros c; apply cs_timers]|intros _].
  apply serves_seq; [apply runs_for_all; [exact _|apply on_timer_ok]|intros _].
  by apply serves_ret.
Qed.

(** The commands a history brings, and their channels. *)
Definition commands (turns : list (list (SocketAddr * bytes) * list ShardCmd)) : list ShardCmd :=
  concat turns.*2.

Definition senders (turns : list (list (SocketAddr * bytes) * list ShardCmd)) : list Sender :=
  omap cmd_sender (commands turns).

Lemma shard_loop_serves turns queue :
  serves (shard_loop rs_encode turns queue) (queue ++ commands turns) (λ _, True).
Proof.
  revert queue. induction turns as [|[batch cmds] turns IH]; intros queue.
  { eapply serves_weaken; [by apply (serves_ret tt (λ _, True))|by apply submseteq_nil_l|done]. }
  cbn [shard_loop]. destruct (shard_turn_serves batch (queue ++ cmds)) as [served Ht].
  intros e s Hq. destruct (Ht e s Hq) as (t1 & Hs1 & Ht1 & Hq1). unfold mbind, M_bind.
  destruct (shard_turn rs_encode batch (queue ++ cmds) e s) as [[running rest] s1]. cbn in *.
  unfold commands. cbn. rewrite (assoc_L (++)), <-Hq1, <-(assoc_L (++)).
  destruct running.
  - destruct (IH rest e s1) as (t2 & Hs2 & Ht2 & _); [by eapply served_queues|].
    exists (t1 ++ t2). split_and!; [by eapply served_app|by apply submseteq_app|done].
  - exists t1. split_and!; [done| |done]. etrans; [exact Ht1|apply submseteq_inserts_r; reflexivity].
Qed.

Lemma shard_start_ok : runs shard_step shard_start (λ _, True).
Proof.
  unfold shard_start. apply runs_seq; [exact _|apply now_instant_ok; exact _|intros now].
  do 4 (apply runs_seq; [exact _|apply schedule_timer_ok; exact _|intros _]).
  apply runs_for_all; [exact _|intros _]. apply runs_seq; [exact _|apply pool_take_ok; exact _|].
  intros. by apply runs_ret.
Qed.

Lemma shard_end_ok :
  runs shard_step (for_ (seq 0 32) (λ _, pool_recycle (zeroed BUFFER_SIZE));; flush_wals) (λ _, True).
Proof.
  apply runs_seq; [exact _| |intros _; apply flush_wals_ok; exact _].
  apply runs_for_all; [exact _|intros _]. apply pool_recycle_ok; exact _.
Qed.

Lemma run_shard_serves turns : serves (run_shard rs_encode turns) (commands turns) (λ _, True).
Proof.
  unfold run_shard. apply serves_seq; [apply shard_start_ok|intros _].
  eapply serves_then; [apply shard_loop_serves|]. intros _ _. apply serves_ok, shard_end_ok.
Qed.

(** ** Invariants *)

(** What holds of the components of a shard with this identity and number. *)
Record shard_inv (identity : Identity) (n : Z) (c : ShardCtx) : Prop := {
  si_identity : sc_identity c = identity;
  si_self : rt_self_id (sc_table c) = node_id identity;
  si_table : rt_wf (sc_table c) ∧ within_k (sc_table c) ∧ srtt_ok (sc_table c);
  si_store : store_inv (sc_store c);
  si_pool : length (free (sc_pool c)) ≤ POOL_CAP;
  si_corr : (1 ≤ sc_next_corr c < 2 ^ 32)%Z;
  si_wg : ∃ ops, sc_wg c = foldl wg_apply (WgEngine_new (wg_secret identity) (wrap 8 n)) ops;
  si_lookups : map_Forall (λ _ p, lookup_run (pl_lookup p) ∧ asks (pl_lookup p)) (sc_lookups c);
}.

Definition out_sendable (o : Out) : Prop :=
  match o with OutPlain _ app => sendable app | OutWg _ _ => True end.

Record safe (identity : Identity) (n : Z) (s : St) : Prop := {
  sf_inv : shard_inv identity n (st_ctx s);
  sf_out : Forall out_sendable (st_out s);
  sf_queues : queues_sendable s;
}.

Lemma rt_use_self rt rt' : rt_use rt rt' → rt_self_id rt' = rt_self_id rt.
Proof.
  assert (Hs : ∀ rt i b, rt_self_id (set_bucket rt i b) = rt_self_id rt) by done.
  assert (He : ∀ rt i, rt_self_id (evict_and_replace rt i) = rt_self_id rt).
  { intros t i. unfold evict_and_replace. by destruct (pop _) as [[? ?]|]. }
  destruct 1 as [rt now info|rt now i rtt|rt i]; [|done|].
  - unfold RoutingTable_insert. by repeat case_match.
  - unfold mark_fail. case_match; [|done]. case_match; [by rewrite He|done].
Qed.

Lemma recycle_bound p b : length (free p) ≤ POOL_CAP → length (free (recycle p b)) ≤ POOL_CAP.
Proof.
  intros Hp. unfold recycle. destruct (_ && _) eqn:E; [|done]. bool_to_prop.
  cbn. rewrite length_app. cbn. lia.
Qed.

Lemma take_bound p : length (free p) ≤ POOL_CAP → length (free (BufferPool_take p).1) ≤ POOL_CAP.
Proof.
  intros Hp. unfold BufferPool_take. destruct (pop (free p)) as [[b rest]|] eqn:E; [|done].
  apply pop_Some in E. rewrite E, length_app in Hp. cbn in *. lia.
Qed.

Lemma bump_corr_range z : (1 ≤ z < 2 ^ 32)%Z → (1 ≤ bump_corr z < 2 ^ 32)%Z.
Proof.
  intros Hz. unfold bump_corr, wrap. pose proof (Z.mod_pos_bound (z + 1) (2 ^ 32) ltac:(lia)).
  destruct (Z.eqb_spec ((z + 1) mod 2 ^ 32) 0); lia.
Qed.

Lemma ctx_step_inv i n c c' : ctx_step c c' → shard_inv i n c → shard_inv i n c'.
Proof.
  intros Hs [Hid Hself (Hwf & Hk & Hrtt) Hst Hp Hc Hw Hl].
  destruct Hs as [|b|t Hu Ht|st Hst'| | | |o| | | | | | | | | | | | | | |]; split; try done; cbn.
  - by apply take_bound.
  - by apply recycle_bound.
  - by rewrite (rt_use_self _ _ Hu).
  - split_and!; [by eapply rt_step_wf; [apply rt_use_step|]|by eapply rt_use_within_k
                |by eapply rt_timed_srtt].
  - by eapply store_inv_step.
  - eapply store_inv_step; [exact Hst|apply (st_flush (sc_store c) (sc_peers c))].
  - destruct Hw as [ops Hw]. exists (ops ++ [o]). by rewrite foldl_app, <-Hw.
  - by apply bump_corr_range.
Qed.

Lemma low_step_safe i n s s' : low_step s s' → safe i n s → safe i n s'.
Proof.
  intros Hs [Hi Ho Hq]. split; [| |by eapply low_step_queues].
  - destruct Hs; try exact Hi. by eapply ctx_step_inv.
  - destruct Hs; try exact Ho; (apply Forall_app; split; [exact Ho|]); by apply Forall_singleton.
Qed.

Lemma low_steps_safe i n s s' : rtc low_step s s' → safe i n s → safe i n s'.
Proof. induction 1; eauto using low_step_safe. Qed.

Lemma with_lookups_safe i n s f :
  map_Forall (λ _ p, lookup_run (pl_lookup p) ∧ asks (pl_lookup p)) (f (sc_lookups (st_ctx s))) → safe i n s →
  safe i n (with_lookups s f).
Proof. intros Hf [[] ? ?]. split; [by split|done|done]. Qed.

Lemma insert_lookup_safe i n s k p :
  lookup_run (pl_lookup p) → asks (pl_lookup p) → safe i n s →
  safe i n (with_lookups s (<[k := p]>)).
Proof.
  intros Hp Ha Hs. apply with_lookups_safe; [|done]. apply map_Forall_insert_2; [done|].
  apply (si_lookups i n), (sf_inv i n s Hs).
Qed.

Lemma delete_lookup_safe i n s k : safe i n s → safe i n (with_lookups s (delete k)).
Proof.
  intros Hs. apply with_lookups_safe; [|done]. apply map_Forall_delete.
  apply (si_lookups i n), (sf_inv i n s Hs).
Qed.

Lemma with_answer_safe i n s tx r : safe i n s → safe i n (with_answer s tx r).
Proof. intros [? ? ?]. by split. Qed.

Lemma shard_step_safe i n s s' : shard_step s s' → safe i n s → safe i n s'.
Proof.
  destruct 1 as [s' Hs|k p l Hk Hu|k p l s' Hk Hs Hl|k p l s' Hk Hs Hl Hd]; intros Hsafe.
  - by eapply low_step_safe.
  - destruct (si_lookups i n _ (sf_inv i n s Hsafe) k p Hk).
    apply insert_lookup_safe; [by eapply lookup_run_use|by eapply asks_use|done].
  - destruct (si_lookups i n _ (sf_inv i n s Hsafe) k p Hk).
    apply insert_lookup_safe; [by eapply lookup_run_sent|by eapply asks_sent|].
    eapply low_steps_safe; [exact Hs|by apply delete_lookup_safe].
  - assert (safe i n s') by (eapply low_steps_safe; [exact Hs|by apply delete_lookup_safe]).
    destruct (pl_reply p); [by apply with_answer_safe|done].
Qed.

Lemma shard_steps_safe i n s s' : rtc shard_step s s' → safe i n s → safe i n s'.
Proof. induction 1; eauto using shard_step_safe. Qed.

Lemma settled_safe i n s cmd s' : settled s cmd s' → safe i n s → safe i n s'.
Proof.
  destruct 1 as [s' _ Hs|tx s' r _ Hs _|tx s' k l _ _ Hs Hl Ha]; intros Hsafe;
    pose proof (low_steps_safe i n _ _ Hs Hsafe).
  - done.
  - by apply with_answer_safe.
  - by apply insert_lookup_safe.
Qed.

Lemma served_safe i n cmds s s' : served cmds s s' → safe i n s → safe i n s'.
Proof.
  induction 1 as [|cmds s s1 s2 Hs _ IH|cmd cmds s s1 s2 Hs _ IH]; intros Hq; [done|..]; apply IH.
  - by eapply shard_steps_safe.
  - by eapply settled_safe.
Qed.

(** The state a shard starts in. *)
Definition St_new (n : Z) (identity : Identity) (cfg : NodeConfig) (local : SocketAddr)
    (d : Dir) (opens : bool * bool) (unix : Z) : St :=
  mkSt (ShardCtx_new n identity cfg local d opens unix) 0 [] [].

Lemma St_new_safe n identity cfg local d opens unix :
  safe identity n (St_new n identity cfg local d opens unix).
Proof.
  assert (Hcases : ∃ st ps dk, ShardCtx_new n identity cfg local d opens unix =
      {| sc_id := n; sc_identity := identity; sc_cfg := cfg; sc_local := local;
         sc_pool := BufferPool_new; sc_table := RoutingTable_new (node_id identity);
         sc_store := st; sc_peers := ps; sc_disk := dk;
         sc_wg := WgEngine_new (wg_secret identity) (wrap 8 n); sc_sybil := Sybil_new;
         sc_relay := RelayState_new (two_hop_relay cfg); sc_metrics := Snapshot_default;
         sc_lookups := ∅; sc_next_corr := 1; sc_endpoints := ∅; sc_timers := []; sc_keys := ∅;
         sc_pending_wg := ∅; sc_mapped := None; sc_punches := ∅; sc_via_relay := ∅ |} ∧
      store_inv st).
  { unfold ShardCtx_new. destruct (if _ : bool then _ else _) as [ps dk].
    eexists _, ps, dk. split; [reflexivity|].
    case_match; [apply store_inv_open|apply store_inv_new]. }
  destruct Hcases as (st & ps & dk & Heq & Hst). unfold St_new. rewrite Heq.
  split; cbn; [|done|apply map_Forall_empty].
  split; cbn; try done.
  - split_and!; [apply RoutingTable_new_wf|apply RoutingTable_new_within_k|apply RoutingTable_new_srtt].
  - apply Nat.leb_le. by vm_compute.
  - by exists [].
Qed.

(** ** Reply channels *)

Definition waiting (m : gmap Z PendingLookup) : list Sender := omap (λ kp, pl_reply kp.2) (map_to_list m).

(** The channels that were answered, once per answer, and those that wait in a lookup. *)
Definition channels (s : St) : list Sender := (st_answers s).*1 ++ waiting (sc_lookups (st_ctx s)).

Lemma waiting_insert_fresh m k p :
  m !! k = None → waiting (<[k := p]> m) ≡ₚ option_list (pl_reply p) ++ waiting m.
Proof.
  intros Hk. unfold waiting. rewrite (map_to_list_insert m k p Hk). cbn. by destruct (pl_reply p).
Qed.

Lemma waiting_delete m k p :
  m !! k = Some p → waiting m ≡ₚ option_list (pl_reply p) ++ waiting (delete k m).
Proof.
  intros Hk. rewrite <-(insert_delete_id m k p Hk) at 1.
  apply waiting_insert_fresh, lookup_delete_eq.
Qed.

Lemma waiting_insert_delete m k p :
  waiting (<[k := p]> m) ≡ₚ option_list (pl_reply p) ++ waiting (delete k m).
Proof. rewrite <-insert_delete_eq. apply waiting_insert_fresh, lookup_delete_eq. Qed.

Lemma waiting_insert m k p : waiting (<[k := p]> m) ⊆+ option_list (pl_reply p) ++ waiting m.
Proof.
  rewrite waiting_insert_delete. apply submseteq_app; [done|].
  destruct (m !! k) as [q|] eqn:E.
  - rewrite (waiting_delete m k q E). by apply submseteq_inserts_l.
  - by rewrite delete_id.
Qed.

(** Components do not look at the pending lookups. *)
Lemma low_step_frame s s' :
  low_step s s' → sc_lookups (st_ctx s') = sc_lookups (st_ctx s) ∧ st_answers s' = st_answers s.
Proof. destruct 1 as [|c Hc|dest app Ha|dest p]; try done. by destruct Hc. Qed.

Lemma low_steps_frame s s' :
  rtc low_step s s' → sc_lookups (st_ctx s') = sc_lookups (st_ctx s) ∧ st_answers s' = st_answers s.
Proof. induction 1 as [|x y z Hxy _ [Hm Ha]]; [done|]. apply low_step_frame in Hxy as []. by split; etrans. Qed.

Lemma shard_step_channels s s' : shard_step s s' → channels s' ≡ₚ channels s.
Proof.
  destruct 1 as [s' Hs|k p l Hk Hu|k p l s' Hk Hs Hl|k p l s' Hk Hs Hl Hd]; unfold channels.
  - by apply low_step_frame in Hs as [-> ->].
  - cbn. by rewrite waiting_insert_delete, (waiting_delete _ _ _ Hk).
  - apply low_steps_frame in Hs as [Hm Ha]. cbn in *. rewrite Hm, Ha.
    by rewrite waiting_insert_delete, delete_delete_eq, (waiting_delete (sc_lookups (st_ctx s)) k p Hk).
  - apply low_steps_frame in Hs as [Hm Ha]. cbn in *.
    rewrite (waiting_delete (sc_lookups (st_ctx s)) k p Hk).
    destruct (pl_reply p); cbn; rewrite Hm, Ha; [|done].
    by rewrite fmap_app, <-(assoc_L (++)).
Qed.

Lemma shard_steps_channels s s' : rtc shard_step s s' → channels s' ≡ₚ channels s.
Proof. induction 1 as [|x y z Hxy _ IH]; [done|]. by rewrite IH, (shard_step_channels x y). Qed.

Lemma settled_channels s cmd s' :
  settled s cmd s' → channels s' ⊆+ option_list (cmd_sender cmd) ++ channels s.
Proof.
  destruct 1 as [s' -> Hs|tx s' r -> Hs _|tx s' k l -> _ Hs Hl _]; unfold channels;
    apply low_steps_frame in Hs as [Hm Ha]; cbn in *; rewrite Hm, Ha.
  - done.
  - rewrite fmap_app, <-(assoc_L (++)). cbn. by rewrite <-Permutation_middle.
  - etrans; [apply submseteq_skips_l, waiting_insert|]. cbn. by rewrite <-Permutation_middle.
Qed.

Lemma omap_sender_cons cmd cmds :
  omap cmd_sender (cmd :: cmds) = option_list (cmd_sender cmd) ++ omap cmd_sender cmds.
Proof. cbn. by destruct (cmd_sender cmd). Qed.

Lemma served_channels cmds s s' :
  served cmds s s' → channels s' ⊆+ omap cmd_sender cmds ++ channels s.
Proof.
  induction 1 as [|cmds s s1 s2 Hs _ IH|cmd cmds s s1 s2 Hs _ IH]; [done|..].
  - etrans; [exact IH|]. by rewrite (shard_steps_channels _ _ Hs).
  - etrans; [exact IH|]. etrans; [apply submseteq_skips_l, (settled_channels _ _ _ Hs)|].
    rewrite omap_sender_cons, !(assoc_L (++)). by rewrite (comm (++) (omap _ cmds)).
Qed.

Lemma channels_new n identity cfg local d opens unix :
  channels (St_new n identity cfg local d opens unix) = [].
Proof.
  unfold channels, waiting, St_new, ShardCtx_new. destruct (if _ : bool then _ else _).
  cbn. by rewrite map_to_list_empty.
Qed.

(** What a history from the start establishes. *)
Lemma run_shard_new n identity cfg local d opens unix turns e s :
  s = (run_shard rs_encode turns e (St_new n identity cfg local d opens unix)).2 →
  safe identity n s ∧ channels s ⊆+ senders turns.
Proof.
  intros ->. pose proof (St_new_safe n identity cfg local d opens unix) as Hs.
  destruct (run_shard_serves turns e _ (sf_queues _ _ _ Hs)) as (cmds & Hr & Hsub & _).
  split; [by eapply served_safe|]. apply served_channels in Hr.
  rewrite channels_new, app_nil_r in Hr. etrans; [exact Hr|].
  apply submseteq_Permutation in Hsub as [k Hk]. unfold senders. rewrite Hk, omap_app.
  by apply submseteq_inserts_r.
Qed.

Lemma channels_distinct s l :
  channels s ⊆+ l → NoDup l →
  NoDup ((st_answers s).*1 ++ waiting (sc_lookups (st_ctx s))) ∧
  (∀ tx, tx ∈ (st_answers s).*1 ++ waiting (sc_lookups (st_ctx s)) → tx ∈ l).
Proof.
  fold (channels s). generalize (channels s). intros ch [k Hk]%submseteq_Permutation Hnd. split.
  - rewrite Hk in Hnd. by apply NoDup_app in Hnd as (? & _).
  - intros tx Htx. rewrite Hk. apply elem_of_app. by left.
Qed.

(** ** Theorems *)

(** C10: whatever datagrams, commands and timers a shard handles, and whatever the clocks,
    the socket and the iteration orders of its maps do, its components keep their
    invariants: the routing table is well formed, with at most twenty peers per bucket and
    every smoothed round-trip time in range; every stored record is authentic and filed
    under its key; the pool holds at most 256 buffers; correlation numbers are never zero;
    the WireGuard engine is in a state its own operations lead to; and every pending
    lookup is a run of the lookup's own operations from a fresh one, so what holds of such
    runs (how often a peer is asked, what is in flight, how it ends) holds of it; and the
    record a pending lookup has found, if any, is authentic. *)
Theorem shard_components_safe (n : Z) (identity : Identity) (cfg : NodeConfig) (local : SocketAddr)
    (d : Dir) (opens : bool * bool) (unix : Z)
    (turns : list (list (SocketAddr * bytes) * list ShardCmd)) (e : Env) :
  shard_inv identity n
    (st_ctx (run_shard rs_encode turns e (St_new n identity cfg local d opens unix)).2).
Proof. eapply sf_inv, run_shard_new. reflexivity. Qed.

Lemma sendable_typed app :
  sendable app → length app ≤ 1200 ∧ looks_like_wg app = false ∧
  ∃ h, Header_decode app = Some h ∧ speaks (h_ty h) (drop HEADER_LEN app).
Proof.
  intros [Hl (h & body & -> & Hv & Hs)]. split; [done|].
  destruct (Header_decode_type h body Hv) as (h' & Hd & Hty & _).
  split; [by eapply header_not_wg|]. exists h'. split; [done|].
  rewrite drop_app_length' by done. by rewrite Hty.
Qed.

(** C24: every application datagram a shard writes to its socket, in whatever history, and
    every one that waits for a WireGuard session, is a well-typed Molia message: it fits the
    path MTU floor of 1200 bytes, its header decodes, its body is an encoding of the struct
    that belongs to the header's message type, and the receiver does not take it for a
    WireGuard datagram.  (The datagrams of the WireGuard engine are the engine's.) *)
Theorem datagrams_typed (n : Z) (identity : Identity) (cfg : NodeConfig) (local : SocketAddr)
    (d : Dir) (opens : bool * bool) (unix : Z)
    (turns : list (list (SocketAddr * bytes) * list ShardCmd)) (e : Env) :
  let s := (run_shard rs_encode turns e (St_new n identity cfg local d opens unix)).2 in
  let typed app := length app ≤ 1200 ∧ looks_like_wg app = false ∧
    ∃ h, Header_decode app = Some h ∧ speaks (h_ty h) (drop HEADER_LEN app) in
  (∀ dest app, OutPlain dest app ∈ st_out s → typed app) ∧
  (∀ dest q app, sc_pending_wg (st_ctx s) !! dest = Some q → app ∈ q → typed app).
Proof.
  intros s typed. destruct (run_shard_new n identity cfg local d opens unix turns e s eq_refl)
    as [[_ Ho Hq] _]. clearbody s. split.
  - intros dest app Hin. apply sendable_typed. by apply (proj1 (Forall_forall _ _) Ho) in Hin.
  - intros dest q app Hl Hin. apply sendable_typed. by apply (proj1 (Forall_forall _ _) (Hq dest q Hl)) in Hin.
Qed.

(** C16: no caller of the API is answered twice, and no answer goes to a channel nobody
    opened: when every command comes with a reply channel of its own, then at the end of
    any history the channels that were answered and those that wait with a lookup are
    distinct, and all of them were opened by a command. *)
Theorem replies_at_most_once (n : Z) (identity : Identity) (cfg : NodeConfig) (local : SocketAddr)
    (d : Dir) (opens : bool * bool) (unix : Z)
    (turns : list (list (SocketAddr * bytes) * list ShardCmd)) (e : Env) :
  NoDup (senders turns) →
  let s := (run_shard rs_encode turns e (St_new n identity cfg local d opens unix)).2 in
  NoDup ((st_answers s).*1 ++ waiting (sc_lookups (st_ctx s))) ∧
  (∀ tx, tx ∈ (st_answers s).*1 ++ waiting (sc_lookups (st_ctx s)) → tx ∈ senders turns).
Proof.
  intros Hnd s. destruct (run_shard_new n identity cfg local d opens unix turns e s eq_refl)
    as [_ Hc]. clearbody s. by apply channels_distinct.
Qed.

(** ** Overdue lookups *)

(** At every reading of the clock the lookup's budget is used up. *)
Definition overdue (e : Env) (p : PendingLookup) : Prop :=
  ∀ t, (budget (pl_lookup p) ≤ sat_sub (env_now e t) (started (pl_lookup p)))%Z.

Definition all_overdue (e : Env) (s : St) : Prop :=
  map_Forall (λ _ p, overdue e p) (sc_lookups (st_ctx s)).

Lemma sweep_one_overdue e s n :
  all_overdue e s → sc_lookups (st_ctx (sweep_one n e s).2) = delete n (sc_lookups (st_ctx s)).
Proof.
  intros Ho. unfold sweep_one, mbind, M_bind, gets. cbn -[dispatch_lookup_batch].
  destruct (sc_lookups (st_ctx s) !! n) as [p|] eqn:Hn; [|cbn; by rewrite delete_id].
  unfold dispatch_lookup_batch, now_instant, read, mbind, M_bind. cbn.
  assert (Hb : next_batch (pl_lookup p) (env_now e (st_tick s)) = (set_done (pl_lookup p), [])).
  { unfold next_batch. pose proof (Ho n p Hn (st_tick s)) as Hp.
    apply Z.leb_le in Hp. by rewrite Hp, orb_true_r. }
  rewrite Hb. cbn. unfold finish_lookup.
  destruct (bool_decide _), (pl_reply p); done.
Qed.

Lemma sweep_all_overdue e ids s :
  all_overdue e s →
  sc_lookups (st_ctx (for_ ids sweep_one e s).2) = foldl (λ m n, delete n m) (sc_lookups (st_ctx s)) ids.
Proof.
  revert s. induction ids as [|n ids IH]; intros s Ho; [done|].
  cbn [for_ foldl]. unfold mbind, M_bind. pose proof (sweep_one_overdue e s n Ho) as Hn.
  destruct (sweep_one n e s) as [u s']. cbn in Hn. rewrite IH, Hn; [done|].
  unfold all_overdue. rewrite Hn. by apply map_Forall_delete.
Qed.

Lemma delete_all_keys (m : gmap Z PendingLookup) ids :
  (∀ k, k ∈ (map_to_list m).*1 → k ∈ ids) → foldl (λ m n, delete n m) m ids = ∅.
Proof.
  intros Hk. apply map_empty. intros k.
  assert (Hin : is_Some (m !! k) → k ∈ ids).
  { intros [p Hp]. apply Hk, list_elem_of_fmap. exists (k, p). split; [done|].
    by apply elem_of_map_to_list. }
  clear Hk. revert m Hin. induction ids as [|n ids IH]; intros m Hin; cbn.
  - destruct (m !! k) eqn:E; [|done]. exfalso. by eapply not_elem_of_nil, Hin.
  - apply IH. intros [p [Hne Hp]%lookup_delete_Some].
    by destruct (proj1 (elem_of_cons _ _ _) (Hin (mk_is_Some _ _ Hp))).
Qed.

Lemma sweep_lookups_overdue e s :
  (∀ t l, env_ids e t l ≡ₚ l) → all_overdue e s →
  sc_lookups (st_ctx (sweep_lookups e s).2) = ∅.
Proof.
  intros Hperm Ho. unfold sweep_lookups, read, gets, mbind, M_bind. cbn.
  rewrite sweep_all_overdue by done. apply delete_all_keys. intros k. cbn. by rewrite Hperm.
Qed.

(** A handler that keeps every pending lookup overdue. *)
Definition keeps_overdue {A} (e : Env) (m : M A) : Prop :=
  ∀ s, all_overdue e s → all_overdue e (m e s).2.

Lemma keeps_bind {A B} e (m : M A) (f : A → M B) :
  keeps_overdue e m → (∀ a, keeps_overdue e (f a)) → keeps_overdue e (mbind f m).
Proof.
  intros Hm Hf s Hs. unfold mbind, M_bind. specialize (Hm s Hs).
  destruct (m e s) as [a s']. by apply Hf.
Qed.

Lemma timeout_one_overdue e now timed n : keeps_overdue e (timeout_one now timed n).
Proof.
  intros s Ho. unfold timeout_one, gets, mbind, M_bind. cbn.
  destruct (sc_lookups (st_ctx s) !! n) as [p|] eqn:Hn; [|done].
  destruct (on_timeouts (pl_lookup p) now) as [l dead] eqn:E. cbn.
  apply map_Forall_insert_2; [|done]. intros t. cbn. pose proof (Ho n p Hn t) as Hp.
  unfold on_timeouts in E. destruct (foldl _ _ _) as [q rt]. by injection E as <- _.
Qed.

Lemma fold_overdue {A B} e (f : B → A → M B) l b :
  (∀ b a, keeps_overdue e (f b a)) → keeps_overdue e (fold_ f l b).
Proof.
  intros Hf. revert b. induction l as [|a l IH]; intros b; [by intros s|].
  by apply keeps_bind.
Qed.

Lemma for_fail_overdue e l : keeps_overdue e (for_ l fail_peer).
Proof. induction l as [|i l IH]; [by intros s|]. apply keeps_bind; [by intros s|done]. Qed.

(** C14: no caller waits for a lookup longer than its budget and a timer tick.  When the
    lookup timer fires at a time when the 1.5 s budget of every pending lookup is used
    up, none is pending afterwards, and exactly the channels that had been answered or
    were waiting have been answered, each once. *)
Theorem overdue_lookups_answered (e : Env) (s : St) :
  queues_sendable s → (∀ t l, env_ids e t l ≡ₚ l) → all_overdue e s →
  let s' := (on_timer LookupTick e s).2 in
  sc_lookups (st_ctx s') = ∅ ∧ (st_answers s').*1 ≡ₚ (st_answers s).*1 ++ waiting (sc_lookups (st_ctx s)).
Proof.
  intros Hq Hperm Ho. cbn zeta.
  destruct (on_timer_ok LookupTick e s Hq) as [Hs _]. apply shard_steps_channels in Hs.
  assert (Hl : sc_lookups (st_ctx (on_timer LookupTick e s).2) = ∅).
  { unfold on_timer, now_instant, read, gets, mbind, M_bind.
    match goal with |- context [fold_ (timeout_one ?now) ?ids [] e ?s0] =>
      pose proof (fold_overdue e (timeout_one now) ids [] (timeout_one_overdue e now) s0 Ho) as H1';
      destruct (fold_ (timeout_one now) ids [] e s0) as [timed s2] end.
    pose proof (for_fail_overdue e timed s2 H1') as H2'.
    destruct (for_ timed fail_peer e s2) as [u s3]. cbn in H2'.
    pose proof (sweep_lookups_overdue e s3 Hperm H2') as H3'.
    destruct (sweep_lookups e s3) as [u' s4]. exact H3'. }
  split; [done|]. revert Hs Hl. generalize (on_timer LookupTick e s).2. intros s' Hs Hl.
  unfold channels in Hs. rewrite <-Hs, Hl. unfold waiting. by rewrite map_to_list_empty, app_nil_r.
Qed.

(** ** Relayed frames *)

(** A datagram that does not start with a header of this protocol. *)
Definition malformed (pkt : bytes) : Prop := Header_decode pkt = None.

Lemma on_relay_ext inner inner' src pkt e s :
  (∀ r, decode_body proto.Relay pkt = Some r → ∀ s, inner (proto.relay_payload r) e s = inner' (proto.relay_payload r) e s) →
  on_relay inner src pkt e s = on_relay inner' src pkt e s.
Proof.
  intros Hext. unfold on_relay. destruct (decode_body proto.Relay pkt) as [r|]; [|done].
  destruct (NodeId_from_bytes (proto.relay_dest_id r)), (NodeId_from_bytes (proto.relay_from_id r)); try done.
  unfold gets, mbind, M_bind. cbn. case_bool_decide; [|done]. unfold modify. by apply Hext.
Qed.

Lemma decode_relay_shorter pkt r :
  decode_body proto.Relay pkt = Some r → S (length (proto.relay_payload r)) ≤ length pkt.
Proof.
  unfold decode_body. destruct (Nat.ltb_spec (length pkt) HEADER_LEN); [done|].
  intros Hd%relay_payload_shorter. rewrite length_drop in Hd. lia.
Qed.

(** C25: handling a datagram terminates, relayed frames inside relayed frames included: the
    nesting never reaches the bound of [handle_app], the length of the datagram, so any
    larger bound gives the same result; and a datagram that does not start with a header
    of this protocol is only counted. *)
Theorem handle_app_terminates (fuel : nat) (src : SocketAddr) (pkt : bytes) (au : bool) (e : Env) (s : St) :
  length pkt ≤ fuel →
  handle_app_fuel fuel src pkt au e s = handle_app src pkt au e s ∧
  (malformed pkt → handle_app src pkt au e s = incr MDropsMalformed e s).
Proof.
  assert (Hgen : ∀ f f' pkt au s, length pkt ≤ f → length pkt ≤ f' →
            handle_app_fuel f src pkt au e s = handle_app_fuel f' src pkt au e s).
  { clear. induction f as [|f IH]; intros f' pkt au s Hf Hf'.
    - assert (pkt = []) as -> by (destruct pkt; [done|cbn in Hf; lia]). by destruct f'.
    - destruct f' as [|f'].
      { assert (pkt = []) as -> by (destruct pkt; [done|cbn in Hf'; lia]). done. }
      cbn [handle_app_fuel]. destruct (Header_decode pkt) as [h|]; [|done].
      destruct (h_ty h); try done.
      apply on_relay_ext. intros r Hr s'. apply decode_relay_shorter in Hr. apply IH; lia. }
  intros Hl. split; [by apply Hgen|]. unfold malformed. intros Hd. unfold handle_app.
  destruct (length pkt); cbn [handle_app_fuel]; by rewrite Hd.
Qed.

(** ** Peer keys *)

(** An introduction whose signature binds the X25519 key under the Ed25519 key. *)
Definition intro_valid (x ed sg : bytes) : bool :=
  (length x =? 32) && (length ed =? 32) && negb (length sg =? 0) && verify_binding ed x sg.

Lemma add_peer_known w x pid ep : is_Some (by_x25519 (add_peer w x pid ep).1 !! x).
Proof.
  unfold add_peer. destruct (by_x25519 w !! x) eqn:E; [by exists z|].
  cbn [fst by_x25519]. rewrite lookup_insert_eq. by eexists.
Qed.

(** a key is accepted for an address only with a proof of identity.  The keys in an
    introduction are noted exactly when both have 32 bytes and the signature binds the
    X25519 key under the Ed25519 key; then the sender gets the identifier that the
    Ed25519 key hashes to, its address is mapped to the X25519 key, the WireGuard engine
    has a session for that key, and the peer store holds the peer.  Otherwise nothing
    changes. *)
Theorem note_peer_keys_correct (src : SocketAddr) (x ed sg : bytes) (e : Env) (s : St) :
  let '(r, s') := note_peer_keys src x ed sg e s in
  let k := list_to_arr 32 x in
  let pid := node_id_from_pubkey ed in
  if intro_valid x ed sg then
    r = Some pid ∧ sc_keys (st_ctx s') = <[src := k]> (sc_keys (st_ctx s)) ∧
    sc_wg (st_ctx s') = (add_peer (sc_wg (st_ctx s)) k (Some pid) (Some src)).1 ∧
    is_Some (by_x25519 (sc_wg (st_ctx s')) !! k) ∧
    ps_peers (sc_peers (st_ctx s')) !! pid = Some (mkPeerInfo pid [src] 0 (Some k)) ∧
    st_out s' = st_out s
  else r = None ∧ s' = s.
Proof.
  cbn zeta. unfold note_peer_keys, intro_valid.
  destruct (length x =? 32); [|done]. destruct (length ed =? 32); [|done].
  destruct (length sg =? 0); [done|]. destruct (verify_binding ed x sg); [|done].
  cbn -[add_peer RoutingTable_insert set_x25519]. split_and!; try reflexivity.
  - apply add_peer_known.
  - apply lookup_insert_eq.
Qed.
End histories.

(** ** Exchanging peers *)

Lemma strip_prefix_app p l : strip_prefix p (p ++ l) = Some l.
Proof.
  unfold strip_prefix. rewrite take_app_length, bool_decide_eq_true_2 by done.
  by rewrite drop_app_length.
Qed.

Lemma parse_addr_to_proto a :
  addr_text_ok a = true → parse_multiaddr (proto.multiaddr (addr_to_proto a)) = Some a.
Proof.
  intros [Hu Hp]%addr_text_ok_spec. unfold parse_multiaddr, addr_to_proto. cbn [proto.multiaddr].
  assert (from_utf8 (bstr "udp://" ++ addr_to_string a) = Some (bstr "udp://" ++ addr_to_string a)) as ->.
  { unfold from_utf8 in *. destruct (utf8_valid (addr_to_string a)) eqn:E; [|done].
    change (utf8_valid (bstr "udp://" ++ addr_to_string a)) with (utf8_valid (addr_to_string a)).
    by rewrite E. }
  cbn [mbind option_bind]. rewrite strip_prefix_app. cbn [default from_option]. done.
Qed.

Lemma push_addrs p l :
  NoDup (pi_addrs p ++ l) → length (pi_addrs p ++ l) ≤ ADDRS_CAP →
  foldl push_addr p l = mkPeerInfo (pi_id p) (pi_addrs p ++ l) (pi_rtt_ms p) (pi_x25519 p).
Proof.
  revert p. induction l as [|a l IH]; intros p Hnd Hlen.
  { rewrite app_nil_r. by destruct p. }
  cbn [foldl]. assert (Hp : push_addr p a = mkPeerInfo (pi_id p) (pi_addrs p ++ [a]) (pi_rtt_ms p) (pi_x25519 p)).
  { unfold push_addr. destruct (existsb _ _) eqn:E.
    - exfalso. apply existsb_elem in E as (b & Hb & ->%bool_decide_eq_true_1).
      apply NoDup_app in Hnd as (_ & Hd & _). apply (Hd a Hb). by left.
    - unfold try_push. rewrite length_app in Hlen. cbn in Hlen.
      by destruct (Nat.ltb_spec (length (pi_addrs p)) ADDRS_CAP); [|lia]. }
  rewrite Hp, IH; cbn; rewrite <-?(assoc_L (++)); done.
Qed.

(** A peer with one to four distinct printable addresses. *)
Definition listable (p : PeerInfo) : Prop :=
  pi_addrs p ≠ [] ∧ NoDup (pi_addrs p) ∧ length (pi_addrs p) ≤ ADDRS_CAP ∧
  Forall (λ a, addr_text_ok a = true) (pi_addrs p).

Lemma peer_roundtrip p : listable p → peer_from_proto (peer_to_proto p) = Some (set_rtt p 0).
Proof.
  intros (Hne & Hnd & Hlen & Hok). unfold peer_from_proto, peer_to_proto. cbn [proto.peer_id].
  unfold NodeId_from_bytes. rewrite to_arr_list. cbn [fmap option_fmap option_map mbind option_bind proto.peer_addrs].
  assert (omap (λ a, parse_multiaddr (proto.multiaddr a)) (addr_to_proto <$> pi_addrs p) = pi_addrs p) as ->.
  { clear -Hok. induction Hok as [|a l Ha _ IH]; [done|].
    cbn [fmap list_fmap omap list_omap]. rewrite parse_addr_to_proto by done. by f_equal. }
  destruct p as [[i] [|a l] rtt x]; [done|]. cbn [pi_addrs pi_id nid pi_x25519 proto.peer_x25519_pubkey] in *.
  rewrite push_addrs; [|done..]. cbn [pi_id pi_addrs PeerInfo_new try_push pi_rtt_ms pi_x25519].
  destruct x as [x|]; cbn [from_option]; [|done].
  rewrite length_vec_to_list. cbn [Nat.eqb]. unfold set_x25519. cbn. unfold list_to_arr. by rewrite to_arr_list.
Qed.

(** the peers a shard sends are the peers the receiver reads: from the encoding of a
    list of peers with printable addresses, the receiver gets the first sixteen with
    their identifiers, their addresses in order and their keys.  Only the round-trip
    time, which is sent, is not taken over. *)
Theorem peers_exchange (ps : list PeerInfo) :
  Forall listable ps →
  peers_from_proto (peers_to_proto ps) = (λ p, set_rtt p 0) <$> take 16 ps.
Proof.
  intros Hps. unfold peers_from_proto, peers_to_proto, MAX_FIND_NODE_PEERS.
  apply (Forall_take _ 16) in Hps. induction Hps as [|p l Hp _ IH]; [done|].
  cbn [fmap list_fmap omap list_omap]. rewrite peer_roundtrip by done. by f_equal.
Qed.

(** ** Concrete shards *)

#[local] Existing Instance toy_crypto.
#[local] Existing Instance toy_tunn.
#[local] Existing Instance toy_keyed.
#[local] Existing Instance crc_ieee_inst.
#[local] Existing Instance wire_protobuf.

(** An environment whose clock stands still. *)
Definition sample_env (now : Z) : Env :=
  {| env_now _ := now; env_unix _ := 1000%Z; env_unix_ms _ := 1000000%Z; env_sent _ := true;
     env_ids _ l := l; env_nodes _ l := l; env_drain := 8 |}.

Definition sample_identity : Identity := mkIdentity sample_kp (arr_repeat (z2b 9) 32).

Definition sample_St : St :=
  St_new 0 sample_identity (mkNodeConfig (toy_addr 0) 1 [] true false false false) (toy_addr 0)
    (empty_dir 0) (false, false) 0.

Definition no_erasure (l : list bytes) : result (list bytes) := Err "no".

Definition sample_node (n : Z) : NodeId := mkNodeId (arr_repeat (z2b n) 32).
Definition sample_key : Key := mkKey (arr_repeat (z2b 1) 32).

(** The bytes of a datagram. *)
Definition datagram {T} `{Message T} (h : Header) (m : T) : bytes := header_bytes h ++ encode_to_vec m.

(** A shard that knows one peer and was asked for [sample_key] on channel 7. *)
Definition asked_St : St :=
  let e := sample_env 0 in
  let s := (handle_cmd no_erasure (CmdInjectPeer (PeerInfo_new (sample_node 2) (toy_addr 5))) e sample_St).2 in
  (handle_cmd no_erasure (CmdGet sample_key 7) e s).2.

Lemma replies_at_most_once_witness :
  let turns := [([(toy_addr 3, bstr "?")], [CmdGet sample_key 7; CmdAnnounce sample_key [] 8])] in
  let s := (run_shard no_erasure turns (sample_env 0) (St_new 0 sample_identity NodeConfig_default
              (toy_addr 0) (empty_dir 0) (true, true) 0)).2 in
  NoDup (senders turns) ∧
  NoDup ((st_answers s).*1 ++ waiting (sc_lookups (st_ctx s))) ∧
  (∀ tx, tx ∈ (st_answers s).*1 ++ waiting (sc_lookups (st_ctx s)) → tx ∈ senders turns).
Proof.
  intros turns s.
  assert (Hnd : NoDup (senders turns)) by (apply (bool_decide_unpack _); vm_compute; exact I).
  split; [exact Hnd|].
  exact (replies_at_most_once no_erasure 0 sample_identity NodeConfig_default (toy_addr 0)
           (empty_dir 0) (true, true) 0 turns (sample_env 0) Hnd).
Defined.

Lemma overdue_lookups_answered_witness :
  let s := asked_St in
  let e := sample_env (millis 1600) in
  waiting (sc_lookups (st_ctx s)) = [7] ∧
  let s' := (on_timer LookupTick e s).2 in
  sc_lookups (st_ctx s') = ∅ ∧ (st_answers s').*1 ≡ₚ (st_answers s).*1 ++ waiting (sc_lookups (st_ctx s)).
Proof.
  intros s e. split; [by vm_compute|].
  assert (Hq : queues_sendable s).
  { assert (sc_pending_wg (st_ctx s) = ∅) as He by (apply (bool_decide_unpack _); vm_compute; exact I).
    unfold queues_sendable. rewrite He. apply map_Forall_empty. }
  assert (Ho : map_Forall (λ _ p, (budget (pl_lookup p) ≤ sat_sub (millis 1600) (started (pl_lookup p)))%Z)
                 (sc_lookups (st_ctx s))) by (apply (bool_decide_unpack _); vm_compute; exact I).
  exact (overdue_lookups_answered e s Hq (λ _ _, reflexivity _) (λ n p Hp _, Ho n p Hp)).
Defined.

Lemma handle_app_terminates_witness :
  let pkt := bstr "?" in
  length pkt ≤ 5 ∧
  handle_app_fuel 5 (toy_addr 1) pkt false (sample_env 0) sample_St = handle_app (toy_addr 1) pkt false (sample_env 0) sample_St ∧
  (malformed pkt → handle_app (toy_addr 1) pkt false (sample_env 0) sample_St = incr MDropsMalformed (sample_env 0) sample_St).
Proof. split; [cbn; lia|]. apply handle_app_terminates. cbn. lia. Defined.

Lemma peers_exchange_witness :
  let ps := [mkPeerInfo (sample_node 2) [toy_addr 5; toy_addr 6] 30 (Some (arr_repeat (z2b 4) 32))] in
  Forall listable ps ∧
  peers_from_proto (peers_to_proto ps) = (λ p, set_rtt p 0) <$> take 16 ps.
Proof.
  intros ps. assert (Hs : Forall listable ps).
  { repeat constructor; try done; apply (bool_decide_unpack _); vm_compute; exact I. }
  split; [exact Hs|]. by apply peers_exchange.
Defined.

(** ** Findings *)

(** A lookup takes any authentic record for its answer: asked for [sample_key], the shard
    hands the caller a record filed under another key, sent from an address it never
    asked, because the response carried the number of the request. *)
Theorem lookup_takes_any_record :
  let r := immutable_record 1000 (bstr "something else") 3600 in
  let reply := datagram (Header_response FindValueResp Coordination 1)
    (proto.mkFindValueResp (Some (proto.ResultRecord (StoredRecord_encode r))) []) in
  let s := (handle_datagram (toy_addr 66) reply (sample_env 0) asked_St).2 in
  st_answers asked_St = [] ∧ st_answers s = [(7, RRecord (Some r))] ∧ key r ≠ sample_key.
Proof. split_and!; [by vm_compute..|]. apply (bool_decide_unpack _). vm_compute. exact I. Qed.

(** The sender of a FIND_NODE response becomes the endpoint of the first peer it lists,
    and that peer is rewarded, although nothing shows that it is that peer. *)
Theorem find_node_resp_claims_first_peer :
  let victim := PeerInfo_new (sample_node 9) (toy_addr 9) in
  let reply := datagram (Header_response FindNodeResp Coordination 1)
    (proto.mkFindNodeResp (peers_to_proto [victim])) in
  let s := (handle_datagram (toy_addr 66) reply (sample_env 0) sample_St).2 in
  (declared <$> sc_endpoints (st_ctx s) !! pi_id victim) = Some (toy_addr 66) ∧
  (pi_addrs ∘ pe_info <$> RoutingTable_get (sc_table (st_ctx s)) (pi_id victim)) = Some [toy_addr 9; toy_addr 66].
Proof. split; by vm_compute. Qed.

(** A relay frame that names another node as its origin makes its sender the relay for
    that node: what is sent to the node's address afterwards goes to the sender. *)
Theorem relay_frame_claims_origin :
  let victim := PeerInfo_new (sample_node 9) (toy_addr 9) in
  let frame := datagram (Header_request Relay Coordination 1)
    (proto.mkRelay (vec_to_list (nid (node_id sample_identity))) (vec_to_list (nid (pi_id victim))) []) in
  let e := sample_env 0 in
  let s := (handle_cmd no_erasure (CmdInjectPeer victim) e sample_St).2 in
  let s := (handle_datagram (toy_addr 66) frame e s).2 in
  let s' := (send_app (toy_addr 9) None (bstr "hello") e s).2 in
  (sc_via_relay (st_ctx s) !! pi_id victim) = Some (toy_addr 66) ∧
  match st_out s' with [OutPlain dest _] => dest = toy_addr 66 | _ => False end.
Proof. split; by vm_compute. Qed.

(** A peer that answers a lookup with providers stays in flight: the handler removes the
    all-zero identifier instead of the peer's, so the peer is later counted as failed. *)
Theorem providers_keep_responder_in_flight (l : Lookup) (ps : list (NodeId * bytes)) (closer : list PeerInfo) :
  zero_node ∉ if_id <$> in_flight l → in_flight (on_providers l zero_node ps closer) = in_flight l.
Proof.
  intros Hz. unfold on_providers, on_closer, drop_flight, set_flight, set_providers.
  cbn [in_flight queried].
  assert (Hf : ∀ fl : list InFlight, zero_node ∉ if_id <$> fl → filter (λ f, if_id f ≠ zero_node) fl = fl).
  { clear Hz. induction fl as [|f fl IH]; [done|]. rewrite fmap_cons. intros [Hn ?]%not_elem_of_cons.
    rewrite filter_cons_True by done. by rewrite IH. }
  by rewrite !(Hf _ Hz).
Qed.

Lemma providers_keep_responder_in_flight_witness :
  let l := note_sent (Lookup_new FindValue sample_key [] PrivacyNone 0) (sample_node 2) 1 0 in
  zero_node ∉ if_id <$> in_flight l ∧ in_flight (on_providers l zero_node [] []) = in_flight l.
Proof.
  intros l. assert (Hz : zero_node ∉ if_id <$> in_flight l)
    by (apply (bool_decide_unpack _); vm_compute; exact I).
  split; [exact Hz|]. by apply providers_keep_responder_in_flight.
Defined.
