(* ===== verification/Reactor.v ===== *)
(** * The reactor of a shard ([src/udp.rs], [wait] and [setup_poller] of
    [src/event_loop.rs], the loop of [run_shard] in [src/shard.rs])

    A shard waits for its socket or its next timer, reads what the socket has into its
    buffers, and takes a turn.  The socket calls and the crate [polling] are parameters; the
    socket itself is the queue of what its [recv_from]s will meet. *)

From S2P Require Import Prelude Bytes Types Proto Codec Routing Crypto Net Peerstore Store Pool Lookup Wg Relay EventLoop Udp Metrics Sybil Erasure ShardState Shard ShardInv ShardThms.

(** ** Binding the socket *)

(** The calls of [bind] into [socket2] and [std::net]. *)
Inductive SysCall :=
  | SocketNew (v4 : bool)
  | SetReuseAddress
  | SetReusePort
  | SetNonblocking
  | BindTo (a : SocketAddr)
  | LocalAddr.

#[export] Instance SysCall_eq_dec : EqDecision SysCall.
Proof. solve_decision. Defined.

(** Calls made so far, and a result or the error of the last. *)
Definition Sys (A : Type) : Type := list SysCall → list SysCall * result A.

#[export] Instance Sys_ret : MRet Sys := λ A a log, (log, Ok a).
#[export] Instance Sys_bind : MBind Sys := λ A B f m log,
  let '(log, r) := m log in
  match r with Ok a => f a log | Err e => (log, Err e) end.

Definition is_ipv4 (a : SocketAddr) : bool := match a with AddrV4 _ _ => true | _ => false end.

(** The socket is the one the calls were made on; [local] is its address. *)
Record UdpIo := mkUdpIo { io_local : SocketAddr }.

Section bind.
Context (os : SysCall → result unit) (os_local : SocketAddr).

Definition sys (c : SysCall) : Sys unit := λ log, (log ++ [c], os c).

(** [UdpIo::bind] on Unix. *)
Definition UdpIo_bind (addr : SocketAddr) : Sys UdpIo :=
  sys (SocketNew (is_ipv4 addr));;
  sys SetReuseAddress;;
  sys SetReusePort;;
  sys SetNonblocking;;
  sys (BindTo addr);;
  sys LocalAddr;;
  mret (mkUdpIo os_local).

(** [UdpIo::send_to]; [sendto] is the socket's. *)
Definition send_to (sendto : bytes → SocketAddr → result nat) (buf : bytes) (dest : SocketAddr) : result nat :=
  sendto buf dest.

Definition bind_calls (addr : SocketAddr) : list SysCall :=
  [SocketNew (is_ipv4 addr); SetReuseAddress; SetReusePort; SetNonblocking; BindTo addr; LocalAddr].

(** Binding makes its calls in order up to the first that fails, and succeeds when none
    does: a socket of the address's family, shared between the shards and non-blocking
    before it is bound. *)
Lemma bind_correct addr :
  let '(log, r) := UdpIo_bind addr [] in
  (r = Ok (mkUdpIo os_local) ∧ log = bind_calls addr ∧ Forall (λ c, os c = Ok tt) log) ∨
  (∃ pre c e, r = Err e ∧ log = pre ++ [c] ∧ log `prefix_of` bind_calls addr ∧
     Forall (λ c, os c = Ok tt) pre ∧ os c = Err e).
Proof.
  set (all := foldr (λ c (m : Sys UdpIo), sys c;; m)).
  assert (Hcalls : ∀ cs k (log : list SysCall),
    (Forall (λ c, os c = Ok tt) cs ∧ all k cs log = k (log ++ cs)) ∨
    (∃ pre c post e, cs = pre ++ c :: post ∧ Forall (λ c, os c = Ok tt) pre ∧ os c = Err e ∧
       all k cs log = (log ++ pre ++ [c], Err e))).
  { induction cs as [|c cs IH]; intros k log; [left; by rewrite app_nil_r|].
    change (all k (c :: cs) log) with
      (match os c with Ok _ => all k cs (log ++ [c]) | Err e => (log ++ [c], Err e) end).
    destruct (os c) as [[]|e] eqn:E.
    - destruct (IH k (log ++ [c])) as [[Hf ->]|(pre & c' & post & e & -> & Hf & He & ->)].
      + left. split; [by constructor|]. by rewrite <-(assoc_L (++)).
      + right. exists (c :: pre), c', post, e. split_and!; [done|by constructor|done|].
        by rewrite <-(assoc_L (++)).
    - right. exists [], c, cs, e. by split_and!. }
  destruct (Hcalls (bind_calls addr) (mret (mkUdpIo os_local)) [])
    as [[Hf Heq]|(pre & c & post & e & Heq' & Hf & He & Heq)];
    change (UdpIo_bind addr []) with (all (mret (mkUdpIo os_local)) (bind_calls addr) []); rewrite Heq.
  - left. by split_and!.
  - right. exists pre, c, e. split_and!; try done.
    exists post. rewrite Heq'. cbn [app]. by rewrite <-(assoc_L (++)).
Qed.
End bind.

(** ** The crate [polling] *)

Record PollEvent := mkPollEvent { ev_key : nat; ev_readable : bool }.

(** [wait] is told whether the socket has something to read by the time it returns, and how
    long it may take. *)
Class PollerOps := {
  Poller : Type;
  Poller_new : result Poller;
  poller_add : Poller → nat → Poller * result unit;
  poller_modify : Poller → nat → Poller * result unit;
  poller_wait : Poller → bool → option Z → Poller * result (list PollEvent);
}.

(** What its documentation promises.  Interest in a source is oneshot: it is set when the
    source is added and by [modify], and may be gone once an event is delivered.  A source is
    reported only while interest in it is set.  Nothing says when: [wait] may return with no
    event, also of a source that is readable. *)
Class PollerLaws `{PollerOps} := {
  registered : Poller → nat → Prop;
  interested : Poller → nat → Prop;
  add_law p k p' : poller_add p k = (p', Ok tt) → registered p' k ∧ interested p' k;
  modify_law p k : registered p k →
    ∃ p', poller_modify p k = (p', Ok tt) ∧ registered p' k ∧ interested p' k;
  wait_registered p k b t : registered p k → registered (poller_wait p b t).1 k;
  wait_interested p b t p' evs ev : poller_wait p b t = (p', Ok evs) → ev ∈ evs →
    interested p (ev_key ev);
}.

Section reactor.
Context `{PollerOps} `{TunnOps} `{KeyedHash} `{Protobuf} `{Crc32}.
Context (rs_encode : list bytes → result (list bytes)).

Definition register_socket (p : Poller) (key : nat) : Poller * result unit := poller_add p key.

Definition reregister_readable (p : Poller) (key : nat) : Poller * result unit := poller_modify p key.

Definition wait (p : Poller) (pending : bool) (timeout : option Z) : Poller * result bool :=
  let '(p, r) := poller_wait p pending timeout in
  match r with
  | Err e => (p, Err e)
  | Ok events =>
      let readable := existsb (λ e, (ev_key e =? 0) && ev_readable e) events in
      ((reregister_readable p 0).1, Ok readable)
  end.

Definition setup_poller : result Poller :=
  match Poller_new with
  | Err e => Err e
  | Ok p => let '(p, r) := register_socket p 0 in match r with Err e => Err e | Ok _ => Ok p end
  end.

(** ** The loop *)

(** The poller, the receive buffers, what the socket has, and the queue of commands. *)
Record Reactor := mkReactor {
  re_poller : Poller;
  re_bufs : list bytes;
  re_socket : list Recv;
  re_queue : list ShardCmd;
}.

(** What happens in a turn: the clock when the wait begins, what the socket gets until it
    ends, and the commands that are sent until they are drained. *)
Record TurnInput := mkTurnInput { ti_now : Z; ti_arrived : list Recv; ti_cmds : list ShardCmd }.

(** [timers.next_timeout(Instant::now()).or(Some(50 ms))] *)
Definition wait_timeout (c : ShardCtx) (now : Z) : option Z :=
  match next_timeout (sc_timers c) now with Some t => Some t | None => Some (millis 50) end.

Definition is_nil {A} (l : list A) : bool := match l with [] => true | _ => false end.

(** The result is [running], or the error of the wait. *)
Definition reactor_turn (ti : TurnInput) (e : Env) (r : Reactor) (s : St) : Reactor * St * result bool :=
  let socket := re_socket r ++ ti_arrived ti in
  let queue := re_queue r ++ ti_cmds ti in
  let '(p, w) := wait (re_poller r) (negb (is_nil socket)) (wait_timeout (st_ctx s) (ti_now ti)) in
  match w with
  | Err x => (mkReactor p (re_bufs r) socket queue, s, Err x)
  | Ok readable =>
      let '(bufs, socket, batch) :=
        if readable : bool then read_batch (re_bufs r) socket else (re_bufs r, socket, []) in
      let '((running, queue), s) := shard_turn rs_encode batch queue e s in
      (mkReactor p bufs socket queue, s, Ok running)
  end.

(** Whether the wait of a turn reports the socket. *)
Definition turn_reports (ti : TurnInput) (r : Reactor) (s : St) : bool :=
  match wait (re_poller r) (negb (is_nil (re_socket r ++ ti_arrived ti))) (wait_timeout (st_ctx s) (ti_now ti)) with
  | (_, Ok readable) => readable
  | (_, Err _) => false
  end.

Fixpoint reactor_loop (tis : list TurnInput) (e : Env) (r : Reactor) (s : St) : Reactor * St * result bool :=
  match tis with
  | [] => (r, s, Ok true)
  | ti :: tis =>
      let '(r, s, out) := reactor_turn ti e r s in
      match out with
      | Ok true => reactor_loop tis e r s
      | _ => (r, s, out)
      end
  end.

(** How many of the turns of the loop report the socket. *)
Fixpoint reporting_turns (tis : list TurnInput) (e : Env) (r : Reactor) (s : St) : nat :=
  match tis with
  | [] => 0
  | ti :: tis =>
      Nat.b2n (turn_reports ti r s) +
      (let '(r, s, out) := reactor_turn ti e r s in
       match out with Ok true => reporting_turns tis e r s | _ => 0 end)
  end.

(** What follows the loop. *)
Definition shard_finish : M unit :=
  for_ (seq 0 32) (λ _, pool_recycle (zeroed BUFFER_SIZE));; flush_wals.

Definition Reactor_new (p : Poller) : Reactor := mkReactor p (replicate 32 (replicate BUFFER_SIZE (z2b 0))) [] [].

(** [run_shard]: an error of the poller ends it at once. *)
Definition run_shard_io (tis : list TurnInput) (e : Env) (s : St) : St * result unit :=
  match setup_poller with
  | Err x => (s, Err x)
  | Ok p =>
      let s := (shard_start e s).2 in
      let '(_, s, out) := reactor_loop tis e (Reactor_new p) s in
      match out with
      | Err x => (s, Err x)
      | Ok _ => ((shard_finish e s).2, Ok tt)
      end
  end.

(** ** The reactor runs the loop of the shard *)

(** Whatever the poller and the socket do, a turn is one of [shard_turn] on some batch. *)
Lemma reactor_turn_refines ti e r s r' s' go :
  reactor_turn ti e r s = (r', s', Ok go) →
  ∃ batch, shard_turn rs_encode batch (re_queue r ++ ti_cmds ti) e s = ((go, re_queue r'), s').
Proof.
  unfold reactor_turn. destruct (wait _ _ _) as [p [readable|x]]; [|done].
  destruct (if readable then _ else _) as [[bufs socket] batch]. intros Ht. exists batch.
  destruct (shard_turn _ _ _ _ _) as [[running queue] s2]. by simplify_eq/=.
Qed.

Lemma reactor_loop_refines tis e r s :
  let '(_, s', _) := reactor_loop tis e r s in
  ∃ batches, length batches ≤ length tis ∧
    s' = (shard_loop rs_encode (zip batches (ti_cmds <$> tis)) (re_queue r) e s).2.
Proof.
  revert r s. induction tis as [|ti tis IH]; intros r s; [by exists []|]. cbn [reactor_loop].
  destruct (reactor_turn ti e r s) as [[r1 s1] [go|x]] eqn:E.
  - apply reactor_turn_refines in E as [batch Ht]. destruct go.
    + specialize (IH r1 s1). destruct (reactor_loop tis e r1 s1) as [[r2 s2] out].
      destruct IH as (batches & Hlen & ->). exists (batch :: batches). split; [cbn; lia|].
      cbn [fmap list_fmap zip zip_with shard_loop]. unfold mbind at 1, M_bind at 1. by rewrite Ht.
    + exists [batch]. split; [cbn; lia|].
      cbn [fmap list_fmap zip zip_with shard_loop]. unfold mbind at 1, M_bind at 1. by rewrite Ht.
  - exists []. split; [cbn; lia|]. cbn. unfold reactor_turn in E.
    destruct (wait _ _ _) as [p [readable|x']]; [|by simplify_eq].
    destruct (if readable then _ else _) as [[bufs socket] batch].
    destruct (shard_turn _ _ _ _ _) as [[running queue] s2]. done.
Qed.

Lemma run_shard_eq turns e s :
  run_shard rs_encode turns e s =
  shard_finish e (shard_loop rs_encode turns [] e (shard_start e s).2).2.
Proof.
  unfold run_shard, shard_finish. generalize (for_ (seq 0 32) (λ _, pool_recycle (zeroed BUFFER_SIZE))). intros fin.
  rewrite (bind_run shard_start), (bind_run (shard_loop _ _ _)).
  reflexivity.
Qed.

(** A thread that ends without an error of the poller has run [run_shard]. *)
Lemma run_shard_io_refines tis e s s' :
  run_shard_io tis e s = (s', Ok tt) →
  ∃ batches, length batches ≤ length tis ∧
    s' = (run_shard rs_encode (zip batches (ti_cmds <$> tis)) e s).2.
Proof.
  unfold run_shard_io. destruct setup_poller as [p|x]; [|done].
  pose proof (reactor_loop_refines tis e (Reactor_new p) (shard_start e s).2) as Hl.
  destruct (reactor_loop _ _ _ _) as [[r1 s1] [go|x]]; [|done]. destruct Hl as (batches & Hlen & ->).
  intros [<- _]%pair_eq. exists batches. split; [exact Hlen|]. rewrite run_shard_eq. exact eq_refl.
Qed.

(** ** Every datagram is handled *)

Definition is_datagram (x : Recv) : Prop := match x with Received _ _ => True | _ => False end.

(** What the socket's datagrams are handed over as. *)
Definition pending (l : list Recv) : list (SocketAddr * bytes) :=
  omap (λ x, match x with Received data src => Some (src, take MAX_DATAGRAM data) | _ => None end) l.

Lemma pending_arrives ds : pending (arrives <$> ds) = (λ d, (d.2, take MAX_DATAGRAM d.1)) <$> ds.
Proof. unfold pending. induction ds as [|d ds IH]; [done|]. cbn in *. by rewrite IH. Qed.

Lemma all_datagrams l : Forall is_datagram l → ∃ ds, l = arrives <$> ds.
Proof.
  induction 1 as [|[data src| |] l Hx _ [ds ->]]; [by exists []| |done|done]. by exists ((data, src) :: ds).
Qed.

Lemma arrives_datagrams ds : Forall is_datagram (arrives <$> ds).
Proof. apply Forall_fmap, Forall_true. by intros []. Qed.

Lemma pending_length l : Forall is_datagram l → length (pending l) = length l.
Proof. intros [ds ->]%all_datagrams. by rewrite pending_arrives, !length_fmap. Qed.

Lemma read_batch_delivers bufs l :
  Forall small bufs → length bufs ≤ BATCH → Forall is_datagram l →
  let '(bufs', rest, batch) := read_batch bufs l in
  Forall small bufs' ∧ length bufs' = length bufs ∧ Forall is_datagram rest ∧
  batch ++ pending rest = pending l ∧ length batch = Nat.min (length bufs) (length l).
Proof.
  intros Hs Hb [ds ->]%all_datagrams. rewrite length_fmap. set (n := length bufs) in *.
  assert (arrives <$> ds = (arrives <$> take n ds) ++ (arrives <$> drop n ds)) as Hsplit
    by (by rewrite <-fmap_app, take_drop).
  pose proof (read_batch_correct bufs (take n ds) (arrives <$> drop n ds) Hs) as Hr.
  rewrite <-Hsplit in Hr. destruct (read_batch _ _) as [[bufs' rest] batch].
  fold n in Hr. rewrite length_take, (Nat.min_r BATCH n) in Hr by exact Hb.
  destruct Hr as (Hs' & Hl & Hfull & Hpart & _); [lia| |].
  { destruct (Nat.le_gt_cases n (length ds)); [left; lia|right].
    intros d. by rewrite drop_ge by lia. }
  assert (rest = arrives <$> drop n ds ∧ batch = (λ d, (d.2, take MAX_DATAGRAM d.1)) <$> take n ds) as [-> ->].
  { destruct (Nat.le_gt_cases n (length ds)).
    - apply Hfull. lia.
    - rewrite drop_ge in * by lia. destruct Hpart as [-> ->]; [lia|by left|done]. }
  split_and!; [done|done|apply arrives_datagrams| |].
  - by rewrite !pending_arrives, <-fmap_app, take_drop.
  - by rewrite length_fmap, length_take.
Qed.

Context `{!PollerLaws}.

(** The reactor between two turns: interest in the socket is set. *)
Record ready (r : Reactor) : Prop := {
  rd_registered : registered (re_poller r) 0;
  rd_interested : interested (re_poller r) 0;
  rd_small : Forall small (re_bufs r);
  rd_bufs : length (re_bufs r) = 32;
}.

Lemma setup_poller_ready p : setup_poller = Ok p → ready (Reactor_new p).
Proof.
  unfold setup_poller. destruct Poller_new as [p0|]; [|done]. unfold register_socket.
  destruct (poller_add p0 0) as [p1 [[]|]] eqn:E; [|done]. intros [= ->]. apply add_law in E as [? ?].
  split; [done|done| |apply length_replicate].
  apply Forall_replicate. unfold small. rewrite length_replicate. by apply Nat.leb_le.
Qed.

(** A wait that works sets the interest again, whether or not it reported something. *)
Lemma wait_ready p b t p' readable :
  registered p 0 → wait p b t = (p', Ok readable) → registered p' 0 ∧ interested p' 0.
Proof.
  intros Hr. unfold wait. pose proof (wait_registered p 0 b t Hr) as Hr1.
  destruct (poller_wait p b t) as [p1 [evs|x]] eqn:E; [|done]. cbn [fst] in Hr1.
  destruct (modify_law p1 0 Hr1) as (p2 & Hm & Hr2 & Hi2). unfold reregister_readable. rewrite Hm.
  by intros [= <- <-].
Qed.

(** Without interest the socket is not reported: setting it again is what keeps the shard
    reading. *)
Lemma wait_uninterested p b t p' : ¬ interested p 0 → wait p b t ≠ (p', Ok true).
Proof.
  intros Hi. unfold wait. destruct (poller_wait p b t) as [p1 [evs|x]] eqn:E; [|done].
  intros [= _ [ev [Hev%list_elem_of_In [Hk%Nat.eqb_eq _]%andb_prop]]%existsb_exists].
  apply Hi. rewrite <-Hk. exact (wait_interested _ _ _ _ _ _ E Hev).
Qed.

Lemma reactor_turn_delivers ti e r s r' s' go :
  ready r → Forall is_datagram (re_socket r ++ ti_arrived ti) →
  reactor_turn ti e r s = (r', s', Ok go) →
  ∃ batch, shard_turn rs_encode batch (re_queue r ++ ti_cmds ti) e s = ((go, re_queue r'), s') ∧
    batch ++ pending (re_socket r') = pending (re_socket r ++ ti_arrived ti) ∧
    length batch = Nat.min (32 * Nat.b2n (turn_reports ti r s)) (length (re_socket r ++ ti_arrived ti)) ∧
    ready r' ∧ Forall is_datagram (re_socket r').
Proof.
  intros [Hr Hi Hs Hb] Hd. unfold reactor_turn, turn_reports. set (socket := re_socket r ++ ti_arrived ti) in *.
  destruct (wait _ _ _) as [p [readable|x]] eqn:Ew; [|done].
  destruct (wait_ready _ _ _ _ _ Hr Ew) as (Hr' & Hi').
  pose proof (read_batch_delivers (re_bufs r) socket Hs) as Hrb.
  destruct (read_batch (re_bufs r) socket) as [[bufs' rest] batch].
  destruct Hrb as (Hs' & Hl' & Hd' & Hp & Hlen); [rewrite Hb; by apply Nat.leb_le|done|].
  rewrite Hb in Hl', Hlen.
  destruct readable.
  - destruct (shard_turn rs_encode batch _ e s) as [[running queue] s2] eqn:Et.
    intros [[[= <-] ->]%pair_eq [= ->]]%pair_eq.
    exists batch. split_and!; [by rewrite Et|done|done|by split|done].
  - destruct (shard_turn rs_encode [] _ e s) as [[running queue] s2] eqn:Et.
    intros [[[= <-] ->]%pair_eq [= ->]]%pair_eq.
    exists []. split_and!; [by rewrite Et|done|done|by split|done].
Qed.

(** C15: every datagram the socket gets is handled, once and in order.  As long as the poller
    and the socket work and nobody stops the shard, each turn of the reactor whose wait
    reports the socket is a turn of [shard_loop] on the next thirty-two datagrams, or on all
    that are there, and each other turn is one on no datagram: the batches followed by what
    is left in the socket are exactly what was in the socket and what came in, with its
    senders, each cut to 2048 bytes; what was in the socket at the beginning has been handed
    over after one reporting turn for every thirty-two datagrams, however much came in since;
    and after every turn the interest in the socket is set again, without which the poller
    never reports it.  How often it does is the poller's: a wait may return with nothing. *)
Theorem reactor_delivers (tis : list TurnInput) (e : Env) (r r' : Reactor) (s s' : St) :
  ready r → Forall is_datagram (re_socket r ++ concat (ti_arrived <$> tis)) →
  reactor_loop tis e r s = (r', s', Ok true) →
  ∃ batches, length batches = length tis ∧
    s' = (shard_loop rs_encode (zip batches (ti_cmds <$> tis)) (re_queue r) e s).2 ∧
    Forall (λ b, length b ≤ 32) batches ∧
    concat batches ++ pending (re_socket r') = pending (re_socket r ++ concat (ti_arrived <$> tis)) ∧
    (length (re_socket r) ≤ 32 * reporting_turns tis e r s →
       pending (re_socket r) `prefix_of` concat batches) ∧
    registered (re_poller r') 0 ∧ interested (re_poller r') 0.
Proof.
  intros Hr Hd Hrun.
  assert (∃ batches, length batches = length tis ∧
    s' = (shard_loop rs_encode (zip batches (ti_cmds <$> tis)) (re_queue r) e s).2 ∧
    Forall (λ b, length b ≤ 32) batches ∧
    concat batches ++ pending (re_socket r') = pending (re_socket r ++ concat (ti_arrived <$> tis)) ∧
    Nat.min (32 * reporting_turns tis e r s) (length (re_socket r)) ≤ length (concat batches) ∧ ready r')
    as (batches & Hl & Hs & Hb & Hp & Hn & Hr').
  { revert r s Hr Hd Hrun. induction tis as [|ti tis IH]; intros r s Hr Hd Hrun.
    { exists []. cbn in Hrun. injection Hrun as <- ->. by rewrite app_nil_r. }
    cbn [reactor_loop reporting_turns fmap list_fmap concat length] in *. rewrite (assoc_L (++)) in Hd |- *.
    destruct (reactor_turn ti e r s) as [[r1 s1] [[]|x]] eqn:E; [|done..].
    apply Forall_app in Hd as [Hd1 Hd2].
    destruct (reactor_turn_delivers _ _ _ _ _ _ _ Hr Hd1 E) as (batch & Ht & Hp & Hlen & Hr1 & Hd1').
    destruct (IH r1 s1) as (batches & Hl & -> & Hb & Hps & Hn & Hr'); [done|by apply Forall_app|done|].
    assert (Nat.b2n (turn_reports ti r s) ≤ 1) by (by destruct (turn_reports ti r s); cbn; lia).
    exists (batch :: batches). cbn [zip zip_with shard_loop concat length]. split_and!.
    - by rewrite Hl.
    - rewrite (bind_run (shard_turn _ _ _)). by rewrite Ht.
    - constructor; [lia|done].
    - rewrite <-(assoc_L (++)), Hps. unfold pending in *. by rewrite !omap_app, (assoc_L (++)), Hp, omap_app.
    - apply (f_equal length) in Hp. rewrite length_app, !pending_length in Hp by done.
      rewrite length_app in *. lia.
    - done. }
  exists batches. destruct Hr' as [Hreg Hint _ _]. split_and!; try done. intros Hle.
  assert (length (pending (re_socket r)) = length (re_socket r)) as Hlen.
  { apply Forall_app in Hd as [Hd _]. by apply pending_length. }
  destruct (prefix_weak_total (pending (re_socket r)) (concat batches)
              (pending (re_socket r ++ concat (ti_arrived <$> tis)))) as [|Hpre]; [|by eexists| |].
  - unfold pending. rewrite omap_app. by eexists.
  - done.
  - assert (concat batches = pending (re_socket r)) as ->; [|done].
    apply prefix_length_eq; [done|]. lia.
Qed.
End reactor.

(** ** A oneshot poller of one source *)

(** The key of the source, and whether interest in it is set.  A wait of no time returns at
    once with nothing. *)
Definition toy_poller : PollerOps := {|
  Poller := option nat * bool;
  Poller_new := Ok (None, false);
  poller_add _ k := ((Some k, true), Ok tt);
  poller_modify p k := if bool_decide (p.1 = None) then (p, Err "not found") else ((Some k, true), Ok tt);
  poller_wait p pending t :=
    match p with
    | (Some k, true) => if pending && negb (bool_decide (t = Some 0%Z)) then ((Some k, false), Ok [mkPollEvent k true]) else (p, Ok [])
    | _ => (p, Ok [])
    end;
|}.

#[local] Existing Instance toy_poller.

Definition toy_poller_laws : PollerLaws.
Proof.
  refine {| registered p k := p.1 = Some k; interested p k := p = (Some k, true) |}.
  - by intros p k p' [= <-].
  - intros [[k'|] b] k; [|done]. intros [= ->]. by eexists.
  - intros [[k'|] []] k [] t; cbn; try done; by destruct (bool_decide _).
  - intros [[k|] []] b t p' evs ev; cbn; [|by intros [= <- <-] ?%elem_of_nil..].
    destruct (b && negb _); intros [= <- <-]; [|by intros ?%elem_of_nil].
    by intros ->%list_elem_of_singleton.
Defined.

#[local] Existing Instance toy_poller_laws.
#[local] Existing Instance toy_crypto.
#[local] Existing Instance toy_tunn.
#[local] Existing Instance toy_keyed.
#[local] Existing Instance crc_ieee_inst.
#[local] Existing Instance wire_protobuf.

(** Two datagrams in the socket, one that comes during the first wait, two turns. *)
Lemma reactor_delivers_witness :
  let r := mkReactor (Some 0, true) (replicate 32 []) [Received (bstr "a") (toy_addr 1); Received (bstr "b") (toy_addr 2)] [] in
  let tis := [mkTurnInput 0 [Received (bstr "c") (toy_addr 3)] []; mkTurnInput 0 [] []] in
  let e := sample_env 0 in
  let run := reactor_loop no_erasure tis e r sample_St in
  let '(r', s', out) := run in
  out = Ok true ∧
  ∃ batches, length batches = length tis ∧
    s' = (shard_loop no_erasure (zip batches (ti_cmds <$> tis)) (re_queue r) e sample_St).2 ∧
    Forall (λ b, length b ≤ 32) batches ∧
    concat batches ++ pending (re_socket r') = pending (re_socket r ++ concat (ti_arrived <$> tis)) ∧
    (length (re_socket r) ≤ 32 * reporting_turns no_erasure tis e r sample_St →
       pending (re_socket r) `prefix_of` concat batches) ∧
    registered (re_poller r') 0 ∧ interested (re_poller r') 0.
Proof.
  intros r tis e run. assert (run.2 = Ok true) as Hout by (vm_compute; reflexivity).
  destruct run as [[r' s'] out] eqn:E. cbn [snd] in Hout. subst out. split; [reflexivity|].
  apply (reactor_delivers no_erasure tis e r r' sample_St s').
  - split; [reflexivity|reflexivity| |reflexivity].
    apply Forall_replicate. unfold small. cbn [length]. lia.
  - repeat constructor.
  - exact E.
Defined.
