(* ===== verification/ShardReplies.v ===== *)
(** * What a shard answers

    The replies on every channel are of the kind the command that opened it expects: an
    invariant of the answers sent and of the channels that wait with a lookup. *)

From S2P Require Import Prelude Bytes Types Proto Codec Routing Crypto Net Peerstore Store Pool Lookup Wg Relay EventLoop Metrics Sybil Erasure ShardState Shard ShardInv ShardThms.

Section replies.
Context `{TunnOps} `{KeyedHash} `{Protobuf} `{Crc32}.

(** Every answer is what the command of its channel expects, and only commands that look
    something up wait with a lookup. *)
Record typed_by (cmds : list ShardCmd) (s : St) : Prop := {
  ty_answers : ∀ tx r, (tx, r) ∈ st_answers s →
    ∃ cmd, cmd ∈ cmds ∧ cmd_sender cmd = Some tx ∧ reply_ok cmd r;
  ty_waiting : ∀ n p tx, sc_lookups (st_ctx s) !! n = Some p → pl_reply p = Some tx →
    ∃ cmd, cmd ∈ cmds ∧ cmd_sender cmd = Some tx ∧ looks_up cmd;
}.

Lemma typed_by_mono cmds cmds' s : cmds ⊆ cmds' → typed_by cmds s → typed_by cmds' s.
Proof.
  intros Hsub [Ha Hw]. split.
  - intros tx r Hr. destruct (Ha tx r Hr) as (cmd & Hin & ? & ?). exists cmd. auto.
  - intros n p tx Hn Hp. destruct (Hw n p tx Hn Hp) as (cmd & Hin & ? & ?). exists cmd. auto.
Qed.

Lemma typed_by_frame cmds s s' :
  sc_lookups (st_ctx s') = sc_lookups (st_ctx s) → st_answers s' = st_answers s →
  typed_by cmds s → typed_by cmds s'.
Proof. intros Hl Ha []. split; by rewrite ?Hl, ?Ha. Qed.

Lemma low_steps_typed cmds s s' : rtc low_step s s' → typed_by cmds s → typed_by cmds s'.
Proof. intros [Hl Ha]%low_steps_frame. by apply typed_by_frame. Qed.

Lemma with_answer_typed cmds s cmd tx r :
  cmd ∈ cmds → cmd_sender cmd = Some tx → reply_ok cmd r →
  typed_by cmds s → typed_by cmds (with_answer s tx r).
Proof.
  intros Hin Hc Hr [Ha Hw]. split; [|exact Hw]. intros tx' r'. cbn.
  rewrite elem_of_app, list_elem_of_singleton. intros [Hold|[= -> ->]]; [by apply Ha|by exists cmd].
Qed.

Lemma insert_lookup_typed cmds s n p :
  (∀ tx, pl_reply p = Some tx → ∃ cmd, cmd ∈ cmds ∧ cmd_sender cmd = Some tx ∧ looks_up cmd) →
  typed_by cmds s → typed_by cmds (with_lookups s (<[n := p]>)).
Proof.
  intros Hp [Ha Hw]. split; [exact Ha|]. intros n' p' tx. cbn.
  intros [[<- <-]|[_ Hn]]%lookup_insert_Some; [apply Hp|by apply (Hw n')].
Qed.

Lemma delete_lookup_typed cmds s n : typed_by cmds s → typed_by cmds (with_lookups s (delete n)).
Proof.
  intros [Ha Hw]. split; [exact Ha|]. intros n' p' tx. cbn.
  intros [_ Hn]%lookup_delete_Some. by apply (Hw n').
Qed.

Lemma shard_step_typed i m cmds s s' :
  shard_step s s' → safe i m s → typed_by cmds s → typed_by cmds s'.
Proof.
  destruct 1 as [s' Hs|n p l Hn Hu|n p l s' Hn Hs Hl|n p l s' Hn Hs Hl Hd]; intros Hsafe Ht.
  - eapply low_steps_typed; [by apply rtc_once|done].
  - apply insert_lookup_typed; [|done]. intros tx. by apply (ty_waiting cmds s Ht n p).
  - apply insert_lookup_typed; [intros tx; by apply (ty_waiting cmds s Ht n p)|].
    eapply low_steps_typed; [exact Hs|by apply delete_lookup_typed].
  - assert (typed_by cmds s') as Ht'
      by (eapply low_steps_typed; [exact Hs|by apply delete_lookup_typed]).
    destruct (pl_reply p) as [tx|] eqn:Hp; [|done].
    destruct (ty_waiting cmds s Ht n p tx Hn Hp) as (cmd & Hin & Hc & Hlk).
    eapply with_answer_typed; [done..| |done]. apply Hlk, asks_reply.
    eapply asks_sent; [exact Hl|]. by destruct (si_lookups i m _ (sf_inv i m s Hsafe) n p Hn).
Qed.

Lemma shard_steps_typed i m cmds s s' :
  rtc shard_step s s' → safe i m s → typed_by cmds s → typed_by cmds s'.
Proof.
  induction 1 as [|x y z Hxy _ IH]; intros Hs Ht; [done|].
  apply IH; [by eapply shard_step_safe|by eapply shard_step_typed].
Qed.

Lemma settled_typed i m cmds s cmd s' :
  settled s cmd s' → cmd ∈ cmds → safe i m s → typed_by cmds s → typed_by cmds s'.
Proof.
  destruct 1 as [s' _ Hs|tx s' r Hc Hs Hr|tx s' n l Hc Hlk Hs _ _]; intros Hin Hsafe Ht;
    pose proof (low_steps_typed cmds _ _ Hs Ht) as Ht'.
  - done.
  - eapply with_answer_typed; [done..| |done]. apply Hr.
    apply (si_store i m), (sf_inv i m). by eapply low_steps_safe.
  - apply insert_lookup_typed; [|done]. intros tx' [= <-]. by exists cmd.
Qed.

Lemma served_typed i m old cmds s s' :
  served cmds s s' → safe i m s → typed_by old s → typed_by (old ++ cmds) s'.
Proof.
  intros Hs. revert old. induction Hs as [s|cmds s s1 s2 Hs _ IH|cmd cmds s s1 s2 Hs _ IH];
    intros old Hsafe Ht.
  - by rewrite app_nil_r.
  - apply IH; [by eapply shard_steps_safe|by eapply shard_steps_typed].
  - change (cmd :: cmds) with ([cmd] ++ cmds). rewrite (assoc_L (++)). apply IH.
    + by eapply settled_safe.
    + eapply settled_typed; [done|set_solver|done|]. eapply typed_by_mono; [|done]. set_solver.
Qed.

Lemma St_new_typed n identity cfg local d opens unix :
  typed_by [] (St_new n identity cfg local d opens unix).
Proof.
  pose proof (channels_new n identity cfg local d opens unix) as Hc.
  unfold channels in Hc. apply app_nil in Hc as [Ha Hw]. split.
  - intros tx r Hr. apply fmap_nil_inv in Ha. rewrite Ha in Hr. by apply not_elem_of_nil in Hr.
  - intros k p tx Hk Hp. exfalso. apply (not_elem_of_nil tx). rewrite <-Hw.
    apply list_elem_of_omap. exists (k, p). split; [by apply elem_of_map_to_list|done].
Qed.

(** C18: replies are typed.  Whatever a shard receives, every reply it sends on a channel is
    one that the command which brought the channel expects ([reply_ok]): a put is answered
    with the hash of its value or ["store failed"], a put of a named record with the record's
    key or ["mutable rejected"], an announcement with [ROk], a lookup with an authentic
    record, a list of providers or nothing; and only commands that look something up wait
    with a lookup.  In particular no caller of put or announce ever sees a reply of another
    kind. *)
Theorem replies_typed (rs_encode : list bytes → result (list bytes)) (n : Z) (identity : Identity)
    (cfg : NodeConfig) (local : SocketAddr) (d : Dir) (opens : bool * bool) (unix : Z)
    (turns : list (list (SocketAddr * bytes) * list ShardCmd)) (e : Env) :
  typed_by (commands turns) (run_shard rs_encode turns e (St_new n identity cfg local d opens unix)).2.
Proof.
  pose proof (St_new_safe n identity cfg local d opens unix) as Hs.
  destruct (run_shard_serves rs_encode turns e _ (sf_queues _ _ _ Hs)) as (cmds & Hr & Hsub & _).
  eapply typed_by_mono; [|by apply (served_typed identity n [] cmds _ _ Hr Hs), St_new_typed].
  cbn [app]. intros cmd Hin. by eapply elem_of_submseteq.
Qed.
End replies.
