(* ===== verification/ShardStore.v ===== *)
(** * What the shard's own work leaves in its store

    Sending, timers and lookups do not touch the records of a shard, except that collection
    drops the expired ones: a record that was put stays until its time is up or the network
    replaces it. *)

From S2P Require Import Prelude Bytes Types Proto Codec Routing Crypto Net Peerstore Store Pool Lookup Wg Relay EventLoop Metrics Sybil Erasure ShardState Shard ShardInv ShardThms.

Section keeps.
Context `{TunnOps}.

(** [m] leaves [f] of the context as it is. *)
Definition keeps {X A} (f : ShardCtx → X) (m : M A) : Prop :=
  ∀ e s, f (st_ctx (m e s).2) = f (st_ctx s).

(** The parts of the context that sending does not touch. *)
Class Unsent {X} (f : ShardCtx → X) : Prop := {
  un_metrics x c : f (set_metrics x c) = f c;
  un_pool x c : f (set_pool x c) = f c;
  un_relay x c : f (set_relay x c) = f c;
  un_wg x c : f (set_wg x c) = f c;
  un_corr x c : f (set_next_corr x c) = f c;
  un_pending x c : f (set_pending_wg x c) = f c;
}.

(** The parts that timers and lookups do not touch either, but for collection and the
    flushing of the logs. *)
Class Untimed {X} (f : ShardCtx → X) : Prop := {
  un_timers x c : f (set_timers x c) = f c;
  un_lookups x c : f (set_lookups x c) = f c;
  un_table x c : f (set_table x c) = f c;
  un_sybil x c : f (set_sybil x c) = f c;
  un_punches x c : f (set_punches x c) = f c;
  un_via_relay x c : f (set_via_relay x c) = f c;
}.

Context {X : Type} (f : ShardCtx → X).

Lemma keeps_ret {A} (a : A) : keeps f (mret a).
Proof. done. Qed.

Lemma keeps_seq {A B} (m : M A) (k : A → M B) : keeps f m → (∀ a, keeps f (k a)) → keeps f (mbind k m).
Proof.
  intros Hm Hk e s. unfold mbind, M_bind. rewrite <-(Hm e s). destruct (m e s) as [a s']. apply Hk.
Qed.

Lemma keeps_gets {A} (g : ShardCtx → A) : keeps f (gets g).
Proof. done. Qed.

Lemma keeps_read {A} (g : Env → nat → A) : keeps f (read g).
Proof. done. Qed.

Lemma keeps_modify g : (∀ c, f (g c) = f c) → keeps f (modify g).
Proof. intros Hg e s. apply Hg. Qed.

Lemma keeps_out o : keeps f (write_out o).
Proof. done. Qed.

Lemma keeps_answer tx r : keeps f (answer tx r).
Proof. done. Qed.

Lemma keeps_when b m : keeps f m → keeps f (when_ b m).
Proof. by destruct b. Qed.

Lemma keeps_for {A} (l : list A) k : (∀ a, keeps f (k a)) → keeps f (for_ l k).
Proof. intros Hk. induction l; cbn [for_]; [apply keeps_ret|by apply keeps_seq]. Qed.

Lemma keeps_fold {A B} (k : B → A → M B) l b : (∀ b a, keeps f (k b a)) → keeps f (fold_ k l b).
Proof.
  intros Hk. revert b. induction l; intros b; cbn [fold_]; [apply keeps_ret|by apply keeps_seq].
Qed.
End keeps.

Create HintDb keeps discriminated.
#[local] Hint Constants Opaque : keeps.

(** Follow the structure of a handler; what it calls is among the hints. *)
Ltac keep :=
  cbn beta iota zeta;
  lazymatch goal with
  | |- keeps _ (mret _) => apply keeps_ret
  | |- keeps _ (mbind _ _) => first [solve [auto 1 with nocore]|apply keeps_seq; [keep|intros ?; keep]]
  | |- keeps _ (gets _) => apply keeps_gets
  | |- keeps _ (read _) => apply keeps_read
  | |- keeps _ (modify _) =>
      apply keeps_modify; intros ?;
      first [reflexivity|apply un_metrics|apply un_pool|apply un_relay|apply un_wg|apply un_corr|apply un_pending
            |apply un_timers|apply un_lookups|apply un_table|apply un_sybil|apply un_punches|apply un_via_relay]
  | |- keeps _ (write_out _) => apply keeps_out
  | |- keeps _ (answer _ _) => apply keeps_answer
  | |- keeps _ (when_ _ _) => apply keeps_when; keep
  | |- keeps _ (for_ _ _) => apply keeps_for; intros ?; keep
  | |- keeps _ (fold_ _ _ _) => apply keeps_fold; intros ? ?; keep
  | |- keeps _ (match ?x with _ => _ end) => destruct x; keep
  | |- _ => try solve [eauto 6 with keeps]
  end.

(** ** Sending *)

Section sending.
Context `{TunnOps} `{KeyedHash} `{Protobuf} `{Crc32} {X : Type} (f : ShardCtx → X) `{!Unsent f}.

Lemma incr_keeps k : keeps f (incr k).
Proof. unfold incr. keep. Qed.

Lemma add_metric_keeps k n : keeps f (add_metric k n).
Proof. unfold add_metric. keep. Qed.

Lemma pool_take_keeps : keeps f pool_take.
Proof. unfold pool_take. keep. Qed.

Lemma pool_recycle_keeps b : keeps f (pool_recycle b).
Proof. unfold pool_recycle. keep. Qed.

Lemma send_raw_keeps d p : keeps f (send_raw d p).
Proof. unfold send_raw. keep. Qed.

Lemma now_instant_keeps : keeps f now_instant.
Proof. unfold now_instant. keep. Qed.

Lemma now_unix_keeps : keeps f now_unix.
Proof. unfold now_unix. keep. Qed.

Lemma now_unix_ms_keeps : keeps f now_unix_ms.
Proof. unfold now_unix_ms. keep. Qed.

Lemma queue_pending_keeps d l : keeps f (queue_pending d l).
Proof. unfold queue_pending. keep. Qed.

Lemma next_corr_keeps : keeps f next_corr.
Proof. unfold next_corr. keep. Qed.

Lemma wg_encapsulate_to_keeps d x i o : keeps f (wg_encapsulate_to d x i o).
Proof. unfold wg_encapsulate_to. keep. Qed.

Lemma relay_egress_keeps n : keeps f (relay_egress n).
Proof. unfold relay_egress. keep. Qed.

Hint Resolve incr_keeps add_metric_keeps pool_take_keeps pool_recycle_keeps
  send_raw_keeps now_instant_keeps now_unix_keeps now_unix_ms_keeps queue_pending_keeps
  next_corr_keeps wg_encapsulate_to_keeps relay_egress_keeps : keeps.

Lemma encoded_keeps {T A} `{Message T} h (m : T) (d : A) k :
  (∀ app, keeps f (k app)) → keeps f (encoded h m d k).
Proof. intros Hk. unfold encoded. keep. Qed.

Lemma send_plain_keeps d app : keeps f (send_plain d app).
Proof. unfold send_plain. keep. Qed.

Hint Resolve encoded_keeps send_plain_keeps : keeps.

Lemma send_relay_frame_keeps hop d app : keeps f (send_relay_frame hop d app).
Proof. unfold send_relay_frame. keep. apply encoded_keeps. intros. keep. Qed.

Lemma send_wg_keeps d x app : keeps f (send_wg d x app).
Proof. unfold send_wg. keep. Qed.

Hint Resolve send_relay_frame_keeps send_wg_keeps : keeps.

Lemma send_app_keeps d x app : keeps f (send_app d x app).
Proof. unfold send_app. keep. Qed.

Hint Resolve send_app_keeps : keeps.

Lemma ping_keeps d : keeps f (ping d).
Proof. unfold ping. keep. Qed.

Lemma send_store_rpc_keeps rec : keeps f (send_store_rpc rec).
Proof. unfold send_store_rpc. keep. Qed.

Hint Resolve send_store_rpc_keeps : keeps.

Lemma replicate_store_keeps v k t : keeps f (replicate_store v k t).
Proof. unfold replicate_store. keep. Qed.
End sending.

#[local] Hint Resolve incr_keeps add_metric_keeps pool_take_keeps pool_recycle_keeps
  send_raw_keeps now_instant_keeps now_unix_keeps now_unix_ms_keeps queue_pending_keeps
  next_corr_keeps wg_encapsulate_to_keeps relay_egress_keeps encoded_keeps send_plain_keeps
  send_relay_frame_keeps send_wg_keeps send_app_keeps ping_keeps send_store_rpc_keeps
  replicate_store_keeps : keeps.

(** ** Timers and lookups *)

Section timing.
Context `{TunnOps} `{KeyedHash} `{Protobuf} `{Crc32} {X : Type} (f : ShardCtx → X).

Context `{!Unsent f} `{!Untimed f}.

Lemma schedule_timer_keeps t k : keeps f (schedule_timer t k).
Proof. unfold schedule_timer. keep. Qed.

Hint Resolve schedule_timer_keeps : keeps.

Lemma burst_punch_keeps i : keeps f (burst_punch i).
Proof. unfold burst_punch. keep. Qed.

Hint Resolve burst_punch_keeps : keeps.

Lemma punch_turn_keeps now again i : keeps f (punch_turn now again i).
Proof. unfold punch_turn. keep. Qed.

Hint Resolve punch_turn_keeps : keeps.

Lemma on_punch_timer_keeps now : keeps f (on_punch_timer now).
Proof. unfold on_punch_timer. keep. Qed.

Lemma send_probe_keeps p d k : keeps f (send_probe p d k).
Proof. unfold send_probe. keep. Qed.

Hint Resolve on_punch_timer_keeps send_probe_keeps : keeps.

Lemma dispatch_one_keeps l p : keeps f (dispatch_one l p).
Proof.
  unfold dispatch_one. apply keeps_seq; [apply (next_corr_keeps f)|]. intros corr.
  destruct (primary_addr p) as [dest|]; [|apply keeps_ret].
  assert (∀ app, keeps f (send_app dest (pi_x25519 p) app;;
            now ← now_instant; mret (note_sent l (pi_id p) corr now))) by (intros; keep).
  keep.
Qed.

Hint Resolve dispatch_one_keeps : keeps.

Lemma dispatch_lookup_batch_keeps l : keeps f (dispatch_lookup_batch l).
Proof. unfold dispatch_lookup_batch. keep. Qed.

Lemma finish_lookup_keeps kd l tx : keeps f (finish_lookup kd l tx).
Proof. unfold finish_lookup. keep. Qed.

Lemma insert_lookup_keeps n p : keeps f (insert_lookup n p).
Proof. unfold insert_lookup. keep. Qed.

Hint Resolve dispatch_lookup_batch_keeps finish_lookup_keeps insert_lookup_keeps : keeps.

Lemma sweep_one_keeps n : keeps f (sweep_one n).
Proof. unfold sweep_one. keep. Qed.

Hint Resolve sweep_one_keeps : keeps.

Lemma sweep_lookups_keeps : keeps f sweep_lookups.
Proof. unfold sweep_lookups. keep. Qed.

Lemma timeout_one_keeps now timed n : keeps f (timeout_one now timed n).
Proof. unfold timeout_one. keep. Qed.

Lemma fail_peer_keeps i : keeps f (fail_peer i).
Proof. unfold fail_peer. keep. Qed.

Lemma tick_sessions_all_keeps : keeps f tick_sessions_all.
Proof. unfold tick_sessions_all. keep. Qed.

Hint Resolve sweep_lookups_keeps timeout_one_keeps fail_peer_keeps tick_sessions_all_keeps : keeps.
End timing.

#[local] Hint Resolve schedule_timer_keeps on_punch_timer_keeps sweep_lookups_keeps timeout_one_keeps
  fail_peer_keeps tick_sessions_all_keeps : keeps.

(** ** What the timers preserve *)

Lemma bind_assoc `{TunnOps} {A B C} (m : M A) (f : A → M B) (g : B → M C) e s :
  ((m ≫= f) ≫= g) e s = (m ≫= (λ a, f a ≫= g)) e s.
Proof. unfold mbind, M_bind. by destruct (m e s). Qed.

(** What follows the commands of a turn. *)
Definition turn_timers `{TunnOps} `{KeyedHash} `{Protobuf} `{Crc32} : M unit :=
  now ← now_instant;
  due ← gets (λ c, (pop_due (sc_timers c) now).2);
  modify (λ c, set_timers (pop_due (sc_timers c) now).1 c);;
  for_ due on_timer.

(** The collection of the [Gc] timer. *)
Definition collect `{TunnOps} : M unit :=
  unix ← now_unix;
  modify (λ c, set_store (gc (sc_store c) unix) c).

(** A property [P] of a part [f] of the context that flushing the logs and collection keep,
    in environments that satisfy [C], all timers keep. *)
Section preserving.
Context `{TunnOps} `{KeyedHash} `{Protobuf} `{Crc32}.
Context {X : Type} (f : ShardCtx → X) `{!Unsent f} `{!Untimed f} (C : Env → Prop) (P : X → Prop).

Definition preserves {A} (m : M A) : Prop :=
  ∀ e s, C e → P (f (st_ctx s)) → P (f (st_ctx (m e s).2)).

Lemma preserves_of {A} (m : M A) : keeps f m → preserves m.
Proof. intros Hm e s _. by rewrite (Hm e s). Qed.

Lemma preserves_bind {A B} (m : M A) (k : A → M B) :
  preserves m → (∀ a, preserves (k a)) → preserves (mbind k m).
Proof.
  intros Hm Hk e s Hc Hs. unfold mbind, M_bind. pose proof (Hm e s Hc Hs) as Hs'.
  destruct (m e s) as [a s']. by apply Hk.
Qed.

Lemma preserves_for {A} (l : list A) k : (∀ a, preserves (k a)) → preserves (for_ l k).
Proof.
  intros Hk. induction l; cbn [for_]; [apply preserves_of, (keeps_ret f)|by apply preserves_bind].
Qed.

Context (Hflush : preserves flush_wals) (Hgc : preserves collect).

Lemma on_timer_preserves kd : preserves (on_timer kd).
Proof.
  unfold on_timer. apply preserves_bind; [apply preserves_of; keep|]. intros now. destruct kd.
  - apply preserves_of. keep.
  - apply preserves_bind; [exact Hflush|intros _; apply preserves_of; keep].
  - intros e s Hc Hs. rewrite <-(bind_assoc now_unix).
    apply preserves_bind; [exact Hgc|intros _; apply preserves_of; keep|done|done].
  - apply preserves_of. keep.
  - apply preserves_of. keep.
Qed.

Lemma turn_timers_preserves : preserves turn_timers.
Proof.
  unfold turn_timers. repeat (apply preserves_bind; [apply preserves_of; keep|intros ?]).
  apply preserves_for, on_timer_preserves.
Qed.
End preserving.

#[export] Instance store_Unsent `{TunnOps} : Unsent sc_store.
Proof. by split. Qed.

#[export] Instance store_Untimed `{TunnOps} : Untimed sc_store.
Proof. by split. Qed.

#[local] Hint Resolve store_Unsent store_Untimed : keeps.

Section frame.
Context `{TunnOps} `{KeyedHash} `{Protobuf} `{Crc32}.

(** ** A record that stays *)

(** The store holds record [r] under [k], and its time is not up at [t]. *)
Definition holds (k : Key) (r : StoredRecord) (t : Z) (s : Store) : Prop :=
  records s !! k = Some r ∧ expired r t = false.

Lemma gc_holds k r t now s : (now ≤ t)%Z → holds k r t s → holds k r t (gc s now).
Proof.
  intros Hn [Hr He]. split; [|done]. cbn. rewrite filter_expired_lookup, Hr.
  destruct (expired r now) eqn:E; [|done]. apply (expired_mono r now t Hn) in E. congruence.
Qed.

Definition clock_until (t : Z) (e : Env) : Prop := ∀ n, (env_unix e n ≤ t)%Z.

Lemma holds_gc k r t e s :
  clock_until t e → holds k r t (sc_store (st_ctx s)) →
  holds k r t (sc_store (st_ctx (collect e s).2)).
Proof. intros Hc Hs. by apply (gc_holds k r t (env_unix e (st_tick s))). Qed.

(** ** A turn without datagrams *)

Lemma turn_timers_held k r t e s :
  clock_until t e → holds k r t (sc_store (st_ctx s)) →
  holds k r t (sc_store (st_ctx (turn_timers e s).2)).
Proof.
  apply (turn_timers_preserves sc_store (clock_until t) (holds k r t)).
  - intros e' s' _ Hs. exact Hs.
  - intros e' s'. apply holds_gc.
Qed.

Context (rs_encode : list bytes → result (list bytes)).

Lemma quiet_turn_eq queue e s :
  shard_turn rs_encode [] queue e s =
  let '(running, s1) := run_cmds rs_encode (take DRAIN_BATCH queue) e s in
  ((running, drop DRAIN_BATCH queue), (turn_timers e s1).2).
Proof.
  unfold shard_turn. rewrite drain_cmds_correct. cbn [for_]. unfold mbind, M_bind, mret, M_ret.
  destruct (run_cmds _ _ e s) as [running s1]. unfold turn_timers, mbind, M_bind.
  destruct (now_instant e s1) as [now s2]. cbn -[on_timer pop_due].
  by destruct (for_ _ on_timer e _) as [[] s3].
Qed.

Lemma quiet_turn_held k r t e s :
  clock_until t e → holds k r t (sc_store (st_ctx s)) →
  holds k r t (sc_store (st_ctx (shard_turn rs_encode [] [] e s).2)).
Proof. intros Hc Hs. rewrite quiet_turn_eq. cbn [take run_cmds]. by apply turn_timers_held. Qed.

(** The answers of a turn come after the earlier ones. *)
Lemma low_steps_answers s s' : rtc low_step s s' → st_answers s' = st_answers s.
Proof. by intros [_ ?]%low_steps_frame. Qed.

Lemma shard_step_answers s s' : shard_step s s' → st_answers s `prefix_of` st_answers s'.
Proof.
  destruct 1 as [s' Hs|n p l Hn Hu|n p l s' Hn Hs Hl|n p l s' Hn Hs Hl Hd].
  - apply low_step_frame in Hs as [_ ->]. done.
  - done.
  - apply low_steps_answers in Hs. cbn in *. by rewrite Hs.
  - apply low_steps_answers in Hs. destruct (pl_reply p); cbn in *; rewrite Hs; [by eexists|done].
Qed.

Lemma shard_steps_answers s s' : rtc shard_step s s' → st_answers s `prefix_of` st_answers s'.
Proof. induction 1 as [|x y z Hxy _ IH]; [done|]. etrans; [by apply shard_step_answers|done]. Qed.

Lemma turn_timers_ok : runs shard_step turn_timers (λ _, True).
Proof.
  unfold turn_timers. apply runs_seq; [exact _|apply now_instant_ok; exact _|intros now].
  apply runs_seq; [exact _|by apply runs_gets|intros due].
  apply runs_seq; [exact _|apply runs_modify; [exact _|intros c; apply cs_timers]|intros _].
  apply runs_for_all; [exact _|apply on_timer_ok].
Qed.

Lemma turn_timers_answers e s :
  queues_sendable s → st_answers s `prefix_of` st_answers (turn_timers e s).2.
Proof. intros Hq. apply shard_steps_answers. by destruct (turn_timers_ok e s Hq). Qed.

(** ** Commands that end with their answer *)

Lemma answer_last (m : M unit) tx r e s :
  runs low_step m (λ _, True) → keeps sc_store m → queues_sendable s →
  let s' := ((m;; answer tx r) e s).2 in
  st_answers s' = st_answers s ++ [(tx, r)] ∧ sc_store (st_ctx s') = sc_store (st_ctx s).
Proof.
  intros Hm Hk Hq s'. subst s'. specialize (Hk e s). destruct (Hm e s Hq) as [Hr _].
  apply low_steps_answers in Hr. unfold mbind, M_bind. destruct (m e s) as [[] s1]. cbn in *.
  by rewrite Hr.
Qed.

(** The state after the store part of a put: one reading of the clock, and [rec] stored. *)
Definition stored_at (rec : StoredRecord) (e : Env) (s : St) : St :=
  (modify (set_store (insert_record (queue_record (sc_store (st_ctx s)) rec) rec)) e (now_unix e s).2).2.

(** A put of a value that is not too large. *)
Lemma put_eq v ttl tx e s :
  (Z.of_nat (length v) ≤ 64 * Z.of_nat PMTU_FLOOR)%Z →
  handle_cmd rs_encode (CmdPut v ttl tx) e s =
  ((incr MStoreOk;; replicate_store v (hash_value v) ttl);; answer tx (RKey (hash_value v))) e
    (stored_at (immutable_record (env_unix e (st_tick s)) v ttl) e s).
Proof.
  intros Hlen. set (s1 := (now_unix e s).2). set (now := env_unix e (st_tick s)).
  set (rec := immutable_record now v ttl).
  assert (Hput : put_immutable_ttl (sc_store (st_ctx s)) now v ttl =
    (insert_record (queue_record (sc_store (st_ctx s)) rec) rec, Ok (hash_value v))).
  { unfold put_immutable_ttl. rewrite (proj2 (Z.ltb_ge _ _)) by lia. done. }
  cbn [handle_cmd]. unfold should_erasure.
  rewrite (proj2 (Z.leb_gt _ _)) by (unfold THRESHOLD; unfold PMTU_FLOOR in Hlen; lia).
  cbn [andb]. rewrite bind_assoc. unfold put_value. unfold mbind at 1, M_bind at 1.
  change (now_unix e s) with (now, s1). cbn beta iota.
  unfold gets, mbind at 1, M_bind at 1. cbn beta iota.
  change (sc_store (st_ctx s1)) with (sc_store (st_ctx s)). rewrite Hput.
  unfold modify at 1, mbind at 1, M_bind at 1. cbn beta iota.
  change (sc_store (st_ctx s1)) with (sc_store (st_ctx s)). rewrite Hput. done.
Qed.

(** A record that is held is found. *)
Lemma get_held k tx rec t e s :
  queues_sendable s → kind rec ≠ KIND_TOMBSTONE → clock_until t e →
  holds k rec t (sc_store (st_ctx s)) →
  let s' := (handle_cmd rs_encode (CmdGet k tx) e s).2 in
  st_answers s' = st_answers s ++ [(tx, RRecord (Some rec))] ∧ sc_store (st_ctx s') = sc_store (st_ctx s).
Proof.
  intros Hq Hkind Hc [Hrec Hexp]. set (s1 := (incr MLookups e s).2).
  set (s2 := (now_unix e s1).2). set (now := env_unix e (st_tick s1)).
  assert (Hfound : Store_get (sc_store (st_ctx s2)) now k = Some rec).
  { unfold Store_get. change (records (sc_store (st_ctx s2))) with (records (sc_store (st_ctx s))).
    rewrite Hrec. apply Z.eqb_neq in Hkind. rewrite Hkind.
    destruct (expired rec now) eqn:E; [|done]. exfalso.
    apply (expired_mono rec now t) in E; [congruence|]. apply Hc. }
  assert (handle_cmd rs_encode (CmdGet k tx) e s =
          (incr MLookupOk;; answer tx (RRecord (Some rec))) e s2) as ->.
  { cbn [handle_cmd]. unfold mbind at 1, M_bind at 1. cbn beta iota.
    change (incr MLookups e s) with (tt, s1). cbn beta iota.
    unfold mbind at 1, M_bind at 1. change (now_unix e s1) with (now, s2). cbn beta iota.
    unfold gets, mbind at 1, M_bind at 1. cbn beta iota. by rewrite Hfound. }
  destruct (answer_last (incr MLookupOk) tx (RRecord (Some rec)) e s2) as [Hr Hst].
  - apply incr_ok, low_Steps.
  - apply (incr_keeps sc_store).
  - exact Hq.
  - split; [exact Hr|exact Hst].
Qed.
End frame.
