(* ===== verification/ShardFiles.v ===== *)
(** * What the handlers do to the files of a shard

    The files of a shard are its store, the batch of its peer store and its directory.  A
    property of them that the few operations on files keep ([FilesUse]) is kept by every
    handler, whatever comes in, as long as the records it brings ([brings], [cmd_brings])
    are such that a put of them keeps it. *)

From S2P Require Import Prelude Bytes Types Proto Codec Routing Crypto Net Peerstore Store Pool Lookup Wg Relay EventLoop Metrics Sybil Erasure ShardState Shard ShardInv ShardThms ShardReplies ShardStore.

(** ** The files *)

Abbreviation Files := (Store * Peerstore * Dir)%type.

Section files.
Context `{Crypto} `{!Message proto.Record_} `{Crc32}.

Definition flush_files (x : Files) : Files :=
  let '(s, ps, d) := x in
  let '(s, ps) := flush_wal s ps in
  let '(ps, d, _) := Peerstore_flush ps d in
  (s, ps, d).

Definition gc_files (now : Z) (x : Files) : Files := (gc x.1.1 now, x.1.2, x.2).
End files.

Section shard.
Context `{TunnOps} `{KeyedHash} `{Protobuf} `{Crc32}.

Definition files (c : ShardCtx) : Files := (sc_store c, sc_peers c, sc_disk c).

#[export] Instance files_Unsent : Unsent files.
Proof. by split. Qed.

#[export] Instance files_Untimed : Untimed files.
Proof. by split. Qed.

Lemma flush_wals_files e s : files (st_ctx (flush_wals e s).2) = flush_files (files (st_ctx s)).
Proof.
  unfold flush_wals, modify, mbind, M_bind, files, flush_files. cbn -[flush_wal Peerstore_flush].
  destruct (flush_wal _ _) as [st ps]. cbn -[Peerstore_flush]. by destruct (Peerstore_flush _ _) as [[? ?] ?].
Qed.

(** ** The records that come in *)

(** A reading of the clock of an environment that satisfies [C]. *)
Definition reads (C : Env → Prop) (now : Z) : Prop := ∃ e n, C e ∧ now = env_unix e n.

Section brings.
Context (C : Env → Prop).

(** A datagram in the clear brings a record in a STORE request, alone or in relay frames;
    it is stamped with the time of its arrival. *)
Inductive brings : bytes → StoredRecord → Prop :=
  | brings_store pkt h req pr now rec :
      Header_decode pkt = Some h → h_ty h = StoreReq → decode_body proto.StoreReq pkt = Some req →
      decode_msg (T := proto.Record_) (proto.sq_record req) = Some pr → reads C now →
      record_from_proto now pr = Some rec → brings pkt rec
  | brings_relay pkt h r rec :
      Header_decode pkt = Some h → h_ty h = Relay → decode_body proto.Relay pkt = Some r →
      brings (proto.relay_payload r) rec → brings pkt rec.

Definition cmd_brings (cmd : ShardCmd) (rec : StoredRecord) : Prop :=
  match cmd with
  | CmdPut v ttl _ => ∃ now, reads C now ∧ rec = immutable_record now v ttl
  | CmdPutMutable r _ => rec = r
  | _ => False
  end.
End brings.

(** ** Properties of the files *)

(** The operations keep [P] in environments that satisfy [C]; a put of a record does when
    the record satisfies [G]. *)
Class FilesUse (C : Env → Prop) (P : Files → Prop) (G : StoredRecord → Prop) : Prop := {
  fu_upsert s ps d i : P (s, ps, d) → P (s, Peerstore_upsert ps i, d);
  fu_announce s ps d now k i m : P (s, ps, d) → P (announce_provider s now k i m, ps, d);
  fu_cache s ps d now rec : P (s, ps, d) → P (cache_hit s now rec, ps, d);
  fu_put s ps d rec probe : G rec → P (s, ps, d) → P ((put_record s rec probe).1, ps, d);
  fu_put_immutable s ps d now v ttl :
    G (immutable_record now v ttl) → P (s, ps, d) → P ((put_immutable_ttl s now v ttl).1, ps, d);
  fu_flush x : P x → P (flush_files x);
  fu_gc e n x : C e → P x → P (gc_files (env_unix e n) x);
}.

Context (C : Env → Prop) (P : Files → Prop) (G : StoredRecord → Prop) `{!FilesUse C P G}.

Definition stays {A} (m : M A) : Prop := preserves files C P m.

Lemma stays_of {A} (m : M A) : keeps files m → stays m.
Proof. apply (preserves_of files C P). Qed.

Lemma stays_bind {A B} (m : M A) (f : A → M B) :
  stays m → (∀ a, stays (f a)) → stays (mbind f m).
Proof. apply preserves_bind. Qed.

Lemma stays_unix {A} (f : Z → M A) : (∀ now, reads C now → stays (f now)) → stays (mbind f now_unix).
Proof.
  intros Hf e s Hc Hs. rewrite bind_run. assert (reads C (env_unix e (st_tick s))) as Hn by by exists e, (st_tick s).
  by apply (Hf _ Hn).
Qed.

Lemma stays_ret {A} (a : A) : stays (mret a).
Proof. apply stays_of, keeps_ret. Qed.

Lemma stays_modify g : (∀ c, P (files c) → P (files (g c))) → stays (modify g).
Proof. intros Hg e s _. apply Hg. Qed.

Lemma stays_when b m : stays m → stays (when_ b m).
Proof. destruct b; [done|intros _; apply stays_ret]. Qed.

Lemma stays_for {A} (l : list A) f : (∀ a, stays (f a)) → stays (for_ l f).
Proof. apply preserves_for. Qed.

Create HintDb stays discriminated.
#[local] Hint Constants Opaque : stays.
#[local] Hint Resolve incr_keeps add_metric_keeps pool_take_keeps pool_recycle_keeps
  send_raw_keeps now_instant_keeps now_unix_keeps now_unix_ms_keeps queue_pending_keeps
  next_corr_keeps wg_encapsulate_to_keeps relay_egress_keeps encoded_keeps send_plain_keeps
  send_relay_frame_keeps send_wg_keeps send_app_keeps ping_keeps send_store_rpc_keeps
  replicate_store_keeps schedule_timer_keeps burst_punch_keeps on_punch_timer_keeps sweep_lookups_keeps
  timeout_one_keeps fail_peer_keeps tick_sessions_all_keeps files_Unsent files_Untimed
  dispatch_lookup_batch_keeps finish_lookup_keeps insert_lookup_keeps
  keeps_gets keeps_read keeps_out keeps_answer : stays.
#[local] Hint Extern 5 (stays _) => (apply stays_of; solve [eauto 3 with stays nocore]) : stays.

(** Follow the structure of a handler. *)
Ltac stay :=
  cbn beta iota zeta;
  lazymatch goal with
  | |- stays (mret _) => apply stays_ret
  | |- stays (mbind _ _) => apply stays_bind; [stay|intros ?; stay]
  | |- stays (modify _) => first [apply stays_of, keeps_modify; reflexivity|solve [eauto 4 with stays]|idtac]
  | |- stays (when_ _ _) => apply stays_when; stay
  | |- stays (for_ _ _) => apply stays_for; intros ?; stay
  | |- stays (match ?x with _ => _ end) => destruct x; stay
  | |- _ => try solve [eauto 4 with stays]
  end.

Lemma table_insert_stays p : stays (table_insert p).
Proof. unfold table_insert. stay. Qed.

Lemma pre_handshake_stays src : stays (pre_handshake src).
Proof. unfold pre_handshake. stay. Qed.

Lemma peers_upsert_stays p : stays (peers_upsert p).
Proof. apply stays_modify. intros c. apply fu_upsert. Qed.

Lemma wg_add_peer_stays x i ep : stays (wg_add_peer x i ep).
Proof. unfold wg_add_peer. stay. Qed.

Lemma wg_decapsulate_stays src d sc : stays (wg_decapsulate src d sc).
Proof. unfold wg_decapsulate. stay. Qed.

Lemma relay_forward_stays n c : stays (relay_forward n c).
Proof. unfold relay_forward. stay. Qed.

Lemma flush_wals_stays : stays flush_wals.
Proof. intros e s _. rewrite flush_wals_files. apply fu_flush. Qed.

Hint Resolve table_insert_stays pre_handshake_stays peers_upsert_stays wg_add_peer_stays wg_decapsulate_stays
  relay_forward_stays flush_wals_stays : stays.

Lemma note_peer_keys_stays src x ed sg : stays (note_peer_keys src x ed sg).
Proof. unfold note_peer_keys. stay. Qed.

Lemma learn_addr_stays src i : stays (learn_addr src i).
Proof. unfold learn_addr. stay. Qed.

Lemma send_punch_msg_stays hop t c : stays (send_punch_msg hop t c).
Proof. unfold send_punch_msg. stay. Qed.

Lemma reply_peers_stays d c ps : stays (reply_peers d c ps).
Proof. unfold reply_peers. stay. Qed.

Lemma send_error_stays d c k r : stays (send_error d c k r).
Proof. unfold send_error. stay. Qed.

Lemma announce_rpc_stays k m : stays (announce_rpc k m).
Proof. unfold announce_rpc. stay. Qed.

Lemma pass_on_stays {T} `{Message T} ty q (m : T) n : stays (pass_on ty q m n).
Proof. unfold pass_on. stay. apply stays_of, (encoded_keeps files). intros app. apply keeps_seq; [|intros _]; eauto with stays. Qed.

Lemma respond_stays {T} `{Message T} ty q src h (m : T) : stays (respond ty q src h m).
Proof. unfold respond. stay. Qed.

Hint Resolve note_peer_keys_stays learn_addr_stays send_punch_msg_stays reply_peers_stays send_error_stays
  announce_rpc_stays pass_on_stays respond_stays : stays.

Lemma start_punch_stays p rdv : stays (start_punch p rdv).
Proof. unfold start_punch. stay. Qed.

Lemma accept_punch_stays src f c : stays (accept_punch src f c).
Proof. unfold accept_punch. stay. Qed.

Hint Resolve start_punch_stays accept_punch_stays : stays.

Lemma on_ping_stays src h pkt : stays (on_ping src h pkt).
Proof. unfold on_ping. stay. Qed.

Lemma on_pong_stays src pkt : stays (on_pong src pkt).
Proof. unfold on_pong. stay. Qed.

Lemma on_negotiate_stays src h : stays (on_negotiate src h).
Proof. unfold on_negotiate. stay. Qed.

Lemma on_find_node_stays src h pkt : stays (on_find_node src h pkt).
Proof. unfold on_find_node. stay. Qed.

Lemma on_find_value_stays src h pkt : stays (on_find_value src h pkt).
Proof. unfold on_find_value. stay. Qed.

Lemma on_punch_stays src pkt : stays (on_punch src pkt).
Proof. unfold on_punch. stay. Qed.

Lemma update_lookup_stays corr f : stays (update_lookup corr f).
Proof. unfold update_lookup, find_lookup_mut. stay. Qed.

Hint Resolve update_lookup_stays on_ping_stays on_pong_stays on_negotiate_stays on_find_node_stays
  on_find_value_stays on_punch_stays : stays.

Lemma complete_closer_stays corr src ps : stays (complete_closer corr src ps).
Proof. unfold complete_closer. stay. Qed.

Hint Resolve complete_closer_stays : stays.

Lemma on_find_node_resp_stays src h pkt : stays (on_find_node_resp src h pkt).
Proof. unfold on_find_node_resp. stay. Qed.

(** *** The handlers that change the store *)

Lemma cache_hit_stays now rec : stays (modify (λ c, set_store (cache_hit (sc_store c) now rec) c)).
Proof. apply stays_modify. intros c. apply fu_cache. Qed.

Lemma announce_provider_stays now k i m :
  stays (modify (λ c, set_store (announce_provider (sc_store c) now k (i c) m) c)).
Proof. apply stays_modify. intros c. apply fu_announce. Qed.

Lemma put_record_stays rec probe : G rec → stays (modify (λ c, set_store (put_record (sc_store c) rec probe).1 c)).
Proof. intros Hg. apply stays_modify. intros c. by apply fu_put. Qed.

Lemma put_immutable_stays now v ttl :
  G (immutable_record now v ttl) → stays (modify (λ c, set_store (put_immutable_ttl (sc_store c) now v ttl).1 c)).
Proof. intros Hg. apply stays_modify. intros c. by apply fu_put_immutable. Qed.

Lemma collect_stays : stays collect.
Proof. intros e s Hc Hs. exact (fu_gc e (st_tick s) (files (st_ctx s)) Hc Hs). Qed.

Hint Resolve cache_hit_stays announce_provider_stays collect_stays put_record_stays put_immutable_stays
  on_find_node_resp_stays : stays.

Lemma accept_record_stays h b : stays (accept_record h b).
Proof. unfold accept_record. stay. Qed.

Lemma store_request_stays h req :
  (∀ pr now rec, decode_msg (T := proto.Record_) (proto.sq_record req) = Some pr → reads C now →
     record_from_proto now pr = Some rec → G rec) →
  stays (store_request h req).
Proof.
  intros Hg. unfold store_request. destruct (decode_msg (proto.sq_record req)) as [pr|] eqn:Ed; [|stay].
  apply stays_unix. intros now Hn. destruct (record_from_proto now pr) as [rec|] eqn:Er; [|stay].
  pose proof (Hg pr now rec eq_refl Hn Er). stay.
Qed.

Lemma announce_self_stays k m : stays (announce_self k m).
Proof. unfold announce_self. apply stays_bind; [stay|intros now]. apply (announce_provider_stays now k self_node). Qed.

Hint Resolve accept_record_stays announce_self_stays : stays.

Lemma on_find_value_resp_stays src h pkt : stays (on_find_value_resp src h pkt).
Proof. unfold on_find_value_resp. stay. Qed.

Lemma on_announce_stays src h pkt : stays (on_announce src h pkt).
Proof. unfold on_announce. stay. Qed.

Hint Resolve on_find_value_resp_stays on_announce_stays : stays.

Lemma on_store_stays src h h' pkt :
  Header_decode pkt = Some h' → h_ty h' = StoreReq → (∀ rec, brings C pkt rec → G rec) → stays (on_store src h pkt).
Proof.
  intros Hd Hty Hg. unfold on_store. destruct (decode_body proto.StoreReq pkt) as [req|] eqn:Eb; [|stay].
  assert (stays (store_request h req)).
  { apply store_request_stays. intros pr now rec Hpr Hn Hr. apply Hg. by eapply brings_store. }
  stay.
Qed.

Lemma on_relay_stays inner src pkt :
  (∀ r, decode_body proto.Relay pkt = Some r → stays (inner (proto.relay_payload r))) →
  stays (on_relay inner src pkt).
Proof.
  intros Hi. unfold on_relay. destruct (decode_body proto.Relay pkt) as [r|] eqn:Er; [|stay].
  specialize (Hi r eq_refl). stay.
Qed.

Lemma handle_app_fuel_stays fuel src pkt au :
  (∀ rec, brings C pkt rec → G rec) → stays (handle_app_fuel fuel src pkt au).
Proof.
  revert pkt au. induction fuel as [|fuel IH]; intros pkt au Hg; cbn [handle_app_fuel];
    (destruct (Header_decode pkt) as [h|] eqn:Ed; [|stay]); destruct (h_ty h) eqn:Et; try stay;
    try (by eapply on_store_stays).
  apply on_relay_stays. intros r Hr. apply IH. intros rec Hb. apply Hg. by eapply brings_relay.
Qed.

Lemma handle_app_stays src pkt au : (∀ rec, brings C pkt rec → G rec) → stays (handle_app src pkt au).
Proof. apply handle_app_fuel_stays. Qed.

(** A datagram that is not WireGuard's. *)
Lemma handle_clear_stays src pkt :
  looks_like_wg pkt = false → (∀ rec, brings C pkt rec → G rec) → stays (handle_datagram src pkt).
Proof. intros Hw Hg. unfold handle_datagram. rewrite Hw. by apply handle_app_stays. Qed.

(** *** Commands and timers *)

Context (rs_encode : list bytes → result (list bytes)).

Lemma put_value_stays v ttl tx : (∀ now, reads C now → G (immutable_record now v ttl)) → stays (put_value v ttl tx).
Proof. intros Hg. unfold put_value. apply stays_unix. intros now Hn. specialize (Hg now Hn). stay. Qed.

Lemma start_lookup_stays kd t tx : stays (start_lookup kd t tx).
Proof. unfold start_lookup. stay. Qed.

Hint Resolve start_lookup_stays : stays.

Lemma handle_cmd_stays cmd : (∀ rec, cmd_brings C cmd rec → G rec) → stays (handle_cmd rs_encode cmd).
Proof.
  destruct cmd as [l|v ttl tx|k tx|rec tx|k m tx|k tx|i|]; cbn [cmd_brings handle_cmd]; intros Hg;
    [stay| |stay|specialize (Hg rec eq_refl); stay|stay..].
  assert (stays (put_value v ttl tx)) by (apply put_value_stays; eauto). stay.
Qed.

Lemma on_timer_stays kd : stays (on_timer kd).
Proof. apply (on_timer_preserves files); [apply flush_wals_stays|apply collect_stays]. Qed.

Lemma turn_timers_stays : stays turn_timers.
Proof. apply (turn_timers_preserves files); [apply flush_wals_stays|apply collect_stays]. Qed.

Lemma receive_clear_stays d :
  looks_like_wg d.2 = false → (∀ rec, brings C d.2 rec → G rec) → stays (receive d).
Proof. intros Hw Hg. unfold receive. pose proof (handle_clear_stays d.1 d.2 Hw Hg). stay. Qed.

(** ** Whole histories, when any record will do *)

Section histories.
Context (Hall : ∀ pkt rec, brings C pkt rec → G rec).

Lemma handle_any_stays src pkt au : stays (handle_app src pkt au).
Proof. apply handle_app_stays, Hall. Qed.

Hint Resolve handle_any_stays : stays.

Lemma drain_wg_loop_stays turns src : stays (drain_wg_loop turns src).
Proof. induction turns; cbn [drain_wg_loop]; stay. Qed.

Lemma flush_queue_stays dest x queue : stays (flush_queue dest x queue).
Proof. induction queue; cbn [flush_queue]; stay. Qed.

Hint Resolve drain_wg_loop_stays flush_queue_stays : stays.

Lemma drain_wg_session_stays src : stays (drain_wg_session src).
Proof. unfold drain_wg_session. stay. Qed.

Lemma flush_pending_wg_stays dest : stays (flush_pending_wg dest).
Proof. unfold flush_pending_wg. stay. Qed.

Hint Resolve drain_wg_session_stays flush_pending_wg_stays : stays.

Lemma handle_datagram_stays src pkt : stays (handle_datagram src pkt).
Proof. unfold handle_datagram. stay. Qed.

(** Only records that satisfy [G] are put. *)
Definition cmd_fine (cmd : ShardCmd) : Prop := ∀ rec, cmd_brings C cmd rec → G rec.

Lemma run_cmds_stays cmds : Forall cmd_fine cmds → stays (run_cmds rs_encode cmds).
Proof.
  induction 1 as [|cmd cmds Hw _ IH]; cbn [run_cmds]; [stay|]. pose proof (handle_cmd_stays cmd Hw).
  destruct cmd; stay.
Qed.

Lemma receive_stays d : stays (receive d).
Proof. unfold receive. pose proof handle_datagram_stays. stay. Qed.

Lemma shard_turn_stays batch queue :
  Forall cmd_fine queue → stays (shard_turn rs_encode batch queue).
Proof.
  intros Hq. pose proof receive_stays. pose proof on_timer_stays. unfold shard_turn. rewrite drain_cmds_correct.
  pose proof (run_cmds_stays (take DRAIN_BATCH queue) ltac:(by apply Forall_take)). stay.
Qed.

(** The queue that is left is the end of the one before. *)
Lemma shard_turn_rest batch queue e s :
  (shard_turn rs_encode batch queue e s).1.2 = drop DRAIN_BATCH queue.
Proof. unfold shard_turn. rewrite drain_cmds_correct. by rewrite !bind_run. Qed.

Lemma shard_loop_stays turns queue :
  Forall cmd_fine (queue ++ commands turns) → stays (shard_loop rs_encode turns queue).
Proof.
  revert queue. induction turns as [|[batch cmds] turns IH]; intros queue Hw; cbn [shard_loop]; [stay|].
  unfold commands in *. cbn [fmap list_fmap concat snd] in Hw. rewrite (assoc_L (++)) in Hw.
  apply Forall_app in Hw as [Hq Ht]. intros e s Hc Hk. rewrite bind_run.
  pose proof (shard_turn_stays batch _ Hq e s Hc Hk) as Hk1.
  pose proof (shard_turn_rest batch (queue ++ cmds) e s) as Hrest.
  destruct (shard_turn _ _ _ e s) as [[running rest] s1]. cbn [fst snd] in *. subst rest.
  destruct running; [|done]. apply IH; [|done|done]. apply Forall_app. split; [by apply Forall_drop|done].
Qed.

Lemma shard_start_stays : stays shard_start.
Proof. unfold shard_start. stay. Qed.

Lemma run_shard_stays turns : Forall cmd_fine (commands turns) → stays (run_shard rs_encode turns).
Proof. intros Hw. pose proof (shard_loop_stays turns [] Hw). pose proof shard_start_stays. unfold run_shard. stay. Qed.
End histories.
End shard.
