(* ===== verification/Channel.v ===== *)
(** * How a request gets from one shard to another

    A shard sends a datagram in the clear or through a WireGuard session ([send_app] of
    [src/shard.rs]); the receiver finds the same request in what arrives
    ([handle_datagram]).  [Channel] is what the exchanges of [Replica] and [Fetch] rely on
    when they send, [arrives] when they receive; here both are shown for datagrams in the
    clear, in [Secure] for WireGuard. *)

From S2P Require Import Prelude Bytes Types Proto Codec Routing Crypto Net Peerstore Store Pool Lookup Wg Relay EventLoop Metrics Sybil Erasure ShardState Shard ShardInv ShardThms ShardReplies ShardStore.

Section channel.
Context `{TunnOps} `{KeyedHash} `{Protobuf} `{Crc32}.

(** ** Routes *)

(** Datagrams to this address go straight to it. *)
Definition direct (c : ShardCtx) (dest : SocketAddr) : Prop :=
  (pid ← peer_id_for c dest; (pid,.) <$> sc_via_relay c !! pid) = None.

Definition route_view (c : ShardCtx)
    : RoutingTable * gmap NodeId SocketAddr * NodeConfig * gmap SocketAddr (arr 32) :=
  (sc_table c, sc_via_relay c, sc_cfg c, sc_keys c).

#[export] Instance route_Unsent : Unsent route_view.
Proof. by split. Qed.

(** What decides how a datagram travels. *)
Definition chan_view (c : ShardCtx) := (route_view c, sc_wg c).

Lemma direct_view c c' dest : route_view c' = route_view c → direct c dest → direct c' dest.
Proof. unfold route_view, direct, peer_id_for. by intros [= -> -> _ _]. Qed.

(** ** What is written stays written *)

Lemma low_step_out s s' : low_step s s' → st_out s `prefix_of` st_out s'.
Proof. destruct 1; cbn; try done; by eexists. Qed.

Lemma low_steps_out s s' : rtc low_step s s' → st_out s `prefix_of` st_out s'.
Proof. induction 1 as [|x y z Hxy _ IH]; [done|]. etrans; [by apply low_step_out|done]. Qed.

Lemma shard_steps_out s s' : rtc shard_step s s' → st_out s `prefix_of` st_out s'.
Proof.
  induction 1 as [|s1 s2 s3 Hs _ IH]; [done|]. etrans; [|exact IH].
  destruct Hs as [s2 Hl|n p l|n p l s2 _ Hl|n p l s2 _ Hl]; [by apply low_step_out|done|..].
  - by apply low_steps_out in Hl.
  - apply low_steps_out in Hl. by destruct (pl_reply p).
Qed.

Lemma runs_out {A} (m : M A) Q e s :
  runs low_step m Q → queues_sendable s → st_out s `prefix_of` st_out (m e s).2.
Proof. intros Hm Hq. by apply low_steps_out, Hm. Qed.

(** ** Messages on their way out *)

Lemma pool_take_zeroed e s : buf_data (pool_take e s).1 = replicate BUFFER_SIZE (z2b 0).
Proof.
  change (pool_take e s).1 with (BufferPool_take (sc_pool (st_ctx s))).2. unfold BufferPool_take.
  by destruct (pop (free (sc_pool (st_ctx s)))) as [[b rest]|].
Qed.

(** A message that fits is encoded. *)
Lemma encoded_eq {T A} `{Message T} h (m : T) (d : A) k e s :
  HEADER_LEN + length (encode_to_vec m) ≤ PMTU_FLOOR →
  ∃ b, encoded h m d k e s =
       (r ← k (header_bytes h ++ encode_to_vec m); pool_recycle b;; mret r) e (pool_take e s).2.
Proof.
  intros Hl. unfold encoded. unfold mbind at 1, M_bind at 1.
  pose proof (pool_take_zeroed e s) as Hz. destruct (pool_take e s) as [buf s1]. cbn [fst snd] in *.
  rewrite Hz, encode_message_eq; [|by rewrite length_replicate; etrans; [exact Hl|apply Nat.leb_le]|done].
  rewrite (assoc_L (++)), take_app_length' by (by rewrite length_app, header_bytes_length).
  by eexists.
Qed.

(** A loop over peers: something is sent at the turn of [a], in a state that still has
    what [I] says of the turns left. *)
Lemma for_out {A} (l : list A) (k : A → M unit) a (O : Out → Prop) (I : nat → St → Prop) e s :
  (∀ a, runs low_step (k a) (λ _, True)) → queues_sendable s → a ∈ l → I (length l) s →
  (∀ b n s', I (S n) s' → I n (k b e s').2) →
  (∀ n s', queues_sendable s' → I (S n) s' → ∃ o, O o ∧ o ∈ st_out (k a e s').2) →
  ∃ o, O o ∧ o ∈ st_out (for_ l k e s).2.
Proof.
  intros Hr Hq Ha HI Hk Ho. revert s Hq Ha HI.
  induction l as [|b l IH]; intros s Hq Ha HI; [by apply not_elem_of_nil in Ha|].
  cbn [for_ length] in *. rewrite bind_run. destruct (Hr b e s Hq) as [Hs _].
  pose proof (low_steps_queues _ _ Hs Hq) as Hq1. apply elem_of_cons in Ha as [<-|Ha].
  - destruct (Ho _ s Hq HI) as (o & HO & Hin). exists o. split; [done|].
    eapply elem_of_prefix; [exact Hin|].
    apply (runs_out _ (λ _, True)); [|done]. by apply (runs_for_all low_step).
  - apply IH; [done..|]. by apply Hk.
Qed.

(** ** Channels *)

(** A way from this shard to [dest] for datagrams sent with the key [x].  [ready n c]: the
    way is open in [c] and stays open during [n] sends, to anybody; [carries app o]: the
    written [o] brings the datagram [app]. *)
Record Channel (dest : SocketAddr) (x : option (arr 32)) := mkChannel {
  ready : nat → ShardCtx → Prop;
  carries : bytes → Out → Prop;
  ready_view n c c' : chan_view c' = chan_view c → ready n c → ready n c';
  ready_less n n' c : n' ≤ n → ready n c → ready n' c;
  ready_sent n dest' x' app e s :
    ready (S n) (st_ctx s) → ready n (st_ctx (send_app dest' x' app e s).2);
  carries_sent n app e s :
    ready (S n) (st_ctx s) → length app ≤ PMTU_FLOOR →
    ∃ o, carries app o ∧ o ∈ st_out (send_app dest x app e s).2;
}.
End channel.

Arguments ready {_ _ _ _ _} _ _ _.
Arguments carries {_ _ _ _ _} _ _ _.

(** ** Sending through a channel *)

Section sending.
Context `{TunnOps} `{KeyedHash} `{Protobuf} `{Crc32} {dest : SocketAddr} {x : option (arr 32)} (C : Channel dest x).

(** [m] makes at most [k] sends and changes nothing else the channel depends on. *)
Definition spends {A} (k : nat) (m : M A) : Prop :=
  ∀ n e s, ready C (k + n) (st_ctx s) → ready C n (st_ctx (m e s).2).

Lemma spends_free {A} k (m : M A) : keeps chan_view m → spends k m.
Proof.
  intros Hm n e s Hs. eapply ready_view; [apply Hm|]. eapply ready_less; [|exact Hs]. lia.
Qed.

Lemma spends_weaken {A} k k' (m : M A) : k ≤ k' → spends k m → spends k' m.
Proof. intros Hk Hm n e s Hs. apply Hm. eapply ready_less; [|exact Hs]. lia. Qed.

Lemma spends_seq {A B} k k' (m : M A) (f : A → M B) :
  spends k m → (∀ a, spends k' (f a)) → spends (k + k') (mbind f m).
Proof. intros Hm Hf n e s Hs. rewrite bind_run. apply Hf, Hm. by rewrite Nat.add_assoc. Qed.

Lemma spends_for {A} k (l : list A) f : (∀ a, spends k (f a)) → spends (length l * k) (for_ l f).
Proof.
  intros Hf. induction l as [|a l IH]; cbn [for_ length Nat.mul]; [by apply spends_free|by apply spends_seq].
Qed.

Lemma spends_send dest' x' app : spends 1 (send_app dest' x' app).
Proof. intros n e s. apply ready_sent. Qed.

Lemma spends_encoded {T A} `{Message T} h (m : T) (d : A) k n :
  (∀ app, spends n (k app)) → spends n (encoded h m d k).
Proof.
  intros Hk. unfold encoded. apply (spends_seq 0 n); [by apply spends_free|intros buf].
  destruct (encode_message h m (buf_data buf)) as [out [l|]]; rewrite <-(Nat.add_0_r n);
    apply spends_seq; intros; try by apply spends_free. apply Hk.
Qed.

Lemma next_corr_spends : spends 0 next_corr.
Proof. by apply spends_free. Qed.

(** A message that fits one datagram is carried whole. *)
Lemma encoded_carried {T} `{Message T} h (m : T) n e s :
  HEADER_LEN + length (encode_to_vec m) ≤ PMTU_FLOOR → ready C (S n) (st_ctx s) →
  ∃ o, carries C (datagram h m) o ∧ o ∈ st_out (encoded h m tt (send_app dest x) e s).2.
Proof.
  intros Hl Hr. destruct (encoded_eq h m tt (send_app dest x) e s Hl) as [b ->].
  rewrite bind_run. apply (carries_sent _ _ C n).
  - by apply (ready_view _ _ C _ (st_ctx s)).
  - by rewrite length_app, header_bytes_length.
Qed.
End sending.

(** ** Receiving *)

Section receiving.
Context `{TunnOps} `{KeyedHash} `{Protobuf} `{Crc32}.

(** The parts of the context that taking in a datagram does not touch. *)
Class Unopened {X} (f : ShardCtx → X) : Prop := {
  uo_unsent :: Unsent f;
  uo_sybil x c : f (set_sybil x c) = f c;
}.

#[export] Instance store_Unopened : Unopened sc_store.
Proof. by repeat split. Qed.

#[export] Instance lookups_Unopened : Unopened sc_lookups.
Proof. by repeat split. Qed.

#[export] Instance route_Unopened : Unopened route_view.
Proof. by repeat split. Qed.

(** When [pkt] comes in from [src], the request [app] is handled in the state [s1], which
    differs from [s] in counters, buffers, rate limits and sessions only; what follows is
    work of the session, which leaves the store alone. *)
Record arrives (src : SocketAddr) (pkt app : bytes) (e : Env) (s s1 : St) : Prop := {
  ar_handled : ∃ au m, handle_datagram src pkt e s = (handle_app src app au;; m) e s1 ∧
                       keeps sc_store m ∧ runs shard_step m (λ _, True);
  ar_out : st_out s1 = st_out s;
  ar_answers : st_answers s1 = st_answers s;
  ar_pending : sc_pending_wg (st_ctx s1) = sc_pending_wg (st_ctx s);
  ar_keeps {X} (f : ShardCtx → X) `{!Unopened f} : f (st_ctx s1) = f (st_ctx s);
}.

Lemma arrives_queues src pkt app e s s1 : arrives src pkt app e s s1 → queues_sendable s → queues_sendable s1.
Proof. intros Ha. unfold queues_sendable. by rewrite (ar_pending _ _ _ _ _ _ Ha). Qed.

(** What the handler of the request did to the store is what the datagram did. *)
Lemma arrives_store src pkt app e s s1 (P : Store → Prop) :
  arrives src pkt app e s s1 → (∀ au, P (sc_store (st_ctx (handle_app src app au e s1).2))) →
  P (sc_store (st_ctx (handle_datagram src pkt e s).2)).
Proof. intros [(au & m & -> & Hm & _) _ _ _ _] HP. rewrite bind_run, Hm. apply HP. Qed.

(** What it wrote and answered is among what the datagram did. *)
Lemma arrives_steps src pkt app e s s1 :
  arrives src pkt app e s s1 → queues_sendable s →
  ∃ au, rtc shard_step (handle_app src app au e s1).2 (handle_datagram src pkt e s).2.
Proof.
  intros Ha Hq. pose proof (arrives_queues _ _ _ _ _ _ Ha Hq) as Hq1.
  destruct Ha as [(au & m & -> & _ & Hm) _ _ _ _]. exists au. rewrite bind_run. apply Hm.
  destruct (handle_app_ok src app au e s1 Hq1) as [Hs _]. by eapply (steps_rtc_queues shard_step).
Qed.

(** The rate limit of the receiver lets the sender through. *)
Definition admitted (src : SocketAddr) (e : Env) (s : St) : Prop := (pre_handshake src e s).1 = true.

(** ** In the clear *)

Lemma send_plain_out dest app e s : OutPlain dest app ∈ st_out (send_plain dest app e s).2.
Proof.
  unfold send_plain, mbind, M_bind, read, write_out, when_. cbn.
  destruct (env_sent e (st_tick s)); cbn; set_solver.
Qed.

(** Whether the sending shard encrypts. *)
Definition in_clear (c : ShardCtx) (dest : SocketAddr) : Prop :=
  plaintext (sc_cfg c) = true ∧ direct c dest.

Lemma in_clear_view c c' dest : route_view c' = route_view c → in_clear c dest → in_clear c' dest.
Proof.
  intros Hv [Hp Hd]. split; [|by eapply direct_view]. unfold route_view in Hv. injection Hv as _ _ Hcfg _.
  by rewrite Hcfg.
Qed.

Lemma send_app_out dest x app e s :
  length app ≤ PMTU_FLOOR → in_clear (st_ctx s) dest → OutPlain dest app ∈ st_out (send_app dest x app e s).2.
Proof.
  intros Hl [Hp Hd]. unfold send_app. rewrite (proj2 (Nat.ltb_ge _ _)) by done.
  unfold gets, mbind at 1, M_bind at 1. cbn beta iota. unfold direct in Hd. rewrite Hd.
  unfold mbind at 1, M_bind at 1. pose proof (relay_egress_keeps route_view (Z.of_nat (length app)) e s) as Hv.
  destruct (relay_egress _ e s) as [[] s1]. cbn [snd] in Hv.
  unfold mbind, M_bind. cbn beta iota. injection Hv as _ _ Hcfg _. unfold id. rewrite Hcfg, Hp.
  destruct (match x with Some x => Some x | None => _ end); apply send_plain_out.
Qed.

Program Definition clear_channel (dest : SocketAddr) (x : option (arr 32)) : Channel dest x := {|
  ready _ c := in_clear c dest;
  carries app o := o = OutPlain dest app;
|}.
Next Obligation. intros dest x n c c' Hv. apply in_clear_view. exact (f_equal fst Hv). Qed.
Next Obligation. done. Qed.
Next Obligation. intros dest x n dest' x' app e s. apply in_clear_view. apply (send_app_keeps route_view). Qed.
Next Obligation. intros dest x n app e s Hr Hl. eexists. split; [done|]. by apply send_app_out. Qed.

(** A datagram with a header is the request itself. *)
Lemma clear_handled src app h e s :
  Header_decode app = Some h → handle_datagram src app e s = handle_app src app false e s.
Proof. intros Hd. unfold handle_datagram. by rewrite (header_not_wg _ _ Hd). Qed.

Lemma clear_arrives src app h e s : Header_decode app = Some h → arrives src app app e s s.
Proof.
  intros Hd. split; [|done..]. exists false, (mret tt). split_and!; [|done|by apply (runs_ret shard_step)].
  rewrite (clear_handled _ _ _ _ _ Hd), bind_run. by destruct (handle_app src app false e s) as [[] s'].
Qed.
End receiving.
