(* ===== verification/Secure.v ===== *)
(** * Requests that travel encrypted

    With encryption on, a shard hands each datagram for a known key to its WireGuard engine
    and sends what comes out ([send_wg] of [src/shard.rs], [encapsulate_to] of [src/wg.rs]);
    the receiver opens it and handles the request inside ([handle_datagram], [decapsulate]).
    Over a pair of tunnels that finished their handshake this is a channel like the one in
    the clear.  What such a pair promises is the class [TunnPair]. *)

From S2P Require Import Prelude Bytes Types Proto Codec Routing Crypto Net Peerstore Store Pool Lookup Wg Relay EventLoop Metrics Sybil Erasure ShardState Shard ShardInv ShardThms ShardReplies ShardStore Channel.

(** ** What a pair of tunnels promises *)

(** A whole IPv4 packet: BoringTun hands out as many bytes as the length field says. *)
Definition ip_packet (p : bytes) : Prop :=
  index p 0 = z2b 69 ∧ be_val (slice p 2 4) = Z.of_nat (length p).

(** [pkt] is a data packet for receiver index [i] that the tunnel [u] opens to [p],
    whatever address it comes from, given room for it.  The receiver index is the one on the
    wire.  It need not be the index the tunnel was made with: BoringTun shifts that one left
    by eight bits and counts its sessions in the low byte. *)
Definition opens `{TunnOps} (u : Tunn) (i : Z) (pkt p : bytes) : Prop :=
  parse_wg_header pkt = Some (mkWgHeader WG_TYPE_DATA i) ∧ length pkt ≤ length p + 32 ∧
  ∀ ip sc, length pkt ≤ length sc →
    ∃ u' sc', Tunn_decapsulate u ip pkt sc = (u', WriteToTunnelV4 (length p), sc') ∧ take (length p) sc' = p.

(** [linked t u i]: the sessions of [t] and [u] share their keys, and [u] is known to [t] as
    receiver [i]; packets sent and data packets received do not change that.  [answers u i]:
    [u] has handed out the receiver index [i]; a data packet for any other is refused.
    [Tunn::encapsulate] needs a buffer 32 bytes longer than the packet and of at least 148
    bytes; called with an empty datagram [Tunn::decapsulate] only sends what was queued. *)
Class TunnPair `{TunnOps} := {
  linked : Tunn → Tunn → Z → Prop;
  answers : Tunn → Z → Prop;
  linked_seals t u i p out :
    linked t u i → ip_packet p → length p + 32 ≤ length out → 148 ≤ length out →
    ∃ t' n out', Tunn_encapsulate t p out = (t', WriteToNetwork n, out') ∧ opens u i (take n out') p;
  linked_lasts t u i p out : linked t u i → linked (Tunn_encapsulate t p out).1.1 u i;
  linked_receives t u i ip d sc h :
    linked t u i → parse_wg_header d = Some h → wg_ty h = WG_TYPE_DATA →
    linked (Tunn_decapsulate t ip d sc).1.1 u i;
  foreign_refused t i pkt ip sc :
    ¬ answers t i → parse_wg_header pkt = Some (mkWgHeader WG_TYPE_DATA i) →
    ∃ t' r sc', Tunn_decapsulate t ip pkt sc = (t', r, sc') ∧ (r = TunnDone ∨ r = TunnErr) ∧
                length sc' = length sc;
  idle_quiet t ip sc n :
    (Tunn_decapsulate t ip [] sc).1.2 ≠ WriteToTunnelV4 n ∧
    (Tunn_decapsulate t ip [] sc).1.2 ≠ WriteToTunnelV6 n;
}.

Lemma opens_wg `{TunnOps} u i pkt p : opens u i pkt p → looks_like_wg pkt = true.
Proof. intros [Hh _]. unfold looks_like_wg. rewrite Hh. by apply bool_decide_eq_true_2. Qed.

(** Hash maps are iterated in some order. *)
Definition orders_ok (e : Env) : Prop := ∀ t l, env_ids e t l ≡ₚ l.

Lemma wrap_rpc_packet app : length app ≤ PMTU_FLOOR → ip_packet (wrap_rpc app).
Proof.
  intros Hl. split; [|apply wrap_rpc_lengths; unfold PMTU_FLOOR in Hl; lia].
  by destruct (wrap_rpc_app app) as (h & -> & _ & ->).
Qed.

Lemma sealed_fits n : n ≤ PMTU_FLOOR → 28 + n + 32 ≤ BUFFER_SIZE.
Proof. unfold PMTU_FLOOR, BUFFER_SIZE. lia. Qed.

(** ** Engines *)

Section engine.
Context `{TunnPair}.

(** The engine has a session for the key [x] whose tunnel is linked to [u], and indices
    left for [n] more peers. *)
Definition sealed_to (x : arr 32) (u : Tunn) (i : Z) (n : nat) (w : WgEngine) : Prop :=
  wg_inv w ∧ (next_local w + Z.of_nat n < 2 ^ 24)%Z ∧
  ∃ idx s, by_x25519 w !! x = Some idx ∧ sessions w !! idx = Some s ∧ linked (tunn s) u i.

Lemma add_peer_session w x y pid ep idx s :
  wg_inv w → (next_local w + 1 < 2 ^ 24)%Z →
  by_x25519 w !! x = Some idx → sessions w !! idx = Some s →
  let w' := (add_peer w y pid ep).1 in by_x25519 w' !! x = Some idx ∧ sessions w' !! idx = Some s.
Proof.
  intros Hi Hn Hx Hs. unfold add_peer. destruct (by_x25519 w !! y) as [j|] eqn:Hy; [done|].
  cbn [fst by_x25519 sessions]. assert (x ≠ y) by congruence. split; [by rewrite lookup_insert_ne|].
  rewrite lookup_insert_ne; [done|]. intros Heq. destruct (wi_idx _ Hi _ _ Hs) as (l & Hl & ->).
  apply encode_receiver_index_inj in Heq; pose proof (wi_shard _ Hi); lia.
Qed.

Lemma encapsulate_to_lasts x u i n w dest y pid p out :
  sealed_to x u i (S n) w → sealed_to x u i n (encapsulate_to w dest y pid p out).1.1.
Proof.
  intros (Hi & Hn & idx & s & Hx & Hs & Hlk).
  assert ((next_local w + 1 < 2 ^ 24)%Z) as Hn1 by lia.
  pose proof (wg_inv_apply w (WEncapTo dest y pid p out) Hi Hn1) as Hi'.
  pose proof (wg_apply_next w (WEncapTo dest y pid p out)) as [_ Hnl].
  pose proof (wi_next _ Hi). cbn [wg_apply] in *. split_and!; [done|lia|]. clear Hi' Hnl.
  destruct (add_peer_session w x y pid (Some dest) idx s) as [Hx' Hs']; [done..|].
  destruct (add_peer_inv w y pid (Some dest) Hi Hn1) as [Hi1 Hy]. unfold encapsulate_to.
  destruct (add_peer w y pid (Some dest)) as [w1 j]. cbn [fst snd] in *. rewrite Hy.
  destruct (sessions w1 !! j) as [sj|] eqn:Hj; [|by exists idx, s].
  destruct (Tunn_encapsulate (tunn sj) p out) as [[t r] out'] eqn:He. cbn.
  exists idx. destruct (decide (idx = j)) as [->|Hne].
  - rewrite lookup_insert_eq. eexists. split_and!; [done..|]. simplify_eq. cbn.
    pose proof (linked_lasts (tunn s) u i p out Hlk) as Hl. by rewrite He in Hl.
  - rewrite lookup_insert_ne by done. by exists s.
Qed.

Lemma encapsulate_to_seals x u i n w dest pid p out :
  sealed_to x u i n w → ip_packet p → length p + 32 ≤ length out → 148 ≤ length out →
  ∃ w' k out', encapsulate_to w dest x pid p out = (w', Some k, out') ∧ opens u i (take k out') p.
Proof.
  intros (_ & _ & idx & s & Hx & Hs & Hlk) Hp Hl Hl'. unfold encapsulate_to, add_peer.
  rewrite Hx. cbn beta iota. rewrite Hx, Hs.
  destruct (linked_seals (tunn s) u i p out Hlk Hp Hl Hl') as (t' & k & out' & -> & Ho). by eexists _, k, out'.
Qed.

(** The engine gives data packets for receiver index [i] to session [s].  Either [i] is the
    key it is filed under, or no session is filed under [i] and the loop over all sessions
    comes to [s], since no other has handed out [i]. *)
Definition reaches (w : WgEngine) (i : Z) (s : Session) : Prop :=
  ∃ idx, sessions w !! idx = Some s ∧
    (idx = i ∨ sessions w !! i = None ∧
               ∀ j s', j ≠ idx → sessions w !! j = Some s' → ¬ answers (tunn s') i).

(** The loop passes the sessions that refuse the packet. *)
Lemma try_opens order ss src pkt sc idx s i p :
  ss !! idx = Some s → idx ∈ order → NoDup order →
  (∀ j s', j ∈ order → j ≠ idx → ss !! j = Some s' → ¬ answers (tunn s') i) →
  opens (tunn s) i pkt p → length pkt ≤ length sc →
  ∃ ss' sc', try_sessions order ss src pkt sc = (ss', Plaintext (length p), sc') ∧ take (length p) sc' = p.
Proof.
  intros Hs Hin Hnd Hf Ho Hl. revert ss sc Hs Hf Hl.
  induction order as [|j order IH]; intros ss sc Hs Hf Hl; [by apply not_elem_of_nil in Hin|].
  apply NoDup_cons in Hnd as [Hj Hnd]. cbn [try_sessions]. destruct (decide (j = idx)) as [->|Hne].
  - rewrite Hs. destruct Ho as (_ & _ & Ho). destruct (Ho (addr_ip src) sc Hl) as (u' & sc' & Hd & Ht).
    unfold drive_decap. rewrite Hd. cbn [is_drop]. by eexists _, sc'.
  - apply elem_of_cons in Hin as [->|Hin]; [done|]. destruct (ss !! j) as [sj|] eqn:Esj.
    + destruct (foreign_refused (tunn sj) i pkt (addr_ip src) sc) as (t' & r & sc1 & Hd & Hr & Hsc).
      { by apply (Hf j); [left|..]. }
      { by destruct Ho. }
      unfold drive_decap. rewrite Hd.
      assert (is_drop match r with
        | WriteToNetwork n => Network n
        | WriteToTunnelV4 n | WriteToTunnelV6 n => Plaintext n
        | TunnDone | TunnErr => Drop end = true) as -> by (by destruct Hr as [-> | ->]).
      apply (IH Hin Hnd); [by rewrite lookup_insert_ne| |by rewrite Hsc].
      intros k s' Hk Hkne. rewrite lookup_insert_ne by (by intros ->). apply Hf; [by right|done].
    + apply (IH Hin Hnd); [done| |done]. intros k s' Hk. apply Hf. by right.
Qed.

Lemma decapsulate_opens w order src pkt sc i s p :
  reaches w i s → order ≡ₚ (map_to_list (sessions w)).*1 → opens (tunn s) i pkt p → length pkt ≤ length sc →
  ∃ w' sc', decapsulate w order src pkt sc = (w', Plaintext (length p), sc') ∧ take (length p) sc' = p.
Proof.
  intros (idx & Hs & Hi) Horder Hop Hl. pose proof Hop as (Hh & _ & Ho).
  unfold decapsulate. assert (length pkt =? 0 = false) as ->.
  { unfold parse_wg_header in Hh. by destruct pkt. }
  rewrite Hh. cbn [wg_ty receiver_index WG_TYPE_DATA WG_TYPE_INITIATION Z.eqb Pos.eqb andb orb].
  destruct Hi as [->|[Hnone Hforeign]].
  - destruct (Ho (addr_ip src) sc Hl) as (u' & sc' & Hd & Ht).
    rewrite Hs. unfold drive_decap. rewrite Hd. by eexists _, sc'.
  - rewrite Hnone. destruct (try_opens order (sessions w) src pkt sc idx s i p) as (ss' & sc' & -> & Ht);
      [done|..|by eexists _, sc'].
    + rewrite Horder. apply list_elem_of_fmap. exists (idx, s). split; [done|]. by apply elem_of_map_to_list.
    + rewrite Horder. apply NoDup_fst_map_to_list.
    + intros j s' _. by apply Hforeign.
    + done.
    + done.
Qed.

(** Data packets leave the sessions and the links of their tunnels. *)
Lemma try_sessions_linked order ss src pkt sc u i h idx :
  parse_wg_header pkt = Some h → wg_ty h = WG_TYPE_DATA →
  (∃ s, ss !! idx = Some s ∧ linked (tunn s) u i) →
  ∃ s, (try_sessions order ss src pkt sc).1.1 !! idx = Some s ∧ linked (tunn s) u i.
Proof.
  intros Hh Hty. revert ss sc. induction order as [|j order IH]; intros ss sc (s & Hs & Hlk); [by exists s|].
  cbn [try_sessions]. destruct (ss !! j) as [sj|] eqn:Esj; [|apply IH; by exists s].
  unfold drive_decap. pose proof (linked_receives (tunn s) u i (addr_ip src) pkt sc h Hlk Hh Hty) as Hlk'.
  destruct (Tunn_decapsulate (tunn sj) (addr_ip src) pkt sc) as [[t r] sc1] eqn:Hd.
  assert (∀ ep, ∃ s, (<[j:=mkSession t (peer_id sj) ep (sess_x25519 sj)]> ss) !! idx = Some s ∧ linked (tunn s) u i)
    as Hins.
  { intros ep. destruct (decide (j = idx)) as [->|Hne].
    - rewrite lookup_insert_eq. eexists. split; [done|]. simplify_eq. by rewrite Hd in Hlk'.
    - rewrite lookup_insert_ne by done. by exists s. }
  destruct (is_drop _); [apply IH|]; apply Hins.
Qed.

Lemma decapsulate_lasts x u i n w order src pkt sc j :
  sealed_to x u i n w → parse_wg_header pkt = Some (mkWgHeader WG_TYPE_DATA j) →
  sealed_to x u i n (decapsulate w order src pkt sc).1.1.
Proof.
  intros (Hi & Hn & idx & s' & Hx & Hs' & Hlk) Hh.
  unfold decapsulate. assert (length pkt =? 0 = false) as ->.
  { unfold parse_wg_header in Hh. by destruct pkt. }
  rewrite Hh. cbn [wg_ty receiver_index WG_TYPE_DATA WG_TYPE_INITIATION Z.eqb Pos.eqb andb orb].
  destruct (sessions w !! j) as [s|] eqn:Hs.
  - unfold drive_decap. pose proof (linked_receives (tunn s') u i (addr_ip src) pkt sc _ Hlk Hh eq_refl) as Hlk'.
    destruct (Tunn_decapsulate (tunn s) (addr_ip src) pkt sc) as [[t r] sc1] eqn:Hd. cbn [fst]. split_and!.
    + apply wg_inv_same; [done|]. by apply same_keys_insert.
    + done.
    + exists idx. cbn. destruct (decide (idx = j)) as [->|Hne].
      * rewrite lookup_insert_eq. eexists. split_and!; [done..|]. simplify_eq. by rewrite Hd in Hlk'.
      * rewrite lookup_insert_ne by done. by exists s'.
  - pose proof (try_sessions_keys order (sessions w) src pkt sc) as Hk.
    pose proof (try_sessions_linked order (sessions w) src pkt sc u i _ idx Hh eq_refl) as Hl.
    destruct (try_sessions order (sessions w) src pkt sc) as [[ss r] sc1]. cbn [fst] in *. split_and!.
    + by apply wg_inv_same.
    + done.
    + destruct Hl as (s1 & Hs1 & Hl1); [by exists s'|]. exists idx, s1. by split_and!.
Qed.

Lemma drain_sessions_quiet order ss src sc n : (drain_sessions order ss src sc).1.2 ≠ Plaintext n.
Proof.
  revert ss sc. induction order as [|j order IH]; intros ss sc; cbn [drain_sessions]; [done|].
  destruct (ss !! j) as [s|]; [|apply IH]. destruct (negb _); [apply IH|].
  unfold drive_decap. destruct (idle_quiet (tunn s) (addr_ip src) sc n) as [H4 H6].
  destruct (Tunn_decapsulate (tunn s) (addr_ip src) [] sc) as [[t r] sc1]. cbn [fst snd] in *.
  destruct r; cbn [is_drop]; try apply IH; cbn; congruence.
Qed.
End engine.

(** ** Sending *)

Section sending.
Context `{TunnPair} `{KeyedHash} `{Protobuf} `{Crc32}.

(** [m] learns of at most [k] new keys and breaks no session. *)
Definition uses {A} (k : nat) (m : M A) : Prop :=
  ∀ x u i n e s, sealed_to x u i (k + n) (sc_wg (st_ctx s)) → sealed_to x u i n (sc_wg (st_ctx (m e s).2)).

Lemma uses_free {A} k (m : M A) : keeps sc_wg m → uses k m.
Proof.
  intros Hm x u i n e s (Hi & Hn & Hs). rewrite Hm. split_and!; [done|lia|done].
Qed.

Lemma uses_seq {A B} k k' (m : M A) (f : A → M B) :
  uses k m → (∀ a, uses k' (f a)) → uses (k + k') (mbind f m).
Proof. intros Hm Hf x u i n e s Hs. rewrite bind_run. apply Hf, Hm. by rewrite Nat.add_assoc. Qed.

Lemma uses_encapsulate dest x p out : uses 1 (wg_encapsulate_to dest x p out).
Proof. intros y u i n e s Hs. by apply encapsulate_to_lasts. Qed.

Lemma send_plain_wg dest app : keeps sc_wg (send_plain dest app).
Proof. intros e s. unfold send_plain. rewrite !bind_run. by destruct (read env_sent e s).1. Qed.

Lemma encoded_wg {T} `{Message T} h (m : T) k n : (∀ app, uses n (k app)) → uses n (encoded h m tt k).
Proof.
  intros Hk. unfold encoded. apply (uses_seq 0 n); [by apply uses_free|intros buf].
  destruct (encode_message h m (buf_data buf)) as [out [l|]]; rewrite <-(Nat.add_0_r n);
    apply uses_seq; intros; try by apply uses_free. apply Hk.
Qed.

Lemma send_relay_frame_wg hop dest app : uses 2 (send_relay_frame hop dest app).
Proof.
  unfold send_relay_frame. apply (uses_seq 0 2); [by apply uses_free|intros c].
  destruct (bool_decide _); [by apply uses_free|].
  apply (uses_seq 0 2); [by apply uses_free|intros corr]. apply encoded_wg. intros frame.
  apply uses_free. apply keeps_seq; [apply send_plain_wg|done].
Qed.

Lemma send_wg_uses dest x app : uses 2 (send_wg dest x app).
Proof.
  unfold send_wg. apply (uses_seq 0 2); [by apply uses_free|intros out].
  apply (uses_seq 1 1); [apply uses_encapsulate|intros [[n|] o]].
  - apply uses_free. by destruct (is_initiation _).
  - apply (uses_seq 0 1); [by apply uses_free|intros _].
    apply (uses_seq 1 0); [apply uses_encapsulate|intros [[n|] o']]; by apply uses_free.
Qed.

Lemma send_app_uses dest x app : uses 2 (send_app dest x app).
Proof.
  unfold send_app. destruct (_ <? _); [by apply uses_free|].
  apply (uses_seq 0 2); [by apply uses_free|intros [[pid hop]|]]; [apply send_relay_frame_wg|].
  apply (uses_seq 0 2); [by apply uses_free|intros _].
  apply (uses_seq 0 2); [by apply uses_free|intros c].
  destruct (match x with Some x => Some x | None => _ end) as [y|]; [|apply uses_free, send_plain_wg].
  destruct (plaintext _); [apply uses_free, send_plain_wg|apply send_wg_uses].
Qed.

Lemma wg_encapsulate_to_result dest x p out e s :
  (wg_encapsulate_to dest x p out e s).1 =
    let '(_, n, out) := encapsulate_to (sc_wg (st_ctx s)) dest x None p out in (n, out).
Proof. done. Qed.

(** What the engine makes of a datagram for the key [x]. *)
Definition engine_packet (w : WgEngine) (dest : SocketAddr) (x : arr 32) (app pkt : bytes) : Prop :=
  ∃ w' n o, encapsulate_to w dest x None (wrap_rpc app) (replicate BUFFER_SIZE (z2b 0)) = (w', Some n, o) ∧
            pkt = take n o.

(** A datagram to a key with a session leaves as a packet the other end opens. *)
Lemma send_wg_seals dest x app u i n e s :
  sealed_to x u i n (sc_wg (st_ctx s)) → length app ≤ PMTU_FLOOR →
  ∃ pkt, opens u i pkt (wrap_rpc app) ∧ OutWg dest pkt ∈ st_out (send_wg dest x app e s).2.
Proof.
  intros Hs Hl. unfold send_wg. rewrite bind_run, pool_take_zeroed. set (s1 := (pool_take e s).2).
  destruct (encapsulate_to_seals x u i n (sc_wg (st_ctx s1)) dest None (wrap_rpc app)
              (replicate BUFFER_SIZE (z2b 0))) as (w & k & o & Heq & Ho).
  { exact Hs. }
  { by apply wrap_rpc_packet. }
  { rewrite wrap_rpc_length, length_replicate. by apply sealed_fits. }
  { rewrite length_replicate. apply Nat.leb_le. reflexivity. }
  exists (take k o). split; [done|]. rewrite bind_run.
  assert ((wg_encapsulate_to dest x (wrap_rpc app) (replicate BUFFER_SIZE (z2b 0)) e s1).1 = (Some k, o)) as ->.
  { by rewrite wg_encapsulate_to_result, Heq. }
  set (s2 := (wg_encapsulate_to _ _ _ _ e s1).2). cbn beta iota.
  destruct Ho as [Hh _]. unfold is_initiation. rewrite Hh. apply elem_of_app. right. by apply list_elem_of_singleton.
Qed.

(** The key a datagram to [dest] is encrypted with. *)
Definition key_for (c : ShardCtx) (dest : SocketAddr) (x : option (arr 32)) : option (arr 32) :=
  match x with Some x => Some x | None => sc_keys c !! dest end.

(** The shard encrypts, reaches [dest] directly, and has an established session for the key. *)
Record sealed_route (dest : SocketAddr) (x : option (arr 32)) (u : Tunn) (i : Z) (n : nat) (c : ShardCtx)
    : Prop := {
  sr_encrypts : plaintext (sc_cfg c) = false;
  sr_direct : direct c dest;
  sr_session : ∃ y, key_for c dest x = Some y ∧ sealed_to y u i n (sc_wg c);
}.

Lemma sealed_route_view dest x u i n n' c c' :
  route_view c' = route_view c → (∀ y, sealed_to y u i n (sc_wg c) → sealed_to y u i n' (sc_wg c')) →
  sealed_route dest x u i n c → sealed_route dest x u i n' c'.
Proof.
  intros Hv Hw [Hp Hd (y & Hy & Hs)]. pose proof Hv as [= Ht Hr Hc Hk]. split.
  - by rewrite Hc.
  - by eapply direct_view.
  - exists y. split; [|by apply Hw]. unfold key_for in *. by rewrite Hk.
Qed.

Lemma send_app_seals dest x app u i n e s :
  sealed_route dest x u i n (st_ctx s) → length app ≤ PMTU_FLOOR →
  ∃ pkt, opens u i pkt (wrap_rpc app) ∧ OutWg dest pkt ∈ st_out (send_app dest x app e s).2.
Proof.
  intros [Hp Hd (y & Hy & Hs)] Hl. unfold send_app. rewrite (proj2 (Nat.ltb_ge _ _)) by done.
  rewrite bind_run. unfold gets at 1. cbn [fst snd]. unfold direct in Hd. rewrite Hd, !bind_run.
  set (s1 := (relay_egress (Z.of_nat (length app)) e s).2).
  change (∃ pkt, opens u i pkt (wrap_rpc app) ∧ OutWg dest pkt ∈
    st_out (match key_for (st_ctx s) dest x with
            | Some y => if plaintext (sc_cfg (st_ctx s)) then send_plain dest app else send_wg dest y app
            | None => send_plain dest app
            end e s1).2).
  rewrite Hy, Hp. by apply (send_wg_seals dest y app u i n e s1).
Qed.

(** Sending over an established session. *)
Program Definition sealed_channel (dest : SocketAddr) (x : option (arr 32)) (u : Tunn) (i : Z)
    : Channel dest x := {|
  ready n c := sealed_route dest x u i (2 * n) c;
  carries app o := ∃ pkt, o = OutWg dest pkt ∧ opens u i pkt (wrap_rpc app);
|}.
Next Obligation.
  intros dest x u i n c c' Hv. apply sealed_route_view; [exact (f_equal fst Hv)|]. intros y.
  by rewrite (f_equal snd Hv : sc_wg c' = sc_wg c).
Qed.
Next Obligation.
  intros dest x u i n n' c Hle. apply sealed_route_view; [done|]. intros y (Hi & Hn & Hs).
  split_and!; [done|lia|done].
Qed.
Next Obligation.
  intros dest x u i n dest' x' app e s. apply sealed_route_view; [apply (send_app_keeps route_view)|].
  intros y Hs. apply send_app_uses. by replace (2 + 2 * n) with (2 * S n) by lia.
Qed.
Next Obligation.
  intros dest x u i n app e s Hr Hl.
  destruct (send_app_seals dest x app u i (2 * S n) e s Hr Hl) as (pkt & Ho & Hout). eauto.
Qed.
End sending.

(** ** Relayed requests *)

Section relayed.
Context `{TunnOps} `{KeyedHash} `{Protobuf} `{Crc32}.

Definition relay_message (c : ShardCtx) (dest : NodeId) (app : bytes) : proto.Relay :=
  {| proto.relay_dest_id := vec_to_list (nid dest); proto.relay_from_id := vec_to_list (nid (self_node c));
     proto.relay_payload := app |}.

Lemma send_relay_frame_out hop pid app e s :
  let m := relay_message (st_ctx s) pid app in
  HEADER_LEN + length (encode_to_vec m) ≤ PMTU_FLOOR → hop ≠ sc_local (st_ctx s) →
  ∃ corr via, OutPlain via (datagram (Header_request Relay Coordination corr) m) ∈
                st_out (send_relay_frame hop pid app e s).2.
Proof.
  intros m Hm Hhop. unfold send_relay_frame. rewrite bind_run.
  change (gets id e s).1 with (st_ctx s). change (gets id e s).2 with s.
  rewrite bool_decide_eq_false_2 by done. cbv zeta. rewrite bind_run. set (corr := (next_corr e s).1).
  match goal with |- context [encoded ?h _ ?d ?k e ?s1] =>
    destruct (encoded_eq h m d k e s1 Hm) as [b Heq]; change (encoded h _ d k e s1) with (encoded h m d k e s1);
    rewrite Heq end.
  exists corr. eexists. rewrite !bind_run. apply send_plain_out.
Qed.

(** A datagram for a peer behind a relay is handed to the relay in the clear, whether or not
    the shard encrypts and whatever key the peer has. *)
Theorem relayed_in_clear (dest hop : SocketAddr) (pid : NodeId) (x : option (arr 32)) (app : bytes)
    (e : Env) (s : St) :
  let m := relay_message (st_ctx s) pid app in
  HEADER_LEN + length (encode_to_vec m) ≤ PMTU_FLOOR → length app ≤ PMTU_FLOOR →
  (pid ← peer_id_for (st_ctx s) dest; (pid,.) <$> sc_via_relay (st_ctx s) !! pid) = Some (pid, hop) →
  hop ≠ sc_local (st_ctx s) →
  ∃ corr via, OutPlain via (datagram (Header_request Relay Coordination corr) m) ∈
                st_out (send_app dest x app e s).2.
Proof.
  intros m Hm Hl Hvia Hhop. unfold send_app. rewrite (proj2 (Nat.ltb_ge _ _)) by done.
  rewrite bind_run. unfold gets at 1. cbn [fst]. rewrite Hvia. by apply send_relay_frame_out.
Qed.
End relayed.

(** ** Requests that wait for a session *)

Section waiting.
Context `{TunnPair} `{KeyedHash} `{Protobuf} `{Crc32}.

(** What a flush of [queue] does: [sent] went out in the data packets [pkts], the last
    packet may be a handshake, and [left] stays. *)
Definition flushed (dest : SocketAddr) (x : arr 32) (queue left : list bytes) (s s' : St) : Prop :=
  ∃ sent pkts hs,
    queue = sent ++ left ∧ length pkts = length sent ∧ length hs ≤ 1 ∧
    Forall (λ p, is_initiation p = false) pkts ∧ Forall (λ p, is_initiation p = true) hs ∧
    st_out s' = st_out s ++ (OutWg dest <$> pkts ++ hs) ∧
    (∀ u i n, sealed_to x u i (length queue + n) (sc_wg (st_ctx s)) → Forall (λ a, length a ≤ PMTU_FLOOR) queue →
       left = [] ∧ hs = [] ∧ Forall2 (λ pkt app, opens u i pkt (wrap_rpc app)) pkts sent).

Lemma sealed_first dest x u i n app queue s :
  sealed_to x u i (length (app :: queue) + n) (sc_wg (st_ctx s)) →
  Forall (λ a, length a ≤ PMTU_FLOOR) (app :: queue) →
  let r := encapsulate_to (sc_wg (st_ctx s)) dest x None (wrap_rpc app) (replicate BUFFER_SIZE (z2b 0)) in
  ∃ k, r.1.2 = Some k ∧ opens u i (take k r.2) (wrap_rpc app) ∧ is_initiation (take k r.2) = false ∧
       sealed_to x u i (length queue + n) r.1.1.
Proof.
  intros Hs [Hl _]%Forall_cons r.
  destruct (encapsulate_to_seals x u i (length (app :: queue) + n) (sc_wg (st_ctx s)) dest None (wrap_rpc app)
              (replicate BUFFER_SIZE (z2b 0))) as (w & k & o & Heq & Ho).
  { done. }
  { by apply wrap_rpc_packet. }
  { rewrite wrap_rpc_length, length_replicate. by apply sealed_fits. }
  { rewrite length_replicate. by apply Nat.leb_le. }
  exists k. subst r. pose proof (encapsulate_to_lasts x u i (length queue + n) (sc_wg (st_ctx s)) dest x None
    (wrap_rpc app) (replicate BUFFER_SIZE (z2b 0)) Hs) as Hs'. rewrite Heq in *. cbn [fst snd] in *.
  split_and!; [done..| |done]. destruct Ho as [Hh _]. unfold is_initiation. by rewrite Hh.
Qed.

Lemma flush_queue_spec dest x queue e s :
  flushed dest x queue (flush_queue dest x queue e s).1 s (flush_queue dest x queue e s).2 ∧
  sc_pending_wg (st_ctx (flush_queue dest x queue e s).2) = sc_pending_wg (st_ctx s).
Proof.
  revert s. induction queue as [|app queue IH]; intros s; cbn [flush_queue].
  { split; [|done]. exists [], [], []. cbn. rewrite app_nil_r. split_and!; [done|done|lia|done..]. }
  rewrite bind_run, pool_take_zeroed, bind_run. set (s1 := (pool_take e s).2).
  pose proof (λ u i n, sealed_first dest x u i n app queue s1) as Hseal.
  change (sc_wg (st_ctx s1)) with (sc_wg (st_ctx s)) in Hseal.
  set (zeros := replicate BUFFER_SIZE (z2b 0)) in *.
  set (s2 := (wg_encapsulate_to dest x (wrap_rpc app) zeros e s1).2).
  assert (Hwg : sc_wg (st_ctx s2) = (encapsulate_to (sc_wg (st_ctx s)) dest x None (wrap_rpc app) zeros).1.1) by done.
  rewrite wg_encapsulate_to_result. change (sc_wg (st_ctx s1)) with (sc_wg (st_ctx s)).
  destruct (encapsulate_to (sc_wg (st_ctx s)) dest x None (wrap_rpc app) zeros) as [[w n] o] eqn:He.
  cbn [fst snd] in *. destruct n as [k|].
  2:{ rewrite bind_run. split; [|done]. exists [], [], []. cbn. rewrite app_nil_r.
      split_and!; [done|done|lia|done..|].
      intros u i n Hs Hq. by destruct (Hseal u i n Hs Hq) as (k & ? & _). }
  destruct (is_initiation (take k o)) eqn:Hinit.
  - rewrite !bind_run. split; [|done]. exists [], [], [take k o]. cbn.
    split_and!; [done|done|lia|done|by repeat constructor|done|].
    intros u i n Hs Hq. destruct (Hseal u i n Hs Hq) as (k' & [= <-] & _ & ? & _). congruence.
  - rewrite !bind_run. set (s3 := (pool_recycle _ e _).2).
    destruct (IH s3) as [(sent & pkts & hs & Hq & Hl & Hh & Hp & Hi & Ho & Hall) Hpend].
    split; [|by rewrite Hpend]. exists (app :: sent), (take k o :: pkts), hs.
    split_and!; [by rewrite Hq at 1|cbn; lia|done|by constructor|done| |].
    + rewrite Ho. cbn. by rewrite <-(assoc_L (++)).
    + intros u i n Hs Hq'. destruct (Hseal u i n Hs Hq') as (k' & [= <-] & Hop & _ & Hs').
      destruct (Hall u i n) as (-> & -> & Hall'); [|by inversion Hq'|by split_and!; [..|constructor]].
      change (sc_wg (st_ctx s3)) with (sc_wg (st_ctx s2)). by rewrite Hwg.
Qed.

(** The requests that wait for a session with [dest]. *)
Definition queue_of (dest : SocketAddr) (s : St) : list bytes := default [] (sc_pending_wg (st_ctx s) !! dest).

Lemma queue_pending_queue dest apps e s : queue_of dest (queue_pending dest apps e s).2 = queue_of dest s ++ apps.
Proof. unfold queue_of, queue_pending. cbn. by rewrite lookup_insert_eq. Qed.

Lemma queue_pending_wg dest apps e s : sc_wg (st_ctx (queue_pending dest apps e s).2) = sc_wg (st_ctx s).
Proof. done. Qed.

Lemma send_wg_queues dest x app e s :
  let s' := (send_wg dest x app e s).2 in
  ∃ pkts, length pkts ≤ 1 ∧ st_out s' = st_out s ++ (OutWg dest <$> pkts) ∧
    (queue_of dest s' = queue_of dest s ++ [app] ∨
     queue_of dest s' = queue_of dest s ∧ ∃ pkt, pkts = [pkt] ∧ is_initiation pkt = false ∧
       engine_packet (sc_wg (st_ctx s)) dest x app pkt).
Proof.
  cbn zeta. unfold send_wg. rewrite bind_run, pool_take_zeroed. set (s1 := (pool_take e s).2). rewrite bind_run.
  set (zeros := replicate BUFFER_SIZE (z2b 0)).
  assert (∀ k o, (wg_encapsulate_to dest x (wrap_rpc app) zeros e s1).1 = (Some k, o) →
    engine_packet (sc_wg (st_ctx s)) dest x app (take k o)) as Hpkt.
  { intros k o. rewrite wg_encapsulate_to_result. change (sc_wg (st_ctx s1)) with (sc_wg (st_ctx s)).
    unfold engine_packet. fold zeros. destruct (encapsulate_to _ _ _ _ _ _) as [[w n] o'].
    intros [= -> ->]. by exists w, k, o. }
  set (r := wg_encapsulate_to _ _ _ _ e s1) in *. change (queue_of dest s) with (queue_of dest r.2).
  change (st_out s) with (st_out r.2). destruct r as [[[k|] o] s2]; cbn [fst snd] in *.
  - rewrite !bind_run. exists [take k o]. split_and!; [cbn; lia| |].
    { by destruct (is_initiation _). }
    destruct (is_initiation (take k o)) eqn:Hi; [left|right; split; [done|]].
    + by rewrite <-(queue_pending_queue dest [app] e s2).
    + exists (take k o). split_and!; [done..|by apply Hpkt].
  - rewrite !bind_run. set (s3 := (queue_pending dest [app] e s2).2).
    assert (queue_of dest s3 = queue_of dest s2 ++ [app]) as Hq by apply queue_pending_queue.
    change (st_out s2) with (st_out s3). set (r := wg_encapsulate_to _ _ _ _ e s3).
    change (queue_of dest s3) with (queue_of dest r.2) in Hq. change (st_out s3) with (st_out r.2).
    destruct r as [[[k|] o'] s4]; cbn [fst snd] in *.
    + exists [take k o']. split_and!; [cbn; lia|done|by left].
    + exists []. cbn [fmap list_fmap]. rewrite app_nil_r. split_and!; [cbn; lia|done|by left].
Qed.

Lemma flush_pending_eq dest x queue e s :
  sc_pending_wg (st_ctx s) !! dest = Some queue → sc_keys (st_ctx s) !! dest = Some x →
  flush_pending_wg dest e s =
    (left ← flush_queue dest x queue; when_ (negb (length left =? 0)) (queue_pending dest left)) e
      (modify (λ c, set_pending_wg (delete dest (sc_pending_wg c)) c) e s).2.
Proof.
  intros Hp Hx. unfold flush_pending_wg, gets. unfold mbind at 1, M_bind at 1. cbn beta iota. rewrite Hp.
  unfold mbind at 1, M_bind at 1, modify at 1. cbn beta iota. unfold mbind at 1, M_bind at 1. cbn beta iota.
  cbn [st_ctx set_pending_wg sc_keys]. by rewrite Hx.
Qed.

Lemma flush_pending_none dest e s :
  sc_pending_wg (st_ctx s) !! dest = None → flush_pending_wg dest e s = (tt, s).
Proof. intros Hp. unfold flush_pending_wg, gets, mbind, M_bind. by rewrite Hp. Qed.

Lemma flush_pending_flushed dest x e s :
  sc_keys (st_ctx s) !! dest = Some x →
  let s' := (flush_pending_wg dest e s).2 in flushed dest x (queue_of dest s) (queue_of dest s') s s'.
Proof.
  intros Hx. cbn zeta. destruct (sc_pending_wg (st_ctx s) !! dest) as [queue|] eqn:Hp.
  2:{ rewrite flush_pending_none by done. cbn [snd]. unfold queue_of. rewrite Hp.
      exists [], [], []. cbn. rewrite app_nil_r. split_and!; try done. lia. }
  rewrite (flush_pending_eq dest x queue) by done. set (s1 := (modify _ e s).2).
  unfold queue_of at 1. rewrite Hp, bind_run. cbn [default].
  destruct (flush_queue_spec dest x queue e s1) as [Hf Hpend].
  destruct (flush_queue dest x queue e s1) as [left s2]. cbn [fst snd] in *.
  assert (sc_pending_wg (st_ctx s2) !! dest = None) as Hnone by (rewrite Hpend; apply lookup_delete_eq).
  assert (queue_of dest (when_ (negb (length left =? 0)) (queue_pending dest left) e s2).2 = left) as ->.
  { destruct left; cbn; unfold queue_of; [by rewrite Hnone|].
    cbn. by rewrite lookup_insert_eq, Hnone. }
  by destruct left.
Qed.

(** C17: a request that finds no session waits for it and is not lost.  Sending a datagram
    with a key puts out at most one packet: either a data packet that is what the engine
    makes of this datagram, or at most a handshake, and the datagram is appended to the
    peer's queue; with an established session it is the former, and the other end opens the
    packet to the datagram.  A flush of the queue of a peer whose key the shard has on file
    for its address sends a prefix of it in order, one data packet each and perhaps a
    handshake, leaves the rest in order, and sends nothing in the clear; once the session is
    established it sends all of it, in packets that the other end opens to the queued
    datagrams.  (Without the key on file the queue goes out in the clear:
    [flush_without_key].) *)
Theorem queued_requests_sent (dest : SocketAddr) (x : arr 32) (app : bytes) (e : Env) (s : St) :
  let s' := (send_wg dest x app e s).2 in
  let f := (flush_pending_wg dest e s).2 in
  (∃ pkts, length pkts ≤ 1 ∧ st_out s' = st_out s ++ (OutWg dest <$> pkts) ∧
     (queue_of dest s' = queue_of dest s ++ [app] ∨
      queue_of dest s' = queue_of dest s ∧ ∃ pkt, pkts = [pkt] ∧ is_initiation pkt = false ∧
        engine_packet (sc_wg (st_ctx s)) dest x app pkt)) ∧
  (∀ u i n, sealed_to x u i n (sc_wg (st_ctx s)) → length app ≤ PMTU_FLOOR →
     ∃ pkt, OutWg dest pkt ∈ st_out s' ∧ opens u i pkt (wrap_rpc app)) ∧
  (sc_keys (st_ctx s) !! dest = Some x →
   flushed dest x (queue_of dest s) (queue_of dest f) s f ∧
   ∀ u i n, sealed_to x u i (length (queue_of dest s) + n) (sc_wg (st_ctx s)) →
     Forall (λ a, length a ≤ PMTU_FLOOR) (queue_of dest s) →
     queue_of dest f = [] ∧
     ∃ pkts, st_out f = st_out s ++ (OutWg dest <$> pkts) ∧
             Forall2 (λ pkt app, opens u i pkt (wrap_rpc app)) pkts (queue_of dest s)).
Proof.
  intros s' f. split; [apply send_wg_queues|]. split.
  { intros u i n Hs Hl. destruct (send_wg_seals dest x app u i n e s Hs Hl) as (pkt & ? & ?). by exists pkt. }
  intros Hx.
  pose proof (flush_pending_flushed dest x e s Hx) as Hf. split; [exact Hf|]. intros u i n Hs Hq.
  destruct Hf as (sent & pkts & hs & Heq & _ & _ & _ & _ & Hout & Hall).
  destruct (Hall u i n Hs Hq) as (Hl & -> & Ho). split; [done|]. exists pkts.
  rewrite Hl, app_nil_r in Heq. rewrite Heq. by rewrite app_nil_r in Hout.
Qed.

(** Requests queued for a peer whose key came in a list of peers, and is not on file for its
    address, are sent in the clear when the session is there, though the shard encrypts. *)
Theorem flush_without_key (dest : SocketAddr) (queue : list bytes) (e : Env) (s : St) :
  sc_pending_wg (st_ctx s) !! dest = Some queue → sc_keys (st_ctx s) !! dest = None →
  (flush_pending_wg dest e s).2 =
    (for_ queue (send_plain dest) e (modify (λ c, set_pending_wg (delete dest (sc_pending_wg c)) c) e s).2).2.
Proof.
  intros Hp Hx. unfold flush_pending_wg, gets. unfold mbind at 1, M_bind at 1. cbn beta iota. rewrite Hp.
  unfold mbind at 1, M_bind at 1, modify at 1. cbn beta iota. unfold mbind at 1, M_bind at 1. cbn beta iota.
  cbn [st_ctx set_pending_wg sc_keys]. by rewrite Hx.
Qed.
End waiting.

(** ** Receiving *)

Section receiving.
Context `{TunnPair} `{KeyedHash} `{Protobuf} `{Crc32}.

(** A state in which the request inside the packet is handled: two more readings of the
    environment, and nothing of the shard but its counters, buffers, rate limits and
    session has changed. *)
Record opened_from (src : SocketAddr) (pkt : bytes) (e : Env) (s s1 : St) : Prop := {
  of_tick : st_tick s1 = S (S (st_tick s));
  of_sybil : sc_sybil (st_ctx s1) = sc_sybil (st_ctx (pre_handshake src e s).2);
  of_wg : ∃ order sc, sc_wg (st_ctx s1) = (decapsulate (sc_wg (st_ctx s)) order src pkt sc).1.1;
  of_out : st_out s1 = st_out s;
  of_answers : st_answers s1 = st_answers s;
  of_pending : sc_pending_wg (st_ctx s1) = sc_pending_wg (st_ctx s);
  of_keeps {X} (f : ShardCtx → X) `{!Unopened f} : f (st_ctx s1) = f (st_ctx s);
}.

(** The way from [handle_datagram] to [handle_app]. *)
Definition open_packet (src : SocketAddr) (pkt : bytes) : M (Decap * bytes) :=
  _ ← pre_handshake src;
  scratch ← pool_take;
  r ← wg_decapsulate src pkt (buf_data scratch);
  incr MWgDecapOk;;
  pool_recycle (refill scratch r.2);;
  mret r.

Lemma open_packet_keeps {X} (f : ShardCtx → X) `{!Unopened f} src pkt : keeps f (open_packet src pkt).
Proof.
  unfold open_packet, pre_handshake, wg_decapsulate, pool_take, incr, pool_recycle.
  repeat first [apply keeps_seq; [|intros ?]|apply keeps_read|apply keeps_gets|apply keeps_ret];
    apply keeps_modify; intros ?;
    first [apply uo_sybil|apply un_pool|apply un_wg|apply un_metrics].
Qed.

(** An encrypted request is handled as the request inside it, from an authenticated
    sender; then what the session and the queue hold goes out. *)
Lemma sealed_datagram src pkt app i ss e s :
  reaches (sc_wg (st_ctx s)) i ss → orders_ok e → opens (tunn ss) i pkt (wrap_rpc app) →
  length app ≤ PMTU_FLOOR → admitted src e s →
  ∃ s1, opened_from src pkt e s s1 ∧
    handle_datagram src pkt e s =
      (handle_app src app true;; drain_wg_session src;; flush_pending_wg src) e s1.
Proof.
  intros Hs Hperm Ho Hl Hadm. exists (open_packet src pkt e s).2. split.
  { split; [done|done|by eexists _, _|done..|]. intros X f Hf. by apply open_packet_keeps. }
  set (s1 := (pool_take e (pre_handshake src e s).2).2).
  destruct (decapsulate_opens (sc_wg (st_ctx s1))
              (env_ids e (st_tick s1) ((map_to_list (sessions (sc_wg (st_ctx s1)))).*1)) src pkt
              (replicate BUFFER_SIZE (z2b 0)) i ss (wrap_rpc app) Hs (Hperm _ _) Ho) as (w & sc & Heq & Ht).
  { rewrite length_replicate. destruct Ho as (_ & Hlen & _). rewrite wrap_rpc_length in Hlen.
    etrans; [exact Hlen|]. by apply sealed_fits. }
  assert (Hd : (wg_decapsulate src pkt (buf_data (pool_take e (pre_handshake src e s).2).1) e s1).1 =
               (Plaintext (length (wrap_rpc app)), sc)).
  { rewrite pool_take_zeroed.
    change ((let '(_, d, sc) := decapsulate (sc_wg (st_ctx s1))
       (env_ids e (st_tick s1) ((map_to_list (sessions (sc_wg (st_ctx s1)))).*1)) src pkt
       (replicate BUFFER_SIZE (z2b 0)) in (d, sc)) = (Plaintext (length (wrap_rpc app)), sc)). by rewrite Heq. }
  unfold handle_datagram. rewrite (opens_wg _ _ _ _ Ho), bind_run. unfold admitted in Hadm. rewrite Hadm. cbn [negb].
  unfold open_packet. rewrite !bind_run. fold s1. rewrite Hd. cbn beta iota. rewrite !bind_run.
  by rewrite Ht, unwrap_wrap_rpc.
Qed.

(** Neither draining the session nor flushing the queue handles a request. *)
Lemma drain_wg_loop_keeps turns src : keeps sc_store (drain_wg_loop turns src).
Proof.
  induction turns as [|turns IH]; cbn [drain_wg_loop]; [done|].
  apply keeps_seq; [apply (pool_take_keeps sc_store)|intros b]. intros e s. rewrite bind_run.
  set (s1 := (wg_decapsulate src [] (buf_data b) e s).2).
  assert (sc_store (st_ctx s1) = sc_store (st_ctx s)) as <- by done.
  destruct (wg_decapsulate src [] (buf_data b) e s).1 as [d sc] eqn:Hd. cbn beta iota. destruct d as [n|n|c|].
  - exfalso. change ((let '(_, d, sc) := decapsulate (sc_wg (st_ctx s))
       (env_ids e (st_tick s) ((map_to_list (sessions (sc_wg (st_ctx s)))).*1)) src []
       (buf_data b) in (d, sc)) = (Plaintext n, sc)) in Hd.
    unfold decapsulate in Hd. cbn [length Nat.eqb] in Hd.
    pose proof (drain_sessions_quiet (env_ids e (st_tick s) ((map_to_list (sessions (sc_wg (st_ctx s)))).*1))
                  (sessions (sc_wg (st_ctx s))) src (buf_data b) n) as Hq.
    destruct (drain_sessions _ _ _ _) as [[ss r] sc1]. by simplify_eq.
  - apply keeps_seq; [apply (send_raw_keeps sc_store)|intros _].
    apply keeps_seq; [apply (pool_recycle_keeps sc_store)|done].
  - apply (pool_recycle_keeps sc_store).
  - apply (pool_recycle_keeps sc_store).
Qed.

Lemma flush_queue_keeps dest x queue : keeps sc_store (flush_queue dest x queue).
Proof.
  induction queue as [|app queue IH]; cbn [flush_queue]; [done|].
  apply keeps_seq; [apply (pool_take_keeps sc_store)|intros b].
  apply keeps_seq; [apply (wg_encapsulate_to_keeps sc_store)|intros [[n|] o]].
  - destruct (is_initiation _).
    + apply keeps_seq; [apply (send_raw_keeps sc_store)|intros _].
      apply keeps_seq; [apply (pool_recycle_keeps sc_store)|done].
    + apply keeps_seq; [apply (send_raw_keeps sc_store)|intros _].
      apply keeps_seq; [apply (incr_keeps sc_store)|intros _].
      apply keeps_seq; [apply (pool_recycle_keeps sc_store)|done].
  - apply keeps_seq; [apply (pool_recycle_keeps sc_store)|done].
Qed.

Lemma flush_pending_wg_keeps dest : keeps sc_store (flush_pending_wg dest).
Proof.
  unfold flush_pending_wg. apply keeps_seq; [apply keeps_gets|intros [queue|]]; [|done].
  apply keeps_seq; [by apply keeps_modify|intros _]. apply keeps_seq; [apply keeps_gets|intros [x|]].
  - apply keeps_seq; [apply flush_queue_keeps|intros left]. apply keeps_when. apply (queue_pending_keeps sc_store).
  - apply keeps_for. intros app. apply (send_plain_keeps sc_store).
Qed.

Lemma after_request_keeps src : keeps sc_store (drain_wg_session src;; flush_pending_wg src).
Proof.
  apply keeps_seq; [|intros _; apply flush_pending_wg_keeps].
  unfold drain_wg_session. apply keeps_seq; [apply keeps_read|intros turns]. apply drain_wg_loop_keeps.
Qed.

(** The rate limit lets through a packet and then the request inside it. *)
Definition admitted_sealed (src : SocketAddr) (e : Env) (s : St) : Prop :=
  admitted src e s ∧ admitted src e (read env_ids e (pre_handshake src e s).2).2.

(** Whether a sender is let through depends on the rate limits and the clock alone. *)
Lemma admitted_view src e s s' :
  st_tick s' = st_tick s → sc_sybil (st_ctx s') = sc_sybil (st_ctx s) → admitted src e s → admitted src e s'.
Proof.
  intros Ht Hs. unfold admitted.
  change ((allow_pre_handshake (sc_sybil (st_ctx s)) src (env_now e (st_tick s))).2 = true →
          (allow_pre_handshake (sc_sybil (st_ctx s')) src (env_now e (st_tick s'))).2 = true).
  by rewrite Ht, Hs.
Qed.

Lemma sealed_arrives src pkt app i ss e s :
  reaches (sc_wg (st_ctx s)) i ss → orders_ok e → opens (tunn ss) i pkt (wrap_rpc app) →
  length app ≤ PMTU_FLOOR → admitted src e s →
  ∃ s1, arrives src pkt app e s s1 ∧ (admitted_sealed src e s → admitted src e s1) ∧
        ∀ dest x u j n, sealed_route dest x u j n (st_ctx s) → sealed_route dest x u j n (st_ctx s1).
Proof.
  intros Hs Hperm Ho Hl Hadm. destruct (sealed_datagram src pkt app i ss e s Hs Hperm Ho Hl Hadm) as (s1 & Hs1 & Heq).
  exists s1. split_and!.
  - split; [|apply Hs1..].
    exists true, (drain_wg_session src;; flush_pending_wg src).
    split_and!; [done|apply after_request_keeps|]. apply runs_seq; [exact _|apply drain_wg_session_ok|].
    intros _. apply flush_pending_wg_ok.
  - intros [_ Hadm2].
    eapply admitted_view; [..|exact Hadm2]; [apply (of_tick _ _ _ _ _ Hs1)|apply (of_sybil _ _ _ _ _ Hs1)].
  - intros dest x u j n. apply sealed_route_view; [apply (of_keeps _ _ _ _ _ Hs1 route_view)|].
    intros y Hy. destruct (of_wg _ _ _ _ _ Hs1) as (order & sc & ->). destruct Ho as [Hh _].
    by eapply decapsulate_lasts.
Qed.

(** A peer handed to the shard with its key gets a session. *)
Lemma inject_wg (rs_encode : list bytes → result (list bytes)) info x e s :
  pi_x25519 info = Some x →
  sc_wg (st_ctx (handle_cmd rs_encode (CmdInjectPeer info) e s).2) =
    (add_peer (sc_wg (st_ctx s)) x (Some (pi_id info)) (primary_addr info)).1.
Proof. intros Hx. cbn [handle_cmd]. rewrite Hx, !bind_run. by destruct (primary_addr info). Qed.
End receiving.

#[local] Existing Instance toy_crypto.

(** ** A tunnel without encryption

    It numbers its session as BoringTun does: the index it was made with shifted left by
    eight bits, and one for its first session.  It pairs with itself. *)
Definition wire_index (t : Z) : Z := (wrap 32 (Z.shiftl t 8) + 1)%Z.

#[local] Instance shift_tunn : TunnOps := {|
  Tunn := Z;
  Tunn_new _ _ _ idx := idx;
  Tunn_decapsulate t _ d sc :=
    if bool_decide (take 8 d = take 8 (toy_packet (wire_index t) []))
    then (t, WriteToTunnelV4 (length d - 8), write_at sc 0 (drop 8 d)) else (t, TunnErr, sc);
  Tunn_encapsulate t p out := (t, WriteToNetwork (8 + length p), write_at out 0 (toy_packet (wire_index t) p));
  Tunn_update_timers t out := (t, WriteToNetwork 8, write_at out 0 (toy_packet (wire_index t) []));
|}.

#[local] Existing Instance toy_keyed.
#[local] Existing Instance crc_ieee_inst.
#[local] Existing Instance wire_protobuf.

Lemma toy_packet_length i p : length (toy_packet i p) = 8 + length p.
Proof. unfold toy_packet. by rewrite !length_app, !le_bytes_length. Qed.

Lemma toy_packet_take i p q : take 8 (toy_packet i p) = take 8 (toy_packet i q).
Proof.
  unfold toy_packet. rewrite !(assoc_L (++)).
  by rewrite !take_app_length' by (by rewrite length_app, !le_bytes_length).
Qed.

Lemma toy_packet_drop i p : drop 8 (toy_packet i p) = p.
Proof.
  unfold toy_packet. by rewrite (assoc_L (++)), drop_app_length' by (by rewrite length_app, !le_bytes_length).
Qed.

Lemma wire_index_range t : in_u 32 (wire_index t).
Proof.
  unfold wire_index, wrap, in_u. rewrite Z.shiftl_mul_pow2 by lia.
  replace (2 ^ 32)%Z with (2 ^ 24 * 2 ^ 8)%Z by done. rewrite Zmult_mod_distr_r.
  pose proof (Z.mod_pos_bound t (2 ^ 24) ltac:(lia)). lia.
Qed.

Lemma toy_parse (i : Z) p : in_u 32 i → parse_wg_header (toy_packet i p) = Some (mkWgHeader WG_TYPE_DATA i).
Proof.
  intros Hi. unfold parse_wg_header. rewrite toy_packet_length.
  assert (8 + length p <? 8 = false) as -> by (apply Nat.ltb_ge; lia).
  unfold toy_packet, slice. change (4 - 0) with 4. change (8 - 4) with 4.
  rewrite drop_0, take_app_length' by (by rewrite le_bytes_length).
  rewrite drop_app_length' by (by rewrite le_bytes_length).
  rewrite take_app_length' by (by rewrite le_bytes_length).
  rewrite !le_val_le_bytes. change (256 ^ Z.of_nat 4)%Z with (2 ^ 32)%Z.
  unfold in_u in Hi. by rewrite (Z.mod_small i).
Qed.

Lemma toy_packet_split i d : take 8 d = take 8 (toy_packet i []) → d = toy_packet i (drop 8 d).
Proof.
  intros Ht. rewrite <-(take_drop 8 d) at 1. rewrite Ht. unfold toy_packet.
  rewrite !(assoc_L (++)), app_nil_r. f_equal.
Qed.

Lemma shift_opens (t : Z) p : opens (t : Tunn) (wire_index t) (toy_packet (wire_index t) p) p.
Proof.
  split_and!.
  - apply toy_parse, wire_index_range.
  - rewrite toy_packet_length. lia.
  - intros ip sc Hl. cbn [Tunn_decapsulate shift_tunn].
    rewrite bool_decide_eq_true_2 by apply toy_packet_take. eexists _, _. split.
    { rewrite toy_packet_length, Nat.add_comm, Nat.add_sub. done. }
    rewrite toy_packet_drop. unfold write_at. rewrite take_0. cbn [app]. apply take_app_length.
Qed.

#[local] Instance shift_pair : TunnPair.
Proof.
  refine {| linked t u i := (t : Z) = u ∧ wire_index u = i; answers t i := wire_index t = i |}.
  - intros t u i p out (-> & <-) _ Hl _. eexists _, _, _. split; [done|].
    unfold write_at. rewrite take_0. cbn [app]. rewrite take_app_length' by (by rewrite toy_packet_length).
    apply shift_opens.
  - done.
  - intros t u i ip d sc h Hl _ _. cbn [Tunn_decapsulate shift_tunn]. by case_bool_decide.
  - intros t i pkt ip sc Hne Hh. cbn [Tunn_decapsulate shift_tunn]. rewrite bool_decide_eq_false_2; [by eauto 10|].
    intros Ht%toy_packet_split. rewrite Ht, toy_parse in Hh by apply wire_index_range. apply Hne. by injection Hh.
  - intros t ip sc n. cbn [Tunn_decapsulate shift_tunn]. rewrite take_nil, bool_decide_eq_false_2; [done|].
    intros Heq. apply (f_equal length) in Heq. rewrite length_take, toy_packet_length in Heq. cbn in Heq. lia.
Defined.

(** Two shards with a session: the tunnels of both ends are filed under index 1 and known on
    the wire as 257; each has another session besides, under index 2. *)
Definition sample_x : arr 32 := arr_repeat (z2b 8) 32.

Definition sample_sealed_St : St :=
  (wg_add_peer (arr_repeat (z2b 9) 32) None (Some (toy_addr 6)) (sample_env 0)
    (wg_add_peer sample_x None (Some (toy_addr 5)) (sample_env 0)
      (St_new 0 sample_identity (mkNodeConfig (toy_addr 0) 1 [] false false false false) (toy_addr 0)
         (empty_dir 0) (false, false) 0)).2).2.

(** A peer at [addr] with that key is handed to a shard with the session. *)
Definition sample_linked (addr : SocketAddr) (s : St) : St :=
  (handle_cmd no_erasure (CmdInjectPeer (mkPeerInfo (sample_node 2) [addr] 0 (Some sample_x))) (sample_env 0) s).2.

Definition sample_sender_St : St := sample_linked (toy_addr 5) sample_sealed_St.

Definition tunnel_of (s : @Session toy_crypto shift_tunn) : Z := tunn s.

(** The sessions, by the index their tunnel was made with, are those of the sample. *)
Definition two_sessions (w : WgEngine) : bool :=
  bool_decide (tunnel_of <$> sessions w = {[1%Z := 1%Z; 2%Z := 2%Z]}).

(** Packets for index 257 come to the first, though none is filed under 257. *)
Lemma sample_session w :
  two_sessions w = true → ∃ s, reaches w 257 s ∧ sessions w !! 1%Z = Some s ∧ tunnel_of s = 1%Z.
Proof.
  intros Hw%bool_decide_eq_true.
  assert (∀ j, tunnel_of <$> sessions w !! j = ({[1%Z := 1%Z; 2%Z := 2%Z]} : gmap Z Z) !! j) as Hj.
  { intros j. by rewrite <-Hw, lookup_fmap. }
  pose proof (Hj 1%Z) as (s & Hs & Ht)%fmap_Some.
  exists s. split; [|by split]. exists 1%Z. split; [done|]. right. split.
  - pose proof (Hj 257%Z) as Hn. by destruct (sessions w !! 257%Z).
  - intros j s' Hne Hs'. specialize (Hj j). rewrite Hs' in Hj. cbn [fmap option_fmap option_map] in Hj.
    destruct (decide (j = 2%Z)) as [->|Hne2].
    + injection Hj as Hj. unfold tunnel_of in Hj. cbn [answers shift_pair]. rewrite Hj. vm_compute. discriminate.
    + by rewrite lookup_insert_ne, lookup_singleton_ne in Hj by done.
Qed.

Lemma sample_linked_sealed addr s (u : Tunn) n :
  sc_wg (st_ctx s) = sc_wg (st_ctx sample_sealed_St) → (Z.of_nat n < 2 ^ 24 - 3)%Z → (u : Z) = 1%Z →
  sealed_to sample_x u 257 n (sc_wg (st_ctx (sample_linked addr s))).
Proof.
  intros Hw Hn Hu. unfold sample_linked. rewrite (inject_wg _ _ sample_x), Hw by done. clear Hw.
  cbn [pi_id primary_addr pi_addrs head]. set (w := sc_wg (st_ctx sample_sealed_St)).
  assert (wg_inv w) as Hi.
  { apply (wg_inv_apply _ (WAdd (arr_repeat (z2b 9) 32) None (Some (toy_addr 6)))); [|vm_compute; reflexivity].
    apply (wg_inv_apply _ (WAdd sample_x None (Some (toy_addr 5)))); [|done].
    by apply (wg_inv_new (wg_secret sample_identity) 0). }
  assert (add_peer w sample_x (Some (sample_node 2)) (Some addr) = (w, 1%Z)) as ->.
  { unfold add_peer. by assert (by_x25519 w !! sample_x = Some 1%Z) as -> by (vm_compute; reflexivity). }
  cbn [fst]. split_and!; [done| |].
  - assert (next_local w = 3%Z) as -> by (vm_compute; reflexivity). lia.
  - destruct (sample_session w) as (ss & _ & Hs & Hts); [vm_compute; reflexivity|].
    exists 1%Z, ss. split_and!; [vm_compute; reflexivity|exact Hs|].
    unfold tunnel_of in Hts. split; [by rewrite Hts|]. by rewrite Hu.
Qed.

(** The sender with a request that waits. *)
Definition sample_waiting_St : St := (queue_pending (toy_addr 5) [bstr "ping"] (sample_env 0) sample_sender_St).2.

Lemma queued_requests_sent_witness :
  let f := (flush_pending_wg (toy_addr 5) (sample_env 0) sample_waiting_St).2 in
  queue_of (toy_addr 5) sample_waiting_St = [bstr "ping"] ∧ queue_of (toy_addr 5) f = [] ∧
  ∃ pkts, st_out f = st_out sample_waiting_St ++ (OutWg (toy_addr 5) <$> pkts) ∧
    Forall2 (λ pkt app, opens (Tunn_new (wg_secret sample_identity) sample_x 20 1) 257 pkt (wrap_rpc app)) pkts
      (queue_of (toy_addr 5) sample_waiting_St).
Proof.
  intros f. assert (queue_of (toy_addr 5) sample_waiting_St = [bstr "ping"]) as Hq by (vm_compute; reflexivity).
  split; [exact Hq|].
  assert (sc_keys (st_ctx sample_waiting_St) !! toy_addr 5 = Some sample_x) as Hk by (vm_compute; reflexivity).
  assert (sealed_to sample_x (Tunn_new (wg_secret sample_identity) sample_x 20 1) 257
            (length (queue_of (toy_addr 5) sample_waiting_St) + 0) (sc_wg (st_ctx sample_waiting_St))) as Hs.
  { rewrite Hq. unfold sample_waiting_St, sample_sender_St. rewrite queue_pending_wg. by apply sample_linked_sealed. }
  assert (Forall (λ a, length a ≤ PMTU_FLOOR) (queue_of (toy_addr 5) sample_waiting_St)) as Hfit.
  { rewrite Hq. constructor; [apply Nat.leb_le; vm_compute; reflexivity|constructor]. }
  destruct (queued_requests_sent (toy_addr 5) sample_x (bstr "ping") (sample_env 0) sample_waiting_St) as (_ & _ & Hf).
  destruct (Hf Hk) as [_ Hsent]. exact (Hsent _ _ 0 Hs Hfit).
Defined.
