(* ===== verification/Replica.v ===== *)
(** * Replication from one shard to another

    What a put sends to the closest peers, and what a shard that receives it holds: the two
    ends of the STORE exchange of [src/shard.rs] put together, over any channel, then in the
    clear and encrypted. *)

From S2P Require Import Prelude Bytes Types Proto Codec Routing Crypto Net Peerstore Store Pool Lookup Wg Relay EventLoop Metrics Sybil Erasure ShardState Shard ShardInv ShardThms ShardReplies ShardStore Channel Secure.

Section replica.
Context `{TunnOps} `{KeyedHash} `{Protobuf} `{Crc32}.

(** ** What is sent *)

Definition store_message (rec : StoredRecord) : proto.StoreReq :=
  {| proto.sq_record := StoredRecord_encode rec; proto.sq_admission_token := []; proto.sq_cost_stamp := [] |}.

(** The datagram of a STORE request. *)
Definition store_datagram (corr : Z) (rec : StoredRecord) : bytes :=
  header_bytes (Header_request StoreReq Coordination corr) ++ encode_to_vec (store_message rec).

(** The record is the message of at most one datagram. *)
Definition one_datagram (rec : StoredRecord) : Prop :=
  HEADER_LEN + length (encode_to_vec (store_message rec)) ≤ PMTU_FLOOR.

(** One turn of the loop of [send_store_rpc]. *)
Definition store_turn (rec : StoredRecord) (p : PeerInfo) : M unit :=
  match primary_addr p with
  | Some dest =>
      corr ← next_corr;
      encoded (Header_request StoreReq Coordination corr) (store_message rec) tt (send_app dest (pi_x25519 p))
  | None => mret tt
  end.

Lemma store_turn_ok rec p : runs low_step (store_turn rec p) (λ _, True).
Proof.
  unfold store_turn. destruct (primary_addr p); [|by apply runs_ret].
  apply runs_seq; [exact _|apply (next_corr_ok low_step)|intros corr].
  apply (encoded_ok low_step); [split; [reflexivity|cbn; constructor]|].
  intros app Ha. by apply (send_app_ok low_step).
Qed.

Lemma send_store_eq rec e s :
  send_store_rpc rec e s = for_ (closest (sc_table (st_ctx s)) (key rec) K_DEFAULT) (store_turn rec) e s.
Proof. done. Qed.

Lemma store_turn_spends {dest x} (C : Channel dest x) rec p : spends C 1 (store_turn rec p).
Proof.
  unfold store_turn. destruct (primary_addr p); [|by apply spends_free].
  apply (spends_seq C 0 1); [apply next_corr_spends|intros corr].
  apply spends_encoded. intros app. apply spends_send.
Qed.

Lemma send_store_carried {dest} rec p (C : Channel dest (pi_x25519 p)) e s :
  queues_sendable s → p ∈ closest (sc_table (st_ctx s)) (key rec) K_DEFAULT →
  primary_addr p = Some dest → ready C K_DEFAULT (st_ctx s) → one_datagram rec →
  ∃ corr o, carries C (store_datagram corr rec) o ∧ o ∈ st_out (send_store_rpc rec e s).2.
Proof.
  intros Hq Hin Hp Hr Hfit. rewrite send_store_eq. set (ps := closest _ _ _) in *.
  destruct (for_out ps (store_turn rec) p (λ o, ∃ corr, carries C (store_datagram corr rec) o)
              (λ n s', ready C n (st_ctx s')) e s)
    as (o & (corr & Ho) & Hout); [apply store_turn_ok|done..| | | |by exists corr, o].
  - eapply ready_less; [apply closest_length|done].
  - intros q n s'. apply (store_turn_spends C rec q n).
  - intros n s' _ Hr'. unfold store_turn. rewrite Hp, bind_run.
    destruct (encoded_carried C (Header_request StoreReq Coordination (next_corr e s').1) (store_message rec) n e
                (next_corr e s').2 Hfit) as (o & Ho & Hout); [by apply (ready_view _ _ C _ (st_ctx s'))|].
    exists o. split; [by eexists|done].
Qed.

(** ** What the receiver keeps *)

Lemma respond_keeps {T} `{Message T} ty q src h (m : T) : keeps sc_store (respond ty q src h m).
Proof. apply (encoded_keeps sc_store). intros app. apply (send_app_keeps sc_store). Qed.

Lemma handle_app_store corr rec src au e s :
  ∃ h, is_probe h = false ∧ Header_decode (store_datagram corr rec) = Some h ∧
    handle_app src (store_datagram corr rec) au e s = on_store src h (store_datagram corr rec) e s.
Proof.
  destruct (Header_decode_type (Header_request StoreReq Coordination corr) (encode_to_vec (store_message rec))
              eq_refl) as (h & Hd & Hty & Hf).
  fold (store_datagram corr rec) in Hd. exists h. split_and!; [unfold is_probe; by rewrite Hf|done|].
  unfold handle_app. destruct (length (store_datagram corr rec)); cbn [handle_app_fuel]; by rewrite Hd, Hty.
Qed.

Lemma decode_store_datagram corr rec :
  decode_body proto.StoreReq (store_datagram corr rec) = Some (store_message rec).
Proof.
  unfold decode_body, store_datagram. rewrite length_app, header_bytes_length.
  rewrite (proj2 (Nat.ltb_ge _ _)) by lia. rewrite drop_app_length' by (by rewrite header_bytes_length).
  by apply decode_encode_msg.
Qed.

Lemma put_record_immutable st now v ttl :
  (Z.of_nat (length v) ≤ 64 * 1024)%Z →
  let rec := immutable_record now v ttl in
  put_record st rec false = (insert_record (queue_record st rec) rec, Ok tt).
Proof.
  intros Hl rec. unfold put_record, put_record_check. cbn [rec immutable_record value signature kind key].
  rewrite (proj2 (Z.ltb_ge _ _)) by (cbn; lia). cbn. by rewrite bool_decide_eq_true_2.
Qed.

(** An authentic immutable record is stored under its key. *)
Lemma on_store_received corr now v ttl src h e s :
  is_probe h = false → wire_ok (immutable_record now v ttl) → (Z.of_nat (length v) ≤ 64 * 1024)%Z →
  admitted src e s →
  ∃ n, records (sc_store (st_ctx (on_store src h (store_datagram corr (immutable_record now v ttl)) e s).2))
         !! hash_value v = Some (immutable_record (env_unix e n) v ttl).
Proof.
  intros Hp [Hwf Httl] Hlen Hadm.
  unfold on_store. rewrite decode_store_datagram. unfold admitted in Hadm.
  unfold mbind at 1, M_bind at 1. destruct (pre_handshake src e s) as [ok s1]. cbn [fst] in Hadm. subst ok.
  cbn [negb]. exists (st_tick s1). set (rec := immutable_record (env_unix e (st_tick s1)) v ttl).
  set (s2 := (modify (set_store (insert_record (queue_record (sc_store (st_ctx s1)) rec) rec)) e
                (now_unix e s1).2).2).
  assert (store_request h (store_message (immutable_record now v ttl)) e s1 =
          (incr MStoreOk;; mret (STORE_OK, ""%string)) e s2) as Hreq.
  { unfold store_request. cbn [proto.sq_record store_message].
    unfold StoredRecord_encode. rewrite decode_encode_msg by done.
    unfold mbind at 1, M_bind at 1. unfold now_unix, read. cbn beta iota.
    rewrite record_from_to_proto by done.
    change (restamp (env_unix e (st_tick s1)) (immutable_record now v ttl)) with rec. rewrite Hp.
    unfold gets, mbind at 1, M_bind at 1. cbn beta iota.
    unfold modify at 1, mbind at 1, M_bind at 1. cbn beta iota. cbn [st_ctx].
    unfold rec. by rewrite !put_record_immutable. }
  unfold mbind at 1, M_bind at 1. rewrite Hreq.
  unfold mbind at 1, M_bind at 1, mret at 1, M_ret at 1.
  pose proof (incr_keeps sc_store MStoreOk e s2) as Hk. destruct (incr MStoreOk e s2) as [[] s3].
  cbn beta iota. rewrite (respond_keeps _ _ _ _ _ e s3). cbn [snd] in Hk. rewrite Hk. apply lookup_insert_eq.
Qed.

Lemma store_received corr now v ttl src pkt e s s1 :
  let rec := immutable_record now v ttl in
  arrives src pkt (store_datagram corr rec) e s s1 → admitted src e s1 →
  wire_ok rec → (Z.of_nat (length v) ≤ 64 * 1024)%Z →
  ∃ n, records (sc_store (st_ctx (handle_datagram src pkt e s).2)) !! hash_value v =
       Some (immutable_record (env_unix e n) v ttl).
Proof.
  intros rec Ha Hadm Hw Hlen.
  apply (arrives_store _ _ _ _ _ _ (λ st, ∃ n, records st !! _ = Some (immutable_record (env_unix e n) v ttl)) Ha).
  intros au. destruct (handle_app_store corr rec src au e s1) as (h & Hp & _ & ->). by apply on_store_received.
Qed.

Lemma store_datagram_header corr rec : ∃ h, Header_decode (store_datagram corr rec) = Some h.
Proof.
  destruct (Header_decode_type (Header_request StoreReq Coordination corr) (encode_to_vec (store_message rec))
              eq_refl) as (h & Hd & _). by exists h.
Qed.

Lemma store_datagram_fits corr rec : one_datagram rec → length (store_datagram corr rec) ≤ PMTU_FLOOR.
Proof. intros Hfit. unfold store_datagram. by rewrite length_app, header_bytes_length. Qed.

(** ** From one shard to the other *)

Context (rs_encode : list bytes → result (list bytes)).

Lemma immutable_wire_ok now v ttl : (0 < ttl)%Z → in_u 64 ttl → wire_ok (immutable_record now v ttl).
Proof.
  unfold in_u. intros Hp Ht. split; [|cbn; lia]. unfold msg_wf, Record_wf, in_u. cbn -[Z.pow].
  unfold KIND_IMMUTABLE. lia.
Qed.

(** The state in which a put sends its STORE requests, and what it sends them. *)
Definition put_stored (v : bytes) (ttl : Z) (e : Env) (s : St) : St :=
  (now_unix e (incr MStoreOk e (stored_at (immutable_record (env_unix e (st_tick s)) v ttl) e s)).2).2.

Lemma put_out v ttl tx e s :
  (Z.of_nat (length v) ≤ 64 * Z.of_nat PMTU_FLOOR)%Z →
  ∃ now, st_out (handle_cmd rs_encode (CmdPut v ttl tx) e s).2 =
         st_out (send_store_rpc (immutable_record now v ttl) e (put_stored v ttl e s)).2.
Proof.
  intros Hlen. rewrite put_eq by done.
  set (s1 := stored_at _ e s). set (now := env_unix e (st_tick (incr MStoreOk e s1).2)).
  exists now. rewrite bind_run.
  by change ((incr MStoreOk;; replicate_store v (hash_value v) ttl) e s1) with
    (send_store_rpc (immutable_record now v ttl) e (put_stored v ttl e s)).
Qed.

Lemma put_carried {dest} v ttl tx p (C : Channel dest (pi_x25519 p)) e s :
  queues_sendable s → (Z.of_nat (length v) ≤ 64 * 1024)%Z →
  p ∈ closest (sc_table (st_ctx s)) (hash_value v) K_DEFAULT → primary_addr p = Some dest →
  ready C K_DEFAULT (st_ctx s) → one_datagram (immutable_record 0 v ttl) →
  ∃ corr o, carries C (store_datagram corr (immutable_record 0 v ttl)) o ∧
            o ∈ st_out (handle_cmd rs_encode (CmdPut v ttl tx) e s).2.
Proof.
  intros Hq Hlen Hin Hp Hr Hfit. destruct (put_out v ttl tx e s) as [now ->].
  { etrans; [exact Hlen|]. by apply Z.leb_le. }
  apply (send_store_carried (immutable_record now v ttl) p C e (put_stored v ttl e s)); [done..| |done].
  by apply (ready_view _ _ C _ (st_ctx s)).
Qed.

(** What the receiver of the request holds, until its time is up. *)
Lemma store_held corr now v ttl t src pkt e s s1 :
  let rec := immutable_record now v ttl in
  arrives src pkt (store_datagram corr rec) e s s1 → admitted src e s1 →
  (Z.of_nat (length v) ≤ 64 * 1024)%Z → (0 < ttl)%Z → in_u 64 ttl → (∀ n, t ≤ env_unix e n + ttl)%Z →
  ∃ now', holds (hash_value v) (immutable_record now' v ttl) t (sc_store (st_ctx (handle_datagram src pkt e s).2)).
Proof.
  intros rec Ha Hadm Hlen Hpos Httl Ht.
  destruct (store_received corr now v ttl src pkt e s s1) as [n Hrec]; [done|done|by apply immutable_wire_ok|done|].
  exists (env_unix e n). split; [done|]. unfold expired, sat_sub. cbn. apply Z.ltb_ge. specialize (Ht n). lia.
Qed.

(** The receiver of the request answers a get for the value. *)
Lemma put_received corr now v ttl t txB src pkt eB eG sB sB' :
  let rec := immutable_record now v ttl in
  queues_sendable sB → arrives src pkt (store_datagram corr rec) eB sB sB' → admitted src eB sB' →
  (Z.of_nat (length v) ≤ 64 * 1024)%Z → (0 < ttl)%Z → in_u 64 ttl →
  (∀ n, t ≤ env_unix eB n + ttl)%Z → clock_until t eG →
  let sB1 := (handle_datagram src pkt eB sB).2 in
  ∃ rec', value rec' = v ∧ holds (hash_value v) rec' t (sc_store (st_ctx sB1)) ∧
    st_answers (handle_cmd rs_encode (CmdGet (hash_value v) txB) eG sB1).2 =
      st_answers sB1 ++ [(txB, RRecord (Some rec'))].
Proof.
  intros rec Hq Ha Hadm Hlen Hpos Httl Ht Hc sB1.
  destruct (store_held corr now v ttl t src pkt eB sB sB') as [n Hh]; [done..|].
  exists (immutable_record n v ttl).
  split_and!; [done|done|]. apply (get_held rs_encode (hash_value v) txB _ t eG sB1); [|done..].
  destruct (handle_datagram_ok src pkt eB sB Hq) as [Hs _]. by eapply (steps_rtc_queues shard_step).
Qed.

(** A put is replicated.  For every one of the closest peers that shard A knows and
    reaches directly without encryption, handling a put of a value whose STORE request fits
    one datagram sends that peer a datagram; a shard B that receives it from anywhere, and
    whose rate limit lets the sender through, then holds the value under its hash for its
    time to live and answers a get for it with it. *)
Theorem put_replicates (sA sB : St) (eA eB eG : Env) (v : bytes) (ttl t : Z) (tx txB : Sender)
    (p : PeerInfo) (dest src : SocketAddr) :
  let k := hash_value v in
  queues_sendable sA → queues_sendable sB →
  p ∈ closest (sc_table (st_ctx sA)) k K_DEFAULT → primary_addr p = Some dest →
  plaintext (sc_cfg (st_ctx sA)) = true → direct (st_ctx sA) dest →
  one_datagram (immutable_record 0 v ttl) → (Z.of_nat (length v) ≤ 64 * 1024)%Z →
  (0 < ttl)%Z → in_u 64 ttl →
  admitted src eB sB → (∀ n, t ≤ env_unix eB n + ttl)%Z → clock_until t eG →
  ∃ app rec, OutPlain dest app ∈ st_out (handle_cmd rs_encode (CmdPut v ttl tx) eA sA).2 ∧
    let sB1 := (handle_datagram src app eB sB).2 in
    value rec = v ∧ holds k rec t (sc_store (st_ctx sB1)) ∧
    st_answers (handle_cmd rs_encode (CmdGet k txB) eG sB1).2 =
      st_answers sB1 ++ [(txB, RRecord (Some rec))].
Proof.
  intros k HqA HqB Hin Hp Hpl Hd Hfit Hlen Hpos Httl Hadm Ht Hc.
  destruct (put_carried v ttl tx p (clear_channel dest (pi_x25519 p)) eA sA) as (corr & o & -> & Hout); [done..|].
  destruct (store_datagram_header corr (immutable_record 0 v ttl)) as [h Hh].
  destruct (put_received corr 0 v ttl t txB src _ eB eG sB sB HqB (clear_arrives src _ h eB sB Hh))
    as (rec & Hrec); [done..|]. eauto.
Qed.

(** C7: a put is replicated over encrypted sessions as it is in the clear.  Shard A sends
    its requests encrypted, reaches a peer among the closest directly, and has an established
    session for its key; shard B has the other end, known to A under some receiver index,
    and its engine comes to that session with a packet for that index: no session of B is
    filed under the index, so that the loop tries them all, and no other has handed it out
    (or the session is filed under the index itself).  Then A's put of a value whose STORE
    request fits one datagram sends the peer a WireGuard packet, and when B receives it, from
    any address its rate limit lets through, B holds the value under its hash for its time to
    live and answers a get for it. *)
Theorem put_replicates_sealed `{!TunnPair} (sA sB : St) (eA eB eG : Env) (v : bytes) (ttl t : Z) (tx txB : Sender)
    (p : PeerInfo) (dest src : SocketAddr) (x : arr 32) (i : Z) (ss : Session) :
  let k := hash_value v in
  queues_sendable sA → queues_sendable sB →
  p ∈ closest (sc_table (st_ctx sA)) k K_DEFAULT → primary_addr p = Some dest → pi_x25519 p = Some x →
  plaintext (sc_cfg (st_ctx sA)) = false → direct (st_ctx sA) dest →
  sealed_to x (tunn ss) i (2 * K_DEFAULT) (sc_wg (st_ctx sA)) →
  reaches (sc_wg (st_ctx sB)) i ss → orders_ok eB →
  one_datagram (immutable_record 0 v ttl) → (Z.of_nat (length v) ≤ 64 * 1024)%Z →
  (0 < ttl)%Z → in_u 64 ttl →
  admitted_sealed src eB sB → (∀ n, t ≤ env_unix eB n + ttl)%Z → clock_until t eG →
  ∃ pkt rec, OutWg dest pkt ∈ st_out (handle_cmd rs_encode (CmdPut v ttl tx) eA sA).2 ∧
    looks_like_wg pkt = true ∧
    let sB1 := (handle_datagram src pkt eB sB).2 in
    value rec = v ∧ holds k rec t (sc_store (st_ctx sB1)) ∧
    st_answers (handle_cmd rs_encode (CmdGet k txB) eG sB1).2 =
      st_answers sB1 ++ [(txB, RRecord (Some rec))].
Proof.
  intros k HqA HqB Hin Hd Hx Hp Hdir Hsl Hss Hord Hfit Hlen Hpos Httl Hadm Ht Hc.
  destruct (put_carried v ttl tx p (sealed_channel dest (pi_x25519 p) (tunn ss) i) eA sA)
    as (corr & o & (pkt & -> & Ho) & Hout); [done..| |done|].
  { split; [done..|]. exists x. by rewrite Hx. }
  destruct (sealed_arrives src pkt _ i ss eB sB Hss Hord Ho) as (sB' & Ha & Hadm' & _).
  { by apply store_datagram_fits. }
  { by destruct Hadm. }
  destruct (put_received corr 0 v ttl t txB src pkt eB eG sB sB' HqB Ha (Hadm' Hadm)) as (rec & Hrec); [done..|].
  exists pkt, rec. split_and!; [done|by eapply opens_wg|done].
Qed.

(** ** Values that do not fit a datagram *)

Lemma encoded_too_large {T} `{Message T} h (m : T) k e s :
  PMTU_FLOOR < HEADER_LEN + length (encode_to_vec m) →
  st_out (encoded h m tt k e s).2 = st_out s.
Proof.
  intros Hl. unfold encoded. unfold mbind at 1, M_bind at 1.
  assert (st_out (pool_take e s).2 = st_out s) as Ho by done.
  destruct (pool_take e s) as [buf s1]. cbn [snd] in Ho.
  destruct (encode_message h m (buf_data buf)) as [out [n|]] eqn:E; [|exact Ho].
  apply encode_message_Some in E as [? _]. lia.
Qed.

Lemma for_no_out {A} (l : list A) (k : A → M unit) e s :
  (∀ a s, st_out (k a e s).2 = st_out s) → st_out (for_ l k e s).2 = st_out s.
Proof.
  intros Hk. revert s. induction l as [|a l IH]; intros s; [done|]. cbn [for_]. unfold mbind, M_bind.
  rewrite <-(Hk a s). destruct (k a e s) as [[] s1]. apply IH.
Qed.

(** A put whose STORE request does not fit one datagram is answered like any other, and
    sent to nobody. *)
Lemma large_put_not_replicated v ttl tx e s :
  queues_sendable s → (Z.of_nat (length v) ≤ 64 * Z.of_nat PMTU_FLOOR)%Z →
  ¬ one_datagram (immutable_record 0 v ttl) →
  let s' := (handle_cmd rs_encode (CmdPut v ttl tx) e s).2 in
  st_answers s' = st_answers s ++ [(tx, RKey (hash_value v))] ∧ st_out s' = st_out s.
Proof.
  intros Hq Hlen Hlarge s'. subst s'. split.
  - rewrite put_eq by done. set (s1 := stored_at _ e s).
    apply (answer_last (incr MStoreOk;; replicate_store v (hash_value v) ttl) tx _ e s1); [| |exact Hq].
    + apply runs_seq; [exact _|apply incr_ok, low_Steps|intros _; apply (replicate_store_ok low_step)].
    + apply keeps_seq; [apply (incr_keeps sc_store)|intros _; apply (replicate_store_keeps sc_store)].
  - destruct (put_out v ttl tx e s Hlen) as [now ->]. rewrite send_store_eq, for_no_out; [done|].
    intros p s1. unfold store_turn. destruct (primary_addr p); [|done]. rewrite bind_run.
    change (st_out s1) with (st_out (next_corr e s1).2). apply encoded_too_large. by apply Nat.lt_nge.
Qed.
End replica.

#[local] Existing Instance toy_crypto.
#[local] Existing Instance toy_tunn.
#[local] Existing Instance toy_keyed.
#[local] Existing Instance crc_ieee_inst.
#[local] Existing Instance wire_protobuf.

(** A shard that knows one peer. *)
Definition sample_peer_St : St :=
  (handle_cmd no_erasure (CmdInjectPeer (PeerInfo_new (sample_node 2) (toy_addr 5))) (sample_env 0) sample_St).2.

Lemma no_queues_sendable `{TunnOps} (s : St) : sc_pending_wg (st_ctx s) = ∅ → queues_sendable s.
Proof. unfold queues_sendable. intros ->. apply map_Forall_empty. Qed.

Lemma put_replicates_witness :
  let v := bstr "v" in
  let e := sample_env 0 in
  length (closest (sc_table (st_ctx sample_peer_St)) (hash_value v) K_DEFAULT) = 1 ∧
  ∃ app rec, OutPlain (toy_addr 5) app ∈ st_out (handle_cmd no_erasure (CmdPut v 60 7) e sample_peer_St).2 ∧
    let sB1 := (handle_datagram (toy_addr 3) app e sample_St).2 in
    value rec = v ∧ holds (hash_value v) rec 1060 (sc_store (st_ctx sB1)) ∧
    st_answers (handle_cmd no_erasure (CmdGet (hash_value v) 8) e sB1).2 =
      st_answers sB1 ++ [(8, RRecord (Some rec))].
Proof.
  intros v e. split; [vm_compute; reflexivity|].
  apply (put_replicates no_erasure sample_peer_St sample_St e e e v 60 1060 7 8
           (PeerInfo_new (sample_node 2) (toy_addr 5)) (toy_addr 5) (toy_addr 3)).
  - apply no_queues_sendable. apply (bool_decide_unpack _). vm_compute. exact I.
  - apply no_queues_sendable. apply (bool_decide_unpack _). vm_compute. exact I.
  - apply (list_elem_of_lookup_2 _ 0). vm_compute. reflexivity.
  - reflexivity.
  - vm_compute. reflexivity.
  - vm_compute. reflexivity.
  - apply Nat.leb_le. vm_compute. reflexivity.
  - vm_compute. discriminate.
  - lia.
  - unfold in_u. lia.
  - vm_compute. reflexivity.
  - intros n. cbn. lia.
  - intros n. cbn. lia.
Defined.

(** Over tunnels that number their sessions as BoringTun does, with a second peer. *)
Section sealed_example.
#[local] Existing Instance shift_tunn.
#[local] Existing Instance shift_pair.

Lemma put_replicates_sealed_witness :
  let v := bstr "v" in
  let e := sample_env 0 in
  ∃ pkt rec, OutWg (toy_addr 5) pkt ∈ st_out (handle_cmd no_erasure (CmdPut v 60 7) e sample_sender_St).2 ∧
    looks_like_wg pkt = true ∧
    let sB1 := (handle_datagram (toy_addr 3) pkt e sample_sealed_St).2 in
    value rec = v ∧ holds (hash_value v) rec 1060 (sc_store (st_ctx sB1)) ∧
    st_answers (handle_cmd no_erasure (CmdGet (hash_value v) 8) e sB1).2 =
      st_answers sB1 ++ [(8, RRecord (Some rec))].
Proof.
  intros v e. destruct (sample_session (sc_wg (st_ctx sample_sealed_St))) as (ss & Hss & _ & Ht); [vm_compute; reflexivity|].
  apply (put_replicates_sealed no_erasure sample_sender_St sample_sealed_St e e e v 60 1060 7 8
           (mkPeerInfo (sample_node 2) [toy_addr 5] 0 (Some sample_x)) (toy_addr 5) (toy_addr 3) sample_x 257 ss).
  - apply no_queues_sendable. apply (bool_decide_unpack _). vm_compute. exact I.
  - apply no_queues_sendable. apply (bool_decide_unpack _). vm_compute. exact I.
  - apply (list_elem_of_lookup_2 _ 0). vm_compute. reflexivity.
  - reflexivity.
  - reflexivity.
  - vm_compute. reflexivity.
  - vm_compute. reflexivity.
  - by apply sample_linked_sealed; [done|apply Z.ltb_lt; vm_compute; reflexivity|].
  - exact Hss.
  - intros n l. reflexivity.
  - apply Nat.leb_le. vm_compute. reflexivity.
  - vm_compute. discriminate.
  - lia.
  - unfold in_u. lia.
  - split; vm_compute; reflexivity.
  - intros n. cbn. lia.
  - intros n. cbn. lia.
Defined.
End sealed_example.
