(* ===== verification/Fetch.v ===== *)
(** * A value fetched from another shard

    The FIND_VALUE exchange of [src/shard.rs] from one end to the other: what a get asks of
    the closest peers, what a shard that holds the record answers, and how that answer ends
    the lookup. *)

From S2P Require Import Prelude Bytes Types Proto Codec Routing Crypto Net Peerstore Store Pool Lookup Wg Relay EventLoop Metrics Sybil Erasure ShardState Shard ShardInv ShardThms ShardReplies ShardStore Channel Secure Replica.

(** ** The requests of a lookup *)

Lemma try_push_keeps {A} n (l : list A) a x : x ∈ l → x ∈ try_push n l a.
Proof. intros Hx. unfold try_push. destruct (_ <? _); [|done]. apply elem_of_app. by left. Qed.

Lemma filter_all {A} (P : A → Prop) `{!∀ x, Decision (P x)} l : Forall P l → filter P l = l.
Proof. induction 1 as [|x l Hx _ IH]; [done|]. rewrite filter_cons_True by done. by rewrite IH. Qed.

Lemma send_batch_flight b l f : f ∈ in_flight l → f ∈ in_flight (send_batch l b).
Proof.
  unfold send_batch. revert l. induction b as [|[p [[c t]|]] b IH]; intros l Hf; cbn [foldl]; [done|..]; apply IH.
  - by apply try_push_keeps.
  - done.
Qed.

Lemma send_one_facts l po :
  lk_kind (send_one l po) = lk_kind l ∧ target (send_one l po) = target l ∧
  probe_targets (send_one l po) = probe_targets l ∧
  length (in_flight (send_one l po)) ≤ S (length (in_flight l)).
Proof.
  destruct po as [p [[c t]|]]; cbn; [|by split_and!; [..|lia]]. split_and!; [done..|].
  unfold try_push. destruct (_ <? _); rewrite ?length_app; cbn; lia.
Qed.

Lemma send_batch_facts b l : lk_kind (send_batch l b) = lk_kind l ∧ target (send_batch l b) = target l.
Proof.
  unfold send_batch. revert l. induction b as [|po b IH]; intros l; [done|]. cbn [foldl].
  destruct (IH (send_one l po)) as [-> ->], (send_one_facts l po) as (-> & -> & _ & _). done.
Qed.

Lemma probes_two k : length (neighbor_probes k) ≤ 2.
Proof. done. Qed.

Section fetch.
Context `{TunnOps} `{KeyedHash} `{Protobuf} `{Crc32}.

Definition find_value_message (k : Key) : proto.FindValueReq := proto.mkFindValueReq (vec_to_list (kid k)) 16.

(** The datagram of a FIND_VALUE request. *)
Definition find_value_datagram (corr : Z) (k : Key) : bytes :=
  datagram (Header_request FindValueReq Coordination corr) (find_value_message k).

Definition request_fits (k : Key) : Prop := HEADER_LEN + length (encode_to_vec (find_value_message k)) ≤ PMTU_FLOOR.

(** Correlation numbers are 32 bits wide. *)
Definition corr_ok (s : St) : Prop := (1 ≤ sc_next_corr (st_ctx s) < 2 ^ 32)%Z.

Lemma low_step_corr s s' : low_step s s' → corr_ok s → corr_ok s'.
Proof.
  destruct 1 as [|c Hc| |]; try done. unfold corr_ok. destruct Hc; try done. apply bump_corr_range.
Qed.

Lemma low_steps_corr s s' : rtc low_step s s' → corr_ok s → corr_ok s'.
Proof. induction 1; eauto using low_step_corr. Qed.

(** Asking does not change what else is probed. *)
Lemma encoded_probes {T} `{Message T} h (m : T) l dest x id corr e s :
  probe_targets (encoded h m l
    (λ app, send_app dest x app;; now ← now_instant; mret (note_sent l id corr now)) e s).1 = probe_targets l.
Proof.
  unfold encoded. rewrite bind_run. destruct (encode_message _ _ _) as [out [k|]]; by rewrite !bind_run.
Qed.

Lemma send_probe_spends {dest x} (C : Channel dest x) p dest' k : spends C 1 (send_probe p dest' k).
Proof.
  unfold send_probe. apply (spends_seq C 0 1); [apply next_corr_spends|intros corr].
  apply spends_encoded. intros app. apply spends_send.
Qed.

(** One request and the probes. *)
Lemma dispatch_one_spends {dest x} (C : Channel dest x) l p :
  length (probe_targets l) ≤ 2 → spends C 3 (dispatch_one l p).
Proof.
  intros Hl. unfold dispatch_one. apply (spends_seq C 0 3); [apply next_corr_spends|intros corr].
  destruct (primary_addr p) as [d|]; [|by apply spends_free]. cbv zeta. 
  set (sent := λ app : bytes, send_app d (pi_x25519 p) app;; now ← now_instant; mret (note_sent l (pi_id p) corr now)).
  assert (∀ app, spends C 1 (sent app)) as Hsent.
  { intros app. apply (spends_seq C 1 0); [apply spends_send|intros _; by apply spends_free]. }
  assert (∀ l', length (probe_targets l') ≤ 2 → spends C 2
            (match privacy l' with PrivacyBlind => for_ (probe_targets l') (send_probe p d) | _ => mret tt end;;
             mret l')) as Hprobes.
  { intros l' Hl'. apply (spends_seq C 2 0); [|intros _; by apply spends_free].
    destruct (privacy l'); try by apply spends_free.
    apply (spends_weaken C (length (probe_targets l') * 1)); [lia|]. apply spends_for. intros k. apply send_probe_spends. }
  intros n e s Hr. rewrite bind_run. destruct (lk_kind l); apply Hprobes;
    try (unfold sent; by rewrite encoded_probes); by apply (spends_encoded C _ _ _ _ 1).
Qed.

Lemma probes_ok (l : Lookup) p dest :
  runs low_step (match privacy l with
                 | PrivacyBlind => for_ (probe_targets l) (send_probe p dest)
                 | _ => mret tt
                 end) (λ _, True).
Proof.
  destruct (privacy l); try by apply (runs_ret low_step).
  apply (runs_for_all low_step). intros k. apply (send_probe_ok low_step).
Qed.

Lemma datagram_sendable {T} `{Message T} h (m : T) :
  proper h m → HEADER_LEN + length (encode_to_vec m) ≤ PMTU_FLOOR → sendable (datagram h m).
Proof.
  intros [Hv Hs] Hl. split; [by unfold datagram; rewrite length_app, header_bytes_length|].
  by exists h, (encode_to_vec m).
Qed.

(** One peer is asked: the request goes out, and the lookup waits for its answer. *)
Lemma dispatch_one_asks l p dest (C : Channel dest (pi_x25519 p)) n k e s :
  queues_sendable s → corr_ok s → lk_kind l = FindValue → target l = k → request_fits k →
  primary_addr p = Some dest → ready C (S n) (st_ctx s) → length (in_flight l) < 8 →
  ∃ corr t o, in_u 32 corr ∧ mkInFlight (pi_id p) corr t ∈ in_flight (dispatch_one l p e s).1 ∧
              carries C (find_value_datagram corr k) o ∧ o ∈ st_out (dispatch_one l p e s).2.
Proof.
  intros Hq Hc Hk <- Hfit Hp Hr Hlen. unfold dispatch_one. rewrite bind_run, Hp, Hk, !bind_run. cbn [fst snd mret M_ret].
  set (corr := sc_next_corr (st_ctx s)). set (s1 := (next_corr e s).2).
  change (next_corr e s).1 with corr.
  match goal with |- context [encoded ?h ?m ?d ?sent e s1] =>
    destruct (encoded_eq h m d sent e s1 Hfit) as [b ->] end.
  set (s2 := (pool_take e s1).2). rewrite !bind_run. cbn [fst snd].
  destruct (carries_sent _ _ C n (find_value_datagram corr (target l)) e s2) as (o & Ho & Hout).
  { by apply (ready_view _ _ C _ (st_ctx s)). }
  { unfold find_value_datagram, datagram. by rewrite length_app, header_bytes_length. }
  change (header_bytes _ ++ encode_to_vec _) with (find_value_datagram corr (target l)).
  set (s3 := (send_app _ _ _ e s2).2) in *.
  exists corr, (env_now e (st_tick s3)), o. split_and!.
  - unfold in_u, corr. unfold corr_ok in Hc. lia.
  - cbn. rewrite try_push_fits by done. apply elem_of_app. right. apply list_elem_of_singleton. done.
  - exact Ho.
  - eapply elem_of_prefix; [|apply (runs_out _ (λ _, True)); [apply probes_ok|]].
    + exact Hout.
    + assert (queues_sendable s3) as Hq3; [|exact Hq3].
      apply (low_steps_queues s2 s3); [|exact Hq]. apply (send_app_ok low_step); [|exact Hq].
      exact (datagram_sendable (Header_request FindValueReq Coordination corr) (find_value_message _)
               (conj eq_refl (sp_find_value_req _)) Hfit).
Qed.

(** The answers of earlier requests stay awaited while the rest of the batch goes out. *)
Lemma fold_dispatch_flight b l f e s :
  queues_sendable s → f ∈ in_flight l → f ∈ in_flight (fold_ dispatch_one b l e s).1.
Proof.
  intros Hq Hf. destruct (fold_dispatch_runs low_step b l e s Hq) as [_ [outs ->]]. by apply send_batch_flight.
Qed.

Lemma fold_dispatch_ok b l : runs low_step (fold_ dispatch_one b l) (λ _, True).
Proof. eapply runs_weaken; [apply (fold_dispatch_runs low_step)|done]. Qed.

Lemma dispatch_one_ok l p : runs low_step (dispatch_one l p) (λ l', ∃ o, l' = send_one l (p, o)).
Proof. apply (dispatch_one_runs low_step). Qed.

Lemma fold_dispatch_asks b l p dest (C : Channel dest (pi_x25519 p)) k e s :
  queues_sendable s → corr_ok s → lk_kind l = FindValue → target l = k → request_fits k →
  length (probe_targets l) ≤ 2 → p ∈ b → primary_addr p = Some dest →
  ready C (3 * length b) (st_ctx s) → length (in_flight l) + length b ≤ 8 →
  ∃ corr t o, in_u 32 corr ∧ mkInFlight (pi_id p) corr t ∈ in_flight (fold_ dispatch_one b l e s).1 ∧
              carries C (find_value_datagram corr k) o ∧ o ∈ st_out (fold_ dispatch_one b l e s).2.
Proof.
  revert l s. induction b as [|q b IH]; intros l s Hq Hc Hk Ht Hfit Hpt Hin Hp Hr Hlen.
  { by apply not_elem_of_nil in Hin. }
  cbn [fold_ length] in *. rewrite bind_run.
  destruct (dispatch_one_ok l q e s Hq) as [Hs [o Ho]].
  pose proof (low_steps_queues _ _ Hs Hq) as Hq1. apply elem_of_cons in Hin as [<-|Hin].
  - destruct (dispatch_one_asks l p dest C (2 + 3 * length b) k e s) as (corr & t & out & Hin & Hf & Hcar & Hout);
      [done..| |lia|].
    { by replace (S (2 + 3 * length b)) with (3 * S (length b)) by lia. }
    exists corr, t, out. split_and!; [done|by apply fold_dispatch_flight|done|].
    eapply elem_of_prefix; [exact Hout|]. by apply (runs_out _ (λ _, True)); [apply fold_dispatch_ok|].
  - pose proof (dispatch_one_spends C l q Hpt (3 * length b) e s) as Hr1. rewrite Ho in *.
    destruct (send_one_facts l (q, o)) as (Hk' & Ht' & Hpt' & Hl').
    apply IH; [done|by eapply low_steps_corr|congruence|congruence|done|by rewrite Hpt'|done|done| |lia].
    apply Hr1. by replace (3 + 3 * length b) with (3 * S (length b)) by lia.
Qed.

(** ** The get *)

Context (rs_encode : list bytes → result (list bytes)).

(** The lookup of channel [tx] for [k] waits for a response numbered [corr], and no other
    lookup does. *)
Definition asking (k : Key) (tx : Sender) (corr : Z) (s : St) : Prop :=
  ∃ n p, sc_lookups (st_ctx s) !! n = Some p ∧ pl_reply p = Some tx ∧
    lk_kind (pl_lookup p) = FindValue ∧ target (pl_lookup p) = k ∧ awaits corr p = true ∧
    ∀ n' p', sc_lookups (st_ctx s) !! n' = Some p' → awaits corr p' = true → n' = n.

(** The shard has no record to answer with. *)
Definition not_held (k : Key) (e : Env) (s : St) : Prop :=
  ∀ n, Store_get (sc_store (st_ctx s)) (env_unix e n) k = None.

(** The event takes less time than the budget of a lookup. *)
Definition prompt (e : Env) : Prop := ∀ m n, (sat_sub (env_now e n) (env_now e m) < millis 1500)%Z.

(** The first batch of a lookup is all its seeds. *)
Lemma first_batch k seeds pm t0 t1 :
  seeds ≠ [] → length seeds ≤ ALPHA_DEFAULT → (sat_sub t1 t0 < millis 1500)%Z →
  let l := Lookup_new FindValue k seeds pm t0 in
  next_batch l t1 = (l, sort_shortlist seeds k).
Proof.
  intros Hne Hlen Ht l. unfold ALPHA_DEFAULT in *.
  assert (length (sort_shortlist seeds k) = length seeds) as Hs.
  { rewrite <-(length_fmap pi_id), sort_shortlist_ids. apply length_fmap. }
  rewrite next_batch_eq by (cbn; unfold ALPHA_DEFAULT; lia).
  cbn [l Lookup_new lk_done budget started orb]. rewrite (proj2 (Z.leb_gt _ _)) by done.
  cbn [alpha in_flight shortlist length]. rewrite Nat.sub_0_r.
  match goal with |- context [filter ?P ?x] => assert (filter P x = x) as -> end.
  { apply filter_all, Forall_forall. intros p _. split; cbn; set_solver. }
  change (shortlist l) with (sort_shortlist seeds k).
  rewrite take_ge by (rewrite Hs; exact Hlen). rewrite Hs. by destruct seeds.
Qed.

Lemma dispatch_first k seeds pm t0 e s :
  seeds ≠ [] → length seeds ≤ ALPHA_DEFAULT → (sat_sub (env_now e (st_tick s)) t0 < millis 1500)%Z →
  let l := Lookup_new FindValue k seeds pm t0 in
  dispatch_lookup_batch l e s = fold_ dispatch_one (sort_shortlist seeds k) l e (now_instant e s).2.
Proof.
  intros Hne Hlen Ht l. unfold dispatch_lookup_batch. rewrite bind_run.
  change (now_instant e s).1 with (env_now e (st_tick s)). by rewrite (first_batch k seeds pm t0).
Qed.

Lemma start_lookup_asks k tx p dest (C : Channel dest (pi_x25519 p)) e s :
  queues_sendable s → corr_ok s → sc_lookups (st_ctx s) = ∅ → prompt e → request_fits k →
  p ∈ closest (sc_table (st_ctx s)) k ALPHA_DEFAULT → primary_addr p = Some dest →
  ready C (3 * ALPHA_DEFAULT) (st_ctx s) →
  let s' := (start_lookup FindValue k (Some tx) e s).2 in
  ∃ corr o, in_u 32 corr ∧ carries C (find_value_datagram corr k) o ∧ o ∈ st_out s' ∧ asking k tx corr s'.
Proof.
  intros Hq Hc Hno He Hfit Hin Hp Hrd. cbn zeta.
  set (seeds := closest _ _ _) in *. set (t0 := env_now e (st_tick s)). set (s1 := (now_instant e s).2).
  set (l := Lookup_new FindValue k seeds (if query_blind (sc_cfg (st_ctx s)) then PrivacyBlind else PrivacyNone) t0).
  assert (length seeds ≤ ALPHA_DEFAULT) as Hlen by apply closest_length.
  assert (start_lookup FindValue k (Some tx) e s =
          (l ← dispatch_lookup_batch l;
           if lk_done l then finish_lookup FindValue l (Some tx)
           else n ← gets sc_next_corr; insert_lookup n (mkPendingLookup l (Some tx))) e s1) as -> by done.
  set (s2 := (now_instant e s1).2).
  assert (dispatch_lookup_batch l e s1 = fold_ dispatch_one (sort_shortlist seeds k) l e s2) as Hdisp.
  { apply dispatch_first; [|done|apply He]. intros Heq. rewrite Heq in Hin. by apply not_elem_of_nil in Hin. }
  rewrite bind_run, Hdisp.
  destruct (fold_dispatch_asks (sort_shortlist seeds k) l p dest C k e s2) as (corr & t & o & Hr & Hf & Hcar & Hout);
    try done.
  { cbn [l Lookup_new probe_targets]. destruct (query_blind _); [apply probes_two|cbn; lia]. }
  { by apply elem_of_sort_by. }
  { apply (ready_view _ _ C _ (st_ctx s)); [done|]. eapply ready_less; [|exact Hrd].
    unfold sort_shortlist. rewrite sort_by_length. lia. }
  { unfold sort_shortlist. rewrite sort_by_length. change (in_flight l) with (@nil InFlight). cbn [length].
    etrans; [exact Hlen|]. by apply Nat.leb_le. }
  destruct (fold_dispatch_runs low_step (sort_shortlist seeds k) l e s2 Hq) as [Hs [outs Hl]].
  apply low_steps_frame in Hs as [Hlk _].
  destruct (fold_ dispatch_one _ l e s2) as [l' s3]. cbn [fst snd] in *.
  assert (lk_done l' = false) as -> by (by rewrite Hl, send_batch_done).
  rewrite bind_run. exists corr, o. split_and!; [done|done|done|].
  assert (sc_lookups (st_ctx s3) = ∅) as Hno3 by (by rewrite Hlk).
  exists (sc_next_corr (st_ctx s3)), (mkPendingLookup l' (Some tx)).
  change (sc_lookups (st_ctx _)) with (<[sc_next_corr (st_ctx s3) := mkPendingLookup l' (Some tx)]> (sc_lookups (st_ctx s3))).
  rewrite Hno3. destruct (send_batch_facts (zip (sort_shortlist seeds k) outs) l) as [Hk Ht]. rewrite <-Hl in Hk, Ht.
  split_and!; [apply lookup_insert_eq|done..| |].
  - apply existsb_exists. exists (mkInFlight (pi_id p) corr t). split; [by apply list_elem_of_In|apply Z.eqb_refl].
  - intros n' p' Hn' _. by apply lookup_insert_Some in Hn' as [[-> _]|[_ Hn']].
Qed.

(** A get that finds nothing here asks every seed it reaches. *)
Lemma get_asks k tx p dest (C : Channel dest (pi_x25519 p)) e s :
  queues_sendable s → corr_ok s → sc_lookups (st_ctx s) = ∅ → prompt e → not_held k e s → request_fits k →
  p ∈ closest (sc_table (st_ctx s)) k ALPHA_DEFAULT → primary_addr p = Some dest →
  ready C (3 * ALPHA_DEFAULT) (st_ctx s) →
  let s' := (handle_cmd rs_encode (CmdGet k tx) e s).2 in
  ∃ corr o, in_u 32 corr ∧ carries C (find_value_datagram corr k) o ∧ o ∈ st_out s' ∧ asking k tx corr s'.
Proof.
  intros Hq Hc Hno He Hnot Hfit Hin Hp Hrd. cbn zeta. set (s1 := (now_unix e (incr MLookups e s).2).2).
  assert (handle_cmd rs_encode (CmdGet k tx) e s = start_lookup FindValue k (Some tx) e s1) as ->.
  { change (handle_cmd rs_encode (CmdGet k tx) e s) with
      ((match Store_get (sc_store (st_ctx s)) (env_unix e (st_tick s)) k with
        | Some r => incr MLookupOk;; answer tx (RRecord (Some r))
        | None => start_lookup FindValue k (Some tx)
        end) e s1). by rewrite Hnot. }
  apply (start_lookup_asks k tx p dest C); [done..|]. by apply (ready_view _ _ C _ (st_ctx s)).
Qed.

(** ** The answer *)

Definition value_message (rec : StoredRecord) (closer : list PeerInfo) : proto.FindValueResp :=
  proto.mkFindValueResp (Some (proto.ResultRecord (StoredRecord_encode rec))) (peers_to_proto closer).

Definition value_datagram (corr : Z) (rec : StoredRecord) (closer : list PeerInfo) : bytes :=
  datagram (Header_response FindValueResp Coordination corr) (value_message rec closer).

(** A datagram of this library is read as it was written. *)
Lemma datagram_decoded {T} `{Message T} ty flags q corr (m : T) :
  in_u 32 corr → msg_wf m →
  let h := mkHeader PROTOCOL_VERSION ty flags q corr 0 in
  decode_body T (datagram h m) = Some m ∧ Header_decode (datagram h m) = Some h.
Proof.
  intros Hc Hm h. split.
  - unfold decode_body, datagram. rewrite length_app, header_bytes_length.
    rewrite (proj2 (Nat.ltb_ge _ _)) by lia. rewrite drop_app_length' by (by rewrite header_bytes_length).
    by apply decode_encode_msg.
  - apply Header_decode_bytes. split_and!; [done|done|]. unfold in_u. cbn. lia.
Qed.

Lemma handle_app_type src pkt au h e s :
  Header_decode pkt = Some h → h_ty h = FindValueReq ∨ h_ty h = FindValueResp →
  handle_app src pkt au e s =
  (if bool_decide (h_ty h = FindValueReq) then on_find_value src h pkt else on_find_value_resp src h pkt) e s.
Proof.
  intros Hd Hty. unfold handle_app.
  destruct Hty as [Hty|Hty]; destruct (length pkt); cbn [handle_app_fuel]; by rewrite Hd, Hty.
Qed.

Definition find_value_header (corr : Z) : Header := Header_request FindValueReq Coordination corr.
Definition value_header (corr : Z) : Header := Header_response FindValueResp Coordination corr.

Lemma find_value_decoded corr k :
  in_u 32 corr →
  decode_body proto.FindValueReq (find_value_datagram corr k) = Some (find_value_message k) ∧
  Header_decode (find_value_datagram corr k) = Some (find_value_header corr).
Proof. intros Hc. apply datagram_decoded; [done|]. unfold msg_wf, FindValueReq_wf, in_u. cbn. lia. Qed.

Lemma value_decoded corr rec closer :
  in_u 32 corr → msg_wf (value_message rec closer) →
  decode_body proto.FindValueResp (value_datagram corr rec closer) = Some (value_message rec closer) ∧
  Header_decode (value_datagram corr rec closer) = Some (value_header corr).
Proof. apply datagram_decoded. Qed.

(** The shard with the record answers the request with it. *)
Lemma value_found k corr rec t src au e s :
  in_u 32 corr → holds k rec t (sc_store (st_ctx s)) → kind rec ≠ KIND_TOMBSTONE → clock_until t e →
  let closer := closest (sc_table (st_ctx s)) k MAX_CLOSER_PEERS in
  handle_app src (find_value_datagram corr k) au e s =
  encoded (value_header corr) (value_message rec closer) tt (send_app src None) e (now_unix e s).2.
Proof.
  intros Hc [Hrec Hexp] Hkind Hclock closer. destruct (find_value_decoded corr k Hc) as [Hb Hdec].
  rewrite (handle_app_type _ _ _ _ _ _ Hdec) by auto. rewrite bool_decide_eq_true_2 by done.
  unfold on_find_value. rewrite Hb. cbn [proto.fvq_key find_value_message].
  unfold Key_from_bytes. rewrite to_arr_list. cbn [fmap option_fmap option_map].
  assert (mkKey (kid k) = k) as -> by (by destruct k).
  set (s1 := (now_unix e s).2).
  assert (Store_get (sc_store (st_ctx s1)) (env_unix e (st_tick s)) k = Some rec) as Hget.
  { unfold Store_get. change (records (sc_store (st_ctx s1))) with (records (sc_store (st_ctx s))).
    rewrite Hrec. apply Z.eqb_neq in Hkind. rewrite Hkind.
    destruct (expired rec (env_unix e (st_tick s))) eqn:E; [|done]. exfalso.
    apply (expired_mono rec _ t) in E; [congruence|]. apply Hclock. }
  rewrite !bind_run. change (now_unix e (gets _ e s).2).1 with (env_unix e (st_tick s)).
  change (now_unix e (gets _ e s).2).2 with s1. unfold gets at 1. cbn [fst snd]. by rewrite Hget.
Qed.

Lemma value_sent k corr rec t src au (C : Channel src None) e s :
  ready C 1 (st_ctx s) → in_u 32 corr →
  holds k rec t (sc_store (st_ctx s)) → kind rec ≠ KIND_TOMBSTONE → clock_until t e →
  let closer := closest (sc_table (st_ctx s)) k MAX_CLOSER_PEERS in
  HEADER_LEN + length (encode_to_vec (value_message rec closer)) ≤ PMTU_FLOOR →
  ∃ o, carries C (value_datagram corr rec closer) o ∧
       o ∈ st_out (handle_app src (find_value_datagram corr k) au e s).2.
Proof.
  intros Hr Hc Hh Hkind Hclock closer Hfit. rewrite (value_found k corr rec t) by done.
  apply (encoded_carried C (value_header corr) (value_message rec closer) 0 e (now_unix e s).2 Hfit).
  by apply (ready_view _ _ C _ (st_ctx s)).
Qed.

Lemma value_served k corr rec t src pkt (C : Channel src None) e s s1 :
  queues_sendable s → arrives src pkt (find_value_datagram corr k) e s s1 → ready C 1 (st_ctx s1) →
  in_u 32 corr → holds k rec t (sc_store (st_ctx s)) → kind rec ≠ KIND_TOMBSTONE → clock_until t e →
  let closer := closest (sc_table (st_ctx s)) k MAX_CLOSER_PEERS in
  HEADER_LEN + length (encode_to_vec (value_message rec closer)) ≤ PMTU_FLOOR →
  ∃ o, carries C (value_datagram corr rec closer) o ∧ o ∈ st_out (handle_datagram src pkt e s).2.
Proof.
  intros Hq Ha Hr Hc Hh Hkind Hclock closer Hfit. destruct (arrives_steps _ _ _ _ _ _ Ha Hq) as [au Hs].
  pose proof (ar_keeps _ _ _ _ _ _ Ha sc_store) as Hst.
  pose proof (f_equal (λ v, v.1.1.1) (ar_keeps _ _ _ _ _ _ Ha route_view) : sc_table _ = sc_table _) as Htab.
  destruct (value_sent k corr rec t src au C e s1) as (o & Ho & Hout); [by rewrite ?Hst, ?Htab..|].
  rewrite Htab in Ho. exists o. split; [exact Ho|]. eapply elem_of_prefix; [exact Hout|]. by apply shard_steps_out.
Qed.

(** ** What the answer does *)

Lemma update_found n p corr f e s :
  orders_ok e → sc_lookups (st_ctx s) !! n = Some p → awaits corr p = true →
  (∀ n' p', sc_lookups (st_ctx s) !! n' = Some p' → awaits corr p' = true → n' = n) →
  update_lookup corr f e s =
  insert_lookup n (mkPendingLookup (f (pl_lookup p)) (pl_reply p)) e (read env_ids e s).2.
Proof.
  unfold orders_ok. intros Hperm Hn Ha Hu. unfold update_lookup. rewrite bind_run.
  set (g := λ n : Z, p ← sc_lookups (st_ctx s) !! n; if awaits corr p then Some (n, p) else None).
  assert ((find_lookup_mut corr e s).1 = Some (n, p)) as ->; [|done].
  change ((find_lookup_mut corr e s).1) with
    (head (omap g (env_ids e (st_tick s) (map_to_list (sc_lookups (st_ctx s))).*1))).
  assert (Hg : ∀ x, x ∈ omap g (env_ids e (st_tick s) (map_to_list (sc_lookups (st_ctx s))).*1) ↔ x = (n, p)).
  { intros x. rewrite list_elem_of_omap. split.
    - intros (n' & _ & Hx). unfold g in Hx. destruct (sc_lookups (st_ctx s) !! n') as [p'|] eqn:E; [|done].
      cbn in Hx. destruct (awaits corr p') eqn:Ea; [|done]. injection Hx as <-.
      assert (n' = n) as -> by eauto. congruence.
    - intros ->. exists n. split; [|unfold g; rewrite Hn; cbn; by rewrite Ha].
      rewrite Hperm. apply list_elem_of_fmap. exists (n, p). split; [done|]. by apply elem_of_map_to_list. }
  destruct (omap g _) as [|x l]; [|cbn; f_equal; apply Hg; by left].
  pose proof (proj2 (Hg (n, p)) eq_refl) as Hx. by apply not_elem_of_nil in Hx.
Qed.

(** A sweep of another lookup. *)
Lemma sweep_one_other n n' e s :
  queues_sendable s → n' ≠ n → sc_lookups (st_ctx (sweep_one n' e s).2) !! n = sc_lookups (st_ctx s) !! n.
Proof.
  intros Hq Hn. unfold sweep_one. rewrite bind_run. cbn [gets fst snd].
  destruct (sc_lookups (st_ctx s) !! n') as [p|]; [|done]. rewrite !bind_run.
  set (s1 := (modify _ e s).2).
  destruct (dispatch_lookup_batch_runs low_step (pl_lookup p) e s1 Hq) as [Hs _].
  pose proof (low_steps_queues _ _ Hs Hq) as Hq2. apply low_steps_frame in Hs as [Hs _].
  destruct (dispatch_lookup_batch (pl_lookup p) e s1) as [l s2]. cbn [fst snd] in *.
  assert (sc_lookups (st_ctx s2) !! n = sc_lookups (st_ctx s) !! n) as <-.
  { rewrite Hs. by apply lookup_delete_ne. }
  destruct (lk_done l).
  - rewrite bind_run. destruct (bool_decide _), (pl_reply p); done.
  - by apply lookup_insert_ne.
Qed.

(** The sweep of a lookup that is over answers its caller. *)
Lemma sweep_one_done n p tx e s :
  sc_lookups (st_ctx s) !! n = Some p → pl_reply p = Some tx → lk_done (pl_lookup p) = true →
  st_answers (sweep_one n e s).2 = st_answers s ++ [(tx, lookup_reply (lk_kind (pl_lookup p)) (pl_lookup p))].
Proof.
  intros Hn Htx Hd. unfold sweep_one. rewrite bind_run. cbn [gets fst snd]. rewrite Hn, !bind_run.
  set (s1 := (modify _ e s).2). unfold dispatch_lookup_batch. rewrite !bind_run.
  assert (∀ now, next_batch (pl_lookup p) now = (set_done (pl_lookup p), [])) as Hb.
  { intros now. unfold next_batch. by rewrite Hd. }
  rewrite Hb. cbn [fold_ mret M_ret fst snd lk_done set_done].
  rewrite bind_run, Htx. by destruct (bool_decide _).
Qed.

Lemma sweeps_answer n p tx ids e s :
  queues_sendable s → n ∈ ids →
  sc_lookups (st_ctx s) !! n = Some p → pl_reply p = Some tx → lk_done (pl_lookup p) = true →
  ∃ l, st_answers (for_ ids sweep_one e s).2 = st_answers s ++ l ∧
       (tx, lookup_reply (lk_kind (pl_lookup p)) (pl_lookup p)) ∈ l.
Proof.
  intros Hq Hin Hn Htx Hd. revert s Hq Hn. induction ids as [|n' ids IH]; intros s Hq Hn.
  { by apply not_elem_of_nil in Hin. }
  cbn [for_]. rewrite bind_run. destruct (sweep_one_ok n' e s Hq) as [Hs _].
  pose proof (steps_rtc_queues shard_step _ _ Hs Hq) as Hq1. apply shard_steps_answers in Hs as [l1 Hl1].
  destruct (decide (n' = n)) as [->|Hne].
  - destruct (runs_for_all shard_step ids sweep_one sweep_one_ok e _ Hq1) as [Hs _].
    apply shard_steps_answers in Hs as [l2 Hl2]. eexists (_ :: l2). split; [|by left].
    rewrite Hl2, (sweep_one_done n p tx) by done. by rewrite <-(assoc_L (++)).
  - apply elem_of_cons in Hin as [->|Hin]; [done|].
    destruct (IH Hin (sweep_one n' e s).2) as (l2 & Hl2 & Hin2); [done|by rewrite sweep_one_other|].
    exists (l1 ++ l2). split; [by rewrite Hl2, Hl1, (assoc_L (++))|apply elem_of_app; by right].
Qed.

(** A record for a lookup that waits for it. *)
Lemma accept_record_found n p corr h rec e s :
  orders_ok e → wire_ok rec → authentic rec = true → h_correlation h = corr →
  sc_lookups (st_ctx s) !! n = Some p → awaits corr p = true →
  (∀ n' p', sc_lookups (st_ctx s) !! n' = Some p' → awaits corr p' = true → n' = n) →
  ∃ now, sc_lookups (st_ctx (accept_record h (StoredRecord_encode rec) e s).2) !! n =
           Some (mkPendingLookup (on_record (pl_lookup p) zero_node (restamp now rec)) (pl_reply p)) ∧
         st_answers (accept_record h (StoredRecord_encode rec) e s).2 = st_answers s.
Proof.
  intros Hperm [Hwf Httl] Hauth <- Hn Ha Hu. exists (env_unix e (st_tick s)).
  unfold accept_record, StoredRecord_encode. rewrite decode_encode_msg by done. rewrite bind_run.
  change (now_unix e s).1 with (env_unix e (st_tick s)). rewrite record_from_to_proto by done.
  rewrite authentic_restamp, Hauth, !bind_run. set (s1 := (when_ _ _ e _).2).
  assert (sc_lookups (st_ctx s1) = sc_lookups (st_ctx s) ∧ st_answers s1 = st_answers s) as [Hl Hans]
    by (unfold s1; by destruct (negb (is_probe h))).
  rewrite (update_found n p); [|done|by rewrite Hl|done|by rewrite Hl].
  split; [apply lookup_insert_eq|done].
Qed.

(** The response to the request a lookup waits for ends it with the record. *)
Lemma value_accepted k tx corr rec closer src au e s :
  queues_sendable s → orders_ok e → asking k tx corr s → in_u 32 corr →
  wire_ok rec → authentic rec = true → Forall msg_wf (peers_to_proto closer) →
  ∃ l now, st_answers (handle_app src (value_datagram corr rec closer) au e s).2 = st_answers s ++ l ∧
           (tx, RRecord (Some (restamp now rec))) ∈ l.
Proof.
  intros Hq Hperm (n & p & Hn & Htx & Hk & _ & Ha & Hu) Hc Hwire Hauth Hwf.
  destruct (value_decoded corr rec closer Hc Hwf) as [Hb Hdec].
  rewrite (handle_app_type _ _ _ _ _ _ Hdec) by auto. rewrite bool_decide_eq_false_2 by done.
  set (h := value_header corr) in *.
  unfold on_find_value_resp. rewrite Hb. cbn [value_message proto.fvr_result proto.fvr_closer_peers].
  set (ps := peers_from_proto _). rewrite !bind_run.
  assert (runs low_step (for_ ps (λ p, table_insert p;; start_punch p src)) (λ _, True)) as Hps.
  { apply (runs_for_all low_step). intros p'.
    apply runs_seq; [exact _|apply (table_insert_ok low_step)|intros _; apply (start_punch_ok low_step)]. }
  destruct (Hps e s Hq) as [Hs _]. set (s1 := (for_ ps _ e s).2) in *.
  pose proof (low_steps_queues _ _ Hs Hq) as Hq1. apply low_steps_frame in Hs as [Hl1 Ha1].
  destruct (accept_record_found n p corr h rec e s1) as (now & Hn2 & Ha2); [done..|by rewrite Hl1|done|by rewrite Hl1|].
  destruct (accept_record_ok h (StoredRecord_encode rec) e s1 Hq1) as [Hs2 _].
  pose proof (steps_rtc_queues shard_step _ _ Hs2 Hq1) as Hq2.
  set (s2 := (accept_record _ _ e s1).2) in *. unfold sweep_lookups. rewrite !bind_run. cbn [gets fst snd].
  set (s3 := (read env_ids e s2).2).
  set (p' := mkPendingLookup (on_record (pl_lookup p) zero_node (restamp now rec)) (pl_reply p)) in *.
  destruct (sweeps_answer n p' tx ((read env_ids e s2).1 (map_to_list (sc_lookups (st_ctx s3))).*1) e s3 Hq2)
    as (l & Hl & Hin); [|exact Hn2|exact Htx|done|].
  - change ((read env_ids e s2).1) with (env_ids e (st_tick s2)). unfold orders_ok in Hperm. rewrite Hperm.
    apply list_elem_of_fmap. exists (n, p'). split; [done|]. by apply elem_of_map_to_list.
  - exists l, now. split; [change (st_answers s3) with (st_answers s2) in Hl; rewrite Hl; by rewrite Ha2, Ha1|].
    change (lk_kind (pl_lookup p')) with (lk_kind (pl_lookup p)) in Hin. rewrite Hk in Hin. exact Hin.
Qed.

(** However the response gets here. *)
Lemma asking_answered k tx corr rec closer src pkt e s s1 :
  queues_sendable s → arrives src pkt (value_datagram corr rec closer) e s s1 →
  orders_ok e → asking k tx corr s → in_u 32 corr →
  wire_ok rec → authentic rec = true → Forall msg_wf (peers_to_proto closer) →
  ∃ l now, st_answers (handle_datagram src pkt e s).2 = st_answers s ++ l ∧
           (tx, RRecord (Some (restamp now rec))) ∈ l.
Proof.
  intros Hq Ha Hperm Hask Hc Hwire Hauth Hwf. destruct (arrives_steps _ _ _ _ _ _ Ha Hq) as [au Hs].
  apply shard_steps_answers in Hs as [l2 Hl2].
  destruct (value_accepted k tx corr rec closer src au e s1) as (l & now & Hl & Hin); [|done| |done..|].
  { by eapply arrives_queues. }
  { unfold asking. by rewrite (ar_keeps _ _ _ _ _ _ Ha sc_lookups). }
  exists (l ++ l2), now. rewrite Hl2, Hl, (ar_answers _ _ _ _ _ _ Ha). rewrite <-(assoc_L (++)).
  split; [done|]. apply elem_of_app. by left.
Qed.

(** A get that finds nothing at shard A fetches the record from shard B.  For every one
    of the seeds of the lookup (the closest peers A knows) that A reaches directly without
    encryption, the get sends a request; a shard B that holds an authentic record under the
    key, and whose answer fits one datagram, sends it back to where the request came from;
    and as long as A's lookup still waits for that answer, receiving it, from any address,
    answers the caller with the record, stamped with the time of its arrival. *)
Theorem get_fetches (sA sB : St) (eA eB : Env) (k : Key) (rec : StoredRecord) (t : Z) (tx : Sender)
    (p : PeerInfo) (dest src : SocketAddr) :
  let closer := closest (sc_table (st_ctx sB)) k MAX_CLOSER_PEERS in
  queues_sendable sA → corr_ok sA → sc_lookups (st_ctx sA) = ∅ → prompt eA → not_held k eA sA →
  request_fits k → p ∈ closest (sc_table (st_ctx sA)) k ALPHA_DEFAULT → primary_addr p = Some dest →
  plaintext (sc_cfg (st_ctx sA)) = true → direct (st_ctx sA) dest →
  holds k rec t (sc_store (st_ctx sB)) → kind rec ≠ KIND_TOMBSTONE → clock_until t eB →
  plaintext (sc_cfg (st_ctx sB)) = true → direct (st_ctx sB) src →
  HEADER_LEN + length (encode_to_vec (value_message rec closer)) ≤ PMTU_FLOOR →
  wire_ok rec → authentic rec = true → Forall msg_wf (peers_to_proto closer) →
  let sA1 := (handle_cmd rs_encode (CmdGet k tx) eA sA).2 in
  ∃ request reply corr,
    OutPlain dest request ∈ st_out sA1 ∧ asking k tx corr sA1 ∧
    OutPlain src reply ∈ st_out (handle_datagram src request eB sB).2 ∧
    ∀ sM eM from, queues_sendable sM → orders_ok eM → asking k tx corr sM →
      ∃ l now, st_answers (handle_datagram from reply eM sM).2 = st_answers sM ++ l ∧
               (tx, RRecord (Some (restamp now rec))) ∈ l.
Proof.
  intros closer Hq Hc Hno He Hnot Hfit Hin Hp Hpl Hd Hh Hkind Hclock HplB HdB HfitB Hwire Hauth Hwf sA1.
  destruct (get_asks k tx p dest (clear_channel dest (pi_x25519 p)) eA sA)
    as (corr & o & Hr & -> & Hout & Hask); [done..|].
  destruct (find_value_decoded corr k Hr) as [_ Hreq], (value_decoded corr rec closer Hr Hwf) as [_ Hval].
  exists (find_value_datagram corr k), (value_datagram corr rec closer), corr. split_and!; [done..| |].
  { rewrite (clear_handled _ _ _ _ _ Hreq).
    by destruct (value_sent k corr rec t src false (clear_channel src None) eB sB) as (o & -> & HoutB). }
  intros sM eM from HqM Hperm HaskM.
  eapply asking_answered; [exact HqM|by eapply clear_arrives|done..].
Qed.

(** C8: a get that finds nothing fetches the record over encrypted sessions.  Shard A
    encrypts, reaches a seed B directly and has an established session for its key; B's
    engine comes to its end of it with packets for the receiver index A knows (the loop over
    its sessions, or directly), B holds the record, and has an established session for the
    key of the address the request comes from.  Then A's get sends B a WireGuard packet, B
    answers it with one, and a shard whose lookup still waits for that answer, and whose
    engine comes to the other end of B's session with it, answers A's caller with the record
    when it receives the packet from any address its rate limit lets through. *)
Theorem get_fetches_sealed `{!TunnPair} (sA sB : St) (eA eB : Env) (k : Key) (rec : StoredRecord) (t : Z)
    (tx : Sender) (p : PeerInfo) (dest src : SocketAddr) (i j : Z) (ssB : Session) (uA : Tunn) :
  let closer := closest (sc_table (st_ctx sB)) k MAX_CLOSER_PEERS in
  queues_sendable sA → corr_ok sA → sc_lookups (st_ctx sA) = ∅ → prompt eA → not_held k eA sA →
  request_fits k → p ∈ closest (sc_table (st_ctx sA)) k ALPHA_DEFAULT → primary_addr p = Some dest →
  sealed_route dest (pi_x25519 p) (tunn ssB) i (2 * (3 * ALPHA_DEFAULT)) (st_ctx sA) →
  queues_sendable sB → reaches (sc_wg (st_ctx sB)) i ssB → orders_ok eB → admitted src eB sB →
  holds k rec t (sc_store (st_ctx sB)) → kind rec ≠ KIND_TOMBSTONE → clock_until t eB →
  sealed_route src None uA j 2 (st_ctx sB) →
  HEADER_LEN + length (encode_to_vec (value_message rec closer)) ≤ PMTU_FLOOR →
  wire_ok rec → authentic rec = true → Forall msg_wf (peers_to_proto closer) →
  let sA1 := (handle_cmd rs_encode (CmdGet k tx) eA sA).2 in
  ∃ request reply corr,
    OutWg dest request ∈ st_out sA1 ∧ asking k tx corr sA1 ∧
    OutWg src reply ∈ st_out (handle_datagram src request eB sB).2 ∧
    ∀ sM eM from ss, queues_sendable sM → orders_ok eM → asking k tx corr sM →
      reaches (sc_wg (st_ctx sM)) j ss → tunn ss = uA → admitted from eM sM →
      ∃ l now, st_answers (handle_datagram from reply eM sM).2 = st_answers sM ++ l ∧
               (tx, RRecord (Some (restamp now rec))) ∈ l.
Proof.
  intros closer Hq Hc Hno He Hnot Hfit Hin Hp HrA HqB HssB HordB HadmB Hh Hkind Hclock HrB HfitB Hwire Hauth Hwf sA1.
  destruct (get_asks k tx p dest (sealed_channel dest (pi_x25519 p) (tunn ssB) i) eA sA)
    as (corr & o & Hr & (request & -> & Hopen) & Hout & Hask); [done..|].
  destruct (sealed_arrives src request _ i ssB eB sB HssB HordB Hopen) as (sB' & Ha & _ & Hkept); [|done|].
  { unfold find_value_datagram, datagram. by rewrite length_app, header_bytes_length. }
  destruct (value_served k corr rec t src request (sealed_channel src None uA j) eB sB sB')
    as (o & (reply & -> & Hopen') & HoutB); [done|done|by apply Hkept|done..|].
  exists request, reply, corr. split_and!; [done..|].
  intros sM eM from ss HqM Hperm HaskM Hss <- Hadm.
  destruct (sealed_arrives from reply _ j ss eM sM Hss Hperm Hopen') as (sM' & HaM & _ & _); [|done|].
  { unfold value_datagram, datagram. by rewrite length_app, header_bytes_length. }
  by eapply asking_answered.
Qed.
End fetch.

#[local] Existing Instance toy_crypto.
#[local] Existing Instance toy_tunn.
#[local] Existing Instance toy_keyed.
#[local] Existing Instance crc_ieee_inst.
#[local] Existing Instance wire_protobuf.

(** The shard at address 5 after it was sent a record to store. *)
Definition sample_holder_St : St :=
  (handle_datagram (toy_addr 3) (store_datagram 1 (immutable_record 0 (bstr "v") 60)) (sample_env 0) sample_St).2.

Lemma get_fetches_witness :
  let e := sample_env 0 in
  let k := hash_value (bstr "v") in
  let rec := immutable_record 1000 (bstr "v") 60 in
  let sA1 := (handle_cmd no_erasure (CmdGet k 7) e sample_peer_St).2 in
  holds k rec 1059 (sc_store (st_ctx sample_holder_St)) ∧
  ∃ request reply corr,
    OutPlain (toy_addr 5) request ∈ st_out sA1 ∧ asking k 7 corr sA1 ∧
    OutPlain (toy_addr 9) reply ∈ st_out (handle_datagram (toy_addr 9) request e sample_holder_St).2 ∧
    ∀ sM eM from, queues_sendable sM → orders_ok eM → asking k 7 corr sM →
      ∃ l now, st_answers (handle_datagram from reply eM sM).2 = st_answers sM ++ l ∧
               (7, RRecord (Some (restamp now rec))) ∈ l.
Proof.
  intros e k rec sA1.
  assert (holds k rec 1059 (sc_store (st_ctx sample_holder_St))) as Hh by (split; vm_compute; reflexivity).
  split; [exact Hh|].
  apply (get_fetches no_erasure sample_peer_St sample_holder_St e e k rec 1059 7
           (PeerInfo_new (sample_node 2) (toy_addr 5)) (toy_addr 5) (toy_addr 9)).
  - apply no_queues_sendable. apply (bool_decide_unpack _). vm_compute. exact I.
  - split; vm_compute; [discriminate|reflexivity].
  - apply (bool_decide_unpack _). vm_compute. exact I.
  - intros m n. vm_compute. reflexivity.
  - intros n. vm_compute. reflexivity.
  - apply Nat.leb_le. vm_compute. reflexivity.
  - apply (list_elem_of_lookup_2 _ 0). vm_compute. reflexivity.
  - reflexivity.
  - vm_compute. reflexivity.
  - vm_compute. reflexivity.
  - exact Hh.
  - vm_compute. discriminate.
  - intros n. cbn. lia.
  - vm_compute. reflexivity.
  - vm_compute. reflexivity.
  - apply Nat.leb_le. vm_compute. reflexivity.
  - apply immutable_wire_ok; [lia|unfold in_u; lia].
  - vm_compute. reflexivity.
  - apply (bool_decide_unpack _). vm_compute. exact I.
Defined.

(** Over tunnels that number their sessions as BoringTun does, with a second peer. *)
Section sealed_example.
#[local] Existing Instance shift_tunn.
#[local] Existing Instance shift_pair.

(** The shard at address 5 that encrypts, holds a record, and knows the key of address 9. *)
Definition sample_sealed_holder_St : St :=
  sample_linked (toy_addr 9) (stored_at (immutable_record 1000 (bstr "v") 60) (sample_env 0) sample_sealed_St).

Lemma get_fetches_sealed_witness :
  let e := sample_env 0 in
  let k := hash_value (bstr "v") in
  let rec := immutable_record 1000 (bstr "v") 60 in
  let sA1 := (handle_cmd no_erasure (CmdGet k 7) e sample_sender_St).2 in
  ∃ request reply corr,
    OutWg (toy_addr 5) request ∈ st_out sA1 ∧ asking k 7 corr sA1 ∧
    OutWg (toy_addr 9) reply ∈ st_out (handle_datagram (toy_addr 9) request e sample_sealed_holder_St).2 ∧
    ∀ sM eM from ss, queues_sendable sM → orders_ok eM → asking k 7 corr sM →
      reaches (sc_wg (st_ctx sM)) 257 ss →
      tunn ss = Tunn_new (wg_secret sample_identity) sample_x 20 1 → admitted from eM sM →
      ∃ l now, st_answers (handle_datagram from reply eM sM).2 = st_answers sM ++ l ∧
               (7, RRecord (Some (restamp now rec))) ∈ l.
Proof.
  intros e k rec sA1.
  destruct (sample_session (sc_wg (st_ctx sample_sealed_holder_St))) as (ss & Hss & _ & Ht); [vm_compute; reflexivity|].
  pose proof (get_fetches_sealed no_erasure sample_sender_St sample_sealed_holder_St e e k rec 1059 7
    (mkPeerInfo (sample_node 2) [toy_addr 5] 0 (Some sample_x)) (toy_addr 5) (toy_addr 9) 257 257 ss
    (Tunn_new (wg_secret sample_identity) sample_x 20 1)) as Hfetch.
  cbv zeta in Hfetch. apply Hfetch; clear Hfetch.
  - apply no_queues_sendable. apply (bool_decide_unpack _). vm_compute. exact I.
  - split; vm_compute; [discriminate|reflexivity].
  - apply (bool_decide_unpack _). vm_compute. exact I.
  - intros m n. vm_compute. reflexivity.
  - intros n. vm_compute. reflexivity.
  - apply Nat.leb_le. vm_compute. reflexivity.
  - apply (list_elem_of_lookup_2 _ 0). vm_compute. reflexivity.
  - reflexivity.
  - split; [vm_compute; reflexivity..|]. exists sample_x. split; [reflexivity|].
    by apply sample_linked_sealed; [done|apply Z.ltb_lt; vm_compute; reflexivity|].
  - apply no_queues_sendable. apply (bool_decide_unpack _). vm_compute. exact I.
  - exact Hss.
  - intros n l. reflexivity.
  - vm_compute. reflexivity.
  - split; vm_compute; reflexivity.
  - vm_compute. discriminate.
  - intros n. cbn. lia.
  - split; [vm_compute; reflexivity..|]. exists sample_x. split; [vm_compute; reflexivity|].
    by apply sample_linked_sealed; [done|apply Z.ltb_lt; vm_compute; reflexivity|].
  - apply Nat.leb_le. vm_compute. reflexivity.
  - apply immutable_wire_ok; [lia|unfold in_u; lia].
  - vm_compute. reflexivity.
  - apply (bool_decide_unpack _). vm_compute. exact I.
Defined.
End sealed_example.
