(* ===== verification/Follow.v ===== *)
(** * A lookup that follows the peers it hears of

    What a shard without the record answers to FIND_VALUE, and what its answer makes a
    lookup do: ask the peers it names, when they are next in line ([on_find_value],
    [on_find_value_resp] of [src/shard.rs]). *)

From S2P Require Import Prelude Bytes Types Proto Codec Routing Crypto Net Peerstore Store Pool Lookup Wg Relay EventLoop Metrics Sybil Erasure ShardState Shard ShardInv ShardThms ShardReplies ShardStore ShardFiles Channel Secure Replica Fetch.

(** ** The place of a peer in a sorted list *)

Definition nearer (k : Key) (p q : PeerInfo) : Prop := (dist (nid (pi_id q)) (kid k) < dist (nid (pi_id p)) (kid k))%Z.

#[export] Instance nearer_dec k p q : Decision (nearer k p q).
Proof. unfold nearer. apply _. Defined.

Lemma same_dist (a b : NodeId) k : dist (nid a) (kid k) = dist (nid b) (kid k) → a = b.
Proof.
  rewrite !dist_lxor. intros Heq. apply (f_equal (λ z, Z.lxor z (val256 (kid k)))) in Heq.
  rewrite !Z.lxor_assoc, Z.lxor_nilpotent, !Z.lxor_0_r in Heq.
  apply val256_inj in Heq. destruct a, b. cbn in Heq. by rewrite Heq.
Qed.

Lemma StronglySorted_filter {A} (R : relation A) (P : A → Prop) `{!∀ x, Decision (P x)} l :
  StronglySorted R l → StronglySorted R (filter P l).
Proof.
  induction 1 as [|x l Hl IH Hx]; [constructor|]. rewrite filter_cons. destruct (decide (P x)); [|done].
  constructor; [done|]. rewrite Forall_forall in Hx |- *. intros y [_ Hy]%list_elem_of_filter. by apply Hx.
Qed.

(** A peer with fewer than [m] nearer ones is among the first [m]. *)
Lemma take_rank k (l : list PeerInfo) p m (near : list NodeId) :
  StronglySorted (leb_rel (peer_leb k)) l → NoDup (pi_id <$> l) → p ∈ l →
  (∀ q, q ∈ l → nearer k p q → pi_id q ∈ near) → length near < m → p ∈ take m l.
Proof.
  intros Hs Hnd Hp Hnear Hm. apply list_elem_of_split in Hp as (l1 & l2 & ->).
  rewrite fmap_app in Hnd. apply NoDup_app in Hnd as (Hnd1 & Hd & _).
  assert (length l1 ≤ length near) as Hl1.
  { rewrite <-(length_fmap pi_id). apply submseteq_length, NoDup_submseteq; [done|].
    intros i (q & -> & Hq)%list_elem_of_fmap. apply Hnear; [apply elem_of_app; by left|].
    pose proof (sorted_take_drop (peer_leb k) (length l1) _ q p Hs) as Hle.
    rewrite take_app_length, drop_app_length in Hle.
    specialize (Hle Hq ltac:(by left)). apply peer_leb_dist in Hle. unfold nearer.
    assert (dist (nid (pi_id q)) (kid k) ≠ dist (nid (pi_id p)) (kid k)); [|lia].
    intros Heq%same_dist. apply (Hd (pi_id q)); [by apply list_elem_of_fmap_2|]. rewrite Heq. by left. }
  rewrite take_app_ge by lia. apply elem_of_app. right.
  destruct (m - length l1) as [|m'] eqn:E; [lia|]. by left.
Qed.

(** ** The next batch after an answer *)

(** [p] is new among the peers [heard] from, the shard has asked none of the same
    identifier, fewer peers not yet asked are nearer than free slots are left, and [p] is
    among the [K_DEFAULT] nearest. *)
Record next_in_line (l : Lookup) (heard : list PeerInfo) (p : PeerInfo) : Prop := {
  nl_heard : p ∈ heard;
  nl_only : ∀ q, q ∈ heard → pi_id q = pi_id p → q = p;
  nl_new : pi_id p ∉ pi_id <$> shortlist l;
  nl_candidate : candidate l p;
  nl_slot : length (filter (λ q, pi_id q ∉ queried l ∧ nearer (target l) p q) (shortlist l ++ heard)) +
            length (in_flight l) < ALPHA_MIN;
  nl_nodup : NoDup (pi_id <$> shortlist l);
  nl_best : length (filter (nearer (target l) p) (shortlist l ++ heard)) < K_DEFAULT;
}.

Lemma merge_heard sl ps p :
  p ∈ ps → (∀ q, q ∈ ps → pi_id q = pi_id p → q = p) → pi_id p ∉ pi_id <$> sl → p ∈ foldl merge_peer sl ps.
Proof.
  assert (∀ ps sl, p ∈ sl → p ∈ foldl merge_peer sl ps) as Hkeep.
  { intros l. induction l as [|q l IH]; intros s Hin; [done|]. cbn [foldl]. apply IH.
    unfold merge_peer. destruct (existsb _ _); [done|]. apply elem_of_app. by left. }
  revert sl. induction ps as [|q ps IH]; intros sl Hin Honly Hnew; [by apply not_elem_of_nil in Hin|].
  cbn [foldl]. destruct (decide (q = p)) as [->|Hne].
  - apply Hkeep. unfold merge_peer.
    destruct (existsb _ _) eqn:E; [|apply elem_of_app; right; by left].
    exfalso. apply existsb_elem in E as (x & Hx & Heq%bool_decide_eq_true_1). apply Hnew.
    rewrite <-Heq. by apply list_elem_of_fmap_2.
  - apply IH.
    + by apply elem_of_cons in Hin as [<-|Hin].
    + intros x Hx. apply Honly. by right.
    + unfold merge_peer. destruct (existsb _ _); [done|]. rewrite fmap_app. intros [Hq|Hq]%elem_of_app; [done|].
      apply list_elem_of_singleton in Hq. apply Hne, Honly; [by left|done].
Qed.

Lemma merge_from sl ps q : q ∈ foldl merge_peer sl ps → q ∈ sl ++ ps.
Proof.
  revert sl. induction ps as [|p ps IH]; intros sl; cbn [foldl]; [by rewrite app_nil_r|].
  intros Hq%IH. apply elem_of_app in Hq as [Hq|Hq]; apply elem_of_app; [|right; by right].
  unfold merge_peer in Hq. destruct (existsb _ _); [by left|].
  apply elem_of_app in Hq as [Hq|Hq]; [by left|]. apply list_elem_of_singleton in Hq as ->. right. by left.
Qed.

Lemma on_closer_asks l from ps p now :
  alpha l ≤ ALPHA_MAX → lk_k l = K_DEFAULT → lk_done l = false → (sat_sub now (started l) < budget l)%Z →
  next_in_line l ps p →
  let l' := on_closer l from ps 50000 in
  lk_done l' = false ∧ (next_batch l' now).1 = l' ∧ p ∈ (next_batch l' now).2 ∧
  length (in_flight l') + length (next_batch l' now).2 ≤ 8.
Proof.
  intros Ha Hk Hd Hb [Hin Honly Hnew [Hq Hf] Hslot Hnd Hbest] l'.
  assert (shortlist l' = sort_shortlist (foldl merge_peer (shortlist l) ps) (target l)) as Hsl by done.
  assert (p ∈ shortlist l') as Hp by (rewrite Hsl; apply elem_of_sort_by; by apply merge_heard).
  assert (NoDup (pi_id <$> shortlist l')) as Hnd'.
  { rewrite Hsl, sort_shortlist_ids. by apply merge_peers_spec. }
  assert (StronglySorted (leb_rel (peer_leb (target l))) (shortlist l')) as Hs' by apply sort_shortlist_sorted.
  assert (ALPHA_MIN ≤ alpha l' ≤ ALPHA_MAX) as Halpha'.
  { change (alpha l') with (Nat.max (alpha l - 1) ALPHA_MIN). unfold ALPHA_MIN, ALPHA_MAX in *. lia. }
  assert (∀ q, q ∈ shortlist l' → q ∈ shortlist l ++ ps) as Hfrom.
  { intros q. rewrite Hsl. intros Hx%elem_of_sort_by. by apply merge_from. }
  assert (length (in_flight l') ≤ length (in_flight l)) as Hfl by apply filter_length_le.
  assert (lk_done l' = false) as Hd'.
  { cbn [l' on_closer lk_done drop_flight set_flight]. rewrite Hd, orb_false_r.
    apply andb_false_iff. right. apply not_true_iff_false. intros Hall. apply Hq.
    change (sort_shortlist _ _) with (shortlist l') in Hall.
    rewrite forallb_forall in Hall. apply (bool_decide_unpack _), (Is_true_true_2 _), Hall, list_elem_of_In.
    apply list_elem_of_fmap_2. change (lk_k _) with (lk_k l). rewrite Hk.
    apply (take_rank (target l) _ _ _ (pi_id <$> filter (nearer (target l) p) (shortlist l ++ ps))); [done..| |].
    - intros q Hx Hn. apply list_elem_of_fmap_2, list_elem_of_filter. auto.
    - by rewrite length_fmap. }
  assert (candidate l' p) as Hc.
  { split; [done|]. intros (f & Heq & Hx)%list_elem_of_fmap. apply list_elem_of_filter in Hx as [_ Hx].
    apply Hf. rewrite Heq. by apply list_elem_of_fmap_2. }
  assert (p ∈ take (alpha l' - length (in_flight l')) (filter (candidate l') (shortlist l'))) as Hbatch.
  { apply (take_rank (target l) _ _ _ (pi_id <$> filter (λ q, pi_id q ∉ queried l ∧ nearer (target l) p q) (shortlist l ++ ps))).
    - by apply StronglySorted_filter.
    - eapply sublist_NoDup; [exact Hnd'|apply fmap_sublist, sublist_filter].
    - by apply list_elem_of_filter.
    - intros q [[Hcq _] Hx]%list_elem_of_filter Hn. apply list_elem_of_fmap_2, list_elem_of_filter. auto.
    - rewrite length_fmap. lia. }
  unfold ALPHA_MAX in Halpha'. rewrite next_batch_eq by lia. rewrite Hd'.
  change (budget l') with (budget l). change (started l') with (started l).
  rewrite (proj2 (Z.leb_gt _ _)) by done. cbn [orb]. cbv zeta.
  set (b := take _ _) in *. destruct b as [|x b'] eqn:E; [by apply not_elem_of_nil in Hbatch|]. rewrite <-E.
  assert (length b ≤ alpha l' - length (in_flight l')) as Hbl by (unfold b; rewrite length_take; lia).
  assert (length b ≠ 0) as Hb0 by (rewrite E; done).
  rewrite (proj2 (Nat.eqb_neq _ _)) by done. cbn [andb fst snd].
  split_and!; [done|done|by rewrite E|lia].
Qed.

Section follow.
Context `{TunnOps} `{KeyedHash} `{Protobuf} `{Crc32}.

(** ** What a run of a lookup keeps *)

Lemma lookup_run_inv l :
  lookup_run l → lk_k l = K_DEFAULT ∧ length (probe_targets l) ≤ 2 ∧ alpha l ≤ ALPHA_MAX.
Proof.
  intros (kd & t & seeds & pm & t0 & tr & hd & Hr).
  pose proof (lk_const _ _ Hr) as (Hk & _). cbn [fst] in Hk.
  split; [done|].
  assert (∀ b l, probe_targets (send_batch l b) = probe_targets l ∧ alpha (send_batch l b) = alpha l) as Hsend.
  { intros b. induction b as [|[p [[c t']|]] b IH]; intros l'; [done|..].
    - exact (IH (note_sent l' (pi_id p) c t')).
    - exact (IH l'). }
  assert (∀ x y, rtc lk_step x y → alpha x.1.1 ≤ ALPHA_MAX →
            probe_targets y.1.1 = probe_targets x.1.1 ∧ alpha y.1.1 ≤ ALPHA_MAX) as Hp.
  { induction 1 as [x|x y z Hxy _ IH]; [done|]. intros Ha.
    assert (probe_targets y.1.1 = probe_targets x.1.1 ∧ alpha y.1.1 ≤ ALPHA_MAX) as [<- Ha']; [|by apply IH].
    destruct Hxy; cbn [fst snd] in *.
    - destruct (Hsend (zip (next_batch l0 now).2 outs) (next_batch l0 now).1) as [-> ->].
      by destruct (next_batch_state l0 now) as [->| ->].
    - unfold on_timeouts. destruct (foldl _ _ _). cbn. split; [done|]. destruct (_ =? 0); lia.
    - split; [done|]. cbn. unfold ALPHA_MIN, ALPHA_MAX in *. destruct (_ <? _)%Z; lia.
    - done.
    - split; [done|]. cbn. unfold ALPHA_MIN, ALPHA_MAX in *. lia. }
  destruct (Hp _ _ Hr) as [Hpt Ha]; [cbn; unfold ALPHA_DEFAULT, ALPHA_MAX; lia|]. cbn [fst] in Hpt, Ha. split; [|done].
  rewrite Hpt. cbn. destruct pm; cbn; lia.
Qed.

Lemma sent_from_const l l' :
  sent_from l l' → lk_kind l' = lk_kind l ∧ target l' = target l ∧ started l' = started l ∧ budget l' = budget l.
Proof.
  intros (now & outs & ->). destruct (send_batch_facts (zip (next_batch l now).2 outs) (next_batch l now).1) as [-> ->].
  assert (lk_kind (next_batch l now).1 = lk_kind l ∧ target (next_batch l now).1 = target l) as [-> ->]
    by (by destruct (next_batch_state l now) as [->| ->]).
  pose proof (lk_const _ _ (rtc_once _ _ (s_dispatch l [] [] now outs))) as (_ & _ & ? & ? & _). done.
Qed.

(** ** The answer without a record *)

Definition referral_message (closer : list PeerInfo) : proto.FindValueResp :=
  proto.mkFindValueResp None (peers_to_proto closer).

Definition referral_datagram (corr : Z) (closer : list PeerInfo) : bytes :=
  datagram (value_header corr) (referral_message closer).

Definition not_provided (k : Key) (e : Env) (s : St) : Prop :=
  ∀ n m, Store_providers (sc_store (st_ctx s)) (env_unix e n) k m = [].

Lemma referral_sent k corr src au (C : Channel src None) e s :
  ready C 1 (st_ctx s) → in_u 32 corr → not_held k e s → not_provided k e s →
  let closer := closest (sc_table (st_ctx s)) k MAX_CLOSER_PEERS in
  HEADER_LEN + length (encode_to_vec (referral_message closer)) ≤ PMTU_FLOOR →
  ∃ o, carries C (referral_datagram corr closer) o ∧
       o ∈ st_out (handle_app src (find_value_datagram corr k) au e s).2.
Proof.
  intros Hr Hc Hnot Hprov closer Hfit. destruct (find_value_decoded corr k Hc) as [Hb Hdec].
  rewrite (handle_app_type _ _ _ _ _ _ Hdec) by auto. rewrite bool_decide_eq_true_2 by done.
  unfold on_find_value. rewrite Hb. cbn [proto.fvq_key find_value_message].
  unfold Key_from_bytes. rewrite to_arr_list. cbn [fmap option_fmap option_map].
  assert (mkKey (kid k) = k) as -> by (by destruct k).
  rewrite !bind_run. unfold gets at 1 2 3. cbn [fst snd].
  set (s1 := (now_unix e s).2). change (now_unix e s).1 with (env_unix e (st_tick s)).
  change (sc_store (st_ctx s1)) with (sc_store (st_ctx s)). rewrite Hnot.
  assert ((if is_probe (find_value_header corr) then @None StoredRecord else None) = None) as -> by by destruct (is_probe _).
  rewrite !bind_run. unfold gets. cbn [fst snd].
  assert (∀ m, Store_providers (sc_store (st_ctx (now_unix e (now_unix e s).2).2))
            (now_unix e (now_unix e s).2).1 k m = []) as Hp by (intros m; exact (Hprov (S (st_tick s)) m)).
  rewrite Hp.
  apply (encoded_carried C (value_header corr) (referral_message closer) 0 e (now_unix e s1).2 Hfit).
  by apply (ready_view _ _ C _ (st_ctx s)).
Qed.

(** ** A shard that sends everything straight and in the clear *)

Definition plain_view (c : ShardCtx) := (sc_cfg c, sc_via_relay c).

#[export] Instance plain_Unsent : Unsent plain_view.
Proof. by split. Qed.

Definition plain (c : ShardCtx) : Prop := plaintext (sc_cfg c) = true ∧ sc_via_relay c = ∅.

Lemma plain_of c c' : plain_view c' = plain_view c → plain c → plain c'.
Proof. unfold plain_view, plain. by intros [= -> ->]. Qed.

Lemma plain_in_clear c dest : plain c → in_clear c dest.
Proof.
  intros [Hp Hv]. split; [done|]. unfold direct. rewrite Hv. by destruct (peer_id_for c dest).
Qed.

#[local] Hint Resolve incr_keeps add_metric_keeps pool_take_keeps pool_recycle_keeps send_raw_keeps
  now_instant_keeps next_corr_keeps encoded_keeps send_plain_keeps ping_keeps plain_Unsent : keeps.

Lemma heard_plain ps src : keeps plain_view (for_ ps (λ p, table_insert p;; start_punch p src)).
Proof.
  assert (∀ i, keeps plain_view (burst_punch i)) as Hb by (intros i; unfold burst_punch; keep).
  assert (∀ hop t c, keeps plain_view (send_punch_msg hop t c)) as Hm by (intros; unfold send_punch_msg; keep).
  apply keeps_for. intros p. unfold table_insert, start_punch, schedule_timer. keep.
Qed.

(** ** The sweeps of its only lookup *)

Lemma sweep_single n pl e s :
  orders_ok e → sc_lookups (st_ctx s) = {[n := pl]} →
  (sweep_lookups e s).2 = (sweep_one n e (read env_ids e s).2).2.
Proof.
  intros Hperm Hl. unfold sweep_lookups. rewrite !bind_run. cbn [gets fst snd].
  assert ((read env_ids e s).1 (map_to_list (sc_lookups (st_ctx (read env_ids e s).2))).*1 = [n]) as ->.
  { change ((read env_ids e s).1) with (env_ids e (st_tick s)).
    change (sc_lookups (st_ctx (read env_ids e s).2)) with (sc_lookups (st_ctx s)). rewrite Hl, map_to_list_singleton.
    apply Permutation_singleton_r, Hperm. }
  cbn [for_]. by rewrite bind_run.
Qed.

(** The state after a sweep that did not end the lookup. *)
Lemma sweep_one_goes_on n l tx e s :
  queues_sendable s → sc_lookups (st_ctx s) = {[n := mkPendingLookup l (Some tx)]} →
  lk_done (next_batch l (env_now e (st_tick s))).1 = false →
  let s1 := (modify (λ c, set_lookups (delete n (sc_lookups c)) c) e s).2 in
  let l' := (dispatch_lookup_batch l e s1).1 in
  let s' := (sweep_one n e s).2 in
  sc_lookups (st_ctx s') = {[n := mkPendingLookup l' (Some tx)]} ∧ lk_done l' = false ∧ sent_from l l' ∧
  rtc low_step s1 (dispatch_lookup_batch l e s1).2 ∧
  st_out s' = st_out (dispatch_lookup_batch l e s1).2 ∧ st_answers s' = st_answers s.
Proof.
  intros Hq Hl Hd s1 l'. unfold sweep_one. rewrite bind_run. cbn [gets fst snd].
  rewrite Hl, lookup_singleton_eq, !bind_run. fold s1.
  destruct (dispatch_lookup_batch_runs low_step l e s1 Hq) as [Hs Hf].
  assert (lk_done l' = false) as Hd'.
  { unfold l', dispatch_lookup_batch. rewrite bind_run. change (now_instant e s1).1 with (env_now e (st_tick s)).
    destruct (next_batch l _) as [l1 b]. cbn [fst] in Hd.
    destruct (fold_dispatch_runs low_step b l1 e (now_instant e s1).2 Hq) as [_ [outs ->]]. by rewrite send_batch_done. }
  cbn [pl_lookup pl_reply]. fold l'. rewrite Hd'.
  pose proof (proj1 (low_steps_frame _ _ Hs)) as Hlk. pose proof (proj2 (low_steps_frame _ _ Hs)) as Hans.
  assert (sc_lookups (st_ctx s1) = ∅) as Hno.
  { unfold s1. cbn. rewrite Hl. apply delete_singleton_eq. }
  rewrite Hno in Hlk.
  split; [|by split_and!].
  change (<[n := mkPendingLookup l' (Some tx)]> (sc_lookups (st_ctx (dispatch_lookup_batch l e s1).2)) =
          {[n := mkPendingLookup l' (Some tx)]}). by rewrite Hlk.
Qed.

(** The shard's only lookup: for [k], with caller [tx], waiting for the response numbered
    [corr], its budget not used up during the event. *)
Record only_lookup (k : Key) (tx : Sender) (corr : Z) (e : Env) (n : Z) (l : Lookup) (s : St) : Prop := {
  ol_alone : sc_lookups (st_ctx s) = {[n := mkPendingLookup l (Some tx)]};
  ol_kind : lk_kind l = FindValue;
  ol_target : target l = k;
  ol_awaits : awaits corr (mkPendingLookup l (Some tx)) = true;
  ol_done : lk_done l = false;
  ol_time : ∀ m, (sat_sub (env_now e m) (started l) < budget l)%Z;
}.

Lemma only_asking k tx corr e n l s : only_lookup k tx corr e n l s → asking k tx corr s.
Proof.
  intros [Hl Hk Ht Ha _ _]. exists n, (mkPendingLookup l (Some tx)). rewrite Hl.
  split_and!; [apply lookup_singleton_eq|done..|].
  intros n' p' Hn' _. by apply lookup_singleton_Some in Hn' as [-> _].
Qed.

Lemma awaits_flight corr l tx : awaits corr (mkPendingLookup l tx) = true ↔ ∃ f, f ∈ in_flight l ∧ if_corr f = corr.
Proof.
  unfold awaits. cbn. rewrite existsb_elem. split; intros (f & Hf & Hc); exists f; by rewrite Z.eqb_eq in *.
Qed.

(** A sweep while the lookup waits leaves it waiting. *)
Lemma sweep_waiting k tx corr e n l s :
  queues_sendable s → orders_ok e → lookup_run l → only_lookup k tx corr e n l s →
  let s' := (sweep_lookups e s).2 in
  (∃ l', only_lookup k tx corr e n l' s') ∧ st_out s `prefix_of` st_out s'.
Proof.
  intros Hq Hperm Hrun [Hl Hk Ht Ha Hd Hb]. destruct (lookup_run_inv l Hrun) as (_ & _ & Halpha).
  cbn zeta. rewrite (sweep_single n _ e s Hperm Hl). set (s0 := (read env_ids e s).2).
  pose proof Ha as Ha'. apply awaits_flight in Ha' as (f & Hf & Hc).
  assert (∀ now, (sat_sub now (started l) < budget l)%Z → (next_batch l now).1 = l) as Hnb.
  { intros now Hnow. unfold ALPHA_MAX in Halpha. rewrite next_batch_eq, Hd by lia. rewrite (proj2 (Z.leb_gt _ _)) by done.
    cbn [orb]. cbv zeta. destruct (in_flight l) as [|g fl] eqn:E; [by apply not_elem_of_nil in Hf|].
    cbn [length Nat.eqb]. by rewrite andb_false_r. }
  destruct (sweep_one_goes_on n l tx e s0 Hq Hl) as (Hl' & Hd' & Hsf & Hs & Hout & _); [by rewrite Hnb|].
  set (s1 := (modify _ e s0).2) in *. set (l' := (dispatch_lookup_batch l e s1).1) in *.
  destruct (sent_from_const _ _ Hsf) as (Hk' & Ht' & Hst & Hbu). split.
  - exists l'. split; [done|congruence|congruence| |done|intros m; rewrite Hst, Hbu; apply Hb].
    apply awaits_flight. exists f. split; [|done]. destruct Hsf as (now & outs & Heq).
    unfold l', dispatch_lookup_batch. rewrite bind_run. set (t := (now_instant e s1).1).
    destruct (next_batch l t) as [l1 b] eqn:E. apply fold_dispatch_flight; [done|].
    assert (l1 = l) as -> by (change l1 with ((l1, b).1); rewrite <-E; apply Hnb, Hb). done.
  - rewrite Hout. by apply low_steps_out in Hs.
Qed.

(** A sweep with a peer next in line asks it. *)
Lemma sweep_asks k tx p dest e n l s :
  queues_sendable s → corr_ok s → orders_ok e → plain (st_ctx s) → request_fits k → primary_addr p = Some dest →
  sc_lookups (st_ctx s) = {[n := mkPendingLookup l (Some tx)]} → lk_kind l = FindValue → target l = k →
  length (probe_targets l) ≤ 2 → (∀ m, (sat_sub (env_now e m) (started l) < budget l)%Z) → lk_done l = false →
  (∀ m, (next_batch l (env_now e m)).1 = l ∧ p ∈ (next_batch l (env_now e m)).2 ∧
        length (in_flight l) + length (next_batch l (env_now e m)).2 ≤ 8) →
  let s' := (sweep_lookups e s).2 in
  ∃ corr l', in_u 32 corr ∧ sent_from l l' ∧ only_lookup k tx corr e n l' s' ∧
             OutPlain dest (find_value_datagram corr k) ∈ st_out s'.
Proof.
  intros Hq Hc Hperm Hpl Hfit Hp Hl Hk Ht Hpt Hb Hd Hnb. cbn zeta. rewrite (sweep_single n _ e s Hperm Hl).
  set (s0 := (read env_ids e s).2). destruct (Hnb (st_tick s0)) as (Hnb1 & Hin & Hlen).
  destruct (sweep_one_goes_on n l tx e s0 Hq Hl) as (Hl' & Hd' & Hsf & Hs & Hout & _); [by rewrite Hnb1|].
  set (s1 := (modify _ e s0).2) in *. destruct (sent_from_const _ _ Hsf) as (Hk' & Ht' & Hst & Hbu).
  assert (dispatch_lookup_batch l e s1 =
          fold_ dispatch_one (next_batch l (env_now e (st_tick s0))).2 l e (now_instant e s1).2) as Hdisp.
  { unfold dispatch_lookup_batch. rewrite bind_run. change (now_instant e s1).1 with (env_now e (st_tick s0)).
    destruct (next_batch l _) as [l1 b]. cbn [fst] in Hnb1. by subst l1. }
  destruct (fold_dispatch_asks (next_batch l (env_now e (st_tick s0))).2 l p dest (clear_channel dest (pi_x25519 p)) k e
              (now_instant e s1).2) as (corr & t & o & Hr & Hf & -> & Ho); [done..| |done|].
  { by apply plain_in_clear. }
  rewrite <-Hdisp in Hf, Ho. exists corr, (dispatch_lookup_batch l e s1).1.
  split; [done|]. split; [done|]. split; [|by rewrite Hout].
  split; [done|congruence|congruence| |done|intros m; rewrite Hst, Hbu; apply Hb].
  apply awaits_flight. by eexists.
Qed.

(** The answer that names a peer next in line: the lookup goes on with it. *)
Lemma referral_followed k tx corr closer p dest src au e n l s :
  queues_sendable s → corr_ok s → orders_ok e → plain (st_ctx s) → lookup_run l →
  only_lookup k tx corr e n l s → in_u 32 corr → Forall msg_wf (peers_to_proto closer) → request_fits k →
  next_in_line l (peers_from_proto (peers_to_proto closer)) p → primary_addr p = Some dest →
  let s' := (handle_app src (referral_datagram corr closer) au e s).2 in
  ∃ corr', in_u 32 corr' ∧ OutPlain dest (find_value_datagram corr' k) ∈ st_out s' ∧ asking k tx corr' s'.
Proof.
  intros Hq Hc Hperm Hpl Hrun Hol Hcorr Hwf Hfit Hline Hp. cbn zeta.
  destruct (datagram_decoded FindValueResp (z2b FLAG_RESPONSE) Coordination corr (referral_message closer) Hcorr Hwf)
    as [Hb Hdec].
  change (mkHeader _ _ _ _ _ _) with (value_header corr) in Hb, Hdec. fold (referral_datagram corr closer) in Hb, Hdec.
  rewrite (handle_app_type _ _ _ _ _ _ Hdec) by auto. rewrite bool_decide_eq_false_2 by done.
  unfold on_find_value_resp. rewrite Hb. cbn [referral_message proto.fvr_result proto.fvr_closer_peers].
  set (ps := peers_from_proto _) in *. rewrite !bind_run.
  assert (runs low_step (for_ ps (λ p, table_insert p;; start_punch p src)) (λ _, True)) as Hps.
  { apply (runs_for_all low_step). intros p'.
    apply runs_seq; [exact _|apply (table_insert_ok low_step)|intros _; apply (start_punch_ok low_step)]. }
  destruct (Hps e s Hq) as [Hs _]. pose proof (heard_plain ps src e s) as Hpv.
  set (s1 := (for_ ps _ e s).2) in *.
  pose proof (low_steps_queues _ _ Hs Hq) as Hq1. pose proof (low_steps_corr _ _ Hs Hc) as Hc1.
  apply low_steps_frame in Hs as [Hl1 _].
  destruct Hol as [Hl Hk Ht Ha Hd Hbud]. destruct (lookup_run_inv l Hrun) as (HK & Hpt & Halpha).
  unfold complete_closer. rewrite !bind_run. set (from := (gets _ e s1).1).
  change (gets _ e s1).2 with s1.
  rewrite (update_found n (mkPendingLookup l (Some tx))); [|done|rewrite Hl1, Hl; apply lookup_singleton_eq|exact Ha|].
  2: { intros n' p' Hn' _. rewrite Hl1, Hl in Hn'. by apply lookup_singleton_Some in Hn' as [-> _]. }
  cbn [pl_lookup pl_reply]. set (l0 := on_closer l from ps 50000). set (s2 := (insert_lookup _ _ e _).2).
  assert (sc_lookups (st_ctx s2) = {[n := mkPendingLookup l0 (Some tx)]}) as Hl2.
  { change (sc_lookups (st_ctx s2)) with (<[n := mkPendingLookup l0 (Some tx)]> (sc_lookups (st_ctx s1))).
    rewrite Hl1, Hl. apply insert_singleton_eq. }
  destruct (on_closer_asks l from ps p (env_now e 0) Halpha HK Hd (Hbud _) Hline) as (Hd0 & _).
  destruct (sweep_asks k tx p dest e n l0 s2) as (corr' & l' & Hr' & Hsf & Hol' & Hout'); try done.
  { by eapply plain_of. }
  { intros m. by destruct (on_closer_asks l from ps p (env_now e m) Halpha HK Hd (Hbud _) Hline) as (_ & ? & ? & ?). }
  destruct (sweep_lookups_ok e s2 Hq1) as [Hs3 _].
  pose proof (steps_rtc_queues shard_step _ _ Hs3 Hq1) as Hq3. set (s3 := (sweep_lookups e s2).2) in *.
  assert (lookup_run l') as Hrun' by (eapply lookup_run_sent; [exact Hsf|]; by eapply lookup_run_use; [constructor|]).
  destruct (sweep_waiting k tx corr' e n l' s3 Hq3 Hperm Hrun' Hol') as [[l4 Hol4] Hpre].
  exists corr'. split; [done|]. split; [by eapply elem_of_prefix|by eapply only_asking].
Qed.
End follow.
