(* ===== verification/Network.v ===== *)
(** * A network of shards

    Shards at different addresses and what they write to each other, over a network that
    loses, delays, reorders and repeats datagrams and lets anybody send anything: a value
    put at one shard, passed on to a second, and read at a third, which may have to be led
    there from shard to shard. *)

From S2P Require Import Prelude Bytes Types Proto Codec Routing Crypto Net Peerstore Store Pool Lookup Wg Relay EventLoop Metrics Sybil Erasure ShardState Shard ShardInv ShardThms ShardReplies ShardStore ShardFiles Channel Secure Replica Fetch Follow.

Section network.
Context `{TunnOps} `{KeyedHash} `{Protobuf} `{Crc32}.
Context (rs_encode : list bytes → result (list bytes)).

(** ** Shards *)

(** What a shard does between two looks at its environment: a datagram of the batch, a
    command of the queue, the timers that are due. *)
Inductive Act :=
  | Hear (src : SocketAddr) (pkt : bytes)
  | Serve (cmd : ShardCmd)
  | Timers.

Definition act (a : Act) : M unit :=
  match a with
  | Hear src pkt => receive (src, pkt)
  | Serve cmd => handle_cmd rs_encode cmd
  | Timers => turn_timers
  end.

(** The commands of a turn that are handled: those before a [Shutdown]. *)
Fixpoint served_cmds (cmds : list ShardCmd) : list ShardCmd :=
  match cmds with
  | [] | CmdShutdown :: _ => []
  | cmd :: cmds => cmd :: served_cmds cmds
  end.

Definition turn_acts (batch : list (SocketAddr * bytes)) (queue : list ShardCmd) : list Act :=
  ((λ d, Hear d.1 d.2) <$> batch) ++ (Serve <$> served_cmds (take DRAIN_BATCH queue)) ++ [Timers].

Lemma for_app_run {A} (l1 l2 : list A) k e s : for_ (l1 ++ l2) k e s = (for_ l1 k;; for_ l2 k) e s.
Proof.
  revert s. induction l1 as [|a l1 IH]; intros s; [done|]. cbn [app for_].
  rewrite !bind_run, IH. by rewrite !bind_run.
Qed.

Lemma for_fmap_run {A B} (f : A → B) (l : list A) k e s : for_ (f <$> l) k e s = for_ l (λ a, k (f a)) e s.
Proof. revert s. induction l as [|a l IH]; intros s; [done|]. cbn [fmap list_fmap for_]. by rewrite !bind_run, IH. Qed.

Lemma run_cmds_acts cmds e s :
  (run_cmds rs_encode cmds e s).2 = (for_ (served_cmds cmds) (handle_cmd rs_encode) e s).2.
Proof.
  revert s. induction cmds as [|cmd cmds IH]; intros s; [done|].
  destruct cmd; cbn [run_cmds served_cmds for_]; rewrite ?bind_run; try apply IH; done.
Qed.

(** A turn of the loop is such a sequence. *)
Lemma shard_turn_acts batch queue e s :
  (shard_turn rs_encode batch queue e s).2 = (for_ (turn_acts batch queue) act e s).2.
Proof.
  unfold turn_acts, shard_turn. rewrite drain_cmds_correct, for_app_run, !bind_run, for_fmap_run.
  change (for_ batch (λ d, act (Hear d.1 d.2))) with (for_ batch (λ d, receive (d.1, d.2))).
  assert (for_ batch receive e s = for_ batch (λ d, receive (d.1, d.2)) e s) as ->.
  { clear. revert s. induction batch as [|[a b] batch IH]; intros s; [done|]. cbn [for_]. by rewrite !bind_run, IH. }
  set (s1 := (for_ batch _ e s).2). rewrite for_app_run, bind_run, for_fmap_run.
  change (λ a, act (Serve a)) with (handle_cmd rs_encode). rewrite <-run_cmds_acts.
  cbn [for_]. rewrite bind_run. cbn [act]. unfold turn_timers. by rewrite !bind_run.
Qed.

Lemma act_served a e s : queues_sendable s → ∃ cmds, served cmds s (act a e s).2.
Proof.
  intros Hq. destruct a as [src pkt|cmd|].
  - exists []. by apply ok_served; [apply receive_ok|].
  - destruct (handle_cmd_serves rs_encode cmd e s Hq) as (cmds & Hs & _). by exists cmds.
  - exists []. by apply ok_served; [apply turn_timers_ok|].
Qed.

Lemma served_out cmds s s' : served cmds s s' → st_out s `prefix_of` st_out s'.
Proof.
  induction 1 as [|cmds s s1 s2 Hs _ IH|cmd cmds s s1 s2 Hs _ IH]; [done|..]; (etrans; [|exact IH]).
  - by apply shard_steps_out.
  - destruct Hs as [s1 _ Hl|tx s1 r _ Hl _|tx s1 n l _ _ Hl _ _]; by apply low_steps_out in Hl.
Qed.

(** ** The network

    Every shard at its address.  What it has written stays under [st_out]: a datagram on its
    way may be delivered any number of times, at any time or never, and a [Hear] need not
    have been written by anybody. *)

Notation Network := (gmap SocketAddr St).

Record NetEvent := At { ev_addr : SocketAddr; ev_act : Act; ev_env : Env }.

Definition net_event (net : Network) (ev : NetEvent) : Network :=
  alter (λ s, (act (ev_act ev) (ev_env ev) s).2) (ev_addr ev) net.

Definition net_events (net : Network) (evs : list NetEvent) : Network := foldl net_event net evs.

(** The shard at [a] satisfies [P]. *)
Definition shard_at (net : Network) (a : SocketAddr) (P : St → Prop) : Prop :=
  ∃ s, net !! a = Some s ∧ P s.

(** The shard at [a] has written [pkt] for [dest]. *)
Definition written (a dest : SocketAddr) (pkt : bytes) (net : Network) : Prop :=
  shard_at net a (λ s, OutPlain dest pkt ∈ st_out s ∨ OutWg dest pkt ∈ st_out s).

(** Every shard keeps the invariants of its components. *)
Definition net_ok (net : Network) : Prop := map_Forall (λ _ s, ∃ identity n, safe identity n s) net.

Lemma safe_act identity n a e s : safe identity n s → safe identity n (act a e s).2.
Proof.
  intros Hs. destruct (act_served a e s (sf_queues _ _ _ Hs)) as [cmds Hc]. by eapply served_safe.
Qed.

Lemma net_event_at net a x e s :
  net !! a = Some s → net_event net (At a x e) !! a = Some (act x e s).2.
Proof. intros Hs. unfold net_event. cbn [ev_addr ev_act ev_env]. by rewrite lookup_alter_eq, Hs. Qed.

Lemma net_event_ne net ev a : ev_addr ev ≠ a → net_event net ev !! a = net !! a.
Proof. apply lookup_alter_ne. Qed.

Lemma net_event_inv net ev a s' :
  net_event net ev !! a = Some s' →
  ∃ s, net !! a = Some s ∧ (s' = s ∨ a = ev_addr ev ∧ s' = (act (ev_act ev) (ev_env ev) s).2).
Proof.
  unfold net_event. intros [[<- (s & Hs & ->)]|[Hne Hs]]%lookup_alter_Some; exists s + exists s'; eauto.
Qed.

Lemma net_event_ok net ev : net_ok net → net_ok (net_event net ev).
Proof.
  intros Hok a s' (s & Hs & [->|[_ ->]])%net_event_inv; destruct (Hok a s Hs) as (i & n & Hsafe);
    exists i, n; [done|by apply safe_act].
Qed.

Lemma net_events_ok evs net : net_ok net → net_ok (net_events net evs).
Proof. revert net. induction evs as [|ev evs IH]; intros net Hok; [done|]. by apply IH, net_event_ok. Qed.

Lemma shard_at_inv net a s P : net !! a = Some s → shard_at net a P → P s.
Proof. intros Hs (s' & Hs' & HP). by replace s with s' by congruence. Qed.

(** What was written stays so. *)
Lemma written_event a dest pkt net ev : net_ok net → written a dest pkt net → written a dest pkt (net_event net ev).
Proof.
  intros Hok (s & Hs & Hw). destruct (decide (ev_addr ev = a)) as [<-|Hne].
  2: { exists s. by rewrite net_event_ne. }
  destruct ev as [a x e]. cbn in *. exists (act x e s).2. split; [by apply net_event_at|].
  destruct (Hok a s Hs) as (i & n & Hsafe), (act_served x e s) as [cmds Hc]; [by eapply sf_queues|].
  apply served_out in Hc. destruct Hw as [Hw|Hw]; [left|right]; by eapply elem_of_prefix.
Qed.

Lemma written_events evs a dest pkt net :
  net_ok net → written a dest pkt net → written a dest pkt (net_events net evs).
Proof.
  revert net. induction evs as [|ev evs IH]; intros net Hok Hw; [done|].
  apply IH; [by apply net_event_ok|by apply written_event].
Qed.
(** ** What the network leaves alone *)

(** What a shard that holds [r] until [t] may be sent without harm: a record for another key,
    a forgery that does not verify, an older mutable version, or [r] again.  (The rest can
    harm: a record of the provider kind is accepted unverified, [provider_kind_overwrites],
    and a copy of an immutable record with another time to live replaces it.) *)
Definition harmless (r : StoredRecord) (t : Z) (r' : StoredRecord) : Prop :=
  key r' ≠ key r ∨ authentic r' = false ∨ (kind r' = KIND_MUTABLE ∧ sequence r' ≤ sequence r)%Z ∨
  ∃ now, (t ≤ now + ttl_secs r)%Z ∧ r' = restamp now r.

(** The clock reads no time after [t], and none so early that a copy of [r] that arrives
    then would be up by [t]. *)
Definition clock_near (r : StoredRecord) (t : Z) (e : Env) : Prop :=
  ∀ n, (env_unix e n ≤ t ≤ env_unix e n + ttl_secs r)%Z.

(** The store holds [r], whenever it was stored, and its time is not up at [t]. *)
Definition held (r : StoredRecord) (t : Z) (s : Store) : Prop := ∃ now, holds (key r) (restamp now r) t s.

(** Until [t] the shard at [a] hears no WireGuard packet, and is sent and given only records
    that do not harm [r]; what else it hears, serves and times is arbitrary. *)
Definition undisturbed (a : SocketAddr) (r : StoredRecord) (t : Z) (ev : NetEvent) : Prop :=
  ev_addr ev = a → clock_near r t (ev_env ev) ∧
  match ev_act ev with
  | Hear _ pkt => looks_like_wg pkt = false ∧ ∀ r', brings (clock_near r t) pkt r' → harmless r t r'
  | Serve cmd => ∀ r', cmd_brings (clock_near r t) cmd r' → harmless r t r'
  | Timers => True
  end.

(** The datagram of a STORE request brings its record, and nothing else. *)
Lemma store_brings C corr r r' :
  wire_ok r → brings C (store_datagram corr r) r' → ∃ now, reads C now ∧ r' = restamp now r.
Proof.
  intros [Hwf Httl] Hb.
  inversion Hb as [? h req pr now ? _ _ Hreq Hpr Hn Hr|? h f ? Hh Hty]; subst.
  - rewrite decode_store_datagram in Hreq. injection Hreq as <-. cbn [store_message proto.sq_record] in Hpr.
    unfold StoredRecord_encode in Hpr. rewrite decode_encode_msg in Hpr by done. injection Hpr as <-.
    rewrite record_from_to_proto in Hr by done. injection Hr as <-. by exists now.
  - exfalso. destruct (Header_decode_type (Header_request StoreReq Coordination corr) (encode_to_vec (store_message r)) eq_refl)
      as (h'' & Hd & Ht & _). fold (store_datagram corr r) in Hd. cbn in Ht. congruence.
Qed.

(** A copy of a STORE request does no harm to its record. *)
Lemma copy_harmless corr r t r' : wire_ok r → brings (clock_near r t) (store_datagram corr r) r' → harmless r t r'.
Proof. intros Hw (now & (e & n & Hc & ->) & ->)%store_brings; [|done]. do 3 right. eexists. split; [|done]. apply Hc. Qed.

(** Nor does a forged one. *)
Lemma forged_harmless corr f r t r' :
  wire_ok f → authentic f = false → brings (clock_near r t) (store_datagram corr f) r' → harmless r t r'.
Proof. intros Hw Ha (now & _ & ->)%store_brings; [|done]. right. left. by rewrite authentic_restamp. Qed.

(** Nor does putting the same value again. *)
Lemma again_harmless now v ttl t tx r' :
  let r := immutable_record now v ttl in
  cmd_brings (clock_near r t) (CmdPut v ttl tx) r' → harmless r t r'.
Proof. intros r (now' & (e & n & Hc & ->) & ->). do 3 right. eexists. split; [|done]. apply Hc. Qed.

Lemma restamp_unexpired r t now : (t ≤ now + ttl_secs r)%Z → (0 ≤ ttl_secs r)%Z → expired (restamp now r) t = false.
Proof. intros Hn Hp. unfold expired, sat_sub. cbn. apply Z.ltb_ge. lia. Qed.

Lemma held_insert r t s r' :
  (0 ≤ ttl_secs r)%Z → authentic r' = true → ¬ (key r' = key r ∧ kind r' = KIND_MUTABLE ∧ sequence r' ≤ sequence r)%Z →
  harmless r t r' → held r t s → held r t (insert_record (queue_record s r') r').
Proof.
  intros Hp Ha Hm [Hk|[Hk|[Hk|(now & Hn & ->)]]] (now' & Hr & He).
  - exists now'. split; [|done]. cbn. rewrite lookup_insert_ne by done. unfold queue_record. by destruct (st_dir s).
  - congruence.
  - destruct (decide (key r' = key r)) as [Heq|Hne]; [naive_solver|].
    exists now'. split; [|done]. cbn. rewrite lookup_insert_ne by done. unfold queue_record. by destruct (st_dir s).
  - exists now. split; [apply lookup_insert_eq|by apply restamp_unexpired].
Qed.

Section held.
Context (r : StoredRecord) (t : Z) (Hkind : kind r ≠ KIND_TOMBSTONE) (Hpos : (0 ≤ ttl_secs r)%Z).

(** An older version is stale. *)
Lemma older_stale s r' :
  key r' = key r → kind r' = KIND_MUTABLE → (sequence r' ≤ sequence r)%Z → held r t s →
  put_record_check s r' ≠ Ok tt.
Proof.
  intros Hk Hm Hs (now & Hr & _) (_ & _ & _ & Hseq)%put_record_check_ok.
  specialize (Hseq Hm (restamp now r)). rewrite Hk in Hseq. specialize (Hseq Hr Hkind). cbn in Hseq. lia.
Qed.

#[export] Instance held_FilesUse : FilesUse (clock_near r t) (λ x, held r t x.1.1) (harmless r t).
Proof.
  split.
  - done.
  - done.
  - intros s ps d now rec. unfold cache_hit. by case_match.
  - intros s ps d rec probe Hg Hh. cbn [fst]. unfold put_record.
    destruct (put_record_check s rec) as [[]|] eqn:E; [|exact Hh].
    assert (held r t (insert_record (queue_record s rec) rec)) as Hi.
    { apply held_insert; [done|by apply put_record_check_ok in E as [? _]| |done|done].
      intros (? & ? & ?). by apply (older_stale s rec) in E. }
    destruct (kind rec =? KIND_TOMBSTONE)%Z; [exact Hi|]. by destruct probe.
  - intros s ps d now v ttl Hg Hh. cbn [fst]. unfold put_immutable_ttl. destruct (_ <? _)%Z; [exact Hh|].
    apply held_insert; [done|apply authentic_immutable|by intros (_ & [=] & _)|done|done].
  - intros [[s ps] d] Hh. unfold flush_files. destruct (flush_wal s ps) as [s' ps'] eqn:E. injection E as <- _.
    destruct (Peerstore_flush _ _) as [[? ?] ?]. exact Hh.
  - intros e n [[s ps] d] Hc [now Hh]. exists now. apply gc_holds; [apply Hc|exact Hh].
Qed.

Lemma undisturbed_act x e s a :
  undisturbed a r t (At a x e) → held r t (sc_store (st_ctx s)) → held r t (sc_store (st_ctx (act x e s).2)).
Proof.
  intros Hu Hh. destruct (Hu eq_refl) as [Hc Hx]. cbn [ev_act ev_env] in Hx, Hc.
  assert (stays (clock_near r t) (λ x, held r t x.1.1) (act x)) as Hst; [|by apply (Hst e s)].
  destruct x as [src pkt|cmd|]; cbn [act].
  - destruct Hx as [Hw Hb]. apply (receive_clear_stays _ _ (harmless r t) (src, pkt)); [exact Hw|exact Hb].
  - apply (handle_cmd_stays _ _ (harmless r t)). exact Hx.
  - apply (turn_timers_stays _ _ (harmless r t)).
Qed.
End held.

(** The shard at [b] keeps [rec] until [t]. *)
Definition keeping (net : Network) (b : SocketAddr) (rec : StoredRecord) (t : Z) : Prop :=
  kind rec ≠ KIND_TOMBSTONE ∧ wire_ok rec ∧ shard_at net b (λ s, held rec t (sc_store (st_ctx s))).

Lemma keeping_events evs net b rec t :
  Forall (undisturbed b rec t) evs → keeping net b rec t → keeping (net_events net evs) b rec t.
Proof.
  intros Hevs. revert net. induction Hevs as [|[y x e] evs Hev _ IH]; intros net HB; [done|].
  apply IH. destruct HB as (Hkind & Hw & s & Hs & Hh). do 2 (split; [done|]). destruct (decide (y = b)) as [->|Hne].
  - eexists. split; [by apply net_event_at|]. apply (undisturbed_act rec t Hkind) with (a := b); [|done..].
    destruct Hw as [(_ & Ht & _) _]. apply Ht.
  - exists s. by rewrite net_event_ne.
Qed.

Lemma keeping_elsewhere net b rec t x e y : y ≠ b → keeping net b rec t → keeping (net_event net (At y x e)) b rec t.
Proof. intros Hy (Hk & Hw & s & Hs & Hh). do 2 (split; [done|]). exists s. by rewrite net_event_ne. Qed.

(** ** Who can be reached *)

(** Among the [n] closest peers of [k] the shard knows there is one at [dest], and what it
    sends there goes straight to it, unencrypted. *)
Definition knows (n : nat) (k : Key) (dest : SocketAddr) (s : St) : Prop :=
  in_clear (st_ctx s) dest ∧ ∃ p, p ∈ closest (sc_table (st_ctx s)) k n ∧ primary_addr p = Some dest.

(** A get at this shard asks the shard at [dest]. *)
Definition may_ask (k : Key) (dest : SocketAddr) (e : Env) (s : St) : Prop :=
  sc_lookups (st_ctx s) = ∅ ∧ prompt e ∧ not_held k e s ∧ knows ALPHA_DEFAULT k dest s.

(** The answer to a request from [dest] goes straight back and, with the peers that come
    with the record, fits a datagram. *)
Definition can_reply (rec : StoredRecord) (dest : SocketAddr) (s : St) : Prop :=
  let closer := closest (sc_table (st_ctx s)) (key rec) MAX_CLOSER_PEERS in
  in_clear (st_ctx s) dest ∧ Forall msg_wf (peers_to_proto closer) ∧
  HEADER_LEN + length (encode_to_vec (value_message rec closer)) ≤ PMTU_FLOOR.

(** The shard has no record and no providers for [k]; its answer to [dest] names [closer]. *)
Definition refers (k : Key) (dest : SocketAddr) (closer : list PeerInfo) (e : Env) (s : St) : Prop :=
  in_clear (st_ctx s) dest ∧ not_held k e s ∧ not_provided k e s ∧
  closest (sc_table (st_ctx s)) k MAX_CLOSER_PEERS = closer ∧ Forall msg_wf (peers_to_proto closer) ∧
  HEADER_LEN + length (encode_to_vec (referral_message closer)) ≤ PMTU_FLOOR.

(** The shard's only lookup waits for the answer numbered [corr]; among the peers [closer]
    that the answer names, [p] is next in line. *)
Definition follows (k : Key) (tx : Sender) (corr : Z) (closer : list PeerInfo) (p : PeerInfo) (e : Env) (s : St)
    : Prop :=
  plain (st_ctx s) ∧
  ∃ n l, only_lookup k tx corr e n l s ∧ next_in_line l (peers_from_proto (peers_to_proto closer)) p.

(** The counters of [receive]. *)
Definition counted (pkt : bytes) (e : Env) (s : St) : St :=
  (add_metric MRxBytes (Z.of_nat (length pkt)) e (incr MRxPackets e s).2).2.

Lemma act_hear src pkt e s : (act (Hear src pkt) e s).2 = (handle_datagram src pkt e (counted pkt e s)).2.
Proof. cbn [act]. unfold receive. by rewrite !bind_run. Qed.

Lemma counted_admitted src pkt e s : admitted src e s → admitted src e (counted pkt e s).
Proof. done. Qed.

(** ** The stages of an exchange *)

Lemma safe_of net a s : net_ok net → net !! a = Some s → queues_sendable s ∧ corr_ok s.
Proof. intros Hok Hs. destruct (Hok a s Hs) as (i & n & [Hi _ Hq]). split; [done|apply (si_corr i n), Hi]. Qed.

Lemma net_put net a b v ttl tx e :
  net_ok net → shard_at net a (knows K_DEFAULT (hash_value v) b) →
  (Z.of_nat (length v) ≤ 64 * 1024)%Z → one_datagram (immutable_record 0 v ttl) →
  ∃ corr, written a b (store_datagram corr (immutable_record 0 v ttl))
            (net_event net (At a (Serve (CmdPut v ttl tx)) e)).
Proof.
  intros Hok (s & Hs & Hcl & p & Hin & Hp) Hlen Hfit. destruct (safe_of net a s Hok Hs) as [Hq _].
  destruct (put_carried rs_encode v ttl tx p (clear_channel b (pi_x25519 p)) e s) as (corr & o & -> & Hout); [done..|].
  exists corr. eexists. split; [by apply net_event_at|]. by left.
Qed.

Lemma net_stored net b src corr v ttl t e :
  shard_at net b (admitted src e) → (Z.of_nat (length v) ≤ 64 * 1024)%Z → (0 < ttl)%Z → in_u 64 ttl →
  (∀ n, t ≤ env_unix e n + ttl)%Z →
  keeping (net_event net (At b (Hear src (store_datagram corr (immutable_record 0 v ttl))) e)) b
    (immutable_record 0 v ttl) t.
Proof.
  intros (s & Hs & Hadm) Hlen Hpos Httl Ht. set (pkt := store_datagram _ _).
  destruct (store_datagram_header corr (immutable_record 0 v ttl)) as [h Hh].
  destruct (store_held corr 0 v ttl t src pkt e _ _ (clear_arrives src pkt h e (counted pkt e s) Hh))
    as [now Hheld]; [by apply counted_admitted|done..|].
  split; [done|]. split; [by apply immutable_wire_ok|].
  eexists. split; [by apply net_event_at|]. rewrite act_hear. by exists now.
Qed.

Lemma net_get net c b k tx e :
  net_ok net → shard_at net c (may_ask k b e) → request_fits k →
  let net' := net_event net (At c (Serve (CmdGet k tx)) e) in
  ∃ corr, in_u 32 corr ∧ written c b (find_value_datagram corr k) net' ∧ shard_at net' c (asking k tx corr).
Proof.
  intros Hok (s & Hs & Hno & He & Hnot & Hcl & p & Hin & Hp) Hfit. destruct (safe_of net c s Hok Hs) as [Hq Hc].
  destruct (get_asks rs_encode k tx p b (clear_channel b (pi_x25519 p)) e s)
    as (corr & o & Hr & -> & Hout & Hask); [done..|].
  exists corr. split; [done|].
  split; eexists; (split; [by apply net_event_at|]); [by left|done].
Qed.

Lemma net_served net b src corr rec t e :
  in_u 32 corr → kind rec ≠ KIND_TOMBSTONE → clock_until t e →
  shard_at net b (λ s, holds (key rec) rec t (sc_store (st_ctx s))) → shard_at net b (can_reply rec src) →
  ∃ closer, Forall msg_wf (peers_to_proto closer) ∧
    written b src (value_datagram corr rec closer)
      (net_event net (At b (Hear src (find_value_datagram corr (key rec))) e)).
Proof.
  intros Hc Hkind Hclock (s & Hs & Hh) (s' & Hs' & Hcl & Hwf & Hfit). assert (s' = s) as -> by congruence.
  destruct (find_value_decoded corr (key rec) Hc) as [_ Hreq].
  set (pkt := find_value_datagram _ _) in *.
  destruct (value_sent (key rec) corr rec t src false (clear_channel src None) e (counted pkt e s))
    as (o & -> & Hout); [done..|].
  eexists. split; [exact Hwf|]. eexists. split; [by apply net_event_at|]. left.
  rewrite act_hear. unfold pkt at 1. by rewrite (clear_handled _ _ _ _ _ Hreq).
Qed.

Lemma net_answered net c src k tx corr rec closer e :
  net_ok net → shard_at net c (asking k tx corr) → orders_ok e → in_u 32 corr →
  wire_ok rec → authentic rec = true → Forall msg_wf (peers_to_proto closer) →
  ∃ now, shard_at (net_event net (At c (Hear src (value_datagram corr rec closer)) e)) c
           (λ s, (tx, RRecord (Some (restamp now rec))) ∈ st_answers s).
Proof.
  intros Hok (s & Hs & Hask) Hperm Hc Hw Hauth Hwf. destruct (safe_of net c s Hok Hs) as [Hq _].
  destruct (value_decoded corr rec closer Hc Hwf) as [_ Hval]. set (pkt := value_datagram _ _ _) in *.
  destruct (asking_answered k tx corr rec closer src pkt e (counted pkt e s) (counted pkt e s))
    as (l & now & Hl & Hin); [done|by eapply clear_arrives|done..|].
  exists now. eexists. split; [by apply net_event_at|]. rewrite act_hear, Hl. apply elem_of_app. by right.
Qed.

(** However a request for the record of the shard at [b] gets there, and however the answer
    gets back to [c] while the lookup for it waits, the caller at [c] is answered with the
    record, stamped on arrival. *)
Definition fetched (net : Network) (b c : SocketAddr) (rec : StoredRecord) (t : Z) (tx : Sender)
    (request : bytes) (corr : Z) : Prop :=
  ∀ evs e, let net1 := net_events net evs in
    Forall (undisturbed b rec t) evs → clock_until t e → shard_at net1 b (can_reply rec c) →
  let net2 := net_event net1 (At b (Hear c request) e) in
  ∃ reply, written b c reply net2 ∧
  ∀ evs' e' from, let net3 := net_events net2 evs' in
    shard_at net3 c (asking (key rec) tx corr) → orders_ok e' →
  let net4 := net_event net3 (At c (Hear from reply) e') in
  ∃ now, shard_at net4 c (λ s, (tx, RRecord (Some (restamp now rec))) ∈ st_answers s).

Lemma net_fetched net b c rec t tx corr :
  net_ok net → in_u 32 corr → authentic rec = true → keeping net b rec t →
  fetched net b c rec t tx (find_value_datagram corr (key rec)) corr.
Proof.
  intros Hok Hr Hauth HB evs e net1 Hevs Hclock Hreply net2.
  pose proof (keeping_events evs net b rec t Hevs HB) as (Hkind & Hw & s & Hs & now & Hh). fold net1 in Hs.
  destruct (net_served net1 b c corr (restamp now rec) t e Hr Hkind Hclock) as (closer & Hwf & Hwr);
    [by exists s|exact Hreply|].
  eexists. split; [exact Hwr|]. intros evs' e' from net3 Hask Hperm net4.
  assert (net_ok net3) as Hok3 by by apply net_events_ok, net_event_ok, net_events_ok.
  by apply (net_answered net3 c from (key rec) tx corr rec closer e' Hok3 Hask Hperm Hr).
Qed.

Lemma net_referred net d c corr k closer e :
  in_u 32 corr → shard_at net d (refers k c closer e) →
  written d c (referral_datagram corr closer) (net_event net (At d (Hear c (find_value_datagram corr k)) e)).
Proof.
  intros Hr (s & Hs & Hcl & Hnot & Hprov & <- & Hwf & Hfit).
  destruct (find_value_decoded corr k Hr) as [_ Hreq]. set (pkt := find_value_datagram _ _) in *.
  destruct (referral_sent k corr c false (clear_channel c None) e (counted pkt e s)) as (o & -> & Hout); [done..|].
  eexists. split; [by apply net_event_at|]. left. rewrite act_hear. unfold pkt at 1.
  by rewrite (clear_handled _ _ _ _ _ Hreq).
Qed.

Lemma net_followed net b c from corr k tx closer p e :
  net_ok net → in_u 32 corr → Forall msg_wf (peers_to_proto closer) → request_fits k →
  shard_at net c (follows k tx corr closer p e) → primary_addr p = Some b → orders_ok e →
  let net' := net_event net (At c (Hear from (referral_datagram corr closer)) e) in
  ∃ corr', in_u 32 corr' ∧ written c b (find_value_datagram corr' k) net' ∧ shard_at net' c (asking k tx corr').
Proof.
  intros Hok Hr Hwf Hfit (s & Hs & Hpl & n & l & Hol & Hline) Hp Hperm. destruct (safe_of net c s Hok Hs) as [Hq Hc].
  destruct (Hok c s Hs) as (i & m & Hsafe).
  assert (lookup_run l) as Hrun.
  { apply (si_lookups i m _ (sf_inv i m s Hsafe) n (mkPendingLookup l (Some tx))).
    rewrite (ol_alone _ _ _ _ _ _ _ Hol). apply lookup_singleton_eq. }
  set (pkt := referral_datagram corr closer).
  destruct (referral_followed k tx corr closer p b from false e n l (counted pkt e s))
    as (corr' & Hr' & Hout & Hask); [done|done|done|done|done|by destruct Hol; split|done..|].
  assert (Header_decode pkt = Some (value_header corr)) as Hdec.
  { apply (datagram_decoded FindValueResp (z2b FLAG_RESPONSE) Coordination corr (referral_message closer) Hr Hwf). }
  assert ((act (Hear from pkt) e s).2 = (handle_app from pkt false e (counted pkt e s)).2) as Heq.
  { by rewrite act_hear, (clear_handled _ _ _ _ _ Hdec). }
  exists corr'. split; [done|].
  split; eexists; (split; [by apply net_event_at|]); fold pkt; rewrite Heq; [by left|done].
Qed.

(** C3: a value put at one shard of a network is read at another that has never seen it.
    The shards of the network keep their invariants ([net_ok], as all that run from a start
    do), the STORE request fits one datagram, and the time to live is not zero.  Shard A knows
    shard B among the peers closest to the key, and sends to it directly and in the clear.  Then the put writes a STORE request for B.  Whenever that reaches B,
    after any events anywhere, if B's rate limit lets A through, B keeps the value until [t],
    at most its time to live after B's clock at that moment, through all events that leave
    the record undisturbed: B hears no WireGuard packets, its clock stays within the time to
    live before [t], and the records that come to it for the key are copies of this one
    (repeated requests, the same put again), do not verify, or are mutable and not newer;
    what else B hears in the clear and serves, and all that happens at other shards, is
    arbitrary.  A get at C, which has no record, runs no lookup and knows B, writes a request
    for B; when that reaches B, undisturbed till then, and B's answer fits one datagram and
    goes straight back, B writes the answer for C; and when that reaches C, after any events
    anywhere, while C's lookup still waits for it, the caller at C is answered with the value
    ([fetched]). *)
Theorem network_put_get (net : Network) (a b c : SocketAddr) (v : bytes) (ttl t : Z) (tx txC : Sender) (eA : Env) :
  let k := hash_value v in
  let rec := immutable_record 0 v ttl in
  net_ok net → c ≠ b → shard_at net a (knows K_DEFAULT k b) →
  (Z.of_nat (length v) ≤ 64 * 1024)%Z → one_datagram rec → request_fits k → (0 < ttl)%Z → in_u 64 ttl →
  let net1 := net_event net (At a (Serve (CmdPut v ttl tx)) eA) in
  ∃ store, written a b store net1 ∧
  ∀ evs1 eB, let net2 := net_events net1 evs1 in
    shard_at net2 b (admitted a eB) → (∀ n, t ≤ env_unix eB n + ttl)%Z →
  let net3 := net_event net2 (At b (Hear a store) eB) in
  ∀ evs2 eC, let net4 := net_events net3 evs2 in
    Forall (undisturbed b rec t) evs2 → shard_at net4 c (may_ask k b eC) →
  let net5 := net_event net4 (At c (Serve (CmdGet k txC)) eC) in
  ∃ request corr, written c b request net5 ∧ shard_at net5 c (asking k txC corr) ∧
    fetched net5 b c rec t txC request corr.
Proof.
  intros k rec Hok Hcb HA Hlen Hfit Hreq Hpos Httl net1.
  pose proof (net_event_ok net (At a (Serve (CmdPut v ttl tx)) eA) Hok) as Hok1. fold net1 in Hok1.
  destruct (net_put net a b v ttl tx eA) as [corr1 Hst]; [done..|].
  eexists. split; [exact Hst|]. intros evs1 eB net2 Hadm Ht net3 evs2 eC net4 Hevs2 HC net5.
  assert (net_ok net4) as Hok4 by by apply net_events_ok, net_event_ok, net_events_ok.
  pose proof (net_stored net2 b a corr1 v ttl t eB Hadm Hlen Hpos Httl Ht) as HB. fold net3 in HB.
  apply (keeping_events evs2 _ _ _ _ Hevs2) in HB. fold net4 in HB.
  destruct (net_get net4 c b k txC eC) as (corr & Hr & Hget & Hask); [done..|]. fold net5 in Hget, Hask.
  exists (find_value_datagram corr k), corr. split_and!; [done..|].
  apply (net_fetched net5 b c rec t txC corr); [by apply net_event_ok|done|apply authentic_immutable|].
  by apply keeping_elsewhere.
Qed.

(** A lookup at [c] that has asked [at_] is led on along [hops]: whenever the shard asked has
    no record and knows peers nearer to the key, its answer names them, and when that
    reaches [c], from any address, while [c]'s only lookup waits for it and has the next hop
    first in line among them, [c] asks the next hop.  From the last one, [b], the record is
    [fetched].  Between any two of these events there may be any others that leave the record
    of [b] undisturbed. *)
Fixpoint led (net : Network) (b c at_ : SocketAddr) (rec : StoredRecord) (t : Z) (tx : Sender) (corr : Z)
    (hops : list SocketAddr) : Prop :=
  let request := find_value_datagram corr (key rec) in
  match hops with
  | [] => fetched net b c rec t tx request corr
  | next :: hops =>
      ∀ evs e closer, let net1 := net_events net evs in
        Forall (undisturbed b rec t) evs → shard_at net1 at_ (refers (key rec) c closer e) →
      let net2 := net_event net1 (At at_ (Hear c request) e) in
      let referral := referral_datagram corr closer in
      written at_ c referral net2 ∧
      ∀ evs' e' from p, let net3 := net_events net2 evs' in
        Forall (undisturbed b rec t) evs' → shard_at net3 c (follows (key rec) tx corr closer p e') →
        primary_addr p = Some next → orders_ok e' →
      let net4 := net_event net3 (At c (Hear from referral) e') in
      ∃ corr', written c next (find_value_datagram corr' (key rec)) net4 ∧
        shard_at net4 c (asking (key rec) tx corr') ∧ led net4 b c next rec t tx corr' hops
  end.

Lemma net_led mids net b c d hops rec t tx corr :
  mids ++ [b] = d :: hops → Forall (λ x, x ≠ b) (c :: mids) →
  net_ok net → keeping net b rec t → authentic rec = true → request_fits (key rec) → in_u 32 corr →
  led net b c d rec t tx corr hops.
Proof.
  revert net d hops corr. induction mids as [|d' mids IH]; intros net d hops corr Hpath Hne Hok HB ???;
    apply Forall_cons in Hne as [Hcb Hmids].
  { injection Hpath as <- <-. by apply net_fetched. }
  apply Forall_cons in Hmids as [Hdb Hmids]. injection Hpath as <- Hpath.
  destruct hops as [|next hops]; [by destruct mids|]. cbn [led].
  intros evs e closer Hevs HD.
  split; [by apply net_referred|].
  intros evs' e' from p Hevs' Hfol Hp Hperm. set (net3 := net_events (net_event _ _) evs') in *.
  assert (net_ok net3) as Hok3 by by apply net_events_ok, net_event_ok, net_events_ok.
  assert (Forall msg_wf (peers_to_proto closer)) as Hwf by (destruct HD as (s & _ & _ & _ & _ & _ & Hwf & _); exact Hwf).
  destruct (net_followed net3 next c from corr (key rec) tx closer p e') as (corr' & Hr' & Hwr & Hask'); [done..|].
  exists corr'. split_and!; [done..|].
  apply IH; [done|by constructor|by apply net_event_ok| |done..].
  by apply keeping_elsewhere, keeping_events, keeping_elsewhere, keeping_events.
Qed.

(** C4: a lookup finds the record beyond the peers its shard knows, hop by hop.  In a network
    whose shards keep their invariants B holds an authentic record, no tombstone; C has none, runs no lookup and knows D.  Then the get at C writes a
    request for D.  The lookup is led along any list of shards to B as long as it progresses
    at every hop: the shard asked, when the request reaches it, has neither the record nor
    providers for the key, answers C in the clear, and then its answer, which names its
    closest peers, is written for C; and when that answer reaches C, C's only lookup waits
    for it, C sends in the clear, and the next hop is first in line among the peers named.
    Then C writes a request for the next hop ([led]), and in the end one for B, whose answer
    gets the caller at C the record ([fetched]).  Before and between these events come any
    others that leave B's record undisturbed (see [undisturbed]: no WireGuard packets at B,
    its clock within the time to live before [t], and for this key only copies, records that
    do not verify and mutable ones that are not newer); the conditions on each hop are on
    the states that those leave. *)
Theorem network_lookup (mids : list SocketAddr) (net : Network) (b c d : SocketAddr) (hops : list SocketAddr)
    (rec : StoredRecord) (t : Z) (tx : Sender) (e : Env) :
  mids ++ [b] = d :: hops → Forall (λ x, x ≠ b) (c :: mids) →
  net_ok net → keeping net b rec t → authentic rec = true → request_fits (key rec) →
  shard_at net c (may_ask (key rec) d e) →
  let net1 := net_event net (At c (Serve (CmdGet (key rec) tx)) e) in
  ∃ corr, written c d (find_value_datagram corr (key rec)) net1 ∧ shard_at net1 c (asking (key rec) tx corr) ∧
    led net1 b c d rec t tx corr hops.
Proof.
  intros Hpath Hne Hok HB Hauth Hfit HC net1.
  destruct (net_get net c d (key rec) tx e) as (corr & Hr & Hget & Hask); [done..|]. fold net1 in Hget, Hask.
  exists corr. split_and!; [done..|].
  apply (net_led mids); [done|done|by apply net_event_ok| |done..].
  apply Forall_cons in Hne as [Hcb _]. by apply keeping_elsewhere.
Qed.
End network.

#[local] Existing Instance toy_crypto.
#[local] Existing Instance toy_tunn.
#[local] Existing Instance toy_keyed.
#[local] Existing Instance crc_ieee_inst.
#[local] Existing Instance wire_protobuf.

(** Two shards that know the one at address 5. *)
Definition sample_net : gmap SocketAddr St :=
  <[toy_addr 3 := sample_peer_St]> (<[toy_addr 5 := sample_St]> {[toy_addr 9 := sample_peer_St]}).

Lemma sample_net_ok : net_ok sample_net.
Proof.
  pose proof (St_new_safe 0 sample_identity (mkNodeConfig (toy_addr 0) 1 [] true false false false) (toy_addr 0)
    (empty_dir 0) (false, false) 0) as Hs. fold sample_St in Hs.
  pose proof (safe_act no_erasure sample_identity 0
    (Serve (CmdInjectPeer (PeerInfo_new (sample_node 2) (toy_addr 5)))) (sample_env 0) sample_St Hs) as Hp.
  fold sample_peer_St in Hp.
  apply map_Forall_insert_2; [|apply map_Forall_insert_2; [|apply map_Forall_singleton]];
    by exists sample_identity, 0%Z.
Qed.

(** What the holder hears meanwhile: the request again, a forged value, and noise. *)
Definition sample_forged : StoredRecord :=
  let r := immutable_record 0 (bstr "v") 60 in
  mkStoredRecord (key r) (bstr "w") (sequence r) (ttl_secs r) (not_before_unix r) (owner_pubkey r) (signature r)
    (kind r) (namespace r) (salt r) (stored_unix r) (cache r).

Definition sample_disturbance : list NetEvent :=
  let at_ x := At (toy_addr 5) x (sample_env 0) in
  [at_ (Hear (toy_addr 3) (store_datagram 1 (immutable_record 0 (bstr "v") 60)));
   at_ (Hear (toy_addr 7) (store_datagram 1 sample_forged));
   at_ (Hear (toy_addr 7) (bstr "noise"));
   at_ (Serve (CmdPut (bstr "v") 60 9))].

Lemma sample_undisturbed :
  Forall (undisturbed (toy_addr 5) (immutable_record 0 (bstr "v") 60) 1060) sample_disturbance.
Proof.
  assert (wire_ok (immutable_record 0 (bstr "v") 60)) as Hw by (apply immutable_wire_ok; [lia|unfold in_u; lia]).
  assert (clock_near (immutable_record 0 (bstr "v") 60) 1060 (sample_env 0)) as Hc by (intros m; cbn; lia).
  repeat apply Forall_cons_2; [..|apply Forall_nil_2]; (intros _; split; [exact Hc|]).
  - split; [reflexivity|]. intros r'. by apply copy_harmless.
  - split; [reflexivity|]. intros r'. apply forged_harmless; [|vm_compute; reflexivity].
    split; [|discriminate]. apply (bool_decide_unpack _). vm_compute. exact I.
  - split; [reflexivity|]. intros r' Hb. exfalso.
    inversion Hb as [? h ? ? ? ? Hh|? h ? ? Hh]; vm_compute in Hh; discriminate Hh.
  - intros r'. apply (again_harmless 0 (bstr "v") 60 1060 9).
Qed.

(** Find a shard in a network after some events. *)
Ltac look :=
  unfold net_events, sample_disturbance; cbn zeta; cbn [foldl];
  repeat first [apply net_event_at|rewrite net_event_ne by discriminate]; reflexivity.

Lemma network_put_get_witness :
  let v := bstr "v" in
  let k := hash_value v in
  let e := sample_env 0 in
  let go := net_event no_erasure in
  let net1 := go sample_net (At (toy_addr 3) (Serve (CmdPut v 60 7)) e) in
  ∃ store request reply now,
    written (toy_addr 3) (toy_addr 5) store net1 ∧
    let net3 := go (go net1 (At (toy_addr 5) Timers e)) (At (toy_addr 5) (Hear (toy_addr 3) store) e) in
    let net4 := net_events no_erasure net3 sample_disturbance in
    let net5 := go net4 (At (toy_addr 9) (Serve (CmdGet k 8)) e) in
    written (toy_addr 9) (toy_addr 5) request net5 ∧
    let net7 := go net5 (At (toy_addr 5) (Hear (toy_addr 9) request) e) in
    written (toy_addr 5) (toy_addr 9) reply net7 ∧
    let net9 := go net7 (At (toy_addr 9) (Hear (toy_addr 5) reply) e) in
    shard_at net9 (toy_addr 9) (λ s, (8, RRecord (Some (immutable_record now v 60))) ∈ st_answers s).
Proof.
  intros v k e go net1.
  destruct (network_put_get no_erasure sample_net (toy_addr 3) (toy_addr 5) (toy_addr 9) v 60 1060 7 8 e)
    as (store & Hstore & H1).
  - apply sample_net_ok.
  - discriminate.
  - exists sample_peer_St. split; [reflexivity|]. split; [split; vm_compute; reflexivity|].
    exists (PeerInfo_new (sample_node 2) (toy_addr 5)). split; [|reflexivity].
    apply (list_elem_of_lookup_2 _ 0). vm_compute. reflexivity.
  - vm_compute. discriminate.
  - apply Nat.leb_le. vm_compute. reflexivity.
  - apply Nat.leb_le. vm_compute. reflexivity.
  - lia.
  - unfold in_u. lia.
  - assert (store = store_datagram 1 (immutable_record 0 v 60)) as ->.
    { apply (shard_at_inv _ _ (act no_erasure (Serve (CmdPut v 60 7)) e sample_peer_St).2) in Hstore; [|look].
      assert (st_out (act no_erasure (Serve (CmdPut v 60 7)) e sample_peer_St).2 =
              [OutPlain (toy_addr 5) (store_datagram 1 (immutable_record 0 v 60))]) as Hout
        by (vm_compute; reflexivity).
      rewrite Hout in Hstore.
      destruct Hstore as [[= ->]%list_elem_of_singleton|Hin%list_elem_of_singleton]; [reflexivity|discriminate Hin]. }
    set (sB2 := (act no_erasure Timers e sample_St).2).
    set (sB3 := (act no_erasure (Hear (toy_addr 3) (store_datagram 1 (immutable_record 0 v 60))) e sB2).2).
    set (sB4 := foldl (λ s ev, (act no_erasure (ev_act ev) e s).2) sB3 sample_disturbance).
    destruct (H1 [At (toy_addr 5) Timers e] e) with
      (evs2 := sample_disturbance) (eC := e)
      as (request & corr & Hrequest & Hask & H2).
    + exists sB2. split; [look|]. vm_compute. reflexivity.
    + intros m. cbn. lia.
    + apply sample_undisturbed.
    + exists sample_peer_St. split; [look|]. unfold may_ask, knows, in_clear. split_and!.
      * apply (bool_decide_unpack _). vm_compute. exact I.
      * intros m m'. vm_compute. reflexivity.
      * intros m. vm_compute. reflexivity.
      * vm_compute. reflexivity.
      * vm_compute. reflexivity.
      * exists (PeerInfo_new (sample_node 2) (toy_addr 5)). split; [|reflexivity].
        apply (list_elem_of_lookup_2 _ 0). vm_compute. reflexivity.
    + destruct (H2 [] e) as (reply & Hreply & H3).
      * constructor.
      * intros m. cbn. lia.
      * exists sB4. split; [look|]. unfold can_reply, in_clear. split_and!.
        -- vm_compute. reflexivity.
        -- vm_compute. reflexivity.
        -- apply (bool_decide_unpack _). vm_compute. exact I.
        -- apply Nat.leb_le. vm_compute. reflexivity.
      * destruct (H3 [] e (toy_addr 5)) as [now Hans].
        -- destruct Hask as (s & Hs & Hask). exists s. split; [|exact Hask].
           unfold net_events at 1. cbn [foldl]. rewrite net_event_ne by discriminate. exact Hs.
        -- intros m l. reflexivity.
        -- exists (store_datagram 1 (immutable_record 0 v 60)), request, reply, now. split; [exact Hstore|].
           split; [exact Hrequest|]. split; [exact Hreply|exact Hans].
Defined.

(** ** A lookup over two hops *)

(** [n]'s lookup of a shard that runs no other. *)
Definition running (n : Z) (s : St) : Lookup :=
  from_option pl_lookup (Lookup_new FindValue sample_key [] PrivacyNone 0) (sc_lookups (st_ctx s) !! n).

Lemma map_size_one `{Countable K} {A} (m : gmap K A) i x : size m = 1 → m !! i = Some x → m = {[i := x]}.
Proof.
  intros Hs Hi. rewrite <-(insert_delete_id m i x) by done.
  rewrite (map_size_empty_inv (delete i m)); [done|]. by rewrite map_size_delete_Some, Hs by eauto.
Qed.

Lemma running_alone n tx s :
  size (sc_lookups (st_ctx s)) = 1 → pl_reply <$> sc_lookups (st_ctx s) !! n = Some (Some tx) →
  sc_lookups (st_ctx s) = {[n := mkPendingLookup (running n s) (Some tx)]}.
Proof.
  intros Hs (p & Hp & Hr)%fmap_Some. apply map_size_one; [done|]. unfold running. rewrite Hp. destruct p. cbn in *. by subst.
Qed.

(** Its first request has the number of the only peer in flight. *)
Lemma running_corr k tx corr n c s :
  sc_lookups (st_ctx s) = {[n := mkPendingLookup (running n s) (Some tx)]} →
  if_corr <$> in_flight (running n s) = [c] → asking k tx corr s → corr = c.
Proof.
  intros Ha Hf (n' & p & Hn & _ & _ & _ & Hw & _). rewrite Ha in Hn. apply lookup_singleton_Some in Hn as [_ <-].
  apply awaits_flight in Hw as (f & Hin & <-). apply (list_elem_of_fmap_2 if_corr) in Hin.
  rewrite Hf in Hin. by apply list_elem_of_singleton in Hin.
Qed.

(** [follows] for an answer that names one peer, as conditions to evaluate. *)
Lemma running_follows k tx corr n p e s :
  plain (st_ctx s) → sc_lookups (st_ctx s) = {[n := mkPendingLookup (running n s) (Some tx)]} →
  asking k tx corr s → lk_done (running n s) = false →
  (∀ m, (sat_sub (env_now e m) (started (running n s)) < budget (running n s))%Z) →
  peers_from_proto (peers_to_proto [p]) = [p] →
  pi_id p ∉ pi_id <$> shortlist (running n s) → candidate (running n s) p →
  length (filter (λ q, pi_id q ∉ queried (running n s) ∧ nearer (target (running n s)) p q) (shortlist (running n s) ++ [p])) +
    length (in_flight (running n s)) < ALPHA_MIN →
  NoDup (pi_id <$> shortlist (running n s)) →
  length (filter (nearer (target (running n s)) p) (shortlist (running n s) ++ [p])) < K_DEFAULT →
  follows k tx corr [p] p e s.
Proof.
  intros Hpl Ha (n' & q & Hn & _ & Hk & Ht & Hw & _) Hd Hb Hp ?????. split; [done|]. exists n, (running n s).
  rewrite Ha in Hn. apply lookup_singleton_Some in Hn as [_ <-]. split; [by split|]. rewrite Hp. split; try done.
  - by left.
  - by intros r ->%list_elem_of_singleton _.
Qed.

(** Address 9 knows the shard at 7, which knows the one at 6, which knows the one at 5, which
    holds a record. *)
Definition sample_peer_at (n addr : Z) : PeerInfo := PeerInfo_new (sample_node n) (toy_addr addr).

Definition sample_knows (p : PeerInfo) : St := (act no_erasure (Serve (CmdInjectPeer p)) (sample_env 0) sample_St).2.

Definition sample_kept_St : St :=
  (act no_erasure (Hear (toy_addr 3) (store_datagram 1 (immutable_record 0 (bstr "v") 60))) (sample_env 0) sample_St).2.

Definition sample_line : gmap SocketAddr St :=
  <[toy_addr 9 := sample_knows (sample_peer_at 3 7)]> (<[toy_addr 7 := sample_knows (sample_peer_at 4 6)]>
    (<[toy_addr 6 := sample_knows (sample_peer_at 2 5)]> {[toy_addr 5 := sample_kept_St]})).

Lemma sample_line_ok : net_ok sample_line.
Proof.
  pose proof (St_new_safe 0 sample_identity (mkNodeConfig (toy_addr 0) 1 [] true false false false) (toy_addr 0)
    (empty_dir 0) (false, false) 0) as Hs. fold sample_St in Hs.
  pose proof (λ x e, safe_act no_erasure sample_identity 0 x e sample_St Hs) as Hact.
  do 3 (apply map_Forall_insert_2; [exists sample_identity, 0%Z; apply Hact|]).
  apply map_Forall_singleton. exists sample_identity, 0%Z. apply Hact.
Qed.

(** Address 9 once it has asked 7, and once 7 has sent it to 6. *)
Definition sample_asked_St : St :=
  (act no_erasure (Serve (CmdGet (hash_value (bstr "v")) 8)) (sample_env 0) (sample_knows (sample_peer_at 3 7))).2.

Definition sample_led_St : St :=
  (act no_erasure (Hear (toy_addr 7) (referral_datagram 1 [sample_peer_at 4 6])) (sample_env 0) sample_asked_St).2.

Lemma sample_asked_alone : sc_lookups (st_ctx sample_asked_St) = {[2%Z := mkPendingLookup (running 2 sample_asked_St) (Some 8)]}.
Proof. apply running_alone; vm_compute; reflexivity. Qed.

Lemma sample_led_alone : sc_lookups (st_ctx sample_led_St) = {[2%Z := mkPendingLookup (running 2 sample_led_St) (Some 8)]}.
Proof. apply running_alone; vm_compute; reflexivity. Qed.

(** The shards on the way name the next one. *)
Lemma sample_knows_plain n addr : (n, addr) ∈ [(3, 7); (4, 6); (2, 5)]%Z → plain (st_ctx (sample_knows (sample_peer_at n addr))).
Proof.
  intros H. repeat (apply elem_of_cons in H as [[= -> ->]|H]); [..|by apply not_elem_of_nil in H].
  all: split; [vm_compute; reflexivity|apply (bool_decide_unpack _); vm_compute; exact I].
Qed.

Lemma sample_refers n addr dest :
  (n, addr) ∈ [(4, 6); (2, 5)]%Z →
  refers (hash_value (bstr "v")) dest [sample_peer_at n addr] (sample_env 0) (sample_knows (sample_peer_at n addr)).
Proof.
  intros H. assert (plain (st_ctx (sample_knows (sample_peer_at n addr)))) as Hp by by apply sample_knows_plain; right.
  apply elem_of_cons in H as [[= -> ->]|[[= -> ->]|[]%not_elem_of_nil]%elem_of_cons].
  all: split; [by apply plain_in_clear|].
  all: split; [intros m; vm_compute; reflexivity|].
  all: split; [intros m m'; vm_compute; reflexivity|].
  all: split; [vm_compute; reflexivity|].
  all: split; [apply (bool_decide_unpack _); vm_compute; exact I|apply Nat.leb_le; vm_compute; reflexivity].
Qed.

(** Evaluates the conditions of [running_follows]. *)
Ltac follows_evaluated alone :=
  intros Hask; apply (running_follows _ _ _ 2); [|exact alone|exact Hask|..];
  [split; [vm_compute; reflexivity|apply (bool_decide_unpack _); vm_compute; exact I]
  |vm_compute; reflexivity|intros m; vm_compute; reflexivity|vm_compute; reflexivity
  |apply (bool_decide_unpack _); vm_compute; exact I|apply (bool_decide_unpack _); vm_compute; exact I
  |apply Nat.ltb_lt; vm_compute; reflexivity
  |apply (bool_decide_unpack _); vm_compute; exact I
  |apply Nat.ltb_lt; vm_compute; reflexivity].

(** The lookup follows the first answer, and then the second. *)
Lemma sample_follows corr :
  asking (hash_value (bstr "v")) 8 corr sample_asked_St →
  follows (hash_value (bstr "v")) 8 corr [sample_peer_at 4 6] (sample_peer_at 4 6) (sample_env 0) sample_asked_St.
Proof.
  follows_evaluated sample_asked_alone.
Qed.

Lemma sample_follows_on corr :
  asking (hash_value (bstr "v")) 8 corr sample_led_St →
  follows (hash_value (bstr "v")) 8 corr [sample_peer_at 2 5] (sample_peer_at 2 5) (sample_env 0) sample_led_St.
Proof.
  follows_evaluated sample_led_alone.
Qed.

Lemma sample_asks : may_ask (hash_value (bstr "v")) (toy_addr 7) (sample_env 0) (sample_knows (sample_peer_at 3 7)).
Proof.
  split; [apply (bool_decide_unpack _); vm_compute; exact I|].
  split; [intros m m'; vm_compute; reflexivity|]. split; [intros m; vm_compute; reflexivity|].
  split; [apply plain_in_clear, sample_knows_plain; by left|].
  exists (sample_peer_at 3 7). split; [|reflexivity]. apply (list_elem_of_lookup_2 _ 0). vm_compute. reflexivity.
Qed.

(** The record travels from 5 to 9, which asks 7, 6 and 5 in turn. *)
Lemma network_lookup_witness :
  let k := hash_value (bstr "v") in
  let e := sample_env 0 in
  let go := net_event no_erasure in
  let net1 := go sample_line (At (toy_addr 9) (Serve (CmdGet k 8)) e) in
  let net2 := go net1 (At (toy_addr 7) (Hear (toy_addr 9) (find_value_datagram 1 k)) e) in
  let net3 := go net2 (At (toy_addr 9) (Hear (toy_addr 7) (referral_datagram 1 [sample_peer_at 4 6])) e) in
  let net4 := go net3 (At (toy_addr 6) (Hear (toy_addr 9) (find_value_datagram 4 k)) e) in
  let net5 := go net4 (At (toy_addr 9) (Hear (toy_addr 6) (referral_datagram 4 [sample_peer_at 2 5])) e) in
  ∃ corr reply now,
    let net6 := go net5 (At (toy_addr 5) (Hear (toy_addr 9) (find_value_datagram corr k)) e) in
    let net7 := go net6 (At (toy_addr 9) (Hear (toy_addr 5) reply) e) in
    written (toy_addr 5) (toy_addr 9) reply net6 ∧
    shard_at net7 (toy_addr 9) (λ s, (8, RRecord (Some (immutable_record now (bstr "v") 60))) ∈ st_answers s).
Proof.
  intros k e go net1 net2 net3 net4 net5.
  destruct (network_lookup no_erasure [toy_addr 7; toy_addr 6] sample_line (toy_addr 5) (toy_addr 9) (toy_addr 7)
    [toy_addr 6; toy_addr 5] (immutable_record 1000 (bstr "v") 60) 1060 8 e) as (corr & _ & Hask & H1).
  - reflexivity.
  - repeat constructor; discriminate.
  - apply sample_line_ok.
  - split; [discriminate|]. split; [apply immutable_wire_ok; [lia|unfold in_u; lia]|].
    exists sample_kept_St. split; [reflexivity|]. exists 1000%Z. split; vm_compute; reflexivity.
  - vm_compute. reflexivity.
  - apply Nat.leb_le. vm_compute. reflexivity.
  - eexists. split; [reflexivity|apply sample_asks].
  - apply (shard_at_inv _ _ sample_asked_St) in Hask; [|look].
    pose proof (running_corr _ _ _ _ 1 _ sample_asked_alone ltac:(vm_compute; reflexivity) Hask) as ->.
    destruct (H1 [] e [sample_peer_at 4 6]) as [_ H2]; [constructor|eexists; split; [look|apply sample_refers; by left]|].
    destruct (H2 [] e (toy_addr 7) (sample_peer_at 4 6)) as (corr & _ & Hask2 & H3);
      [constructor|exists sample_asked_St; split; [look|exact (sample_follows _ Hask)]|reflexivity|intros m l; reflexivity|].
    apply (shard_at_inv _ _ sample_led_St) in Hask2; [|look].
    pose proof (running_corr _ _ _ _ 4 _ sample_led_alone ltac:(vm_compute; reflexivity) Hask2) as ->.
    destruct (H3 [] e [sample_peer_at 2 5]) as [_ H4]; [constructor|eexists; split; [look|apply sample_refers; right; by left]|].
    destruct (H4 [] e (toy_addr 6) (sample_peer_at 2 5)) as (corr & _ & Hask3 & H5);
      [constructor|exists sample_led_St; split; [look|exact (sample_follows_on _ Hask2)]|reflexivity|intros m l; reflexivity|].
    destruct (H5 [] e) as (reply & Hreply & H6); [constructor|intros m; cbn; lia| |].
    { exists sample_kept_St. split; [look|]. unfold can_reply, in_clear. split_and!.
      + vm_compute. reflexivity.
      + vm_compute. reflexivity.
      + apply (bool_decide_unpack _). vm_compute. exact I.
      + apply Nat.leb_le. vm_compute. reflexivity. }
    destruct (H6 [] e (toy_addr 5)) as [now Hans].
    + destruct Hask3 as (s & Hs & Hask3). exists s. split; [|exact Hask3].
      unfold net_events. cbn [foldl]. rewrite net_event_ne by discriminate. exact Hs.
    + intros m l. reflexivity.
    + exists corr, reply, now. split; [exact Hreply|exact Hans].
Defined.
