(* ===== verification/Node.v ===== *)
(** * A node: several shards behind one API ([src/node.rs])

    A node owns one thread per shard and talks to it through a channel of commands; a call
    opens a reply channel, sends one command to the shard that owns the key and waits for
    two seconds.  A thread is its state, its queue and the point of its loop it is at; the
    threads run interleaved, one [Event] at a time, and share only the flag [running].  A
    call is given the events that happen until it returns: a reply among the answers of its
    shard by then is the result, otherwise the call has timed out. *)

From S2P Require Import Prelude Bytes Types Proto Codec Routing Crypto Net Peerstore Store Pool Lookup Wg Relay EventLoop Metrics Sybil Erasure ShardState Shard ShardInv ShardThms ShardReplies ShardStore.

(** Where a thread is: before the test of its loop, in the body, or past the loop. *)
Inductive Phase := AtHead | InBody | Exited.

#[export] Instance Phase_eq_dec : EqDecision Phase.
Proof. solve_decision. Defined.

Inductive Event :=
  | CheckRunning (i : nat) (e : Env)
  | Body (i : nat) (batch : list (SocketAddr * bytes)) (e : Env)
  | PollError (i : nat).

Section node.
Context `{TunnOps} `{KeyedHash} `{Protobuf} `{Crc32}.
Context (rs_encode : list bytes → result (list bytes)).

(** A [ShardHandle] with the thread behind it. *)
Record ShardHandle := mkShardHandle {
  sh_local : SocketAddr;
  sh_state : St;
  sh_queue : list ShardCmd;
  sh_phase : Phase;
}.

(** [nd_fresh] numbers the reply channels. *)
Record Node := mkNode {
  nd_identity : Identity;
  nd_cfg : NodeConfig;
  nd_shards : list ShardHandle;
  nd_running : bool;
  nd_fresh : Sender;
}.

Definition with_shards (f : list ShardHandle → list ShardHandle) (nd : Node) : Node :=
  mkNode (nd_identity nd) (nd_cfg nd) (f (nd_shards nd)) (nd_running nd) (nd_fresh nd).

Definition set_running (b : bool) (nd : Node) : Node :=
  mkNode (nd_identity nd) (nd_cfg nd) (nd_shards nd) b (nd_fresh nd).

(** ** Threads *)

(** What follows the loop of [run_shard]. *)
Definition shard_end : M unit :=
  for_ (seq 0 32) (λ _, pool_recycle (zeroed BUFFER_SIZE));; flush_wals.

(** One event of thread [h]; the flag as it is afterwards.  A thread that has left its loop
    has dropped the receiving end of its queue. *)
Definition thread_event (running : bool) (h : ShardHandle) (ev : Event) : bool * ShardHandle :=
  match ev, sh_phase h with
  | CheckRunning _ e, AtHead =>
      if running then (running, mkShardHandle (sh_local h) (sh_state h) (sh_queue h) InBody)
      else (running, mkShardHandle (sh_local h) (shard_end e (sh_state h)).2 [] Exited)
  | Body _ batch e, InBody =>
      let '((go, rest), s) := shard_turn rs_encode batch (sh_queue h) e (sh_state h) in
      (running && go, mkShardHandle (sh_local h) s rest AtHead)
  | PollError _, InBody => (running, mkShardHandle (sh_local h) (sh_state h) [] Exited)
  | _, _ => (running, h)
  end.

Definition event_shard (ev : Event) : nat :=
  match ev with CheckRunning i _ | Body i _ _ | PollError i => i end.

Definition run_event (nd : Node) (ev : Event) : Node :=
  match nd_shards nd !! event_shard ev with
  | Some h =>
      let '(running, h) := thread_event (nd_running nd) h ev in
      set_running running (with_shards (<[event_shard ev := h]>) nd)
  | None => nd
  end.

Definition run_events (nd : Node) (evs : list Event) : Node := foldl run_event nd evs.

(** [s.tx.send(cmd)]: fails when the thread has dropped the receiver. *)
Definition send_cmd (cmd : ShardCmd) (h : ShardHandle) : option ShardHandle :=
  if bool_decide (sh_phase h = Exited) then None
  else Some (mkShardHandle (sh_local h) (sh_state h) (sh_queue h ++ [cmd]) (sh_phase h)).

(** [let _ = s.tx.send(cmd)] *)
Definition try_send (cmd : ShardCmd) (h : ShardHandle) : ShardHandle := default h (send_cmd cmd h).

Definition send_all (cmd : ShardCmd) : Node → Node := with_shards (fmap (try_send cmd)).

(** ** Start and stop *)

(** What starting one shard meets: the address it is bound to if binding and starting the
    thread work, whether the poller can be set up, the directory, the files that open, the
    time and the thread's first readings. *)
Record Spawn := mkSpawn {
  sp_local : option SocketAddr;
  sp_poller : bool;
  sp_dir : Dir;
  sp_opens : bool * bool;
  sp_unix : Z;
  sp_env : Env;
}.

Definition spawn_shard (id : Z) (identity : Identity) (cfg : NodeConfig) (sp : Spawn)
    : result ShardHandle :=
  match sp_local sp with
  | None => Err "io"
  | Some local =>
      let s := St_new id identity cfg local (sp_dir sp) (sp_opens sp) (sp_unix sp) in
      Ok (if sp_poller sp then mkShardHandle local (shard_start (sp_env sp) s).2 [] AtHead
          else mkShardHandle local s [] Exited)
  end.

(** The loop of [Node::start] over the shards' numbers. *)
Fixpoint spawn_shards (id : Z) (identity : Identity) (cfg : NodeConfig) (sps : list Spawn)
    : result (list ShardHandle) :=
  match sps with
  | [] => Ok []
  | sp :: sps =>
      match spawn_shard id identity cfg sp with
      | Err e => Err e
      | Ok h =>
          match spawn_shards (id + 1) identity cfg sps with
          | Err e => Err e
          | Ok hs => Ok (h :: hs)
          end
      end
  end.

Definition Node_bootstrap (nd : Node) (seeds : list SocketAddr) : Node :=
  send_all (CmdBootstrap seeds) nd.

(** [Node::start]; one [Spawn] per shard. *)
Definition Node_start (identity : Identity) (cfg : NodeConfig) (sps : nat → Spawn) : result Node :=
  let n := Z.to_nat (Z.max (shard_count cfg) 1) in
  match spawn_shards 0 identity cfg (sps <$> seq 0 n) with
  | Err e => Err e
  | Ok shards =>
      let nd := mkNode identity cfg shards true 0 in
      Ok (if bool_decide (bootstrap cfg = []) then nd else Node_bootstrap nd (bootstrap cfg))
  end.

Definition inject_peer (nd : Node) (info : PeerInfo) : Node := send_all (CmdInjectPeer info) nd.

(** [shutdown]: the flag, the commands, and the threads until each is past its loop; [evs]
    are the events up to the join, [last] the readings of a thread that leaves at the join. *)
Definition shutdown (nd : Node) (evs : list Event) (last : nat → Env) : Node :=
  let nd := send_all CmdShutdown (set_running false nd) in
  let nd := run_events nd evs in
  run_events nd
    (((λ i, Body i [] (last i)) <$> seq 0 (length (nd_shards nd))) ++
     ((λ i, CheckRunning i (last i)) <$> seq 0 (length (nd_shards nd)))).

(** [Drop for Node] *)
Definition Node_drop (nd : Node) (evs : list Event) (last : nat → Env) : Node :=
  if nd_running nd then shutdown nd evs last else nd.

(** ** Accessors *)

Definition node_node_id (nd : Node) : NodeId := node_id (nd_identity nd).
Definition node_wg_public (nd : Node) : arr 32 := wg_public (nd_identity nd).
Definition node_addrs (nd : Node) : list SocketAddr := sh_local <$> nd_shards nd.

(** [self.shards[0].local]; [None] is the panic on a node without shards. *)
Definition local_addr (nd : Node) : option SocketAddr := sh_local <$> head (nd_shards nd).

Definition node_metrics (nd : Node) : Snapshot :=
  aggregate ((λ h, sc_metrics (st_ctx (sh_state h))) <$> nd_shards nd).

Definition prometheus (nd : Node) : bytes := prometheus_text (node_metrics nd).

(** ** Calls *)

Definition owner (nd : Node) (k : Key) : nat :=
  Z.to_nat (shard_id (node_node_id nd) k (Z.of_nat (length (nd_shards nd)))).

(** The reply received first on a channel. *)
Definition received (tx : Sender) (s : St) : option Reply :=
  snd <$> find (λ p, bool_decide (p.1 = tx)) (st_answers s).

Definition call (nd : Node) (i : nat) (make : Sender → ShardCmd) (evs : list Event)
    : Node * result Reply :=
  let tx := nd_fresh nd in
  let nd := mkNode (nd_identity nd) (nd_cfg nd) (nd_shards nd) (nd_running nd) (S tx) in
  match (h ← nd_shards nd !! i; send_cmd (make tx) h) with
  | None => (nd, Err "shard gone")
  | Some h =>
      let nd := run_events (with_shards (<[i := h]>) nd) evs in
      match (h ← nd_shards nd !! i; received tx (sh_state h)) with
      | Some r => (nd, Ok r)
      | None => (nd, Err "timeout")
      end
  end.

(** [.and_then(|r| ..)] *)
Definition and_then {A} (c : Node * result Reply) (f : Reply → result A) : Node * result A :=
  (c.1, match c.2 with Ok r => f r | Err e => Err e end).

Definition expect_key (r : Reply) : result Key :=
  match r with RKey k => Ok k | RErr e => Err e | _ => Err "unexpected" end.

Definition put_ttl (nd : Node) (value : bytes) (ttl : Z) (evs : list Event) : Node * result Key :=
  let key := hash_value value in
  and_then (call nd (owner nd key) (CmdPut value ttl) evs) expect_key.

Definition put (nd : Node) (value : bytes) (evs : list Event) : Node * result Key :=
  put_ttl nd value MUTABLE_TTL_SECS evs.

Definition expect_value (r : Reply) : result (option bytes) :=
  match r with
  | RRecord r => Ok (value <$> r)
  | RValue v => Ok v
  | RErr e => Err e
  | _ => Err "unexpected"
  end.

Definition get (nd : Node) (k : Key) (evs : list Event) : Node * result (option bytes) :=
  and_then (call nd (owner nd k) (CmdGet k) evs) expect_value.

(** The record [get_record] makes of a bare value. *)
Definition bare_record (k : Key) (v : bytes) : StoredRecord :=
  {| key := k; value := v; sequence := 0; ttl_secs := 0; not_before_unix := 0; owner_pubkey := [];
     signature := []; kind := KIND_IMMUTABLE; namespace := []; salt := []; stored_unix := 0;
     cache := false |}.

Definition expect_record (k : Key) (r : Reply) : result (option StoredRecord) :=
  match r with
  | RRecord r => Ok r
  | RValue (Some v) => Ok (Some (bare_record k v))
  | RValue None => Ok None
  | RErr e => Err e
  | _ => Err "unexpected"
  end.

Definition get_record (nd : Node) (k : Key) (evs : list Event) : Node * result (option StoredRecord) :=
  and_then (call nd (owner nd k) (CmdGet k) evs) (expect_record k).

Definition check_mutable (owner_pk ns slt : bytes) (k : Key) (r : result (option StoredRecord))
    : result (option bytes) :=
  match r with
  | Err e => Err e
  | Ok None => Ok None
  | Ok (Some rec) =>
      if negb (bool_decide (key rec = k)) || negb (bool_decide (namespace rec = ns))
         || negb (bool_decide (salt rec = slt)) then Err "key mismatch"
      else if negb (signed_by rec owner_pk) then Err "bad signature"
      else Ok (Some (value rec))
  end.

Definition get_mutable (nd : Node) (owner_pk ns slt : bytes) (evs : list Event)
    : Node * result (option bytes) :=
  let k := mutable_key owner_pk ns slt in
  let '(nd, r) := get_record nd k evs in
  (nd, check_mutable owner_pk ns slt k r).

(** The record of [put_mutable_ttl]; [now] is [now_unix()]. *)
Definition mutable_record (identity : Identity) (ns slt v : bytes) (seq ttl now : Z) : StoredRecord :=
  let pk := verifying_key identity in
  let k := mutable_key (vec_to_list pk) ns slt in
  {| key := k; value := v; sequence := seq; ttl_secs := ttl; not_before_unix := 0;
     owner_pubkey := vec_to_list pk;
     signature := vec_to_list (sign_record (signing identity) k v seq ttl 0);
     kind := KIND_MUTABLE; namespace := ns; salt := slt; stored_unix := now; cache := false |}.

Definition put_mutable_ttl (nd : Node) (ns slt v : bytes) (seq ttl now : Z) (evs : list Event)
    : Node * result Key :=
  let rec := mutable_record (nd_identity nd) ns slt v seq ttl now in
  and_then (call nd (owner nd (key rec)) (CmdPutMutable rec) evs) expect_key.

Definition put_mutable (nd : Node) (ns slt v : bytes) (seq now : Z) (evs : list Event)
    : Node * result Key :=
  put_mutable_ttl nd ns slt v seq MUTABLE_TTL_SECS now evs.

Definition expect_ok (r : Reply) : result unit :=
  match r with ROk => Ok tt | RErr e => Err e | _ => Err "unexpected" end.

Definition node_announce (nd : Node) (k : Key) (meta : bytes) (evs : list Event) : Node * result unit :=
  and_then (call nd (owner nd k) (CmdAnnounce k meta) evs) expect_ok.

Definition expect_providers (r : Reply) : result (list (NodeId * bytes)) :=
  match r with
  | RProviders p => Ok p
  | RValue _ => Ok []
  | RErr e => Err e
  | _ => Err "unexpected"
  end.

Definition find_providers (nd : Node) (k : Key) (evs : list Event)
    : Node * result (list (NodeId * bytes)) :=
  and_then (call nd (owner nd k) (CmdFindProviders k) evs) expect_providers.
End node.
