(* ===== verification/NodeThms.v ===== *)
(** * What the API of a node guarantees

    The invariants of the shards carry over to every history of a node (starting, any
    interleaving of its threads, API calls, stopping), and give the results of its calls. *)

From S2P Require Import Prelude Bytes Types Proto Codec Routing Crypto Net Peerstore Store Pool Lookup Wg Relay EventLoop Metrics Sybil Erasure ShardState Shard ShardInv ShardThms ShardReplies ShardStore Node.

Section node.
Context `{TunnOps} `{KeyedHash} `{Protobuf} `{Crc32}.
Context (rs_encode : list bytes → result (list bytes)).

Notation run_event := (run_event rs_encode).
Notation run_events := (run_events rs_encode).
Notation call := (call rs_encode).

(** ** Invariant

    [issued] are the commands ever sent to a shard, [fresh] the next reply channel. *)
Record shard_ok (identity : Identity) (i : nat) (fresh : Sender) (issued : list ShardCmd)
    (h : ShardHandle) : Prop := {
  so_safe : safe identity (Z.of_nat i) (sh_state h);
  so_typed : typed_by issued (sh_state h);
  so_queue : ∀ cmd, cmd ∈ sh_queue h → cmd ∈ issued;
  so_fresh : ∀ cmd tx, cmd ∈ issued → cmd_sender cmd = Some tx → tx < fresh;
}.

Record node_ok (nd : Node) : Prop := {
  no_shards : nd_shards nd ≠ [];
  no_ok : ∃ issued : nat → list ShardCmd, ∀ i h,
    nd_shards nd !! i = Some h → shard_ok (nd_identity nd) i (nd_fresh nd) (issued i) h;
}.

Lemma served_shard_ok identity i fresh issued h cmds local s queue phase :
  shard_ok identity i fresh issued h → served cmds (sh_state h) s →
  (∀ cmd, cmd ∈ cmds → cmd ∈ issued) → (∀ cmd, cmd ∈ queue → cmd ∈ issued) →
  shard_ok identity i fresh issued (mkShardHandle local s queue phase).
Proof.
  intros [Hs Ht _ Hf] Hr Hc Hq. split; [by eapply served_safe| |done..].
  eapply typed_by_mono; [|by eapply served_typed]. intros cmd [|]%elem_of_app; auto.
Qed.

Lemma thread_event_ok identity i fresh issued running h ev :
  shard_ok identity i fresh issued h →
  shard_ok identity i fresh issued (thread_event rs_encode running h ev).2.
Proof.
  intros Hok. assert (Hq := so_queue _ _ _ _ _ Hok).
  assert (Hsend := sf_queues _ _ _ (so_safe _ _ _ _ _ Hok)). unfold thread_event.
  assert (Hstay : ∀ queue phase, (∀ cmd, cmd ∈ queue → cmd ∈ issued) →
    shard_ok identity i fresh issued (mkShardHandle (sh_local h) (sh_state h) queue phase)).
  { intros queue phase Hqueue. eapply (served_shard_ok _ _ _ _ h []); [done|constructor|set_solver|done]. }
  destruct ev as [j e|j batch e|j], (sh_phase h); try exact Hok; [destruct running| |].
  - by apply Hstay.
  - eapply served_shard_ok; [exact Hok|apply (ok_served shard_end e _ shard_end_ok Hsend)|set_solver..].
  - destruct (shard_turn_serves rs_encode batch (sh_queue h)) as [cmds Ht].
    destruct (Ht e _ Hsend) as (cmds' & Hr & Hsub & Hrest). revert Hr Hrest.
    destruct (shard_turn rs_encode batch (sh_queue h) e (sh_state h)) as [[go rest] s].
    cbn [fst snd]. intros Hr Hrest. eapply served_shard_ok; [exact Hok|exact Hr|..].
    + intros cmd Hin. apply Hq. rewrite <-Hrest, elem_of_app. left. by eapply elem_of_submseteq.
    + intros cmd Hin. apply Hq. rewrite <-Hrest, elem_of_app. by right.
  - apply Hstay. set_solver.
Qed.

Lemma node_ok_insert nd i h running :
  node_ok nd →
  (∀ fresh issued h0, nd_shards nd !! i = Some h0 →
     shard_ok (nd_identity nd) i fresh issued h0 → shard_ok (nd_identity nd) i fresh issued h) →
  node_ok (set_running running (with_shards (<[i := h]>) nd)).
Proof.
  intros [Hne [issued Hok]] Hh. split.
  { cbn. intros E. apply Hne. apply (f_equal length) in E. rewrite length_insert in E. by apply nil_length_inv. }
  exists issued. intros j h'. cbn. intros [(<- & <- & Hi)|(Hne' & Hj)]%list_lookup_insert_Some; [|by apply Hok].
  apply lookup_lt_is_Some in Hi as [h0 Hi]. by eapply Hh, Hok.
Qed.

Lemma run_event_ok nd ev : node_ok nd → node_ok (run_event nd ev).
Proof.
  intros Hok. unfold Node.run_event. destruct (nd_shards nd !! event_shard ev) as [h|] eqn:E; [|done].
  pose proof (λ fresh issued, thread_event_ok (nd_identity nd) (event_shard ev) fresh issued (nd_running nd) h ev) as Hev.
  destruct (thread_event rs_encode (nd_running nd) h ev) as [running h']. apply node_ok_insert; [done|].
  intros fresh issued h0 Hh. rewrite E in Hh. injection Hh as <-. apply Hev.
Qed.

Lemma run_events_ok evs nd : node_ok nd → node_ok (run_events nd evs).
Proof. revert nd. induction evs as [|ev evs IH]; intros nd Hok; [done|]. by apply IH, run_event_ok. Qed.

Lemma set_running_ok nd b : node_ok nd → node_ok (set_running b nd).
Proof. intros [? ?]. by split. Qed.

(** A command is added to the queue of a shard. *)
Lemma send_cmd_ok identity i fresh issued h h' cmd :
  send_cmd cmd h = Some h' → shard_ok identity i fresh issued h →
  (∀ tx, cmd_sender cmd = Some tx → tx < fresh) →
  shard_ok identity i fresh (issued ++ [cmd]) h'.
Proof.
  unfold send_cmd. case_bool_decide; [done|]. intros [= <-] [Hs Ht Hq Hf] Hc. split; cbn.
  - done.
  - eapply typed_by_mono; [|exact Ht]. set_solver.
  - set_solver.
  - intros c tx. rewrite elem_of_app, list_elem_of_singleton. intros [Hin| ->]; [by apply Hf|by apply Hc].
Qed.

Lemma send_all_ok nd cmd : cmd_sender cmd = None → node_ok nd → node_ok (send_all cmd nd).
Proof.
  intros Hc [Hne [issued Hok]]. split; [cbn; by destruct (nd_shards nd)|].
  exists (λ i, issued i ++ [cmd]). intros i h. cbn. rewrite list_lookup_fmap, fmap_Some.
  intros (h0 & Hi & ->). specialize (Hok i h0 Hi). unfold try_send.
  destruct (send_cmd cmd h0) as [h|] eqn:E; cbn.
  - eapply send_cmd_ok; [done..|]. by rewrite Hc.
  - destruct Hok as [Hs Ht Hq Hf]. split; [done| | |].
    + eapply typed_by_mono; [|exact Ht]. set_solver.
    + set_solver.
    + intros c tx. rewrite elem_of_app, list_elem_of_singleton. intros [Hin| ->]; [by apply Hf|congruence].
Qed.

(** ** Calls *)

Lemma received_in tx s r : received tx s = Some r → (tx, r) ∈ st_answers s.
Proof.
  unfold received. rewrite fmap_Some. intros ([tx' r'] & Hf & ->).
  apply find_Some_elem in Hf as [Hin <-%bool_decide_eq_true_1]. done.
Qed.

(** The node after the send half of a call. *)
Definition opened (nd : Node) : Node :=
  mkNode (nd_identity nd) (nd_cfg nd) (nd_shards nd) (nd_running nd) (S (nd_fresh nd)).

Lemma shard_ok_fresh identity i fresh fresh' issued h :
  fresh ≤ fresh' → shard_ok identity i fresh issued h → shard_ok identity i fresh' issued h.
Proof. intros Hle [? ? ? Hf]. split; [done..|]. intros cmd tx Hin Hc. specialize (Hf cmd tx Hin Hc). lia. Qed.

Lemma opened_ok nd : node_ok nd → node_ok (opened nd).
Proof.
  intros [Hne [issued Hok]]. split; [done|]. exists issued. intros i h Hi.
  eapply shard_ok_fresh; [|by apply Hok]. cbn. lia.
Qed.

(** Events issue no commands. *)
Lemma run_events_issued evs nd (issued : nat → list ShardCmd) :
  (∀ i h, nd_shards nd !! i = Some h → shard_ok (nd_identity nd) i (nd_fresh nd) (issued i) h) →
  let nd' := run_events nd evs in
  nd_identity nd' = nd_identity nd ∧ nd_fresh nd' = nd_fresh nd ∧
  length (nd_shards nd') = length (nd_shards nd) ∧
  ∀ i h, nd_shards nd' !! i = Some h → shard_ok (nd_identity nd) i (nd_fresh nd) (issued i) h.
Proof.
  revert nd. induction evs as [|ev evs IH]; intros nd Hok; [done|].
  cbn [Node.run_events foldl]. fold (run_events (run_event nd ev) evs).
  assert (Hstep : let nd1 := run_event nd ev in
    nd_identity nd1 = nd_identity nd ∧ nd_fresh nd1 = nd_fresh nd ∧
    length (nd_shards nd1) = length (nd_shards nd) ∧
    ∀ i h, nd_shards nd1 !! i = Some h → shard_ok (nd_identity nd) i (nd_fresh nd) (issued i) h).
  { cbn zeta. unfold Node.run_event. destruct (nd_shards nd !! event_shard ev) as [h|] eqn:E; [|done].
    pose proof (thread_event_ok (nd_identity nd) _ _ _ (nd_running nd) h ev (Hok _ _ E)) as Hev.
    destruct (thread_event rs_encode (nd_running nd) h ev) as [running h']. cbn in *.
    split_and!; [done|done|by rewrite length_insert|].
    intros i hi [(<- & <- & _)|(_ & Hi)]%list_lookup_insert_Some; [done|by apply Hok]. }
  destruct Hstep as (Hid & Hfr & Hlen & Hok1).
  destruct (IH (run_event nd ev)) as (Hid2 & Hfr2 & Hlen2 & Hok2).
  { by rewrite Hid, Hfr. }
  rewrite Hid, Hfr in *. split_and!; [done|done|by rewrite Hlen2|done].
Qed.

(** What a call returns: a failure of the channel, or a reply its command expects. *)
Lemma call_ok nd i make evs :
  node_ok nd → (∀ tx, cmd_sender (make tx) = Some tx) →
  node_ok (call nd i make evs).1 ∧
  nd_identity (call nd i make evs).1 = nd_identity nd ∧
  match (call nd i make evs).2 with
  | Ok r => reply_ok (make (nd_fresh nd)) r
  | Err e => e = "shard gone" ∨ e = "timeout"
  end.
Proof.
  intros Hok Hmake. unfold Node.call. fold (opened nd).
  pose proof (opened_ok nd Hok) as Hopen. set (cmd := make (nd_fresh nd)).
  destruct (nd_shards (opened nd) !! i) as [h0|] eqn:Hi; cbn [mbind option_bind]; [|by split_and!; [..|left]].
  destruct (send_cmd cmd h0) as [h|] eqn:Hsend; [|by split_and!; [..|left]].
  destruct Hok as [Hne [issued Hok]].
  pose (issued' := λ j, if decide (j = i) then issued i ++ [cmd] else issued j).
  assert (Hsent : ∀ j hj, nd_shards (with_shards (<[i := h]>) (opened nd)) !! j = Some hj →
            shard_ok (nd_identity nd) j (S (nd_fresh nd)) (issued' j) hj).
  { intros j hj. cbn. unfold issued'.
    intros [(<- & <- & _)|(Hj & Hhj)]%list_lookup_insert_Some.
    - rewrite decide_True by done. eapply send_cmd_ok; [exact Hsend| |].
      + eapply shard_ok_fresh; [|by apply Hok]. lia.
      + intros tx Htx. unfold cmd in Htx. rewrite Hmake in Htx. injection Htx as <-. lia.
    - rewrite decide_False by done. eapply shard_ok_fresh; [|by apply Hok]. lia. }
  destruct (run_events_issued evs _ issued' Hsent) as (Hid & Hfr & Hlen & Hrun). cbn [with_shards opened nd_identity nd_fresh] in Hid, Hfr.
  set (nd' := run_events (with_shards (<[i := h]>) (opened nd)) evs) in *.
  assert (Hok' : node_ok nd').
  { split; [|exists issued'; by rewrite Hid, Hfr]. intros E. rewrite E in Hlen. cbn in Hlen.
    rewrite length_insert in Hlen. by destruct (nd_shards nd). }
  destruct (nd_shards nd' !! i) as [h'|] eqn:Hi'; cbn [mbind option_bind]; [|by split_and!; [..|right]].
  destruct (received (nd_fresh nd) (sh_state h')) as [r|] eqn:Hr; [|by split_and!; [..|right]].
  split_and!; [done|done|]. cbn [snd]. apply received_in in Hr.
  destruct (ty_answers _ _ (so_typed _ _ _ _ _ (Hrun i h' Hi')) _ _ Hr) as (c & Hc & Hs & Hrep).
  unfold issued' in Hc. rewrite decide_True in Hc by done.
  apply elem_of_app in Hc as [Hc|Hc%list_elem_of_singleton]; [|by subst c]. exfalso.
  pose proof (so_fresh _ _ _ _ _ (Hok i h0 Hi) c _ Hc Hs). lia.
Qed.

(** ** Histories *)

Lemma spawn_shard_ok (n : nat) identity cfg sp h :
  spawn_shard (Z.of_nat n) identity cfg sp = Ok h → shard_ok identity n 0 [] h.
Proof.
  unfold spawn_shard. destruct (sp_local sp) as [local|]; [|done]. intros <-%(inj Ok).
  pose proof (St_new_safe (Z.of_nat n) identity cfg local (sp_dir sp) (sp_opens sp) (sp_unix sp)) as Hs.
  pose proof (St_new_typed (Z.of_nat n) identity cfg local (sp_dir sp) (sp_opens sp) (sp_unix sp)) as Ht.
  assert (Hok : shard_ok identity n 0 [] (mkShardHandle local
    (St_new (Z.of_nat n) identity cfg local (sp_dir sp) (sp_opens sp) (sp_unix sp)) [] Exited)).
  { split; [done|done|by intros ? ?%not_elem_of_nil|by intros ? ? ?%not_elem_of_nil]. }
  destruct (sp_poller sp); [|done].
  eapply served_shard_ok; [exact Hok|apply (ok_served shard_start _ _ shard_start_ok), Hs|by intros ? ?%not_elem_of_nil..].
Qed.

Lemma spawn_shards_ok (n : nat) identity cfg sps hs :
  spawn_shards (Z.of_nat n) identity cfg sps = Ok hs →
  length hs = length sps ∧ ∀ i h, hs !! i = Some h → shard_ok identity (n + i) 0 [] h.
Proof.
  revert n hs. induction sps as [|sp sps IH]; intros n hs; cbn [spawn_shards].
  { intros [= <-]. split; [done|]. by intros i h Hi. }
  destruct (spawn_shard _ _ _ _) as [h|] eqn:Eh; [|done].
  replace (Z.of_nat n + 1)%Z with (Z.of_nat (S n)) by lia.
  destruct (spawn_shards _ _ _ _) as [hs'|] eqn:Es; [|done]. intros [= <-].
  destruct (IH _ _ Es) as [Hlen Hok]. split; [cbn; by rewrite Hlen|].
  intros [|i] h'; cbn.
  - intros [= <-]. rewrite Nat.add_0_r. by eapply spawn_shard_ok.
  - intros Hi. replace (n + S i) with (S n + i) by lia. by apply Hok.
Qed.

Lemma Node_start_ok identity cfg sps nd : Node_start identity cfg sps = Ok nd → node_ok nd.
Proof.
  unfold Node_start. destruct (spawn_shards _ _ _ _) as [hs|] eqn:E; [|done].
  destruct (spawn_shards_ok 0 _ _ _ _ E) as [Hlen Hok].
  rewrite length_fmap, length_seq in Hlen.
  assert (Hnd : node_ok (mkNode identity cfg hs true 0)).
  { split; [cbn; intros ->; cbn in Hlen; lia|]. exists (λ _, []). exact Hok. }
  intros <-%(inj Ok). case_bool_decide; [done|]. by apply send_all_ok.
Qed.

(** Anything that can have happened to a node. *)
Inductive node_reach : Node → Prop :=
  | nr_start identity cfg sps nd : Node_start identity cfg sps = Ok nd → node_reach nd
  | nr_event nd ev : node_reach nd → node_reach (run_event nd ev)
  | nr_call nd i make evs :
      (∀ tx, cmd_sender (make tx) = Some tx) → node_reach nd → node_reach (call nd i make evs).1
  | nr_all nd cmd : cmd_sender cmd = None → node_reach nd → node_reach (send_all cmd nd)
  | nr_stop nd : node_reach nd → node_reach (set_running false nd).

Lemma node_reach_ok nd : node_reach nd → node_ok nd.
Proof.
  induction 1; eauto using Node_start_ok, run_event_ok, send_all_ok, set_running_ok.
  by apply call_ok.
Qed.

Lemma put_reach nd v ttl evs : node_reach nd → node_reach (put_ttl rs_encode nd v ttl evs).1.
Proof. intros Hnd. unfold put_ttl, and_then. cbn [fst]. by apply nr_call. Qed.

(** ** Theorems *)

Definition channel_error (e : string) : Prop := e = "shard gone"%string ∨ e = "timeout"%string.

(** Shard [i] has answered [r] on channel [tx]. *)
Definition replied (nd : Node) (i : nat) (tx : Sender) (r : Reply) : Prop :=
  ∃ h, nd_shards nd !! i = Some h ∧ (tx, r) ∈ st_answers (sh_state h).

(** A call that is answered: its shard gave the answer on the call's own channel. *)
Lemma call_replied nd i make evs r :
  (call nd i make evs).2 = Ok r → replied (call nd i make evs).1 i (nd_fresh nd) r.
Proof.
  unfold Node.call. fold (opened nd). destruct (nd_shards (opened nd) !! i ≫= _) as [h|]; [|done].
  set (nd' := run_events _ evs). destruct (nd_shards nd' !! i) as [h'|] eqn:Hi; cbn [mbind option_bind]; [|done].
  destruct (received (nd_fresh nd) (sh_state h')) as [r'|] eqn:Hr; [|done]. intros [= ->].
  exists h'. split; [exact Hi|by apply received_in].
Qed.

Lemma put_result nd v ttl evs :
  node_ok nd →
  let c := put_ttl rs_encode nd v ttl evs in
  let shard_says := replied c.1 (owner nd (hash_value v)) (nd_fresh nd) in
  match c.2 with
  | Ok k' => k' = hash_value v ∧ shard_says (RKey k')
  | Err e => channel_error e ∨ (e = "store failed"%string ∧ shard_says (RErr e))
  end.
Proof.
  intros Hok. unfold put_ttl, and_then. set (cmd := CmdPut v ttl). set (i := owner nd _).
  destruct (call_ok nd i cmd evs Hok (λ _, eq_refl)) as (_ & _ & Hr).
  pose proof (call_replied nd i cmd evs) as Hsays.
  destruct (call _ _ _ _) as [nd' [r|e]]; cbn [fst snd] in *; [|by left].
  specialize (Hsays r eq_refl). destruct Hr as [->| ->]; cbn; [done|by right].
Qed.

Lemma put_mutable_result nd ns slt v q ttl now evs :
  node_ok nd →
  let k := mutable_key (vec_to_list (verifying_key (nd_identity nd))) ns slt in
  let c := put_mutable_ttl rs_encode nd ns slt v q ttl now evs in
  let shard_says := replied c.1 (owner nd k) (nd_fresh nd) in
  match c.2 with
  | Ok k' => k' = k ∧ shard_says (RKey k)
  | Err e => channel_error e ∨ (e = "mutable rejected"%string ∧ shard_says (RErr e))
  end.
Proof.
  intros Hok k. unfold put_mutable_ttl, and_then. set (rec := mutable_record (nd_identity nd) ns slt v q ttl now).
  set (cmd := CmdPutMutable rec). change (owner nd (key rec)) with (owner nd k). set (i := owner nd k).
  destruct (call_ok nd i cmd evs Hok (λ _, eq_refl)) as (_ & _ & Hr).
  pose proof (call_replied nd i cmd evs) as Hsays.
  destruct (call _ _ _ _) as [nd' [r|e]]; cbn [fst snd] in *; [|by left].
  specialize (Hsays r eq_refl). destruct Hr as [->| ->]; cbn; [done|by right].
Qed.

Lemma announce_result nd k meta evs :
  node_ok nd →
  let c := node_announce rs_encode nd k meta evs in
  match c.2 with
  | Ok _ => replied c.1 (owner nd k) (nd_fresh nd) ROk
  | Err e => channel_error e
  end.
Proof.
  intros Hok. unfold node_announce, and_then. set (cmd := CmdAnnounce k meta). set (i := owner nd k).
  destruct (call_ok nd i cmd evs Hok (λ _, eq_refl)) as (_ & _ & Hr).
  pose proof (call_replied nd i cmd evs) as Hsays.
  destruct (call _ _ _ _) as [nd' [r|e]]; cbn [fst snd] in *; [|done].
  specialize (Hsays r eq_refl). cbn in Hr. by subst r.
Qed.

Lemma get_result nd k evs :
  node_ok nd →
  let c := get rs_encode nd k evs in
  let shard_says := replied c.1 (owner nd k) (nd_fresh nd) in
  match c.2 with
  | Ok (Some x) => ∃ rec, shard_says (RRecord (Some rec)) ∧ authentic rec = true ∧ value rec = x
  | Ok None => shard_says (RValue None)
  | Err e => channel_error e ∨ (e = "unexpected"%string ∧ ∃ l, shard_says (RProviders l))
  end.
Proof.
  intros Hok. unfold get, and_then. set (i := owner nd k).
  destruct (call_ok nd i (CmdGet k) evs Hok (λ _, eq_refl)) as (_ & _ & Hr).
  pose proof (call_replied nd i (CmdGet k) evs) as Hsays.
  destruct (call _ _ _ _) as [nd' [r|e]]; cbn [fst snd] in *; [|by left].
  specialize (Hsays r eq_refl).
  destruct r as [|[]|[rec|]| | | |]; cbn in *; try done; [by exists rec|right; eauto].
Qed.

Lemma find_providers_result nd k evs :
  node_ok nd →
  let c := find_providers rs_encode nd k evs in
  let shard_says := replied c.1 (owner nd k) (nd_fresh nd) in
  match c.2 with
  | Ok l => shard_says (RProviders l) ∨ (l = [] ∧ shard_says (RValue None))
  | Err e => channel_error e ∨ (e = "unexpected"%string ∧ ∃ rec, shard_says (RRecord (Some rec)))
  end.
Proof.
  intros Hok. unfold find_providers, and_then. set (i := owner nd k).
  destruct (call_ok nd i (CmdFindProviders k) evs Hok (λ _, eq_refl)) as (_ & _ & Hr).
  pose proof (call_replied nd i (CmdFindProviders k) evs) as Hsays.
  destruct (call _ _ _ _) as [nd' [r|e]]; cbn [fst snd] in *; [|by left].
  specialize (Hsays r eq_refl).
  destruct r as [|[]|[rec|]| | | |]; cbn in *; try done; [by right|right; eauto|by left].
Qed.

Lemma signed_by_verifies rec pk :
  signed_by rec pk = true →
  verify_record pk (key rec) (value rec) (sequence rec) (ttl_secs rec) (not_before_unix rec) (signature rec) = true.
Proof.
  unfold signed_by. intros [[Hk Ho]%andb_true_iff Ha]%andb_true_iff.
  apply bool_decide_eq_true_1 in Ho. unfold authentic in Ha. apply Z.eqb_eq in Hk. rewrite Hk in Ha.
  cbn in Ha. apply andb_true_iff in Ha as [_ Ha]. by rewrite Ho in Ha.
Qed.

Lemma get_mutable_result nd pk ns slt evs :
  node_ok nd →
  let k := mutable_key pk ns slt in
  let c := get_mutable rs_encode nd pk ns slt evs in
  let shard_says := replied c.1 (owner nd k) (nd_fresh nd) in
  match c.2 with
  | Ok (Some x) => ∃ rec, shard_says (RRecord (Some rec)) ∧ value rec = x ∧
      namespace rec = ns ∧ salt rec = slt ∧
      verify_record pk k x (sequence rec) (ttl_secs rec) (not_before_unix rec) (signature rec) = true
  | Ok None => shard_says (RValue None)
  | Err e => channel_error e ∨
      (∃ rec, (e = "key mismatch"%string ∨ e = "bad signature"%string) ∧ shard_says (RRecord (Some rec))) ∨
      (e = "unexpected"%string ∧ ∃ l, shard_says (RProviders l))
  end.
Proof.
  intros Hok k. unfold get_mutable, get_record, and_then. fold k. set (i := owner nd k).
  destruct (call_ok nd i (CmdGet k) evs Hok (λ _, eq_refl)) as (_ & _ & Hr).
  pose proof (call_replied nd i (CmdGet k) evs) as Hsays.
  destruct (call _ _ _ _) as [nd' [r|e]]; cbn [fst snd] in *; [|by left].
  specialize (Hsays r eq_refl).
  destruct r as [|[]|[rec|]| | | |]; cbn in *; try done; [|right; right; eauto].
  destruct (_ || _ || _) eqn:Ek; [right; left; exists rec; auto|].
  destruct (signed_by rec pk) eqn:Es; cbn; [|right; left; exists rec; auto].
  exists rec. apply orb_false_iff in Ek as [[Ek En]%orb_false_iff Et]. bool_to_prop.
  apply signed_by_verifies in Es. rewrite Ek in Es. by split_and!.
Qed.

(** C9: the results of the API.  In any history of a node (any interleaving of its threads,
    any traffic, other calls, during or after a shutdown), a call fails with ["shard gone"]
    or ["timeout"], or reports what the shard that owns the key answered on the channel the
    call opened: [put] the hash of the value, or ["store failed"]; [put_mutable] the key of
    owner, namespace and salt, or ["mutable rejected"]; [announce_provider] that the shard
    has announced it; [get] the value of the record answered, which passed its check (an
    immutable record hashes to its own key, a mutable one is signed; that key need not be
    the one asked for, see the findings), nothing, or ["unexpected"] for a list of
    providers; [get_mutable] the value of the record answered, which carries exactly that
    namespace and salt and is signed by the given owner for exactly that key, nothing,
    ["key mismatch"] or ["bad signature"] for any other record, or ["unexpected"];
    [find_providers] the list answered, none, or ["unexpected"] for a record. *)
Theorem api_results (nd : Node) (v ns slt pk meta : bytes) (k : Key) (ttl q now : Z)
    (evs : list Event) :
  node_reach nd →
  let says (nd' : Node) (k : Key) := replied nd' (owner nd k) (nd_fresh nd) in
  (let '(nd', out) := put_ttl rs_encode nd v ttl evs in
   match out with
   | Ok k' => k' = hash_value v ∧ says nd' (hash_value v) (RKey k')
   | Err e => channel_error e ∨ (e = "store failed"%string ∧ says nd' (hash_value v) (RErr e))
   end) ∧
  (let mk := mutable_key (vec_to_list (verifying_key (nd_identity nd))) ns slt in
   let '(nd', out) := put_mutable_ttl rs_encode nd ns slt v q ttl now evs in
   match out with
   | Ok k' => k' = mk ∧ says nd' mk (RKey k')
   | Err e => channel_error e ∨ (e = "mutable rejected"%string ∧ says nd' mk (RErr e))
   end) ∧
  (let '(nd', out) := node_announce rs_encode nd k meta evs in
   match out with
   | Ok _ => says nd' k ROk
   | Err e => channel_error e
   end) ∧
  (let '(nd', out) := get rs_encode nd k evs in
   match out with
   | Ok (Some x) => ∃ rec, says nd' k (RRecord (Some rec)) ∧ authentic rec = true ∧ value rec = x
   | Ok None => says nd' k (RValue None)
   | Err e => channel_error e ∨ (e = "unexpected"%string ∧ ∃ l, says nd' k (RProviders l))
   end) ∧
  (let mk := mutable_key pk ns slt in
   let '(nd', out) := get_mutable rs_encode nd pk ns slt evs in
   match out with
   | Ok (Some x) => ∃ rec, says nd' mk (RRecord (Some rec)) ∧ value rec = x ∧
       namespace rec = ns ∧ salt rec = slt ∧
       verify_record pk mk x (sequence rec) (ttl_secs rec) (not_before_unix rec) (signature rec) = true
   | Ok None => says nd' mk (RValue None)
   | Err e => channel_error e ∨
       (∃ rec, (e = "key mismatch"%string ∨ e = "bad signature"%string) ∧ says nd' mk (RRecord (Some rec))) ∨
       (e = "unexpected"%string ∧ ∃ l, says nd' mk (RProviders l))
   end) ∧
  (let '(nd', out) := find_providers rs_encode nd k evs in
   match out with
   | Ok l => says nd' k (RProviders l) ∨ (l = [] ∧ says nd' k (RValue None))
   | Err e => channel_error e ∨ (e = "unexpected"%string ∧ ∃ rec, says nd' k (RRecord (Some rec)))
   end).
Proof.
  intros Hok%node_reach_ok says. split_and!.
  - pose proof (put_result nd v ttl evs Hok) as Hr. by destruct (put_ttl _ _ _ _ _).
  - pose proof (put_mutable_result nd ns slt v q ttl now evs Hok) as Hr. destruct (put_mutable_ttl _ _ _ _ _ _ _ _ _) as [nd' [k'|e]]; [|done].
    destruct Hr as [-> Hr]. by split.
  - pose proof (announce_result nd k meta evs Hok) as Hr. by destruct (node_announce _ _ _ _ _).
  - pose proof (get_result nd k evs Hok) as Hr. by destruct (get _ _ _ _).
  - pose proof (get_mutable_result nd pk ns slt evs Hok) as Hr. by destruct (get_mutable _ _ _ _ _ _).
  - pose proof (find_providers_result nd k evs Hok) as Hr. by destruct (find_providers _ _ _ _).
Qed.
End node.

(** ** A concrete node *)

#[local] Existing Instance toy_crypto.
#[local] Existing Instance toy_tunn.
#[local] Existing Instance toy_keyed.
#[local] Existing Instance crc_ieee_inst.
#[local] Existing Instance wire_protobuf.

Definition sample_config : NodeConfig := mkNodeConfig (toy_addr 0) 2 [] true false false false.

Definition sample_spawn (i : nat) : Spawn :=
  mkSpawn (Some (toy_addr (Z.of_nat i))) true (empty_dir 0) (true, true) 1000 (sample_env 0).

(** Two shards. *)
Definition sample_nd : Node :=
  match Node_start sample_identity sample_config sample_spawn with
  | Ok nd => nd
  | Err _ => mkNode sample_identity sample_config [] true 0
  end.

Lemma sample_nd_reach : node_reach no_erasure sample_nd.
Proof.
  apply (nr_start no_erasure sample_identity sample_config sample_spawn). unfold sample_nd.
  destruct (Node_start _ _ _) eqn:E; [done|]. exfalso.
  assert (is_ok (Node_start sample_identity sample_config sample_spawn) = true) as Hok by (vm_compute; exact eq_refl).
  by rewrite E in Hok.
Qed.

(** One turn of shard [i]. *)
Definition sample_turn (i : nat) : list Event :=
  [CheckRunning i (sample_env 0); Body i [] (sample_env 0)].

(** A put, and a get of what was put: each is answered by the shard that owns the key. *)
Lemma api_results_witness :
  let v := bstr "v" in
  let evs := sample_turn 0 ++ sample_turn 1 in
  let nd := (put_ttl no_erasure sample_nd v 60 evs).1 in
  let '(nd', out) := get no_erasure nd (hash_value v) evs in
  out = Ok (Some v) ∧
  match out with
  | Ok (Some x) => ∃ rec, replied nd' (owner nd (hash_value v)) (nd_fresh nd) (RRecord (Some rec)) ∧
      authentic rec = true ∧ value rec = x
  | Ok None => replied nd' (owner nd (hash_value v)) (nd_fresh nd) (RValue None)
  | Err e => channel_error e ∨ (e = "unexpected"%string ∧
      ∃ l, replied nd' (owner nd (hash_value v)) (nd_fresh nd) (RProviders l))
  end.
Proof.
  intros v evs nd. assert (node_reach no_erasure nd) as Hnd by (apply put_reach, sample_nd_reach).
  assert ((get no_erasure nd (hash_value v) evs).2 = Ok (Some v)) as Hv by (vm_compute; reflexivity).
  clearbody nd.
  destruct (api_results no_erasure nd v [] [] [] [] (hash_value v) 60 0 0 evs Hnd) as (_ & _ & _ & Hr & _).
  destruct (get no_erasure nd (hash_value v) evs) as [nd' out]. cbn [snd] in Hv. split; [exact Hv|exact Hr].
Defined.
