(* ===== verification/NodeQuiet.v ===== *)
(** * Reading back what was stored

    While a shard is left alone by the network, its timers and its own lookups leave the
    records of its store as they are until they expire: a value put at a node can be read
    back from it, by hash or by owner, name and salt. *)

From S2P Require Import Prelude Bytes Types Proto Codec Routing Crypto Net Peerstore Store Pool Lookup Wg Relay EventLoop Metrics Sybil Erasure ShardState Shard ShardInv ShardThms ShardReplies ShardStore Node NodeThms.

Section quiet.
Context `{TunnOps} `{KeyedHash} `{Protobuf} `{Crc32}.
Context (rs_encode : list bytes → result (list bytes)).

Notation run_event := (run_event rs_encode).
Notation run_events := (run_events rs_encode).
Notation call := (call rs_encode).

(** ** Quiet histories

    No thread is told to stop; shard [i] hears nothing from the network, its poller works
    and its clock stays between [lo] and [hi].  Other shards are free. *)

Definition up (nd : Node) : Prop :=
  nd_running nd = true ∧ ∀ i h, nd_shards nd !! i = Some h → CmdShutdown ∉ sh_queue h.

Definition clock_in (lo hi : Z) (e : Env) : Prop := ∀ n, (lo ≤ env_unix e n ≤ hi)%Z.

Definition quiet (i : nat) (lo hi : Z) (ev : Event) : Prop :=
  match ev with
  | CheckRunning _ _ => True
  | Body j batch e => j = i → batch = [] ∧ clock_in lo hi e
  | PollError j => j ≠ i
  end.

Lemma run_cmds_running cmds e s : CmdShutdown ∉ cmds → (run_cmds rs_encode cmds e s).1 = true.
Proof.
  revert s. induction cmds as [|cmd cmds IH]; intros s Hc; [done|].
  apply not_elem_of_cons in Hc as [Hc Hcs].
  destruct cmd; try done; cbn [run_cmds]; unfold mbind, M_bind;
    destruct (handle_cmd _ _ e s) as [[] s']; by apply IH.
Qed.

Lemma shard_turn_running batch queue e s :
  CmdShutdown ∉ queue →
  (shard_turn rs_encode batch queue e s).1.1 = true ∧
  ∀ cmd, cmd ∈ (shard_turn rs_encode batch queue e s).1.2 → cmd ∈ queue.
Proof.
  intros Hq. unfold shard_turn. rewrite drain_cmds_correct. unfold mbind, M_bind, mret, M_ret.
  destruct (for_ batch receive e s) as [[] s1].
  pose proof (run_cmds_running (take DRAIN_BATCH queue) e s1) as Hr.
  destruct (run_cmds _ _ e s1) as [running s2]. destruct (now_instant e s2) as [now s3].
  cbn -[on_timer pop_due DRAIN_BATCH]. destruct (for_ _ on_timer e _) as [[] s4]. cbn -[DRAIN_BATCH]. split.
  - apply Hr. intros Hin. apply Hq. by eapply elem_of_take in Hin as (j & ?%list_elem_of_lookup_2 & _).
  - intros cmd Hin. rewrite <-(take_drop DRAIN_BATCH queue). apply elem_of_app. by right.
Qed.

Definition live (nd : Node) : Prop := node_ok nd ∧ up nd.

Lemma live_event nd ev : live nd → live (run_event nd ev).
Proof.
  intros [Hok [Hrun Hup]]. split; [by apply run_event_ok|]. unfold Node.run_event.
  destruct (nd_shards nd !! event_shard ev) as [h|] eqn:E; [|done].
  assert (Hh : (thread_event rs_encode true h ev).1 = true ∧
               CmdShutdown ∉ sh_queue (thread_event rs_encode true h ev).2).
  { specialize (Hup _ _ E). unfold thread_event.
    destruct ev as [j e|j batch e|j], (sh_phase h); try done;
      try (split; [done|apply not_elem_of_nil]).
    pose proof (shard_turn_running batch (sh_queue h) e (sh_state h) Hup) as Hturn.
    destruct (shard_turn _ _ _ e _) as [[go rest] s]. cbn in *. destruct Hturn as [-> Hrest].
    split; [done|]. intros Hin. by apply Hup, Hrest. }
  rewrite Hrun. destruct (thread_event rs_encode true h ev) as [running h']. cbn in *.
  destruct Hh as [-> Hq]. split; [done|]. cbn.
  intros j hj [(<- & <- & _)|(_ & Hj)]%list_lookup_insert_Some; [done|by eapply Hup].
Qed.

(** Shard [i] waits for a command to be handled in state [s], past the test of its loop
    when [ready]; or it has nothing to do, and its state satisfies [Q]. *)
Definition waits (i : nat) (ready : bool) (cmd : ShardCmd) (s : St) (nd : Node) : Prop :=
  ∃ h, nd_shards nd !! i = Some h ∧ sh_phase h ≠ Exited ∧ (ready = true → sh_phase h = InBody) ∧
       sh_queue h = [cmd] ∧ sh_state h = s.

Definition idle (i : nat) (Q : St → Prop) (nd : Node) : Prop :=
  ∃ h, nd_shards nd !! i = Some h ∧ sh_phase h ≠ Exited ∧ sh_queue h = [] ∧ Q (sh_state h).

Definition stable (lo hi : Z) (Q : St → Prop) : Prop :=
  ∀ e s, clock_in lo hi e → queues_sendable s → Q s → Q (turn_timers e s).2.

Definition leads (lo hi : Z) (cmd : ShardCmd) (s : St) (Q : St → Prop) : Prop :=
  ∀ e, clock_in lo hi e → Q (turn_timers e (handle_cmd rs_encode cmd e s).2).2.

(** Thread [i] goes through the test and the body of its loop. *)
Definition turns (i : nat) (evs : list Event) : Prop :=
  ∃ evs1 e1 evs2 batch e2 evs3,
    evs = evs1 ++ [CheckRunning i e1] ++ evs2 ++ [Body i batch e2] ++ evs3.

Lemma other_event nd ev i h :
  event_shard ev ≠ i → nd_shards nd !! i = Some h → nd_shards (run_event nd ev) !! i = Some h.
Proof.
  intros Hne Hi. unfold Node.run_event. destruct (nd_shards nd !! event_shard ev); [|done].
  destruct (thread_event _ _ _ _). cbn. by rewrite list_lookup_insert_ne.
Qed.

Lemma own_event nd ev i h :
  nd_running nd = true → event_shard ev = i → nd_shards nd !! i = Some h →
  nd_shards (run_event nd ev) !! i = Some (thread_event rs_encode true h ev).2.
Proof.
  intros Hrun He Hi. unfold Node.run_event. rewrite He, Hi, Hrun.
  destruct (thread_event _ _ _ _). cbn. apply list_lookup_insert_eq. by eapply lookup_lt_Some.
Qed.

Lemma live_sendable nd i h : live nd → nd_shards nd !! i = Some h → queues_sendable (sh_state h).
Proof. intros [[_ [issued Hok]] _] Hi. eapply sf_queues, so_safe, Hok, Hi. Qed.

Lemma idle_event nd ev i lo hi Q :
  live nd → quiet i lo hi ev → stable lo hi Q → idle i Q nd → idle i Q (run_event nd ev).
Proof.
  intros Hl Hq Hst (h & Hi & Hph & Hqu & HQ).
  destruct (decide (event_shard ev = i)) as [He|He].
  2: { exists h. split_and!; [by apply other_event|done..]. }
  eexists. split; [by apply own_event; [apply Hl|..]|]. pose proof (live_sendable _ _ _ Hl Hi) as Hsend.
  unfold thread_event. destruct ev as [j e|j batch e|j]; cbn in He, Hq; [|destruct (Hq He) as [-> Hc]|done].
  - by destruct (sh_phase h) eqn:E; cbn; rewrite ?E.
  - destruct (sh_phase h) eqn:E; [by cbn; rewrite E| |done].
    rewrite Hqu, quiet_turn_eq. cbn. split_and!; [done..|]. by apply Hst.
Qed.

(** The body of the loop, with one command in the queue. *)
Lemma waits_body nd i lo hi cmd s Q e :
  live nd → clock_in lo hi e → cmd ≠ CmdShutdown → leads lo hi cmd s Q → waits i true cmd s nd →
  idle i Q (run_event nd (Body i [] e)).
Proof.
  intros Hl Hc Hcmd Hld (h & Hi & _ & Hin & Hqu & Hs). specialize (Hin eq_refl).
  pose proof (own_event nd (Body i [] e) i h (proj1 (proj2 Hl)) eq_refl Hi) as Hown.
  eexists. split; [exact Hown|]. unfold thread_event. rewrite Hin, Hqu, quiet_turn_eq, Hs.
  specialize (Hld e Hc). cbn [take DRAIN_BATCH drop].
  destruct cmd; try done; cbn -[handle_cmd turn_timers];
    unfold mbind, M_bind; destruct (handle_cmd _ _ e s) as [[] s']; by cbn in *.
Qed.

Lemma waits_check nd i r cmd s e :
  live nd → waits i r cmd s nd → waits i true cmd s (run_event nd (CheckRunning i e)).
Proof.
  intros Hl (h & Hi & Hph & Hr & Hqu & Hs).
  pose proof (own_event nd (CheckRunning i e) i h (proj1 (proj2 Hl)) eq_refl Hi) as Hown.
  eexists. split; [exact Hown|]. unfold thread_event. by destruct (sh_phase h) eqn:E; cbn; rewrite ?E.
Qed.

Lemma waits_event nd ev i lo hi r cmd s Q :
  live nd → quiet i lo hi ev → cmd ≠ CmdShutdown → leads lo hi cmd s Q → waits i r cmd s nd →
  waits i r cmd s (run_event nd ev) ∨ idle i Q (run_event nd ev).
Proof.
  intros Hl Hq Hcmd Hld Hw. destruct (decide (event_shard ev = i)) as [He|He].
  2: { left. destruct Hw as (h & Hi & Hh). exists h. split; [by apply other_event|done]. }
  destruct ev as [j e|j batch e|j]; cbn in He, Hq; [|destruct (Hq He) as [-> Hc]|done]; subst j.
  - left. destruct (waits_check nd i r cmd s e Hl Hw) as (h & Hi & Hph & Hr & Hh). exists h.
    split_and!; [done..|by intros _; apply Hr|apply Hh|apply Hh].
  - destruct Hw as (h & Hi & Hph & Hr & Hqu & Hs). destruct (sh_phase h) eqn:E; [| |done].
    + left. exists h. rewrite E. split_and!; [|done..].
      rewrite (own_event nd (Body i [] e) i h (proj1 (proj2 Hl)) eq_refl Hi). unfold thread_event. by rewrite E.
    + right. eapply waits_body; [done..|]. exists h. by rewrite E.
Qed.

(** What holds of every event holds of a list of them. *)
Lemma live_events evs nd : live nd → live (run_events nd evs).
Proof. revert nd. induction evs as [|ev evs IH]; intros nd Hl; [done|]. by apply IH, live_event. Qed.

Lemma run_events_app nd evs evs' : run_events nd (evs ++ evs') = run_events (run_events nd evs) evs'.
Proof. apply foldl_app. Qed.

Lemma idle_events evs nd i lo hi Q :
  live nd → Forall (quiet i lo hi) evs → stable lo hi Q → idle i Q nd → idle i Q (run_events nd evs).
Proof.
  intros Hl Hq. revert nd Hl. induction Hq as [|ev evs Hev _ IH]; intros nd Hl Hst Hi; [done|].
  apply IH; [by apply live_event|done|]. by eapply idle_event.
Qed.

Lemma waits_events evs nd i lo hi r cmd s Q :
  live nd → Forall (quiet i lo hi) evs → cmd ≠ CmdShutdown → leads lo hi cmd s Q → stable lo hi Q →
  waits i r cmd s nd → waits i r cmd s (run_events nd evs) ∨ idle i Q (run_events nd evs).
Proof.
  intros Hl Hq Hcmd Hld Hst. revert nd Hl. induction Hq as [|ev evs Hev Hq IH]; intros nd Hl Hw; [by left|].
  pose proof (live_event nd ev Hl) as Hl'.
  destruct (waits_event nd ev i lo hi r cmd s Q Hl Hev Hcmd Hld Hw) as [Hw'|Hi]; [by apply IH|].
  right. by eapply (idle_events evs).
Qed.

(** A command is handled in a turn of its shard. *)
Lemma waits_served evs nd i lo hi cmd s Q :
  live nd → Forall (quiet i lo hi) evs → turns i evs → cmd ≠ CmdShutdown → leads lo hi cmd s Q →
  stable lo hi Q → waits i false cmd s nd → idle i Q (run_events nd evs).
Proof.
  intros Hl Hq (evs1 & e1 & evs2 & batch & e2 & evs3 & ->) Hcmd Hld Hst Hw.
  apply Forall_app in Hq as [Hq1 [Hq2 [Hq3 [Hq4 Hq5]%Forall_app]%Forall_app]%Forall_app].
  apply Forall_cons in Hq4 as [Hq4 _]. destruct (Hq4 eq_refl) as [-> Hc].
  rewrite !run_events_app. set (nd1 := run_events nd evs1).
  assert (Hl1 : live nd1) by by apply live_events.
  change (run_events nd1 [CheckRunning i e1]) with (run_event nd1 (CheckRunning i e1)).
  set (nd2 := run_event nd1 _). assert (Hl2 : live nd2) by by apply live_event.
  set (nd3 := run_events nd2 evs2). assert (Hl3 : live nd3) by by apply live_events.
  change (run_events nd3 [Body i [] e2]) with (run_event nd3 (Body i [] e2)).
  eapply (idle_events evs3); [by apply live_event|done..|].
  assert (waits i true cmd s nd3 ∨ idle i Q nd3) as [Hw3|Hi3].
  { destruct (waits_events evs1 nd i lo hi false cmd s Q) as [Hw1|Hi1]; [done..| |].
    - eapply (waits_events evs2); [done..|]. by eapply waits_check.
    - right. eapply (idle_events evs2); [done..|]. by eapply idle_event. }
  - by eapply waits_body.
  - by eapply idle_event.
Qed.

Lemma send_live nd i h h' cmd :
  cmd ≠ CmdShutdown → up nd → nd_shards nd !! i = Some h → send_cmd cmd h = Some h' →
  up (with_shards (<[i := h']>) (opened nd)).
Proof.
  intros Hcmd [Hrun Hup] Hi Hs. split; [done|]. intros j hj. cbn.
  intros [(<- & <- & _)|(_ & Hj)]%list_lookup_insert_Some; [|by eapply Hup].
  unfold send_cmd in Hs. case_bool_decide; [done|]. injection Hs as <-. cbn.
  rewrite elem_of_app, list_elem_of_singleton. intros [Hin|Heq]; [by eapply Hup|congruence].
Qed.

Lemma shard_ok_unanswered identity i fresh issued h :
  shard_ok identity i fresh issued h → received fresh (sh_state h) = None.
Proof.
  intros Hok. destruct (received fresh (sh_state h)) as [r|] eqn:E; [|done]. exfalso.
  apply received_in in E. destruct (ty_answers _ _ (so_typed _ _ _ _ _ Hok) _ _ E) as (cmd & Hin & Hc & _).
  pose proof (so_fresh _ _ _ _ _ Hok cmd _ Hin Hc). lia.
Qed.

Lemma find_prefix {A} (f : A → bool) (l l' : list A) a :
  l `prefix_of` l' → find f l = Some a → find f l' = Some a.
Proof.
  intros [k ->]. induction l as [|x l IH]; cbn; [done|]. by destruct (f x).
Qed.

Lemma received_prefix tx s s' r :
  st_answers s `prefix_of` st_answers s' → received tx s = Some r → received tx s' = Some r.
Proof.
  unfold received. intros Hp. rewrite !fmap_Some. intros (p & Hf & ->). exists p.
  by split; [eapply find_prefix|].
Qed.

(** ** Calls to a shard that is left alone *)

Lemma stable_received tx lo hi (Q : Reply → St → Prop) :
  (∀ r, stable lo hi (Q r)) → stable lo hi (λ s, ∃ r, received tx s = Some r ∧ Q r s).
Proof.
  intros Hst e s Hc Hq (r & Hr & HQ). exists r. split; [|by apply Hst].
  eapply received_prefix; [by apply turn_timers_answers|done].
Qed.

(** The command is handled, and its reply is the result. *)
Lemma call_quiet nd i make evs lo hi (P : St → Prop) (Q : Reply → St → Prop) :
  live nd → (∀ tx, cmd_sender (make tx) = Some tx) →
  idle i P nd → Forall (quiet i lo hi) evs → turns i evs →
  (∀ s, queues_sendable s → P s → received (nd_fresh nd) s = None →
     leads lo hi (make (nd_fresh nd)) s (λ s', ∃ r, received (nd_fresh nd) s' = Some r ∧ Q r s')) →
  (∀ r, stable lo hi (Q r)) →
  ∃ r, (call nd i make evs).2 = Ok r ∧ live (call nd i make evs).1 ∧ idle i (Q r) (call nd i make evs).1.
Proof.
  intros [Hok Hup] Hmake (h & Hi & Hph & Hqu & HP) Hq Ht Hld Hst.
  assert (Hsend : send_cmd (make (nd_fresh nd)) h =
    Some (mkShardHandle (sh_local h) (sh_state h) [make (nd_fresh nd)] (sh_phase h))).
  { unfold send_cmd. by rewrite bool_decide_eq_false_2, Hqu. }
  set (h' := mkShardHandle _ _ _ _) in Hsend. set (nd1 := with_shards (<[i := h']>) (opened nd)).
  assert (Hcmd : make (nd_fresh nd) ≠ CmdShutdown).
  { intros E. pose proof (Hmake (nd_fresh nd)) as Hs. by rewrite E in Hs. }
  assert (Hcall : ∀ evs, call nd i make evs =
    let nd2 := run_events nd1 evs in
    match (h ← nd_shards nd2 !! i; received (nd_fresh nd) (sh_state h)) with
    | Some r => (nd2, Ok r) | None => (nd2, Err "timeout") end).
  { intros evs'. unfold Node.call. cbn [nd_shards]. rewrite Hi. cbn [mbind option_bind]. by rewrite Hsend. }
  assert (Hl : live nd1).
  { split; [|by eapply send_live]. destruct (call_ok rs_encode nd i make [] Hok Hmake) as [Hn _].
    rewrite Hcall in Hn. cbn zeta in Hn. by destruct (_ ≫= _). }
  assert (Hlt : i < length (nd_shards nd)) by by eapply lookup_lt_Some.
  assert (Hw : waits i false (make (nd_fresh nd)) (sh_state h) nd1).
  { exists h'. split_and!; [by apply list_lookup_insert_eq|done..]. }
  assert (Hnone : received (nd_fresh nd) (sh_state h) = None).
  { destruct Hok as [_ [issued Hok]]. by eapply shard_ok_unanswered, Hok. }
  assert (Hqs : queues_sendable (sh_state h)) by by apply (live_sendable nd i h).
  pose proof (waits_served evs nd1 i lo hi _ _ _ Hl Hq Ht Hcmd (Hld _ Hqs HP Hnone)
                (stable_received _ _ _ _ Hst) Hw) as (h2 & Hi2 & Hph2 & Hqu2 & r & Hr & HQ).
  exists r. rewrite Hcall. cbn zeta. rewrite Hi2. cbn [mbind option_bind]. rewrite Hr.
  split_and!; [done|by apply live_events|]. by exists h2.
Qed.

(** ** Putting and getting *)

(** The store holds a record under [k] that is [good] and not yet expired at [hi]. *)
Definition keeping (k : Key) (good : StoredRecord → Prop) (hi : Z) (s : St) : Prop :=
  ∃ rec, good rec ∧ kind rec ≠ KIND_TOMBSTONE ∧ holds k rec hi (sc_store (st_ctx s)).

Lemma keeping_stable k good lo hi : stable lo hi (keeping k good hi).
Proof.
  intros e s Hc _ (rec & Hg & Hk & Hh). exists rec. split_and!; [done..|].
  apply turn_timers_held; [|done]. intros n. apply Hc.
Qed.

Lemma const_stable lo hi (P : Prop) Q : stable lo hi Q → stable lo hi (λ s, P ∧ Q s).
Proof. intros Hst e s Hc Hq [HP HQ]. split; [done|by apply Hst]. Qed.

(** What a handler does before the timers of its turn. *)
Lemma leads_handle lo hi cmd tx s (Q : Reply → St → Prop) :
  queues_sendable s → (∀ r, stable lo hi (Q r)) →
  (∀ e, clock_in lo hi e → ∃ r, received tx (handle_cmd rs_encode cmd e s).2 = Some r ∧
                                Q r (handle_cmd rs_encode cmd e s).2) →
  leads lo hi cmd s (λ s', ∃ r, received tx s' = Some r ∧ Q r s').
Proof.
  intros Hq Hst Hh e Hc. apply (stable_received tx lo hi Q Hst e); [done| |by apply Hh].
  eapply settled_queues; [|exact Hq]. by apply handle_cmd_settles.
Qed.

Lemma find_new {A} (f : A → bool) (l : list A) a : find f l = None → f a = true → find f (l ++ [a]) = Some a.
Proof. intros Hn Ha. induction l as [|x l IH]; cbn in *; [by rewrite Ha|]. destruct (f x); [done|auto]. Qed.

Lemma received_last tx r s s' :
  received tx s = None → st_answers s' = st_answers s ++ [(tx, r)] → received tx s' = Some r.
Proof.
  unfold received. intros Hn ->. rewrite (find_new _ _ (tx, r)); [done| |by apply bool_decide_eq_true_2].
  by destruct (find _ (st_answers s)).
Qed.

Lemma get_handled lo hi k tx s good :
  queues_sendable s → received tx s = None → keeping k good hi s →
  leads lo hi (CmdGet k tx) s (λ s', ∃ r, received tx s' = Some r ∧
    (∃ rec, good rec ∧ r = RRecord (Some rec)) ∧ keeping k good hi s').
Proof.
  intros Hq Hn (rec & Hg & Hkind & Hrec). apply leads_handle; [done|intros r; apply const_stable, keeping_stable|].
  intros e Hc. destruct (get_held rs_encode k tx rec hi e s) as [Ha Hst]; [done|done|intros n; apply Hc|done|].
  exists (RRecord (Some rec)). split_and!; [by eapply received_last|by exists rec|].
  exists rec. by rewrite Hst.
Qed.

(** The record a put of [v] leaves. *)
Definition put_of (v : bytes) (rec : StoredRecord) : Prop := value rec = v.

Lemma put_handled lo hi v ttl tx s :
  (Z.of_nat (length v) ≤ 64 * Z.of_nat PMTU_FLOOR)%Z → (hi ≤ lo + ttl)%Z → (0 ≤ ttl)%Z →
  queues_sendable s → received tx s = None →
  leads lo hi (CmdPut v ttl tx) s (λ s', ∃ r, received tx s' = Some r ∧
    r = RKey (hash_value v) ∧ keeping (hash_value v) (put_of v) hi s').
Proof.
  intros Hlen Hhi Httl Hq Hn. apply leads_handle; [done|intros r; apply const_stable, keeping_stable|].
  intros e Hc. rewrite put_eq by done. set (rec := immutable_record (env_unix e (st_tick s)) v ttl).
  destruct (answer_last (incr MStoreOk;; replicate_store v (hash_value v) ttl) tx
              (RKey (hash_value v)) e (stored_at rec e s)) as [Hr Hst].
  - apply runs_seq; [exact _|apply incr_ok, low_Steps|intros _; apply (replicate_store_ok low_step)].
  - apply (keeps_seq sc_store); [apply (incr_keeps sc_store)|intros _; apply (replicate_store_keeps sc_store)].
  - exact Hq.
  - exists (RKey (hash_value v)). split_and!; [exact (received_last _ _ _ _ Hn Hr)|done|]. exists rec. rewrite Hst. split_and!; [done..|].
    split; [apply lookup_insert_eq|]. unfold expired, sat_sub. cbn. apply Z.ltb_ge. specialize (Hc (st_tick s)). lia.
Qed.

(** The record a put of [rec] leaves. *)
Definition signed_put (rec rec' : StoredRecord) : Prop := rec' = rec ∧ authentic rec = true.

Lemma put_record_mutable st rec :
  kind rec = KIND_MUTABLE → put_record_check st rec = Ok tt →
  authentic rec = true ∧ put_record st rec false = (insert_record (queue_record st rec) rec, Ok tt).
Proof.
  intros Hk Hc. split; [|unfold put_record; by rewrite Hc, Hk].
  unfold put_record_check in Hc. rewrite Hk in Hc. cbn in Hc.
  destruct (_ <? _)%Z; [done|]. by destruct (authentic rec).
Qed.

Definition put_outcome (rec : StoredRecord) (hi : Z) (r : Reply) (s : St) : Prop :=
  match r with
  | RErr e => e = "mutable rejected"%string
  | _ => r = RKey (key rec) ∧ keeping (key rec) (signed_put rec) hi s
  end.

Lemma put_outcome_stable rec lo hi r : stable lo hi (put_outcome rec hi r).
Proof. destruct r; try (apply const_stable, keeping_stable). by intros ? ?. Qed.

Lemma put_mutable_handled lo hi rec tx s :
  kind rec = KIND_MUTABLE → expired rec hi = false → queues_sendable s → received tx s = None →
  leads lo hi (CmdPutMutable rec tx) s (λ s', ∃ r, received tx s' = Some r ∧ put_outcome rec hi r s').
Proof.
  intros Hkind Hexp Hq Hn. apply leads_handle; [done|intros r; apply put_outcome_stable|].
  intros e Hc.
  destruct (put_record_check (sc_store (st_ctx s)) rec) as [[]|err] eqn:Ec.
  - destruct (put_record_mutable _ _ Hkind Ec) as [Ha Hput].
    set (s1 := (modify (set_store (insert_record (queue_record (sc_store (st_ctx s)) rec) rec)) e s).2).
    assert (Heq : handle_cmd rs_encode (CmdPutMutable rec tx) e s =
      ((incr MStoreOk;; send_store_rpc rec);; answer tx (RKey (key rec))) e s1).
    { cbn [handle_cmd]. rewrite bind_assoc. unfold gets, mbind at 1, M_bind at 1. cbn beta iota.
      unfold modify at 1, mbind at 1, M_bind at 1. cbn beta iota. by rewrite Hput. }
    rewrite Heq. destruct (answer_last (incr MStoreOk;; send_store_rpc rec) tx (RKey (key rec)) e s1) as [Hr Hst].
    + apply runs_seq; [exact _|apply incr_ok, low_Steps|intros _; apply (send_store_rpc_ok low_step rec)].
    + apply (keeps_seq sc_store); [apply (incr_keeps sc_store)|intros _; apply (send_store_rpc_keeps sc_store)].
    + exact Hq.
    + exists (RKey (key rec)). split; [exact (received_last _ _ _ _ Hn Hr)|]. split; [done|].
      exists rec. rewrite Hst. split; [by split|]. split; [by rewrite Hkind|]. split;  [apply lookup_insert_eq|done].
  - assert (Hput : put_record (sc_store (st_ctx s)) rec false = (sc_store (st_ctx s), Err err)).
    { unfold put_record. by rewrite Ec. }
    set (s1 := (modify (set_store (sc_store (st_ctx s))) e s).2).
    assert (Heq : handle_cmd rs_encode (CmdPutMutable rec tx) e s =
      (incr MStoreReject;; answer tx (RErr "mutable rejected")) e s1).
    { cbn [handle_cmd]. unfold gets, mbind at 1, M_bind at 1. cbn beta iota.
      unfold modify at 1, mbind at 1, M_bind at 1. cbn beta iota. by rewrite Hput. }
    rewrite Heq. destruct (answer_last (incr MStoreReject) tx (RErr "mutable rejected") e s1) as [Hr _].
    + apply incr_ok, low_Steps.
    + apply (incr_keeps sc_store).
    + exact Hq.
    + exists (RErr "mutable rejected"). split; [exact (received_last _ _ _ _ Hn Hr)|done].
Qed.

(** The owner of a key does not change. *)
Definition same_owners (nd nd' : Node) : Prop :=
  nd_identity nd' = nd_identity nd ∧ length (nd_shards nd') = length (nd_shards nd).

Lemma same_owners_owner nd nd' k : same_owners nd nd' → owner nd' k = owner nd k.
Proof. intros [Hi Hl]. unfold owner, node_node_id. by rewrite Hi, Hl. Qed.

Lemma run_event_owners nd ev : same_owners nd (run_event nd ev).
Proof.
  unfold Node.run_event. destruct (nd_shards nd !! _); [|done].
  destruct (thread_event _ _ _ _). split; [done|]. cbn. by rewrite length_insert.
Qed.

Lemma run_events_owners evs nd : same_owners nd (run_events nd evs).
Proof.
  revert nd. induction evs as [|ev evs IH]; intros nd; [done|].
  destruct (IH (run_event nd ev)) as [Hi Hl], (run_event_owners nd ev) as [Hi' Hl'].
  split; [by rewrite <-Hi'|by rewrite <-Hl'].
Qed.

Lemma call_owners nd i make evs : same_owners nd (call nd i make evs).1.
Proof.
  unfold Node.call. destruct (_ ≫= _) as [h|]; [|done].
  destruct (run_events_owners evs (with_shards (<[i := h]>) (opened nd))) as [Hi Hl].
  cbn in Hl. rewrite length_insert in Hl. by destruct (_ ≫= _).
Qed.

(** A kept record is what a later [CmdGet] returns. *)
Lemma get_kept nd i k good lo hi evs evs' :
  live nd → idle i (keeping k good hi) nd → Forall (quiet i lo hi) evs → Forall (quiet i lo hi) evs' →
  turns i evs' →
  ∃ rec, good rec ∧ (call (run_events nd evs) i (CmdGet k) evs').2 = Ok (RRecord (Some rec)).
Proof.
  intros Hl Hi Hq Hq' Ht.
  destruct (call_quiet (run_events nd evs) i (CmdGet k) evs' lo hi (keeping k good hi)
              (λ r s, (∃ rec, good rec ∧ r = RRecord (Some rec)) ∧ keeping k good hi s))
    as (r & Hr & _ & h & _ & _ & _ & (rec & Hg & ->) & _); eauto.
  - by apply live_events.
  - eapply (idle_events evs); [done..|apply keeping_stable|done].
  - intros s Hqs Hk Hn. by apply get_handled.
  - intros r. apply const_stable, keeping_stable.
Qed.

(** ** Theorems *)

(** C2: a value that was put is read back.  The shard that owns the hash of the value has
    an empty queue and hears nothing from the network; all else (the other shards and their
    traffic, the interleaving, timers, lookups of the shard itself) is arbitrary.  When its
    thread gets a turn during the put and during the get, and the time to live has not
    passed, [put_ttl] returns the hash and [get] the value. *)
Theorem put_then_get (nd : Node) (v : bytes) (ttl lo hi : Z) (evs1 evs2 evs3 : list Event) :
  let k := hash_value v in
  let i := owner nd k in
  node_reach rs_encode nd → up nd → idle i (λ _, True) nd →
  Forall (quiet i lo hi) (evs1 ++ evs2 ++ evs3) → turns i evs1 → turns i evs3 →
  (Z.of_nat (length v) ≤ 64 * Z.of_nat PMTU_FLOOR)%Z → (0 ≤ ttl)%Z → (hi ≤ lo + ttl)%Z →
  let '(nd1, r) := put_ttl rs_encode nd v ttl evs1 in
  r = Ok k ∧ (get rs_encode (run_events nd1 evs2) k evs3).2 = Ok (Some v).
Proof.
  intros k i Hok%node_reach_ok Hup Hidle [Hq1 [Hq2 Hq3]%Forall_app]%Forall_app Ht1 Ht3 Hlen Httl Hhi.
  destruct (call_quiet nd i (CmdPut v ttl) evs1 lo hi (λ _, True)
              (λ r s, r = RKey k ∧ keeping k (put_of v) hi s))
    as (r & Hr & Hl1 & Hidle1); [done..| | |].
  { intros s Hqs _ Hn. by apply put_handled. }
  { intros r. apply const_stable, keeping_stable. }
  unfold put_ttl, and_then. fold k i. rewrite Hr.
  destruct Hidle1 as (h & Hi & Hph & Hqu & -> & Hk). split; [done|].
  destruct (get_kept (call nd i (CmdPut v ttl) evs1).1 i k (put_of v) lo hi evs2 evs3)
    as (rec & Hg & Hget); [done|by exists h|done..|].
  unfold get, and_then. rewrite (same_owners_owner (call nd i (CmdPut v ttl) evs1).1) by apply run_events_owners.
  rewrite (same_owners_owner nd) by apply call_owners. fold i. rewrite Hget. cbn. by rewrite Hg.
Qed.

(** C13: a named value is read back under its owner's key.  In the same circumstances
    [put_mutable_ttl] either returns the key of owner, name and salt, and then
    [get_mutable] for that owner, name and salt returns the value (in particular its
    signature is verified), or it returns ["mutable rejected"]. *)
Theorem put_mutable_then_get (nd : Node) (ns slt v : bytes) (q ttl now lo hi : Z)
    (evs1 evs2 evs3 : list Event) :
  let pk := vec_to_list (verifying_key (nd_identity nd)) in
  let k := mutable_key pk ns slt in
  let i := owner nd k in
  node_reach rs_encode nd → up nd → idle i (λ _, True) nd →
  Forall (quiet i lo hi) (evs1 ++ evs2 ++ evs3) → turns i evs1 → turns i evs3 →
  (0 ≤ ttl)%Z → (hi ≤ now + ttl)%Z →
  match put_mutable_ttl rs_encode nd ns slt v q ttl now evs1 with
  | (nd1, Ok k') => k' = k ∧ (get_mutable rs_encode (run_events nd1 evs2) pk ns slt evs3).2 = Ok (Some v)
  | (_, Err e) => e = "mutable rejected"%string
  end.
Proof.
  intros pk k i Hok%node_reach_ok Hup Hidle [Hq1 [Hq2 Hq3]%Forall_app]%Forall_app Ht1 Ht3 Httl Hhi.
  set (rec := mutable_record (nd_identity nd) ns slt v q ttl now).
  destruct (call_quiet nd i (CmdPutMutable rec) evs1 lo hi (λ _, True) (put_outcome rec hi))
    as (r & Hr & Hl1 & Hidle1); [done..| | |].
  { intros s Hqs _ Hn. apply put_mutable_handled; [done| |done..].
    unfold expired, sat_sub. cbn. apply Z.ltb_ge. lia. }
  { intros r. apply put_outcome_stable. }
  unfold put_mutable_ttl, and_then. fold rec. change (key rec) with k. fold i. rewrite Hr.
  destruct Hidle1 as (h & Hi & Hph & Hqu & Hout).
  destruct r as [k'| | | | | |e]; cbn in Hout |- *; [|by destruct Hout..|done].
  destruct Hout as [[= ->] Hk]. change (key rec) with k in *. split; [done|].
  destruct (get_kept (call nd i (CmdPutMutable rec) evs1).1 i k (signed_put rec) lo hi evs2 evs3)
    as (rec' & [-> Ha] & Hget); [done|by exists h|done..|].
  unfold get_mutable, get_record, and_then. fold k.
  rewrite (same_owners_owner (call nd i (CmdPutMutable rec) evs1).1) by apply run_events_owners.
  rewrite (same_owners_owner nd) by apply call_owners. fold i. rewrite Hget. cbn [snd expect_record check_mutable].
  unfold signed_by. rewrite Ha. by rewrite !bool_decide_eq_true_2.
Qed.
End quiet.

#[local] Existing Instance toy_crypto.
#[local] Existing Instance toy_tunn.
#[local] Existing Instance toy_keyed.
#[local] Existing Instance crc_ieee_inst.
#[local] Existing Instance wire_protobuf.

Lemma up_check `{Crypto} (nd : Node) :
  nd_running nd && forallb (λ h, length (sh_queue h) =? 0) (nd_shards nd) = true → up nd.
Proof.
  intros [Hr Hq]%andb_true_iff. split; [done|]. intros i h Hi. rewrite forallb_forall in Hq.
  specialize (Hq h). destruct (sh_queue h); [by apply not_elem_of_nil|].
  discriminate Hq. apply list_elem_of_In. by eapply list_elem_of_lookup_2.
Qed.

Lemma idle_check `{Crypto} (nd : Node) i :
  match nd_shards nd !! i with
  | Some h => negb (bool_decide (sh_phase h = Exited)) && (length (sh_queue h) =? 0)
  | None => false
  end = true → idle i (λ _, True) nd.
Proof.
  destruct (nd_shards nd !! i) as [h|] eqn:E; [|done]. intros [Hp Hq]%andb_true_iff.
  apply negb_true_iff, bool_decide_eq_false_1 in Hp. exists h. split_and!; [done..| |done].
  by destruct (sh_queue h).
Qed.

Lemma sample_turn_quiet i j : Forall (quiet i 1000 1000) (sample_turn j).
Proof.
  constructor; [done|constructor; [|constructor]]. intros _. split; [done|]. intros n. cbn. lia.
Qed.

(** The other shard hears from the network in the meantime. *)
Definition sample_noise (i : nat) : list Event :=
  [CheckRunning i (sample_env 0); Body i [(toy_addr 9, bstr "?")] (sample_env 0)].

Lemma put_then_get_witness :
  let nd := sample_nd in
  let v := bstr "v" in
  let k := hash_value v in
  let i := owner nd k in
  let turn := sample_turn i in
  k = hash_value v ∧
  let '(nd1, r) := put_ttl no_erasure nd v 60 turn in
  r = Ok k ∧ (get no_erasure (run_events no_erasure nd1 (sample_noise (1 - i))) k turn).2 = Ok (Some v).
Proof.
  intros nd v k i turn. split; [done|].
  apply (put_then_get no_erasure nd v 60 1000 1000 turn (sample_noise (1 - i)) turn).
  - exact sample_nd_reach.
  - apply up_check. vm_compute. reflexivity.
  - apply idle_check. vm_compute. reflexivity.
  - apply Forall_app_2; [apply sample_turn_quiet|apply Forall_app_2; [|apply sample_turn_quiet]].
    constructor; [done|constructor; [|constructor]]. intros E. vm_compute in E. discriminate E.
  - by exists [], (sample_env 0), [], [], (sample_env 0), [].
  - by exists [], (sample_env 0), [], [], (sample_env 0), [].
  - vm_compute. discriminate.
  - lia.
  - lia.
Defined.


Lemma put_mutable_then_get_witness :
  let nd := sample_nd in
  let pk := vec_to_list (verifying_key (nd_identity nd)) in
  let k := mutable_key pk (bstr "ns") (bstr "salt") in
  let i := owner nd k in
  let turn := sample_turn i in
  (put_mutable_ttl no_erasure nd (bstr "ns") (bstr "salt") (bstr "v") 1 60 1000 turn).2 = Ok k ∧
  match put_mutable_ttl no_erasure nd (bstr "ns") (bstr "salt") (bstr "v") 1 60 1000 turn with
  | (nd1, Ok k') => k' = k ∧
      (get_mutable no_erasure (run_events no_erasure nd1 []) pk (bstr "ns") (bstr "salt") turn).2
      = Ok (Some (bstr "v"))
  | (_, Err e) => e = "mutable rejected"%string
  end.
Proof.
  intros nd pk k i turn. split; [vm_compute; reflexivity|].
  apply (put_mutable_then_get no_erasure nd (bstr "ns") (bstr "salt") (bstr "v") 1 60 1000 1000 1000
           turn [] turn).
  - exact sample_nd_reach.
  - apply up_check. vm_compute. reflexivity.
  - apply idle_check. vm_compute. reflexivity.
  - apply Forall_app_2; [apply sample_turn_quiet|]. apply sample_turn_quiet.
  - by exists [], (sample_env 0), [], [], (sample_env 0), [].
  - by exists [], (sample_env 0), [], [], (sample_env 0), [].
  - lia.
  - lia.
Defined.
