(* ===== verification/NodeStop.v ===== *)
(** * Stopping a node

    [shutdown] joins threads that do leave their loops, and what a thread still held back
    goes to its log on the way out. *)

From S2P Require Import Prelude Bytes Types Proto Codec Routing Crypto Net Peerstore Store Pool Lookup Wg Relay EventLoop Metrics Sybil Erasure ShardState Shard ShardInv ShardThms ShardReplies ShardStore Node NodeThms NodeQuiet.

Section stop.
Context `{TunnOps} `{KeyedHash} `{Protobuf} `{Crc32}.
Context (rs_encode : list bytes → result (list bytes)).

Notation run_event := (run_event rs_encode).
Notation run_events := (run_events rs_encode).

(** Nothing is held back from the log. *)
Definition flushed (s : St) : Prop :=
  pending_wal (sc_store (st_ctx s)) = [] ∧ ps_pending (sc_peers (st_ctx s)) = [].

Lemma shard_end_flushed e s : flushed (shard_end e s).2.
Proof.
  unfold shard_end, mbind, M_bind. destruct (for_ _ _ e s) as [[] s1].
  unfold flush_wals, modify, mbind, M_bind. cbn -[Peerstore_flush]. split.
  - by destruct (Peerstore_flush _ _) as [[]].
  - unfold Peerstore_flush. cbn. destruct (ps_wal _); cbn; [|done].
    by destruct (write_frames _ _) as [[? ?] ?].
Qed.

Definition poll_ok (ev : Event) : Prop := match ev with PollError _ => False | _ => True end.

(** A thread that left its loop left it by the test. *)
Definition exits_flushed (h : ShardHandle) : Prop := sh_phase h = Exited → flushed (sh_state h).

Lemma thread_flushed running h ev :
  poll_ok ev → exits_flushed h → exits_flushed (thread_event rs_encode running h ev).2.
Proof.
  intros Hp Hh. unfold thread_event.
  destruct ev as [j e|j batch e|j], (sh_phase h) eqn:E; try done; try (intros _; by apply Hh).
  - destruct running; [done|]. intros _. apply shard_end_flushed.
  - by destruct (shard_turn _ _ _ e _) as [[? ?] ?].
Qed.

(** How far a thread is once the flag is cleared. *)
Definition out_of_body (h : ShardHandle) : Prop := sh_phase h ≠ InBody.
Definition exited (h : ShardHandle) : Prop := sh_phase h = Exited.

Lemma exited_event running h ev : exited h → (thread_event rs_encode running h ev).2 = h.
Proof. unfold exited, thread_event. intros E. by destruct ev; rewrite E. Qed.

Lemma body_out h i e : out_of_body (thread_event rs_encode false h (Body i [] e)).2.
Proof.
  unfold thread_event, out_of_body. destruct (sh_phase h) eqn:E; [by cbn; rewrite E| |by cbn; rewrite E].
  by destruct (shard_turn _ _ _ e _) as [[? ?] ?].
Qed.

Lemma check_exited h i e :
  out_of_body h → exited (thread_event rs_encode false h (CheckRunning i e)).2.
Proof. unfold out_of_body, thread_event, exited. by destruct (sh_phase h) eqn:E; cbn; rewrite ?E. Qed.

Lemma check_out h i e :
  out_of_body h → out_of_body (thread_event rs_encode false h (CheckRunning i e)).2.
Proof. intros Hh. unfold out_of_body. by rewrite (check_exited h i e Hh). Qed.

Lemma stopped_event nd ev : nd_running nd = false → nd_running (run_event nd ev) = false.
Proof.
  intros Hr. unfold Node.run_event. destruct (nd_shards nd !! _) as [h|]; [|done]. rewrite Hr.
  unfold thread_event. destruct ev, (sh_phase h); try done.
  by destruct (shard_turn _ _ _ _ _) as [[? ?] ?].
Qed.

Lemma stopped_events evs nd : nd_running nd = false → nd_running (run_events nd evs) = false.
Proof. revert nd. induction evs as [|ev evs IH]; intros nd Hr; [done|]. by apply IH, stopped_event. Qed.

(** A property of every thread. *)
Definition all_threads (P : ShardHandle → Prop) (nd : Node) : Prop :=
  ∀ i h, nd_shards nd !! i = Some h → P h.

Lemma run_event_lookup nd ev i h :
  nd_shards (run_event nd ev) !! i = Some h →
  (i = event_shard ev ∧ ∃ h0, nd_shards nd !! i = Some h0 ∧ h = (thread_event rs_encode (nd_running nd) h0 ev).2) ∨
  nd_shards nd !! i = Some h.
Proof.
  unfold Node.run_event. destruct (nd_shards nd !! event_shard ev) as [h0|] eqn:E; [|by right].
  destruct (thread_event _ _ _ _) as [running h1] eqn:Et. cbn.
  intros [(<- & <- & _)|(_ & Hi)]%list_lookup_insert_Some; [left|by right].
  split; [done|]. exists h0. rewrite Et. split; [exact E|done].
Qed.

Lemma all_threads_event (P : ShardHandle → Prop) nd ev :
  (∀ h, P h → P (thread_event rs_encode (nd_running nd) h ev).2) →
  all_threads P nd → all_threads P (run_event nd ev).
Proof. intros Hev Hall i h [(_ & h0 & Hi & ->)|Hi]%run_event_lookup; [by eapply Hev, Hall|by eapply Hall]. Qed.

Lemma flushed_events evs nd :
  Forall poll_ok evs → all_threads exits_flushed nd → all_threads exits_flushed (run_events nd evs).
Proof.
  intros Hp. revert nd. induction Hp as [|ev evs Hev _ IH]; intros nd Hall; [done|].
  apply IH, all_threads_event; [|done]. intros h. by apply thread_flushed.
Qed.

(** One event for each thread, in a stopped node. *)
Lemma sweep (Pre P : ShardHandle → Prop) (ev : nat → Event) l nd :
  (∀ i, event_shard (ev i) = i) →
  (∀ i h, Pre h → Pre (thread_event rs_encode false h (ev i)).2) →
  (∀ i h, Pre h → P (thread_event rs_encode false h (ev i)).2) →
  (∀ i h, P h → P (thread_event rs_encode false h (ev i)).2) →
  nd_running nd = false → all_threads Pre nd →
  ∀ i h, i ∈ l → nd_shards (run_events nd (ev <$> l)) !! i = Some h → P h.
Proof.
  intros Hev Hpre Hto Hkeep. revert nd.
  assert (Hlast : ∀ l nd i h, nd_running nd = false →
    (∀ h, nd_shards nd !! i = Some h → P h) →
    nd_shards (run_events nd (ev <$> l)) !! i = Some h → P h).
  { clear l. intros l. induction l as [|j l IH]; intros nd i h Hr Hi; cbn; [apply Hi|].
    apply IH; [by apply stopped_event|]. clear h.
    intros h [(_ & h0 & Hh & ->)|Hh]%run_event_lookup; [rewrite Hr; by apply Hkeep, Hi|by apply Hi]. }
  induction l as [|j l IH]; intros nd Hr Hall i h Hin; [by apply not_elem_of_nil in Hin|].
  cbn. fold (run_events (run_event nd (ev j)) (ev <$> l)). apply elem_of_cons in Hin as [->|Hin].
  - apply Hlast; [by apply stopped_event|]. intros h' Hh'.
    unfold Node.run_event in Hh'. rewrite Hev in Hh'. destruct (nd_shards nd !! j) as [h0|] eqn:E; [|congruence].
    rewrite Hr in Hh'. specialize (Hto j h0 (Hall _ _ E)).
    destruct (thread_event _ _ _ _) as [running h1]. cbn in *.
    rewrite list_lookup_insert_eq in Hh' by (by eapply lookup_lt_Some). by injection Hh' as <-.
  - apply IH; [by apply stopped_event| |done]. apply all_threads_event; [|done]. rewrite Hr. apply Hpre.
Qed.

Lemma send_all_threads P cmd nd :
  (∀ local s q q' ph, P (mkShardHandle local s q ph) → P (mkShardHandle local s q' ph)) →
  all_threads P nd → all_threads P (send_all cmd nd).
Proof.
  intros HP Hall i h. cbn. rewrite list_lookup_fmap, fmap_Some. intros (h0 & Hi & ->).
  apply Hall in Hi. unfold try_send, send_cmd. case_bool_decide; [done|]. destruct h0. by eapply HP.
Qed.

(** The two sweeps at the end of [shutdown]. *)
Lemma leave_all nd last :
  nd_running nd = false →
  let n := length (nd_shards nd) in
  let evs := ((λ i, Body i [] (last i)) <$> seq 0 n) ++ ((λ i, CheckRunning i (last i)) <$> seq 0 n) in
  all_threads exited (run_events nd evs).
Proof.
  intros Hr n evs i h Hi. unfold evs in Hi. rewrite run_events_app in Hi.
  set (nd1 := run_events nd _) in Hi.
  assert (Hr1 : nd_running nd1 = false) by by apply stopped_events.
  assert (Hn : length (nd_shards nd1) = n) by apply run_events_owners.
  assert (Hout : all_threads out_of_body nd1).
  { intros j hj Hj. refine (sweep (λ _, True) out_of_body _ _ nd _ _ _ _ Hr _ j hj _ Hj); try done.
    - intros; apply body_out.
    - intros; apply body_out.
    - apply elem_of_seq. apply lookup_lt_Some in Hj. rewrite Hn in Hj. lia. }
  refine (sweep out_of_body exited _ _ nd1 _ _ _ _ Hr1 Hout i h _ Hi); [done|..].
  - intros; by apply check_out.
  - intros; by apply check_exited.
  - intros j h' Hh. by rewrite exited_event.
  - apply elem_of_seq. apply lookup_lt_Some in Hi.
    destruct (run_events_owners rs_encode ((λ i, CheckRunning i (last i)) <$> seq 0 n) nd1) as [_ Hl].
    rewrite Hl, Hn in Hi. lia.
Qed.

(** The flag is cleared and every thread has left its loop. *)
Lemma shutdown_exits nd evs last :
  let nd' := shutdown rs_encode nd evs last in nd_running nd' = false ∧ all_threads exited nd'.
Proof.
  assert (Hr : nd_running (run_events (send_all CmdShutdown (set_running false nd)) evs) = false)
    by by apply stopped_events.
  split; [by apply stopped_events|by apply leave_all].
Qed.

(** C26: [shutdown] stops the node.  Whatever happens until the threads are joined, every
    thread has left its loop, the flag is cleared, and any later call fails with
    ["shard gone"], whatever else happens.  Unless the poller of a shard fails, every record
    and peer row that a shard had queued has been handed to its log. *)
Theorem shutdown_stops (nd : Node) (evs : list Event) (last : nat → Env) :
  let nd' := shutdown rs_encode nd evs last in
  nd_running nd' = false ∧ all_threads exited nd' ∧
  (∀ i make evs', (call rs_encode nd' i make evs').2 = Err "shard gone"%string) ∧
  (Forall poll_ok evs → all_threads exits_flushed nd → all_threads (λ h, flushed (sh_state h)) nd').
Proof.
  intros nd'. destruct (shutdown_exits nd evs last) as [Hr Hex]. fold nd' in Hr, Hex.
  split_and!; [done|done| |].
  - intros i make evs'. unfold call. cbn [nd_shards].
    destruct (nd_shards nd' !! i) as [h|] eqn:E; [|done]. cbn [mbind option_bind].
    unfold send_cmd. by rewrite bool_decide_eq_true_2 by (by eapply Hex).
  - intros Hp Hall i h Hi.
    assert (all_threads exits_flushed nd') as Hfl; [|by eapply Hfl, Hex].
    apply flushed_events.
    + apply Forall_app. split; by apply Forall_fmap, Forall_forall.
    + apply flushed_events; [done|]. apply send_all_threads; [|done]. by intros ? ? ? ? ? Hh.
Qed.
End stop.

#[local] Existing Instance toy_crypto.
#[local] Existing Instance toy_tunn.
#[local] Existing Instance toy_keyed.
#[local] Existing Instance crc_ieee_inst.
#[local] Existing Instance wire_protobuf.

Definition sample_env_of (i : nat) : Env := sample_env 0.

Lemma threads_check `{Crypto} (nd : Node) :
  forallb (λ h, negb (bool_decide (sh_phase h = Exited))) (nd_shards nd) = true →
  all_threads exits_flushed nd.
Proof.
  intros Hall i h Hi He. rewrite forallb_forall in Hall. specialize (Hall h).
  rewrite bool_decide_eq_true_2 in Hall by done. discriminate Hall.
  apply list_elem_of_In. by eapply list_elem_of_lookup_2.
Qed.

Lemma shutdown_stops_witness :
  let nd := (put no_erasure sample_nd (bstr "v") (sample_turn 0 ++ sample_turn 1)).1 in
  let nd' := shutdown no_erasure nd (sample_noise 1) sample_env_of in
  all_threads exits_flushed nd ∧ all_threads (λ h, flushed (sh_state h)) nd'.
Proof.
  intros nd nd'.
  assert (Hnd : all_threads exits_flushed nd).
  { apply threads_check. vm_compute. reflexivity. }
  split; [exact Hnd|].
  destruct (shutdown_stops no_erasure nd (sample_noise 1) sample_env_of) as (_ & _ & _ & Hf).
  apply Hf; [|exact Hnd]. constructor; [exact I|constructor; [exact I|constructor]].
Defined.
