(* ===== verification/Restart.v ===== *)
(** * A value across a restart

    A value put at a node reaches the log of the shard that owns it, whenever the logs are
    flushed before the thread ends; the node started on the same directories reads it back.
    The files of a shard are its store's queue, its peer store's batch and its directory. *)

From S2P Require Import Prelude Bytes Types Proto Codec Routing Crypto Net Peerstore Store Pool Lookup Wg Relay EventLoop Metrics Sybil Erasure ShardState Shard ShardInv ShardThms ShardReplies ShardStore ShardFiles Node NodeThms NodeQuiet NodeStop.

(** ** The log on its way to the disk *)

Section files.
Context `{Crypto} `{!Message proto.Record_} `{Crc32}.

(** What is still to be written. *)
Definition unwritten (s : Store) (ps : Peerstore) : list WalRecord :=
  ps_pending ps ++ (mkWalRecord TYPE_RECORD <$> pending_wal s).

(** The log is open and whole, and the device takes what is to be written and [n] bytes
    more. *)
Record writable (n : nat) (x : Files) : Prop := {
  wb_dir : st_dir x.1.1 = true;
  wb_open : ps_wal x.1.2 = true;
  wb_log : ∃ ws, wal_log x.2 = Some (wal_bytes ws) ∧ Forall fits ws;
  wb_fits : Forall fits (unwritten x.1.1 x.1.2);
  wb_room : length (wal_bytes (unwritten x.1.1 x.1.2)) + n ≤ room x.2;
}.

(** The log, with what is to be written, gives [rec] under [k]. *)
Definition logs (k : Key) (rec : StoredRecord) (x : Files) : Prop :=
  ∀ now, foldl (replay_record now) ∅ (log_frames x.1.1 x.1.2 x.2) !! k = Some (restamp now rec).

Lemma log_frames_unwritten s ps d :
  log_frames s ps d = frames (default [] (wal_log d)) ++ (frame_of <$> unwritten s ps).
Proof. unfold log_frames, unwritten. by rewrite fmap_app, <-list_fmap_compose. Qed.

(** A flush of a writable log writes everything, and the frames stay the same. *)
Lemma flush_files_written n x :
  writable n x →
  let y := flush_files x in
  writable n y ∧ unwritten y.1.1 y.1.2 = [] ∧
  log_frames y.1.1 y.1.2 y.2 = log_frames x.1.1 x.1.2 x.2.
Proof.
  destruct x as [[s ps] d]. intros [Hd Ho (ws & Hws & Hf) Hfit Hroom]. cbn [fst snd] in *.
  destruct (flush_wal_pending s ps) as [Hp Hwal]. fold (unwritten s ps) in Hp.
  set (s' := (flush_wal s ps).1). set (ps' := (flush_wal s ps).2) in *.
  assert (Hflush : flush_files (s, ps, d) =
    (s', mkPeerstore (ps_dir ps') (ps_peers ps') [] true,
     mkDir (snapshot_bin d) (Some (wal_bytes ws ++ wal_bytes (unwritten s ps))) (compaction_tmp d)
       (room d - length (wal_bytes (unwritten s ps))))).
  { unfold flush_files. rewrite (surjective_pairing (flush_wal s ps)). fold s' ps'.
    unfold Peerstore_flush. rewrite Hwal, Ho, Hws, write_frames_all, Hp. cbn [negb from_option id].
    unfold write_all. by rewrite (proj2 (Nat.leb_le _ _)) by lia. }
  cbn zeta. rewrite Hflush. cbn [fst snd].
  assert (Hall : Forall fits (ws ++ unwritten s ps)) by by apply Forall_app.
  assert (Hun : unwritten s' (mkPeerstore (ps_dir ps') (ps_peers ps') [] true) = []) by done.
  split_and!; [|done|].
  - split; cbn [fst snd]; [done|done| |rewrite Hun; constructor|rewrite Hun; cbn; lia].
    exists (ws ++ unwritten s ps). by rewrite wal_bytes_app.
  - rewrite !log_frames_unwritten, Hun. cbn [wal_log from_option id fmap list_fmap].
    rewrite Hws. cbn [from_option id]. by rewrite <-wal_bytes_app, !frames_wal', fmap_app, app_nil_r.
Qed.

(** What is stored of a put: the frame does not depend on the time. *)
Definition put_payload (v : bytes) (ttl : Z) : bytes := StoredRecord_encode (immutable_record 0 v ttl).

Definition put_frame (v : bytes) (ttl : Z) : WalRecord := mkWalRecord TYPE_RECORD (put_payload v ttl).

(** A put adds its frame. *)
Lemma put_writable x now v ttl :
  fits (put_frame v ttl) → in_u 64 ttl → ttl ≠ 0%Z → writable (length (frame_bytes (put_frame v ttl))) x →
  let rec := immutable_record now v ttl in
  let y := (insert_record (queue_record x.1.1 rec) rec, x.1.2, x.2) in
  writable 0 y ∧ logs (hash_value v) rec y.
Proof.
  intros Hfit Hu Ht [Hd Ho (ws & Hws & Hf) Hfits Hroom] rec y.
  destruct x as [[s ps] d]. cbn [fst snd] in *.
  assert (Hun : unwritten y.1.1 y.1.2 = unwritten s ps ++ [put_frame v ttl]).
  { unfold unwritten, y, queue_record, insert_record. cbn [fst snd]. rewrite Hd. cbn [pending_wal with_records].
    by rewrite fmap_app, (assoc_L (++)). }
  split.
  - split; rewrite ?Hun; [by unfold y, queue_record; cbn; rewrite Hd|done|by exists ws| |].
    + apply Forall_app. by split; [|constructor].
    + rewrite wal_bytes_app, length_app. unfold wal_bytes at 2. cbn [fmap list_fmap].
      change (mjoin [?a]) with (a ++ []). rewrite app_nil_r. cbn [snd y]. lia.
  - intros now'. rewrite log_frames_unwritten, Hun. rewrite fmap_app, (assoc_L (++)), foldl_app.
    cbn [fmap list_fmap foldl]. unfold frame_of at 2. cbn [wr_ty wr_payload put_frame].
    change (put_payload v ttl) with (StoredRecord_encode rec).
    rewrite (replay_own_record now' _ rec); [apply lookup_insert_eq| |apply authentic_immutable].
    split; [|done]. repeat split; cbn; try done; apply Hu.
Qed.

(** A log that is written out gives the record to whoever opens the directory. *)
Lemma logs_reopened k rec x now :
  writable 0 x → unwritten x.1.1 x.1.2 = [] → logs k rec x →
  records (Store_open x.2 now) !! k = Some (restamp now rec).
Proof.
  intros [_ _ (ws & Hws & Hf) _ _] Hun Hl. specialize (Hl now).
  rewrite log_frames_unwritten, Hun, Hws, app_nil_r in Hl. unfold Store_open. by rewrite Hws.
Qed.

Lemma Store_open_opened d now :
  Store_open (mkDir (snapshot_bin d) (Some (default [] (wal_log d))) (compaction_tmp d) (room d)) now =
  Store_open d now.
Proof. unfold Store_open. by destruct (wal_log d). Qed.
End files.

(** ** The files of a shard *)

Section shard.
Context `{TunnOps} `{KeyedHash} `{Protobuf} `{Crc32}.
Context (rs_encode : list bytes → result (list bytes)).

(** ** A value in the files *)

(** The files of the shard hold, or are about to hold, a record of value [v] under [k]. *)
Definition durable (k : Key) (v : bytes) (ttl : Z) (x : Store * Peerstore * Dir) : Prop :=
  writable 0 x ∧ ∃ now, logs k (immutable_record now v ttl) x.

Lemma durable_flush k v ttl x : durable k v ttl x → durable k v ttl (flush_files x) ∧
  unwritten (flush_files x).1.1 (flush_files x).1.2 = [].
Proof.
  intros [Hw (now & Hl)]. destruct (flush_files_written 0 x Hw) as (Hw' & Hun & Hf).
  split; [|done]. split; [done|]. exists now. intros now'. rewrite Hf. apply Hl.
Qed.

Lemma durable_gc k v ttl now x : durable k v ttl x → durable k v ttl (gc_files now x).
Proof. intros [[] Hl]. by split. Qed.

Definition durable_in (k : Key) (v : bytes) (ttl : Z) (s : St) : Prop := durable k v ttl (files (st_ctx s)).

Lemma flush_wals_durable k v ttl e s : durable_in k v ttl s → durable_in k v ttl (flush_wals e s).2.
Proof. unfold durable_in. rewrite flush_wals_files. intros Hd. by apply durable_flush. Qed.

Lemma turn_timers_durable k v ttl e s : durable_in k v ttl s → durable_in k v ttl (turn_timers e s).2.
Proof.
  apply (turn_timers_preserves files (λ _, True) (durable k v ttl)); [| |done].
  - intros e' s' _. apply flush_wals_durable.
  - intros e' s' _. apply (durable_gc k v ttl (env_unix e' (st_tick s'))).
Qed.

Lemma durable_stable k v ttl lo hi : stable lo hi (durable_in k v ttl).
Proof. intros e s _ _. apply turn_timers_durable. Qed.

Lemma shard_end_durable k v ttl e s : durable_in k v ttl s → durable_in k v ttl (shard_end e s).2.
Proof.
  intros Hd. unfold shard_end, mbind, M_bind.
  pose proof (keeps_for files (seq 0 32) (λ _, pool_recycle (zeroed BUFFER_SIZE))
                (λ _, pool_recycle_keeps files _) e s) as Hk.
  destruct (for_ _ _ e s) as [[] s1]. cbn [snd] in Hk. apply flush_wals_durable. unfold durable_in. by rewrite Hk.
Qed.

(** ** Putting *)

Lemma put_durable lo hi v ttl tx s :
  (Z.of_nat (length v) ≤ 64 * Z.of_nat PMTU_FLOOR)%Z → fits (put_frame v ttl) → in_u 64 ttl → ttl ≠ 0%Z →
  queues_sendable s → received tx s = None →
  writable (length (frame_bytes (put_frame v ttl))) (files (st_ctx s)) →
  leads rs_encode lo hi (CmdPut v ttl tx) s (λ s', ∃ r, received tx s' = Some r ∧
    r = RKey (hash_value v) ∧ durable_in (hash_value v) v ttl s').
Proof.
  intros Hlen Hfit Hu Ht Hq Hn Hw. apply leads_handle; [done|intros r; apply const_stable, durable_stable|].
  intros e Hc. rewrite put_eq by done. set (now := env_unix e (st_tick s)).
  set (s1 := stored_at (immutable_record now v ttl) e s).
  destruct (answer_last (incr MStoreOk;; replicate_store v (hash_value v) ttl) tx
              (RKey (hash_value v)) e s1) as [Hr _].
  - apply runs_seq; [exact _|apply incr_ok, low_Steps|intros _; apply (replicate_store_ok low_step)].
  - apply (keeps_seq sc_store); [apply (incr_keeps sc_store)|intros _; apply (replicate_store_keeps sc_store)].
  - exact Hq.
  - exists (RKey (hash_value v)). split_and!; [exact (received_last _ _ _ _ Hn Hr)|done|].
    assert (Hk : keeps files ((incr MStoreOk;; replicate_store v (hash_value v) ttl);; answer tx (RKey (hash_value v)))).
    { apply keeps_seq; [apply keeps_seq; [apply (incr_keeps files)|intros _; apply (replicate_store_keeps files)]|].
      intros _. apply (keeps_answer files). }
    unfold durable_in. rewrite (Hk e s1).
    destruct (put_writable (files (st_ctx s)) now v ttl Hfit Hu Ht Hw) as [Hw' Hl].
    split; [exact Hw'|]. by exists now.
Qed.
(** ** Stopping *)

Notation thread_event := (thread_event rs_encode).
Notation run_event := (run_event rs_encode).
Notation run_events := (run_events rs_encode).

(** Thread [i] hears nothing from the network, and its poller works. *)
Definition left_alone (i : nat) (ev : Event) : Prop :=
  match ev with
  | CheckRunning _ _ => True
  | Body j batch _ => j = i → batch = []
  | PollError j => j ≠ i
  end.

(** The value is in the thread's files, written out once it has left its loop, and the
    thread has nothing to do but stop. *)
Record stopping (k : Key) (v : bytes) (ttl : Z) (h : ShardHandle) : Prop := {
  stp_durable : durable_in k v ttl (sh_state h);
  stp_queue : ∀ cmd, cmd ∈ sh_queue h → cmd = CmdShutdown;
  stp_flushed : exits_flushed h;
}.

Lemma run_shutdowns cmds e s :
  (∀ cmd, cmd ∈ cmds → cmd = CmdShutdown) → (run_cmds rs_encode cmds e s).2 = s.
Proof. intros Hc. destruct cmds as [|cmd cmds]; [done|]. by rewrite (Hc cmd) by by left. Qed.

Lemma own_stopping k v ttl running h ev i :
  left_alone i ev → event_shard ev = i → stopping k v ttl h → stopping k v ttl (thread_event running h ev).2.
Proof.
  intros Ha He Hs. pose proof Hs as [Hd Hq Hf].
  assert (Hf' : exits_flushed (thread_event running h ev).2).
  { apply thread_flushed; [|done]. destruct ev; [done..|by apply Ha in He]. }
  revert Hf'. unfold Node.thread_event.
  destruct ev as [j e|j batch e|j], (sh_phase h) eqn:E; cbn in Ha; try done.
  - destruct running; intros Hf'; split; try done; [by apply shard_end_durable|by intros ? ?%not_elem_of_nil].
  - rewrite (Ha He), quiet_turn_eq. pose proof (run_shutdowns (take DRAIN_BATCH (sh_queue h)) e (sh_state h)) as Hrun.
    destruct (run_cmds _ _ e _) as [go s1]. cbn [snd] in Hrun. intros Hf'. split; [|  |done].
    + apply turn_timers_durable. cbn. rewrite Hrun; [done|].
      intros cmd (n & Hn)%list_elem_of_lookup. apply lookup_take_Some in Hn as [Hn _].
      apply Hq. by eapply list_elem_of_lookup_2.
    + cbn [sh_queue snd]. intros cmd Hin. apply Hq. rewrite <-(take_drop DRAIN_BATCH (sh_queue h)).
      apply elem_of_app. by right.
Qed.

Definition thread (i : nat) (P : ShardHandle → Prop) (nd : Node) : Prop :=
  ∃ h, nd_shards nd !! i = Some h ∧ P h.

Lemma stopping_events k v ttl i evs nd :
  Forall (left_alone i) evs → thread i (stopping k v ttl) nd → thread i (stopping k v ttl) (run_events nd evs).
Proof.
  intros Ha. revert nd. induction Ha as [|ev evs Hev _ IH]; intros nd Hs; [done|]. apply IH.
  destruct Hs as (h & Hi & Hs). destruct (decide (event_shard ev = i)) as [He|He].
  - eexists. split; [|by apply (own_stopping k v ttl (nd_running nd) h ev i)].
    unfold Node.run_event. rewrite He, Hi. destruct (thread_event _ _ _). cbn.
    apply list_lookup_insert_eq. by eapply lookup_lt_Some.
  - exists h. by split; [apply other_event|].
Qed.

(** What [shutdown] leaves on the disk of a thread that held the value. *)
Lemma shutdown_durable k v ttl i nd evs last :
  idle i (durable_in k v ttl) nd → Forall (left_alone i) evs →
  thread i (λ h, durable_in k v ttl (sh_state h) ∧ flushed (sh_state h)) (shutdown rs_encode nd evs last).
Proof.
  intros (h & Hi & Hph & Hqu & Hd) Ha.
  destruct (shutdown_exits rs_encode nd evs last) as [_ Hex].
  assert (thread i (stopping k v ttl) (shutdown rs_encode nd evs last)) as (h' & Hi' & [Hd' _ Hf']).
  { unfold shutdown. apply stopping_events; [|apply stopping_events; [done|]].
    - apply Forall_app. by split; apply Forall_fmap, Forall_forall.
    - exists (try_send CmdShutdown h). cbn. rewrite list_lookup_fmap, Hi. split; [done|].
      unfold try_send, send_cmd. rewrite bool_decide_eq_false_2 by done. cbn. rewrite Hqu.
      split; cbn; [done|by intros cmd ->%list_elem_of_singleton|done]. }
  exists h'. split; [done|]. split; [done|]. apply Hf'. by eapply Hex.
Qed.
(** ** Starting *)

Lemma spawn_shards_queue id identity cfg sps hs :
  spawn_shards id identity cfg sps = Ok hs → Forall (λ h, sh_queue h = []) hs.
Proof.
  revert id hs. induction sps as [|sp sps IH]; intros id hs; cbn [spawn_shards]; [by intros [= <-]|].
  destruct (spawn_shard _ _ _ _) as [h|] eqn:Eh; [|done].
  destruct (spawn_shards _ _ _ _) as [hs'|] eqn:Es; [|done]. intros [= <-].
  constructor; [|by eapply IH]. unfold spawn_shard in Eh. destruct (sp_local sp); [|done].
  apply (inj Ok) in Eh as <-. by destruct (sp_poller sp).
Qed.

Lemma Node_start_live identity cfg sps nd : Node_start identity cfg sps = Ok nd → live nd.
Proof.
  intros Hn. split; [by eapply Node_start_ok|]. unfold Node_start in Hn.
  destruct (spawn_shards _ _ _ _) as [hs|] eqn:E; [|done]. apply (inj Ok) in Hn as <-.
  apply spawn_shards_queue in E. rewrite Forall_forall in E.
  case_bool_decide; (split; [done|]); intros i h; cbn.
  - intros Hi%list_elem_of_lookup_2%E. rewrite Hi. apply not_elem_of_nil.
  - rewrite list_lookup_fmap, fmap_Some. intros (h0 & Hi%list_elem_of_lookup_2%E & ->).
    unfold try_send, send_cmd. case_bool_decide; cbn; rewrite Hi; cbn.
    + apply not_elem_of_nil.
    + by rewrite list_elem_of_singleton.
Qed.

Lemma Node_start_identity identity cfg sps nd : Node_start identity cfg sps = Ok nd → nd_identity nd = identity.
Proof.
  unfold Node_start. destruct (spawn_shards _ _ _ _); [|done]. intros <-%(inj Ok). by case_bool_decide.
Qed.

Lemma spawn_shards_lookup id identity cfg sps hs i sp :
  spawn_shards id identity cfg sps = Ok hs → sps !! i = Some sp →
  ∃ h, hs !! i = Some h ∧ spawn_shard (id + Z.of_nat i) identity cfg sp = Ok h.
Proof.
  revert id hs i. induction sps as [|sp0 sps IH]; intros id hs i; [done|]. cbn [spawn_shards].
  destruct (spawn_shard id identity cfg sp0) as [h|] eqn:Eh; [|done].
  destruct (spawn_shards (id + 1) identity cfg sps) as [hs'|] eqn:Es; [|done]. intros [= <-].
  destruct i as [|i]; [intros [= <-]|intros Hi].
  - exists h. by rewrite Z.add_0_r.
  - destruct (IH _ _ _ Es Hi) as (h' & Hh & Hsp). exists h'.
    by replace (id + Z.of_nat (S i))%Z with (id + 1 + Z.of_nat i)%Z by lia.
Qed.

Lemma shard_start_files e s : files (st_ctx (shard_start e s).2) = files (st_ctx s).
Proof.
  enough (keeps files shard_start) as Hk by apply Hk. unfold shard_start.
  apply (keeps_seq files); [apply (now_instant_keeps files)|intros now].
  do 4 (apply (keeps_seq files); [apply (schedule_timer_keeps files)|intros _]).
  apply (keeps_for files). intros _. apply (keeps_seq files); [apply (pool_take_keeps files)|].
  intros b. apply (keeps_ret files).
Qed.

(** A shard opened on a directory that holds the value keeps it for its time to live,
    counted from the opening. *)
Lemma start_keeping identity cfg sps nd i k v now ttl d :
  Node_start identity cfg sps = Ok nd → i < length (nd_shards nd) →
  peerstore_dir cfg = true → bootstrap cfg = [] → sp_dir (sps i) = d → sp_opens (sps i) = (true, true) →
  sp_poller (sps i) = true → (0 ≤ ttl)%Z →
  records (Store_open d (sp_unix (sps i))) !! k = Some (restamp (sp_unix (sps i)) (immutable_record now v ttl)) →
  idle i (keeping k (put_of v) (sp_unix (sps i) + ttl)) nd.
Proof.
  intros Hn Hi Hcfg Hboot Hd Hopens Hpoll Httl Hrec. unfold Node_start in Hn.
  destruct (spawn_shards _ _ _ _) as [hs|] eqn:E; [|done].
  rewrite Hboot, bool_decide_eq_true_2 in Hn by done. apply (inj Ok) in Hn as <-. cbn in Hi.
  assert (Hsp : (sps <$> seq 0 (Z.to_nat (shard_count cfg `max` 1))) !! i = Some (sps i)).
  { pose proof (spawn_shards_ok 0 _ _ _ _ E) as [Hlen _]. rewrite length_fmap, length_seq in Hlen.
    rewrite list_lookup_fmap, lookup_seq_lt by lia. done. }
  pose proof (spawn_shards_queue _ _ _ _ _ E) as Hqu. rewrite Forall_forall in Hqu.
  destruct (spawn_shards_lookup _ _ _ _ _ _ _ E Hsp) as (h & Hh & Hspawn). exists h. cbn.
  specialize (Hqu h (list_elem_of_lookup_2 _ _ _ Hh)).
  unfold spawn_shard in Hspawn. destruct (sp_local (sps i)) as [local|]; [|done].
  rewrite Hpoll in Hspawn. apply (inj Ok) in Hspawn as <-. cbn [sh_queue sh_phase sh_state] in *.
  split_and!; [done..|]. set (t := sp_unix (sps i)) in *.
  exists (restamp t (immutable_record now v ttl)). split_and!; [done..|].
  pose proof (shard_start_files (sp_env (sps i)) (St_new (0 + Z.of_nat i) identity cfg local
    (sp_dir (sps i)) (sp_opens (sps i)) t)) as Hfs.
  apply (f_equal (fst ∘ fst)) in Hfs. cbn [compose files fst] in Hfs. unfold holds. rewrite Hfs.
  unfold St_new, ShardCtx_new. cbn [st_ctx]. rewrite Hcfg, Hopens, Hd. cbn -[Store_open expired].
  split; [by rewrite Store_open_opened|]. unfold expired, sat_sub. cbn. apply Z.ltb_ge. lia.
Qed.

Lemma get_after_start identity cfg sps nd i k v ttl lo hi evs evs' :
  Node_start identity cfg sps = Ok nd → owner nd k = i → (hi ≤ sp_unix (sps i) + ttl)%Z →
  idle i (keeping k (put_of v) (sp_unix (sps i) + ttl)) nd →
  Forall (quiet i lo hi) (evs ++ evs') → turns i evs' →
  (get rs_encode (run_events nd evs) k evs').2 = Ok (Some v).
Proof.
  intros Hstart Ho Hhi (h & Hi & Hph & Hqu & rec0 & Hg0 & Hkind & Hh & He) [Hq Hq']%Forall_app Ht.
  assert (idle i (keeping k (put_of v) hi) nd) as Hkeep.
  { exists h. split_and!; [done..|]. exists rec0. split_and!; [done..|]. split; [done|].
    destruct (expired rec0 hi) eqn:E; [|done]. apply (expired_mono rec0 hi _ Hhi) in E. congruence. }
  destruct (get_kept rs_encode nd i k (put_of v) lo hi evs evs') as (rec & Hg & Hget);
    [by eapply Node_start_live|done..|].
  unfold get, and_then. rewrite (same_owners_owner nd) by apply run_events_owners.
  rewrite Ho, Hget. cbn. by rewrite Hg.
Qed.

(** ** The theorem *)

(** C5: a value survives a restart.  The shard that owns the hash of a value is idle, its log
    is whole and has room for the value's frame, and it hears nothing from the network and
    gets no other command until the end; the other shards, the timers and the interleaving
    do whatever they do.  A put of at most 76800 bytes with a time to live other than 0, at
    [lo] or later, returns the hash; then the node is shut down and started again, not before
    [lo], with the same number of shards, no bootstrap peers, and the owning shard, whose
    files and poller open, on the directory its thread left behind.  A get returns the value as long as its
    time to live has not passed since [lo]. *)
Theorem put_survives_restart (nd : Node) (v : bytes) (ttl lo hi lo' hi' : Z)
    (evs1 evs2 evs3 evs4 : list Event) (last : nat → Env) (cfg : NodeConfig) (sps : nat → Spawn)
    (nd3 : Node) :
  let k := hash_value v in
  let i := owner nd k in
  node_reach rs_encode nd → up nd →
  idle i (λ s, writable (length (frame_bytes (put_frame v ttl))) (files (st_ctx s))) nd →
  (Z.of_nat (length v) ≤ 64 * Z.of_nat PMTU_FLOOR)%Z → fits (put_frame v ttl) → in_u 64 ttl → ttl ≠ 0%Z →
  Forall (quiet i lo hi) evs1 → turns i evs1 → Forall (left_alone i) evs2 →
  let '(nd1, r) := put_ttl rs_encode nd v ttl evs1 in
  let nd2 := shutdown rs_encode nd1 evs2 last in
  Node_start (nd_identity nd) cfg sps = Ok nd3 → length (nd_shards nd3) = length (nd_shards nd) →
  peerstore_dir cfg = true → bootstrap cfg = [] → sp_opens (sps i) = (true, true) → sp_poller (sps i) = true →
  ((λ h, sc_disk (st_ctx (sh_state h))) <$> nd_shards nd2 !! i) = Some (sp_dir (sps i)) →
  Forall (quiet i lo' hi') (evs3 ++ evs4) → turns i evs4 → (lo ≤ sp_unix (sps i))%Z → (hi' ≤ lo + ttl)%Z →
  r = Ok k ∧ (get rs_encode (run_events nd3 evs3) k evs4).2 = Ok (Some v).
Proof.
  intros k i Hok%node_reach_ok Hup Hidle Hlen Hfit Hu Ht Hq1 Ht1 Ha2.
  destruct (call_quiet rs_encode nd i (CmdPut v ttl) evs1 lo hi
              (λ s, writable (length (frame_bytes (put_frame v ttl))) (files (st_ctx s)))
              (λ r s, r = RKey k ∧ durable_in k v ttl s))
    as (r & Hr & Hl1 & Hidle1); [done..| | |].
  { intros s Hqs Hw Hn. by apply put_durable. }
  { intros r. apply const_stable, durable_stable. }
  unfold put_ttl, and_then. fold k i. rewrite Hr.
  assert (r = RKey k) as -> by (by destruct Hidle1 as (? & _ & _ & _ & ? & _)).
  assert (idle i (durable_in k v ttl) (call rs_encode nd i (CmdPut v ttl) evs1).1) as Hd1.
  { destruct Hidle1 as (h & ? & ? & ? & _ & ?). by exists h. }
  destruct (shutdown_durable k v ttl i _ evs2 last Hd1 Ha2) as (h2 & Hi2 & [Hw (now & Hlog)] & Hf1 & Hf2).
  cbn [expect_key]. intros Hstart Hn3 Hcfg Hboot Hopens Hpoll Hdisk Hq34 Ht4 Hlo Hhi. split; [done|].
  rewrite Hi2 in Hdisk. cbn [fmap option_fmap option_map] in Hdisk. apply (inj Some) in Hdisk.
  assert (Hin : i < length (nd_shards nd)).
  { destruct Hidle as (h & Hi & _). by eapply lookup_lt_Some. }
  assert (Hun : unwritten (sc_store (st_ctx (sh_state h2))) (sc_peers (st_ctx (sh_state h2))) = []).
  { unfold unwritten. by rewrite Hf1, Hf2. }
  pose proof (logs_reopened k _ _ (sp_unix (sps i)) Hw Hun Hlog) as Hrec.
  pose proof (start_keeping _ _ _ _ i _ _ _ _ _ Hstart ltac:(lia) Hcfg Hboot (eq_sym Hdisk) Hopens Hpoll
                (proj1 Hu) Hrec) as Hkeep.
  apply (get_after_start (nd_identity nd) cfg sps nd3 i k v ttl lo' hi'); [done| |lia|done..]. unfold i, owner, node_node_id.
  by rewrite (Node_start_identity _ _ _ _ Hstart), Hn3.
Qed.
End shard.

(** ** Evaluation *)

#[local] Existing Instance toy_crypto.
#[local] Existing Instance toy_tunn.
#[local] Existing Instance toy_keyed.
#[local] Existing Instance crc_ieee_inst.
#[local] Existing Instance wire_protobuf.

Definition fresh_log (n : nat) (x : Store * Peerstore * Dir) : bool :=
  st_dir x.1.1 && ps_wal x.1.2 && bool_decide (wal_log x.2 = Some []) &&
  (length (ps_pending x.1.2) =? 0) && (length (pending_wal x.1.1) =? 0) && (n <=? room x.2).

Lemma fresh_writable `{Crypto} `{!Message proto.Record_} `{Crc32} n x : fresh_log n x = true → writable n x.
Proof.
  unfold fresh_log.
  destruct x as [[s ps] d]. cbn [fst snd]. intros Hc. bool_to_prop.
  assert (Hun : unwritten s ps = []).
  { unfold unwritten. by destruct (ps_pending ps), (pending_wal s). }
  split; cbn [fst snd]; rewrite ?Hun; [done..|by exists []|constructor|cbn; lia].
Qed.

Lemma idle_fresh `{TunnOps} `{!Message proto.Record_} `{Crc32} (nd : Node) i n :
  match nd_shards nd !! i with
  | Some h => negb (bool_decide (sh_phase h = Exited)) && (length (sh_queue h) =? 0) &&
              fresh_log n (files (st_ctx (sh_state h)))
  | None => false
  end = true → idle i (λ s, writable n (files (st_ctx s))) nd.
Proof.
  destruct (nd_shards nd !! i) as [h|] eqn:E; [|done]. intros [[Hp Hq]%andb_true_iff Hf]%andb_true_iff.
  apply negb_true_iff, bool_decide_eq_false_1 in Hp. exists h. split_and!; [done..| |by apply fresh_writable].
  by destruct (sh_queue h).
Qed.

Definition disk_config : NodeConfig := mkNodeConfig (toy_addr 0) 2 [] true false false true.

Definition started (sps : nat → Spawn) : Node :=
  match Node_start sample_identity disk_config sps with
  | Ok nd => nd
  | Err _ => mkNode sample_identity disk_config [] true 0
  end.

Lemma started_eq sps :
  is_ok (Node_start sample_identity disk_config sps) = true →
  Node_start sample_identity disk_config sps = Ok (started sps).
Proof. unfold started. by destruct (Node_start _ _ _). Qed.

Definition first_spawn (i : nat) : Spawn :=
  mkSpawn (Some (toy_addr (Z.of_nat i))) true (empty_dir 300) (true, true) 1000 (sample_env 0).

Definition disk_of (nd : Node) (i : nat) : Dir :=
  match nd_shards nd !! i with Some h => sc_disk (st_ctx (sh_state h)) | None => empty_dir 0 end.

Definition second_spawn (nd : Node) (i : nat) : Spawn :=
  mkSpawn (Some (toy_addr (Z.of_nat i))) true (disk_of nd i) (true, true) 1000 (sample_env 0).

Lemma put_survives_restart_witness :
  let nd := started first_spawn in
  let v := bstr "v" in
  let k := hash_value v in
  let i := owner nd k in
  let turn := sample_turn i in
  let '(nd1, r) := put_ttl no_erasure nd v 60 turn in
  let nd2 := shutdown no_erasure nd1 (sample_noise (1 - i)) sample_env_of in
  let nd3 := started (second_spawn nd2) in
  r = Ok k ∧ (get no_erasure (run_events no_erasure nd3 []) k turn).2 = Ok (Some v).
Proof.
  intros nd v k i turn.
  set (nd1 := (put_ttl no_erasure nd v 60 turn).1).
  set (nd2 := shutdown no_erasure nd1 (sample_noise (1 - i)) sample_env_of).
  pose proof (put_survives_restart no_erasure nd v 60 1000 1000 1000 1000 turn (sample_noise (1 - i)) [] turn
    sample_env_of disk_config (second_spawn nd2) (started (second_spawn nd2))) as Hthm.
  cbn zeta in Hthm. fold k i in Hthm. subst nd1 nd2.
  destruct (put_ttl no_erasure nd v 60 turn) as [nd1 r] eqn:E. cbn [fst] in Hthm.
  assert (Hnd1 : nd1 = (put_ttl no_erasure nd v 60 turn).1) by (rewrite E; reflexivity).
  apply Hthm; clear Hthm.
  - apply (nr_start no_erasure sample_identity disk_config first_spawn), started_eq. vm_compute. reflexivity.
  - apply up_check. vm_compute. reflexivity.
  - apply idle_fresh. vm_compute. reflexivity.
  - vm_compute. discriminate.
  - vm_compute. reflexivity.
  - split; [vm_compute; discriminate|vm_compute; reflexivity].
  - discriminate.
  - apply sample_turn_quiet.
  - by exists [], (sample_env 0), [], [], (sample_env 0), [].
  - constructor; [exact I|constructor; [|constructor]]. intros Ei. vm_compute in Ei. discriminate Ei.
  - apply started_eq. rewrite Hnd1. vm_compute. reflexivity.
  - rewrite Hnd1. vm_compute. reflexivity.
  - reflexivity.
  - reflexivity.
  - reflexivity.
  - reflexivity.
  - rewrite Hnd1. vm_compute. reflexivity.
  - apply sample_turn_quiet.
  - by exists [], (sample_env 0), [], [], (sample_env 0), [].
  - vm_compute. discriminate.
  - vm_compute. discriminate.
Defined.
