(* ===== verification/Durable.v ===== *)
(** * What a shard holds is what it has logged

    Whatever the network, the callers and the timers do, the records a shard holds are those
    its log gives back, as far as the device takes what is written: a shard started on the
    directory of one that has ended holds everything the first one held, but records put with
    a time to live of 0, which the log does not carry. *)

From S2P Require Import Prelude Bytes Types Proto Codec Routing Crypto Net Peerstore Store Pool Lookup Wg Relay EventLoop Metrics Sybil Erasure ShardState Shard ShardInv ShardThms ShardReplies ShardStore ShardFiles Replica Node NodeThms NodeQuiet NodeStop Restart.

(** ** The files *)

(** The decoder gives integers of the types of the schema. *)
Class RecordRanges `{!Message proto.Record_} : Prop :=
  decode_ranges : ∀ b (pr : proto.Record_), decode_msg b = Some pr → msg_wf pr.

Section files.
Context `{Crypto} `{!Message proto.Record_} `{Crc32}.

(** The size of the log once everything is written. *)
Definition log_size (x : Files) : nat :=
  length (default [] (wal_log x.2)) + length (wal_bytes (unwritten x.1.1 x.1.2)).

(** The log is open.  Unless the device was full at some time, or the log has outgrown its
    32-bit lengths, it is whole, and with what is still to be written it gives every record
    of the store, except those with a time to live of 0. *)
Record kept (x : Files) : Prop := {
  kp_dir : st_dir x.1.1 = true;
  kp_open : ps_wal x.1.2 = true;
  kp_saved : 0 < room x.2 → (Z.of_nat (log_size x) < 2 ^ 32)%Z →
    (∃ ws, wal_log x.2 = Some (wal_bytes ws) ∧ Forall fits ws) ∧
    ∀ now k r, records x.1.1 !! k = Some r → ttl_secs r ≠ 0%Z →
      foldl (replay_record now) ∅ (log_frames x.1.1 x.1.2 x.2) !! k = Some (restamp now r);
}.

Lemma small_fits rs : (Z.of_nat (length (wal_bytes rs)) < 2 ^ 32)%Z → Forall fits rs.
Proof.
  induction rs as [|r rs IH]; intros Hs; [constructor|].
  change (wal_bytes (r :: rs)) with (frame_bytes r ++ wal_bytes rs) in Hs.
  rewrite length_app, frame_bytes_length in Hs. constructor; [unfold fits; lia|apply IH; lia].
Qed.

(** Records may go, for collection or otherwise. *)
Lemma kept_fewer s s' ps d :
  kept (s, ps, d) → st_dir s' = st_dir s → pending_wal s' = pending_wal s →
  (∀ k r, records s' !! k = Some r → records s !! k = Some r) → kept (s', ps, d).
Proof.
  intros [Hd Ho Hs] Hd' Hp Hr. cbn [fst snd] in *.
  assert (unwritten s' ps = unwritten s ps) as Hu by (unfold unwritten; by rewrite Hp).
  split; cbn [fst snd]; [by rewrite Hd'|done|]. intros Hroom Hsmall.
  unfold log_size in *. cbn [fst snd] in *. rewrite Hu in Hsmall.
  destruct (Hs Hroom Hsmall) as [Hws Hrec]. split; [done|].
  intros now k r Hk Ht. rewrite log_frames_unwritten, Hu, <-log_frames_unwritten. by apply Hrec; [apply Hr|].
Qed.

Lemma log_size_grows x y :
  x.2 = y.2 → (∃ l, unwritten y.1.1 y.1.2 = unwritten x.1.1 x.1.2 ++ l) → log_size x ≤ log_size y.
Proof.
  intros Hd [l Hl]. unfold log_size. rewrite Hd, Hl, wal_bytes_app, length_app. lia.
Qed.

(** The record's numbers fit the wire types. *)
Definition wire_typed (r : StoredRecord) : Prop := msg_wf (to_proto r).

(** The frame of a record concerns its own key only. *)
Lemma replay_other_key now m rec k :
  wire_typed rec → k ≠ key rec →
  replay_record now m (TYPE_RECORD, StoredRecord_encode rec) !! k = m !! k.
Proof.
  intros Hw Hk. unfold replay_record, StoredRecord_encode. rewrite bool_decide_eq_true_2 by done. cbn [negb].
  rewrite decode_encode_msg by done. unfold record_from_proto, Key_from_bytes.
  change (proto.r_key (to_proto rec)) with (vec_to_list (kid (key rec))). rewrite to_arr_list.
  cbn [mbind option_bind]. cbn -[authentic]. destruct (authentic _); [|done].
  cbn [key]. rewrite lookup_insert_ne; [done|]. cbn in *. intros E. apply Hk. destruct (key rec). cbn in *. by subst.
Qed.

Lemma kept_put s ps d rec :
  kept (s, ps, d) → wire_typed rec → authentic rec = true →
  kept (insert_record (queue_record s rec) rec, ps, d).
Proof.
  intros [Hd Ho Hs] Hw Ha. cbn [fst snd] in *. unfold queue_record, insert_record. rewrite Hd.
  set (s' := with_records _ _).
  assert (unwritten s' ps = unwritten s ps ++ [mkWalRecord TYPE_RECORD (StoredRecord_encode rec)]) as Hu.
  { unfold unwritten. cbn. by rewrite fmap_app, (assoc_L (++)). }
  split; cbn [fst snd]; [done|done|]. intros Hroom Hsmall.
  destruct (Hs Hroom) as [Hws Hrec].
  { pose proof (log_size_grows (s, ps, d) (s', ps, d) eq_refl (ex_intro _ _ Hu)). lia. }
  split; [done|]. intros now k r. cbn [records s' with_records].
  rewrite log_frames_unwritten, Hu, fmap_app, (assoc_L (++)), foldl_app, <-log_frames_unwritten.
  cbn [fmap list_fmap foldl]. unfold frame_of. cbn [wr_ty wr_payload].
  rewrite lookup_insert_Some. intros [[<- <-]|[Hk Hr]] Ht.
  - rewrite replay_own_record by done. apply lookup_insert_eq.
  - rewrite replay_other_key by done. by apply Hrec.
Qed.

(** A row about a peer. *)
Lemma kept_row s ps d peers ty payload :
  kept (s, ps, d) → ty ≠ TYPE_RECORD →
  kept (s, Peerstore_append (mkPeerstore (ps_dir ps) peers (ps_pending ps) (ps_wal ps)) ty payload, d).
Proof.
  intros [Hd Ho Hs] Hty. cbn [fst snd] in *. set (ps' := Peerstore_append _ _ _).
  split; cbn [fst snd]; [done|done|]. intros Hroom Hsmall.
  assert (length (wal_bytes (unwritten s ps)) ≤ length (wal_bytes (unwritten s ps'))) as Hle.
  { unfold unwritten. cbn [ps' Peerstore_append ps_pending]. rewrite !wal_bytes_app, !length_app. lia. }
  destruct (Hs Hroom) as [Hws Hrec]; [unfold log_size in *; cbn [fst snd] in *; lia|].
  split; [done|]. intros now k r Hk Ht. rewrite <-(Hrec now k r Hk Ht).
  unfold log_frames. cbn [ps' Peerstore_append ps_pending].
  rewrite fmap_app, !foldl_app. cbn [fmap list_fmap foldl].
  unfold frame_of at 2. cbn [wr_ty wr_payload]. by rewrite replay_peer_row.
Qed.

(** A flush writes everything, or fills the device. *)
Lemma flush_files_eq x :
  ps_wal x.1.2 = true →
  let y := flush_files x in
  records y.1.1 = records x.1.1 ∧ st_dir y.1.1 = st_dir x.1.1 ∧ ps_wal y.1.2 = true ∧
  unwritten y.1.1 y.1.2 = [] ∧
  (0 < room y.2 →
    wal_log y.2 = Some (default [] (wal_log x.2) ++ wal_bytes (unwritten x.1.1 x.1.2)) ∧ 0 < room x.2).
Proof.
  destruct x as [[s ps] d]. cbn [fst snd]. intros Ho. destruct (flush_wal_pending s ps) as [Hp Hw].
  fold (unwritten s ps) in Hp. unfold flush_files.
  change (flush_wal s ps) with ((flush_wal s ps).1, (flush_wal s ps).2). cbn iota beta.
  unfold Peerstore_flush. rewrite Hw, Ho, write_frames_all, Hp. cbn [negb]. unfold write_all.
  destruct (Nat.leb_spec (length (wal_bytes (unwritten s ps))) (room d)); cbn [fst snd room wal_log ps_wal].
  - split_and!; [done..|]. intros. split; [done|lia].
  - split_and!; [done..|]. lia.
Qed.

Lemma flush_unwritten x : unwritten (flush_files x).1.1 (flush_files x).1.2 = [].
Proof.
  destruct x as [[s ps] d]. unfold flush_files.
  change (flush_wal s ps) with ((flush_wal s ps).1, (flush_wal s ps).2). cbn iota beta.
  unfold Peerstore_flush. destruct (negb _); [done|]. by destruct (write_frames _ _) as [[wal n] ok].
Qed.

Lemma kept_flush x : kept x → kept (flush_files x).
Proof.
  intros [Hd Ho Hs]. destruct (flush_files_eq x Ho) as (Hr & Hd' & Ho' & Hu & Hw).
  set (y := flush_files x) in *. split; [congruence|done|]. intros Hroom Hsmall.
  destruct (Hw Hroom) as [Hlog Hroom']. unfold log_size in Hsmall. rewrite Hu, Hlog in Hsmall.
  cbn [from_option id] in Hsmall. rewrite !length_app in Hsmall.
  assert (Z.of_nat (log_size x) < 2 ^ 32)%Z as Hsmall' by (unfold log_size; lia).
  destruct (Hs Hroom' Hsmall') as [(ws & Hws & Hf) Hrec]. rewrite Hws in Hlog. cbn [from_option id] in Hlog.
  assert (Forall fits (unwritten x.1.1 x.1.2)) as Hfu by (apply small_fits; unfold log_size in Hsmall'; lia).
  assert (Forall fits (ws ++ unwritten x.1.1 x.1.2)) as Hall by by apply Forall_app.
  rewrite <-wal_bytes_app in Hlog. split; [by eexists|]. rewrite Hr. intros now k r Hk Ht.
  rewrite <-(Hrec now k r Hk Ht), !log_frames_unwritten, Hu, Hlog, Hws. cbn [from_option id].
  by rewrite !frames_wal', fmap_app, app_nil_r.
Qed.

(** ** Opening *)

Lemma replay_restamp now now' fs m :
  foldl (replay_record now) (restamp now <$> m) fs = restamp now <$> foldl (replay_record now') m fs.
Proof.
  revert m. induction fs as [|[ty payload] fs IH]; intros m; [done|]. cbn [foldl]. rewrite <-IH. f_equal.
  unfold replay_record. destruct (negb _); [done|]. destruct (decode_msg payload) as [pr|]; [|done].
  unfold record_from_proto. destruct (Key_from_bytes _) as [k|]; [|done]. cbn [mbind option_bind].
  unfold authentic. cbn -[verify_record]. case_match; [|done]. by rewrite fmap_insert.
Qed.

(** A shard that opens a whole log holds what the log gives. *)
Lemma kept_open d unix :
  (∃ ws, default [] (wal_log d) = wal_bytes ws ∧ Forall fits ws) →
  kept (Store_open (Peerstore_open d).2 unix, (Peerstore_open d).1, (Peerstore_open d).2).
Proof.
  intros (ws & Hws & Hf). cbn [Peerstore_open fst snd]. unfold Store_open. cbn [wal_log]. rewrite Hws.
  split; cbn [fst snd]; [done|done|]. intros _ _. split; [by exists ws|]. intros now k r Hk _.
  rewrite log_frames_unwritten. cbn [wal_log from_option id]. rewrite app_nil_r.
  unfold replay_wal in Hk. cbn [records with_records] in Hk.
  rewrite <-(fmap_empty (restamp now)), (replay_restamp now unix). by rewrite lookup_fmap, Hk.
Qed.
End files.

(** ** The handlers *)

Section shard.
Context `{TunnOps} `{KeyedHash} `{Protobuf} `{Crc32} `{!RecordRanges}.

(** A record that was decoded can be encoded. *)
Lemma decoded_wire_typed now b pr rec :
  decode_msg b = Some pr → record_from_proto now pr = Some rec → wire_typed rec.
Proof.
  intros (Hs & Ht & Hn & Hk)%decode_ranges. unfold record_from_proto.
  destruct (Key_from_bytes _) as [k|]; [|done]. cbn [mbind option_bind]. intros [= <-].
  unfold wire_typed. by destruct (Z.eqb_spec (proto.r_ttl_secs pr) 0) as [E|E]; split_and!.
Qed.

Lemma brings_wire_typed C pkt rec : brings C pkt rec → wire_typed rec.
Proof. induction 1 as [pkt h req pr now rec _ _ _ Hpr _ Hr|]; [by eapply decoded_wire_typed|done]. Qed.

(** The operations on files keep the files in step. *)
#[local] Instance kept_FilesUse : FilesUse (λ _, True) kept wire_typed.
Proof.
  split.
  - intros s ps d i Hk. exact (kept_row _ ps _ _ TYPE_UPSERT _ Hk ltac:(discriminate)).
  - intros s ps d now k i m Hk. by apply (kept_fewer s _ ps d Hk).
  - intros s ps d now rec Hk. apply (kept_fewer s _ ps d Hk); unfold cache_hit; by case_match.
  - intros s ps d rec probe Hw Hk. unfold put_record.
    destruct (put_record_check s rec) as [[]|] eqn:E; [|exact Hk]. apply put_record_check_ok in E as [Ha _].
    destruct (kind rec =? KIND_TOMBSTONE)%Z; [by apply kept_put|]. destruct probe; [exact Hk|by apply kept_put].
  - intros s ps d now v ttl Hw Hk. unfold put_immutable_ttl. destruct (_ <? _)%Z; [exact Hk|]. cbn [fst].
    apply kept_put; [exact Hk|exact Hw|apply authentic_immutable].
  - apply kept_flush.
  - intros e n [[s ps] d] _ Hk. apply (kept_fewer s _ ps d Hk); [done..|]. cbn. intros k r Hr.
    rewrite filter_expired_lookup in Hr. destruct (records s !! k) as [r'|]; [|done]. by destruct (expired r' _).
Qed.

(** ** The loop *)

Context (rs_encode : list bytes → result (list bytes)).

(** The numbers of a command are of their types: [u64]s and a [u32]. *)
Definition cmd_typed (cmd : ShardCmd) : Prop :=
  match cmd with
  | CmdPut _ ttl _ => in_u 64 ttl
  | CmdPutMutable rec _ => wire_typed rec
  | _ => True
  end.

Lemma cmd_typed_fine cmd : cmd_typed cmd → cmd_fine (λ _, True) wire_typed cmd.
Proof.
  destruct cmd; intros Hw r Hb; try done; cbn in Hw, Hb.
  - destruct Hb as (now & _ & ->). repeat split; cbn; try done; apply Hw.
  - by subst r.
Qed.

Lemma run_shard_kept turns : Forall cmd_typed (commands turns) → stays (λ _, True) kept (run_shard rs_encode turns).
Proof.
  intros Hw. apply (run_shard_stays _ _ wire_typed); [apply brings_wire_typed|].
  eapply Forall_impl; [exact Hw|apply cmd_typed_fine].
Qed.

Lemma run_shard_ends turns e s : ∃ s', (run_shard rs_encode turns e s).2 = (flush_wals e s').2.
Proof.
  unfold run_shard. generalize (for_ (seq 0 32) (λ _, pool_recycle (zeroed BUFFER_SIZE))). intros fin.
  rewrite !bind_run. by eexists.
Qed.

(** What is held after a flush is on the disk. *)
Lemma flushed_saved s s' e k r now :
  s = (flush_wals e s').2 → kept (files (st_ctx s)) → 0 < room (sc_disk (st_ctx s)) →
  (Z.of_nat (length (default [] (wal_log (sc_disk (st_ctx s))))) < 2 ^ 32)%Z →
  records (sc_store (st_ctx s)) !! k = Some r → ttl_secs r ≠ 0%Z →
  records (Store_open (sc_disk (st_ctx s)) now) !! k = Some (restamp now r).
Proof.
  intros Hend [_ Ho Hs] Hroom Hsize Hr Ht.
  assert (unwritten (sc_store (st_ctx s)) (sc_peers (st_ctx s)) = []) as Hu.
  { pose proof (flush_unwritten (files (st_ctx s'))) as Hf.
    rewrite <-flush_wals_files with (e := e) in Hf. by rewrite <-Hend in Hf. }
  unfold log_size, files in Hs. cbn [fst snd] in Hs. rewrite Hu in Hs.
  destruct (Hs Hroom) as [(ws & Hws & Hf) Hrec]; [by rewrite Nat.add_0_r|].
  specialize (Hrec now k r Hr Ht). rewrite log_frames_unwritten, Hu, app_nil_r in Hrec.
  unfold Store_open. rewrite Hws in Hrec |- *. exact Hrec.
Qed.

Lemma St_new_kept identity n cfg local d unix :
  peerstore_dir cfg = true → (∃ ws, default [] (wal_log d) = wal_bytes ws ∧ Forall fits ws) →
  kept (files (st_ctx (St_new n identity cfg local d (true, true) unix))).
Proof.
  intros Hcfg Hlog. unfold St_new, ShardCtx_new. cbn [st_ctx]. rewrite Hcfg. exact (kept_open d unix Hlog).
Qed.

(** ** The theorem *)

(** C6: what a shard holds survives a restart.  A shard is opened on a directory whose log
    is whole (every frame complete, as a thread that has ended leaves it), and lives through
    any history: any datagrams, commands, timers, clocks and outcomes of its sends.  When its
    thread has ended, every record it then holds whose time to live is not 0 is held, stamped
    with the time of the start, by the store that is opened on the directory the thread
    leaves, provided the device still has room and the log is smaller than 4 GiB.  (A time to
    live of 0 stands for "absent" on the wire and in the log: see the findings.) *)
Theorem history_survives_restart (identity : Identity) (n : Z) (cfg : NodeConfig) (local : SocketAddr)
    (d : Dir) (unix now : Z) (turns : list (list (SocketAddr * bytes) * list ShardCmd)) (e : Env)
    (k : Key) (r : StoredRecord) :
  peerstore_dir cfg = true →
  (∃ ws, default [] (wal_log d) = wal_bytes ws ∧ Forall fits ws) →
  Forall cmd_typed (commands turns) →
  let s := (run_shard rs_encode turns e (St_new n identity cfg local d (true, true) unix)).2 in
  0 < room (sc_disk (st_ctx s)) →
  (Z.of_nat (length (default [] (wal_log (sc_disk (st_ctx s))))) < 2 ^ 32)%Z →
  records (sc_store (st_ctx s)) !! k = Some r → ttl_secs r ≠ 0%Z →
  records (Store_open (sc_disk (st_ctx s)) now) !! k = Some (restamp now r).
Proof.
  intros Hcfg Hlog Hw s.
  destruct (run_shard_ends turns e (St_new n identity cfg local d (true, true) unix)) as [s' Hend].
  exact (flushed_saved s s' e k r now Hend
           (run_shard_kept turns Hw e _ I (St_new_kept identity n cfg local d unix Hcfg Hlog))).
Qed.
End shard.

(** ** A codec that decodes only what is in range *)

#[local] Instance Record_wf_dec (pr : proto.Record_) : Decision (msg_wf pr).
Proof. unfold msg_wf, Record_wf, in_u. apply _. Defined.

Definition ranged_record : Message proto.Record_.
Proof.
  refine {| encode_to_vec := enc; decode_msg b := pr ← dec_all b; if decide (msg_wf pr) then Some pr else None |}.
  intros pr Hpr. rewrite dec_all_enc. cbn [mbind option_bind]. by rewrite decide_True.
Defined.

Definition ranged_protobuf : Protobuf := {|
  msg_Record := ranged_record; msg_Ping := @msg_Ping wire_protobuf; msg_Pong := @msg_Pong wire_protobuf;
  msg_NegotiateResp := @msg_NegotiateResp wire_protobuf; msg_FindNodeReq := @msg_FindNodeReq wire_protobuf;
  msg_FindNodeResp := @msg_FindNodeResp wire_protobuf; msg_FindValueReq := @msg_FindValueReq wire_protobuf;
  msg_FindValueResp := @msg_FindValueResp wire_protobuf; msg_StoreReq := @msg_StoreReq wire_protobuf;
  msg_StoreResp := @msg_StoreResp wire_protobuf; msg_AnnounceProviderReq := @msg_AnnounceProviderReq wire_protobuf;
  msg_AnnounceProviderResp := @msg_AnnounceProviderResp wire_protobuf; msg_Error := @msg_Error wire_protobuf;
  msg_Punch := @msg_Punch wire_protobuf; msg_Relay := @msg_Relay wire_protobuf;
  relay_payload_shorter := relay_dec_length |}.

#[local] Existing Instance ranged_protobuf.

#[local] Instance ranged_ranges : RecordRanges.
Proof.
  intros b pr. change (decode_msg b) with (pr ← dec_all (T := proto.Record_) b; if decide (msg_wf pr) then Some pr else None).
  destruct (dec_all b) as [pr'|]; [|done]. cbn [mbind option_bind]. destruct (decide (msg_wf pr')); [|done]. by intros [= <-].
Qed.

#[local] Existing Instance toy_crypto.
#[local] Existing Instance toy_tunn.
#[local] Existing Instance toy_keyed.
#[local] Existing Instance crc_ieee_inst.

(** A record that came from the network, beside two that were put, one for no time. *)
Lemma history_survives_restart_witness :
  let turns := [([(toy_addr 3, store_datagram 1 (immutable_record 0 (bstr "w") 60))], [CmdPut (bstr "v") 60 7; CmdPut (bstr "z") 0 8])] in
  let cfg := mkNodeConfig (toy_addr 0) 1 [] true false false true in
  let s := (run_shard no_erasure turns (sample_env 0)
              (St_new 0 sample_identity cfg (toy_addr 0) (empty_dir 4096) (true, true) 0)).2 in
  let r := immutable_record 1000 (bstr "w") 60 in
  records (sc_store (st_ctx s)) !! hash_value (bstr "w") = Some r ∧
  records (Store_open (sc_disk (st_ctx s)) 5000) !! hash_value (bstr "w") = Some (restamp 5000 r).
Proof.
  intros turns cfg s r.
  assert (records (sc_store (st_ctx s)) !! hash_value (bstr "w") = Some r) as Hr by (vm_compute; reflexivity).
  split; [exact Hr|].
  apply (history_survives_restart no_erasure sample_identity 0 cfg (toy_addr 0) (empty_dir 4096) 0 5000
           turns (sample_env 0) (hash_value (bstr "w")) r).
  - reflexivity.
  - exists []. split; [reflexivity|constructor].
  - repeat constructor; unfold in_u; lia.
  - apply Nat.ltb_lt. vm_compute. reflexivity.
  - apply Z.ltb_lt. vm_compute. reflexivity.
  - exact Hr.
  - discriminate.
Defined.
