(* ===== verification/Cli.v ===== *)
(** * The command line ([src/bin/molia.rs])

    Arguments are read from the front of a queue, one option at a time; the first thing that
    is wrong stops the program.  Then the identity is loaded, the node started, at most one
    command run against it and its result printed.  Strings are UTF-8 bytes; a panic is its
    message (the text printed for it and the log lines are left out). *)

From S2P Require Import Prelude Bytes Types Proto Codec Routing Crypto Net Text IdentityFile Peerstore Store Pool Lookup Wg Relay EventLoop Metrics Sybil Erasure Webrtc ShardState Shard ShardInv ShardThms ShardReplies ShardStore Node NodeThms NodeQuiet NodeStop Restart.

(** ** Options *)

Inductive Opt :=
  | OListen (a : SocketAddr)
  | OBootstrap (l : list SocketAddr)
  | OShards (n : Z)
  | OPut (v : bytes)
  | OGet (h : bytes)
  | OWg
  | OClearPeerstore
  | ONewIdentity
  | ODataDir (p : bytes)
  | ORelay
  | OPutMutable (ns slt v : bytes) (q : Z)
  | OAnnounce (k m : bytes)
  | OProviders (k : bytes)
  | OGetMutable (pk ns slt : bytes)
  | OLogLevel (l : bytes)
  | OTtl (n : Z)
  | OGateway (a : SocketAddr).

(** Why the arguments are not taken. *)
Inductive Stop :=
  | Help
  | UnknownArg (a : bytes)
  | BadArg (msg : string).

(** [args.pop_front().expect(msg)] *)
Definition pop {A} (msg : string) (args : list bytes) (k : bytes → list bytes → Stop + A) : Stop + A :=
  match args with
  | [] => inl (BadArg msg)
  | a :: args => k a args
  end.

(** [.expect(msg)] *)
Definition expect {A B} (msg : string) (o : option A) (k : A → Stop + B) : Stop + B :=
  match o with
  | None => inl (BadArg msg)
  | Some a => k a
  end.

Definition COMMA : byte := z2b 44.
Definition DASH : bytes := bstr "-".

(** [webrtc::DEFAULT_GATEWAY] *)
Definition DEFAULT_GATEWAY : bytes := bstr "127.0.0.1:9080".

(** The seeds of one [--bootstrap]. *)
Fixpoint parse_seeds (l : list bytes) : option (list SocketAddr) :=
  match l with
  | [] => Some []
  | p :: l =>
      if bool_decide (p = []) then parse_seeds l
      else a ← addr_parse p; r ← parse_seeds l; Some (a :: r)
  end.

(** One turn of the loop over the arguments. *)
Definition next_opt (a : bytes) (args : list bytes) : Stop + (Opt * list bytes) :=
  let arg s := bool_decide (a = bstr s) in
  if arg "--listen" then
    pop "addr" args (λ v args, expect "listen addr" (addr_parse v) (λ v, inr (OListen v, args)))
  else if arg "--bootstrap" then
    pop "seed-addrs" args (λ v args,
      expect "seed addr" (parse_seeds (split_char COMMA v)) (λ l, inr (OBootstrap l, args)))
  else if arg "--shards" then
    pop "n" args (λ v args, expect "shards" (parse_uint 32 v) (λ n, inr (OShards n, args)))
  else if arg "--put" then pop "value" args (λ v args, inr (OPut v, args))
  else if arg "--get" then pop "hex key" args (λ v args, inr (OGet v, args))
  else if arg "--wg" then inr (OWg, args)
  else if arg "--clear-peerstore" then inr (OClearPeerstore, args)
  else if arg "--new-identity" then inr (ONewIdentity, args)
  else if arg "--data-dir" then pop "path" args (λ v args, inr (ODataDir v, args))
  else if arg "--relay" then inr (ORelay, args)
  else if arg "--put-mutable" then
    pop "ns" args (λ ns args, pop "salt" args (λ slt args, pop "value" args (λ v args,
      pop "seq" args (λ q args, expect "seq" (parse_uint 64 q) (λ q,
        inr (OPutMutable ns slt v q, args))))))
  else if arg "--announce" then
    pop "hex key" args (λ k args, pop "meta" args (λ m args, inr (OAnnounce k m, args)))
  else if arg "--providers" then pop "hex key" args (λ k args, inr (OProviders k, args))
  else if arg "--get-mutable" then
    pop "owner_pubkey" args (λ pk args, pop "ns" args (λ ns args, pop "salt" args (λ slt args,
      inr (OGetMutable pk ns slt, args))))
  else if arg "--log-level" then pop "level" args (λ l args, inr (OLogLevel l, args))
  else if arg "--ttl" then
    pop "secs" args (λ v args, expect "ttl" (parse_uint 64 v) (λ n, inr (OTtl n, args)))
  else if arg "--webrtc-gateway" then
    let default_gateway := expect "DEFAULT_GATEWAY" (addr_parse DEFAULT_GATEWAY) (λ g, inr (OGateway g, args)) in
    match args with
    | s :: args' =>
        if starts_with DASH s then default_gateway
        else expect "webrtc-gateway addr" (addr_parse s) (λ g, inr (OGateway g, args'))
    | [] => default_gateway
    end
  else if arg "--help" then inl Help
  else inl (UnknownArg a).

(** ** Settings *)

Record Args := mkArgs {
  a_listen : SocketAddr;
  a_bootstrap : list SocketAddr;
  a_shards : Z;
  a_put : option bytes;
  a_get : option bytes;
  a_plaintext : bool;
  a_gateway : option SocketAddr;
  a_clear_peerstore : bool;
  a_new_identity : bool;
  a_data_dir : bytes;
  a_relay : bool;
  a_put_mutable : option (bytes * bytes * bytes * Z);
  a_announce : option (bytes * bytes);
  a_providers : option bytes;
  a_get_mutable : option (bytes * bytes * bytes);
  a_log_level : option bytes;
  a_ttl : option Z;
}.

(** The settings before the first argument; [cores] is [available_parallelism]. *)
Definition Args_default (cores : option Z) : Args :=
  {| a_listen := AddrV4 (arr_repeat (z2b 0) 4) 4001; a_bootstrap := []; a_shards := default 1%Z cores;
     a_put := None; a_get := None; a_plaintext := true; a_gateway := None; a_clear_peerstore := false;
     a_new_identity := false; a_data_dir := bstr "."; a_relay := false; a_put_mutable := None;
     a_announce := None; a_providers := None; a_get_mutable := None; a_log_level := None;
     a_ttl := None |}.

(** What an option assigns. *)
Definition apply_opt (s : Args) (o : Opt) : Args :=
  match o with
  | OListen a =>
      mkArgs a (a_bootstrap s) (a_shards s) (a_put s) (a_get s) (a_plaintext s) (a_gateway s)
        (a_clear_peerstore s) (a_new_identity s) (a_data_dir s) (a_relay s) (a_put_mutable s)
        (a_announce s) (a_providers s) (a_get_mutable s) (a_log_level s) (a_ttl s)
  | OBootstrap l =>
      mkArgs (a_listen s) (a_bootstrap s ++ l) (a_shards s) (a_put s) (a_get s) (a_plaintext s)
        (a_gateway s) (a_clear_peerstore s) (a_new_identity s) (a_data_dir s) (a_relay s)
        (a_put_mutable s) (a_announce s) (a_providers s) (a_get_mutable s) (a_log_level s)
        (a_ttl s)
  | OShards n =>
      mkArgs (a_listen s) (a_bootstrap s) n (a_put s) (a_get s) (a_plaintext s) (a_gateway s)
        (a_clear_peerstore s) (a_new_identity s) (a_data_dir s) (a_relay s) (a_put_mutable s)
        (a_announce s) (a_providers s) (a_get_mutable s) (a_log_level s) (a_ttl s)
  | OPut v =>
      mkArgs (a_listen s) (a_bootstrap s) (a_shards s) (Some v) (a_get s) (a_plaintext s)
        (a_gateway s) (a_clear_peerstore s) (a_new_identity s) (a_data_dir s) (a_relay s)
        (a_put_mutable s) (a_announce s) (a_providers s) (a_get_mutable s) (a_log_level s)
        (a_ttl s)
  | OGet h =>
      mkArgs (a_listen s) (a_bootstrap s) (a_shards s) (a_put s) (Some h) (a_plaintext s)
        (a_gateway s) (a_clear_peerstore s) (a_new_identity s) (a_data_dir s) (a_relay s)
        (a_put_mutable s) (a_announce s) (a_providers s) (a_get_mutable s) (a_log_level s)
        (a_ttl s)
  | OWg =>
      mkArgs (a_listen s) (a_bootstrap s) (a_shards s) (a_put s) (a_get s) false (a_gateway s)
        (a_clear_peerstore s) (a_new_identity s) (a_data_dir s) (a_relay s) (a_put_mutable s)
        (a_announce s) (a_providers s) (a_get_mutable s) (a_log_level s) (a_ttl s)
  | OClearPeerstore =>
      mkArgs (a_listen s) (a_bootstrap s) (a_shards s) (a_put s) (a_get s) (a_plaintext s)
        (a_gateway s) true (a_new_identity s) (a_data_dir s) (a_relay s) (a_put_mutable s)
        (a_announce s) (a_providers s) (a_get_mutable s) (a_log_level s) (a_ttl s)
  | ONewIdentity =>
      mkArgs (a_listen s) (a_bootstrap s) (a_shards s) (a_put s) (a_get s) (a_plaintext s)
        (a_gateway s) (a_clear_peerstore s) true (a_data_dir s) (a_relay s) (a_put_mutable s)
        (a_announce s) (a_providers s) (a_get_mutable s) (a_log_level s) (a_ttl s)
  | ODataDir p =>
      mkArgs (a_listen s) (a_bootstrap s) (a_shards s) (a_put s) (a_get s) (a_plaintext s)
        (a_gateway s) (a_clear_peerstore s) (a_new_identity s) p (a_relay s) (a_put_mutable s)
        (a_announce s) (a_providers s) (a_get_mutable s) (a_log_level s) (a_ttl s)
  | ORelay =>
      mkArgs (a_listen s) (a_bootstrap s) (a_shards s) (a_put s) (a_get s) (a_plaintext s)
        (a_gateway s) (a_clear_peerstore s) (a_new_identity s) (a_data_dir s) true
        (a_put_mutable s) (a_announce s) (a_providers s) (a_get_mutable s) (a_log_level s)
        (a_ttl s)
  | OPutMutable ns slt v q =>
      mkArgs (a_listen s) (a_bootstrap s) (a_shards s) (a_put s) (a_get s) (a_plaintext s)
        (a_gateway s) (a_clear_peerstore s) (a_new_identity s) (a_data_dir s) (a_relay s) (Some
        (ns, slt, v, q)) (a_announce s) (a_providers s) (a_get_mutable s) (a_log_level s) (a_ttl
        s)
  | OAnnounce k m =>
      mkArgs (a_listen s) (a_bootstrap s) (a_shards s) (a_put s) (a_get s) (a_plaintext s)
        (a_gateway s) (a_clear_peerstore s) (a_new_identity s) (a_data_dir s) (a_relay s)
        (a_put_mutable s) (Some (k, m)) (a_providers s) (a_get_mutable s) (a_log_level s) (a_ttl
        s)
  | OProviders k =>
      mkArgs (a_listen s) (a_bootstrap s) (a_shards s) (a_put s) (a_get s) (a_plaintext s)
        (a_gateway s) (a_clear_peerstore s) (a_new_identity s) (a_data_dir s) (a_relay s)
        (a_put_mutable s) (a_announce s) (Some k) (a_get_mutable s) (a_log_level s) (a_ttl s)
  | OGetMutable pk ns slt =>
      mkArgs (a_listen s) (a_bootstrap s) (a_shards s) (a_put s) (a_get s) (a_plaintext s)
        (a_gateway s) (a_clear_peerstore s) (a_new_identity s) (a_data_dir s) (a_relay s)
        (a_put_mutable s) (a_announce s) (a_providers s) (Some (pk, ns, slt)) (a_log_level s)
        (a_ttl s)
  | OLogLevel l =>
      mkArgs (a_listen s) (a_bootstrap s) (a_shards s) (a_put s) (a_get s) (a_plaintext s)
        (a_gateway s) (a_clear_peerstore s) (a_new_identity s) (a_data_dir s) (a_relay s)
        (a_put_mutable s) (a_announce s) (a_providers s) (a_get_mutable s) (Some l) (a_ttl s)
  | OTtl n =>
      mkArgs (a_listen s) (a_bootstrap s) (a_shards s) (a_put s) (a_get s) (a_plaintext s)
        (a_gateway s) (a_clear_peerstore s) (a_new_identity s) (a_data_dir s) (a_relay s)
        (a_put_mutable s) (a_announce s) (a_providers s) (a_get_mutable s) (a_log_level s) (Some
        n)
  | OGateway a =>
      mkArgs (a_listen s) (a_bootstrap s) (a_shards s) (a_put s) (a_get s) (a_plaintext s) (Some
        a) (a_clear_peerstore s) (a_new_identity s) (a_data_dir s) (a_relay s) (a_put_mutable s)
        (a_announce s) (a_providers s) (a_get_mutable s) (a_log_level s) (a_ttl s)
  end.

(** The loop; a turn takes at least one argument from the queue. *)
Fixpoint parse_loop (fuel : nat) (args : list bytes) (s : Args) : Stop + Args :=
  match args, fuel with
  | [], _ => inr s
  | _, O => inl (BadArg "fuel")
  | a :: args, S fuel =>
      match next_opt a args with
      | inl stop => inl stop
      | inr (o, args) => parse_loop fuel args (apply_opt s o)
      end
  end.

Definition parse_args (cores : option Z) (args : list bytes) : Stop + Args :=
  parse_loop (length args) args (Args_default cores).

(** ** The canonical spelling of options *)

Definition render_opt (o : Opt) : list bytes :=
  match o with
  | OListen a => [bstr "--listen"; addr_to_string a]
  | OBootstrap l => [bstr "--bootstrap"; join [COMMA] (addr_to_string <$> l)]
  | OShards n => [bstr "--shards"; show_u64 n]
  | OPut v => [bstr "--put"; v]
  | OGet h => [bstr "--get"; h]
  | OWg => [bstr "--wg"]
  | OClearPeerstore => [bstr "--clear-peerstore"]
  | ONewIdentity => [bstr "--new-identity"]
  | ODataDir p => [bstr "--data-dir"; p]
  | ORelay => [bstr "--relay"]
  | OPutMutable ns slt v q => [bstr "--put-mutable"; ns; slt; v; show_u64 q]
  | OAnnounce k m => [bstr "--announce"; k; m]
  | OProviders k => [bstr "--providers"; k]
  | OGetMutable pk ns slt => [bstr "--get-mutable"; pk; ns; slt]
  | OLogLevel l => [bstr "--log-level"; l]
  | OTtl n => [bstr "--ttl"; show_u64 n]
  | OGateway a => [bstr "--webrtc-gateway"; addr_to_string a]
  end.

(** The address is read back from its text, which can stand in a list of seeds and is not
    taken for an option. *)
Definition addr_arg_ok (a : SocketAddr) : Prop :=
  addr_parse (addr_to_string a) = Some a ∧ COMMA ∉ addr_to_string a ∧
  starts_with DASH (addr_to_string a) = false.

Definition opt_ok (o : Opt) : Prop :=
  match o with
  | OListen a | OGateway a => addr_arg_ok a
  | OBootstrap l => Forall addr_arg_ok l
  | OShards n => in_u 32 n
  | OTtl n | OPutMutable _ _ _ n => in_u 64 n
  | _ => True
  end.

(** ** Lemmas *)

Lemma parse_show w n : (0 < w ≤ 64)%Z → in_u w n → parse_uint w (show_u64 n) = Some n.
Proof.
  intros Hw Hn. unfold in_u in Hn.
  assert (2 ^ w ≤ 2 ^ 64)%Z by (apply Z.pow_le_mono_r; lia).
  unfold show_u64. apply parse_uint_digits; [lia|exact Hn|cbn; lia|lia].
Qed.

Lemma parse_seeds_text l : Forall addr_arg_ok l → parse_seeds (addr_to_string <$> l) = Some l.
Proof.
  induction 1 as [|a l (Ha & _) _ IH]; [done|]. cbn [fmap list_fmap parse_seeds].
  rewrite bool_decide_eq_false_2; [by rewrite Ha; cbn; rewrite IH|].
  intros E. rewrite E in Ha. vm_compute in Ha. discriminate Ha.
Qed.

Lemma parse_seeds_list l :
  Forall addr_arg_ok l → parse_seeds (split_char COMMA (join [COMMA] (addr_to_string <$> l))) = Some l.
Proof.
  intros Hl. destruct (decide (l = [])) as [->|Hne]; [done|].
  rewrite split_char_join; [by apply parse_seeds_text|by destruct l|].
  apply Forall_fmap. eapply Forall_impl; [exact Hl|]. by intros a (_ & Hc & _).
Qed.

(** Which option an argument is. *)
Ltac which_arg :=
  repeat match goal with
  | |- context [bool_decide (bstr ?a = bstr ?b)] =>
      let v := eval vm_compute in (bool_decide (bstr a = bstr b)) in
      change (bool_decide (bstr a = bstr b)) with v
  end.

Lemma next_render o rest :
  opt_ok o →
  ∃ a args, render_opt o = a :: args ∧ next_opt a (args ++ rest) = inr (o, rest).
Proof.
  intros Ho. destruct o; cbn [render_opt opt_ok] in *; do 2 eexists; (split; [reflexivity|]);
    unfold next_opt; which_arg; cbn [app pop]; try done.
  - destruct Ho as (Ha & _). by rewrite Ha.
  - by rewrite parse_seeds_list.
  - by rewrite parse_show.
  - by rewrite parse_show.
  - by rewrite parse_show.
  - destruct Ho as (Ha & _ & Hd). by rewrite Hd, Ha.
Qed.

Lemma next_opt_shorter a args o args' :
  next_opt a args = inr (o, args') → length args' ≤ length args.
Proof.
  unfold next_opt, pop, expect. cbn zeta. intros Hn.
  repeat case_match; simplify_eq; cbn; lia.
Qed.

(** Enough fuel is the number of arguments. *)
Lemma parse_loop_fuel fuel fuel' args s :
  length args ≤ fuel → length args ≤ fuel' → parse_loop fuel args s = parse_loop fuel' args s.
Proof.
  revert fuel' args s. induction fuel as [|fuel IH]; intros [|fuel'] [|a args] s Hf Hf'; cbn in *;
    try done; try lia.
  destruct (next_opt a args) as [stop|[o args']] eqn:E; [done|].
  apply next_opt_shorter in E. apply IH; lia.
Qed.

Lemma parse_loop_cons a args o args' s :
  next_opt a args = inr (o, args') →
  parse_loop (S (length args)) (a :: args) s = parse_loop (length args') args' (apply_opt s o).
Proof.
  intros E. cbn. rewrite E. apply next_opt_shorter in E. by apply parse_loop_fuel.
Qed.

(** the command line is read as it is written.  Any sequence of options, each in its
    canonical spelling (numbers of their width, addresses that are read back from their
    text), is read as exactly these options in this order: each assigns its setting, the
    last one counts, and the seeds of several [--bootstrap] add up. *)
Theorem parse_args_roundtrip (cores : option Z) (opts : list Opt) :
  Forall opt_ok opts →
  parse_args cores (opts ≫= render_opt) = inr (foldl apply_opt (Args_default cores) opts).
Proof.
  unfold parse_args. generalize (Args_default cores) as s. intros s Hopts. revert s.
  induction Hopts as [|o opts Ho _ IH]; intros s; [done|]. cbn [mbind list_bind foldl].
  fold (opts ≫= render_opt). destruct (next_render o (opts ≫= render_opt) Ho) as (a & args & -> & Hn).
  cbn [app length]. by rewrite (parse_loop_cons _ _ _ _ _ Hn).
Qed.

(** ** The program *)

(** How it ends; [Serving] when it goes on as a node. *)
Inductive Status :=
  | Exit (code : Z)
  | Panicked (msg : string)
  | Serving.

Section main.
Context `{TunnOps} `{KeyedHash} `{Protobuf} `{Crc32}.
Context (rs_encode : list bytes → result (list bytes)).

(** What is printed, how the program ends, and the node it leaves. *)
Record Run := mkRun {
  r_out : bytes;
  r_err : bytes;
  r_status : Status;
  r_node : option Node;
}.

(** What the program meets: the machine's parallelism; whether the data directory can be
    made; whether there is a peer store and it can be removed; the identity files, the draws
    and the write of the identity; what starting each shard meets; the address the gateway is
    bound to, if it starts; the time; and what happens to the node during the pause before
    the command, during the command, and at the end. *)
Record World := mkWorld {
  w_cores : option Z;
  w_dir_ok : bool;
  w_peerstore_exists : bool;
  w_clear_ok : bool;
  w_files : Files;
  w_seed : arr 32;
  w_wg : StaticSecret;
  w_write : Write;
  w_spawn : nat → Spawn;
  w_gateway : option SocketAddr;
  w_now : Z;
  w_pause : list Event;
  w_events : list Event;
  w_stop : list Event;
  w_last : nat → Env;
}.

Definition parse_key (hex : bytes) : option Key :=
  raw ← hex_decode (trim hex);
  Key_from_bytes (resize 32 (z2b 0) raw).

Definition parse_pubkey (hex : bytes) : string + bytes :=
  match hex_decode (trim hex) with
  | None => inl "hex owner_pubkey"%string
  | Some raw => if length raw =? 32 then inr raw else inl "owner_pubkey must be 32 bytes"%string
  end.

Definition line (b : bytes) : bytes := b ++ [LF].

(** The text of [print_value], also of the metadata of a provider. *)
Definition show_value (v : bytes) : bytes := default (hex_encode v) (from_utf8 v).

(** [process::exit] runs no destructors; a return or a panic of [main] drops the node. *)
Definition exits (w : World) (out err : bytes) (nd : Node) : Run := mkRun out err (Exit 1) (Some nd).

Definition returns (w : World) (out : bytes) (nd : Node) : Run :=
  mkRun out [] (Exit 0) (Some (Node_drop rs_encode nd (w_stop w) (w_last w))).

Definition panics (w : World) (out : bytes) (msg : string) (nd : Node) : Run :=
  mkRun out [] (Panicked msg) (Some (Node_drop rs_encode nd (w_stop w) (w_last w))).

(** A command that prints what it is answered. *)
Definition answered {A} (w : World) (out : bytes) (msg : string) (c : Node * result A)
    (k : Node → A → Run) : Run :=
  match c.2 with
  | Ok a => k c.1 a
  | Err _ => panics w out msg c.1
  end.

Definition print_found (w : World) (out : bytes) (nd : Node) (v : option bytes) : Run :=
  match v with
  | Some v => returns w (out ++ line (show_value v)) nd
  | None => exits w out (line (bstr "not found")) nd
  end.

Definition print_key (w : World) (out : bytes) (nd : Node) (k : Key) : Run :=
  returns w (out ++ line (hex_encode (vec_to_list (kid k)))) nd.

Definition provider_line (p : NodeId * bytes) : bytes :=
  line (hex_encode (vec_to_list (nid p.1)) ++ bstr " " ++ show_value p.2).

Definition print_providers (w : World) (out : bytes) (nd : Node) (l : list (NodeId * bytes)) : Run :=
  if bool_decide (l = []) then exits w out (line (bstr "none")) nd
  else returns w (out ++ mjoin (provider_line <$> l)) nd.

(** The commands, in the order in which they are looked for. *)
Definition run_command (w : World) (a : Args) (out : bytes) (nd : Node) : Run :=
  let ttl := default MUTABLE_TTL_SECS (a_ttl a) in
  match a_put a, a_get a, a_put_mutable a, a_get_mutable a, a_announce a, a_providers a with
  | Some v, _, _, _, _, _ =>
      answered w out "put" (put_ttl rs_encode nd v ttl (w_events w)) (print_key w out)
  | _, Some h, _, _, _, _ =>
      match parse_key h with
      | None => panics w out "hex key" nd
      | Some k => answered w out "get" (get rs_encode nd k (w_events w)) (print_found w out)
      end
  | _, _, Some (ns, slt, v, q), _, _, _ =>
      answered w out "put-mutable" (put_mutable_ttl rs_encode nd ns slt v q ttl (w_now w) (w_events w))
        (print_key w out)
  | _, _, _, Some (pk, ns, slt), _, _ =>
      match parse_pubkey pk with
      | inl msg => panics w out msg nd
      | inr pk =>
          match get_mutable rs_encode nd pk ns slt (w_events w) with
          | (nd, Ok v) => print_found w out nd v
          | (nd, Err e) => exits w out (line (bstr e)) nd
          end
      end
  | _, _, _, _, Some (k, m), _ =>
      match parse_key k with
      | None => panics w out "hex key" nd
      | Some k =>
          answered w out "announce" (node_announce rs_encode nd k m (w_events w))
            (λ nd _, returns w (out ++ line (bstr "ok")) nd)
      end
  | _, _, _, _, _, Some h =>
      match parse_key h with
      | None => panics w out "hex key" nd
      | Some k =>
          answered w out "providers" (find_providers rs_encode nd k (w_events w)) (print_providers w out)
      end
  | _, _, _, _, _, _ => mkRun out [] Serving (Some nd)
  end.

Definition oneshot (a : Args) : bool :=
  bool_decide (a_put a ≠ None ∨ a_get a ≠ None ∨ a_put_mutable a ≠ None ∨ a_get_mutable a ≠ None ∨
               a_announce a ≠ None ∨ a_providers a ≠ None).

(** A removed peer store leaves empty directories. *)
Definition spawn_after_clear (cleared : bool) (sp : Spawn) : Spawn :=
  if cleared
  then mkSpawn (sp_local sp) (sp_poller sp) (empty_dir (room (sp_dir sp))) (sp_opens sp) (sp_unix sp) (sp_env sp)
  else sp.

Definition find_identity (w : World) (a : Args) : string + Identity :=
  if a_new_identity a then
    match Identity_generate (w_seed w) (w_wg w) with
    | None => inl "32-byte secret"%string
    | Some i => if (save i (w_files w) (w_write w)).2 then inr i else inl "write identity"%string
    end
  else
    match (load_or_generate (w_files w) (w_seed w) (w_wg w) (w_write w)).1 with
    | None => inl "32-byte secret"%string
    | Some i => inr i
    end.

Definition node_config (a : Args) : NodeConfig :=
  {| listen := a_listen a; shard_count := Z.max (a_shards a) 1; bootstrap := a_bootstrap a;
     plaintext := a_plaintext a; query_blind := true; two_hop_relay := a_relay a;
     peerstore_dir := true |}.

(** With the node started: the gateway, the pause, the command. *)
Definition run_node (w : World) (a : Args) (nd : Node) : Run :=
  let go out :=
    run_command w a out (if oneshot a then run_events rs_encode nd (w_pause w) else nd) in
  match a_gateway a with
  | None => go []
  | Some _ =>
      match w_gateway w with
      | None => panics w [] "webrtc-gateway bind" nd
      | Some local => go (line (bstr "webrtc-gateway http://" ++ addr_to_string local))
      end
  end.

Definition early (msg : string) : Run := mkRun [] [] (Panicked msg) None.

(** [main] after the arguments. *)
Definition run_args (w : World) (a : Args) : Run :=
  let clear := a_clear_peerstore a && w_peerstore_exists w in
  if negb (w_dir_ok w) then early "data-dir"
  else if clear && negb (w_clear_ok w) then early "clear peerstore"
  else
    match find_identity w a with
    | inl msg => early msg
    | inr i =>
        match Node_start i (node_config a) (λ n, spawn_after_clear clear (w_spawn w n)) with
        | Err _ => early "bind"
        | Ok nd => run_node w a nd
        end
    end.

Definition usage : bytes := bstr "molia --listen 0.0.0.0:4001 --bootstrap 127.0.0.1:4000 [--shards N] [--data-dir PATH] [--new-identity] [--clear-peerstore] [--wg] [--relay] [--log-level L] [--ttl SECS] [--put VAL] [--get HEX] [--put-mutable NS SALT VAL SEQ] [--get-mutable PUBKEY NS SALT] [--announce KEY META] [--providers KEY] [--webrtc-gateway [ADDR]]".

Definition main (w : World) (args : list bytes) : Run :=
  match parse_args (w_cores w) args with
  | inl Help => mkRun [] (line usage) (Exit 0) None
  | inl (UnknownArg a) => mkRun [] (line (bstr "unknown arg " ++ a)) (Exit 2) None
  | inl (BadArg msg) => early msg
  | inr a => run_args w a
  end.
End main.

Section results.
Context `{TunnOps} `{KeyedHash} `{Protobuf} `{Crc32}.
Context (rs_encode : list bytes → result (list bytes)).

(** ** Nothing tells a thread to stop before the end *)

Lemma call_live nd i make evs :
  (∀ tx, cmd_sender (make tx) = Some tx) → live nd → live (call rs_encode nd i make evs).1.
Proof.
  intros Hmake [Hok Hup]. split; [by apply call_ok|].
  assert (Hcmd : ∀ tx, make tx ≠ CmdShutdown) by (intros tx E; pose proof (Hmake tx) as Hs; by rewrite E in Hs).
  pose proof (call_ok rs_encode nd i make [] Hok Hmake) as (Hn & _). unfold call in *. fold (opened nd) in *.
  destruct (nd_shards (opened nd) !! i) as [h|] eqn:Hi; [|done]. cbn [mbind option_bind] in *.
  destruct (send_cmd _ h) as [h'|] eqn:Hs; [|done].
  assert (live (run_events rs_encode (with_shards (<[i:=h']>) (opened nd)) evs)) as [_ Hr].
  { apply live_events. split; [|by eapply send_live]. by case_match. }
  clear Hn. case_match; exact Hr.
Qed.

Lemma get_mutable_live nd pk ns slt evs : live nd → live (get_mutable rs_encode nd pk ns slt evs).1.
Proof. apply call_live. done. Qed.

(** What is printed before the command. *)
Definition banner (w : World) (a : Args) : bytes :=
  match a_gateway a, w_gateway w with
  | Some _, Some local => line (bstr "webrtc-gateway http://" ++ addr_to_string local)
  | _, _ => []
  end.

(** The node the command is given to, if the program gets so far. *)
Definition command_node (w : World) (a : Args) : option Node :=
  match find_identity w a with
  | inl _ => None
  | inr i =>
      match Node_start i (node_config a) (λ n, spawn_after_clear (a_clear_peerstore a && w_peerstore_exists w) (w_spawn w n)) with
      | Err _ => None
      | Ok nd => Some (if oneshot a then run_events rs_encode nd (w_pause w) else nd)
      end
  end.

(** What holds of every way to stop before the command, and of the command. *)
Lemma main_cases (w : World) args a (P : Run → Prop) :
  parse_args (w_cores w) args = inr a →
  (∀ msg, P (early msg)) →
  (∀ msg nd, live nd → P (panics rs_encode w [] msg nd)) →
  (∀ nd, live nd → find_identity w a = inr (nd_identity nd) → command_node w a = Some nd →
     P (run_command rs_encode w a (banner w a) nd)) →
  P (main rs_encode w args).
Proof.
  intros Ha He Hp Hc. unfold main. rewrite Ha. unfold run_args.
  destruct (negb _); [done|]. destruct (_ && negb _); [done|].
  unfold command_node in Hc. destruct (find_identity w a) as [|i]; [done|].
  destruct (Node_start _ _ _) as [nd|] eqn:En; [|done]. unfold run_node.
  pose proof (Node_start_identity _ _ _ _ En) as Hid. subst i. apply Node_start_live in En.
  set (nd1 := if oneshot a then run_events rs_encode nd (w_pause w) else nd).
  assert (live nd1 ∧ nd_identity nd1 = nd_identity nd) as [Hn Hi].
  { unfold nd1. destruct (oneshot a); [|done]. split; [by apply live_events|apply run_events_owners]. }
  unfold banner in Hc. fold nd1 in Hc. rewrite <-Hi in Hc.
  destruct (a_gateway a); [|by apply Hc]. destruct (w_gateway w); [by apply Hc|by apply Hp].
Qed.

(** ** How a command ends *)

(** A program that ends by itself has stopped its node; one that exits with a failure or
    goes on has not. *)
Definition ends_well (r : Run) : Prop :=
  ∀ nd, r_node r = Some nd →
    match r_status r with
    | Exit c => if (c =? 0)%Z then all_threads exited nd else nd_running nd = true
    | Panicked _ => all_threads exited nd
    | Serving => nd_running nd = true
    end.

Lemma drop_exited nd evs last : live nd → all_threads exited (Node_drop rs_encode nd evs last).
Proof.
  intros [_ [Hr _]]. unfold Node_drop. rewrite Hr. by destruct (shutdown_stops rs_encode nd evs last) as (_ & ? & _).
Qed.

(** What a command may print and how it may end. *)
Definition shows (out : bytes) (ok : bytes → Prop) (err : bytes → Prop) (r : Run) : Prop :=
  ends_well r ∧
  match r_status r with
  | Exit c => (c = 0 ∧ r_err r = [] ∧ ∃ b, r_out r = out ++ b ∧ ok b)%Z ∨ (c = 1 ∧ r_out r = out ∧ err (r_err r))%Z
  | Panicked _ => r_out r = [] ∨ r_out r = out
  | Serving => False
  end.

Lemma panics_shows w out ok err msg nd : live nd → shows out ok err (panics rs_encode w out msg nd).
Proof. intros Hl. split; [|by right]. intros nd' [= <-]. by apply drop_exited. Qed.

Lemma shows_main w args a ok err :
  parse_args (w_cores w) args = inr a →
  (∀ nd, live nd → find_identity w a = inr (nd_identity nd) → command_node w a = Some nd →
     shows (banner w a) ok err (run_command rs_encode w a (banner w a) nd)) →
  shows (banner w a) ok err (main rs_encode w args).
Proof.
  intros Ha Hc. apply (main_cases w args a); [done| |intros msg nd Hl|done].
  - intros msg. split; [done|by left].
  - split; [intros nd' [= <-]; by apply drop_exited|by left].
Qed.

Lemma returns_shows w out b (ok err : bytes → Prop) nd :
  live nd → ok b → shows out ok err (returns rs_encode w (out ++ b) nd).
Proof.
  intros Hl Hb. split; [intros nd' [= <-]; by apply drop_exited|]. left. split_and!; [done|done|by exists b].
Qed.

Lemma exits_shows w out (ok err : bytes → Prop) e nd :
  live nd → err e → shows out ok err (exits w out e nd).
Proof. intros [_ [Hr _]] He. split; [by intros nd' [= <-]|]. by right. Qed.

Lemma answered_shows {A} w out msg (c : Node * result A) k ok err :
  live c.1 → (∀ a, c.2 = Ok a → shows out ok err (k c.1 a)) →
  shows out ok err (answered rs_encode w out msg c k).
Proof. intros Hl Hk. unfold answered. destruct c.2; [by apply Hk|by apply panics_shows]. Qed.

(** The node made the call [c] of its API about key [k], and the shard that owns [k] answered
    [r] on the channel of that call. *)
Definition answer_was {A} (w : World) (a : Args) (k : Key) (c : Node → Node * A) (r : Reply) : Prop :=
  ∃ nd, command_node w a = Some nd ∧ replied (c nd).1 (owner nd k) (nd_fresh nd) r.

Definition key_line (k : Key) : bytes := line (hex_encode (vec_to_list (kid k))).

(** ** One command at a time *)

Lemma put_shows (w : World) (args : list bytes) (a : Args) :
  parse_args (w_cores w) args = inr a →
  let r := main rs_encode w args in
  let ttl := default MUTABLE_TTL_SECS (a_ttl a) in
  let evs := w_events w in
  ∀ v, a_put a = Some v →
    shows (banner w a)
      (λ b, b = key_line (hash_value v) ∧
         answer_was w a (hash_value v) (λ nd, put_ttl rs_encode nd v ttl evs) (RKey (hash_value v)))
      (λ _, False) r.
Proof.
  intros Ha r ttl evs v Hv. apply (shows_main w args a); [done|]. intros nd Hl _ Hn. unfold run_command. rewrite Hv.
  apply answered_shows; [by apply call_live|]. intros k Hk. fold ttl evs in Hk.
  pose proof (put_result rs_encode nd v ttl evs (proj1 Hl)) as Hr. cbn zeta in Hr. rewrite Hk in Hr.
  destruct Hr as [-> Hr]. apply returns_shows; [by apply call_live|]. split; [done|by exists nd].
Qed.

Lemma get_shows (w : World) (args : list bytes) (a : Args) :
  parse_args (w_cores w) args = inr a →
  let r := main rs_encode w args in
  let ttl := default MUTABLE_TTL_SECS (a_ttl a) in
  let evs := w_events w in
  ∀ h, a_put a = None → a_get a = Some h →
    shows (banner w a)
      (λ b, ∃ k rec, parse_key h = Some k ∧ b = line (show_value (value rec)) ∧ authentic rec = true ∧
         answer_was w a k (λ nd, get rs_encode nd k evs) (RRecord (Some rec)))
      (λ e, e = line (bstr "not found") ∧ ∃ k, parse_key h = Some k ∧
         answer_was w a k (λ nd, get rs_encode nd k evs) (RValue None)) r.
Proof.
  intros Ha r ttl evs h Hv Hg. apply (shows_main w args a); [done|]. intros nd Hl _ Hn. unfold run_command. rewrite Hv, Hg.
  destruct (parse_key h) as [k|]; [|by apply panics_shows].
  apply answered_shows; [by apply call_live|]. intros x Hk. fold evs in Hk.
  pose proof (get_result rs_encode nd k evs (proj1 Hl)) as Hr. cbn zeta in Hr. rewrite Hk in Hr.
  destruct x as [x|]; cbn [print_found].
  - destruct Hr as (rec & Hsays & Hrec & <-). apply returns_shows; [by apply call_live|].
    exists k, rec. split_and!; [done..|by exists nd].
  - apply exits_shows; [by apply call_live|]. split; [done|]. exists k. split; [done|by exists nd].
Qed.

Lemma put_mutable_shows (w : World) (args : list bytes) (a : Args) :
  parse_args (w_cores w) args = inr a →
  let r := main rs_encode w args in
  let ttl := default MUTABLE_TTL_SECS (a_ttl a) in
  let evs := w_events w in
  ∀ ns slt v q, a_put a = None → a_get a = None → a_put_mutable a = Some (ns, slt, v, q) →
    shows (banner w a)
      (λ b, ∃ i, find_identity w a = inr i ∧
         let k := mutable_key (vec_to_list (verifying_key i)) ns slt in
         b = key_line k ∧
         answer_was w a k (λ nd, put_mutable_ttl rs_encode nd ns slt v q ttl (w_now w) evs) (RKey k))
      (λ _, False) r.
Proof.
  intros Ha r ttl evs ns slt v q Hv Hg Hm. apply (shows_main w args a); [done|]. intros nd Hl Hi Hn. unfold run_command.
  rewrite Hv, Hg, Hm. apply answered_shows; [by apply call_live|]. intros k Hk. fold ttl evs in Hk.
  pose proof (put_mutable_result rs_encode nd ns slt v q ttl (w_now w) evs (proj1 Hl)) as Hr.
  cbn zeta in Hr. rewrite Hk in Hr. destruct Hr as [-> Hr].
  apply returns_shows; [by apply call_live|]. exists (nd_identity nd). split_and!; [done..|by exists nd].
Qed.

Lemma get_mutable_shows (w : World) (args : list bytes) (a : Args) :
  parse_args (w_cores w) args = inr a →
  let r := main rs_encode w args in
  let ttl := default MUTABLE_TTL_SECS (a_ttl a) in
  let evs := w_events w in
  ∀ pk ns slt, a_put a = None → a_get a = None → a_put_mutable a = None →
    a_get_mutable a = Some (pk, ns, slt) →
    shows (banner w a)
      (λ b, ∃ raw rec, parse_pubkey pk = inr raw ∧ b = line (show_value (value rec)) ∧
         let k := mutable_key raw ns slt in
         namespace rec = ns ∧ salt rec = slt ∧
         verify_record raw k (value rec) (sequence rec) (ttl_secs rec) (not_before_unix rec) (signature rec) = true ∧
         answer_was w a k (λ nd, get_mutable rs_encode nd raw ns slt evs) (RRecord (Some rec)))
      (λ e, (e = line (bstr "not found") ∧ ∃ raw, parse_pubkey pk = inr raw ∧
               answer_was w a (mutable_key raw ns slt) (λ nd, get_mutable rs_encode nd raw ns slt evs) (RValue None)) ∨
            ∃ msg, msg ∈ ["key mismatch"; "bad signature"; "unexpected"; "timeout"; "shard gone"]%string ∧
               e = line (bstr msg)) r.
Proof.
  intros Ha r ttl evs pk ns slt Hv Hg Hp Hm. apply (shows_main w args a); [done|]. intros nd Hl _ Hn. unfold run_command.
  rewrite Hv, Hg, Hp, Hm. destruct (parse_pubkey pk) as [msg|raw] eqn:Ek; [by apply panics_shows|].
  pose proof (get_mutable_result rs_encode nd raw ns slt evs (proj1 Hl)) as Hr. cbn zeta in Hr.
  pose proof (get_mutable_live nd raw ns slt evs Hl) as Hl'. fold evs.
  destruct (get_mutable _ nd raw ns slt evs) as [nd' [[x|]|e]] eqn:Ec; cbn [fst snd print_found] in *.
  - destruct Hr as (rec & Hsays & <- & Hns & Hsl & Hver). apply returns_shows; [done|].
    exists raw, rec. split_and!; [done..|]. exists nd. by rewrite Ec.
  - apply exits_shows; [done|]. left. split; [done|]. exists raw. split; [done|]. exists nd. by rewrite Ec.
  - apply exits_shows; [done|]. right. exists e. split; [|done].
    destruct Hr as [[->| ->]|[(rec & [->| ->] & _)|[-> _]]]; repeat first [by left|right].
Qed.

Lemma announce_shows (w : World) (args : list bytes) (a : Args) :
  parse_args (w_cores w) args = inr a →
  let r := main rs_encode w args in
  let ttl := default MUTABLE_TTL_SECS (a_ttl a) in
  let evs := w_events w in
  ∀ h m, a_put a = None → a_get a = None → a_put_mutable a = None → a_get_mutable a = None →
    a_announce a = Some (h, m) →
    shows (banner w a)
      (λ b, ∃ k, parse_key h = Some k ∧ b = line (bstr "ok") ∧
         answer_was w a k (λ nd, node_announce rs_encode nd k m evs) ROk)
      (λ _, False) r.
Proof.
  intros Ha r ttl evs h m Hv Hg Hp Hm Hn'. apply (shows_main w args a); [done|]. intros nd Hl _ Hn. unfold run_command.
  rewrite Hv, Hg, Hp, Hm, Hn'. destruct (parse_key h) as [k|]; [|by apply panics_shows].
  apply answered_shows; [by apply call_live|]. intros [] Hk. fold evs in Hk.
  pose proof (announce_result rs_encode nd k m evs (proj1 Hl)) as Hr. cbn zeta in Hr. rewrite Hk in Hr.
  apply returns_shows; [by apply call_live|]. exists k. split_and!; [done..|by exists nd].
Qed.

Lemma providers_shows (w : World) (args : list bytes) (a : Args) :
  parse_args (w_cores w) args = inr a →
  let r := main rs_encode w args in
  let ttl := default MUTABLE_TTL_SECS (a_ttl a) in
  let evs := w_events w in
  ∀ h, a_put a = None → a_get a = None → a_put_mutable a = None → a_get_mutable a = None →
    a_announce a = None → a_providers a = Some h →
    shows (banner w a)
      (λ b, ∃ k l, parse_key h = Some k ∧ l ≠ [] ∧ b = mjoin (provider_line <$> l) ∧
         answer_was w a k (λ nd, find_providers rs_encode nd k evs) (RProviders l))
      (λ e, e = line (bstr "none") ∧ ∃ k, parse_key h = Some k ∧
         (answer_was w a k (λ nd, find_providers rs_encode nd k evs) (RProviders []) ∨
          answer_was w a k (λ nd, find_providers rs_encode nd k evs) (RValue None))) r.
Proof.
  intros Ha r ttl evs h Hv Hg Hp Hm Hn' Hf. apply (shows_main w args a); [done|]. intros nd Hl _ Hn. unfold run_command.
  rewrite Hv, Hg, Hp, Hm, Hn', Hf. destruct (parse_key h) as [k|]; [|by apply panics_shows].
  apply answered_shows; [by apply call_live|]. intros l Hk. fold evs in Hk.
  pose proof (find_providers_result rs_encode nd k evs (proj1 Hl)) as Hr. cbn zeta in Hr. rewrite Hk in Hr.
  unfold print_providers. case_bool_decide as Hnil.
  - apply exits_shows; [by apply call_live|]. split; [done|]. exists k. split; [done|]. subst l.
    destruct Hr as [Hr|[_ Hr]]; [left|right]; by exists nd.
  - destruct Hr as [Hr|[-> _]]; [|done]. apply returns_shows; [by apply call_live|].
    exists k, l. split_and!; [done..|by exists nd].
Qed.

(** C28: what the commands print and how the program ends.  For any arguments that are read,
    and whatever the program meets, the first of these commands that is given prints after
    the gateway's line, and exits with 0: [--put] the hash of the value in hex, when the
    owning shard answered with that key; [--get] the value of the record the owning shard
    answered, which is authentic; [--put-mutable] the key of this identity, name and salt,
    when the shard answered with it; [--get-mutable] the value of the record answered, which
    is signed by the given owner for exactly this name and salt; [--announce] "ok", when the
    shard answered so; [--providers] the list answered, a line each.  Otherwise [--get] and
    [--get-mutable] report "not found" (when the shard answered that it has nothing) and
    [--providers] "none" and exit with 1, [--get-mutable] also for an error, and everything
    else panics with nothing more printed.  When the program exits with 0 or panics every
    thread of the node has left its loop, when it exits with 1 none has been told to. *)
Theorem command_results (w : World) (args : list bytes) (a : Args) :
  parse_args (w_cores w) args = inr a →
  let r := main rs_encode w args in
  let ttl := default MUTABLE_TTL_SECS (a_ttl a) in
  let evs := w_events w in
  (∀ v, a_put a = Some v →
     shows (banner w a)
       (λ b, b = key_line (hash_value v) ∧
          answer_was w a (hash_value v) (λ nd, put_ttl rs_encode nd v ttl evs) (RKey (hash_value v)))
       (λ _, False) r) ∧
  (∀ h, a_put a = None → a_get a = Some h →
     shows (banner w a)
       (λ b, ∃ k rec, parse_key h = Some k ∧ b = line (show_value (value rec)) ∧ authentic rec = true ∧
          answer_was w a k (λ nd, get rs_encode nd k evs) (RRecord (Some rec)))
       (λ e, e = line (bstr "not found") ∧ ∃ k, parse_key h = Some k ∧
          answer_was w a k (λ nd, get rs_encode nd k evs) (RValue None)) r) ∧
  (∀ ns slt v q, a_put a = None → a_get a = None → a_put_mutable a = Some (ns, slt, v, q) →
     shows (banner w a)
       (λ b, ∃ i, find_identity w a = inr i ∧
          let k := mutable_key (vec_to_list (verifying_key i)) ns slt in
          b = key_line k ∧
          answer_was w a k (λ nd, put_mutable_ttl rs_encode nd ns slt v q ttl (w_now w) evs) (RKey k))
       (λ _, False) r) ∧
  (∀ pk ns slt, a_put a = None → a_get a = None → a_put_mutable a = None →
     a_get_mutable a = Some (pk, ns, slt) →
     shows (banner w a)
       (λ b, ∃ raw rec, parse_pubkey pk = inr raw ∧ b = line (show_value (value rec)) ∧
          let k := mutable_key raw ns slt in
          namespace rec = ns ∧ salt rec = slt ∧
          verify_record raw k (value rec) (sequence rec) (ttl_secs rec) (not_before_unix rec) (signature rec) = true ∧
          answer_was w a k (λ nd, get_mutable rs_encode nd raw ns slt evs) (RRecord (Some rec)))
       (λ e, (e = line (bstr "not found") ∧ ∃ raw, parse_pubkey pk = inr raw ∧
                answer_was w a (mutable_key raw ns slt) (λ nd, get_mutable rs_encode nd raw ns slt evs) (RValue None)) ∨
             ∃ msg, msg ∈ ["key mismatch"; "bad signature"; "unexpected"; "timeout"; "shard gone"]%string ∧
                e = line (bstr msg)) r) ∧
  (∀ h m, a_put a = None → a_get a = None → a_put_mutable a = None → a_get_mutable a = None →
     a_announce a = Some (h, m) →
     shows (banner w a)
       (λ b, ∃ k, parse_key h = Some k ∧ b = line (bstr "ok") ∧
          answer_was w a k (λ nd, node_announce rs_encode nd k m evs) ROk)
       (λ _, False) r) ∧
  (∀ h, a_put a = None → a_get a = None → a_put_mutable a = None → a_get_mutable a = None →
     a_announce a = None → a_providers a = Some h →
     shows (banner w a)
       (λ b, ∃ k l, parse_key h = Some k ∧ l ≠ [] ∧ b = mjoin (provider_line <$> l) ∧
          answer_was w a k (λ nd, find_providers rs_encode nd k evs) (RProviders l))
       (λ e, e = line (bstr "none") ∧ ∃ k, parse_key h = Some k ∧
          (answer_was w a k (λ nd, find_providers rs_encode nd k evs) (RProviders []) ∨
           answer_was w a k (λ nd, find_providers rs_encode nd k evs) (RValue None))) r).
Proof.
  intros Ha r ttl evs. split_and!.
  - intros v Hv. by apply put_shows.
  - intros h Hv Hg. by apply get_shows.
  - intros ns slt v q Hv Hg Hm. by apply put_mutable_shows.
  - intros pk ns slt Hv Hg Hp Hm. by apply get_mutable_shows.
  - intros h m Hv Hg Hp Hm Hn. by apply announce_shows.
  - intros h Hv Hg Hp Hm Hn Hf. by apply providers_shows.
Qed.
End results.

(** A key of the wrong length is padded with zeros or cut, not refused. *)
Lemma short_key_padded `{Crypto} (h raw : bytes) :
  hex_decode (trim h) = Some raw →
  ∃ k, parse_key h = Some k ∧
    vec_to_list (kid k) = take 32 raw ++ replicate (32 - length raw) (z2b 0).
Proof.
  intros Hd. unfold parse_key. rewrite Hd. cbn [mbind option_bind]. unfold Key_from_bytes.
  destruct (to_arr_is_Some 32 (resize 32 (z2b 0) raw) (length_resize _ _ _)) as (v & -> & Hv).
  exists (mkKey v). split; [done|]. cbn. by rewrite Hv, resize_spec.
Qed.

(** ** A concrete run *)

#[local] Existing Instance toy_crypto.
#[local] Existing Instance toy_tunn.
#[local] Existing Instance toy_keyed.
#[local] Existing Instance crc_ieee_inst.
#[local] Existing Instance wire_protobuf.

Lemma parse_args_roundtrip_witness :
  let a := AddrV4 (list_to_arr 4 (be_bytes 4 2130706433)) 4001 in
  let b := AddrV4 (list_to_arr 4 (be_bytes 4 2130706433)) 4002 in
  let opts := [OBootstrap [a; b]; OShards 2; OWg; OListen b; OPut (bstr "--get"); OBootstrap [a];
               OShards 4; OGateway a; OTtl 60] in
  a_bootstrap (foldl apply_opt (Args_default None) opts) = [a; b; a] ∧
  parse_args None (opts ≫= render_opt) = inr (foldl apply_opt (Args_default None) opts).
Proof.
  intros a b opts. split; [reflexivity|]. apply parse_args_roundtrip.
  assert (Ha : addr_arg_ok a).
  { split_and!; [vm_compute; reflexivity|apply (bool_decide_unpack _); vm_compute; exact I|vm_compute; reflexivity]. }
  assert (Hb : addr_arg_ok b).
  { split_and!; [vm_compute; reflexivity|apply (bool_decide_unpack _); vm_compute; exact I|vm_compute; reflexivity]. }
  repeat first [exact Ha | exact Hb | exact I | apply Forall_nil_2 | apply Forall_cons_2 | split; lia].
Defined.

(** Two shards; each has a turn during the command. *)
Definition sample_run : World := {|
  w_cores := Some 2%Z; w_dir_ok := true; w_peerstore_exists := false; w_clear_ok := true;
  w_files := mkFiles None None false; w_seed := arr_repeat (z2b 7) 32;
  w_wg := arr_repeat (z2b 9) 32; w_write := Written; w_spawn := sample_spawn;
  w_gateway := Some (toy_addr 9080); w_now := 1000; w_pause := [];
  w_events := sample_turn 0 ++ sample_turn 1; w_stop := []; w_last := sample_env_of |}.

Lemma command_results_witness :
  let args := bstr <$> ["--webrtc-gateway"; "--put"; "v"]%string in
  let r := main no_erasure sample_run args in
  r_status r = Exit 0 ∧
  match parse_args (Some 2%Z) args with
  | inr a => shows (banner sample_run a)
               (λ b, b = key_line (hash_value (bstr "v")) ∧
                  answer_was no_erasure sample_run a (hash_value (bstr "v"))
                    (λ nd, put_ttl no_erasure nd (bstr "v") (default MUTABLE_TTL_SECS (a_ttl a)) (w_events sample_run))
                    (RKey (hash_value (bstr "v"))))
               (λ _, False) r
  | inl _ => False
  end.
Proof.
  intros args r. split; [vm_compute; reflexivity|].
  destruct (parse_args (Some 2%Z) args) as [stop|a] eqn:E; [vm_compute in E; discriminate E|].
  destruct (command_results no_erasure sample_run args a E) as [Hp _]. apply Hp.
  vm_compute in E. injection E as <-. reflexivity.
Defined.
