(* ===== verification/SourceTests.v ===== *)
(** * The unit tests of the repository

    The tests of [src/src/*.rs] and [src/tests/chaos.rs] as functions on the model, one
    Module per file, evaluated with the stand-in parameters; each is the conjunction of its
    assertions.  [Identity::generate()] is a fixed identity, a node of a test is the node of
    one shard at its own address, and the calls of a test come with the turns of the threads
    they wait for.  Tests of the Reed-Solomon codec, of real sockets and threads, and of the
    build file have no counterpart here. *)

From S2P Require Import Prelude Bytes Types Proto Codec Routing Crypto Net Text Peerstore Store Pool Lookup Wg Relay EventLoop Metrics Sybil Erasure Webrtc ShardState Shard ShardInv ShardThms ShardReplies ShardStore Node NodeThms.

#[local] Existing Instance toy_crypto.
#[local] Existing Instance toy_tunn.
#[local] Existing Instance toy_keyed.
#[local] Existing Instance crc_ieee_inst.
#[local] Existing Instance wire_protobuf.

(** [assert!(..)] one after the other. *)
Definition all_of (l : list bool) : bool := forallb id l.

(** [assert_eq!(..)] *)
Definition eqb {A} `{EqDecision A} (a b : A) : bool := bool_decide (a = b).

Definition local_at (port : Z) : SocketAddr := AddrV4 LOCALHOST port.

(** [[0u8; n]] *)
Definition zeros (n : nat) : bytes := replicate n (z2b 0).

Definition id_bytes (b : Z) : arr 32 := list_to_arr 32 (replicate 31 (z2b 0) ++ [z2b b]).

Definition zero_key : Key := mkKey (arr_repeat (z2b 0) 32).

Module CodecTests.
Definition header_roundtrip : bool :=
  let h := Header_request FindNodeReq Coordination 2864434397 in
  let '(buf, n) := Header_encode h (zeros 12) in
  eqb n (Some 12) &&
  match Header_decode buf with
  | Some d => all_of [eqb (h_ty d) FindNodeReq; eqb (h_correlation d) 2864434397%Z; negb (is_response d)]
  | None => false
  end.

Definition ping_pong_encode : bool :=
  let '(buf, n) := encode_ping 7 1234 (zeros 64) in
  match n with
  | Some n =>
      match Header_decode (take n buf), decode_body proto.Ping (take n buf) with
      | Some h, Some p => eqb (h_ty h) Ping && eqb (proto.ping_now_unix_ms p) 1234%Z
      | _, _ => false
      end
  | None => false
  end.

Definition unknown_type_is_none : bool :=
  let buf := write_at (zeros 12) 0 [PROTOCOL_VERSION] in
  let buf := write_at buf 1 [z2b 99] in
  negb (bool_decide (is_Some (Header_decode buf))).
End CodecTests.

Module CryptoTests.
Definition node_id_is_blake3_of_pubkey (id : Identity) : bool :=
  eqb (nid (node_id id)) (blake3_hash (vec_to_list (verifying_key id))).

Definition binding_roundtrip (id : Identity) : bool :=
  verify_binding (vec_to_list (verifying_key id)) (vec_to_list (wg_public id)) (vec_to_list (binding_signature id)).

Definition pow_zero_difficulty_always_passes : bool :=
  verify_ephemeral_pow (arr_repeat (z2b 7) 32) (arr_repeat (z2b 1) 16) 0.

Definition identity_json_roundtrip (id : Identity) : bool :=
  match Identity_from_json (Identity_to_json id) with
  | Some parsed => eqb (Identity_to_bytes parsed) (Identity_to_bytes id) && eqb (node_id parsed) (node_id id)
  | None => false
  end.
End CryptoTests.

Module ErasureTests.
Definition small_blobs_skip : bool := negb (should_erasure 100) && should_erasure THRESHOLD.
End ErasureTests.

Module LookupTests.
Definition p (b : Z) : PeerInfo := PeerInfo_new (mkNodeId (id_bytes b)) (local_at (1000 + b)).

Definition terminates_when_no_progress : bool :=
  let seeds := [p 1; p 2; p 3] in
  let l := Lookup_new FindNode zero_key seeds PrivacyNone 0 in
  let '(l, batch) := next_batch l 0 in
  let l := foldl (λ l s, on_closer (note_sent l (pi_id s) 1 0) (pi_id s) [] 10000) l seeds in
  negb (length batch =? 0) && (lk_done l || (length (next_batch l 0).2 =? 0)).

Definition merge_step_uses_arena : bool :=
  (merge_step (arena_with_capacity 4096) [p 1; p 9] zero_key).2 =? 2.
End LookupTests.

Module NatTests.
Definition classify_same_is_full_cone : bool :=
  match classify (local_at 1) (local_at 1) with FullCone => true | _ => false end.

Definition candidates_include_mapped : bool :=
  let local := AddrV4 (arr_repeat (z2b 0) 4) 4001 in
  let mapped := AddrV4 (list_to_arr 4 (z2b <$> [1; 2; 3; 4]%Z)) 5555 in
  let c := candidates local (Some mapped) in
  bool_decide (local_at 4001 ∈ c) && bool_decide (mapped ∈ c).

Definition relay_budget_caps : bool :=
  let b := on_egress RelayBudget_new 1000 in
  let '(b, small) := allow b 50 in
  small && negb (allow b 10000).2.
End NatTests.

Module PeerstoreTests.
Definition memory_upsert : bool :=
  let id := mkNodeId (arr_repeat (z2b 3) 32) in
  let ps := Peerstore_upsert Peerstore_memory (PeerInfo_new id (local_at 9)) in
  bool_decide (is_Some (Peerstore_get ps id)) && (Peerstore_flush ps (empty_dir 0)).2.

(** The directory has room for a thousand bytes. *)
Definition wal_roundtrip : bool :=
  let id := mkNodeId (arr_repeat (z2b 9) 32) in
  let '(ps, dir) := Peerstore_open (empty_dir 1000) in
  let ps := Peerstore_upsert ps (PeerInfo_new id (local_at 77)) in
  let '(ps, dir, flushed) := Peerstore_flush ps dir in
  let '(ps, dir, compacted) := compact ps dir ((map_to_list (ps_peers ps)).*2) in
  flushed && compacted && bool_decide (is_Some (Peerstore_get (Peerstore_open dir).1 id)).
End PeerstoreTests.

Module PoolTests.
Definition pool_reuses_after_warmup : bool :=
  let '(pool, a) := BufferPool_take BufferPool_new in
  let '(pool, _) := BufferPool_take (recycle pool a) in
  (2 <=? (BufferPool_stats pool).1)%Z.

Definition arena_reset_is_reuse : bool :=
  let '(a, r) := alloc (arena_with_capacity 128) 16 in
  bool_decide (is_Some r) && bool_decide (is_Some (alloc (arena_reset a) 128).2).
End PoolTests.

Module RelayTests.
Definition default_off_blocks_data : bool := negb (forward (RelayState_new false) 100 false).2.

Definition pick_skips_same_bucket : bool :=
  let self_id := mkNodeId (arr_repeat (z2b 0) 32) in
  let dest := list_to_arr 32 (z2b 128 :: replicate 31 (z2b 0)) in
  let same := list_to_arr 32 (z2b 128 :: replicate 30 (z2b 0) ++ [z2b 1]) in
  let other := list_to_arr 32 (z2b 1 :: replicate 31 (z2b 0)) in
  let addr := local_at 1 in
  bool_decide (is_Some (pick_relay self_id (mkNodeId dest) [(mkNodeId same, addr); (mkNodeId other, addr)])).
End RelayTests.

Module RoutingTests.
Definition peer (b port : Z) : PeerInfo := PeerInfo_new (mkNodeId (id_bytes b)) (local_at port).

Definition insert_and_closest : bool :=
  let rt := foldl (λ rt i, (RoutingTable_insert 0 rt (peer i (4000 + i))).1)
              (RoutingTable_new (mkNodeId (arr_repeat (z2b 0) 32))) (Z.of_nat <$> seq 1 10) in
  (RoutingTable_len rt =? 10) && (length (closest rt zero_key 3) =? 3).

Definition evict_dead : bool :=
  let rt := RoutingTable_new (mkNodeId (arr_repeat (z2b 0) 32)) in
  let p := peer 1 4001 in
  let rt := (RoutingTable_insert 0 rt p).1 in
  RoutingTable_is_empty (evict_and_replace rt (pi_id p)).
End RoutingTests.

Module StoreTests.
(** The record both tests sign. *)
Definition signed_record (id : Identity) (value salt : bytes) : StoredRecord :=
  let pk := vec_to_list (verifying_key id) in
  let key := mutable_key pk (bstr "ns") salt in
  {| key := key; value := value; sequence := 1; ttl_secs := MUTABLE_TTL_SECS; not_before_unix := 0;
     owner_pubkey := pk;
     signature := vec_to_list (sign_record (signing id) key value 1 MUTABLE_TTL_SECS 0);
     kind := KIND_MUTABLE; namespace := bstr "ns"; salt := salt; stored_unix := 1000; cache := false |}.

Definition with_value (v : bytes) (r : StoredRecord) : StoredRecord :=
  mkStoredRecord (key r) v (sequence r) (ttl_secs r) (not_before_unix r) (owner_pubkey r) (signature r)
    (kind r) (namespace r) (salt r) (stored_unix r) (cache r).

Definition with_namespace (ns : bytes) (r : StoredRecord) : StoredRecord :=
  mkStoredRecord (key r) (value r) (sequence r) (ttl_secs r) (not_before_unix r) (owner_pubkey r)
    (signature r) (kind r) ns (salt r) (stored_unix r) (cache r).

Definition signed_by_rejects_tampered_value (id other : Identity) : bool :=
  let pk := vec_to_list (verifying_key id) in
  let rec := signed_record id (bstr "ok") (bstr "salt") in
  let bad := with_value (bstr "nope") rec in
  let wrong_key := with_namespace (bstr "other") rec in
  all_of [signed_by rec pk; is_ok (put_record Store_new rec false).2;
          negb (signed_by bad pk); negb (is_ok (put_record Store_new bad false).2);
          negb (authentic wrong_key); negb (is_ok (put_record Store_new wrong_key false).2);
          negb (signed_by rec (vec_to_list (verifying_key other)))].

Definition records_roundtrip_wal (id : Identity) : bool :=
  let rec := signed_record id (bstr "v") (bstr "s") in
  let '(peers, dir) := Peerstore_open (empty_dir 2000) in
  let '(store, stored) := put_record (Store_open dir 1000) rec false in
  let '(store, peers) := flush_wal store peers in
  let '(_, dir, flushed) := Peerstore_flush peers dir in
  all_of [is_ok stored; flushed;
          eqb (value <$> Store_get (Store_open dir 1000) 1000 (key rec)) (Some (bstr "v"))].
End StoreTests.

Module SybilTests.
(** The fifty calls of the loop, at one instant. *)
Definition bucket_eventually_denies : bool :=
  let '(_, oks) := burst Sybil_new (local_at 1) 0 50 in
  length (filter (eq true) oks) <? 50.
End SybilTests.

Module TypesTests.
Definition xor_is_symmetric_and_self_inverse : bool :=
  let a := arr_repeat (z2b 1) 32 in
  let b := arr_repeat (z2b 2) 32 in
  eqb (xor_distance a b) (xor_distance b a) && eqb (xor_distance a a) (arr_repeat (z2b 0) 32).

Definition shard_id_power_of_two : bool :=
  let self_id := mkNodeId (arr_repeat (z2b 0) 32) in
  let key (b : Z) := mkKey (list_to_arr 32 (z2b b :: replicate 31 (z2b 0))) in
  eqb (shard_id self_id (key 192%Z) 4) 3%Z && eqb (shard_id self_id (key 0%Z) 4) 0%Z.

Definition bucket_index_same_id_is_zero : bool :=
  let id := mkNodeId (arr_repeat (z2b 17) 32) in
  bucket_index id id =? 0.
End TypesTests.

Module WgTests.
Definition receiver_index_encodes_shard : bool :=
  let idx := encode_receiver_index 3 7 in
  eqb (shard_from_receiver_index idx) 3%Z && eqb (Z.land idx 16777215) 7%Z.

Definition parse_data_header : bool :=
  let buf := write_at (zeros 16) 0 [z2b 4] in
  let buf := write_at buf 4 (le_bytes 4 7) in
  match parse_wg_header buf with
  | Some h => eqb (wg_ty h) 4%Z && eqb (receiver_index h) 7%Z
  | None => false
  end.

Definition wrap_rpc_roundtrip : bool :=
  let rpc := z2b <$> [1; 7; 0; 1; 0; 0; 0; 1; 0; 0; 0; 0; 9]%Z in
  let wrapped := wrap_rpc rpc in
  all_of [eqb (index wrapped 0) (z2b 69); eqb (unwrap_rpc wrapped) rpc; eqb (unwrap_rpc rpc) rpc].
End WgTests.

Module WebrtcTests.
Definition ping_bytes (correlation now : Z) : bytes :=
  let '(buf, n) := encode_ping correlation now (zeros 64) in take (default 0 n) buf.

Definition maps_same_rpc_header : bool :=
  let ping := ping_bytes 1 9 in
  accept_rpc ping && eqb ((λ f, h_correlation f.1) <$> frame_rpc ping) (Some 1%Z).

Definition dc_pair_delivers_rpc : bool :=
  let pair := dc_send dc_pair true (ping_bytes 3 1) in
  match (dc_recv pair false).2 with
  | Some got => accept_rpc got && eqb (multiaddr (bstr "tab-1")) (bstr "/webrtc/tab-1")
  | None => false
  end.
End WebrtcTests.

(** ** Nodes *)

Module NodeTests.
(** [Node::start(Identity::generate(), cfg)]: one shard at address [n], no directory. *)
Definition start_with (id : Identity) (c : NodeConfig) : Node :=
  match Node_start id c
          (λ _, mkSpawn (Some (listen c)) true (empty_dir 0) (false, false) 1000 (sample_env 0)) with
  | Ok nd => nd
  | Err _ => mkNode id c [] true 0
  end.

Definition cfg (n : Z) : NodeConfig := mkNodeConfig (toy_addr n) 1 [] true false false false.
Definition cfg_wg (n : Z) : NodeConfig := mkNodeConfig (toy_addr n) 1 [] false false false false.
Definition chaos_cfg (n : Z) : NodeConfig := mkNodeConfig (toy_addr n) 1 [] true true false false.

Definition start (n : Z) : Node := start_with sample_identity (cfg n).

(** A turn of the node's thread that finds [batch] at the socket. *)
Definition turn (batch : list (SocketAddr * bytes)) : list Event :=
  [CheckRunning 0 (sample_env 0); Body 0 batch (sample_env 0)].

(** What the node has sent, with where it went. *)
Definition sent (nd : Node) : list (SocketAddr * bytes) :=
  concat ((λ h, (λ o, match o with OutPlain d b | OutWg d b => (d, b) end) <$> st_out (sh_state h)) <$>
          nd_shards nd).

Definition sent_to (dest : SocketAddr) (nd : Node) : list bytes :=
  (filter (λ m, m.1 = dest) (sent nd)).*2.

Definition ping_pong_loopback : bool :=
  let ping := WebrtcTests.ping_bytes 42 1 in
  let nd := run_events no_erasure (start 0) (turn [(toy_addr 7, ping)]) in
  match last (sent_to (toy_addr 7) nd) with
  | Some r =>
      match Header_decode r, decode_body proto.Pong r with
      | Some h, Some _ => eqb (h_ty h) Pong && eqb (h_correlation h) 42%Z
      | _, _ => false
      end
  | None => false
  end.

Definition store_find_local : bool :=
  let v := bstr "hello-molia" in
  let '(nd, key) := put no_erasure (start 0) v (turn []) in
  match key with
  | Ok key => eqb key (hash_value v) && match (get no_erasure nd key (turn [])).2 with
                                        | Ok got => eqb got (Some v)
                                        | Err _ => false
                                        end
  | Err _ => false
  end.

(** What [a] sent to [b] arrives at [b] in one turn. *)
Definition deliver (a b : SocketAddr) (na nb : Node) : Node :=
  run_events no_erasure nb (turn ((a,.) <$> sent_to b na)).

Definition two_nodes_store_find : bool :=
  let a := start 0 in
  let b := start 1 in
  let a := inject_peer a (PeerInfo_new (sample_node 2) (toy_addr 1)) in
  let b := inject_peer b (PeerInfo_new (sample_node 3) (toy_addr 0)) in
  let a := run_events no_erasure a (turn []) in
  let b := run_events no_erasure b (turn []) in
  let '(a, key) := put no_erasure a (bstr "shared") (turn []) in
  match key with
  | Ok key =>
      let b := deliver (toy_addr 0) (toy_addr 1) a b in
      match (get no_erasure b key (turn [])).2 with
      | Ok (Some v) => eqb v (bstr "shared")
      | _ => match (get no_erasure a key (turn [])).2 with
             | Ok v => eqb v (Some (bstr "shared"))
             | Err _ => false
             end
      end
  | Err _ => false
  end.

(** [std::thread::sleep(..)]: in each round both nodes get what the other sent since. *)
Fixpoint exchange (rounds : nat) (a b : Node) (na nb : nat) : Node * Node * nat * nat :=
  match rounds with
  | O => (a, b, na, nb)
  | S rounds =>
      let to_b := sent_to (toy_addr 1) a in
      let to_a := sent_to (toy_addr 0) b in
      let b := run_events no_erasure b (turn ((toy_addr 0,.) <$> drop na to_b)) in
      let a := run_events no_erasure a (turn ((toy_addr 1,.) <$> drop nb to_a)) in
      exchange rounds a b (length to_b) (length to_a)
  end.

Definition two_nodes_wg_store_find (ida idb : Identity) : bool :=
  let a := Node_bootstrap (start_with ida (cfg_wg 0)) [toy_addr 1] in
  let b := Node_bootstrap (start_with idb (cfg_wg 1)) [toy_addr 0] in
  let '(a, b, na, nb) := exchange 4 a b 0 0 in
  let '(a, key) := put no_erasure a (bstr "wg-shared") (turn []) in
  match key with
  | Ok key =>
      let '(a, b, _, _) := exchange 4 a b na nb in
      match (get no_erasure b key (turn [])).2 with
      | Ok got => eqb got (Some (bstr "wg-shared"))
      | Err _ => false
      end
  | Err _ => false
  end.

Definition mutable_record_test : bool :=
  let ns := bstr "ns" in
  let slt := bstr "salt" in
  let nd := start 0 in
  let pk := vec_to_list (verifying_key (nd_identity nd)) in
  let '(nd, key) := put_mutable no_erasure nd ns slt (bstr "v1") 1 1000 (turn []) in
  match key with
  | Ok key =>
      let '(nd, got) := get no_erasure nd key (turn []) in
      let '(nd, key2) := put_mutable no_erasure nd ns slt (bstr "v2") 2 1000 (turn []) in
      let '(nd, got2) := get no_erasure nd key (turn []) in
      let '(nd, mine) := get_mutable no_erasure nd pk ns slt (turn []) in
      match got, key2, got2, mine with
      | Ok v1, Ok key2, Ok v2, Ok v3 =>
          all_of [eqb v1 (Some (bstr "v1")); eqb key key2; eqb v2 (Some (bstr "v2")); eqb v3 (Some (bstr "v2"))]
      | _, _, _, _ => false
      end
  | Err _ => false
  end.

Definition providers : bool :=
  let key := hash_value (bstr "blob") in
  let '(nd, r) := node_announce no_erasure (start 0) key (bstr "chunk-0") (turn []) in
  match r, (find_providers no_erasure nd key (turn [])).2 with
  | Ok _, Ok p => negb (length p =? 0)
  | _, _ => false
  end.

Definition lookup_step_zero_alloc_arena : bool :=
  let p := PeerInfo_new (mkNodeId (arr_repeat (z2b 1) 32)) (local_at 1) in
  (merge_step (arena_with_capacity 4096) [p] zero_key).2 =? 1.

(** The fuzz loop only asks that decoding returns. *)
Definition codec_fuzz_random_headers : bool :=
  forallb (λ i, let i := Z.of_nat i in
    let rng := write_at (write_at (zeros 64) 0 [z2b (wrap 8 i)]) 1 [z2b (wrap 8 (i * 3))] in
    match Header_decode rng with Some _ | None => true end) (seq 0 200).

Definition chaos_partition_then_heal : bool :=
  let '(a, key) := put no_erasure (start 0) (bstr "part") (turn []) in
  match key with
  | Ok key =>
      match (get no_erasure a key (turn [])).2 with
      | Ok got => bool_decide (is_Some got)
      | Err _ => false
      end
  | Err _ => false
  end.

(** [text.contains(part)] *)
Definition contains (text part : bytes) : bool :=
  existsb (λ i, eqb (take (length part) (drop i text)) part) (seq 0 (length text)).

Definition no_tokio_in_metrics_path : bool := contains (prometheus (start 0)) (bstr "molia_rx_packets").
End NodeTests.

Module GatewayTests.
#[local] Existing Instance no_json.

(** What the gateway writes to a connection that sends [head] lines and then [body]. *)
Definition answer_to (rq : Request) (node : option SocketAddr) (head : list string) (body : bytes) : bytes :=
  let text := concat ((λ l, bstr l ++ crlf) <$> head) ++ bstr "Content-Length: " ++ show_u64 (Z.of_nat (length body)) ++ crlf ++
              bstr "Connection: close" ++ crlf ++ crlf in
  let '(_, t, _) := handle_http [] refuse rq node (∅ : gmap bytes Room) (mkTcpStream [Data text; Data body] [] 4096) in
  t_out t.

(** The node answers the socket of the request, at address 7. *)
Definition gateway_accepts_rpc_to_node : bool :=
  let nd := NodeTests.start 0 in
  let ping := WebrtcTests.ping_bytes 99 1 in
  let nd' := run_events no_erasure nd (NodeTests.turn [(toy_addr 7, ping)]) in
  let rq := mkRequest [] (mkRpcSocket true true true (Got <$> NodeTests.sent_to (toy_addr 7) nd')) in
  let raw := answer_to rq (local_addr nd) ["POST /rpc HTTP/1.1"%string; "Host: localhost"%string] ping in
  match find_double_crlf raw with
  | Some split =>
      match Header_decode (drop (split + 4) raw) with
      | Some h => eqb (h_ty h) Pong && eqb (h_correlation h) 99%Z
      | None => false
      end
  | None => false
  end.

(** The parser of session descriptions refuses the offer. *)
Definition rtc_offer_rejects_bad_sdp : bool :=
  starts_with (bstr "HTTP/1.1 400")
    (answer_to sample_world (Some (local_at 1)) ["POST /rtc/offer HTTP/1.1"%string; "Host: localhost"%string]
       (bstr "not-an-sdp-offer")).
End GatewayTests.

Module ChaosTests.
(** Three nodes that know each other; what the first sends is delivered before they are
    asked. *)
Definition churn_three_nodes_lookup_success : bool :=
  let addr (i : nat) := toy_addr (Z.of_nat i) in
  let others i := filter (λ j, j ≠ i) (seq 0 3) in
  let node i :=
    let nd := NodeTests.start_with sample_identity (NodeTests.chaos_cfg (Z.of_nat i)) in
    let nd := foldl (λ nd j, inject_peer nd (PeerInfo_new (sample_node (Z.of_nat j)) (addr j))) nd (others i) in
    run_events no_erasure nd (NodeTests.turn []) in
  let '(first, key) := put no_erasure (node 0) (bstr "churn-blob") (NodeTests.turn []) in
  match key with
  | Ok key =>
      let served nd := match (get no_erasure nd key (NodeTests.turn [])).2 with
                       | Ok (Some _) => true
                       | _ => false
                       end in
      let rest := (λ i, NodeTests.deliver (addr 0) (addr i) first (node i)) <$> others 0 in
      1 <=? length (filter (eq true) (served <$> first :: rest))
  | Err _ => false
  end.

Definition sybil_prefix_still_serves_honest_put : bool :=
  let '(honest, key) := put no_erasure (NodeTests.start_with sample_identity (NodeTests.chaos_cfg 0)) (bstr "honest") (NodeTests.turn []) in
  match key with
  | Ok key =>
      match (get no_erasure honest key (NodeTests.turn [])).2 with
      | Ok got => eqb got (Some (bstr "honest"))
      | Err _ => false
      end
  | Err _ => false
  end.
End ChaosTests.

(** ** The tests pass *)

Definition other_identity : Identity :=
  let s : SecretKey := arr_repeat (z2b 6) 32 in mkIdentity (mkKeypair s (PublicKey_from s)) (arr_repeat (z2b 4) 32).

Example codec_tests_pass :
  all_of [CodecTests.header_roundtrip; CodecTests.ping_pong_encode; CodecTests.unknown_type_is_none] = true.
Proof. vm_compute. reflexivity. Qed.

Example crypto_tests_pass :
  all_of [CryptoTests.node_id_is_blake3_of_pubkey sample_identity; CryptoTests.binding_roundtrip sample_identity;
          CryptoTests.pow_zero_difficulty_always_passes; CryptoTests.identity_json_roundtrip sample_identity] = true.
Proof. vm_compute. reflexivity. Qed.

Example lookup_tests_pass :
  all_of [LookupTests.terminates_when_no_progress; LookupTests.merge_step_uses_arena;
          ErasureTests.small_blobs_skip] = true.
Proof. vm_compute. reflexivity. Qed.

Example nat_relay_tests_pass :
  all_of [NatTests.classify_same_is_full_cone; NatTests.candidates_include_mapped; NatTests.relay_budget_caps;
          RelayTests.default_off_blocks_data; RelayTests.pick_skips_same_bucket] = true.
Proof. vm_compute. reflexivity. Qed.

Example peerstore_tests_pass : all_of [PeerstoreTests.memory_upsert; PeerstoreTests.wal_roundtrip] = true.
Proof. vm_compute. reflexivity. Qed.

Example pool_tests_pass : all_of [PoolTests.pool_reuses_after_warmup; PoolTests.arena_reset_is_reuse] = true.
Proof. vm_compute. reflexivity. Qed.

Example routing_tests_pass : all_of [RoutingTests.insert_and_closest; RoutingTests.evict_dead] = true.
Proof. vm_compute. reflexivity. Qed.

Example store_tests_pass :
  all_of [StoreTests.signed_by_rejects_tampered_value sample_identity other_identity;
          StoreTests.records_roundtrip_wal sample_identity] = true.
Proof. vm_compute. reflexivity. Qed.

Example sybil_tests_pass : SybilTests.bucket_eventually_denies = true.
Proof. vm_compute. reflexivity. Qed.

Example types_tests_pass :
  all_of [TypesTests.xor_is_symmetric_and_self_inverse; TypesTests.shard_id_power_of_two;
          TypesTests.bucket_index_same_id_is_zero] = true.
Proof. vm_compute. reflexivity. Qed.

Example wg_tests_pass :
  all_of [WgTests.receiver_index_encodes_shard; WgTests.parse_data_header; WgTests.wrap_rpc_roundtrip] = true.
Proof. vm_compute. reflexivity. Qed.

Example webrtc_tests_pass : all_of [WebrtcTests.maps_same_rpc_header; WebrtcTests.dc_pair_delivers_rpc] = true.
Proof. vm_compute. reflexivity. Qed.

Example gateway_tests_pass :
  all_of [GatewayTests.gateway_accepts_rpc_to_node; GatewayTests.rtc_offer_rejects_bad_sdp] = true.
Proof. vm_compute. reflexivity. Qed.

Example node_tests_pass :
  all_of [NodeTests.ping_pong_loopback; NodeTests.store_find_local; NodeTests.two_nodes_store_find;
          NodeTests.two_nodes_wg_store_find sample_identity other_identity; NodeTests.mutable_record_test; NodeTests.providers; NodeTests.lookup_step_zero_alloc_arena;
          NodeTests.codec_fuzz_random_headers; NodeTests.chaos_partition_then_heal;
          NodeTests.no_tokio_in_metrics_path] = true.
Proof. vm_compute. reflexivity. Qed.

Example chaos_tests_pass :
  all_of [ChaosTests.churn_three_nodes_lookup_success; ChaosTests.sybil_prefix_still_serves_honest_put] = true.
Proof. vm_compute. reflexivity. Qed.
