(* ===== verification/Examples.v ===== *)
(** * The example programs

    The programs of [src/examples/] that need nothing but the node's API, as functions from
    the nodes they start, and the events that happen during each of their calls, to what
    they print and whether they end without a panic. *)

From S2P Require Import Prelude Bytes Types Proto Codec Routing Crypto Net Text Peerstore Store Pool Lookup Wg Relay EventLoop Metrics Sybil Erasure Webrtc ShardState Shard ShardInv ShardThms ShardReplies ShardStore Node NodeThms Cli SourceTests.

(** ** Printing *)

(** One character of the [Debug] text of a string; characters beyond ASCII stand for
    themselves, as Rust prints those that are printable. *)
Definition escape_debug (b : byte) : bytes :=
  if (b2z b =? 0)%Z then bstr "\0"
  else if (b2z b =? 9)%Z then bstr "\t"
  else if (b2z b =? 10)%Z then bstr "\n"
  else if (b2z b =? 13)%Z then bstr "\r"
  else if (b2z b =? 34)%Z || (b2z b =? 92)%Z then [z2b 92; b]
  else if (b2z b <? 32)%Z || (b2z b =? 127)%Z then bstr "\u{" ++ show_hex (b2z b) ++ bstr "}"
  else [b].

Definition debug_text (l : bytes) : bytes := [z2b 34] ++ (l ≫= escape_debug) ++ [z2b 34].

Definition debug_option (v : option bytes) : bytes :=
  match v with
  | Some v => bstr "Some(" ++ debug_text v ++ bstr ")"
  | None => bstr "None"
  end.

(** [format!("{:?}", header.ty)] *)
Definition debug_type (t : MessageType) : bytes :=
  bstr match t with
       | Ping => "Ping" | Pong => "Pong" | NegotiateReq => "NegotiateReq" | NegotiateResp => "NegotiateResp"
       | FindNodeReq => "FindNodeReq" | FindNodeResp => "FindNodeResp" | FindValueReq => "FindValueReq"
       | FindValueResp => "FindValueResp" | StoreReq => "StoreReq" | StoreResp => "StoreResp"
       | AnnounceProviderReq => "AnnounceProviderReq" | AnnounceProviderResp => "AnnounceProviderResp"
       | Punch => "Punch" | Relay => "Relay" | TraceHint => "TraceHint" | CacheHint => "CacheHint"
       | ErrorMsg => "Error"
       end.

Section examples.
Context `{TunnOps} `{KeyedHash} `{Protobuf} `{Crc32}.
Context (rs_encode : list bytes → result (list bytes)).

(** What was printed, and whether [main] returned. *)
Definition Printed : Type := bytes * bool.

Definition show_key (k : Key) : bytes := hex_encode (vec_to_list (kid k)).
Definition short_id (i : NodeId) : bytes := hex_encode (take 8 (vec_to_list (nid i))).
Definition id_of (nd : Node) : NodeId := node_id (nd_identity nd).
Definition addr_text (nd : Node) : bytes := from_option addr_to_string [] (local_addr nd).

(** [println!] of [out], then the rest; [expect] ends the program on an error. *)
Definition says (out : bytes) (rest : Printed) : Printed := (line out ++ rest.1, rest.2).

Definition expect {A} (r : result A) (rest : A → Printed) : Printed :=
  match r with
  | Ok a => rest a
  | Err _ => ([], false)
  end.

Definition of_option {A} (o : option A) : result A := from_option Ok (Err "none"%string) o.

Definition put_get_main (nd : Node) (during_put during_get : list Event) : Printed :=
  says (bstr "node " ++ short_id (id_of nd) ++ bstr " on " ++ addr_text nd)
    (let '(nd, r) := put rs_encode nd (bstr "hello from molia") during_put in
     expect r (λ key,
       says (bstr "stored key " ++ show_key key)
         (expect (get rs_encode nd key during_get).2 (λ found,
            match found with
            | Some value => says (bstr "fetched " ++ from_utf8_lossy value) ([], true)
            | None => ([], false)
            end)))).

Definition mutable_main (nd : Node) (now : Z) (put1 get1 put2 get2 : list Event) : Printed :=
  let '(nd, r) := put_mutable rs_encode nd (bstr "profile") (bstr "v1") (bstr "alice") 1 now put1 in
  expect r (λ key,
    says (bstr "mutable key " ++ show_key key)
      (let '(nd, r) := get rs_encode nd key get1 in
       expect r (λ v,
         says (bstr "seq 1 -> " ++ debug_option (from_utf8_lossy <$> v))
           (let '(nd, r) := put_mutable rs_encode nd (bstr "profile") (bstr "v1") (bstr "alice-updated") 2 now put2 in
            expect r (λ key2,
              if bool_decide (key = key2) then
                expect (get rs_encode nd key get2).2 (λ v,
                  says (bstr "seq 2 -> " ++ debug_option (from_utf8_lossy <$> v)) ([], true))
              else ([], false)))))).

Definition providers_main (nd : Node) (announcing finding : list Event) : Printed :=
  let key := hash_value (bstr "large-blob-not-stored-in-dht") in
  let '(nd, r) := node_announce rs_encode nd key (bstr "chunk-0+size=1048576") announcing in
  expect r (λ _,
    expect (find_providers rs_encode nd key finding).2 (λ found,
      says (bstr "content key " ++ show_key key)
        (says (bstr "providers: " ++ show_u64 (Z.of_nat (length found)))
           (foldr (λ p, says (bstr "  " ++ short_id p.1 ++ bstr " meta=" ++ from_utf8_lossy p.2)) ([], true) found)))).

(** The calls of the two nodes one after the other; [starting] are the events of A and B
    while the program sleeps.  The result of a call of B is printed after A's. *)
Definition two_nodes_main (a b : Node) (starting : list Event * list Event)
    (during_put : list Event) (meanwhile : Node → list Event) (get_a get_b : list Event) : Printed :=
  expect (of_option (local_addr b)) (λ addr_b, expect (of_option (local_addr a)) (λ addr_a,
  let a := inject_peer a (PeerInfo_new (id_of b) addr_b) in
  let b := inject_peer b (PeerInfo_new (id_of a) addr_a) in
  let a := run_events rs_encode a starting.1 in
  let b := run_events rs_encode b starting.2 in
  says (bstr "A " ++ short_id (id_of a) ++ bstr " @ " ++ addr_text a)
    (says (bstr "B " ++ short_id (id_of b) ++ bstr " @ " ++ addr_text b)
       (let '(a, r) := put rs_encode a (bstr "shared-record") during_put in
        expect r (λ key,
          says (bstr "A stored " ++ show_key key)
            (let b := run_events rs_encode b (meanwhile a) in
             expect (get rs_encode a key get_a).2 (λ from_a,
               expect (get rs_encode b key get_b).2 (λ from_b,
                 says (bstr "A -> " ++ debug_option (from_utf8_lossy <$> from_a))
                   (says (bstr "B -> " ++ debug_option (from_utf8_lossy <$> from_b)) ([], true)))))))))).

(** The client at [sock] sends a PING; [reply] is what it receives, and from where. *)
Definition ping_main (nd : Node) (sock : SocketAddr) (now : Z) (reply : bytes → option (SocketAddr * bytes)) : Printed :=
  let '(buf, n) := encode_ping 7 now (replicate 128 (z2b 0)) in
  match n with
  | None => ([], false)
  | Some n =>
      match reply (take n buf) with
      | None => ([], false)
      | Some (src, got) =>
          match Header_decode (take 256 got), decode_body proto.Pong (take 256 got) with
          | Some header, Some pong =>
              says (bstr "PING " ++ addr_to_string sock ++ bstr " -> " ++ addr_text nd)
                (says (bstr "PONG from " ++ addr_to_string src ++ bstr " type=" ++ debug_type (h_ty header) ++
                       bstr " corr=" ++ show_u64 (h_correlation header) ++
                       bstr " ts=" ++ show_u64 (proto.pong_now_unix_ms pong))
                   ([], bool_decide (h_ty header = Pong) && (h_correlation header =? 7)%Z))
          | _, _ => ([], false)
          end
      end
  end.

Definition wg_text (nd : Node) : bytes := hex_encode (take 8 (vec_to_list (wg_public (nd_identity nd)))).

(** [peer] of [wg_nodes.rs]. *)
Definition keyed_peer (nd : Node) (addr : SocketAddr) : PeerInfo :=
  set_x25519 (wg_public (nd_identity nd)) (PeerInfo_new (id_of nd) addr).

Definition wg_nodes_main (a b : Node) (during_put during_get : list Event) : Printed :=
  expect (of_option (local_addr b)) (λ addr_b, expect (of_option (local_addr a)) (λ addr_a,
  let a := inject_peer a (keyed_peer b addr_b) in
  let b := inject_peer b (keyed_peer a addr_a) in
  says (bstr "A id=" ++ short_id (id_of a) ++ bstr " wg=" ++ wg_text a ++ bstr " @ " ++ addr_text a)
    (says (bstr "B id=" ++ short_id (id_of b) ++ bstr " wg=" ++ wg_text b ++ bstr " @ " ++ addr_text b)
       (let '(a, r) := put rs_encode a (bstr "wg-local") during_put in
        expect r (λ key,
          let '(a, r) := get rs_encode a key during_get in
          expect r (λ got,
            says (bstr "A local STORE/FIND_VALUE -> " ++ debug_option (from_utf8_lossy <$> got))
              (let m := node_metrics a in
               says (bstr "A metrics rx=" ++ show_u64 (rx_packets m) ++ bstr " tx=" ++ show_u64 (tx_packets m) ++
                     bstr " wg_decap_ok=" ++ show_u64 (wg_decap_ok m) ++
                     bstr " wg_decap_fail=" ++ show_u64 (wg_decap_fail m)) ([], true)))))))).

Definition wg_binding_main (id : Identity) : Printed :=
  let ed := vec_to_list (verifying_key id) in
  let x := vec_to_list (wg_public id) in
  let sig := vec_to_list (binding_signature id) in
  says (bstr "NodeID     " ++ hex_encode (vec_to_list (nid (node_id id))))
    (says (bstr "Ed25519    " ++ hex_encode ed)
       (says (bstr "X25519     " ++ hex_encode x)
          (says (bstr "binding    " ++ show_u64 (Z.of_nat (length sig)) ++ bstr " bytes")
             (if verify_binding ed x sig && negb (verify_binding ed x (replicate 64 (z2b 0)))
              then says (bstr "OK  Ed25519→X25519 binding verifies") ([], true)
              else ([], false))))).
End examples.

#[local] Existing Instance toy_crypto.
#[local] Existing Instance toy_tunn.
#[local] Existing Instance toy_keyed.
#[local] Existing Instance crc_ieee_inst.
#[local] Existing Instance wire_protobuf.

(** ** What they print *)

Definition lines (l : list bytes) : bytes := l ≫= line.

Example put_get_prints :
  let nd := NodeTests.start 0 in
  put_get_main no_erasure nd (NodeTests.turn []) (NodeTests.turn []) =
    (lines [bstr "node " ++ short_id (id_of nd) ++ bstr " on 0.0.0.0:5000";
            bstr "stored key " ++ show_key (hash_value (bstr "hello from molia"));
            bstr "fetched hello from molia"], true).
Proof. vm_compute. reflexivity. Qed.

Example mutable_prints :
  let nd := NodeTests.start 0 in
  mutable_main no_erasure nd 1000 (NodeTests.turn []) (NodeTests.turn []) (NodeTests.turn []) (NodeTests.turn []) =
    (lines [bstr "mutable key " ++ show_key (mutable_key (vec_to_list (verifying_key (nd_identity nd)))
                                               (bstr "profile") (bstr "v1"));
            bstr "seq 1 -> " ++ debug_option (Some (bstr "alice"));
            bstr "seq 2 -> " ++ debug_option (Some (bstr "alice-updated"))], true).
Proof. vm_compute. reflexivity. Qed.

Example providers_prints :
  let nd := NodeTests.start 0 in
  providers_main no_erasure nd (NodeTests.turn []) (NodeTests.turn []) =
    (lines [bstr "content key " ++ show_key (hash_value (bstr "large-blob-not-stored-in-dht"));
            bstr "providers: 1";
            bstr "  " ++ short_id (id_of nd) ++ bstr " meta=chunk-0+size=1048576"], true).
Proof. vm_compute. reflexivity. Qed.

(** B gets the STORE request A has sent it. *)
Example two_nodes_print :
  let a := NodeTests.start 0 in
  let b := NodeTests.start_with other_identity (NodeTests.cfg 1) in
  let arrived a := NodeTests.turn ((toy_addr 0,.) <$> NodeTests.sent_to (toy_addr 1) a) in
  two_nodes_main no_erasure a b (NodeTests.turn [], NodeTests.turn []) (NodeTests.turn []) arrived
      (NodeTests.turn []) (NodeTests.turn []) =
    (lines [bstr "A " ++ short_id (id_of a) ++ bstr " @ 0.0.0.0:5000";
            bstr "B " ++ short_id (id_of b) ++ bstr " @ 0.0.0.1:5001";
            bstr "A stored " ++ show_key (hash_value (bstr "shared-record"));
            bstr "A -> " ++ debug_option (Some (bstr "shared-record"));
            bstr "B -> " ++ debug_option (Some (bstr "shared-record"))], true).
Proof. vm_compute. reflexivity. Qed.

Example ping_prints :
  let nd := NodeTests.start 0 in
  let reply ping := (toy_addr 0,.) <$> last (NodeTests.sent_to (toy_addr 7)
                      (run_events no_erasure nd (NodeTests.turn [(toy_addr 7, ping)]))) in
  ping_main nd (toy_addr 7) 1 reply =
    (lines [bstr "PING 0.0.0.7:5007 -> 0.0.0.0:5000";
            bstr "PONG from 0.0.0.0:5000 type=Pong corr=7 ts=1000000"], true).
Proof. vm_compute. reflexivity. Qed.

(** Putting over an encrypted node stores locally; the request for B waits for a session. *)
Example wg_nodes_print :
  let a := NodeTests.start_with sample_identity (NodeTests.cfg_wg 0) in
  let b := NodeTests.start_with other_identity (NodeTests.cfg_wg 1) in
  wg_nodes_main no_erasure a b (NodeTests.turn []) (NodeTests.turn []) =
    (lines [bstr "A id=" ++ short_id (id_of a) ++ bstr " wg=" ++ wg_text a ++ bstr " @ 0.0.0.0:5000";
            bstr "B id=" ++ short_id (id_of b) ++ bstr " wg=" ++ wg_text b ++ bstr " @ 0.0.0.1:5001";
            bstr "A local STORE/FIND_VALUE -> " ++ debug_option (Some (bstr "wg-local"));
            bstr "A metrics rx=0 tx=1 wg_decap_ok=0 wg_decap_fail=0"], true).
Proof. vm_compute. reflexivity. Qed.

Example wg_binding_prints : (wg_binding_main sample_identity).2 = true.
Proof. vm_compute. reflexivity. Qed.
