(* ===== verification/Demos.v ===== *)
(** * The demonstrations of WireGuard and the browser gateway

    The programs of [src/examples/] and [src/docs/security/] that put the library's parts
    together themselves: tunnels ([wg_handshake.rs], [wireguard-example.rs]), engines
    ([wg_engine.rs], [wg_udp.rs]), a data channel in front of a node ([webrtc_dc.rs]) and
    the gateway without a node ([webrtc_play.rs]).  Each is a function from what happens
    around it to what it prints and whether it ends without a panic ([Printed] of
    [Examples.v]). *)

From S2P Require Import Prelude Bytes Types Proto Codec Routing Crypto Net Text Peerstore Store Pool Wg Tunnels Relay EventLoop Metrics Sybil Erasure Webrtc WebServe ShardState Shard ShardInv ShardThms ShardStore Node NodeThms Cli SourceTests Examples.

(** ** Printing *)

(** [{:x}] and [{:#010x}] of a [u32]. *)
Definition hex32 (n : Z) : bytes := from_digit <$> digits 16 8 n.
Definition hex32_padded (n : Z) : bytes := bstr "0x" ++ replicate (8 - length (hex32 n)) (z2b 48) ++ hex32 n.

Definition zeros (n : nat) : bytes := replicate n (z2b 0).
Definition show_len (n : nat) : bytes := show_u64 (Z.of_nat n).
Definition panic : Printed := ([], false).
Definition need {A} (o : option A) (rest : A → Printed) : Printed := from_option rest panic o.

(** [print_wg] of [wg_handshake.rs] *)
Definition print_wg (label pkt : bytes) (rest : Printed) : Printed :=
  need (parse_wg_header pkt) (λ h,
    says (label ++ bstr ": " ++ show_len (length pkt) ++ bstr " bytes type=" ++ show_u64 (wg_ty h) ++
          bstr " receiver_index=" ++ hex32_padded (receiver_index h) ++
          bstr " shard=" ++ show_u64 (shard_from_receiver_index (receiver_index h))) rest).

Section demos.
Context `{TunnWire} `{Protobuf}.

(** ** Two tunnels *)

(** [fuel] bounds the loops of each pump ([pump_ends]). *)
Definition wg_handshake_main (fuel : nat) (a_id b_id : Identity) (now : Z) : Printed :=
  let a_idx := encode_receiver_index 0 1 in
  let b_idx := encode_receiver_index 1 1 in
  let a := Tunn_new (wg_secret a_id) (wg_public b_id) 20 a_idx in
  let b := Tunn_new (wg_secret b_id) (wg_public a_id) 20 b_idx in
  let index_line who idx :=
    bstr who ++ bstr " receiver_index=" ++ hex32_padded idx ++ bstr " shard=" ++ show_u64 (shard_from_receiver_index idx) in
  says (index_line "A" a_idx) (says (index_line "B" b_idx)
  (let '(a, r, out) := format_handshake_initiation a (zeros 2048) false in
   let started pkts :=
     need (pump fuel fuel (mkLink a b pkts [] [] [])) (λ l,
       let '(rpc, rpc_n) := encode_ping 7 now (zeros 128) in
       need rpc_n (λ rpc_n,
         let inner := wrap_ipv4_summed (take rpc_n rpc) in
         let '(a, r, enc) := Tunn_encapsulate (l_a l) inner (zeros (length inner + 256)) in
         match r with
         | WriteToNetwork n =>
             print_wg (bstr "A→B data") (take n enc)
               (need (pump fuel fuel (mkLink a (l_b l) (a2b l ++ [take n enc]) (b2a l) (a_inner l) (b_inner l))) (λ l,
                  need (head (b_inner l)) (λ got,
                    if length got <? 28 then panic else
                    let payload := drop 28 got in
                    need (Header_decode payload) (λ h, need (decode_body proto.Ping payload) (λ pongish,
                      says (bstr "B inner RPC type=" ++ debug_type (h_ty h) ++ bstr " corr=" ++ show_u64 (h_correlation h) ++
                            bstr " ts=" ++ show_u64 (proto.ping_now_unix_ms pongish))
                        (says (bstr "OK  PING survived WG (" ++ show_len (length got) ++ bstr " inner bytes)") ([], true)))))))
         | _ => panic
         end)) in
   match r with
   | WriteToNetwork n => print_wg (bstr "A→B handshake") (take n out) (started [take n out])
   | _ => started []
   end)).

(** [main] of [wireguard-example.rs]. *)
Definition wireguard_example_main (fuel : nat) (a_sk b_sk : StaticSecret) : Printed :=
  let a := Tunn_new a_sk (X25519Public_from b_sk) 25 0 in
  let b := Tunn_new b_sk (X25519Public_from a_sk) 25 1 in
  let '(a, r, out) := format_handshake_initiation a (zeros 2048) false in
  let a2b_net := match r with WriteToNetwork n => [take n out] | _ => [] end in
  need (pump fuel fuel (mkLink a b a2b_net [] [] [])) (λ l,
    let inner := build_ipv4_udp (Ipv4Addr_new 10 0 0 1) (Ipv4Addr_new 10 0 0 2) 12345 54321 (bstr "hello over boringtun") in
    let '(a, r, enc_buf) := Tunn_encapsulate (l_a l) inner (zeros (length inner + 256)) in
    match r with
    | WriteToNetwork n =>
        need (pump fuel fuel (mkLink a (l_b l) (a2b l ++ [take n enc_buf]) (b2a l) (a_inner l) (b_inner l))) (λ l,
          need (head (b_inner l)) (λ received,
            if bool_decide (inner = received)
            then says (bstr "OK ✅  B received " ++ show_len (length received) ++ bstr " bytes over the tunnel") ([], true)
            else panic))
    | _ => panic
    end).

(** ** Two engines *)

(** An engine walks over its sessions in the order of the map; here it has one. *)
Definition decap (e : WgEngine) (src : SocketAddr) (d scratch : bytes) : WgEngine * Decap * bytes :=
  decapsulate e (all_sessions e) src d scratch.

Definition local_addr_at (port : Z) : SocketAddr := AddrV4 LOCALHOST port.

(** The result of [match b.decapsulate(..)] at the end of [wg_engine.rs]. *)
Definition wg_engine_end (a b : WgEngine) (b_id : Identity) (a_addr b_addr : SocketAddr) (inner out scratch : bytes)
    (r : Decap) : Printed :=
  match r with
  | Plaintext len =>
      says (bstr "B decapsulated " ++ show_len len ++ bstr " inner bytes")
        (if 28 <=? len then says (bstr "OK  WgEngine handshake + data") ([], true) else panic)
  | Network len =>
      let extra := take len scratch in
      let '(a, _, scratch) := decap a b_addr extra scratch in
      let '(a, data_n, out) := encapsulate_to a b_addr (wge_public b) (Some (node_id b_id)) inner out in
      need data_n (λ data_n,
        match (decap b a_addr (take data_n out) scratch).1.2 with
        | Plaintext len =>
            says (bstr "B decapsulated " ++ show_len len ++ bstr " inner bytes (after extra handshake)")
              (says (bstr "OK  WgEngine handshake + data") ([], true))
        | _ => panic
        end)
  | _ => panic
  end.

Definition wg_engine_main (a_id b_id : Identity) (now : Z) : Printed :=
  let a_addr := local_addr_at 4001 in
  let b_addr := local_addr_at 4002 in
  let a := WgEngine_new (wg_secret a_id) 0 in
  let b := WgEngine_new (wg_secret b_id) 3 in
  let '(a, a_rx) := add_peer a (wge_public b) (Some (node_id b_id)) (Some b_addr) in
  let '(b, b_rx) := add_peer b (wge_public a) (Some (node_id a_id)) (Some a_addr) in
  let index_line who idx :=
    bstr who ++ bstr " session index=" ++ hex32_padded idx ++ bstr " (shard " ++
    show_u64 (shard_from_receiver_index idx) ++ bstr ")" in
  says (index_line "A" a_rx) (says (index_line "B" b_rx)
  (if negb ((a_rx =? encode_receiver_index 0 1) && (shard_from_receiver_index b_rx =? 3))%Z then panic else
   let '(rpc, n) := encode_ping 1 now (zeros 64) in
   need n (λ n,
     let inner := wrap_ipv4 (take n rpc) in
     let '(a, hs_n, out) := encapsulate_to a b_addr (wge_public b) (Some (node_id b_id)) inner (zeros 2048) in
     need hs_n (λ hs_n, need (parse_wg_header (take hs_n out)) (λ hs,
       says (bstr "A→B " ++ show_len hs_n ++ bstr " bytes WG type=" ++ show_u64 (wg_ty hs))
       (let '(b, r, scratch) := decap b a_addr (take hs_n out) (zeros SCRATCH) in
        match r with
        | Network len =>
            need (parse_wg_header (take len scratch)) (λ resp,
              says (bstr "B→A handshake response type=" ++ show_u64 (wg_ty resp))
              (let '(a, _, scratch) := decap a b_addr (take len scratch) scratch in
               let '(a, data_n, out) := encapsulate_to a b_addr (wge_public b) (Some (node_id b_id)) inner out in
               need data_n (λ data_n, need (parse_wg_header (take data_n out)) (λ data,
                 says (bstr "A→B data type=" ++ show_u64 (wg_ty data) ++ bstr " receiver_index=" ++
                       hex32_padded (receiver_index data) ++ bstr " shard=" ++
                       show_u64 (shard_from_receiver_index (receiver_index data)))
                 (let '(b, r, scratch) := decap b a_addr (take data_n out) scratch in
                  wg_engine_end a b b_id a_addr b_addr inner out scratch r)))))
        | _ => panic
        end)))))).

(** ** Two engines over sockets *)

Definition wg_label (pkt : bytes) : bytes :=
  match parse_wg_header pkt with
  | Some h => bstr "WG type=" ++ show_u64 (wg_ty h) ++ bstr " rx=0x" ++ hex32 (receiver_index h)
  | None => bstr "not WG"
  end.

(** Datagrams with their sender or destination. *)
Definition Mail : Type := list (SocketAddr * bytes).

(** [drain]: what [recv_from] returns until it fails, each cut to the buffer.  The result
    is the engine, the scratch buffer, what was sent, what was printed, and [got_plain]. *)
Fixpoint drain (arrivals : Mail) (engine : WgEngine) (peer : SocketAddr) (scratch : bytes) (got_plain : bool)
    : WgEngine * bytes * Mail * bytes * bool :=
  match arrivals with
  | [] => (engine, scratch, [], [], got_plain)
  | (src, d) :: arrivals =>
      let d := take 2048 d in
      let text := line (bstr "  recv " ++ show_len (length d) ++ bstr " bytes " ++ addr_to_string src ++
                        bstr " (" ++ wg_label d ++ bstr ")") in
      let '(engine, r, scratch) := decap engine src d scratch in
      let '(sent, text', got) :=
        match r with
        | Network len => ([(peer, take len scratch)], [], got_plain)
        | Plaintext len => ([], line (bstr "  decapsulated " ++ show_len len ++ bstr " inner bytes"), true)
        | Cookie c => ([(peer, c)], [], got_plain)
        | Drop => ([], [], got_plain)
        end in
      let '(engine, scratch, sent', text'', got) := drain arrivals engine peer scratch got in
      (engine, scratch, sent ++ sent', text ++ text' ++ text'', got)
  end.

(** The loop up to the deadline; each turn is given what arrives at B and at A.  The result
    is what was printed and sent, and [got_plain]. *)
Fixpoint udp_loop (turns : list (Mail * Mail)) (a b : WgEngine) (b_id : Identity) (a_addr b_addr : SocketAddr)
    (inner scratch out : bytes) : bytes * Mail * bool :=
  match turns with
  | [] => ([], [], false)
  | (at_b, at_a) :: turns =>
      let '(b, scratch, sent_b, text_b, got) := drain at_b b a_addr scratch false in
      let '(a, scratch, sent_a, text_a, got) := drain at_a a b_addr scratch got in
      if (got : bool) then (text_b ++ text_a, sent_b ++ sent_a, true)
      else
        let '(a, n, out) := encapsulate_to a b_addr (wge_public b) (Some (node_id b_id)) inner out in
        let again := from_option (λ n, [(b_addr, take n out)]) [] n in
        let '(text, sent, got) := udp_loop turns a b b_id a_addr b_addr inner scratch out in
        (text_b ++ text_a ++ text, sent_b ++ sent_a ++ again ++ sent, got)
  end.

(** What it prints, and what the two sockets send. *)
Definition wg_udp_main (a_id b_id : Identity) (a_addr b_addr : SocketAddr) (turns : list (Mail * Mail)) : Printed * Mail :=
  let a := WgEngine_new (wg_secret a_id) 0 in
  let b := WgEngine_new (wg_secret b_id) 1 in
  let '(a, _) := add_peer a (wge_public b) (Some (node_id b_id)) (Some b_addr) in
  let '(b, _) := add_peer b (wge_public a) (Some (node_id a_id)) (Some a_addr) in
  let banner := line (bstr "A UDP " ++ addr_to_string a_addr ++ bstr "  B UDP " ++ addr_to_string b_addr) in
  let inner := wrap_ipv4 (bstr "hello-over-wg") in
  let '(a, n, out) := encapsulate_to a b_addr (wge_public b) (Some (node_id b_id)) inner (zeros 2048) in
  match n with
  | None => ((banner, false), [])
  | Some n =>
      let first := line (bstr "A sent " ++ show_len n ++ bstr " bytes (" ++ wg_label (take n out) ++ bstr ")") in
      let '(text, sent, got) := udp_loop turns a b b_id a_addr b_addr inner (zeros SCRATCH) out in
      let ok := if (got : bool) then line (bstr "OK  UDP WireGuard path delivered inner packet") else [] in
      ((banner ++ first ++ text ++ ok, got), (b_addr, take n out) :: sent)
  end.
End demos.

(** ** A data channel in front of a node *)

Section channel.
Context `{TunnOps} `{KeyedHash} `{Protobuf} `{Crc32}.

Definition encode_local_ping (corr : Z) : option bytes :=
  let '(buf, n) := encode_ping corr 1 (zeros 256) in (λ n, take n buf) <$> n.

Definition encode_store (corr : Z) (value : bytes) (k : Key) (now : Z) : option bytes :=
  let rec := {| key := k; value := value; sequence := 0; ttl_secs := 24 * 3600; not_before_unix := 0;
                owner_pubkey := []; signature := []; kind := KIND_IMMUTABLE; namespace := []; salt := [];
                stored_unix := now; cache := false |} in
  let '(buf, n) := encode_message (Header_request StoreReq Coordination corr)
                     (proto.mkStoreReq (StoredRecord_encode rec) [] []) (zeros 512) in
  (λ n, take n buf) <$> n.

Definition encode_find (corr : Z) (k : Key) : option bytes :=
  let '(buf, n) := encode_message (Header_request FindValueReq Coordination corr)
                     (proto.mkFindValueReq (vec_to_list (kid k)) 16) (zeros 256) in
  (λ n, take n buf) <$> n.

(** One turn of the thread of [spawn_dc_gateway], at the second endpoint: [reply] is what
    [recv_from] returns.  The result has what was sent to the node. *)
Definition dc_gateway_turn (p : DcPair) (reply : option bytes) : DcPair * list bytes :=
  let '(p, msg) := dc_recv p false in
  let sent := match msg with Some msg => if accept_rpc msg then [msg] else [] | None => [] end in
  match take 2048 <$> reply with
  | Some got => (if accept_rpc got then dc_send p false got else p, sent)
  | None => (p, sent)
  end.

Fixpoint dc_gateway (p : DcPair) (replies : list (option bytes)) : DcPair * list bytes :=
  match replies with
  | [] => (p, [])
  | reply :: replies =>
      let '(p, sent) := dc_gateway_turn p reply in
      let '(p, sent') := dc_gateway p replies in (p, sent ++ sent')
  end.

(** [rpc]: [None] is a panic; the gateway makes the turns of [replies] meanwhile. *)
Definition dc_rpc (p : DcPair) (datagram : bytes) (replies : list (option bytes)) : option (DcPair * bytes) :=
  if negb (accept_rpc datagram) then None
  else
    let '(p, _) := dc_gateway (dc_send p true datagram) replies in
    let '(p, r) := dc_recv p true in (λ r, (p, r)) <$> r.

(** The three exchanges of [main] in [webrtc_dc.rs], each with what follows it. *)
Definition dc_ping (p : DcPair) (replies : list (option bytes)) (rest : DcPair → Printed) : Printed :=
  need (encode_local_ping 11) (λ d, need (dc_rpc p d replies) (λ '(p, pong), need (frame_rpc pong) (λ '(h, _),
    if negb (bool_decide (h_ty h = Pong) && (h_correlation h =? 11)%Z) then panic
    else need (decode_body proto.Pong pong) (λ body,
      says (bstr "PING -> PONG corr=" ++ show_u64 (h_correlation h) ++ bstr " ts=" ++ show_u64 (proto.pong_now_unix_ms body))
        (rest p))))).

Definition dc_store (p : DcPair) (k : Key) (value : bytes) (now : Z) (replies : list (option bytes))
    (rest : DcPair → Printed) : Printed :=
  need (encode_store 21 value k now) (λ d, need (dc_rpc p d replies) (λ '(p, store_reply),
    need (Header_decode store_reply) (λ sh,
      if negb (bool_decide (h_ty sh = StoreResp)) then panic
      else need (decode_body proto.StoreResp store_reply) (λ sr,
        if negb (proto.sr_code sr =? STORE_OK)%Z then panic
        else says (bstr "STORE " ++ show_key k ++ bstr " -> ok") (rest p))))).

Definition dc_find (p : DcPair) (k : Key) (value : bytes) (replies : list (option bytes)) : Printed :=
  need (encode_find 22 k) (λ d, need (dc_rpc p d replies) (λ '(p, get_reply), need (Header_decode get_reply) (λ gh,
    if negb (bool_decide (h_ty gh = FindValueResp)) then panic
    else need (decode_body proto.FindValueResp get_reply) (λ fv,
      match proto.fvr_result fv with
      | Some (proto.ResultRecord b) =>
          need (decode_msg (T := proto.Record_) b) (λ rec,
            says (bstr "FIND_VALUE -> " ++ from_utf8_lossy (proto.r_value rec))
              (if bool_decide (proto.r_value rec = value)
               then says (bstr "OK  WebRTC DataChannel shim delivered ping + put/get") ([], true) else panic))
      | _ => panic
      end)))).

Definition webrtc_dc_main (nd : Node) (now : Z) (ping store find : list (option bytes)) : Printed :=
  let value := bstr "hello-over-webrtc" in
  let k := hash_value value in
  says (bstr "node " ++ short_id (id_of nd) ++ bstr " @ " ++ addr_text nd ++ bstr "  channel=molia  " ++
        multiaddr (bstr "local-dc"))
    (dc_ping dc_pair ping (λ p, dc_store p k value now store (λ p, dc_find p k value find))).
End channel.

(** ** The gateway without a node *)

(** [bind] is what binding the listener at an address gives, [evs] what happens to it. *)
Definition webrtc_play_main `{Json} (HTML : bytes) (accept_offer : bytes → SocketAddr → bytes + bytes)
    (args : list bytes) (bind : SocketAddr → result SocketAddr) (evs : list ServerEvent) : Printed :=
  need (addr_parse (default DEFAULT_GATEWAY (args !! 1))) (λ addr,
    says (bstr "Molia WebRTC playground  http://" ++ addr_to_string addr)
      (says (bstr "Open that URL in two tabs: Offerer in one, Answerer in the other.")
         (expect (serve_gateway HTML accept_offer None (bind addr) evs) (λ _, ([], true))))).

(** ** What they print *)

Module Tunnel.
#[local] Existing Instance toy_crypto.
#[local] Existing Instance shake_tunn.
#[local] Existing Instance shake_wire.
#[local] Existing Instance wire_protobuf.

Example wg_handshake_prints :
  wg_handshake_main 8 sample_identity other_identity 5 =
    (lines [bstr "A receiver_index=0x00000001 shard=0";
            bstr "B receiver_index=0x01000001 shard=1";
            bstr "A→B handshake: 40 bytes type=1 receiver_index=0x00000001 shard=0";
            bstr "A→B data: 53 bytes type=4 receiver_index=0x01000001 shard=1";
            bstr "B inner RPC type=Ping corr=7 ts=5";
            bstr "OK  PING survived WG (45 inner bytes)"], true).
Proof. vm_compute. reflexivity. Qed.

Example wireguard_example_prints :
  wireguard_example_main 8 (arr_repeat (z2b 1) 32) (arr_repeat (z2b 2) 32) =
    (lines [bstr "OK ✅  B received 48 bytes over the tunnel"], true).
Proof. vm_compute. reflexivity. Qed.

Example wg_engine_prints :
  wg_engine_main sample_identity other_identity 5 =
    (lines [bstr "A session index=0x00000001 (shard 0)";
            bstr "B session index=0x03000001 (shard 3)";
            bstr "A→B 40 bytes WG type=1";
            bstr "B→A handshake response type=2";
            bstr "A→B data type=4 receiver_index=0x03000001 shard=3";
            bstr "B decapsulated 45 inner bytes";
            bstr "OK  WgEngine handshake + data"], true).
Proof. vm_compute. reflexivity. Qed.

(** Everything sent arrives in the next reading of the other socket. *)
Example wg_udp_prints :
  let a := toy_addr 1 in
  let b := toy_addr 2 in
  let run := wg_udp_main sample_identity other_identity a b in
  let sent_to_b turns := (a,.) <$> ((filter (λ m, m.1 = b) (run turns).2).*2) in
  let sent_to_a turns := (b,.) <$> ((filter (λ m, m.1 = a) (run turns).2).*2) in
  let init := sent_to_b [] in
  let first := (init, sent_to_a [(init, [])]) in
  let second := (drop 1 (sent_to_b [first]), []) in
  (run [first; second]).1 =
    (lines [bstr "A UDP 0.0.0.1:5001  B UDP 0.0.0.2:5002";
            bstr "A sent 40 bytes (WG type=1 rx=0x1)";
            bstr "  recv 40 bytes 0.0.0.1:5001 (WG type=1 rx=0x1)";
            bstr "  recv 12 bytes 0.0.0.2:5002 (WG type=2 rx=0x1000001)";
            bstr "  recv 8 bytes 0.0.0.1:5001 (WG type=4 rx=0x1000001)";
            bstr "  recv 49 bytes 0.0.0.1:5001 (WG type=4 rx=0x1000001)";
            bstr "  decapsulated 41 inner bytes";
            bstr "OK  UDP WireGuard path delivered inner packet"], true).
Proof. vm_compute. reflexivity. Qed.
End Tunnel.

Module Channel.
#[local] Existing Instance toy_crypto.
#[local] Existing Instance toy_tunn.
#[local] Existing Instance toy_keyed.
#[local] Existing Instance crc_ieee_inst.
#[local] Existing Instance wire_protobuf.

(** The gateway's socket is at address 7; what the node sends there arrives in its next
    turn. *)
Definition answer (nd : Node) (d : option bytes) : Node * list (option bytes) :=
  let nd := run_events no_erasure nd (NodeTests.turn [(toy_addr 7, default [] d)]) in
  (nd, [None; last (NodeTests.sent_to (toy_addr 7) nd)]).

Example webrtc_dc_prints :
  let nd := NodeTests.start 0 in
  let value := bstr "hello-over-webrtc" in
  let '(nd1, ping) := answer nd (encode_local_ping 11) in
  let '(nd2, store) := answer nd1 (encode_store 21 value (hash_value value) 1000) in
  let '(nd3, find) := answer nd2 (encode_find 22 (hash_value value)) in
  webrtc_dc_main nd 1000 ping store find =
    (lines [bstr "node " ++ short_id (id_of nd) ++ bstr " @ 0.0.0.0:5000  channel=molia  /webrtc/local-dc";
            bstr "PING -> PONG corr=11 ts=1000000";
            bstr "STORE " ++ show_key (hash_value value) ++ bstr " -> ok";
            bstr "FIND_VALUE -> hello-over-webrtc";
            bstr "OK  WebRTC DataChannel shim delivered ping + put/get"], true).
Proof. vm_compute. reflexivity. Qed.
End Channel.

(** Without an argument the gateway listens at its default address. *)
Example webrtc_play_prints `{Json} (HTML : bytes) (accept_offer : bytes → SocketAddr → bytes + bytes) :
  webrtc_play_main HTML accept_offer [bstr "webrtc_play"] Ok [] =
    (lines [bstr "Molia WebRTC playground  http://127.0.0.1:9080";
            bstr "Open that URL in two tabs: Offerer in one, Answerer in the other."], true).
Proof. vm_compute. reflexivity. Qed.
